(* ===== verification/_CoqProject ===== *)
-Q . S2P
Prelude.v
Types.v
Codec.v
Config.v
Eclipse.v
Crypto.v
Vrf.v
Kzg.v
Merkle.v
MptNode.v
Mpt.v
MptRep.v
MptRefine.v
MptSpec.v
MptProof.v
Store.v
StoreCodec.v
Blocks.v
Recovery.v
Tries.v
ExecBase.v
Expiry.v
Vote.v
Leader.v
Wal.v
Quorum.v
Da.v
Gossip.v
Tendermint.v
Staking.v
Slash.v
Wasm.v
Mempool.v
Wire.v
Topics.v
Exec.v
ExecSpec.v
Stm.v
StmSpec.v
Builder.v
Limits.v
Node.v
Snapshot.v
Live.v
LiveSpec.v
Rpc.v
Sdk.v
Faucet.v
Metrics.v
Devnet.v
Light.v
