(* ===== verification/Prelude.v ===== *)
(** * A verified model of the L1 node

    The repository is a proof-of-stake blockchain node in Rust, one crate per
    layer under [src/crates/].  A transaction arrives by gossip or JSON-RPC
    ([network], [rpc], [node]), waits in the [mempool], is put into a block
    and executed ([execution]) against the world state ([state]); validators
    agree on the block ([consensus]), it is written to disk ([storage]) and its
    data is spread in coded chunks ([da]); [light] is the client that trusts
    headers only, [sdk] and [faucet] are clients of the server, [observability]
    watches the node, and [src/infra/genesis.rs] generates a devnet.  [types]
    and [crypto] are below all of them.  This library translates those layers
    into Rocq functions and proves what makes them correct.

    ** How code becomes Rocq

    - Integers are [Z] with the range of their Rust type written out in
      statements ([u32], [u64], [u128]); saturating, checked and wrapping
      arithmetic are [sat_add], [checked_add], [as_u32] and so on.
    - Byte strings are [list Z]; [bytes_ok] and [array n] are the values of
      [Vec<u8>] and [[u8; n]].
    - [Result] is the inductive [result], with [let?] for the question mark.
      A panic (failed [expect], index out of range, arithmetic of
      [Tx::encode]) is [None] of an [option] around the result, or [TPanic]
      for the trie; theorems show where it cannot happen.
    - [&mut self] is state passing: an operation returns the new state beside
      its result, also on errors.
    - [BTreeMap] is stdpp's [gmap], iterated in key order by [btree_iter].
    - A loop is a structural fixpoint where it can be; otherwise it has fuel,
      and a theorem shows the fuel to be enough: the nibbles of the key plus
      one for the trie, the length of the layer for Merkle trees, the number
      of queued transactions for eviction and selection in the mempool, the
      tip for replay and pruning, the polls until the clock passes the timeout
      for a client that waits.
    - Arithmetic wraps as in a release build.  [debug_assert]s are left out.

    Third-party code is a class with the documented behaviour as laws and a
    concrete instance that the witnesses evaluate: [Crypto] (BLAKE3, Ed25519,
    BLS12-381), [BlsAggregation], [Curve] (curve25519-dalek), [PairingCurve]
    (arkworks), [ReedSolomon] (the erasure code), [Wasm] (the engine),
    [Libp2p] (keys, peer ids, addresses), [Hex], [Signer] (Ed25519 signing
    keys), [DevKeys] (BLS key generation), [Http] (one HTTP exchange).  No law
    says that the hash has no collisions: a theorem that depends on it names the
    inputs that would have to collide.

    Layers meet at interfaces: [Store]/[StoreLaws] (the key-value trait),
    [TrieImpl]/[TrieLaws] (the state tries), [ReadyTxs] (the builder's source
    of transactions), [BlockBroadcast] and [DaChunkSink] (what goes out on
    gossip), [apply_block] as a section variable of the recovery code.

    ** The files

    Foundations
    - [Prelude]: integers, byte strings, ordered maps, the error monad,
      tactics and hints.
    - [Types], [Codec]: the [types] crate and the canonical encodings;
      transactions round trip and are not malleable ([tx_roundtrip]).
    - [Crypto], [Vrf], [Kzg]: the [crypto] crate; VRF proofs and polynomial
      openings verify ([vrf_complete], [kzg_complete]).

    State ([state])
    - [Merkle]: [merkle.rs], [types/src/hashing.rs], the block roots.
    - [MptNode], [Mpt]: the code of [mpt/]; [MptRep], [MptRefine], [MptSpec]:
      the trie refines a finite map ([trie_refines_map]) and its root depends
      on the contents only ([root_deterministic]); [MptProof]: proofs exist
      and cannot be forged ([mpt_proofs_exact]).
    - [Tries]: [tries.rs], [root.rs] and the interface to the trie;
      [Expiry]: [expiry.rs] and rent ([expire_reactivate]).

    Storage ([storage])
    - [Store]: [kv.rs], [memory.rs] and the versioned slots of
      [state/src/version.rs] ([apply_batch_atomic],
      [versioned_slots_history]).
    - [StoreCodec], [Blocks]: [codec.rs], [blocks.rs], [index.rs]
      ([block_body_roundtrip]).
    - [Recovery]: [replay.rs], [wal.rs], [prune.rs]: replay gives the world of
      the live run, recovery finishes an interrupted commit, and where it does
      not ([replay_faithful], [recover_completes],
      [recover_drops_torn_batch]).

    Execution ([execution], [mempool])
    - [ExecBase], [Staking], [Slash], [Wasm], [Exec]: checks, gas, receipts,
      the staking ledger, slashing, contracts and [apply_block]; [ExecSpec]:
      value is accounted for, nothing is replayed, rejected transactions have
      no effect, transfers are exact ([apply_block_supply], [no_replay],
      [rejected_tx_no_effect], [transfer_exact]).  The other theorems are with
      their component ([withdraw_exact], [slash_exact_once],
      [tombstone_permanent], [call_confined]).
    - [Stm]: the parallel engine of [stm/]; [StmSpec]: it is sequential
      execution ([stm_matches_sequential]).
    - [Mempool]: admission, replacement, eviction, selection ([insert_sound],
      [take_ready_sound]); [Builder]: block building ([built_block_commits],
      [mempool_block_complete]).

    Consensus ([consensus])
    - [Vote], [Leader], [Wal], [Quorum]: votes and evidence, leader election,
      the signing log, certificates and commits
      ([replay_log_no_equivocation], [evidence_sound_complete],
      [weighted_leader_fair], [wal_no_double_sign],
      [conflicting_commits_equivocate], [commit_complete],
      [commit_log_no_two_commits]).
    - [Tendermint]: the steps composed into a network of honest and faulty
      validators; agreement across rounds ([agreement]).

    Network and node ([network], [da], [node])
    - [Da]: chunks, their commitments and sampling ([da_any_four],
      [da_chunk_sound], [das_withholding_passes]).
    - [Gossip]: the wire codec ([gossip_roundtrips]); [Topics]: the checks on
      gossip, headers-first synchronisation and the block gate
      ([ingest_block_binding], [sync_replaces_blocks],
      [certified_block_unique]).
    - [Config]: the configuration directory ([config_dir_roundtrip]);
      [Devnet]: the generator of the devnet, whose directories agree
      ([devnet_consistent]).
    - [Eclipse]: peer scores, the connection table with its prefix caps and the
      rotation of peers ([slot_table_sound], [rotation_worst_first]).
    - [Limits]: the gate in front of execution ([precheck_exact],
      [full_block_refused]).
    - [Wire]: the admission path of the running node
      ([wired_sender_starves]); [Node]: the other hand-offs of [wire.rs] and
      catch-up ([wire_commit_sound], [catchup_complete],
      [follows_only_empty_blocks]).
    - [Snapshot]: state snapshots of [storage] and the weak-subjectivity
      bootstrap of [node] ([snapshot_restores], [bootstrap_unbound]).
    - [Live]: the handlers and the tick of [main.rs]; [LiveSpec]: what holds in
      every run of a validator ([live_chain], [live_well_typed],
      [handle_bytes_total]) and what any peer can do to it
      ([proposal_capture], [forged_vote_silences]).

    Edges ([rpc], [light], [sdk], [faucet], [observability])
    - [Rpc]: every JSON-RPC method ([rpc_never_panics],
      [submissions_bounded]).
    - [Light]: the light client against an arbitrary and an honest server,
      synchronisation and packet commitments ([light_account_sound],
      [light_account_complete], [light_sync_sound], [ibc_packets_exact]), and
      what a certificate is worth ([light_qc_forgeable]).
    - [Sdk]: signing, submitting and waiting ([sign_tx_verifies],
      [submit_signed_exact], [http_matches_in_process],
      [wait_finality_blind]); [Faucet]: the faucet and its rate limit
      ([drips_rate_limited], [refused_drips_charged]).
    - [Metrics]: counters, service levels and alerts ([observing_is_passive],
      [alert_exact], [stall_meets_slo], [observed_limits_differ]).

    ** What is not modelled

    RocksDB, an instance of [Store] ([storage]); libp2p itself and what only
    configures it (the gossip mesh, Kademlia and QUIC of [network]); the outer
    loop of [main.rs], in whose place [LiveSpec] takes messages, ticks and
    publications in any order; the sockets under HTTP and WebSocket; the WASM
    engine, the hash and the curves, which are classes; log subscribers and
    span names ([node/src/tracing.rs], [observability/src/logging.rs]), on which
    no value depends; command lines.  What is left of these is calls into
    third-party code, whose effect is not in the sources.  Threads share nothing
    mutable in the modelled code, so speculation in [Stm] is a map; the atomics
    of [Metrics] are plain values.  Memory exhaustion and failing disks other
    than through [Store] are not modelled.
    Time is an argument where the code reads a clock. *)

From Stdlib Require Import ZArith Lia.
From stdpp Require Export sorting.
From stdpp Require Export base list gmap numbers countable option.
Export stdpp.list_relations.list.

#[local] Open Scope Z_scope.

(** ** The error monad: Rust's [Result] and the [?] operator *)

Inductive result (A E : Type) : Type :=
| Ok (a : A)
| Err (e : E).

Arguments Ok {A E} a.
Arguments Err {A E} e.

Declare Scope l1_scope.
Delimit Scope l1_scope with l1.

Notation "'let?' x ':=' e 'in' k" :=
  (match e with Ok x => k | Err err => Err err end)
    (at level 10, x pattern, e at level 200, k at level 200) : l1_scope.

Definition map_err {A E F : Type} (f : E → F) (r : result A E) : result A F :=
  match r with Ok a => Ok a | Err e => Err (f e) end.

Definition is_ok {A E : Type} (r : result A E) : bool :=
  match r with Ok _ => true | Err _ => false end.

Definition ok_option {A E : Type} (r : result A E) : option A :=
  match r with Ok a => Some a | Err _ => None end.

Definition ok_or {A E : Type} (o : option A) (e : E) : result A E :=
  match o with Some a => Ok a | None => Err e end.

(** ** Machine integers

    An unsigned [w]-bit integer is a [Z]; [U8_MAX] ... [U128_MAX] are the
    largest values, the predicates [u8] ... [u128] the ranges. *)

Definition U8_MAX : Z := 255.
Definition U32_MAX : Z := 4294967295.
Definition U64_MAX : Z := 18446744073709551615.
Definition U128_MAX : Z := 340282366920938463463374607431768211455.

Definition u8 (x : Z) : Prop := 0 ≤ x ≤ U8_MAX.
Definition u32 (x : Z) : Prop := 0 ≤ x ≤ U32_MAX.
Definition u64 (x : Z) : Prop := 0 ≤ x ≤ U64_MAX.
Definition u128 (x : Z) : Prop := 0 ≤ x ≤ U128_MAX.

#[export] Instance u8_dec x : Decision (u8 x).
Proof. unfold u8. apply _. Defined.
#[export] Instance u32_dec x : Decision (u32 x).
Proof. unfold u32. apply _. Defined.
#[export] Instance u64_dec x : Decision (u64 x).
Proof. unfold u64. apply _. Defined.
#[export] Instance u128_dec x : Decision (u128 x).
Proof. unfold u128. apply _. Defined.

(** [saturating_add], [saturating_mul], [checked_add] at the width whose
    maximum is [m]; subtraction does not depend on the width. *)
Definition sat_add (m a b : Z) : Z := Z.min m (a + b).
Definition sat_mul (m a b : Z) : Z := Z.min m (a * b).
Definition sat_sub (a b : Z) : Z := Z.max 0 (a - b).
Definition checked_add (m a b : Z) : option Z :=
  if a + b <=? m then Some (a + b) else None.
Definition checked_sub (a b : Z) : option Z :=
  if b <=? a then Some (a - b) else None.

Ltac uint :=
  unfold u8, u32, u64, u128, sat_add, sat_mul, sat_sub,
    U8_MAX, U32_MAX, U64_MAX, U128_MAX in *.
Ltac ulia := uint; lia.

(** Decide a closed proposition by evaluation. *)
Ltac by_eval := refine (bool_decide_unpack _ _); vm_compute; exact I.

(** Turn the boolean tests of the code into propositions. *)
Ltac bsimpl :=
  repeat match goal with
  | H : (_ && _)%bool = true |- _ =>
      let H1 := fresh H in let H2 := fresh H in
      apply andb_prop in H; destruct H as [H1 H2]
  | H : (_ || _)%bool = false |- _ =>
      let H1 := fresh H in let H2 := fresh H in
      apply orb_false_elim in H; destruct H as [H1 H2]
  | H : negb _ = true |- _ => apply negb_true_iff in H
  | H : negb _ = false |- _ => apply negb_false_iff in H
  | H : (_ <=? _) = true |- _ => apply Z.leb_le in H
  | H : (_ <=? _) = false |- _ => apply Z.leb_gt in H
  | H : (_ <? _) = true |- _ => apply Z.ltb_lt in H
  | H : (_ <? _) = false |- _ => apply Z.ltb_ge in H
  | H : (_ =? _) = true |- _ => apply Z.eqb_eq in H
  | H : (_ =? _) = false |- _ => apply Z.eqb_neq in H
  | H : bool_decide _ = true |- _ => apply bool_decide_eq_true in H
  | H : bool_decide _ = false |- _ => apply bool_decide_eq_false in H
  end.

(** Split on the scrutinee of a [match] or [if], in the goal or in a
    hypothesis, keeping the equation. *)
Ltac case_goal :=
  match goal with
  | |- context [match ?x with _ => _ end] =>
      lazymatch x with
      | context [match _ with _ => _ end] => fail
      | _ => destruct x eqn:?
      end
  end.
Ltac case_hyp H :=
  match type of H with
  | context [match ?x with _ => _ end] =>
      lazymatch x with
      | context [match _ with _ => _ end] => fail
      | _ => destruct x eqn:?
      end
  end.
Ltac inv_ok H := repeat (case_hyp H; try discriminate H); simplify_eq H.

Lemma checked_add_Some m a b c :
  checked_add m a b = Some c ↔ c = a + b ∧ a + b ≤ m.
Proof.
  unfold checked_add. destruct (a + b <=? m) eqn:E; bsimpl; naive_solver lia.
Qed.

Lemma checked_add_None m a b : checked_add m a b = None ↔ m < a + b.
Proof.
  unfold checked_add. destruct (a + b <=? m) eqn:E; bsimpl; naive_solver lia.
Qed.

Lemma checked_sub_Some a b c :
  checked_sub a b = Some c ↔ c = a - b ∧ b ≤ a.
Proof.
  unfold checked_sub. destruct (b <=? a) eqn:E; bsimpl; naive_solver lia.
Qed.

Lemma checked_sub_None a b : checked_sub a b = None ↔ a < b.
Proof.
  unfold checked_sub. destruct (b <=? a) eqn:E; bsimpl; naive_solver lia.
Qed.

(** ** Byte strings

    A byte is a [Z] in [0..255]; [Vec<u8>], [&[u8]] and [[u8; N]] are lists. *)

Abbreviation bytes := (list Z).

Definition bytes_ok (l : bytes) : Prop := Forall u8 l.

(** The values of the Rust type [[u8; n]]. *)
Definition array (n : nat) (l : bytes) : Prop := length l = n ∧ bytes_ok l.

#[export] Instance bytes_ok_dec l : Decision (bytes_ok l).
Proof. unfold bytes_ok. apply _. Defined.
#[export] Instance array_dec n l : Decision (array n l).
Proof. unfold array. apply _. Defined.

(** [x.to_be_bytes()] at [n] bytes, and [from_be_bytes]. *)
Fixpoint be_bytes (n : nat) (z : Z) : bytes :=
  match n with
  | O => []
  | S n' => (z / 256 ^ Z.of_nat n') mod 256 :: be_bytes n' z
  end.

Definition of_be (l : bytes) : Z := foldl (λ acc b, acc * 256 + b) 0 l.

(** [&l[a..b]]. *)
Definition slice (a b : nat) (l : bytes) : bytes := take (b - a) (drop a l).

Lemma length_be_bytes n z : length (be_bytes n z) = n.
Proof. induction n; simpl; auto. Qed.

Lemma be_bytes_ok n z : bytes_ok (be_bytes n z).
Proof.
  induction n as [|n IH]; constructor; [|exact IH].
  pose proof (Z.mod_pos_bound (z / 256 ^ Z.of_nat n) 256). ulia.
Qed.

Lemma pow256_pos n : 0 < 256 ^ Z.of_nat n.
Proof. apply Z.pow_pos_nonneg; lia. Qed.

Lemma pow256_S n : 256 ^ Z.of_nat (S n) = 256 ^ Z.of_nat n * 256.
Proof. rewrite Nat2Z.inj_succ, Z.pow_succ_r by lia. lia. Qed.

Lemma be_bytes_S n z :
  be_bytes (S n) z = (z / 256 ^ Z.of_nat n) mod 256 :: be_bytes n z.
Proof. done. Qed.

#[global] Arguments be_bytes : simpl never.
#[global] Arguments of_be : simpl never.
#[global] Arguments slice : simpl never.

Lemma foldl_be_bytes n acc z :
  foldl (λ acc b, acc * 256 + b) acc (be_bytes n z)
  = acc * 256 ^ Z.of_nat n + z mod 256 ^ Z.of_nat n.
Proof.
  revert acc. induction n as [|n IH]; intros acc.
  - change (256 ^ Z.of_nat 0) with 1. rewrite Z.mod_1_r. unfold be_bytes. cbn. lia.
  - rewrite be_bytes_S. cbn [foldl]. rewrite IH, pow256_S.
    pose proof (pow256_pos n).
    rewrite (Z.rem_mul_r z (256 ^ Z.of_nat n) 256) by lia. lia.
Qed.

Lemma of_be_be_bytes n z :
  0 ≤ z < 256 ^ Z.of_nat n → of_be (be_bytes n z) = z.
Proof.
  intros Hz. unfold of_be. rewrite foldl_be_bytes, Z.mod_small; lia.
Qed.

Lemma foldl_of_be acc l :
  foldl (λ acc b, acc * 256 + b) acc l
  = acc * 256 ^ Z.of_nat (length l) + of_be l.
Proof.
  unfold of_be. revert acc. induction l as [|b l IH]; intros acc; cbn [foldl length].
  - lia.
  - rewrite (IH (acc * 256 + b)), (IH (0 * 256 + b)), pow256_S. lia.
Qed.

Lemma of_be_bound l : bytes_ok l → 0 ≤ of_be l < 256 ^ Z.of_nat (length l).
Proof.
  induction 1 as [|b l Hb _ IH]; [by vm_compute|].
  unfold of_be in *. cbn [foldl length]. rewrite foldl_of_be, pow256_S.
  unfold of_be. pose proof (pow256_pos (length l)). uint. nia.
Qed.

Lemma be_bytes_foldl acc l :
  bytes_ok l → 0 ≤ acc →
  be_bytes (length l) (foldl (λ acc b, acc * 256 + b) acc l) = l.
Proof.
  intros Hl. revert acc. induction Hl as [|b l Hb Hl IH]; intros acc Hacc; [done|].
  cbn [foldl length]. rewrite be_bytes_S. f_equal; [|apply IH; ulia].
  rewrite foldl_of_be. pose proof (of_be_bound l Hl).
  rewrite Z.add_comm, Z.div_add by lia.
  rewrite Z.div_small by lia. rewrite Z.add_0_l, Z.add_comm, Z.mod_add by lia.
  apply Z.mod_small. ulia.
Qed.

Lemma be_bytes_of_be n l : length l = n → bytes_ok l → be_bytes n (of_be l) = l.
Proof. intros <- Hl. by apply be_bytes_foldl. Qed.

Lemma be_bytes_inj n a b :
  0 ≤ a < 256 ^ Z.of_nat n → 0 ≤ b < 256 ^ Z.of_nat n →
  be_bytes n a = be_bytes n b → a = b.
Proof.
  intros Ha Hb E. rewrite <- (of_be_be_bytes n a Ha), <- (of_be_be_bytes n b Hb).
  by rewrite E.
Qed.

(** ** Sums over lists and maps *)

Definition sumZ {A : Type} (f : A → Z) (l : list A) : Z :=
  foldr (λ x acc, f x + acc) 0 l.

Lemma sumZ_perm {A : Type} (f : A → Z) (l k : list A) :
  l ≡ₚ k → sumZ f l = sumZ f k.
Proof. induction 1; simpl; lia. Qed.

#[export] Instance sumZ_proper {A : Type} (f : A → Z) :
  Proper ((≡ₚ) ==> eq) (sumZ f).
Proof. intros l k. apply sumZ_perm. Qed.

Lemma sumZ_app {A : Type} (f : A → Z) (l k : list A) :
  sumZ f (l ++ k) = sumZ f l + sumZ f k.
Proof. unfold sumZ. induction l as [|x l IH]; simpl; [lia|]. rewrite IH. lia. Qed.

Lemma sumZ_nonneg {A : Type} (f : A → Z) (l : list A) :
  Forall (λ x, 0 ≤ f x) l → 0 ≤ sumZ f l.
Proof. induction 1; simpl; lia. Qed.

Lemma sumZ_ext {A : Type} (f g : A → Z) (l : list A) :
  Forall (λ x, f x = g x) l → sumZ f l = sumZ g l.
Proof. induction 1; simpl; lia. Qed.

Lemma sumZ_nil {A : Type} (f : A → Z) : sumZ f [] = 0.
Proof. done. Qed.
Lemma sumZ_cons {A : Type} (f : A → Z) x l : sumZ f (x :: l) = f x + sumZ f l.
Proof. done. Qed.
#[global] Arguments sumZ : simpl never.

Lemma sumZ_fmap {A B : Type} (g : A → B) (f : B → Z) l : sumZ f (g <$> l) = sumZ (λ x, f (g x)) l.
Proof. induction l as [|x l IH]; [done|]. cbn. rewrite !sumZ_cons, IH. done. Qed.

Section map_sum.
Context {K V : Type} `{Countable K}.

Definition map_sum (f : V → Z) (m : gmap K V) : Z :=
  sumZ (λ kv, f kv.2) (map_to_list m).

(** The contribution of one key. *)
Definition at_key (f : V → Z) (o : option V) : Z :=
  match o with Some v => f v | None => 0 end.

Lemma map_sum_empty f : map_sum f ∅ = 0.
Proof. unfold map_sum. by rewrite map_to_list_empty. Qed.

Lemma map_sum_insert_new f m k v :
  m !! k = None → map_sum f (<[k:=v]> m) = f v + map_sum f m.
Proof.
  intros Hk. unfold map_sum. by rewrite (map_to_list_insert _ _ _ Hk).
Qed.

Lemma map_sum_delete f m k :
  map_sum f (delete k m) = map_sum f m - at_key f (m !! k).
Proof.
  destruct (m !! k) as [v|] eqn:E; cbn.
  - rewrite <- (insert_delete_id m k v E) at 2.
    rewrite map_sum_insert_new by apply lookup_delete_eq. lia.
  - rewrite delete_id by done. lia.
Qed.

Lemma map_sum_insert f m k v :
  map_sum f (<[k:=v]> m) = map_sum f m - at_key f (m !! k) + f v.
Proof.
  rewrite <- insert_delete_eq.
  rewrite map_sum_insert_new by apply lookup_delete_eq.
  rewrite map_sum_delete. lia.
Qed.

Lemma map_sum_nonneg f m :
  map_Forall (λ _ v, 0 ≤ f v) m → 0 ≤ map_sum f m.
Proof.
  intros Hm. apply sumZ_nonneg, Forall_forall. intros [k v] Hin%elem_of_map_to_list.
  by apply (Hm k v).
Qed.

Lemma map_sum_lookup_le f m k v :
  map_Forall (λ _ v, 0 ≤ f v) m → m !! k = Some v → f v ≤ map_sum f m.
Proof.
  intros Hm Hk. pose proof (map_sum_delete f m k) as E. rewrite Hk in E. cbn in E.
  pose proof (map_sum_nonneg f (delete k m)) as Hn.
  assert (0 ≤ map_sum f (delete k m)); [|lia].
  apply Hn. intros j w [? ?]%lookup_delete_Some. by apply (Hm j).
Qed.

End map_sum.

Lemma map_sum_fmap `{Countable K} {V W : Type} (f : W → Z) (g : V → W) (m : gmap K V) :
  map_sum f (g <$> m) = map_sum (λ v, f (g v)) m.
Proof.
  unfold map_sum. rewrite map_to_list_fmap.
  induction (map_to_list m) as [|e l IH]; [done|]. cbn. by rewrite !sumZ_cons, IH.
Qed.

(** ** Ordered maps

    [types::collections::Map] is [BTreeMap]: a finite map whose iteration
    visits keys in increasing order.  The map itself is a [gmap]; its
    iteration order is [btree_iter]. *)

Class KeyOrd (K : Type) := key_le : K → K → bool.
#[export] Hint Mode KeyOrd ! : typeclass_instances.

Class KeyOrdLaws (K : Type) `{KeyOrd K} := {
  key_le_total : ∀ a b : K, key_le a b = true ∨ key_le b a = true;
  key_le_trans : ∀ a b c : K, key_le a b = true → key_le b c = true → key_le a c = true;
  key_le_antisym : ∀ a b : K, key_le a b = true → key_le b a = true → a = b;
}.

Definition key_leP {K : Type} `{KeyOrd K} (a b : K) : Prop := key_le a b = true.
#[export] Instance key_leP_dec {K : Type} `{KeyOrd K} : RelDecision (key_leP (K:=K)).
Proof. intros a b. unfold key_leP. apply _. Defined.

(** Strict order, for Rust's [<]. *)
Definition key_lt {K : Type} `{KeyOrd K} (a b : K) : bool := negb (key_le b a).

#[export] Instance Z_key_ord : KeyOrd Z := Z.leb.
#[export] Instance nat_key_ord : KeyOrd nat := Nat.leb.

(** Lexicographic order on byte arrays ([Ord] for [[u8; N]]). *)
Fixpoint bytes_le (a b : bytes) : bool :=
  match a, b with
  | [], _ => true
  | _ :: _, [] => false
  | x :: a', y :: b' => (x <? y) || ((x =? y) && bytes_le a' b')
  end.
#[export] Instance bytes_key_ord : KeyOrd bytes := bytes_le.

(** Lexicographic order on pairs (derived [Ord] of tuples). *)
Definition pair_le {A B : Type} `{EqDecision A, KeyOrd A, KeyOrd B}
  (p q : A * B) : bool :=
  if decide (p.1 = q.1) then key_le p.2 q.2 else key_le p.1 q.1.
#[export] Instance pair_key_ord {A B : Type} `{EqDecision A, KeyOrd A, KeyOrd B} :
  KeyOrd (A * B) := pair_le.

#[export] Instance Z_key_ord_laws : KeyOrdLaws Z.
Proof.
  split; unfold key_le, Z_key_ord; intros.
  - rewrite !Z.leb_le. lia.
  - rewrite Z.leb_le in *. lia.
  - rewrite Z.leb_le in *. lia.
Qed.

#[export] Instance nat_key_ord_laws : KeyOrdLaws nat.
Proof.
  split; unfold key_le, nat_key_ord; intros.
  - rewrite !Nat.leb_le. lia.
  - rewrite Nat.leb_le in *. lia.
  - rewrite Nat.leb_le in *. lia.
Qed.

Lemma bytes_le_total a b : bytes_le a b = true ∨ bytes_le b a = true.
Proof.
  revert b. induction a as [|x a IH]; intros [|y b]; cbn; auto.
  destruct (Z.lt_trichotomy x y) as [?|[->|?]].
  - left. rewrite orb_true_iff, Z.ltb_lt. auto.
  - rewrite Z.ltb_irrefl, Z.eqb_refl. cbn. apply IH.
  - right. rewrite orb_true_iff, Z.ltb_lt. auto.
Qed.

Lemma bytes_le_trans a b c :
  bytes_le a b = true → bytes_le b c = true → bytes_le a c = true.
Proof.
  revert b c. induction a as [|x a IH]; intros [|y b] [|z c]; cbn; auto; try done.
  rewrite !orb_true_iff, !andb_true_iff, !Z.ltb_lt, !Z.eqb_eq.
  intros [?|[-> ?]] [?|[-> ?]]; [left; lia|left; lia|left; lia|right; eauto].
Qed.

Lemma bytes_le_antisym a b : bytes_le a b = true → bytes_le b a = true → a = b.
Proof.
  revert b. induction a as [|x a IH]; intros [|y b]; cbn; auto; try done.
  rewrite !orb_true_iff, !andb_true_iff, !Z.ltb_lt, !Z.eqb_eq.
  intros [?|[-> ?]] [?|[? ?]]; try lia. f_equal. auto.
Qed.

#[export] Instance bytes_key_ord_laws : KeyOrdLaws bytes.
Proof.
  split; [apply bytes_le_total|apply bytes_le_trans|apply bytes_le_antisym].
Qed.

#[export] Instance pair_key_ord_laws {A B : Type}
  `{EqDecision A, KeyOrd A, KeyOrd B, !KeyOrdLaws A, !KeyOrdLaws B} :
  KeyOrdLaws (A * B).
Proof.
  split; unfold key_le, pair_key_ord, pair_le.
  - intros p q. repeat case_decide; try congruence; apply key_le_total.
  - intros [a1 a2] [b1 b2] [c1 c2]; cbn [fst snd].
    repeat case_decide; subst; try congruence; intros Hab Hbc;
      solve [eauto using key_le_trans | exfalso; eauto using key_le_antisym].
  - intros [a1 a2] [b1 b2]; cbn [fst snd].
    repeat case_decide; subst; try congruence; intros Hab Hba;
      [f_equal; by apply key_le_antisym | exfalso; eauto using key_le_antisym].
Qed.

Section btree.
Context {K V : Type} `{Countable K, !KeyOrd K, !KeyOrdLaws K}.

Definition entry_le (p q : K * V) : Prop := key_le p.1 q.1 = true.

#[export] Instance entry_le_dec : RelDecision entry_le.
Proof. intros p q. unfold entry_le. apply _. Defined.

#[export] Instance entry_le_total : Total entry_le.
Proof. intros p q. apply key_le_total. Qed.

#[export] Instance entry_le_trans : Transitive entry_le.
Proof. intros p q r. apply key_le_trans. Qed.

(** [m.iter()]: the entries in key order. *)
Definition btree_iter (m : gmap K V) : list (K * V) :=
  merge_sort entry_le (map_to_list m).
Definition btree_keys (m : gmap K V) : list K := (btree_iter m).*1.
Definition btree_values (m : gmap K V) : list V := (btree_iter m).*2.

Lemma btree_iter_perm m : btree_iter m ≡ₚ map_to_list m.
Proof. apply merge_sort_Permutation. Qed.

Lemma elem_of_btree_iter m k v : (k, v) ∈ btree_iter m ↔ m !! k = Some v.
Proof. rewrite btree_iter_perm. apply elem_of_map_to_list. Qed.

Lemma btree_iter_sorted m : StronglySorted entry_le (btree_iter m).
Proof. apply StronglySorted_merge_sort; apply _. Qed.

Lemma NoDup_btree_keys m : NoDup (btree_keys m).
Proof. unfold btree_keys. rewrite btree_iter_perm. apply NoDup_fst_map_to_list. Qed.

Lemma sumZ_btree_iter f m : sumZ (λ kv, f kv.2) (btree_iter m) = map_sum f m.
Proof. unfold map_sum. by rewrite btree_iter_perm. Qed.

Lemma length_btree_iter m : length (btree_iter m) = size m.
Proof. rewrite btree_iter_perm. apply length_map_to_list. Qed.

Lemma btree_iter_inj m1 m2 : btree_iter m1 = btree_iter m2 → m1 = m2.
Proof.
  intros E. apply map_eq. intros k. apply option_eq. intros v.
  by rewrite <- !elem_of_btree_iter, E.
Qed.

Lemma Forall_btree_iter (P : K * V → Prop) m :
  Forall P (btree_iter m) ↔ map_Forall (λ k v, P (k, v)) m.
Proof.
  rewrite Forall_forall. split.
  - intros H' k v Hk. apply H'. by apply elem_of_btree_iter.
  - intros H' [k v] Hk%elem_of_btree_iter. by apply H'.
Qed.

Lemma elem_of_btree_keys m k : k ∈ btree_keys m ↔ is_Some (m !! k).
Proof.
  unfold btree_keys. rewrite list_elem_of_fmap. split.
  - intros [[k' v] [-> Hin]]. apply elem_of_btree_iter in Hin. eauto.
  - intros [v Hv]. exists (k, v). split; [done|]. by apply elem_of_btree_iter.
Qed.

End btree.

(** [BTreeSet] iteration. *)
Definition btset_iter {K : Type} `{Countable K, KeyOrd K} (s : gset K) : list K :=
  merge_sort key_leP (elements s).

(** [sort_by] with a comparison of keys; it is stable. *)
Section sort_by_key.
Context {A K : Type} `{KeyOrd K} (f : A → K).

Fixpoint insert_by_key (x : A) (l : list A) : list A :=
  match l with
  | [] => [x]
  | y :: l => if key_le (f x) (f y) then x :: y :: l else y :: insert_by_key x l
  end.

Definition sort_by_key (l : list A) : list A := foldr insert_by_key [] l.

Lemma insert_by_key_perm x l : insert_by_key x l ≡ₚ x :: l.
Proof.
  induction l as [|y l IH]; cbn; [done|]. destruct (key_le _ _); [done|]. rewrite IH. apply Permutation_swap.
Qed.

Lemma sort_by_key_perm l : sort_by_key l ≡ₚ l.
Proof. induction l as [|x l IH]; cbn; [done|]. by rewrite insert_by_key_perm, IH. Qed.

Definition by_key (x y : A) : Prop := key_le (f x) (f y) = true.

Context `{!KeyOrdLaws K}.

Lemma insert_by_key_sorted x l : StronglySorted by_key l → StronglySorted by_key (insert_by_key x l).
Proof.
  induction 1 as [|y l Hl IH Hy]; cbn; [by repeat constructor|].
  destruct (key_le (f x) (f y)) eqn:E.
  - constructor; [by constructor|]. constructor; [done|]. eapply Forall_impl; [exact Hy|].
    intros z Hz. by eapply key_le_trans.
  - constructor; [done|]. rewrite insert_by_key_perm. constructor; [|done].
    destruct (key_le_total (f x) (f y)); [congruence|done].
Qed.

Lemma sort_by_key_sorted l : StronglySorted by_key (sort_by_key l).
Proof. induction l; cbn; [constructor|by apply insert_by_key_sorted]. Qed.

End sort_by_key.

(** Concatenations of fixed-width records are uniquely readable. *)
Lemma concat_fixed_inj {A : Type} (f : A → bytes) (n : nat) (P : A → Prop)
    (l1 l2 : list A) (r1 r2 : bytes) :
  (∀ x, P x → length (f x) = n) →
  (∀ x y, P x → P y → f x = f y → x = y) →
  Forall P l1 → Forall P l2 → length l1 = length l2 →
  concat (f <$> l1) ++ r1 = concat (f <$> l2) ++ r2 → l1 = l2 ∧ r1 = r2.
Proof.
  intros Hlen Hinj H1. revert l2. induction H1 as [|x l1 Hx H1 IH];
    intros [|y l2] H2 Hl E; try done; cbn in E, Hl.
  apply Forall_cons in H2 as [Hy H2].
  rewrite <- !app_assoc in E. apply app_inj_1 in E as [Exy E]; [|by rewrite !Hlen].
  destruct (IH l2) as [-> ->]; auto. by rewrite (Hinj x y).
Qed.

(** ** Hint databases

    [l1] resolves the routine side conditions (ranges, lengths, byte-ness);
    [l1simpl] is the rewriting base of length computations. *)
Create HintDb l1.
Create Rewrite HintDb l1simpl.
#[export] Hint Resolve be_bytes_ok length_be_bytes pow256_pos : l1.
#[export] Hint Rewrite length_be_bytes @length_app @length_cons @length_nil
  @length_take @length_drop : l1simpl.

(** ** Slices of concatenations *)

Lemma length_slice a b l : (b ≤ length l)%nat → length (slice a b l) = (b - a)%nat.
Proof. intros. unfold slice. rewrite length_take, length_drop. lia. Qed.

Lemma slice_ok a b l : bytes_ok l → bytes_ok (slice a b l).
Proof. intros. apply Forall_take, Forall_drop. done. Qed.

Lemma slice_skip a b l k :
  (length l ≤ a)%nat →
  slice a b (l ++ k) = slice (a - length l) (b - length l) k.
Proof.
  intros. unfold slice. rewrite drop_app_ge by lia.
  f_equal. lia.
Qed.

Lemma slice_head b l k : length l = b → slice 0 b (l ++ k) = l.
Proof. intros <-. unfold slice. rewrite Nat.sub_0_r. apply take_app_length. Qed.

Lemma slice_all b l : length l = b → slice 0 b l = l.
Proof. intros <-. unfold slice. rewrite Nat.sub_0_r. by rewrite take_ge. Qed.

Lemma slice_glue a b c l :
  (a ≤ b ≤ c)%nat → slice a b l ++ slice b c l = slice a c l.
Proof.
  intros. unfold slice.
  replace (drop b l) with (drop (b - a) (drop a l)) by (rewrite drop_drop; f_equal; lia).
  replace (c - a)%nat with ((b - a) + (c - b))%nat by lia.
  by rewrite take_take_drop.
Qed.

Lemma slice_glue_app a b c l k :
  (a ≤ b ≤ c)%nat → slice a b l ++ slice b c l ++ k = slice a c l ++ k.
Proof. intros. by rewrite app_assoc, slice_glue. Qed.

Lemma slice_one a l : (a < length l)%nat → slice a (S a) l = [nth a l 0].
Proof.
  intros Ha. unfold slice. replace (S a - a)%nat with 1%nat by lia.
  revert l Ha. induction a as [|a IH]; intros [|x l] Ha; cbn in *; try lia; auto.
  apply IH. lia.
Qed.

Lemma slice_to_end a l : drop a l = slice a (length l) l.
Proof. unfold slice. rewrite take_ge; [done|]. rewrite length_drop. lia. Qed.

(** A piece in the middle of, or at the end of, a concatenation. *)
Lemma slice_mid a b l m k :
  length l = a → b = (a + length m)%nat → slice a b (l ++ m ++ k) = m.
Proof.
  intros <- ->. rewrite slice_skip, Nat.sub_diag, slice_head by lia. done.
Qed.

Lemma slice_tail a b l m :
  length l = a → b = (a + length m)%nat → slice a b (l ++ m) = m.
Proof.
  intros <- ->. rewrite slice_skip, Nat.sub_diag, slice_all by lia. done.
Qed.

#[export] Hint Resolve slice_ok : l1.

(** [slices] evaluates the slices of a concatenation of pieces whose lengths
    are known (from [l1simpl] or from the context). *)
Ltac len_tac :=
  autorewrite with l1simpl;
  repeat match goal with H : length _ = _ |- _ => rewrite H end;
  cbn [Nat.sub Nat.add]; lia.
Ltac slices :=
  repeat match goal with
  | |- context [slice 0 ?b (?l ++ ?k)] => rewrite (slice_head b l k) by len_tac
  | |- context [slice 0 ?b ?l] => rewrite (slice_all b l) by len_tac
  | |- context [slice ?a ?b (?l ++ ?k)] =>
      rewrite (slice_skip a b l k) by len_tac;
      autorewrite with l1simpl;
      repeat match goal with H : length _ = _ |- _ => rewrite H end;
      cbn [Nat.sub]
  end.
