(* ===== verification/Types.v ===== *)
(** The `types` crate: chain constants ([spec.rs]), the parameter registry
    ([params.rs]), transactions ([tx.rs], [staking.rs]), headers and blocks
    ([header.rs], [block.rs]), genesis ([genesis.rs]) and the newtype
    arithmetic ([amount.rs], [nonce.rs], [height.rs], [validator.rs]).

    [Address], [Hash] (32 bytes) and [ValidatorId] (48 bytes) are byte
    strings; [Amount] is a [u128], [Nonce], [Height], [VotingPower] a [u64],
    [Round] a [u32], all as [Z] with their ranges in [Prelude]. *)

From S2P Require Import Prelude.
From Stdlib Require Import String.
From stdpp Require Import list.

#[local] Open Scope Z_scope.

Abbreviation Address := (list Z).
Abbreviation Hash := (list Z).
Abbreviation ValidatorId := (list Z).
Abbreviation Amount := Z.
Abbreviation Nonce := Z.
Abbreviation Height := Z.
Abbreviation Round := Z.
Abbreviation Epoch := Z.
Abbreviation VotingPower := Z.
Abbreviation ChainId := Z.

(** ** [spec.rs] *)

Definition HASH_SIZE : nat := 32.
Definition ADDRESS_SIZE : nat := 32.
Definition VALIDATOR_ID_SIZE : nat := 48.
Definition MAX_BLOCK_BYTES : Z := 2 * 1024 * 1024.
Definition MAX_TX_BYTES : Z := 64 * 1024.
Definition MEMPOOL_MAX_TXS : Z := 4096.
Definition MIN_TX_FEE : Z := 1.
Definition MAX_GAS : Z := 50000000.
Definition GAS_TRANSFER : Z := 21000.
Definition GAS_DEPLOY : Z := 50000.
Definition GAS_CALL : Z := 21000.
Definition EPOCH_LENGTH : Z := 100.
Definition UNBONDING_PERIOD : Z := 1000.
Definition CHECKPOINT_INTERVAL : Z := 10.
Definition MIN_SELF_BOND : Z := 100.
Definition DELEGATION_CAP : Z := 1000.
Definition SLASH_PERCENT : Z := 5.
Definition TIMEOUT_PROPOSE_MS : Z := 3000.
Definition TIMEOUT_PREVOTE_MS : Z := 1000.
Definition TIMEOUT_PRECOMMIT_MS : Z := 1000.
Definition TIMEOUT_DELTA_MS : Z := 500.
Definition MAX_TIMESTAMP_DRIFT_MS : Z := 15000.

Definition Hash_ZERO : Hash := replicate HASH_SIZE 0.
Definition Address_ZERO : Address := replicate ADDRESS_SIZE 0.
Definition ValidatorId_ZERO : ValidatorId := replicate VALIDATOR_ID_SIZE 0.

(** ** Newtype arithmetic *)

Definition Amount_checked_add (a b : Amount) : option Amount := checked_add U128_MAX a b.
Definition Amount_checked_sub (a b : Amount) : option Amount := checked_sub a b.
Definition Nonce_checked_add (a n : Nonce) : option Nonce := checked_add U64_MAX a n.
Definition Nonce_matches (a expected : Nonce) : bool := a =? expected.
Definition Height_saturating_next (h : Height) : Height := sat_add U64_MAX h 1.
Definition Round_saturating_next (r : Round) : Round := sat_add U32_MAX r 1.

Definition VotingPower_saturating_add (a b : VotingPower) : VotingPower :=
  sat_add U64_MAX a b.

Definition exceeds_two_thirds (voted total : VotingPower) : bool :=
  sat_mul U64_MAX total 2 <? sat_mul U64_MAX voted 3.

(** ** [error.rs] *)

Inductive TypesError : Type :=
| CodecTruncated
| CodecVersion (v : Z)
| CodecLength (expected actual : Z)
| BadLength (expected actual : Z)
| Kv (msg : string).

#[export] Instance TypesError_eq_dec : EqDecision TypesError.
Proof. solve_decision. Defined.

(** ** [params.rs] *)

Inductive ParamId : Type :=
| MaxBlockBytes | MaxTxBytes | MaxGas | EpochLength | UnbondingPeriod
| TimeoutProposeMs | TimeoutPrevoteMs | TimeoutPrecommitMs | TimeoutDeltaMs
| MaxTimestampDriftMs | MinSelfBond | DelegationCap | SlashPercent.

#[export] Instance ParamId_eq_dec : EqDecision ParamId.
Proof. solve_decision. Defined.

(** [genesis::param_id_byte]; also the derived order of the enum. *)
Definition param_id_byte (id : ParamId) : Z :=
  match id with
  | MaxBlockBytes => 0 | MaxTxBytes => 1 | MaxGas => 2 | EpochLength => 3
  | UnbondingPeriod => 4 | TimeoutProposeMs => 5 | TimeoutPrevoteMs => 6
  | TimeoutPrecommitMs => 7 | TimeoutDeltaMs => 8 | MaxTimestampDriftMs => 9
  | MinSelfBond => 10 | DelegationCap => 11 | SlashPercent => 12
  end.

Definition param_of_byte (b : Z) : option ParamId :=
  match b with
  | 0 => Some MaxBlockBytes | 1 => Some MaxTxBytes | 2 => Some MaxGas
  | 3 => Some EpochLength | 4 => Some UnbondingPeriod | 5 => Some TimeoutProposeMs
  | 6 => Some TimeoutPrevoteMs | 7 => Some TimeoutPrecommitMs
  | 8 => Some TimeoutDeltaMs | 9 => Some MaxTimestampDriftMs
  | 10 => Some MinSelfBond | 11 => Some DelegationCap | 12 => Some SlashPercent
  | _ => None
  end.

Lemma param_of_byte_id id : param_of_byte (param_id_byte id) = Some id.
Proof. by destruct id. Qed.

#[export] Instance ParamId_countable : Countable ParamId :=
  inj_countable param_id_byte param_of_byte param_of_byte_id.

#[export] Instance ParamId_key_ord : KeyOrd ParamId :=
  λ a b, param_id_byte a <=? param_id_byte b.

#[export] Instance ParamId_key_ord_laws : KeyOrdLaws ParamId.
Proof.
  split; unfold key_le, ParamId_key_ord; intros.
  - rewrite !Z.leb_le. lia.
  - bsimpl. apply Z.leb_le. lia.
  - bsimpl. apply (inj Some). rewrite <- !param_of_byte_id. f_equal. lia.
Qed.

Abbreviation ParamsRegistry := (gmap ParamId Z).

Definition ParamsRegistry_new : ParamsRegistry :=
  <[MaxTimestampDriftMs := MAX_TIMESTAMP_DRIFT_MS]>
  (<[TimeoutDeltaMs := TIMEOUT_DELTA_MS]>
  (<[TimeoutPrecommitMs := TIMEOUT_PRECOMMIT_MS]>
  (<[TimeoutPrevoteMs := TIMEOUT_PREVOTE_MS]>
  (<[TimeoutProposeMs := TIMEOUT_PROPOSE_MS]>
  (<[UnbondingPeriod := UNBONDING_PERIOD]>
  (<[EpochLength := EPOCH_LENGTH]>
  (<[MaxGas := MAX_GAS]>
  (<[MaxTxBytes := MAX_TX_BYTES]>
  (<[MaxBlockBytes := MAX_BLOCK_BYTES]> ∅))))))))).

Definition params_get (r : ParamsRegistry) (id : ParamId) : option Z := r !! id.
Definition params_set (r : ParamsRegistry) (id : ParamId) (v : Z) : ParamsRegistry :=
  <[id := v]> r.
Definition params_iter (r : ParamsRegistry) : list (ParamId * Z) := btree_iter r.

(** ** [staking.rs] and [tx.rs] *)

Inductive StakeKind : Type := Bond | Unbond | Delegate | Undelegate | Withdraw.

(** [kind as u8]. *)
Definition stake_kind_tag (k : StakeKind) : Z :=
  match k with
  | Bond => 1 | Unbond => 2 | Delegate => 3 | Undelegate => 4 | Withdraw => 5
  end.

Record StakePayload := {
  sp_kind : StakeKind;
  sp_validator : option ValidatorId;
  sp_amount : Amount;
}.

Record Transfer := { tr_to : Address; tr_amount : Amount }.
Record Deploy := { dp_code : bytes }.
Record Call := { cl_to : Address; cl_data : bytes }.

Inductive TxPayload : Type :=
| PTransfer (t : Transfer)
| PStake (s : StakePayload)
| PDeploy (d : Deploy)
| PCall (c : Call).

Record Tx := {
  tx_chain_id : ChainId;
  tx_nonce : Nonce;
  tx_gas_limit : Z;
  tx_max_fee : Amount;
  tx_payload : TxPayload;
}.

Record SignedTx := {
  st_tx : Tx;
  st_signature : bytes;
  st_public_key : bytes;
}.

#[export] Instance StakeKind_eq_dec : EqDecision StakeKind.
Proof. solve_decision. Defined.
#[export] Instance StakePayload_eq_dec : EqDecision StakePayload.
Proof. solve_decision. Defined.
#[export] Instance Transfer_eq_dec : EqDecision Transfer.
Proof. solve_decision. Defined.
#[export] Instance Deploy_eq_dec : EqDecision Deploy.
Proof. solve_decision. Defined.
#[export] Instance Call_eq_dec : EqDecision Call.
Proof. solve_decision. Defined.
#[export] Instance TxPayload_eq_dec : EqDecision TxPayload.
Proof. solve_decision. Defined.
#[export] Instance Tx_eq_dec : EqDecision Tx.
Proof. solve_decision. Defined.
#[export] Instance SignedTx_eq_dec : EqDecision SignedTx.
Proof. solve_decision. Defined.

(** Constructors of [impl Tx]. *)
Definition tx_transfer (c : ChainId) (n : Nonce) (g : Z) (f : Amount)
    (to : Address) (a : Amount) : Tx :=
  {| tx_chain_id := c; tx_nonce := n; tx_gas_limit := g; tx_max_fee := f;
     tx_payload := PTransfer {| tr_to := to; tr_amount := a |} |}.

Definition stake_tx (c : ChainId) (n : Nonce) (g : Z) (f : Amount)
    (p : StakePayload) : Tx :=
  {| tx_chain_id := c; tx_nonce := n; tx_gas_limit := g; tx_max_fee := f;
     tx_payload := PStake p |}.

Definition stake_bond c n g f (v : ValidatorId) (a : Amount) : Tx :=
  stake_tx c n g f {| sp_kind := Bond; sp_validator := Some v; sp_amount := a |}.
Definition stake_unbond c n g f (v : ValidatorId) (a : Amount) : Tx :=
  stake_tx c n g f {| sp_kind := Unbond; sp_validator := Some v; sp_amount := a |}.
Definition stake_delegate c n g f (v : ValidatorId) (a : Amount) : Tx :=
  stake_tx c n g f {| sp_kind := Delegate; sp_validator := Some v; sp_amount := a |}.
Definition stake_undelegate c n g f (v : ValidatorId) (a : Amount) : Tx :=
  stake_tx c n g f {| sp_kind := Undelegate; sp_validator := Some v; sp_amount := a |}.
Definition stake_withdraw c n g f (a : Amount) : Tx :=
  stake_tx c n g f {| sp_kind := Withdraw; sp_validator := None; sp_amount := a |}.

Definition tx_deploy c n g f (code : bytes) : Tx :=
  {| tx_chain_id := c; tx_nonce := n; tx_gas_limit := g; tx_max_fee := f;
     tx_payload := PDeploy {| dp_code := code |} |}.
Definition tx_call c n g f (to : Address) (data : bytes) : Tx :=
  {| tx_chain_id := c; tx_nonce := n; tx_gas_limit := g; tx_max_fee := f;
     tx_payload := PCall {| cl_to := to; cl_data := data |} |}.

(** Views of [impl Tx]. *)
Definition as_transfer (t : Tx) : option Transfer :=
  match tx_payload t with PTransfer x => Some x | _ => None end.
Definition as_stake (t : Tx) : option StakePayload :=
  match tx_payload t with PStake s => Some s | _ => None end.
Definition as_deploy (t : Tx) : option Deploy :=
  match tx_payload t with PDeploy d => Some d | _ => None end.
Definition as_call (t : Tx) : option Call :=
  match tx_payload t with PCall c => Some c | _ => None end.

(** The values of the Rust type: every field in its range.  [Some] is the
    stake target of every kind but [Withdraw], as the constructors build it. *)
Definition stake_wf (s : StakePayload) : Prop :=
  u128 (sp_amount s) ∧
  match sp_kind s with
  | Withdraw => sp_validator s = None
  | _ => match sp_validator s with Some v => array 48 v | None => False end
  end.

Definition payload_wf (p : TxPayload) : Prop :=
  match p with
  | PTransfer t => array 32 (tr_to t) ∧ u128 (tr_amount t)
  | PStake s => stake_wf s
  | PDeploy d => bytes_ok (dp_code d)
  | PCall c => array 32 (cl_to c) ∧ bytes_ok (cl_data c)
  end.

Definition tx_wf (t : Tx) : Prop :=
  u64 (tx_chain_id t) ∧ u64 (tx_nonce t) ∧ u64 (tx_gas_limit t) ∧
  u128 (tx_max_fee t) ∧ payload_wf (tx_payload t).

#[export] Instance tx_wf_dec t : Decision (tx_wf t).
Proof.
  unfold tx_wf, payload_wf, stake_wf.
  repeat first [apply and_dec | case_match]; apply _.
Defined.

(** ** [header.rs] and [block.rs] *)

Record HeaderFields := {
  hf_height : Height;
  hf_round : Round;
  hf_proposer : ValidatorId;
  hf_timestamp_ms : Z;
}.

Record Header := {
  h_fields : HeaderFields;
  h_tx_root : Hash;
  h_state_root : Hash;
  h_receipts_root : Hash;
  h_validators_hash : Hash;
  h_da_root : Hash;
}.

Record Block := { b_header_fields : HeaderFields; b_txs : list SignedTx }.

Definition envelopes (b : Block) : list Tx := st_tx <$> b_txs b.

#[export] Instance HeaderFields_eq_dec : EqDecision HeaderFields.
Proof. solve_decision. Defined.
#[export] Instance Header_eq_dec : EqDecision Header.
Proof. solve_decision. Defined.

Definition DA_ROOT_PLACEHOLDER : Hash := Hash_ZERO.

(** [now] is [clock.now_millis()]. *)
Definition timestamp_in_bounds (now : Z) (height : Height)
    (prev_timestamp_ms proposed_ms max_drift_ms : Z) : bool :=
  if negb (height =? 0) && (proposed_ms <? prev_timestamp_ms) then false
  else proposed_ms <=? sat_add U64_MAX now max_drift_ms.

Definition HeaderFields_new (now : Z) (height : Height) (round : Round)
    (proposer : ValidatorId) (prev_timestamp_ms timestamp_ms : Z) :
    option HeaderFields :=
  if timestamp_in_bounds now height prev_timestamp_ms timestamp_ms
       MAX_TIMESTAMP_DRIFT_MS
  then Some {| hf_height := height; hf_round := round; hf_proposer := proposer;
               hf_timestamp_ms := timestamp_ms |}
  else None.

Definition apply_da_root (h : Header) (r : Hash) : Header :=
  {| h_fields := h_fields h; h_tx_root := h_tx_root h;
     h_state_root := h_state_root h; h_receipts_root := h_receipts_root h;
     h_validators_hash := h_validators_hash h; h_da_root := r |}.

Definition header_wf (h : Header) : Prop :=
  u64 (hf_height (h_fields h)) ∧ u32 (hf_round (h_fields h)) ∧
  array 48 (hf_proposer (h_fields h)) ∧ u64 (hf_timestamp_ms (h_fields h)) ∧
  array 32 (h_tx_root h) ∧ array 32 (h_state_root h) ∧
  array 32 (h_receipts_root h) ∧ array 32 (h_validators_hash h) ∧
  array 32 (h_da_root h).

(** ** [genesis.rs] *)

Record GenesisAccount := {
  ga_balance : Amount;
  ga_nonce : Nonce;
  ga_code_hash : Hash;
}.

Record GenesisTimeouts := {
  gt_propose_ms : Z; gt_prevote_ms : Z; gt_precommit_ms : Z; gt_delta_ms : Z }.

Definition GenesisTimeouts_from_spec : GenesisTimeouts :=
  {| gt_propose_ms := TIMEOUT_PROPOSE_MS; gt_prevote_ms := TIMEOUT_PREVOTE_MS;
     gt_precommit_ms := TIMEOUT_PRECOMMIT_MS; gt_delta_ms := TIMEOUT_DELTA_MS |}.

Record GenesisParams := {
  gp_registry : ParamsRegistry; gp_timeouts : GenesisTimeouts }.

Definition GenesisParams_from_registry (r : ParamsRegistry) : GenesisParams :=
  {| gp_registry := r; gp_timeouts := GenesisTimeouts_from_spec |}.

Record Genesis := {
  g_chain_id : ChainId;
  g_alloc : gmap Address GenesisAccount;
  g_validators : gmap ValidatorId VotingPower;
  g_params : GenesisParams;
}.

Definition Genesis_new (c : ChainId) : Genesis :=
  {| g_chain_id := c; g_alloc := ∅; g_validators := ∅;
     g_params := GenesisParams_from_registry ParamsRegistry_new |}.

Definition insert_alloc (g : Genesis) (a : Address) (acc : GenesisAccount) : Genesis :=
  {| g_chain_id := g_chain_id g; g_alloc := <[a := acc]> (g_alloc g);
     g_validators := g_validators g; g_params := g_params g |}.

Definition insert_validator (g : Genesis) (v : ValidatorId) (p : VotingPower) : Genesis :=
  {| g_chain_id := g_chain_id g; g_alloc := g_alloc g;
     g_validators := <[v := p]> (g_validators g); g_params := g_params g |}.
