(* ===== verification/Codec.v ===== *)
(** Canonical binary encodings: the versioned codec ([types/src/encoding.rs]),
    transactions ([types/src/tx.rs]), the header and genesis preimages
    ([types/src/header.rs], [types/src/genesis.rs]) and accounts
    ([state/src/account.rs]).

    Main results: decoding inverts encoding ([tx_decode_encode]), a decoded
    transaction has exactly one encoding ([tx_encode_decode]), and the hashed
    preimages determine what was hashed. *)

From S2P Require Import Prelude Types.
From Stdlib Require Import String.
From stdpp Require Import list.

#[local] Open Scope Z_scope.
#[local] Open Scope l1_scope.

Abbreviation len l := (Z.of_nat (length l)).

(** ** [encoding.rs] *)

Definition CODEC_VERSION : Z := 1.

(** [u32::try_from(n).unwrap_or(u32::MAX)]. *)
Definition u32_or_max (n : Z) : Z := if n <=? U32_MAX then n else U32_MAX.

Definition encode (payload : bytes) : bytes :=
  [CODEC_VERSION] ++ be_bytes 4 (u32_or_max (len payload)) ++ payload.

Definition decode (buf : bytes) : result bytes TypesError :=
  if len buf <? 5 then Err CodecTruncated
  else if negb (nth 0 buf 0 =? CODEC_VERSION) then Err (CodecVersion (nth 0 buf 0))
  else
    let n := of_be (slice 1 5 buf) in
    let rest := drop 5 buf in
    if negb (len rest =? n) then Err (CodecLength n (len rest))
    else Ok rest.

(** ** [tx.rs]: the envelope

    [None] is the panic of [expect("stake target")]. *)

Definition as_u32 (n : Z) : Z := n mod 4294967296.

Definition payload_bytes (t : Tx) : option bytes :=
  let p := be_bytes 8 (tx_chain_id t) ++ be_bytes 8 (tx_nonce t) ++
           be_bytes 8 (tx_gas_limit t) ++ be_bytes 16 (tx_max_fee t) in
  match tx_payload t with
  | PTransfer x => Some (p ++ [0] ++ tr_to x ++ be_bytes 16 (tr_amount x))
  | PStake s =>
      match sp_kind s with
      | Withdraw => Some (p ++ [stake_kind_tag (sp_kind s)] ++ be_bytes 16 (sp_amount s))
      | Bond | Unbond | Delegate | Undelegate =>
          match sp_validator s with
          | Some id =>
              Some (p ++ [stake_kind_tag (sp_kind s)] ++ id ++ be_bytes 16 (sp_amount s))
          | None => None
          end
      end
  | PDeploy d =>
      Some (p ++ [6] ++ be_bytes 4 (as_u32 (len (dp_code d))) ++ dp_code d)
  | PCall c =>
      Some (p ++ [7] ++ cl_to c ++ be_bytes 4 (as_u32 (len (cl_data c))) ++ cl_data c)
  end.

Definition tx_encode (t : Tx) : option bytes := encode <$> payload_bytes t.

Definition tx_decode (buf : bytes) : result Tx TypesError :=
  let? raw := decode buf in
  if len raw <? 8 + 8 + 8 + 16 + 1 then Err (BadLength 41 (len raw)) else
  let mk p :=
    {| tx_chain_id := of_be (slice 0 8 raw);
       tx_nonce := of_be (slice 8 16 raw);
       tx_gas_limit := of_be (slice 16 24 raw);
       tx_max_fee := of_be (slice 24 40 raw);
       tx_payload := p |} in
  let tag := nth 40 raw 0 in
  if tag =? 0 then
    if negb (len raw =? 41 + 32 + 16) then Err (BadLength 89 (len raw))
    else Ok (mk (PTransfer {| tr_to := slice 41 73 raw;
                              tr_amount := of_be (slice 73 89 raw) |}))
  else if (1 <=? tag) && (tag <=? 4) then
    if negb (len raw =? 41 + 48 + 16) then Err (BadLength 105 (len raw))
    else
      let kind := if tag =? 1 then Bond else if tag =? 2 then Unbond
                  else if tag =? 3 then Delegate else Undelegate in
      Ok (mk (PStake {| sp_kind := kind;
                        sp_validator := Some (slice 41 89 raw);
                        sp_amount := of_be (slice 89 105 raw) |}))
  else if tag =? 5 then
    if negb (len raw =? 41 + 16) then Err (BadLength 57 (len raw))
    else Ok (mk (PStake {| sp_kind := Withdraw; sp_validator := None;
                           sp_amount := of_be (slice 41 57 raw) |}))
  else if tag =? 6 then
    if len raw <? 45 then Err (BadLength 45 (len raw))
    else
      let n := of_be (slice 41 45 raw) in
      if negb (len raw =? 45 + n) then Err (BadLength (45 + n) (len raw))
      else Ok (mk (PDeploy {| dp_code := drop 45 raw |}))
  else if tag =? 7 then
    if len raw <? 41 + 32 + 4 then Err (BadLength 77 (len raw))
    else
      let n := of_be (slice 73 77 raw) in
      if negb (len raw =? 77 + n) then Err (BadLength (77 + n) (len raw))
      else Ok (mk (PCall {| cl_to := slice 41 73 raw; cl_data := drop 77 raw |}))
  else Err (Kv "unknown tx payload tag"%string).

(** ** [header.rs] *)

Definition hash_preimage (h : Header) : bytes :=
  be_bytes 8 (hf_height (h_fields h)) ++ be_bytes 4 (hf_round (h_fields h)) ++
  hf_proposer (h_fields h) ++ be_bytes 8 (hf_timestamp_ms (h_fields h)) ++
  h_tx_root h ++ h_state_root h ++ h_receipts_root h ++ h_validators_hash h ++
  h_da_root h.

(** ** [genesis.rs] *)

Definition alloc_entry (e : Address * GenesisAccount) : bytes :=
  e.1 ++ be_bytes 16 (ga_balance e.2) ++ be_bytes 8 (ga_nonce e.2) ++ ga_code_hash e.2.
Definition validator_entry (e : ValidatorId * VotingPower) : bytes :=
  e.1 ++ be_bytes 8 e.2.
Definition param_entry (e : ParamId * Z) : bytes :=
  [param_id_byte e.1] ++ be_bytes 8 e.2.

Definition genesis_preimage (g : Genesis) : bytes :=
  let t := gp_timeouts (g_params g) in
  let ps := params_iter (gp_registry (g_params g)) in
  be_bytes 8 (g_chain_id g) ++
  be_bytes 4 (as_u32 (Z.of_nat (size (g_alloc g)))) ++
  concat (alloc_entry <$> btree_iter (g_alloc g)) ++
  be_bytes 4 (as_u32 (Z.of_nat (size (g_validators g)))) ++
  concat (validator_entry <$> btree_iter (g_validators g)) ++
  be_bytes 4 (as_u32 (len ps)) ++ concat (param_entry <$> ps) ++
  be_bytes 8 (gt_propose_ms t) ++ be_bytes 8 (gt_prevote_ms t) ++
  be_bytes 8 (gt_precommit_ms t) ++ be_bytes 8 (gt_delta_ms t).

(** ** [state/src/account.rs] *)

Record Account := { balance : Amount; nonce : Nonce; code_hash : Hash }.

#[export] Instance Account_eq_dec : EqDecision Account.
Proof. solve_decision. Defined.

Definition Account_empty : Account :=
  {| balance := 0; nonce := 0; code_hash := Hash_ZERO |}.

Definition account_encode (a : Account) : bytes :=
  encode (be_bytes 16 (balance a) ++ be_bytes 8 (nonce a) ++ code_hash a).

Definition account_decode (buf : bytes) : result Account TypesError :=
  let? payload := decode buf in
  if negb (len payload =? 16 + 8 + 32) then Err (BadLength 56 (len payload))
  else Ok {| balance := of_be (slice 0 16 payload);
             nonce := of_be (slice 16 24 payload);
             code_hash := slice 24 56 payload |}.

Definition from_genesis (g : GenesisAccount) : Account :=
  {| balance := ga_balance g; nonce := ga_nonce g; code_hash := ga_code_hash g |}.

Definition account_wf (a : Account) : Prop :=
  u128 (balance a) ∧ u64 (nonce a) ∧ array 32 (code_hash a).

(** ** Lemmas *)

Lemma length_encode p : length (encode p) = (5 + length p)%nat.
Proof. unfold encode. autorewrite with l1simpl. lia. Qed.

Lemma encode_ok p : bytes_ok p → bytes_ok (encode p).
Proof.
  intros. unfold encode, bytes_ok. repeat apply Forall_app_2; auto with l1.
  - repeat constructor; unfold CODEC_VERSION; ulia.
  - apply be_bytes_ok.
Qed.

Lemma drop_encode p : drop 5 (encode p) = p.
Proof.
  unfold encode. rewrite app_assoc. apply drop_app_length'.
  by autorewrite with l1simpl.
Qed.

Lemma decode_encode p : len p ≤ U32_MAX → decode (encode p) = Ok p.
Proof.
  intros Hp. unfold decode. rewrite length_encode, drop_encode.
  replace (_ <? 5) with false by (symmetry; apply Z.ltb_ge; lia).
  unfold encode. rewrite slice_skip, slice_head; cbn [length Nat.sub]; auto with l1.
  rewrite of_be_be_bytes.
  2:{ unfold u32_or_max. case_match; bsimpl; ulia. }
  unfold u32_or_max. replace (len p <=? U32_MAX) with true by (symmetry; apply Z.leb_le; lia).
  cbn [nth app]. by rewrite !Z.eqb_refl.
Qed.

Lemma decode_Ok buf p :
  bytes_ok buf → decode buf = Ok p → encode p = buf ∧ bytes_ok p ∧ len p ≤ U32_MAX.
Proof.
  intros Hb Hd. unfold decode in Hd.
  case_hyp Hd; [done|]. case_hyp Hd; [done|]. case_hyp Hd; [done|].
  bsimpl. simplify_eq Hd. intros <-.
  pose proof (of_be_bound (slice 1 5 buf) (slice_ok 1 5 _ Hb)) as Hn.
  rewrite length_slice in Hn by lia. cbn [Nat.sub] in Hn.
  assert (len (drop 5 buf) ≤ U32_MAX) as Hl by ulia.
  split_and!; [|by apply Forall_drop|done].
  unfold encode, u32_or_max. rewrite (proj2 (Z.leb_le _ _) Hl).
  replace (len (drop 5 buf)) with (of_be (slice 1 5 buf)).
  rewrite be_bytes_of_be by (auto with l1; rewrite length_slice; lia).
  rewrite <- Heqb0.
  rewrite <- (slice_one 0 buf) by lia.
  rewrite slice_glue_app, slice_to_end, slice_glue by lia.
  by apply slice_all.
Qed.

(** The fixed part of an envelope followed by a tag and the variant. *)
Definition raw_tx (c n g f tag : Z) (rest : bytes) : bytes :=
  be_bytes 8 c ++ be_bytes 8 n ++ be_bytes 8 g ++ be_bytes 16 f ++ [tag] ++ rest.

Lemma length_raw_tx c n g f tag rest :
  length (raw_tx c n g f tag rest) = (41 + length rest)%nat.
Proof. unfold raw_tx. autorewrite with l1simpl. lia. Qed.

Lemma raw_tx_fields c n g f tag rest :
  slice 0 8 (raw_tx c n g f tag rest) = be_bytes 8 c ∧
  slice 8 16 (raw_tx c n g f tag rest) = be_bytes 8 n ∧
  slice 16 24 (raw_tx c n g f tag rest) = be_bytes 8 g ∧
  slice 24 40 (raw_tx c n g f tag rest) = be_bytes 16 f ∧
  nth 40 (raw_tx c n g f tag rest) 0 = tag.
Proof.
  unfold raw_tx. split_and!; slices; try done.
Qed.

Lemma raw_tx_rest c n g f tag rest a b :
  slice (41 + a) (41 + b) (raw_tx c n g f tag rest) = slice a b rest.
Proof.
  unfold raw_tx. rewrite !app_assoc, slice_skip by len_tac.
  f_equal; len_tac.
Qed.

Lemma raw_tx_drop c n g f tag rest a :
  drop (41 + a) (raw_tx c n g f tag rest) = drop a rest.
Proof.
  unfold raw_tx. rewrite !app_assoc, drop_app_ge by len_tac.
  f_equal; len_tac.
Qed.

Lemma raw_tx_of raw :
  bytes_ok raw → (41 ≤ length raw)%nat →
  raw_tx (of_be (slice 0 8 raw)) (of_be (slice 8 16 raw)) (of_be (slice 16 24 raw))
    (of_be (slice 24 40 raw)) (nth 40 raw 0) (drop 41 raw) = raw.
Proof.
  intros Hb Hl. unfold raw_tx.
  rewrite !be_bytes_of_be by (auto with l1; rewrite length_slice; lia).
  rewrite <- (slice_one 40 raw), slice_to_end by lia.
  rewrite !slice_glue_app, slice_glue by lia. by apply slice_all.
Qed.

Lemma of_be_slice_bound a b raw :
  bytes_ok raw → (b ≤ length raw)%nat →
  0 ≤ of_be (slice a b raw) < 256 ^ Z.of_nat (b - a).
Proof.
  intros Hb Hl. rewrite <- (length_slice a b raw Hl). apply of_be_bound. auto with l1.
Qed.

Lemma array_slice a b raw n :
  bytes_ok raw → (b ≤ length raw)%nat → (b - a = n)%nat → array n (slice a b raw).
Proof. intros. split; [rewrite length_slice; lia|auto with l1]. Qed.

Lemma slice_u32 a b raw :
  bytes_ok raw → (b ≤ length raw)%nat → (b - a = 4)%nat → u32 (of_be (slice a b raw)).
Proof. intros Hr Hb E. pose proof (of_be_slice_bound a b raw Hr Hb) as H. rewrite E in H. ulia. Qed.

Lemma slice_u64 a b raw :
  bytes_ok raw → (b ≤ length raw)%nat → (b - a = 8)%nat → u64 (of_be (slice a b raw)).
Proof. intros Hr Hb E. pose proof (of_be_slice_bound a b raw Hr Hb) as H. rewrite E in H. ulia. Qed.

Lemma slice_u128 a b raw :
  bytes_ok raw → (b ≤ length raw)%nat → (b - a = 16)%nat → u128 (of_be (slice a b raw)).
Proof. intros Hr Hb E. pose proof (of_be_slice_bound a b raw Hr Hb) as H. rewrite E in H. ulia. Qed.

(** Ranges, lengths and byte-ness of the slices of a decoded buffer. *)
Ltac slice_range :=
  solve [ apply slice_u128; [done|lia|lia] | apply slice_u64; [done|lia|lia]
        | apply slice_u32; [done|lia|lia] | apply array_slice; [done|lia|lia]
        | rewrite length_slice; lia | by apply slice_ok | by apply Forall_drop
        | split_and!; slice_range | done ].

(** One variant of the payload, as tag and bytes. *)
Lemma payload_bytes_raw t p :
  payload_bytes t = Some p →
  ∃ tag rest,
    p = raw_tx (tx_chain_id t) (tx_nonce t) (tx_gas_limit t) (tx_max_fee t) tag rest ∧
    match tx_payload t with
    | PTransfer x => tag = 0 ∧ rest = tr_to x ++ be_bytes 16 (tr_amount x)
    | PStake s =>
        tag = stake_kind_tag (sp_kind s) ∧
        match sp_kind s with
        | Withdraw => rest = be_bytes 16 (sp_amount s)
        | _ => ∃ id, sp_validator s = Some id ∧ rest = id ++ be_bytes 16 (sp_amount s)
        end
    | PDeploy d => tag = 6 ∧ rest = be_bytes 4 (as_u32 (len (dp_code d))) ++ dp_code d
    | PCall c =>
        tag = 7 ∧ rest = cl_to c ++ be_bytes 4 (as_u32 (len (cl_data c))) ++ cl_data c
    end.
Proof.
  intros Hp. unfold payload_bytes in Hp. unfold raw_tx.
  repeat (case_hyp Hp; try done); simplify_eq;
    eexists _, _; rewrite <- !app_assoc; split_and!; eauto.
Qed.

Lemma payload_bytes_total tx : tx_wf tx → ∃ b, payload_bytes tx = Some b.
Proof.
  intros (_ & _ & _ & _ & Hp). unfold payload_bytes, payload_wf, stake_wf in *.
  repeat case_match; naive_solver.
Qed.

Lemma tx_encode_total tx : tx_wf tx → is_Some (tx_encode tx).
Proof. intros [b Hb]%payload_bytes_total. unfold tx_encode. rewrite Hb. by eexists. Qed.

Lemma as_u32_small n : 0 ≤ n ≤ U32_MAX → as_u32 n = n.
Proof. intros. unfold as_u32. apply Z.mod_small. ulia. Qed.

(** Evaluate a test of [decode] on a buffer of known length. *)
Ltac ztest :=
  match goal with
  | |- context [?a <? ?b] =>
      first [replace (a <? b) with false by (symmetry; apply Z.ltb_ge; lia)
            |replace (a <? b) with true by (symmetry; apply Z.ltb_lt; lia)]
  | |- context [?a =? ?b] =>
      first [replace (a =? b) with true by (symmetry; apply Z.eqb_eq; lia)
            |replace (a =? b) with false by (symmetry; apply Z.eqb_neq; lia)]
  | |- context [?a <=? ?b] =>
      first [replace (a <=? b) with true by (symmetry; apply Z.leb_le; lia)
            |replace (a <=? b) with false by (symmetry; apply Z.leb_gt; lia)]
  end.

Lemma tx_decode_encode t b :
  tx_wf t → tx_encode t = Some b → len b ≤ U32_MAX → tx_decode b = Ok t.
Proof.
  intros (Hc & Hn & Hg & Hf & Hp) He Hl.
  apply fmap_Some in He as (p & Ep & ->).
  rewrite length_encode in Hl. unfold tx_decode. rewrite decode_encode by lia.
  destruct (payload_bytes_raw _ _ Ep) as (tag & rest & -> & Hv).
  destruct t as [c n g f pl]; cbn [tx_chain_id tx_nonce tx_gas_limit tx_max_fee tx_payload] in *.
  destruct (raw_tx_fields c n g f tag rest) as (-> & -> & -> & -> & ->).
  rewrite length_raw_tx in *. ztest.
  rewrite !of_be_be_bytes by ulia.
  rewrite (raw_tx_rest _ _ _ _ _ _ 0 32), (raw_tx_rest _ _ _ _ _ _ 32 48),
    (raw_tx_rest _ _ _ _ _ _ 0 48), (raw_tx_rest _ _ _ _ _ _ 48 64),
    (raw_tx_rest _ _ _ _ _ _ 0 16), (raw_tx_rest _ _ _ _ _ _ 0 4),
    (raw_tx_rest _ _ _ _ _ _ 32 36),
    (raw_tx_drop _ _ _ _ _ _ 4), (raw_tx_drop _ _ _ _ _ _ 36).
  destruct pl as [[to a]|[k v a]|[code]|[to data]]; cbn in Hp, Hv.
  - destruct Hv as [-> ->]. destruct Hp as [[Hto Hok] Ha].
    autorewrite with l1simpl. rewrite Hto. slices.
    rewrite of_be_be_bytes by ulia. done.
  - destruct Hp as [Ha Hk], Hv as [-> Hv]; cbn in Ha, Hk.
    destruct k; cbn;
      try (destruct Hv as (id & -> & ->), Hk as [Hlv Hok];
           autorewrite with l1simpl; rewrite Hlv; slices;
           rewrite of_be_be_bytes by ulia; done).
    subst rest v. autorewrite with l1simpl. slices.
    rewrite of_be_be_bytes by ulia. done.
  - destruct Hv as [-> ->]. autorewrite with l1simpl in *.
    slices. rewrite as_u32_small by lia. rewrite of_be_be_bytes by ulia.
    cbn -[Z.of_nat]. repeat ztest. cbn. rewrite drop_app_length' by len_tac. done.
  - destruct Hv as [-> ->]. destruct Hp as [[Hto Hok] Hd].
    autorewrite with l1simpl in *. rewrite Hto in *.
    slices. rewrite as_u32_small by lia. rewrite of_be_be_bytes by ulia.
    cbn -[Z.of_nat]. repeat ztest. cbn. rewrite app_assoc, drop_app_length' by len_tac. done.
Qed.

Definition sample_tx : Tx :=
  tx_call 7 3 60000 9 (replicate 32 5) [1; 2; 255].

Lemma tx_encode_decode b t :
  bytes_ok b → tx_decode b = Ok t → tx_encode t = Some b ∧ tx_wf t.
Proof.
  intros Hb Hd. unfold tx_decode in Hd.
  destruct (decode b) as [raw|] eqn:Ed; [|done].
  destruct (decode_Ok _ _ Hb Ed) as (<- & Hr & Hl). clear Ed.
  case_hyp Hd; [done|]. bsimpl.
  assert (41 ≤ length raw)%nat as H41 by lia.
  pose proof (raw_tx_of raw Hr H41) as Eraw. unfold raw_tx in Eraw.
  set (rest := drop 41 raw) in *.
  enough (∃ tag r, payload_bytes t = Some (raw_tx (of_be (slice 0 8 raw))
      (of_be (slice 8 16 raw)) (of_be (slice 16 24 raw)) (of_be (slice 24 40 raw)) tag r)
    ∧ tag = nth 40 raw 0 ∧ r = rest ∧ tx_wf t) as (tag & r & E & -> & -> & Hwf).
  { split; [|done]. unfold tx_encode. rewrite E. unfold raw_tx. by rewrite Eraw. }
  unfold payload_bytes, raw_tx, tx_wf.
  repeat (case_hyp Hd; try done); simplify_eq; bsimpl; cbn;
    eexists _, _; (split; [rewrite <- !app_assoc; reflexivity|]); (split; [lia|]);
    split; try (split_and!; slice_range);
    subst rest; rewrite !slice_to_end, ?as_u32_small by (rewrite length_slice; lia).
  1-6: rewrite be_bytes_of_be by slice_range; rewrite ?slice_glue by lia; f_equal; lia.
  - replace (len (slice 45 (length raw) raw)) with (of_be (slice 41 45 raw))
      by (rewrite length_slice; lia).
    rewrite be_bytes_of_be by slice_range. rewrite !slice_glue by lia. f_equal; lia.
  - replace (len (slice 77 (length raw) raw)) with (of_be (slice 73 77 raw))
      by (rewrite length_slice; lia).
    rewrite be_bytes_of_be by slice_range.
    rewrite slice_glue_app, !slice_glue by lia. f_equal; lia.
Qed.

(** C27: transactions travel without loss or malleability.  Decoding the
    encoding of a well-formed transaction of at most [u32::MAX] bytes returns
    it; and whatever byte string decodes is the encoding of the well-formed
    transaction it decodes to, so two different byte strings never denote the
    same transaction. *)
Theorem tx_roundtrip t b :
  (tx_wf t → tx_encode t = Some b → len b ≤ U32_MAX → tx_decode b = Ok t) ∧
  (bytes_ok b → tx_decode b = Ok t → tx_encode t = Some b ∧ tx_wf t).
Proof. split; [apply tx_decode_encode|apply tx_encode_decode]. Qed.

Lemma tx_roundtrip_witness :
  ∃ b, tx_encode sample_tx = Some b ∧ tx_decode b = Ok sample_tx.
Proof.
  exists (default [] (tx_encode sample_tx)). split; [reflexivity|].
  refine (proj1 (tx_roundtrip sample_tx _) _ _ _); [by_eval|reflexivity|by_eval].
Defined.

Lemma account_decode_encode a :
  account_wf a → account_decode (account_encode a) = Ok a.
Proof.
  intros (Hb & Hn & Hl & Hok). unfold account_decode, account_encode.
  rewrite decode_encode by (autorewrite with l1simpl; rewrite Hl; uint; lia).
  autorewrite with l1simpl. rewrite Hl. cbn -[Z.of_nat]. ztest. cbn. slices.
  rewrite !of_be_be_bytes by ulia. by destruct a.
Qed.

Lemma account_decode_Ok b a :
  bytes_ok b → account_decode b = Ok a → account_wf a ∧ account_encode a = b.
Proof.
  intros Hb Hd. unfold account_decode in Hd.
  destruct (decode b) as [p|] eqn:Ed; [|done].
  destruct (decode_Ok _ _ Hb Ed) as (<- & Hr & Hl).
  case_hyp Hd; [done|]. bsimpl. simplify_eq. split.
  - unfold account_wf. cbn. split_and!; slice_range.
  - unfold account_encode. cbn. rewrite !be_bytes_of_be by slice_range.
    rewrite slice_glue_app, slice_glue by lia. by rewrite slice_all by lia.
Qed.

(** ** Preimages determine what was hashed *)

(** Peel equal-length prefixes off an equation of concatenations. *)
Lemma app_inj_len (a b c d : bytes) :
  a ++ c = b ++ d → length a = length b → a = b ∧ c = d.
Proof. intros E L. by apply app_inj_1. Qed.

Ltac peel H :=
  let Ha := fresh "Ea" in
  apply app_inj_len in H as [Ha H]; [|len_tac].

Lemma be_bytes_u64_inj a b : u64 a → u64 b → be_bytes 8 a = be_bytes 8 b → a = b.
Proof. intros. eapply (be_bytes_inj 8); [ulia|ulia|done]. Qed.
Lemma be_bytes_u32_inj a b : u32 a → u32 b → be_bytes 4 a = be_bytes 4 b → a = b.
Proof. intros. eapply (be_bytes_inj 4); [ulia|ulia|done]. Qed.
Lemma be_bytes_u128_inj a b : u128 a → u128 b → be_bytes 16 a = be_bytes 16 b → a = b.
Proof. intros. eapply (be_bytes_inj 16); [ulia|ulia|done]. Qed.

(** [Header::hash_preimage] is injective on well-formed headers: two
    headers that differ in any field, [da_root] included, are hashed from
    different byte strings. *)
Theorem hash_preimage_inj h1 h2 :
  header_wf h1 → header_wf h2 → hash_preimage h1 = hash_preimage h2 → h1 = h2.
Proof.
  intros (A1&A2&[A3 _]&A4&[A5 _]&[A6 _]&[A7 _]&[A8 _]&[A9 _])
         (B1&B2&[B3 _]&B4&[B5 _]&[B6 _]&[B7 _]&[B8 _]&[B9 _]) E.
  destruct h1 as [[? ? ? ?] ? ? ? ? ?], h2 as [[? ? ? ?] ? ? ? ? ?].
  unfold hash_preimage in E; cbn in *.
  do 8 peel E.
  apply be_bytes_u64_inj in Ea; [|done..]. apply be_bytes_u32_inj in Ea0; [|done..].
  apply be_bytes_u64_inj in Ea2; [|done..]. by subst.
Qed.

Definition sample_header : Header :=
  {| h_fields := {| hf_height := 5; hf_round := 1; hf_proposer := replicate 48 2;
                    hf_timestamp_ms := 77 |};
     h_tx_root := replicate 32 1; h_state_root := replicate 32 2;
     h_receipts_root := replicate 32 3; h_validators_hash := replicate 32 4;
     h_da_root := DA_ROOT_PLACEHOLDER |}.

#[export] Instance header_wf_dec h : Decision (header_wf h).
Proof. unfold header_wf. apply _. Defined.

Lemma hash_preimage_inj_witness :
  hash_preimage (apply_da_root sample_header (replicate 32 9)) ≠ hash_preimage sample_header.
Proof.
  intros E. apply hash_preimage_inj in E; [discriminate E|by_eval|by_eval].
Defined.

Definition genesis_account_wf (a : GenesisAccount) : Prop :=
  u128 (ga_balance a) ∧ u64 (ga_nonce a) ∧ array 32 (ga_code_hash a).

Definition genesis_wf (g : Genesis) : Prop :=
  u64 (g_chain_id g) ∧
  Z.of_nat (size (g_alloc g)) ≤ U32_MAX ∧
  map_Forall (λ a acc, array 32 a ∧ genesis_account_wf acc) (g_alloc g) ∧
  Z.of_nat (size (g_validators g)) ≤ U32_MAX ∧
  map_Forall (λ v p, array 48 v ∧ u64 p) (g_validators g) ∧
  Z.of_nat (size (gp_registry (g_params g))) ≤ U32_MAX ∧
  map_Forall (λ _ v, u64 v) (gp_registry (g_params g)) ∧
  let t := gp_timeouts (g_params g) in
  u64 (gt_propose_ms t) ∧ u64 (gt_prevote_ms t) ∧ u64 (gt_precommit_ms t) ∧
  u64 (gt_delta_ms t).

#[export] Instance genesis_wf_dec g : Decision (genesis_wf g).
Proof. unfold genesis_wf, genesis_account_wf. apply _. Defined.

Lemma alloc_entry_inj x y :
  (array 32 x.1 ∧ genesis_account_wf x.2) → (array 32 y.1 ∧ genesis_account_wf y.2) →
  alloc_entry x = alloc_entry y → x = y.
Proof.
  destruct x as [a [b n c]], y as [a' [b' n' c']]; unfold alloc_entry; cbn.
  intros [[L1 _] (B1 & N1 & [C1 _])] [[L2 _] (B2 & N2 & [C2 _])] E; cbn in *.
  do 3 peel E. apply be_bytes_u128_inj in Ea0; [|done..].
  apply be_bytes_u64_inj in Ea1; [|done..]. by subst.
Qed.

Lemma validator_entry_inj x y :
  (array 48 x.1 ∧ u64 x.2) → (array 48 y.1 ∧ u64 y.2) →
  validator_entry x = validator_entry y → x = y.
Proof.
  destruct x as [a p], y as [a' p']; unfold validator_entry; cbn.
  intros [[L1 _] P1] [[L2 _] P2] E. peel E.
  apply be_bytes_u64_inj in E; [|done..]. by subst.
Qed.

Lemma param_entry_inj (x y : ParamId * Z) :
  u64 x.2 → u64 y.2 → param_entry x = param_entry y → x = y.
Proof.
  destruct x as [a p], y as [a' p']; unfold param_entry; cbn [fst snd].
  intros P1 P2 E. peel E. simplify_eq Ea. intros Eid.
  apply be_bytes_u64_inj in E; [|done..].
  subst. f_equal. apply (inj Some). by rewrite <- !param_of_byte_id, Eid.
Qed.

Lemma size_u32_inj m n :
  Z.of_nat m ≤ U32_MAX → Z.of_nat n ≤ U32_MAX →
  be_bytes 4 (as_u32 (Z.of_nat m)) = be_bytes 4 (as_u32 (Z.of_nat n)) → m = n.
Proof.
  intros Hm Hn. rewrite !as_u32_small by lia. intros E.
  apply be_bytes_u32_inj in E; ulia.
Qed.

(** [Genesis::hash_preimage] is injective: the genesis hash is taken over
    bytes that determine the chain id, every allocation, every validator with
    its power, every registered parameter and the four timeouts. *)
Theorem genesis_preimage_inj g1 g2 :
  genesis_wf g1 → genesis_wf g2 → genesis_preimage g1 = genesis_preimage g2 → g1 = g2.
Proof.
  intros (A1&A2&A3&A4&A5&A6&A7&A8&A9&A10&A11) (B1&B2&B3&B4&B5&B6&B7&B8&B9&B10&B11) E.
  destruct g1 as [c1 al1 v1 [r1 [p1 q1 s1 d1]]], g2 as [c2 al2 v2 [r2 [p2 q2 s2 d2]]].
  unfold genesis_preimage, params_iter in E.
  cbn [g_chain_id g_alloc g_validators g_params gp_registry gp_timeouts gt_propose_ms
    gt_prevote_ms gt_precommit_ms gt_delta_ms] in *.
  rewrite !length_btree_iter in E.
  do 2 peel E. apply be_bytes_u64_inj in Ea; [|done..].
  apply size_u32_inj in Ea0; [|done..].
  apply (concat_fixed_inj alloc_entry 88 (λ x, array 32 x.1 ∧ genesis_account_wf x.2))
    in E as [Ealloc E];
    [|intros [? ?] [[L _] (_ & _ & [L' _])]; unfold alloc_entry; cbn in *; len_tac
     |apply alloc_entry_inj|by apply Forall_btree_iter..|by rewrite !length_btree_iter].
  peel E. apply size_u32_inj in Ea1; [|done..].
  apply (concat_fixed_inj validator_entry 56 (λ x, array 48 x.1 ∧ u64 x.2)) in E as [Eval E];
    [|intros [? ?] [[L _] _]; unfold validator_entry; cbn in *; len_tac
     |apply validator_entry_inj|by apply Forall_btree_iter..|by rewrite !length_btree_iter].
  peel E. apply size_u32_inj in Ea2; [|done..].
  apply (concat_fixed_inj param_entry 9 (λ x, u64 x.2)) in E as [Epar E];
    [|intros [? ?] _; unfold param_entry; len_tac
     |apply param_entry_inj|by apply Forall_btree_iter..|by rewrite !length_btree_iter].
  do 3 peel E.
  apply be_bytes_u64_inj in Ea3; [|done..]. apply be_bytes_u64_inj in Ea4; [|done..].
  apply be_bytes_u64_inj in Ea5; [|done..]. apply be_bytes_u64_inj in E; [|done..].
  apply btree_iter_inj in Ealloc, Eval, Epar. by subst.
Qed.

Lemma genesis_preimage_inj_witness :
  genesis_preimage (insert_validator (Genesis_new 1) (replicate 48 3) 10)
  ≠ genesis_preimage (Genesis_new 1).
Proof.
  intros E. apply genesis_preimage_inj in E; [|by_eval|by_eval].
  apply (f_equal (λ g, size (g_validators g))) in E.
  vm_compute in E. discriminate E.
Defined.
