(* ===== verification/Config.v ===== *)
(** Node configuration: [node/src/config.rs], with the identity and the
    bootstrap list of [network/src/{identity,discovery}.rs].

    A configuration directory is a map from file names to contents; failing
    disks are not modelled.  The keys, peer ids and addresses of libp2p are the
    class [Libp2p].  Shown: the genesis file and the whole directory are read
    back ([decode_genesis_ok], [config_dir_roundtrip]), except for the block
    time, which is not stored. *)

From Stdlib Require Import Ascii String.
From S2P Require Import Prelude Types Codec.
From stdpp Require Import list.

#[local] Open Scope string_scope.
#[local] Open Scope Z_scope.
#[local] Open Scope list_scope.
#[local] Open Scope l1_scope.

(** ** The [take] closure of the decoders *)

(** [take(&mut i, n)]: the next [n] bytes of [p] and the new offset. *)
Definition take_at {E : Type} (e : E) (p : bytes) (i : nat) (n : Z) : result (bytes * nat) E :=
  if Z.of_nat i + n >? len p then Err e else Ok (slice i (i + Z.to_nat n) p, (i + Z.to_nat n)%nat).

(** ** [identity.rs], [discovery.rs] *)

(** libp2p: peer ids, addresses and key pairs. *)
Class Libp2p := {
  PeerId : Type;
  PeerId_eq_dec :: EqDecision PeerId;
  PeerId_countable :: Countable PeerId;
  Multiaddr : Type;
  Keypair : Type;
  peer_to_bytes : PeerId → bytes;
  peer_from_bytes : bytes → option PeerId;
  addr_to_string : Multiaddr → bytes;
  addr_from_utf8 : bytes → option Multiaddr;
  peers_iter : gmap PeerId Multiaddr → list (PeerId * Multiaddr);
  keypair_from_seed : bytes → option Keypair;
  keypair_peer_id : Keypair → PeerId;
}.

(** Ids and addresses are read back, and a map is iterated over its entries. *)
Class Libp2pLaws `{!Libp2p} := {
  peer_roundtrip p : peer_from_bytes (peer_to_bytes p) = Some p;
  addr_roundtrip a : addr_from_utf8 (addr_to_string a) = Some a;
  peers_iter_perm m : peers_iter m ≡ₚ map_to_list m;
}.

Inductive ConfigError : Type := CfgCodec | CfgIo | CfgIdentity.

Section config.
Context `{!Libp2p}.

Record NodeIdentity := { ni_ed25519 : bytes; ni_keypair : Keypair; ni_peer_id : PeerId }.

Definition from_ed25519_secret (sk : bytes) : option NodeIdentity :=
  match keypair_from_seed sk with
  | None => None
  | Some keypair => Some {| ni_ed25519 := sk; ni_keypair := keypair; ni_peer_id := keypair_peer_id keypair |}
  end.

Abbreviation BootstrapList := (gmap PeerId Multiaddr).

(** ** [config.rs] *)

Record NodeConfig := {
  nc_genesis : Genesis;
  nc_bootstrap : BootstrapList;
  nc_identity : NodeIdentity;
  nc_data_dir : string;
  nc_min_block_time_ms : Z;
}.

Definition NodeConfig_new (genesis : Genesis) (bootstrap : BootstrapList) (identity : NodeIdentity)
    (data_dir : string) : NodeConfig :=
  {| nc_genesis := genesis; nc_bootstrap := bootstrap; nc_identity := identity;
     nc_data_dir := data_dir; nc_min_block_time_ms := 1000 |}.

Definition param_from_byte (b : Z) : option ParamId :=
  if b =? 0 then Some MaxBlockBytes
  else if b =? 1 then Some MaxTxBytes
  else if b =? 2 then Some MaxGas
  else if b =? 3 then Some EpochLength
  else if b =? 4 then Some UnbondingPeriod
  else if b =? 5 then Some TimeoutProposeMs
  else if b =? 6 then Some TimeoutPrevoteMs
  else if b =? 7 then Some TimeoutPrecommitMs
  else if b =? 8 then Some TimeoutDeltaMs
  else if b =? 9 then Some MaxTimestampDriftMs
  else if b =? 10 then Some MinSelfBond
  else if b =? 11 then Some DelegationCap
  else if b =? 12 then Some SlashPercent
  else None.

(** The same fields in the same order as [Genesis::hash_preimage]. *)
Definition encode_genesis (g : Genesis) : bytes :=
  let t := gp_timeouts (g_params g) in
  let params := params_iter (gp_registry (g_params g)) in
  encode (be_bytes 8 (g_chain_id g) ++
    be_bytes 4 (as_u32 (Z.of_nat (size (g_alloc g)))) ++ concat (alloc_entry <$> btree_iter (g_alloc g)) ++
    be_bytes 4 (as_u32 (Z.of_nat (size (g_validators g)))) ++
    concat (validator_entry <$> btree_iter (g_validators g)) ++
    be_bytes 4 (as_u32 (len params)) ++ concat (param_entry <$> params) ++
    be_bytes 8 (gt_propose_ms t) ++ be_bytes 8 (gt_prevote_ms t) ++ be_bytes 8 (gt_precommit_ms t) ++
    be_bytes 8 (gt_delta_ms t)).

(** The three [for] loops of [decode_genesis]. *)
Fixpoint decode_alloc (n : nat) (p : bytes) (i : nat) (g : Genesis) : result (Genesis * nat) ConfigError :=
  match n with
  | O => Ok (g, i)
  | S n =>
      let? (addr, i) := take_at CfgCodec p i 32 in
      let? (balance, i) := take_at CfgCodec p i 16 in
      let? (nonce, i) := take_at CfgCodec p i 8 in
      let? (code_hash, i) := take_at CfgCodec p i 32 in
      decode_alloc n p i
        (insert_alloc g addr {| ga_balance := of_be balance; ga_nonce := of_be nonce; ga_code_hash := code_hash |})
  end.

Fixpoint decode_validators (n : nat) (p : bytes) (i : nat) (g : Genesis) : result (Genesis * nat) ConfigError :=
  match n with
  | O => Ok (g, i)
  | S n =>
      let? (id, i) := take_at CfgCodec p i 48 in
      let? (power, i) := take_at CfgCodec p i 8 in
      decode_validators n p i (insert_validator g id (of_be power))
  end.

Fixpoint decode_params (n : nat) (p : bytes) (i : nat) (registry : ParamsRegistry) :
    result (ParamsRegistry * nat) ConfigError :=
  match n with
  | O => Ok (registry, i)
  | S n =>
      let? (b, i) := take_at CfgCodec p i 1 in
      let? id := ok_or (param_from_byte (nth 0 b 0)) CfgCodec in
      let? (v, i) := take_at CfgCodec p i 8 in
      decode_params n p i (params_set registry id (of_be v))
  end.

Definition decode_genesis (buf : bytes) : result Genesis ConfigError :=
  let? p := map_err (λ _, CfgCodec) (decode buf) in
  if len p <? 8 + 4 then Err CfgCodec
  else
    let? (chain_id, i) := take_at CfgCodec p 0 8 in
    let? (n_alloc, i) := take_at CfgCodec p i 4 in
    let g := Genesis_new (of_be chain_id) in
    let? (g, i) := decode_alloc (Z.to_nat (of_be n_alloc)) p i g in
    let? (n_val, i) := take_at CfgCodec p i 4 in
    let? (g, i) := decode_validators (Z.to_nat (of_be n_val)) p i g in
    let? (n_p, i) := take_at CfgCodec p i 4 in
    let? (registry, i) := decode_params (Z.to_nat (of_be n_p)) p i ParamsRegistry_new in
    let? (propose_ms, i) := take_at CfgCodec p i 8 in
    let? (prevote_ms, i) := take_at CfgCodec p i 8 in
    let? (precommit_ms, i) := take_at CfgCodec p i 8 in
    let? (delta_ms, i) := take_at CfgCodec p i 8 in
    if negb (i =? length p)%nat then Err CfgCodec
    else Ok {| g_chain_id := g_chain_id g; g_alloc := g_alloc g; g_validators := g_validators g;
               g_params := {| gp_registry := registry;
                              gp_timeouts := {| gt_propose_ms := of_be propose_ms; gt_prevote_ms := of_be prevote_ms;
                                                gt_precommit_ms := of_be precommit_ms;
                                                gt_delta_ms := of_be delta_ms |} |} |}.

(** ** Files *)

(** A directory: the contents of its files. *)
Abbreviation Dir := (gmap string bytes).

Definition peer_entry (e : PeerId * Multiaddr) : bytes :=
  be_bytes 4 (as_u32 (len (peer_to_bytes e.1))) ++ peer_to_bytes e.1 ++
  be_bytes 4 (as_u32 (len (addr_to_string e.2))) ++ addr_to_string e.2.

(** The contents of [bootstrap.bin]. *)
Definition encode_bootstrap (bootstrap : BootstrapList) : bytes :=
  be_bytes 4 (as_u32 (Z.of_nat (size bootstrap))) ++ concat (peer_entry <$> peers_iter bootstrap).

Definition write_bootstrap (dir : Dir) (bootstrap : BootstrapList) : Dir :=
  <["bootstrap.bin" := encode_bootstrap bootstrap]> dir.

Definition write_dir (dir : Dir) (cfg : NodeConfig) (bls_sk vrf_sk : bytes) : Dir :=
  let dir := <["genesis.bin" := encode_genesis (nc_genesis cfg)]> dir in
  let dir := <["ed25519" := ni_ed25519 (nc_identity cfg)]> dir in
  let dir := <["bls_sk" := bls_sk]> dir in
  let dir := <["vrf_sk" := vrf_sk]> dir in
  <["bootstrap.bin" := encode_bootstrap (nc_bootstrap cfg)]> dir.

(** [write_vrf_pks] and [write_vrf_secrets]: one file each, 80 bytes a key. *)
Definition key_entry (e : ValidatorId * bytes) : bytes := e.1 ++ e.2.
Definition write_vrf_pks (dir : Dir) (pks : gmap ValidatorId bytes) : Dir :=
  <["vrf_pks.bin" := concat (key_entry <$> btree_iter pks)]> dir.
Definition write_vrf_secrets (dir : Dir) (secrets : gmap ValidatorId bytes) : Dir :=
  <["vrf_secrets.bin" := concat (key_entry <$> btree_iter secrets)]> dir.

(** The [for] loop of [load_bootstrap] and of [load_dir]: a truncated entry ends
    it, an entry that does not parse fails it. *)
Fixpoint load_peers (n : nat) (b : bytes) (i : nat) (bootstrap : BootstrapList) :
    result BootstrapList ConfigError :=
  match n with
  | O => Ok bootstrap
  | S n =>
      if (length b <? i + 4)%nat then Ok bootstrap
      else
        let plen := Z.to_nat (of_be (slice i (i + 4) b)) in
        let i := (i + 4)%nat in
        if (length b <? i + plen)%nat then Ok bootstrap
        else
          let? peer := ok_or (peer_from_bytes (slice i (i + plen) b)) CfgCodec in
          let i := (i + plen)%nat in
          if (length b <? i + 4)%nat then Ok bootstrap
          else
            let alen := Z.to_nat (of_be (slice i (i + 4) b)) in
            let i := (i + 4)%nat in
            if (length b <? i + alen)%nat then Ok bootstrap
            else
              let? addr := ok_or (addr_from_utf8 (slice i (i + alen) b)) CfgCodec in
              load_peers n b (i + alen) (<[peer := addr]> bootstrap)
  end.

(** [unwrap_or_default]: a missing file is an empty list. *)
Definition load_bootstrap (dir : Dir) : result BootstrapList ConfigError :=
  let boot_bytes := default [] (dir !! "bootstrap.bin") in
  if (length boot_bytes <? 4)%nat then Ok ∅
  else load_peers (Z.to_nat (of_be (slice 0 4 boot_bytes))) boot_bytes 4 ∅.

(** The outer [None] is the panic of [copy_from_slice] on a key file of another
    length than 32. *)
Definition load_dir (dir : Dir) (path : string) : option (result (NodeConfig * bytes * bytes) ConfigError) :=
  match dir !! "genesis.bin" with
  | None => Some (Err CfgIo)
  | Some gbytes =>
      match decode_genesis gbytes with
      | Err e => Some (Err e)
      | Ok genesis =>
          match dir !! "ed25519" with
          | None => Some (Err CfgIo)
          | Some ed =>
              if negb (len ed =? 32) then Some (Err CfgIdentity)
              else match from_ed25519_secret ed with
              | None => Some (Err CfgIdentity)
              | Some identity =>
                  match dir !! "bls_sk" with
                  | None => Some (Err CfgIo)
                  | Some bls =>
                      if negb (len bls =? 32) then None
                      else match dir !! "vrf_sk" with
                      | None => Some (Err CfgIo)
                      | Some vrf =>
                          if negb (len vrf =? 32) then None
                          else
                            Some (let? bootstrap := load_bootstrap dir in
                                  Ok (NodeConfig_new genesis bootstrap identity path, bls, vrf))
                      end
                  end
              end
          end
      end
  end.

(** The [while] loops of [main] over [vrf_pks.bin] and [vrf_secrets.bin]. *)
Fixpoint load_keys (fuel : nat) (b : bytes) (i : nat) (keys : gmap ValidatorId bytes) : gmap ValidatorId bytes :=
  match fuel with
  | O => keys
  | S fuel =>
      if (i + 80 <=? length b)%nat
      then load_keys fuel b (i + 80) (<[slice i (i + 48) b := slice (i + 48) (i + 80) b]> keys)
      else keys
  end.

Definition load_vrf_pks (dir : Dir) : gmap ValidatorId bytes :=
  let b := default [] (dir !! "vrf_pks.bin") in load_keys (length b) b 0 ∅.
Definition load_vrf_secrets (dir : Dir) : gmap ValidatorId bytes :=
  let b := default [] (dir !! "vrf_secrets.bin") in load_keys (length b) b 0 ∅.

End config.

(** ** Reading back *)

Lemma take_at_app {E : Type} (e : E) pre x post i n :
  length pre = i → len x = n → take_at e (pre ++ x ++ post) i n = Ok (x, length (pre ++ x)).
Proof.
  intros <- <-. unfold take_at. destruct (Z.gtb_spec (Z.of_nat (length pre) + len x) (len (pre ++ x ++ post))) as [H|H].
  { rewrite !length_app in H. lia. }
  rewrite Nat2Z.id, slice_mid, length_app by done. done.
Qed.

(** Read the next pieces of a concatenation. *)
Ltac take_step :=
  match goal with
  | |- context [take_at ?e (?pre ++ ?x ++ ?post) (length ?pre) ?n] =>
      rewrite (take_at_app e pre x post (length pre) n eq_refl) by (autorewrite with l1simpl; lia);
      rewrite (app_assoc pre x post)
  end.

(** Inserting the entries of a map one by one. *)
Lemma foldl_insert {K V : Type} `{Countable K} (l : list (K * V)) (m : gmap K V) :
  NoDup l.*1 → foldl (λ m e, <[e.1 := e.2]> m) m l = list_to_map l ∪ m.
Proof.
  revert m. induction l as [|[k v] l IH]; intros m Hn; cbn; [by rewrite map_empty_union|].
  apply NoDup_cons in Hn as [Hk Hn]. rewrite IH by done. rewrite <- insert_union_r.
  - by rewrite insert_union_l.
  - by apply not_elem_of_list_to_map_1.
Qed.

Lemma decode_alloc_ok es pre post g :
  Forall (λ e, array 32 e.1 ∧ genesis_account_wf e.2) es →
  decode_alloc (length es) (pre ++ concat (alloc_entry <$> es) ++ post) (length pre) g =
    Ok (foldl (λ g e, insert_alloc g e.1 e.2) g es, length (pre ++ concat (alloc_entry <$> es))).
Proof.
  intros He. revert pre g. induction He as [|[a [b n c]] es ([La _] & Hb & Hn & [Lc _]) He IH]; intros pre g; cbn [length].
  { cbn. by rewrite app_nil_r. }
  rewrite fmap_cons. cbn [decode_alloc concat foldl fst snd ga_balance ga_nonce ga_code_hash] in *.
  change (alloc_entry (a, _)) with (a ++ be_bytes 16 b ++ be_bytes 8 n ++ c). rewrite <- !app_assoc.
  do 4 take_step. rewrite IH, !of_be_be_bytes by ulia. by rewrite <- !app_assoc.
Qed.

Lemma decode_validators_ok es pre post g :
  Forall (λ e, array 48 e.1 ∧ u64 e.2) es →
  decode_validators (length es) (pre ++ concat (validator_entry <$> es) ++ post) (length pre) g =
    Ok (foldl (λ g e, insert_validator g e.1 e.2) g es, length (pre ++ concat (validator_entry <$> es))).
Proof.
  intros He. revert pre g. induction He as [|[a b] es [[La _] Hb] He IH]; intros pre g; cbn [length].
  { cbn. by rewrite app_nil_r. }
  rewrite fmap_cons. cbn [decode_validators concat foldl fst snd] in *.
  change (validator_entry (a, _)) with (a ++ be_bytes 8 b). rewrite <- !app_assoc.
  do 2 take_step. rewrite IH, !of_be_be_bytes by ulia. by rewrite <- !app_assoc.
Qed.

Lemma param_from_byte_id id : param_from_byte (param_id_byte id) = Some id.
Proof. by destruct id. Qed.

Lemma decode_params_ok (es : list (ParamId * Z)) pre post r :
  Forall (λ e, u64 e.2) es →
  decode_params (length es) (pre ++ concat (param_entry <$> es) ++ post) (length pre) r =
    Ok (foldl (λ r e, <[e.1 := e.2]> r) r es, length (pre ++ concat (param_entry <$> es))).
Proof.
  intros He. revert pre r. induction He as [|[a b] es Hb He IH]; intros pre r; cbn [length].
  { cbn. by rewrite app_nil_r. }
  rewrite fmap_cons. cbn [decode_params concat foldl fst snd] in *.
  change (param_entry (a, _)) with ([param_id_byte a] ++ be_bytes 8 b). rewrite <- !app_assoc.
  take_step. cbn [nth]. rewrite param_from_byte_id. cbn [ok_or].
  take_step. unfold params_set. rewrite IH, !of_be_be_bytes by ulia. by rewrite <- !app_assoc.
Qed.

Lemma foldl_insert_alloc es g :
  foldl (λ g e, insert_alloc g e.1 e.2) g es =
    {| g_chain_id := g_chain_id g; g_alloc := foldl (λ m e, <[e.1 := e.2]> m) (g_alloc g) es;
       g_validators := g_validators g; g_params := g_params g |}.
Proof. revert g. induction es as [|e es IH]; intros g; [by destruct g|]. cbn. by rewrite IH. Qed.

Lemma foldl_insert_validator es g :
  foldl (λ g e, insert_validator g e.1 e.2) g es =
    {| g_chain_id := g_chain_id g; g_alloc := g_alloc g;
       g_validators := foldl (λ m e, <[e.1 := e.2]> m) (g_validators g) es; g_params := g_params g |}.
Proof. revert g. induction es as [|e es IH]; intros g; [by destruct g|]. cbn. by rewrite IH. Qed.

(** The iteration of a map, inserted on top of a smaller map, is the map. *)
Lemma insert_btree_iter {K V : Type} `{Countable K} `{!KeyOrd K} `{!KeyOrdLaws K} (m base : gmap K V) :
  dom base ⊆ dom m → foldl (λ m e, <[e.1 := e.2]> m) base (btree_iter m) = m.
Proof.
  intros Hd. rewrite foldl_insert by apply NoDup_btree_keys.
  assert (list_to_map (btree_iter m) = m) as ->.
  { rewrite (list_to_map_proper _ (map_to_list m)); [apply list_to_map_to_list| |apply btree_iter_perm].
    apply NoDup_btree_keys. }
  apply map_eq. intros k. destruct (m !! k) as [v|] eqn:E.
  - by apply lookup_union_Some_l.
  - rewrite lookup_union_r by done. apply not_elem_of_dom. intros Hk. apply Hd in Hk.
    by apply not_elem_of_dom in E.
Qed.

Lemma take_at_head {E : Type} (e : E) x post n :
  len x = n → take_at e (x ++ post) 0 n = Ok (x, length x).
Proof. intros Hn. exact (take_at_app e [] x post 0 n eq_refl Hn). Qed.

Lemma decode_genesis_ok g :
  genesis_wf g → dom ParamsRegistry_new ⊆ dom (gp_registry (g_params g)) → len (genesis_preimage g) ≤ U32_MAX →
  decode_genesis (encode_genesis g) = Ok g.
Proof.
  intros (A1&A2&A3&A4&A5&A6&A7&A8&A9&A10&A11) Hd Hl.
  destruct g as [c al v [r [p q s d]]]. unfold decode_genesis, encode_genesis, genesis_preimage, params_iter in *.
  cbn [g_chain_id g_alloc g_validators g_params gp_registry gp_timeouts gt_propose_ms
    gt_prevote_ms gt_precommit_ms gt_delta_ms] in *.
  rewrite length_btree_iter in *. rewrite !as_u32_small in * by ulia.
  rewrite decode_encode by done. cbn [map_err].
  rewrite (proj2 (Z.ltb_ge _ _)) by (rewrite !length_app, !length_be_bytes; lia).
  rewrite take_at_head by done. take_step. rewrite !of_be_be_bytes, Nat2Z.id, <- length_btree_iter by ulia.
  rewrite decode_alloc_ok, app_assoc by (by apply Forall_btree_iter).
  take_step. rewrite !of_be_be_bytes, Nat2Z.id, <- length_btree_iter by ulia.
  rewrite decode_validators_ok, app_assoc by (by apply Forall_btree_iter).
  take_step. rewrite !of_be_be_bytes, Nat2Z.id, <- length_btree_iter by ulia.
  rewrite decode_params_ok, app_assoc by (by apply Forall_btree_iter).
  do 3 take_step.
  match goal with |- context [take_at _ (?pre ++ ?x) (length ?pre) 8] =>
    pose proof (take_at_app CfgCodec pre x [] (length pre) 8 eq_refl (f_equal Z.of_nat (length_be_bytes 8 d))) as E end.
  rewrite app_nil_r in E. rewrite E. clear E. rewrite Nat.eqb_refl. cbn [negb].
  rewrite foldl_insert_validator, foldl_insert_alloc. cbn [g_chain_id g_alloc g_validators Genesis_new].
  rewrite !insert_btree_iter, !of_be_be_bytes by (ulia || done || set_solver). done.
Qed.

Lemma encode_genesis_preimage g : encode_genesis g = encode (genesis_preimage g).
Proof. done. Qed.

Section files.
Context `{!Libp2p} `{!Libp2pLaws}.

Definition peer_entry_fits (e : PeerId * Multiaddr) : Prop :=
  len (peer_to_bytes e.1) ≤ U32_MAX ∧ len (addr_to_string e.2) ≤ U32_MAX.

(** The next piece of a concatenation, in front of the end. *)
Lemma slice_at pre x post i n :
  length pre = i → n = length x → slice i (i + n) (pre ++ x ++ post) = x.
Proof. intros <- ->. by rewrite slice_mid. Qed.

Lemma ltb_app_false (pre x post : bytes) i n :
  length pre = i → n = length x → (length (pre ++ x ++ post) <? i + n)%nat = false.
Proof. intros <- ->. apply Nat.ltb_ge. rewrite !length_app. lia. Qed.

Lemma load_peers_ok es pre acc :
  Forall peer_entry_fits es →
  load_peers (length es) (pre ++ concat (peer_entry <$> es)) (length pre) acc =
    Ok (foldl (λ m e, <[e.1 := e.2]> m) acc es).
Proof.
  intros He. revert pre acc. induction He as [|[k a] es [Hk Ha] He IH]; intros pre acc; [done|].
  cbn [length load_peers]. rewrite fmap_cons. cbn [concat foldl fst snd] in *.
  change (peer_entry (k, a)) with (be_bytes 4 (as_u32 (len (peer_to_bytes k))) ++ peer_to_bytes k ++
    be_bytes 4 (as_u32 (len (addr_to_string a))) ++ addr_to_string a).
  rewrite !as_u32_small by lia. rewrite <- !app_assoc.
  set (kb := peer_to_bytes k) in *. set (ab := addr_to_string a) in *.
  rewrite ltb_app_false, slice_at, of_be_be_bytes, Nat2Z.id by (done || ulia).
  rewrite (app_assoc pre).
  replace (length pre + 4)%nat with (length (pre ++ be_bytes 4 (len kb))) by (by rewrite length_app).
  rewrite ltb_app_false, slice_at by done. subst kb. rewrite peer_roundtrip. cbn [ok_or].
  rewrite (app_assoc (pre ++ _)). rewrite <- length_app.
  rewrite ltb_app_false, slice_at, of_be_be_bytes, Nat2Z.id by (done || ulia).
  rewrite (app_assoc ((pre ++ _) ++ _)).
  match goal with |- context [(length ?q + 4)%nat] => 
    replace (length q + 4)%nat with (length (q ++ be_bytes 4 (len ab))) by (by rewrite length_app) end.
  rewrite ltb_app_false, slice_at by done. subst ab. rewrite addr_roundtrip. cbn [ok_or].
  rewrite app_assoc, <- length_app. apply IH.
Qed.

Lemma load_bootstrap_ok (dir : gmap string bytes) bootstrap :
  dir !! "bootstrap.bin" = Some (encode_bootstrap bootstrap) → Z.of_nat (size bootstrap) ≤ U32_MAX →
  Forall peer_entry_fits (peers_iter bootstrap) → load_bootstrap dir = Ok bootstrap.
Proof.
  intros Ed Hn He. unfold load_bootstrap, encode_bootstrap in *. rewrite Ed. cbn [default from_option id].
  rewrite as_u32_small by lia.
  match goal with |- context [(length ?b <? 4)%nat] => destruct (Nat.ltb_spec (length b) 4) as [Hlt|_] end.
  { rewrite length_app, length_be_bytes in Hlt. lia. }
  rewrite slice_head by done. rewrite of_be_be_bytes, Nat2Z.id by ulia.
  assert (size bootstrap = length (peers_iter bootstrap)) as -> by (by rewrite peers_iter_perm, length_map_to_list).
  pose proof (load_peers_ok (peers_iter bootstrap) (be_bytes 4 (Z.of_nat (length (peers_iter bootstrap)))) ∅ He) as E.
  rewrite length_be_bytes in E. rewrite E. f_equal.
  assert (NoDup (peers_iter bootstrap).*1) as Hnd by (rewrite peers_iter_perm; apply NoDup_fst_map_to_list).
  rewrite foldl_insert, map_union_empty by done.
  rewrite (list_to_map_proper _ (map_to_list bootstrap)); [apply list_to_map_to_list|done|apply peers_iter_perm].
Qed.

Lemma load_keys_ok (es : list (ValidatorId * bytes)) pre acc fuel :
  Forall (λ e, length e.1 = 48%nat ∧ length e.2 = 32%nat) es → (length es < fuel)%nat →
  load_keys fuel (pre ++ concat (key_entry <$> es)) (length pre) acc =
    foldl (λ m e, <[e.1 := e.2]> m) acc es.
Proof.
  intros He. revert pre acc fuel. induction He as [|[k v] es [Hk Hv] He IH]; intros pre acc [|fuel] Hf; try (cbn in Hf; lia).
  { cbn. rewrite app_nil_r. by rewrite (proj2 (Nat.leb_gt _ _)) by lia. }
  cbn [load_keys]. rewrite fmap_cons. cbn [concat foldl fst snd] in *.
  change (key_entry (k, v)) with (k ++ v). rewrite <- !app_assoc.
  rewrite (proj2 (Nat.leb_le _ _)) by (rewrite !length_app; lia).
  rewrite slice_at by done. rewrite (app_assoc pre).
  replace (length pre + 48)%nat with (length (pre ++ k)) by (rewrite length_app; lia).
  replace (length pre + 80)%nat with (length (pre ++ k) + 32)%nat by (rewrite length_app; lia).
  rewrite slice_at by done. rewrite app_assoc. rewrite <- Hv, <- length_app at 1. apply IH. cbn in Hf. lia.
Qed.

Lemma load_keys_file (keys : gmap ValidatorId bytes) :
  map_Forall (λ k v, length k = 48%nat ∧ length v = 32%nat) keys →
  load_keys (length (concat (key_entry <$> btree_iter keys))) (concat (key_entry <$> btree_iter keys)) 0 ∅ = keys.
Proof.
  intros Hk. destruct (decide (keys = ∅)) as [->|Hne]; [by vm_compute|].
  pose proof (load_keys_ok (btree_iter keys) [] ∅ (length (concat (key_entry <$> btree_iter keys)))) as E.
  cbn [app length] in E. rewrite E.
  - apply insert_btree_iter. by rewrite dom_empty_L.
  - apply Forall_btree_iter. intros k v Hkv. exact (Hk k v Hkv).
  - assert (∀ l : list (ValidatorId * bytes), Forall (λ e, length e.1 = 48%nat ∧ length e.2 = 32%nat) l → l ≠ [] →
      (length l < length (concat (key_entry <$> l)))%nat) as Hlen.
    { clear. induction 1 as [|[k v] l [Hk Hv] Hl IH]; [done|]. intros _. rewrite fmap_cons. cbn [concat length].
      rewrite length_app. unfold key_entry at 1. cbn [fst snd] in *. rewrite length_app.
      destruct (decide (l = [])) as [->|Hl']; [cbn; lia|]. specialize (IH Hl'). lia. }
    apply Hlen; [by apply Forall_btree_iter|]. intros En. apply Hne. apply btree_iter_inj. by rewrite En.
Qed.

(** A directory with the five files of a node. *)
Lemma load_dir_files (dir : gmap string bytes) path genesis bootstrap id bls vrf :
  genesis_wf genesis → dom ParamsRegistry_new ⊆ dom (gp_registry (g_params genesis)) →
  len (genesis_preimage genesis) ≤ U32_MAX →
  len (ni_ed25519 id) = 32 → from_ed25519_secret (ni_ed25519 id) = Some id →
  Z.of_nat (size bootstrap) ≤ U32_MAX → Forall peer_entry_fits (peers_iter bootstrap) →
  len bls = 32 → len vrf = 32 →
  dir !! "genesis.bin" = Some (encode_genesis genesis) → dir !! "ed25519" = Some (ni_ed25519 id) →
  dir !! "bls_sk" = Some bls → dir !! "vrf_sk" = Some vrf →
  dir !! "bootstrap.bin" = Some (encode_bootstrap bootstrap) →
  load_dir dir path = Some (Ok (NodeConfig_new genesis bootstrap id path, bls, vrf)).
Proof.
  intros Hg Hd Hl He Hi Hn Hp Hb Hv E1 E2 E3 E4 E5. unfold load_dir.
  rewrite E1, decode_genesis_ok, E2, He by done. cbn [negb Z.eqb Pos.eqb].
  rewrite Hi, E3, Hb. cbn [negb Z.eqb Pos.eqb]. rewrite E4, Hv. cbn [negb Z.eqb Pos.eqb].
  by rewrite (load_bootstrap_ok _ bootstrap).
Qed.

Lemma array_lengths (keys : gmap ValidatorId bytes) :
  map_Forall (λ k v, array 48 k ∧ array 32 v) keys →
  map_Forall (λ k v, length k = 48%nat ∧ length v = 32%nat) keys.
Proof. intros Hk k v Hkv. destruct (Hk k v Hkv) as [[? _] [? _]]. done. Qed.

(** What the files can hold. *)
Definition config_wf (cfg : NodeConfig) : Prop :=
  genesis_wf (nc_genesis cfg) ∧ dom ParamsRegistry_new ⊆ dom (gp_registry (g_params (nc_genesis cfg))) ∧
  len (genesis_preimage (nc_genesis cfg)) ≤ U32_MAX ∧
  len (ni_ed25519 (nc_identity cfg)) = 32 ∧
  from_ed25519_secret (ni_ed25519 (nc_identity cfg)) = Some (nc_identity cfg) ∧
  Z.of_nat (size (nc_bootstrap cfg)) ≤ U32_MAX ∧ Forall peer_entry_fits (peers_iter (nc_bootstrap cfg)).

(** A node's directory: what [write_dir] writes, [load_dir] reads back,
    whatever else the directory holds: the genesis, the identity, the bootstrap
    peers and both keys; only the block time is not stored, and is 1000 ms again.
    The VRF key files are read back as well. *)
Theorem config_dir_roundtrip (dir : gmap string bytes) path cfg bls vrf pks secrets :
  config_wf cfg → len bls = 32 → len vrf = 32 →
  map_Forall (λ k v, array 48 k ∧ array 32 v) pks → map_Forall (λ k v, array 48 k ∧ array 32 v) secrets →
  let dir := write_vrf_secrets (write_vrf_pks (write_dir dir cfg bls vrf) pks) secrets in
  load_dir dir path =
    Some (Ok ({| nc_genesis := nc_genesis cfg; nc_bootstrap := nc_bootstrap cfg; nc_identity := nc_identity cfg;
                 nc_data_dir := path; nc_min_block_time_ms := 1000 |}, bls, vrf)) ∧
  load_vrf_pks dir = pks ∧ load_vrf_secrets dir = secrets.
Proof.
  intros (Hg & Hd & Hl & He & Hi & Hn & Hp) Hb Hv Hpk Hsk. cbv zeta. split; [|split].
  - apply load_dir_files; try done; unfold write_vrf_secrets, write_vrf_pks, write_dir;
      repeat (rewrite lookup_insert_ne by done); by rewrite lookup_insert_eq.
  - unfold load_vrf_pks, write_vrf_secrets, write_vrf_pks. rewrite lookup_insert_ne, lookup_insert_eq by done.
    by apply load_keys_file, array_lengths.
  - unfold load_vrf_secrets, write_vrf_secrets. rewrite lookup_insert_eq. by apply load_keys_file, array_lengths.
Qed.

End files.

(** ** Witness *)

(** A transport whose ids, addresses and keys are their own bytes. *)
Definition toy_libp2p : Libp2p := {|
  PeerId := bytes; Multiaddr := bytes; Keypair := bytes;
  peer_to_bytes p := p; peer_from_bytes := Some; addr_to_string a := a; addr_from_utf8 := Some;
  peers_iter := btree_iter; keypair_from_seed := Some; keypair_peer_id k := k;
|}.

Lemma toy_libp2p_laws : @Libp2pLaws toy_libp2p.
Proof. split; [done|done|]. intros m. apply btree_iter_perm. Qed.

#[local] Existing Instances toy_libp2p toy_libp2p_laws.

Definition toy_config : NodeConfig :=
  {| nc_genesis := insert_validator (Genesis_new 1) (replicate 48 3) 10;
     nc_bootstrap := {[ [1; 2] : PeerId := [47; 9] : Multiaddr ]};
     nc_identity := {| ni_ed25519 := replicate 32 8; ni_keypair := replicate 32 8 : Keypair;
                       ni_peer_id := replicate 32 8 : PeerId |};
     nc_data_dir := "old"; nc_min_block_time_ms := 250 |}.

Lemma config_dir_roundtrip_witness :
  let keys := {[replicate 48 3 := replicate 32 4]} : gmap ValidatorId bytes in
  let dir := write_vrf_secrets (write_vrf_pks (write_dir ∅ toy_config (replicate 32 5) (replicate 32 6)) keys) keys in
  load_vrf_pks dir = keys ∧
  ∃ cfg, load_dir dir "new" = Some (Ok (cfg, replicate 32 5, replicate 32 6)) ∧
    nc_bootstrap cfg = nc_bootstrap toy_config ∧ nc_min_block_time_ms cfg = 1000.
Proof.
  cbv zeta.
  destruct (config_dir_roundtrip ∅ "new" toy_config (replicate 32 5) (replicate 32 6)
    {[replicate 48 3 := replicate 32 4]} {[replicate 48 3 := replicate 32 4]}) as (E1 & E2 & _).
  - split; [by_eval|]. split; [by_eval|]. split; [by_eval|]. split; [by_eval|]. split; [reflexivity|].
    split; [by_eval|]. change (peers_iter _) with [([1; 2], [47; 9])]. constructor; [split; by_eval|constructor].
  - reflexivity.
  - reflexivity.
  - apply map_Forall_singleton. split; by_eval.
  - apply map_Forall_singleton. split; by_eval.
  - split; [exact E2|]. eexists. split; [exact E1|]. split; reflexivity.
Defined.
