(* ===== verification/Eclipse.v ===== *)
(** The defence against eclipse attacks: [network/src/eclipse.rs] and the peer
    scores of [network/src/scoring.rs].

    A node fills its connection slots from discovered peers, at most a few per
    address prefix.  Shown: in every sequence of admissions, removals and
    rotations the counters are the numbers of connected peers and the addresses
    of any [n] prefixes hold at most [n] times the cap of the slots
    ([slot_table_sound]); rotation takes the worst peers first, by score, then
    by the crowding of their bucket ([rotation_worst_first]); scores fit their
    type ([score_bounds]).  The configurable bucket only knows the lengths /0,
    /8, /16 and /24 ([asn_bucket_rounds_down]).  The Kademlia table that
    [admit_discovered] reads and drops is left out. *)

From S2P Require Import Prelude Config.
From stdpp Require Import list.

#[local] Open Scope Z_scope.
#[local] Open Scope l1_scope.

(** ** [scoring.rs] *)

Record PeerStats := { ps_valid_msgs : Z; ps_invalid_msgs : Z; ps_latency_ms : Z }.

(** The conversions to [i32] cannot fail after the [min], and the products do
    not saturate. *)
Definition score (stats : PeerStats) : Z :=
  let valid := Z.min (ps_valid_msgs stats) 1000 in
  let invalid := Z.min (ps_invalid_msgs stats) 1000 in
  let latency_pen := Z.min (ps_latency_ms stats / 50) 40 in
  valid * 3 - invalid * 12 - latency_pen.

Definition stay_in_mesh (stats : PeerStats) : bool := score stats >=? 0.

(** ** [eclipse.rs] *)

Inductive IpAddr : Type := V4Addr (octets : bytes) | V6Addr (octets : bytes).

Inductive IpPrefix : Type := V4 (o : bytes) | V6 (o : bytes).

#[export] Instance IpPrefix_eq_dec : EqDecision IpPrefix.
Proof. solve_decision. Defined.

#[export] Instance IpPrefix_countable : Countable IpPrefix.
Proof.
  apply (inj_countable' (λ p, match p with V4 o => inl o | V6 o => inr o end)
    (λ x, match x with inl o => V4 o | inr o => V6 o end)). by intros [].
Defined.

Definition prefix_of (ip : IpAddr) : IpPrefix :=
  match ip with V4Addr o => V4 (take 3 o) | V6Addr o => V6 (take 6 o) end.

Definition DEFAULT_MAX_PER_PREFIX : nat := 2.
Definition DEFAULT_MAX_SLOTS : nat := 16.

Record IpSlotTable := {
  ip_max_per_prefix : nat;
  ip_max_slots : nat;
  ip_by_prefix : gmap IpPrefix nat;
  ip_peers : gmap bytes IpPrefix;
}.

Definition IpSlotTable_new (max_per_prefix max_slots : nat) : IpSlotTable :=
  {| ip_max_per_prefix := max_per_prefix; ip_max_slots := max_slots; ip_by_prefix := ∅; ip_peers := ∅ |}.

Definition default_caps : IpSlotTable := IpSlotTable_new DEFAULT_MAX_PER_PREFIX DEFAULT_MAX_SLOTS.

Definition set_slots (by_prefix : gmap IpPrefix nat) (peers : gmap bytes IpPrefix) (t : IpSlotTable) : IpSlotTable :=
  {| ip_max_per_prefix := ip_max_per_prefix t; ip_max_slots := ip_max_slots t;
     ip_by_prefix := by_prefix; ip_peers := peers |}.

Definition count_prefix (t : IpSlotTable) (pfx : IpPrefix) : nat := default 0%nat (ip_by_prefix t !! pfx).

Definition peer_keys (t : IpSlotTable) : list bytes := btree_keys (ip_peers t).

Definition prefix_of_peer (t : IpSlotTable) (peer_bytes : bytes) : option IpPrefix := ip_peers t !! peer_bytes.

(** [0xffu8 << (8 - rem)]. *)
Definition asn_mask (rem : Z) : Z := Z.shiftl 255 (8 - rem) mod 256.

Definition asn_bucket (ip : IpAddr) (v4_prefix_len : Z) : IpPrefix :=
  match ip with
  | V4Addr octets =>
      let len := Z.min v4_prefix_len 32 in
      let full := Z.to_nat (len / 8) in
      let rem := len mod 8 in
      let o := take full octets ++ replicate (length octets - full) 0 in
      let o := if negb (rem =? 0) && (full <? 4)%nat then alter (λ b, Z.land b (asn_mask rem)) full o else o in
      V4 (take 3 o)
  | V6Addr _ => prefix_of ip
  end.

Section table.
Context `{!Libp2p}.

Definition slot_admit (t : IpSlotTable) (peer : PeerId) (ip : IpAddr) : IpSlotTable * bool :=
  let key := peer_to_bytes peer in
  if bool_decide (is_Some (ip_peers t !! key)) then (t, true)
  else if (ip_max_slots t <=? size (ip_peers t))%nat then (t, false)
  else
    let pfx := prefix_of ip in
    let n := default 0%nat (ip_by_prefix t !! pfx) in
    if (ip_max_per_prefix t <=? n)%nat then (t, false)
    else (set_slots (<[pfx := S n]> (ip_by_prefix t)) (<[key := pfx]> (ip_peers t)) t, true).

Definition slot_remove (t : IpSlotTable) (peer : PeerId) : IpSlotTable * bool :=
  let key := peer_to_bytes peer in
  match ip_peers t !! key with
  | None => (t, false)
  | Some pfx =>
      let by_prefix :=
        match ip_by_prefix t !! pfx with
        | Some n => if (n <=? 1)%nat then delete pfx (ip_by_prefix t) else <[pfx := (n - 1)%nat]> (ip_by_prefix t)
        | None => ip_by_prefix t
        end in
      (set_slots by_prefix (delete key (ip_peers t)) t, true)
  end.

Definition contains (t : IpSlotTable) (peer : PeerId) : bool :=
  bool_decide (is_Some (ip_peers t !! peer_to_bytes peer)).

(** The first loop of [rotate_peers]: the crowding of the buckets. *)
Definition bucket_counts (t : IpSlotTable) (peers : list (PeerId * IpAddr)) (cap : Z) : gmap IpPrefix nat :=
  foldl (λ m e, if contains t e.1
                then let b := asn_bucket e.2 cap in <[b := S (default 0%nat (m !! b))]> m
                else m) ∅ peers.

Record Row := { rw_score : Z; rw_occ : nat; rw_key : bytes; rw_peer : PeerId }.

Definition row_of (bucket_n : gmap IpPrefix nat) (stats : gmap bytes PeerStats) (cap : Z) (e : PeerId * IpAddr) : Row :=
  let key := peer_to_bytes e.1 in
  {| rw_score := default 0 (score <$> stats !! key);
     rw_occ := default 0%nat (bucket_n !! asn_bucket e.2 cap);
     rw_key := key; rw_peer := e.1 |}.

(** The order of eviction: low score, then crowded bucket, then key. *)
Definition row_key (r : Row) : Z * (Z * bytes) := (rw_score r, (- Z.of_nat (rw_occ r), rw_key r)).

Definition rotation_rows (t : IpSlotTable) (peers : list (PeerId * IpAddr)) (stats : gmap bytes PeerStats) (cap : Z) :
    list Row :=
  sort_by_key row_key (row_of (bucket_counts t peers cap) stats cap <$> List.filter (λ e, contains t e.1) peers).

Definition rotate_peers (t : IpSlotTable) (peers : list (PeerId * IpAddr)) (stats : gmap bytes PeerStats) (cap : Z)
    (evict_count : nat) : IpSlotTable * list PeerId :=
  let evicted := rw_peer <$> take evict_count (rotation_rows t peers stats cap) in
  (foldl (λ t p, (slot_remove t p).1) t evicted, evicted).

(** ** The counters *)

(** The connected peers of a prefix. *)
Definition connected (t : IpSlotTable) (P : IpPrefix → Prop) `{∀ p, Decision (P p)} : gmap bytes IpPrefix :=
  filter (λ kv, P kv.2) (ip_peers t).

Record slots_ok (t : IpSlotTable) : Prop := {
  so_count pfx : count_prefix t pfx = size (connected t (λ p, p = pfx));
  so_cap pfx : (count_prefix t pfx ≤ ip_max_per_prefix t)%nat;
  so_slots : (size (ip_peers t) ≤ ip_max_slots t)%nat;
}.

Lemma connected_insert t k pfx q :
  ip_peers t !! k = None →
  size (filter (λ kv, kv.2 = q) (<[k := pfx]> (ip_peers t))) =
    ((if decide (pfx = q) then 1 else 0) + size (connected t (λ p, p = q)))%nat.
Proof.
  intros Hk. unfold connected. destruct (decide (pfx = q)) as [->|Hne].
  - rewrite map_filter_insert_True by done. rewrite map_size_insert_None; [done|].
    by rewrite map_lookup_filter, Hk.
  - rewrite map_filter_insert_False by done. by rewrite delete_id.
Qed.

Lemma connected_delete t k pfx q :
  ip_peers t !! k = Some pfx →
  size (connected t (λ p, p = q)) =
    ((if decide (pfx = q) then 1 else 0) + size (filter (λ kv, kv.2 = q) (delete k (ip_peers t))))%nat.
Proof.
  intros Hk. pose proof (connected_insert (set_slots ∅ (delete k (ip_peers t)) t) k pfx q) as E.
  unfold connected in *. cbn in E. rewrite insert_delete_id in E by done. apply E, lookup_delete_eq.
Qed.

Lemma new_ok mp ms : slots_ok (IpSlotTable_new mp ms).
Proof.
  assert (∀ pfx, count_prefix (IpSlotTable_new mp ms) pfx = 0%nat) as E by done.
  split; [|intros; rewrite E; lia|cbn; rewrite map_size_empty; lia].
  intros pfx. unfold connected. cbn. by rewrite E, map_filter_empty, map_size_empty.
Qed.

Lemma admit_ok t peer ip : slots_ok t → slots_ok (slot_admit t peer ip).1.
Proof.
  intros [Hc Hcap Hs]. unfold slot_admit. case_bool_decide as Hk; [done|]. apply eq_None_not_Some in Hk.
  destruct (ip_max_slots t <=? _)%nat eqn:E1; [done|]. apply Nat.leb_gt in E1.
  destruct (ip_max_per_prefix t <=? _)%nat eqn:E2; [done|]. apply Nat.leb_gt in E2. cbn [fst].
  split; unfold count_prefix, connected; cbn.
  - intros pfx. rewrite connected_insert by done. destruct (decide (prefix_of ip = pfx)) as [<-|Hne].
    + rewrite lookup_insert_eq. cbn. by rewrite <- (Hc (prefix_of ip)).
    + rewrite lookup_insert_ne by done. apply Hc.
  - intros pfx. destruct (decide (prefix_of ip = pfx)) as [<-|Hne].
    + rewrite lookup_insert_eq. cbn. lia.
    + rewrite lookup_insert_ne by done. apply Hcap.
  - rewrite map_size_insert_None by done. lia.
Qed.

Lemma remove_ok t peer : slots_ok t → slots_ok (slot_remove t peer).1.
Proof.
  intros [Hc Hcap Hs]. unfold slot_remove. destruct (ip_peers t !! peer_to_bytes peer) as [pfx|] eqn:Ek; [|done]. cbn [fst].
  pose proof (connected_delete t _ _ pfx Ek) as Hd. rewrite decide_True, <- Hc in Hd by done.
  unfold count_prefix in Hd. destruct (ip_by_prefix t !! pfx) as [n|] eqn:En; [|done]. cbn in Hd.
  assert (∀ q, default 0%nat ((if (n <=? 1)%nat then delete pfx (ip_by_prefix t)
    else <[pfx := (n - 1)%nat]> (ip_by_prefix t)) !! q) =
      if decide (pfx = q) then (n - 1)%nat else count_prefix t q) as Hlook.
  { intros q. destruct (decide (pfx = q)) as [<-|Hne].
    - destruct (n <=? 1)%nat eqn:El; [apply Nat.leb_le in El; rewrite lookup_delete_eq; cbn; lia|].
      by rewrite lookup_insert_eq.
    - destruct (n <=? 1)%nat; [by rewrite lookup_delete_ne|by rewrite lookup_insert_ne]. }
  split; unfold connected; cbn.
  - intros q. unfold count_prefix at 1. cbn. rewrite Hlook. pose proof (connected_delete t _ _ q Ek) as Hq.
    destruct (decide (pfx = q)) as [<-|Hne]; [lia|]. rewrite Hc. lia.
  - intros q. unfold count_prefix. cbn. rewrite Hlook. pose proof (Hcap q). pose proof (Hcap pfx) as Hp.
    unfold count_prefix in Hp. rewrite En in Hp. cbn in Hp. destruct (decide _); lia.
  - rewrite map_size_delete_Some by (by eexists). lia.
Qed.

Lemma remove_all_ok t l : slots_ok t → slots_ok (foldl (λ t p, (slot_remove t p).1) t l).
Proof. revert t. induction l as [|p l IH]; intros t Ht; cbn; [done|]. by apply IH, remove_ok. Qed.

(** ** Runs of the table *)

Inductive SlotOp : Type :=
| OpAdmit (peer : PeerId) (ip : IpAddr)
| OpRemove (peer : PeerId)
| OpRotate (peers : list (PeerId * IpAddr)) (stats : gmap bytes PeerStats) (cap : Z) (evict_count : nat).

Definition slot_step (t : IpSlotTable) (op : SlotOp) : IpSlotTable :=
  match op with
  | OpAdmit peer ip => (slot_admit t peer ip).1
  | OpRemove peer => (slot_remove t peer).1
  | OpRotate peers stats cap n => (rotate_peers t peers stats cap n).1
  end.

Lemma slot_step_ok t op : slots_ok t → slots_ok (slot_step t op).
Proof. destruct op; cbn; [apply admit_ok|apply remove_ok|apply remove_all_ok]. Qed.

Lemma remove_caps t p :
  ip_max_per_prefix (slot_remove t p).1 = ip_max_per_prefix t ∧ ip_max_slots (slot_remove t p).1 = ip_max_slots t.
Proof. unfold slot_remove. by destruct (ip_peers t !! _). Qed.

Lemma slot_step_caps t op :
  ip_max_per_prefix (slot_step t op) = ip_max_per_prefix t ∧ ip_max_slots (slot_step t op) = ip_max_slots t.
Proof.
  destruct op as [peer ip|peer|peers stats cap n]; cbn.
  - unfold slot_admit. by repeat case_match.
  - apply remove_caps.
  - generalize (rw_peer <$> take n (rotation_rows t peers stats cap)). intros l. revert t.
    induction l as [|p l IH]; intros t; cbn; [done|]. destruct (IH (slot_remove t p).1) as [-> ->]. apply remove_caps.
Qed.

Lemma slot_run_ok ops mp ms :
  let t := foldl slot_step (IpSlotTable_new mp ms) ops in
  slots_ok t ∧ ip_max_per_prefix t = mp ∧ ip_max_slots t = ms.
Proof.
  cbv zeta. induction ops as [|op ops IH] using rev_ind; [by split; [apply new_ok|]|].
  rewrite foldl_app. cbn. destruct IH as (Ht & Hm & Hs). destruct (slot_step_caps
    (foldl slot_step (IpSlotTable_new mp ms) ops) op) as [-> ->]. split; [by apply slot_step_ok|done].
Qed.

(** The peers in any set of prefixes, by induction on the set. *)
Lemma connected_set t (X : gset IpPrefix) :
  slots_ok t → (size (connected t (λ p, p ∈ X)) ≤ ip_max_per_prefix t * size X)%nat.
Proof.
  intros [Hc Hcap _]. induction X as [|x X Hx IH] using set_ind_L.
  - replace (size (connected _ _)) with 0%nat; [lia|]. symmetry. apply map_size_empty_iff, map_empty.
    intros k. apply eq_None_not_Some. intros [p Hp]. unfold connected in Hp.
    apply map_lookup_filter_Some in Hp as [_ Hp]. cbn in Hp. set_solver.
  - rewrite size_union, size_singleton by set_solver.
    assert (connected t (λ p, p = x) ##ₘ connected t (λ p, p ∈ X)) as Hd.
    { apply map_disjoint_spec. intros j a b. unfold connected. rewrite !map_lookup_filter_Some. cbn. naive_solver. }
    replace (connected t (λ p, p ∈ {[x]} ∪ X)) with (connected t (λ p, p = x) ∪ connected t (λ p, p ∈ X)).
    + rewrite map_size_disj_union by done. pose proof (Hc x). pose proof (Hcap x). lia.
    + apply map_eq. intros k. apply option_eq. intros p. rewrite lookup_union_Some by done. unfold connected.
      rewrite !map_lookup_filter_Some. cbn. set_solver.
Qed.

(** C35: The slots are bounded and diverse: in every sequence of admissions, removals
    and rotations from an empty table, the counter of each prefix is the number
    of connected peers with it and at most the cap, at most [ms] peers are
    connected, and the peers whose addresses lie in any [n] prefixes, however
    many identities they have, hold at most [n] times the cap of the slots. *)
Theorem slot_table_sound ops mp ms :
  let t := foldl slot_step (IpSlotTable_new mp ms) ops in
  (size (ip_peers t) ≤ ms)%nat ∧
  (∀ pfx, count_prefix t pfx = size (connected t (λ p, p = pfx)) ∧ (count_prefix t pfx ≤ mp)%nat) ∧
  ∀ X : gset IpPrefix, (size (connected t (λ p, p ∈ X)) ≤ mp * size X)%nat.
Proof.
  cbv zeta. destruct (slot_run_ok ops mp ms) as (Ht & Em & Es). pose proof Ht as [Hc Hcap Hs].
  rewrite Es in Hs. split; [exact Hs|]. split.
  - intros pfx. split; [apply Hc|]. specialize (Hcap pfx). by rewrite Em in Hcap.
  - intros X. pose proof (connected_set _ X Ht) as Hx. by rewrite Em in Hx.
Qed.

(** ** Rotation *)

Context `{!Libp2pLaws}.

Lemma peer_to_bytes_inj p q : peer_to_bytes p = peer_to_bytes q → p = q.
Proof. intros E. pose proof (peer_roundtrip p) as Hp. rewrite E, peer_roundtrip in Hp. by injection Hp. Qed.

Lemma remove_peers t p : ip_peers (slot_remove t p).1 = delete (peer_to_bytes p) (ip_peers t).
Proof. unfold slot_remove. destruct (ip_peers t !! _) eqn:E; [done|]. by rewrite delete_id. Qed.

Lemma remove_all_contains t l q :
  contains (foldl (λ t p, (slot_remove t p).1) t l) q = contains t q && bool_decide (q ∉ l).
Proof.
  revert t. induction l as [|p l IH]; intros t; cbn [foldl].
  - by rewrite bool_decide_true, andb_true_r by set_solver.
  - rewrite IH. unfold contains at 1. rewrite remove_peers. destruct (decide (p = q)) as [->|Hne].
    + rewrite lookup_delete_eq, bool_decide_false by (by intros []). rewrite (bool_decide_false (q ∉ q :: l)) by set_solver.
      by rewrite andb_false_r.
    + rewrite lookup_delete_ne by (intros E; by apply Hne, peer_to_bytes_inj).
      change (bool_decide (is_Some (ip_peers t !! peer_to_bytes q))) with (contains t q). f_equal.
      apply bool_decide_ext. set_solver.
Qed.

Lemma elem_of_present t (peers : list (PeerId * IpAddr)) e : e ∈ List.filter (λ e, contains t e.1) peers ↔ e ∈ peers ∧ contains t e.1 = true.
Proof. by rewrite !list_elem_of_In, filter_In. Qed.

Lemma present_NoDup t (peers : list (PeerId * IpAddr)) :
  NoDup peers.*1 → NoDup (List.filter (λ e, contains t e.1) peers).*1.
Proof.
  induction peers as [|e l IH]; cbn; [done|]. intros [Hn Hl]%NoDup_cons. destruct (contains t e.1); [|by apply IH].
  cbn. apply NoDup_cons. split; [|by apply IH]. intros (f & Ef & Hf)%list_elem_of_fmap.
  apply elem_of_present in Hf as [Hf _]. apply Hn, list_elem_of_fmap. by exists f.
Qed.

Lemma listed_once (peers : list (PeerId * IpAddr)) e f :
  NoDup peers.*1 → e ∈ peers → f ∈ peers → e.1 = f.1 → e = f.
Proof.
  intros Hn (i & Hi)%list_elem_of_lookup (j & Hj)%list_elem_of_lookup E.
  assert (i = j) as ->; [|congruence].
  eapply NoDup_lookup; [exact Hn|..]; rewrite list_lookup_fmap; [by rewrite Hi|rewrite Hj; cbn; by rewrite E].
Qed.

Section rows.
Context (t : IpSlotTable) (peers : list (PeerId * IpAddr)) (stats : gmap bytes PeerStats) (cap : Z).
Let rows := rotation_rows t peers stats cap.
Let mk := row_of (bucket_counts t peers cap) stats cap.

Lemma elem_of_rows r : r ∈ rows ↔ ∃ e, r = mk e ∧ e ∈ peers ∧ contains t e.1 = true.
Proof.
  unfold rows, rotation_rows. rewrite sort_by_key_perm, list_elem_of_fmap. by setoid_rewrite elem_of_present.
Qed.

Lemma rows_peers : rw_peer <$> rows ≡ₚ (List.filter (λ e, contains t e.1) peers).*1.
Proof. unfold rows, rotation_rows. rewrite sort_by_key_perm, <- list_fmap_compose. by apply Permutation_refl'. Qed.

Lemma worst_first n e f :
  NoDup peers.*1 → e ∈ peers → f ∈ peers → e.1 ∈ rw_peer <$> take n rows →
  contains t f.1 = true → f.1 ∉ rw_peer <$> take n rows → by_key row_key (mk e) (mk f).
Proof.
  intros Hnd He Hf (r & Er & Hr)%list_elem_of_fmap Hct Hnf.
  pose proof (sort_by_key_sorted row_key (mk <$> List.filter (λ e, contains t e.1) peers)) as Hs.
  change (sort_by_key _ _) with rows in Hs. rewrite <- (take_drop n rows) in Hs.
  apply (StronglySorted_app_1_elem_of _ _ _ _ _ Hs).
  - assert (r ∈ rows) as Hin by (rewrite <- (take_drop n rows), elem_of_app; by left).
    apply elem_of_rows in Hin as (e' & -> & He' & _). cbn in Er. by rewrite (listed_once peers e e').
  - assert (mk f ∈ rows) as Hin by (apply elem_of_rows; by exists f).
    rewrite <- (take_drop n rows), elem_of_app in Hin. destruct Hin as [Hin|Hin]; [|done].
    exfalso. apply Hnf, list_elem_of_fmap. by exists (mk f).
Qed.

End rows.

(** Rotation takes the worst peers first.  When each peer is listed once, as
    many of the listed peers that are connected as asked for lose their slot,
    and nobody else; and each of them comes before each listed peer that stays,
    in the order of low score, then crowded bucket, then key. *)
Theorem rotation_worst_first t peers stats cap n :
  NoDup peers.*1 →
  let counts := bucket_counts t peers cap in
  let '(t', evicted) := rotate_peers t peers stats cap n in
  NoDup evicted ∧ length evicted = Nat.min n (length (List.filter (λ e, contains t e.1) peers)) ∧
  (∀ p, p ∈ evicted → p ∈ peers.*1 ∧ contains t p = true) ∧
  (∀ q, contains t' q = contains t q && bool_decide (q ∉ evicted)) ∧
  ∀ e f, e ∈ peers → f ∈ peers → e.1 ∈ evicted → contains t' f.1 = true →
    key_le (row_key (row_of counts stats cap e)) (row_key (row_of counts stats cap f)) = true.
Proof.
  intros Hnd. cbv zeta. unfold rotate_peers. set (rows := rotation_rows t peers stats cap).
  pose proof (rows_peers t peers stats cap) as Hp. fold rows in Hp.
  split; [|split; [|split; [|split]]].
  - rewrite fmap_take. pose proof (present_NoDup t peers Hnd) as Hn. rewrite <- Hp in Hn.
    rewrite <- (take_drop n) in Hn. by apply NoDup_app in Hn as [Hn _].
  - rewrite length_fmap, length_take. f_equal. by rewrite <- (length_fmap rw_peer), Hp, length_fmap.
  - intros p (r & -> & Hr)%list_elem_of_fmap.
    assert (r ∈ rows) as Hin by (rewrite <- (take_drop n rows), elem_of_app; by left).
    apply elem_of_rows in Hin as (e & -> & He & Hct). split; [|done]. apply list_elem_of_fmap. by exists e.
  - intros q. apply remove_all_contains.
  - intros e f He Hf Hev Hst. rewrite remove_all_contains in Hst. apply andb_prop in Hst as [Hct Hnf].
    apply bool_decide_eq_true in Hnf. by eapply worst_first.
Qed.

End table.

(** ** Scores and buckets *)

(** A score is at most 3000 and at least -12040, so it fits an [i32] and is
    negative as soon as there are more than a fourth as many invalid messages as
    valid ones, up to the cap. *)
Lemma score_bounds st :
  0 ≤ ps_valid_msgs st → 0 ≤ ps_invalid_msgs st → 0 ≤ ps_latency_ms st →
  -12040 ≤ score st ≤ 3000 ∧
  (ps_valid_msgs st < 4 * ps_invalid_msgs st → ps_invalid_msgs st ≤ 1000 → stay_in_mesh st = false).
Proof.
  intros Hv Hi Hl. unfold stay_in_mesh, score. assert (0 ≤ ps_latency_ms st / 50) by (apply Z.div_pos; lia).
  split; [lia|]. intros. apply not_true_iff_false. rewrite Z.geb_le. lia.
Qed.

(** The octet that a prefix length cuts is cleared before it is masked, so a
    length is rounded down to whole octets, and the fourth octet is dropped: of
    the lengths a bucket can be configured with, only 0, 8, 16 and 24 differ.
    /23 groups like /16. *)
Lemma asn_bucket_rounds_down a b c d len :
  0 ≤ len < 256 →
  asn_bucket (V4Addr [a; b; c; d]) len =
    V4 (take (Nat.min 3 (Z.to_nat (len / 8))) [a; b; c] ++ replicate (3 - Z.to_nat (len / 8)) 0).
Proof.
  intros Hl. unfold asn_bucket. set (l := Z.min len 32).
  assert (Z.to_nat (l / 8) = Nat.min 4 (Z.to_nat (len / 8))) as ->.
  { unfold l. destruct (Z.min_spec len 32) as [[H1 ->]|[H1 ->]]; [|change (32 / 8) with 4].
    - assert (len / 8 ≤ 3) by (apply Z.lt_succ_r, Z.div_lt_upper_bound; lia). lia.
    - assert (4 ≤ len / 8) by (apply Z.div_le_lower_bound; lia). lia. }
  generalize (Z.to_nat (len / 8)) as n. intros n. generalize (l mod 8) as rem. intros rem.
  destruct n as [|[|[|[|n]]]]; cbn; destruct (rem =? 0); cbn; done.
Qed.
