(* ===== verification/Crypto.v ===== *)
(** The `crypto` crate: what it computes itself (domain tags, signing
    messages, address derivation) and the interface to the primitives it
    calls (BLAKE3, Ed25519, BLS12-381), which are third-party code.

    [Crypto] lists the primitives; [CryptoLaws] what the development relies
    on: a BLAKE3 digest is 32 bytes.  Nothing assumes that BLAKE3 has no
    collisions: theorems that need it exhibit the collision instead. *)

From S2P Require Import Prelude Types Codec.
From Stdlib Require Import String.
From stdpp Require Import list.

#[local] Open Scope Z_scope.
#[local] Open Scope l1_scope.

(** Byte-string literals of the source ([b"tx"], ...). *)
Definition ascii_bytes (s : string) : bytes :=
  Z.of_N ∘ Ascii.N_of_ascii <$> list_ascii_of_string s.

Class Crypto := {
  (** [blake3::hash]. *)
  blake3 : bytes → bytes;
  (** [VerifyingKey::from_bytes] succeeds. *)
  ed25519_pk_valid : bytes → bool;
  (** [pk.verify(msg, sig)] succeeds. *)
  ed25519_verify : bytes → bytes → bytes → bool;
  (** [PublicKey::from_bytes] (BLS) succeeds. *)
  bls_pk_valid : bytes → bool;
  (** [Signature::from_bytes] (BLS) succeeds. *)
  bls_sig_valid : bytes → bool;
  (** [sig.verify(true, msg, DST, &[], pk, true)] with key, message, signature. *)
  bls_verify : bytes → bytes → bytes → bool;
  (** [AggregateSignature]: fold of [add_signature]; [None] on error. *)
  bls_aggregate_sigs : list bytes → option bytes;
  (** [AggregatePublicKey]: fold of [add_public_key]; [None] on error. *)
  bls_aggregate_pks : list bytes → option bytes;
}.

Class CryptoLaws `{Crypto} := {
  blake3_array : ∀ m, array 32 (blake3 m);
}.

(** ** [domain.rs] *)

Inductive DomainTag : Type :=
| DTx | DHeader | DVote | DVrf | DMptNode | DMerkle.

#[export] Instance DomainTag_eq_dec : EqDecision DomainTag.
Proof. solve_decision. Defined.

Definition label (t : DomainTag) : bytes :=
  match t with
  | DTx => ascii_bytes "tx"%string
  | DHeader => ascii_bytes "header"%string
  | DVote => ascii_bytes "vote"%string
  | DVrf => ascii_bytes "vrf"%string
  | DMptNode => ascii_bytes "mpt-node"%string
  | DMerkle => ascii_bytes "merkle"%string
  end.

Definition apply_domain (t : DomainTag) (msg : bytes) : bytes :=
  ascii_bytes "L1/"%string ++ label t ++ [0] ++ msg.

(** [types::hashing::domain_wrap]: the copy the `types` crate uses. *)
Definition domain_wrap (lbl msg : bytes) : bytes :=
  ascii_bytes "L1/"%string ++ lbl ++ [0] ++ msg.

Lemma apply_domain_cons t msg :
  apply_domain t msg = ascii_bytes "L1/"%string ++ label t ++ 0 :: msg.
Proof. done. Qed.

Lemma apply_domain_same t m1 m2 : apply_domain t m1 = apply_domain t m2 → m1 = m2.
Proof. unfold apply_domain. intros E. by do 3 apply app_inv_head in E. Qed.

(** Domain separation: a tagged message determines both the tag and the
    message, so no two domains ever hash or sign the same byte string. *)
Theorem apply_domain_inj t1 t2 m1 m2 :
  apply_domain t1 m1 = apply_domain t2 m2 → t1 = t2 ∧ m1 = m2.
Proof.
  unfold apply_domain. intros E%app_inv_head.
  destruct t1, t2; vm_compute in E; simplify_eq E; auto.
Qed.

Lemma apply_domain_inj_witness :
  apply_domain DVote [1; 2] = apply_domain DVote [1; 2] ∧ DVote = DVote ∧ [1; 2] = [1; 2].
Proof.
  split; [reflexivity|]. apply (apply_domain_inj DVote DVote [1; 2] [1; 2]). reflexivity.
Defined.

Section crypto.
Context `{Crypto}.

(** ** [hash/blake3.rs], [address.rs], [tx.rs] *)

Definition hash_to_array (data : bytes) : bytes := blake3 data.

Definition from_ed25519 (pk : bytes) : Address := hash_to_array pk.

(** [public_key_from_bytes]. *)
Definition public_key_from_bytes (b : bytes) : option bytes :=
  if ed25519_pk_valid b then Some b else None.

(** [None] is the panic of [Tx::encode] on a stake without target. *)
Definition tx_signed_message (t : Tx) : option bytes :=
  apply_domain DTx <$> tx_encode t.

(** [verify_ed25519(signed).is_ok()]. *)
Definition verify_ed25519 (s : SignedTx) : option bool :=
  match public_key_from_bytes (st_public_key s) with
  | None => Some false
  | Some pk =>
      match tx_signed_message (st_tx s) with
      | None => None
      | Some msg => Some (ed25519_verify pk msg (st_signature s))
      end
  end.

(** ** [sig/bls.rs] *)

Definition bls_aggregate (sigs : list bytes) : option bytes :=
  match sigs with [] => None | _ => bls_aggregate_sigs sigs end.

(** [None] is the index panic of [pks[0]]. *)
Definition verify_fast_aggregate (agg : bytes) (pks : list bytes) (msg : bytes) :
    option bool :=
  match pks with
  | [] => None
  | _ =>
      match bls_aggregate_pks pks with
      | None => Some false
      | Some pk => Some (bls_verify pk msg agg)
      end
  end.

(** ** [types/src/header.rs], [types/src/genesis.rs]: hashes *)

Definition header_hash (h : Header) : Hash :=
  blake3 (domain_wrap (ascii_bytes "header"%string) (hash_preimage h)).

Definition genesis_hash (g : Genesis) : Hash := blake3 (genesis_preimage g).

Lemma domain_wrap_label t msg : domain_wrap (label t) msg = apply_domain t msg.
Proof. done. Qed.

End crypto.

(** A toy instance for executable witnesses: a polynomial hash modulo
    [2^256], signatures that accept one value.  It is not a cryptographic
    hash; it satisfies [CryptoLaws]. *)
Definition toy_hash (m : bytes) : bytes :=
  let mask := Z.ones 256 in
  be_bytes 32 (foldl (λ acc b, Z.land (acc * 257 + b + 1) mask) 7 m).

Definition toy_crypto : Crypto := {|
  blake3 := toy_hash;
  ed25519_pk_valid _ := true;
  ed25519_verify _ _ sig := bool_decide (sig = [1]);
  bls_pk_valid _ := true;
  bls_sig_valid _ := true;
  bls_verify _ _ sig := bool_decide (sig = [1]);
  bls_aggregate_sigs _ := Some [1];
  bls_aggregate_pks _ := Some [2];
|}.

Lemma toy_crypto_laws : @CryptoLaws toy_crypto.
Proof. split. intros m. split; [apply length_be_bytes|apply be_bytes_ok]. Qed.
