(* ===== verification/Vrf.v ===== *)
(** The verifiable random function: [crypto/src/vrf.rs].

    The curve, its scalars and SHA-512 are the third-party crates
    curve25519-dalek and sha2: [Curve] lists the operations the code calls
    and [CurveLaws] what their documentation promises (scalars are integers
    modulo the group order, points are a module over the integers, encoding
    then decoding a point returns it).  Everything else, from the clamping of
    the secret key to the challenge, is translated.

    Shown: a proof made by [prove] is accepted by [verify] for the public key
    of the same seed, with the same output ([vrf_complete]). *)

From S2P Require Import Prelude Types.

#[local] Open Scope Z_scope.
#[local] Open Scope l1_scope.

(** ** Little-endian bytes *)

Definition le_bytes (n : nat) (z : Z) : bytes := rev (be_bytes n z).
Definition of_le (l : bytes) : Z := of_be (rev l).

(** [ℓ], the order of the prime-order subgroup. *)
Definition GROUP_ORDER : Z := 2 ^ 252 + 27742317777372353535851937790883648493.

Class Curve := {
  scalar : Type;
  point : Type;
  (** [Scalar::from_bytes_mod_order], [from_bytes_mod_order_wide]. *)
  sc_mod_order : bytes → scalar;
  sc_mod_order_wide : bytes → scalar;
  (** [Scalar::from_canonical_bytes], [Scalar::to_bytes]. *)
  sc_canonical : bytes → option scalar;
  sc_to_bytes : scalar → bytes;
  sc_add : scalar → scalar → scalar;
  sc_mul : scalar → scalar → scalar;
  sc_eqb : scalar → scalar → bool;
  (** [EdwardsPoint * Scalar], [-], [is_identity], [mul_by_cofactor]. *)
  pt_mul : point → scalar → point;
  pt_sub : point → point → point;
  pt_is_identity : point → bool;
  pt_mul_by_cofactor : point → point;
  BASEPOINT : point;
  (** [compress().to_bytes()], [CompressedEdwardsY::decompress]. *)
  encode_point : point → bytes;
  decode_point : bytes → option point;
  (** [Sha512]. *)
  sha512 : bytes → bytes;
}.

(** [sc_val] reads a scalar as an integer and [zmul] multiplies a point by
    one; both are only part of the statement of the laws. *)
Class CurveLaws `{Curve} := {
  sc_val : scalar → Z;
  zmul : Z → point → point;
  sc_val_range : ∀ a, 0 ≤ sc_val a < GROUP_ORDER;
  sc_mod_order_val : ∀ b, sc_val (sc_mod_order b) = of_le b mod GROUP_ORDER;
  sc_canonical_to_bytes : ∀ a, ∃ a', sc_canonical (sc_to_bytes a) = Some a' ∧ sc_val a' = sc_val a;
  sc_to_bytes_le : ∀ a, sc_to_bytes a = le_bytes 32 (sc_val a);
  sc_add_val : ∀ a b, sc_val (sc_add a b) = (sc_val a + sc_val b) mod GROUP_ORDER;
  sc_mul_val : ∀ a b, sc_val (sc_mul a b) = (sc_val a * sc_val b) mod GROUP_ORDER;
  sc_eqb_val : ∀ a b, sc_eqb a b = true ↔ sc_val a = sc_val b;
  pt_mul_zmul : ∀ p a, pt_mul p a = zmul (sc_val a) p;
  zmul_zmul : ∀ a b p, zmul a (zmul b p) = zmul (a * b) p;
  zmul_sub : ∀ a b p, pt_sub (zmul a p) (zmul b p) = zmul (a - b) p;
  (** The order of the base point, and of what the cofactor clears. *)
  zmul_base_mod : ∀ a, zmul (a mod GROUP_ORDER) BASEPOINT = zmul a BASEPOINT;
  zmul_cofactor_mod : ∀ a p,
    zmul (a mod GROUP_ORDER) (pt_mul_by_cofactor p) = zmul a (pt_mul_by_cofactor p);
  zmul_base_identity : ∀ a, pt_is_identity (zmul a BASEPOINT) = true → a mod GROUP_ORDER = 0;
  decode_encode_point : ∀ p, decode_point (encode_point p) = Some p;
  length_encode_point : ∀ p, length (encode_point p) = 32%nat;
  sha512_array : ∀ m, array 64 (sha512 m);
}.

(** ** The code *)

Definition SUITE : Z := 3.
Definition C_LEN : nat := 16.
Definition PROOF_LEN : nat := 80.

Inductive VrfError : Type := VrfProofErr | VrfVerifyErr.

#[export] Instance VrfError_eq_dec : EqDecision VrfError.
Proof. solve_decision. Defined.

Section vrf.
Context `{!Curve}.

(** The clamped bytes [h[..32]]. *)
Definition clamp (h : bytes) : bytes :=
  [Z.land (nth 0 h 0) 248] ++ slice 1 31 h ++ [Z.lor (Z.land (nth 31 h 0) 63) 64].

Definition expand_sk (seed : bytes) : scalar * bytes :=
  let h := sha512 seed in
  (sc_mod_order (clamp h), slice 32 64 h).

(** [for ctr in 0u8..=255]. *)
Fixpoint hash_to_curve_loop (ctrs : list Z) (pk alpha : bytes) : option point :=
  match ctrs with
  | [] => None
  | ctr :: ctrs =>
      let digest := sha512 ([SUITE; 1] ++ pk ++ alpha ++ [ctr]) in
      match decode_point (take 32 digest) with
      | Some p =>
          let h := pt_mul_by_cofactor p in
          if negb (pt_is_identity h) then Some h else hash_to_curve_loop ctrs pk alpha
      | None => hash_to_curve_loop ctrs pk alpha
      end
  end.

Definition hash_to_curve (pk alpha : bytes) : option point :=
  hash_to_curve_loop (Z.of_nat <$> seq 0 256) pk alpha.

Definition zero_extend (c : bytes) : bytes := c ++ replicate 16 0.

Definition hash_points (points : list point) : scalar :=
  let digest := sha512 ([SUITE; 2] ++ concat (encode_point <$> points)) in
  sc_mod_order (zero_extend (take C_LEN digest)).

Definition proof_to_hash (gamma : point) : bytes :=
  sha512 ([SUITE; 3] ++ encode_point (pt_mul_by_cofactor gamma)).

Definition vrf_prove (seed alpha : bytes) : result (bytes * bytes) VrfError :=
  let '(x, prefix) := expand_sk seed in
  let y := pt_mul BASEPOINT x in
  let pk := encode_point y in
  let? h := ok_or (hash_to_curve pk alpha) VrfProofErr in
  let gamma := pt_mul h x in
  let wide := sha512 (prefix ++ encode_point h) in
  let k := sc_mod_order_wide wide in
  let k_b := pt_mul BASEPOINT k in
  let k_h := pt_mul h k in
  let c := hash_points [h; gamma; k_b; k_h] in
  let s := sc_add k (sc_mul c x) in
  Ok (proof_to_hash gamma,
      encode_point gamma ++ take C_LEN (sc_to_bytes c) ++ sc_to_bytes s).

Definition vrf_verify (pk_bytes alpha proof : bytes) : result bytes VrfError :=
  let? y := ok_or (decode_point pk_bytes) VrfProofErr in
  if pt_is_identity y then Err VrfProofErr else
  let? gamma := ok_or (decode_point (take 32 proof)) VrfProofErr in
  let c := sc_mod_order (zero_extend (slice 32 (32 + C_LEN) proof)) in
  let? s := ok_or (sc_canonical (drop (32 + C_LEN) proof)) VrfProofErr in
  let? h := ok_or (hash_to_curve pk_bytes alpha) VrfProofErr in
  let u := pt_sub (pt_mul BASEPOINT s) (pt_mul y c) in
  let v := pt_sub (pt_mul h s) (pt_mul gamma c) in
  let c2 := hash_points [h; gamma; u; v] in
  if negb (sc_eqb c c2) then Err VrfVerifyErr else Ok (proof_to_hash gamma).

Definition public_key_from_seed (seed : bytes) : bytes :=
  let '(x, _) := expand_sk seed in
  encode_point (pt_mul BASEPOINT x).

(** ** Little-endian arithmetic *)

Lemma of_be_app a b : of_be (a ++ b) = of_be a * 256 ^ Z.of_nat (length b) + of_be b.
Proof. unfold of_be. rewrite foldl_app. apply (foldl_of_be (foldl _ 0 a) b). Qed.

Lemma of_le_app a b : of_le (a ++ b) = of_le a + 256 ^ Z.of_nat (length a) * of_le b.
Proof. unfold of_le. rewrite rev_app_distr, of_be_app, length_rev. lia. Qed.

Lemma of_le_bound l : bytes_ok l → 0 ≤ of_le l < 256 ^ Z.of_nat (length l).
Proof.
  intros Hl. unfold of_le. rewrite <- (length_rev l). apply of_be_bound.
  unfold bytes_ok. by rewrite <- Permutation_rev.
Qed.

Lemma of_le_le_bytes n z : 0 ≤ z < 256 ^ Z.of_nat n → of_le (le_bytes n z) = z.
Proof. intros Hz. unfold of_le, le_bytes. rewrite rev_involutive. by apply of_be_be_bytes. Qed.

Lemma le_bytes_ok n z : bytes_ok (le_bytes n z).
Proof. unfold le_bytes, bytes_ok. rewrite <- Permutation_rev. apply be_bytes_ok. Qed.

Lemma length_le_bytes n z : length (le_bytes n z) = n.
Proof. unfold le_bytes. by rewrite length_rev, length_be_bytes. Qed.

Lemma of_le_zeros n : of_le (replicate n 0) = 0.
Proof.
  induction n as [|n IH]; [done|]. change (replicate (S n) 0) with ([0] ++ replicate n 0).
  rewrite of_le_app, IH. done.
Qed.

Lemma of_le_zero_extend l : of_le (zero_extend l) = of_le l.
Proof. unfold zero_extend. rewrite of_le_app, of_le_zeros. lia. Qed.

(** A 128-bit value survives truncation to sixteen bytes. *)
Lemma of_le_take16 z : 0 ≤ z < 256 ^ 16 → of_le (take 16 (le_bytes 32 z)) = z.
Proof.
  intros Hz.
  pose proof (of_le_app (take 16 (le_bytes 32 z)) (drop 16 (le_bytes 32 z))) as E.
  rewrite take_drop, of_le_le_bytes, length_take, length_le_bytes in E by (cbn; lia).
  pose proof (of_le_bound (take 16 (le_bytes 32 z)) (Forall_take _ _ _ (le_bytes_ok 32 z))) as Ht.
  pose proof (of_le_bound (drop 16 (le_bytes 32 z)) (Forall_drop _ _ _ (le_bytes_ok 32 z))) as Hd.
  rewrite length_take, length_le_bytes in Ht.
  change (256 ^ Z.of_nat (16 `min` 32)) with (256 ^ 16) in *.
  set (a := of_le (take _ _)) in *. set (b := of_le (drop _ _)) in *.
  assert (b = 0); [|lia]. destruct (Z.eq_dec b 0); [done|]. nia.
Qed.

(** ** Clamped keys are never zero modulo the group order *)

(** A fact about bytes, checked on all of them. *)
Lemma byte_check (P : Z → bool) :
  forallb P (Z.of_nat <$> seq 0 256) = true → ∀ b, u8 b → P b = true.
Proof.
  intros Hall b Hb. rewrite forallb_forall in Hall. apply Hall.
  replace b with (Z.of_nat (Z.to_nat b)) by (uint; lia).
  apply in_map, in_seq. uint. lia.
Qed.

Lemma land_248 b : u8 b → Z.land b 248 mod 8 = 0 ∧ 0 ≤ Z.land b 248 ≤ 248.
Proof.
  intros Hb.
  pose proof (byte_check (λ b, (Z.land b 248 mod 8 =? 0) && (0 <=? Z.land b 248) &&
    (Z.land b 248 <=? 248)) eq_refl b Hb) as E. cbn in E. bsimpl. lia.
Qed.

Lemma top_byte b : 64 ≤ Z.lor (Z.land b 63) 64 < 128.
Proof.
  change 63 with (Z.ones 6). rewrite Z.land_ones by lia.
  pose proof (Z.mod_pos_bound b (2 ^ 6)). set (c := b mod 2 ^ 6) in *.
  assert (Z.lor c 64 = c + 64) as ->; [|lia].
  rewrite <- Z.lxor_lor, <- Z.add_nocarry_lxor; try done;
    (rewrite <- (Z.mod_small c (2 ^ 6)), <- Z.land_ones, <- Z.land_assoc by lia; apply Z.land_0_r).
Qed.

Lemma clamp_range h : array 64 h → of_le (clamp h) mod 8 = 0 ∧ 0 < of_le (clamp h) < 2 ^ 255.
Proof.
  intros [Hl Hh]. unfold clamp. rewrite of_le_app, of_le_app.
  rewrite length_slice by lia. change (length [Z.land (nth 0 h 0) 248]) with 1%nat.
  set (b0 := Z.land (nth 0 h 0) 248). set (b31 := Z.lor _ 64).
  change (of_le [b0]) with b0. change (of_le [b31]) with b31.
  pose proof (of_le_bound _ (slice_ok 1 31 h Hh)) as Hm. rewrite length_slice in Hm by lia.
  change (Z.of_nat (31 - 1)) with 30 in *. change (Z.of_nat 1) with 1.
  assert (u8 (nth 0 h 0)) as Hu by (apply Forall_nth; [done|lia]).
  destruct (land_248 _ Hu) as [H8 Hb0]. fold b0 in H8, Hb0.
  pose proof (top_byte (nth 31 h 0)) as Ht. fold b31 in Ht.
  set (m := of_le _) in *. clearbody b0 b31 m. split; [|lia].
  replace (b0 + _) with (b0 + (32 * (m + 256 ^ 30 * b31)) * 8) by lia.
  by rewrite Z.mod_add.
Qed.

Lemma clamped_nonzero x : x mod 8 = 0 → 0 < x < 2 ^ 255 → x mod GROUP_ORDER ≠ 0.
Proof.
  intros H8 Hx E. unfold GROUP_ORDER in E. set (n := 2 ^ 252 + _) in *.
  pose proof (Z.div_mod x n) as Hd. rewrite E in Hd.
  set (q := x / n) in *. assert (1 ≤ q ≤ 7) by lia.
  assert (n mod 8 = 5) by reflexivity.
  assert (q = 1 ∨ q = 2 ∨ q = 3 ∨ q = 4 ∨ q = 5 ∨ q = 6 ∨ q = 7) as Hq by lia.
  rewrite Hd in H8 by lia. clear Hd Hx E. clearbody n q. destruct Hq as [->|[->|[->|[->|[->|[->| ->]]]]]]; Z.to_euclidean_division_equations; lia.
Qed.

(** ** Completeness *)

Context `{!CurveLaws}.

Lemma order_large : 256 ^ 16 < GROUP_ORDER.
Proof. reflexivity. Qed.

Lemma public_point_not_identity seed :
  pt_is_identity (pt_mul BASEPOINT (expand_sk seed).1) = false.
Proof.
  apply not_true_iff_false. rewrite pt_mul_zmul. intros E%zmul_base_identity.
  cbn [expand_sk fst] in E. rewrite sc_mod_order_val, Z.mod_mod in E by done.
  destruct (clamp_range _ (sha512_array seed)) as [H8 Hr].
  by apply (clamped_nonzero _ H8 Hr).
Qed.

(** The challenge is a 128-bit value, so it survives its encoding. *)
Lemma challenge_roundtrip points :
  sc_val (sc_mod_order (zero_extend (take C_LEN (sc_to_bytes (hash_points points)))))
    = sc_val (hash_points points).
Proof.
  rewrite sc_mod_order_val, of_le_zero_extend, sc_to_bytes_le.
  assert (0 ≤ sc_val (hash_points points) < 256 ^ 16) as Hc.
  { unfold hash_points. rewrite sc_mod_order_val, of_le_zero_extend.
    destruct (sha512_array ([SUITE; 2] ++ concat (encode_point <$> points))) as [Hl Hb].
    pose proof (of_le_bound _ (Forall_take _ C_LEN _ Hb)) as Hr.
    rewrite length_take, Hl in Hr. change (256 ^ Z.of_nat (C_LEN `min` 64)) with (256 ^ 16) in Hr.
    pose proof order_large. rewrite Z.mod_small; lia. }
  unfold C_LEN. rewrite of_le_take16 by done. apply Z.mod_small, sc_val_range.
Qed.

Lemma hash_to_curve_cofactor pk alpha h :
  hash_to_curve pk alpha = Some h → ∃ p, h = pt_mul_by_cofactor p.
Proof.
  unfold hash_to_curve. generalize (Z.of_nat <$> seq 0 256). intros l.
  induction l as [|c l IH]; cbn; [done|]. intros E.
  repeat (case_match; simplify_eq); eauto.
Qed.

(** The two commitments of the verifier are those of the prover. *)
Lemma commitment_base (k c x s : scalar) :
  sc_val s = sc_val (sc_add k (sc_mul c x)) →
  pt_sub (pt_mul BASEPOINT s) (zmul (sc_val c) (pt_mul BASEPOINT x)) = pt_mul BASEPOINT k.
Proof.
  intros Es. rewrite !pt_mul_zmul, zmul_zmul, Es, sc_add_val, sc_mul_val, zmul_base_mod, zmul_sub.
  rewrite <- (zmul_base_mod (_ - _)), <- (zmul_base_mod (sc_val k)). f_equal.
  rewrite Zminus_mod, Zplus_mod, Zmod_mod, <- Zplus_mod, <- Zminus_mod. f_equal. lia.
Qed.

Lemma commitment_hash (k c x s : scalar) p :
  let h := pt_mul_by_cofactor p in
  sc_val s = sc_val (sc_add k (sc_mul c x)) →
  pt_sub (pt_mul h s) (zmul (sc_val c) (pt_mul h x)) = pt_mul h k.
Proof.
  intros h Es. rewrite !pt_mul_zmul, zmul_zmul, Es, sc_add_val, sc_mul_val.
  unfold h. rewrite zmul_cofactor_mod, zmul_sub.
  rewrite <- (zmul_cofactor_mod (_ - _)), <- (zmul_cofactor_mod (sc_val k)). f_equal.
  rewrite Zminus_mod, Zplus_mod, Zmod_mod, <- Zplus_mod, <- Zminus_mod. f_equal. lia.
Qed.

(** VRF completeness.  A proof made by [prove] is 80 bytes long and is
    accepted by [verify] under the public key of the same seed, which returns
    the output the prover saw. *)
Theorem vrf_complete seed alpha out proof :
  vrf_prove seed alpha = Ok (out, proof) →
  length proof = PROOF_LEN ∧ vrf_verify (public_key_from_seed seed) alpha proof = Ok out.
Proof.
  unfold vrf_prove, vrf_verify, public_key_from_seed.
  pose proof (public_point_not_identity seed) as Hid.
  destruct (expand_sk seed) as [x prefix]. cbn [fst] in Hid.
  destruct (hash_to_curve _ alpha) as [h|] eqn:Eh; [|done]. cbn [ok_or].
  destruct (hash_to_curve_cofactor _ _ _ Eh) as [p ->].
  set (h := pt_mul_by_cofactor p) in *. set (gamma := pt_mul h x).
  set (k := sc_mod_order_wide _). set (c := hash_points _). intros [= <- <-].
  pose proof (length_encode_point gamma) as Hg.
  assert (length (take C_LEN (sc_to_bytes c)) = 16%nat) as Hc
    by (rewrite length_take, sc_to_bytes_le, length_le_bytes; done).
  split; [rewrite !length_app, Hg, Hc, sc_to_bytes_le, length_le_bytes; done|].
  rewrite decode_encode_point. cbn [ok_or]. rewrite Hid.
  rewrite take_app_length' by done. rewrite decode_encode_point. cbn [ok_or].
  rewrite slice_mid by (rewrite ?Hg, ?Hc; done).
  rewrite app_assoc, drop_app_length' by (rewrite length_app, Hg, Hc; done).
  destruct (sc_canonical_to_bytes (sc_add k (sc_mul c x))) as (s & -> & Es). cbn [ok_or].
  rewrite (pt_mul_zmul _ (sc_mod_order _)), (pt_mul_zmul gamma (sc_mod_order _)).
  assert (sc_val (sc_mod_order (zero_extend (take C_LEN (sc_to_bytes c)))) = sc_val c) as Hch
    by apply challenge_roundtrip.
  rewrite Hch, (commitment_base k c x s Es).
  rewrite (commitment_hash k c x s p Es : pt_sub (pt_mul h s) (zmul (sc_val c) gamma) = _). fold h c.
  by rewrite (proj2 (sc_eqb_val _ _) Hch).
Qed.

End vrf.

(** ** A concrete instance: the integers modulo the group order *)

Definition zpoint : Type := dsig (λ z : Z, 0 ≤ z < GROUP_ORDER).

Lemma zmod_range z : 0 ≤ z mod GROUP_ORDER < GROUP_ORDER.
Proof. by apply Z.mod_pos_bound. Qed.

Definition zpt (z : Z) : zpoint := dexist (z mod GROUP_ORDER) (zmod_range z).

Lemma zpt_eq a b : a mod GROUP_ORDER = b mod GROUP_ORDER → zpt a = zpt b.
Proof. intros E. by apply dsig_eq. Qed.

Definition toy_sha512 (m : bytes) : bytes :=
  le_bytes 64 (1 + foldl (λ acc b, (acc * 257 + b) mod 2 ^ 248) 7 m).

Definition toy_curve : Curve := {|
  scalar := Z;
  point := zpoint;
  sc_mod_order b := of_le b mod GROUP_ORDER;
  sc_mod_order_wide b := of_le b mod GROUP_ORDER;
  sc_canonical b := if of_le b <? GROUP_ORDER then Some (of_le b) else None;
  sc_to_bytes a := le_bytes 32 (a mod GROUP_ORDER);
  sc_add a b := (a + b) mod GROUP_ORDER;
  sc_mul a b := (a * b) mod GROUP_ORDER;
  sc_eqb a b := a mod GROUP_ORDER =? b mod GROUP_ORDER;
  pt_mul p a := zpt ((a mod GROUP_ORDER) * `p);
  pt_sub p q := zpt (`p - `q);
  pt_is_identity p := `p =? 0;
  pt_mul_by_cofactor p := zpt (8 * `p);
  BASEPOINT := zpt 1;
  encode_point p := le_bytes 32 (`p);
  decode_point b := if of_le b <? GROUP_ORDER then Some (zpt (of_le b)) else None;
  sha512 := toy_sha512;
|}.

Lemma order_256 : GROUP_ORDER < 256 ^ Z.of_nat 32.
Proof. reflexivity. Qed.

Lemma toy_curve_laws : @CurveLaws toy_curve.
Proof.
  refine {| sc_val := (λ a, a mod GROUP_ORDER) : @scalar toy_curve → Z;
            zmul := (λ a p, zpt (a * `p)) : Z → @point toy_curve → @point toy_curve |}; cbn; intros.
  - apply zmod_range.
  - by apply Z.mod_mod.
  - pose proof (zmod_range a). pose proof order_256. rewrite of_le_le_bytes by lia.
    rewrite (proj2 (Z.ltb_lt _ _)) by lia. eexists. split; [done|]. by apply Z.mod_mod.
  - done.
  - rewrite Z.mod_mod by done. apply Z.add_mod. done.
  - rewrite Z.mod_mod by done. apply Z.mul_mod. done.
  - apply Z.eqb_eq.
  - done.
  - apply zpt_eq. cbn. rewrite Zmult_mod_idemp_r. f_equal. lia.
  - apply zpt_eq. cbn. rewrite <- Zminus_mod. f_equal. lia.
  - apply zpt_eq. cbn. by rewrite Zmult_mod_idemp_l.
  - apply zpt_eq. cbn. by rewrite Zmult_mod_idemp_l.
  - bsimpl. rewrite Z.mul_1_r in *. done.
  - pose proof (proj2_dsig p) as Hp. cbn in Hp. pose proof order_256.
    rewrite of_le_le_bytes by lia. rewrite (proj2 (Z.ltb_lt _ _)) by lia. f_equal.
    apply dsig_eq. cbn. by apply Z.mod_small.
  - apply length_le_bytes.
  - split; [apply length_le_bytes|apply le_bytes_ok].
Defined.

#[local] Existing Instances toy_curve toy_curve_laws.

Lemma vrf_complete_witness :
  ∃ out proof, vrf_prove [5] [9] = Ok (out, proof) ∧
    length proof = PROOF_LEN ∧ vrf_verify (public_key_from_seed [5]) [9] proof = Ok out.
Proof.
  destruct (vrf_prove [5] [9]) as [[out proof]|e] eqn:E.
  - exists out, proof. split; [done|]. exact (vrf_complete [5] [9] out proof E).
  - assert (is_ok (vrf_prove [5] [9]) = true) as Hok by (vm_compute; reflexivity).
    rewrite E in Hok. discriminate Hok.
Defined.
