(* ===== verification/Kzg.v ===== *)
(** Polynomial commitments: [crypto/src/kzg.rs].

    The curve BLS12-381 is the third-party crate ark-bls12-381: [PairingCurve]
    lists the operations the code calls and [PairingLaws] what they promise
    (two groups of prime order [FR_ORDER] with a bilinear map, and affine
    points that are read back from their serialization).  Field elements are
    integers modulo the order.  Evaluation, division by [x - z], the reference
    string and the three protocol steps are translated.

    Shown: every opening made by [open] of a polynomial that fits the
    reference string is accepted by [verify] for its commitment, and its
    value is the value of the polynomial ([kzg_complete]). *)

From S2P Require Import Prelude Types Crypto Vrf.
From stdpp Require Import list.

#[local] Open Scope Z_scope.
#[local] Open Scope l1_scope.

(** The order of the groups, the modulus of [Fr]. *)
Definition FR_ORDER : Z :=
  52435875175126190479447740508185965837690552500527637822603658699938581184513.

Definition fr_add (a b : Z) : Z := (a + b) mod FR_ORDER.
Definition fr_mul (a b : Z) : Z := (a * b) mod FR_ORDER.
(** [Fr::from_le_bytes_mod_order]. *)
Definition fr_from_le (b : bytes) : Z := of_le b mod FR_ORDER.

Class PairingCurve := {
  G1 : Type;
  G2 : Type;
  GT : Type;
  g1_generator : G1;
  g1_zero : G1;
  g1_add : G1 → G1 → G1;
  g1_sub : G1 → G1 → G1;
  g1_mul : G1 → Z → G1;
  g2_generator : G2;
  g2_sub : G2 → G2 → G2;
  g2_mul : G2 → Z → G2;
  pairing : G1 → G2 → GT;
  gt_eqb : GT → GT → bool;
  (** [serialize_uncompressed], [deserialize_uncompressed]. *)
  g1_bytes : G1 → bytes;
  g1_parse : bytes → option G1;
  g2_bytes : G2 → bytes;
  g2_parse : bytes → option G2;
}.

Class PairingLaws `{PairingCurve} := {
  g1_zero_mul : g1_zero = g1_mul g1_generator 0;
  g1_add_mul : ∀ a b, g1_add (g1_mul g1_generator a) (g1_mul g1_generator b) = g1_mul g1_generator (a + b);
  g1_sub_mul : ∀ a b, g1_sub (g1_mul g1_generator a) (g1_mul g1_generator b) = g1_mul g1_generator (a - b);
  g1_mul_mul : ∀ a b, g1_mul (g1_mul g1_generator a) b = g1_mul g1_generator (a * b);
  g1_mul_mod : ∀ a, g1_mul g1_generator (a mod FR_ORDER) = g1_mul g1_generator a;
  g2_sub_mul : ∀ a b, g2_sub (g2_mul g2_generator a) (g2_mul g2_generator b) = g2_mul g2_generator (a - b);
  g2_one_mul : g2_generator = g2_mul g2_generator 1;
  pairing_bilinear : ∀ a b c d, a * b = c * d →
    pairing (g1_mul g1_generator a) (g2_mul g2_generator b) =
    pairing (g1_mul g1_generator c) (g2_mul g2_generator d);
  gt_eqb_refl : ∀ x, gt_eqb x x = true;
  g1_parse_bytes : ∀ p, g1_parse (g1_bytes p) = Some p;
  g2_parse_bytes : ∀ p, g2_parse (g2_bytes p) = Some p;
}.

Inductive KzgError : Type := KDegree | KTooLong | KPoint.

Record KzgSetup := { ks_degree : nat; ks_g1_powers : list bytes; ks_g2_tau : bytes }.

(** [KzgCommitment { bytes }]. *)
Abbreviation KzgCommitment := bytes.

Record KzgOpening := { ko_z : Z; ko_y : Z; ko_proof : bytes }.

Section kzg.
Context `{!Crypto} `{!PairingCurve}.

(** [for _ in 0..=degree]. *)
Fixpoint setup_powers (n : nat) (tau acc : Z) : list bytes :=
  match n with
  | O => []
  | S n => g1_bytes (g1_mul g1_generator acc) :: setup_powers n tau (fr_mul acc tau)
  end.

Definition kzg_setup (degree : nat) (seed : bytes) : result KzgSetup KzgError :=
  if (degree <? 1)%nat then Err KDegree
  else
    let tau := fr_from_le (blake3 seed) in
    Ok {| ks_degree := degree; ks_g1_powers := setup_powers (S degree) tau 1;
          ks_g2_tau := g2_bytes (g2_mul g2_generator tau) |}.

Definition g1_from_bytes (b : bytes) : result G1 KzgError := ok_or (g1_parse b) KPoint.
Definition g2_from_bytes (b : bytes) : result G2 KzgError := ok_or (g2_parse b) KPoint.

(** The loop over the coefficients; [powers] are the points from index [i] on.
    The check in [msm] excludes the second case, the index out of range. *)
Fixpoint msm_loop (powers : list bytes) (coeffs : list Z) (acc : G1) : result G1 KzgError :=
  match coeffs, powers with
  | [], _ => Ok acc
  | c :: coeffs, [] => Err KTooLong
  | c :: coeffs, p :: powers =>
      if c =? 0 then msm_loop powers coeffs acc
      else
        let? g := g1_from_bytes p in
        msm_loop powers coeffs (g1_add acc (g1_mul g c))
  end.

Definition msm (setup : KzgSetup) (coeffs : list Z) : result G1 KzgError :=
  if (length (ks_g1_powers setup) <? length coeffs)%nat then Err KTooLong
  else msm_loop (ks_g1_powers setup) coeffs g1_zero.

Definition kzg_commit (setup : KzgSetup) (coeffs : list Z) : result KzgCommitment KzgError :=
  let? c := msm setup coeffs in
  Ok (g1_bytes c).

(** [for c in coeffs.iter().rev()]. *)
Definition eval_poly (coeffs : list Z) (z : Z) : Z :=
  foldl (λ acc c, fr_add (fr_mul acc z) c) 0 (rev coeffs).

(** [q[n-2] = p[n-1]] and, downwards, [q[i] = p[i+1] + z * q[i+1]]: for
    [p = p0 :: rest] the quotient is built from the end of [rest]. *)
Fixpoint quotient_tail (rest : list Z) (z : Z) : list Z :=
  match rest with
  | [] => []
  | [c] => [c]
  | c :: rest' =>
      let q := quotient_tail rest' z in
      fr_add c (fr_mul z (nth 0 q 0)) :: q
  end.

Definition quotient (p : list Z) (z : Z) : list Z :=
  match p with
  | [] | [_] => []
  | _ :: rest => quotient_tail rest z
  end.

Definition kzg_open (setup : KzgSetup) (coeffs : list Z) (z : Z) : result KzgOpening KzgError :=
  let y := eval_poly coeffs z in
  let q := quotient coeffs z in
  let? proof := kzg_commit setup q in
  Ok {| ko_z := z; ko_y := y; ko_proof := proof |}.

Definition kzg_verify (setup : KzgSetup) (commitment : KzgCommitment) (opening : KzgOpening) :
    result bool KzgError :=
  let? c := g1_from_bytes commitment in
  let? pi := g1_from_bytes (ko_proof opening) in
  let? tau_g2 := g2_from_bytes (ks_g2_tau setup) in
  let lhs_g1 := g1_sub c (g1_mul g1_generator (ko_y opening)) in
  let rhs_g2 := g2_sub tau_g2 (g2_mul g2_generator (ko_z opening)) in
  let left := pairing lhs_g1 g2_generator in
  let right := pairing pi rhs_g2 in
  Ok (gt_eqb left right).

(** ** The polynomial over the integers *)

Fixpoint poly (p : list Z) (x : Z) : Z :=
  match p with [] => 0 | c :: p => c + x * poly p x end.

(** [a ≡ b] modulo the order. *)
Definition eqm (a b : Z) : Prop := a mod FR_ORDER = b mod FR_ORDER.
#[local] Instance eqm_equiv : Equivalence eqm.
Proof. split; [done|by intros ??|intros ???; unfold eqm; congruence]. Qed.
#[local] Instance eqm_add : Proper (eqm ==> eqm ==> eqm) Z.add.
Proof. intros a b E c d E'. unfold eqm in *. rewrite Zplus_mod, E, E', <- Zplus_mod. done. Qed.
#[local] Instance eqm_mul : Proper (eqm ==> eqm ==> eqm) Z.mul.
Proof. intros a b E c d E'. unfold eqm in *. rewrite Zmult_mod, E, E', <- Zmult_mod. done. Qed.
#[local] Instance eqm_sub : Proper (eqm ==> eqm ==> eqm) Z.sub.
Proof. intros a b E c d E'. unfold eqm in *. rewrite Zminus_mod, E, E', <- Zminus_mod. done. Qed.

Lemma eqm_mod a : eqm (a mod FR_ORDER) a.
Proof. unfold eqm. by rewrite Zmod_mod. Qed.

Lemma fr_add_eqm a b : eqm (fr_add a b) (a + b).
Proof. apply eqm_mod. Qed.
Lemma fr_mul_eqm a b : eqm (fr_mul a b) (a * b).
Proof. apply eqm_mod. Qed.

(** Horner's rule. *)
Lemma eval_poly_eqm p z : eqm (eval_poly p z) (poly p z).
Proof.
  unfold eval_poly. induction p as [|c p IH]; [done|]. cbn [rev poly]. rewrite foldl_app. cbn [foldl].
  rewrite fr_add_eqm, fr_mul_eqm, IH. apply (f_equal (λ x, x mod FR_ORDER)). lia.
Qed.

Lemma quotient_tail_cons c rest z :
  rest ≠ [] → quotient_tail (c :: rest) z =
    fr_add c (fr_mul z (nth 0 (quotient_tail rest z) 0)) :: quotient_tail rest z.
Proof. by destruct rest. Qed.

(** The head of the quotient of [p0 :: rest] is [rest] at [z]. *)
Lemma quotient_tail_head rest z : eqm (nth 0 (quotient_tail rest z) 0) (poly rest z).
Proof.
  induction rest as [|c rest IH]; [done|]. destruct (decide (rest = [])) as [->|Hne].
  - cbn. apply (f_equal (λ x, x mod FR_ORDER)). lia.
  - rewrite quotient_tail_cons by done. cbn [nth poly]. by rewrite fr_add_eqm, fr_mul_eqm, IH.
Qed.

Lemma quotient_tail_eqm c rest x z :
  eqm (poly (c :: rest) x - poly (c :: rest) z) ((x - z) * poly (quotient_tail rest z) x).
Proof.
  revert c. induction rest as [|d rest IH]; intros c.
  { cbn. apply (f_equal (λ x, x mod FR_ORDER)). lia. }
  destruct (decide (rest = [])) as [->|Hne].
  { cbn. apply (f_equal (λ x, x mod FR_ORDER)). lia. }
  rewrite quotient_tail_cons by done. specialize (IH d). cbn [poly] in *.
  rewrite fr_add_eqm, fr_mul_eqm, quotient_tail_head.
  transitivity (x * (d + x * poly rest x - (d + z * poly rest z)) + (x - z) * (d + z * poly rest z)).
  { apply (f_equal (λ x, x mod FR_ORDER)). lia. }
  rewrite IH. apply (f_equal (λ x, x mod FR_ORDER)). lia.
Qed.

(** [quotient] divides [p - p(z)] by [x - z]. *)
Lemma quotient_eqm p x z : eqm (poly p x - poly p z) ((x - z) * poly (quotient p z) x).
Proof.
  destruct p as [|c [|d p]]; [| |apply quotient_tail_eqm].
  all: cbn; apply (f_equal (λ x, x mod FR_ORDER)); lia.
Qed.

Lemma length_quotient_tail rest z : length (quotient_tail rest z) = length rest.
Proof.
  induction rest as [|c rest IH]; [done|]. destruct (decide (rest = [])) as [->|]; [done|].
  rewrite quotient_tail_cons by done. cbn. by rewrite IH.
Qed.

Lemma length_quotient p z : (length (quotient p z) ≤ length p)%nat.
Proof. destruct p as [|c [|d p]]; [done|cbn; lia|]. cbn [quotient]. rewrite length_quotient_tail. cbn. lia. Qed.

(** ** Completeness *)

Context `{!PairingLaws}.

Lemma g1_mul_eqm a b : eqm a b → g1_mul g1_generator a = g1_mul g1_generator b.
Proof. intros E. rewrite <- (g1_mul_mod a), <- (g1_mul_mod b). by rewrite E. Qed.

(** A commitment is the value at [tau] times the generator. *)
Lemma msm_loop_ok n tau acc coeffs v :
  (length coeffs ≤ n)%nat →
  ∃ e, msm_loop (setup_powers n tau acc) coeffs (g1_mul g1_generator v) = Ok (g1_mul g1_generator e) ∧
    eqm e (v + acc * poly coeffs tau).
Proof.
  revert acc coeffs v. induction n as [|n IH]; intros acc [|c coeffs] v Hl; cbn in Hl; try lia.
  - exists v. split; [done|]. cbn. apply (f_equal (λ x, x mod FR_ORDER)). lia.
  - exists v. split; [done|]. cbn. apply (f_equal (λ x, x mod FR_ORDER)). lia.
  - cbn [setup_powers msm_loop]. destruct (Z.eqb_spec c 0) as [->|Hc].
    + destruct (IH (fr_mul acc tau) coeffs v) as (e & E & He); [lia|]. exists e. split; [done|].
      rewrite He. cbn [poly]. rewrite fr_mul_eqm. apply (f_equal (λ x, x mod FR_ORDER)). lia.
    + unfold g1_from_bytes. rewrite g1_parse_bytes. cbn [ok_or]. rewrite g1_mul_mul, g1_add_mul.
      destruct (IH (fr_mul acc tau) coeffs (v + acc * c)) as (e & E & He); [lia|]. exists e. split; [done|].
      rewrite He. cbn [poly]. rewrite fr_mul_eqm. apply (f_equal (λ x, x mod FR_ORDER)). lia.
Qed.

Lemma length_setup_powers n tau acc : length (setup_powers n tau acc) = n.
Proof. revert acc. induction n as [|n IH]; intros acc; [done|]. cbn. by rewrite IH. Qed.

Lemma kzg_commit_ok degree seed setup coeffs :
  kzg_setup degree seed = Ok setup → (length coeffs ≤ S degree)%nat →
  ∃ e, kzg_commit setup coeffs = Ok (g1_bytes (g1_mul g1_generator e)) ∧
    eqm e (poly coeffs (fr_from_le (blake3 seed))).
Proof.
  intros E Hl. set (tau := fr_from_le (blake3 seed)).
  assert (ks_g1_powers setup = setup_powers (S degree) tau 1) as Ep.
  { unfold kzg_setup in E. case_hyp E; [done|]. by injection E as <-. }
  unfold kzg_commit, msm. rewrite Ep, (length_setup_powers (S degree)).
  rewrite (proj2 (Nat.ltb_ge _ _)) by lia. rewrite g1_zero_mul.
  destruct (msm_loop_ok (S degree) tau 1 coeffs 0 Hl) as (e & -> & He).
  exists e. split; [done|]. rewrite He. apply (f_equal (λ x, x mod FR_ORDER)). lia.
Qed.

(** Openings are accepted.  For every polynomial that fits the reference
    string and every point, [commit] and [open] succeed, the claimed value
    is the value of the polynomial, and [verify] accepts the opening. *)
Theorem kzg_complete degree seed setup coeffs z :
  kzg_setup degree seed = Ok setup → (length coeffs ≤ S degree)%nat →
  ∃ c o, kzg_commit setup coeffs = Ok c ∧ kzg_open setup coeffs z = Ok o ∧
    eqm (ko_y o) (poly coeffs z) ∧ kzg_verify setup c o = Ok true.
Proof.
  intros Hs Hl. pose proof (length_quotient coeffs z) as Hq.
  destruct (kzg_commit_ok _ _ _ coeffs Hs Hl) as (e & Ec & He).
  destruct (kzg_commit_ok _ _ _ (quotient coeffs z) Hs) as (f & Eq & Hf); [lia|].
  eexists _, _. split; [exact Ec|]. unfold kzg_open. rewrite Eq. split; [done|]. cbn [ko_y].
  split; [apply eval_poly_eqm|]. unfold kzg_verify, g1_from_bytes, g2_from_bytes. cbn [ko_proof ko_y ko_z].
  rewrite !g1_parse_bytes. cbn [ok_or].
  assert (ks_g2_tau setup = g2_bytes (g2_mul g2_generator (fr_from_le (blake3 seed)))) as Ht.
  { unfold kzg_setup in Hs. case_hyp Hs; [done|]. by injection Hs as <-. }
  rewrite Ht, g2_parse_bytes. cbn [ok_or]. set (tau := fr_from_le (blake3 seed)) in *. f_equal.
  rewrite g1_sub_mul, g2_sub_mul.
  rewrite (g1_mul_eqm (e - eval_poly coeffs z) ((tau - z) * f)).
  - rewrite g2_one_mul at 1. rewrite (pairing_bilinear ((tau - z) * f) 1 f (tau - z)) by lia. apply gt_eqb_refl.
  - rewrite He, eval_poly_eqm, Hf. apply quotient_eqm.
Qed.

End kzg.

(** ** Witness: the additive group as a toy curve *)

Definition toy_pairing : PairingCurve := {|
  G1 := Z; G2 := Z; GT := Z;
  g1_generator := 1; g1_zero := 0;
  g1_add a b := fr_add a b; g1_sub a b := (a - b) mod FR_ORDER; g1_mul p a := fr_mul p a;
  g2_generator := 1; g2_sub a b := (a - b) mod FR_ORDER; g2_mul p a := fr_mul p a;
  pairing a b := fr_mul a b; gt_eqb := Z.eqb;
  g1_bytes a := [a]; g1_parse b := match b with [a] => Some a | _ => None end;
  g2_bytes a := [a]; g2_parse b := match b with [a] => Some a | _ => None end;
|}.

Lemma toy_pairing_laws : @PairingLaws toy_pairing.
Proof.
  split; cbn; unfold fr_add, fr_mul; intros.
  - done.
  - rewrite !Z.mul_1_l. symmetry. apply Zplus_mod.
  - rewrite !Z.mul_1_l. symmetry. apply Zminus_mod.
  - rewrite !Z.mul_1_l. apply Zmult_mod_idemp_l.
  - by rewrite !Z.mul_1_l, Zmod_mod.
  - rewrite !Z.mul_1_l. symmetry. apply Zminus_mod.
  - done.
  - rewrite !Z.mul_1_l, <- !Zmult_mod. congruence.
  - apply Z.eqb_refl.
  - done.
  - done.
Qed.

#[local] Existing Instances toy_crypto toy_pairing toy_pairing_laws.

Definition toy_kzg : KzgSetup :=
  match kzg_setup 4 [1; 2; 3] with
  | Ok s => s
  | Err _ => {| ks_degree := 0; ks_g1_powers := []; ks_g2_tau := [] |}
  end.

Lemma kzg_complete_witness :
  ∃ c o, kzg_commit toy_kzg [7; 0; 5; 9] = Ok c ∧ kzg_open toy_kzg [7; 0; 5; 9] 3 = Ok o ∧
    eqm (ko_y o) (poly [7; 0; 5; 9] 3) ∧ kzg_verify toy_kzg c o = Ok true.
Proof. apply (kzg_complete 4 [1; 2; 3]); [vm_compute; reflexivity|cbn; lia]. Defined.
