(* ===== verification/Merkle.v ===== *)
(** Generic Merkle trees: [state/src/merkle.rs], the copy in
    [types/src/hashing.rs], and the block roots of [types/src/block.rs].

    [compute_root] pads an odd layer by repeating its last hash and pairs
    neighbours until one hash is left.  Shown: an honest proof verifies; a
    verified leaf is one of the leaves, and equal roots of equally long lists
    mean equal lists, unless the hash collides on inputs that the two
    computations actually hash; and the padding makes a list and the list
    with its last leaf repeated share a root. *)

From S2P Require Import Prelude Types Codec Crypto.
From Stdlib Require Import String.
From stdpp Require Import list.

#[local] Open Scope Z_scope.
#[local] Open Scope l1_scope.

Section merkle.
Context `{Crypto}.

(** ** [state/src/merkle.rs] *)

Definition dhash (payload : bytes) : bytes :=
  hash_to_array (apply_domain DMerkle payload).

Definition hash_leaf (leaf : bytes) : bytes := dhash ([0] ++ leaf).
Definition hash_branch (left right : bytes) : bytes := dhash ([1] ++ left ++ right).

(** [if layer.len() % 2 == 1 { layer.push(last) }] *)
Definition pad (layer : list bytes) : list bytes :=
  if Nat.odd (length layer) then layer ++ [List.last layer []] else layer.

(** [for chunk in layer.chunks(2)], on a layer of even length. *)
Fixpoint pair_up (layer : list bytes) : list bytes :=
  match layer with
  | a :: b :: rest => hash_branch a b :: pair_up rest
  | _ => []
  end.

Definition level_up (layer : list bytes) : list bytes := pair_up (pad layer).

(** [while layer.len() > 1]; [fuel] bounds the iterations and
    [length layer] is enough ([root_loop_singleton]). *)
Fixpoint root_loop (fuel : nat) (layer : list bytes) : list bytes :=
  match fuel with
  | O => layer
  | S fuel' =>
      if (1 <? length layer)%nat then root_loop fuel' (level_up layer) else layer
  end.

Definition compute_root (leaves : list bytes) : bytes :=
  match leaves with
  | [] => dhash []
  | _ => let layer := hash_leaf <$> leaves in
         List.hd [] (root_loop (length layer) layer)
  end.

Record MerkleProof := { leaf_index : nat; siblings : list bytes }.

Fixpoint prove_loop (fuel : nat) (layer : list bytes) (idx : nat) : list bytes :=
  match fuel with
  | O => []
  | S fuel' =>
      if (1 <? length layer)%nat then
        let sib := if Nat.even idx then (idx + 1)%nat else (idx - 1)%nat in
        List.nth sib (pad layer) [] ::
          prove_loop fuel' (level_up layer) (Nat.div2 idx)
      else []
  end.

Definition prove (leaves : list bytes) (index : nat) : option MerkleProof :=
  if (length leaves <=? index)%nat then None
  else
    let layer := hash_leaf <$> leaves in
    Some {| leaf_index := index; siblings := prove_loop (length layer) layer index |}.

Fixpoint verify_loop (acc : bytes) (idx : nat) (sibs : list bytes) : bytes :=
  match sibs with
  | [] => acc
  | sib :: rest =>
      let acc' := if Nat.even idx then hash_branch acc sib else hash_branch sib acc in
      verify_loop acc' (Nat.div2 idx) rest
  end.

Definition verify (leaf : bytes) (proof : MerkleProof) (root : bytes) : bool :=
  bool_decide (verify_loop (hash_leaf leaf) (leaf_index proof) (siblings proof) = root).

(** ** [types/src/hashing.rs]: the copy used for headers *)

Definition types_dhash (payload : bytes) : bytes :=
  blake3 (ascii_bytes "L1/merkle"%string ++ [0] ++ payload).
Definition types_hash_leaf (leaf : bytes) : bytes := types_dhash ([0] ++ leaf).
Definition types_hash_branch (l r : bytes) : bytes := types_dhash ([1] ++ l ++ r).

Fixpoint types_pair_up (layer : list bytes) : list bytes :=
  match layer with
  | a :: b :: rest => types_hash_branch a b :: types_pair_up rest
  | _ => []
  end.

Fixpoint types_root_loop (fuel : nat) (layer : list bytes) : list bytes :=
  match fuel with
  | O => layer
  | S fuel' =>
      if (1 <? length layer)%nat then types_root_loop fuel' (types_pair_up (pad layer))
      else layer
  end.

Definition merkle_root (leaves : list bytes) : bytes :=
  match leaves with
  | [] => types_dhash []
  | _ => let layer := types_hash_leaf <$> leaves in
         List.hd [] (types_root_loop (length layer) layer)
  end.

(** ** [types/src/block.rs], [types/src/header.rs], [state/src/root.rs] *)

(** [None]: [Tx::encode] panics on a stake without target. *)
Definition tx_root (txs : list Tx) : option Hash := merkle_root <$> mapM tx_encode txs.
Definition tx_root_signed (txs : list SignedTx) : option Hash := tx_root (st_tx <$> txs).
Definition receipts_root (encoded : list bytes) : Hash := merkle_root encoded.
Definition state_root (account_root contract_root : bytes) : Hash :=
  merkle_root [account_root; contract_root].
Definition commit_root (account_root contract_root : bytes) : bytes :=
  compute_root [account_root; contract_root].
Definition validators_hash (validators : gmap ValidatorId VotingPower) : Hash :=
  merkle_root (validator_entry <$> btree_iter validators).

(** ** Structure of a layer *)

Lemma length_pad l : length (pad l) = (2 * ((length l + 1) / 2))%nat.
Proof.
  unfold pad. destruct (Nat.odd (length l)) eqn:E.
  - apply Nat.odd_spec in E as [k Hk]. rewrite length_app, Hk. cbn [length].
    replace (2 * k + 1 + 1)%nat with ((k + 1) * 2)%nat by lia.
    rewrite Nat.div_mul by lia. lia.
  - assert (Nat.even (length l) = true) as Ee by (by rewrite <- Nat.negb_odd, E).
    apply Nat.even_spec in Ee as [k Hk]. rewrite Hk.
    replace (2 * k + 1)%nat with (1 + k * 2)%nat by lia.
    rewrite Nat.div_add by lia. cbn. lia.
Qed.

Lemma length_pair_up l k : length l = (2 * k)%nat → length (pair_up l) = k.
Proof.
  revert l. induction k as [|k IH]; intros l Hl.
  - destruct l; [done|cbn in Hl; lia].
  - destruct l as [|a [|b l]]; cbn in *; try lia. f_equal. apply IH. lia.
Qed.

Lemma length_level_up l : length (level_up l) = ((length l + 1) / 2)%nat.
Proof. apply length_pair_up, length_pad. Qed.

Lemma half_le n m : (1 < n ≤ S m → (n + 1) / 2 ≤ m ∧ 0 < (n + 1) / 2)%nat.
Proof.
  intros Hn.
  assert ((n + 1) / 2 < n)%nat by (apply Nat.Div0.div_lt_upper_bound; lia).
  assert (1 ≤ (n + 1) / 2)%nat by (apply Nat.div_le_lower_bound; lia). lia.
Qed.

(** The loop of [compute_root] ends with exactly one hash. *)
Lemma root_loop_singleton fuel l :
  (0 < length l ≤ fuel)%nat → length (root_loop fuel l) = 1%nat.
Proof.
  revert l. induction fuel as [|fuel IH]; intros l Hl; [lia|]. cbn [root_loop].
  destruct (1 <? length l)%nat eqn:E.
  - apply Nat.ltb_lt in E. apply IH. rewrite length_level_up.
    pose proof (half_le (length l) fuel). lia.
  - apply Nat.ltb_ge in E. lia.
Qed.

Lemma pair_up_lookup l i a b :
  l !! (2 * i)%nat = Some a → l !! (2 * i + 1)%nat = Some b →
  pair_up l !! i = Some (hash_branch a b).
Proof.
  revert l. induction i as [|i IH]; intros [|x [|y l]] Ha Hb; try done.
  - cbn in *. by simplify_eq.
  - cbn. apply IH.
    + by replace (2 * S i)%nat with (S (S (2 * i))) in Ha by lia.
    + by replace (2 * S i + 1)%nat with (S (S (2 * i + 1))) in Hb by lia.
Qed.

Lemma elem_of_pair_up l x :
  x ∈ pair_up l → ∃ a b, a ∈ l ∧ b ∈ l ∧ x = hash_branch a b.
Proof.
  remember (length l) as n eqn:Hn. revert l Hn.
  induction n as [n IH] using lt_wf_ind; intros [|a [|b l]] Hn; cbn;
    try by intros []%not_elem_of_nil.
  intros [->|Hx]%elem_of_cons.
  - exists a, b. set_solver.
  - destruct (IH (length l) ltac:(cbn in Hn; lia) l eq_refl Hx) as (c & d & ? & ? & ->).
    exists c, d. set_solver.
Qed.

Lemma elem_of_pad l x : x ∈ pad l → x ∈ l.
Proof.
  unfold pad. destruct (Nat.odd (length l)) eqn:E; [|done].
  intros [?|Hx]%elem_of_app; [done|]. apply list_elem_of_singleton in Hx as ->.
  destruct l as [|y l] using rev_ind; [done|].
  rewrite List.last_last. set_solver.
Qed.

Lemma pad_lookup_lt l i : (i < length l)%nat → pad l !! i = l !! i.
Proof. intros. unfold pad. case_match; [by rewrite lookup_app_l|done]. Qed.

Lemma elem_of_level_up l x :
  x ∈ level_up l → ∃ a b, a ∈ l ∧ b ∈ l ∧ x = hash_branch a b.
Proof.
  intros (a & b & ? & ? & ->)%elem_of_pair_up. eauto 10 using elem_of_pad.
Qed.

(** ** Completeness *)

(** The pair a loop iteration of [prove] and [verify] looks at. *)
Lemma level_up_lookup l idx acc :
  (1 < length l)%nat → l !! idx = Some acc →
  let sib := List.nth (if Nat.even idx then idx + 1 else idx - 1)%nat (pad l) [] in
  level_up l !! Nat.div2 idx =
    Some (if Nat.even idx then hash_branch acc sib else hash_branch sib acc).
Proof.
  intros Hl Hacc sib. subst sib.
  pose proof (lookup_lt_Some _ _ _ Hacc) as Hlt.
  pose proof (length_pad l) as Hp.
  assert (length l ≤ length (pad l))%nat as Hge
    by (unfold pad; case_match; rewrite ?length_app; lia).
  rewrite <- (pad_lookup_lt l idx Hlt) in Hacc. unfold level_up.
  destruct (Nat.even idx) eqn:Ev.
  - apply Nat.even_spec in Ev as [k ->]. rewrite Nat.div2_double.
    apply pair_up_lookup; [done|].
    destruct (lookup_lt_is_Some_2 (pad l) (2 * k + 1)) as [b Hb]; [lia|].
    by rewrite Hb, (nth_lookup_Some _ _ _ _ Hb).
  - assert (Nat.odd idx = true) as Ho by (by rewrite <- Nat.negb_even, Ev).
    apply Nat.odd_spec in Ho as [k ->].
    replace (2 * k + 1)%nat with (S (2 * k)) in * by lia. rewrite Nat.div2_succ_double.
    replace (S (2 * k)) with (2 * k + 1)%nat in * by lia.
    apply pair_up_lookup; [|done].
    destruct (lookup_lt_is_Some_2 (pad l) (2 * k)) as [b Hb]; [lia|].
    replace (2 * k + 1 - 1)%nat with (2 * k)%nat by lia.
    by rewrite Hb, (nth_lookup_Some _ _ _ _ Hb).
Qed.

Lemma verify_prove_loop fuel l idx acc :
  (length l ≤ fuel)%nat → l !! idx = Some acc →
  verify_loop acc idx (prove_loop fuel l idx) = List.hd [] (root_loop fuel l).
Proof.
  revert l idx acc. induction fuel as [|fuel IH]; intros l idx acc Hl Hacc.
  { destruct l; [done|cbn in Hl; lia]. }
  cbn [prove_loop root_loop]. destruct (1 <? length l)%nat eqn:E.
  - apply Nat.ltb_lt in E. cbn [verify_loop]. apply IH.
    + rewrite length_level_up. pose proof (half_le (length l) fuel). lia.
    + by apply level_up_lookup.
  - apply Nat.ltb_ge in E. pose proof (lookup_lt_Some _ _ _ Hacc).
    destruct l as [|x [|y l]]; cbn in *; try lia.
    replace idx with 0%nat in Hacc by lia. by simplify_eq/=.
Qed.

Lemma prove_complete leaves i leaf :
  leaves !! i = Some leaf →
  ∃ p, prove leaves i = Some p ∧ leaf_index p = i ∧
       verify leaf p (compute_root leaves) = true.
Proof.
  intros Hi. pose proof (lookup_lt_Some _ _ _ Hi) as Hlt. unfold prove.
  replace (length leaves <=? i)%nat with false by (symmetry; apply Nat.leb_gt; lia).
  eexists. split; [done|]. split; [done|].
  unfold verify. apply bool_decide_eq_true. cbn [leaf_index siblings].
  rewrite verify_prove_loop.
  - unfold compute_root. by destruct leaves.
  - done.
  - by rewrite list_lookup_fmap, Hi.
Qed.

(** An honest Merkle proof verifies: for every index inside the list,
    [prove] returns a proof and [verify] accepts the leaf at that index
    against [compute_root] of the list. *)
Theorem prove_verify leaves i leaf :
  leaves !! i = Some leaf →
  ∃ p, prove leaves i = Some p ∧ leaf_index p = i ∧
       verify leaf p (compute_root leaves) = true.
Proof. apply prove_complete. Qed.

(** ** What a computation hashes, and collisions among it *)

(** Inputs of [dhash] when a layer is paired up. *)
Fixpoint pair_inputs (layer : list bytes) : list bytes :=
  match layer with
  | a :: b :: rest => ([1] ++ a ++ b) :: pair_inputs rest
  | _ => []
  end.

Fixpoint loop_inputs (fuel : nat) (layer : list bytes) : list bytes :=
  match fuel with
  | O => []
  | S fuel' =>
      if (1 <? length layer)%nat
      then pair_inputs (pad layer) ++ loop_inputs fuel' (level_up layer) else []
  end.

(** Everything [compute_root leaves] hashes (for a non-empty list). *)
Definition tree_inputs (leaves : list bytes) : list bytes :=
  (app [0] <$> leaves) ++ loop_inputs (length leaves) (hash_leaf <$> leaves).

Fixpoint verify_inputs (acc : bytes) (idx : nat) (sibs : list bytes) : list bytes :=
  match sibs with
  | [] => []
  | sib :: rest =>
      if Nat.even idx
      then ([1] ++ acc ++ sib) :: verify_inputs (hash_branch acc sib) (Nat.div2 idx) rest
      else ([1] ++ sib ++ acc) :: verify_inputs (hash_branch sib acc) (Nat.div2 idx) rest
  end.

(** Everything [verify leaf proof _] hashes. *)
Definition proof_inputs (leaf : bytes) (p : MerkleProof) : list bytes :=
  ([0] ++ leaf) :: verify_inputs (hash_leaf leaf) (leaf_index p) (siblings p).

(** Two different byte strings, one hashed by each computation, with the
    same digest. *)
Definition collides (xs ys : list bytes) : Prop :=
  ∃ x y, x ∈ xs ∧ y ∈ ys ∧ x ≠ y ∧ dhash x = dhash y.

Lemma collides_mono xs ys xs' ys' :
  xs ⊆ xs' → ys ⊆ ys' → collides xs ys → collides xs' ys'.
Proof. intros Hx Hy (x & y & ? & ? & ?). exists x, y. auto. Qed.

Ltac incl_tac :=
  unfold tree_inputs, proof_inputs;
  solve [ intros ?; rewrite ?elem_of_app, ?elem_of_cons; tauto
        | cbn; intros ?; rewrite ?elem_of_app, ?elem_of_cons; tauto ].

Lemma dhash_inj_or xs ys x y :
  x ∈ xs → y ∈ ys → dhash x = dhash y → x = y ∨ collides xs ys.
Proof.
  intros. destruct (decide (x = y)); [by left|right]. exists x, y. auto.
Qed.

Definition digests (l : list bytes) : Prop := Forall (λ h, length h = 32%nat) l.

Context `{!CryptoLaws}.

Lemma length_dhash x : length (dhash x) = 32%nat.
Proof. apply blake3_array. Qed.

Lemma digests_leaves leaves : digests (hash_leaf <$> leaves).
Proof. apply Forall_fmap, Forall_true. intros. apply length_dhash. Qed.

Lemma digests_level_up l : digests (level_up l).
Proof.
  apply Forall_forall. intros x (a & b & _ & _ & ->)%elem_of_level_up.
  apply length_dhash.
Qed.

Lemma digests_pad l : digests l → digests (pad l).
Proof. unfold digests. rewrite !Forall_forall. eauto using elem_of_pad. Qed.

(** ** Soundness of proofs *)

(** The hashes of the tree over [leaves]. *)
Inductive tree_node (leaves : list bytes) : bytes → Prop :=
| tn_leaf leaf : leaf ∈ leaves → tree_node leaves (hash_leaf leaf)
| tn_branch a b :
    tree_node leaves a → tree_node leaves b →
    ([1] ++ a ++ b) ∈ tree_inputs leaves → tree_node leaves (hash_branch a b).

Lemma elem_of_pair_up_inputs l x :
  x ∈ pair_up l → ∃ a b, a ∈ l ∧ b ∈ l ∧ x = hash_branch a b ∧ ([1] ++ a ++ b) ∈ pair_inputs l.
Proof.
  remember (length l) as n eqn:Hn. revert l Hn.
  induction n as [n IH] using lt_wf_ind; intros [|a [|b l]] Hn; cbn;
    try by intros []%not_elem_of_nil.
  intros [->|Hx]%elem_of_cons.
  - exists a, b. set_solver.
  - destruct (IH (length l) ltac:(cbn in Hn; lia) l eq_refl Hx) as (c & d & ? & ? & -> & ?).
    exists c, d. set_solver.
Qed.

Lemma root_loop_nodes leaves fuel l :
  Forall (tree_node leaves) l → loop_inputs fuel l ⊆ tree_inputs leaves →
  Forall (tree_node leaves) (root_loop fuel l).
Proof.
  revert l. induction fuel as [|fuel IH]; intros l Hl Hin; cbn in *; [done|].
  destruct (match length l with 0%nat => _ | _ => _ end); [|done].
  apply IH; [|set_solver]. rewrite Forall_forall in Hl.
  apply Forall_forall. intros x Hx.
  apply elem_of_pair_up_inputs in Hx as (a & b & Ha & Hb & -> & Hab).
  apply elem_of_pad in Ha, Hb. constructor; auto. set_solver.
Qed.

Lemma compute_root_node leaves :
  leaves ≠ [] → tree_node leaves (compute_root leaves).
Proof.
  intros Hne.
  assert (compute_root leaves
          = List.hd [] (root_loop (length leaves) (hash_leaf <$> leaves))) as ->.
  { destruct leaves; [done|]. unfold compute_root. by rewrite length_fmap. }
  assert (length (root_loop (length leaves) (hash_leaf <$> leaves)) = 1%nat) as Hlen.
  { apply root_loop_singleton. rewrite length_fmap. destruct leaves; [done|cbn; lia]. }
  pose proof (root_loop_nodes leaves (length leaves) (hash_leaf <$> leaves)) as Hn.
  destruct (root_loop _ _) as [|r [|? ?]]; cbn in Hlen; try lia. cbn.
  assert (Forall (tree_node leaves) [r]) as Hr; [|by inversion Hr].
  apply Hn; [|unfold tree_inputs; set_solver].
  apply Forall_fmap, Forall_forall. intros x Hx. by constructor.
Qed.

(** One step down the path of a proof. *)
Lemma tree_node_branch leaves x y ys :
  length x = 32%nat → length y = 32%nat → ([1] ++ x ++ y) ∈ ys →
  tree_node leaves (hash_branch x y) →
  (tree_node leaves x ∧ tree_node leaves y) ∨ collides (tree_inputs leaves) ys.
Proof.
  intros Hx Hy Hys Hn. inversion Hn as [leaf Hl E|a b Ha Hb Hab E].
  - destruct (dhash_inj_or (tree_inputs leaves) ys ([0] ++ leaf) ([1] ++ x ++ y)) as [?|?];
      [unfold tree_inputs; set_solver|done|done|done|by right].
  - destruct (dhash_inj_or (tree_inputs leaves) ys ([1] ++ a ++ b) ([1] ++ x ++ y))
      as [E'|?]; [done|done|done| |by right].
    left. assert (length a = 32%nat) as La by (inversion Ha; apply length_dhash).
    simplify_eq/=. apply app_inj_1 in E' as [-> ->]; [done|lia].
Qed.

Lemma verify_loop_sound leaves acc idx sibs :
  length acc = 32%nat → digests sibs →
  tree_node leaves (verify_loop acc idx sibs) →
  tree_node leaves acc ∨ collides (tree_inputs leaves) (verify_inputs acc idx sibs).
Proof.
  intros Hacc Hs. revert acc idx Hacc.
  induction Hs as [|s sibs Hs Hsibs IH]; intros acc idx Hacc Hn; [by left|].
  cbn in Hn |- *. destruct (Nat.even idx).
  - destruct (IH _ _ (length_dhash _) Hn) as [Hb|Hc].
    + eapply tree_node_branch in Hb as [[? ?]|?]; [by left|right; eassumption|done|done|].
      apply elem_of_cons. by left.
    + right. eapply collides_mono; [done| |exact Hc]. incl_tac.
  - destruct (IH _ _ (length_dhash _) Hn) as [Hb|Hc].
    + eapply tree_node_branch in Hb as [[? ?]|?]; [by left|right; eassumption|done|done|].
      apply elem_of_cons. by left.
    + right. eapply collides_mono; [done| |exact Hc]. incl_tac.
Qed.

(** Soundness of Merkle inclusion proofs: a leaf accepted against the
    root of a non-empty list is a member of that list, for any claimed index
    and any number of siblings, unless the hash collides on two inputs, one
    hashed by [compute_root] of the list and one by [verify]. *)
Theorem verify_sound leaves leaf p :
  leaves ≠ [] → digests (siblings p) →
  verify leaf p (compute_root leaves) = true →
  leaf ∈ leaves ∨ collides (tree_inputs leaves) (proof_inputs leaf p).
Proof.
  intros Hne Hs Hv. apply bool_decide_eq_true in Hv.
  pose proof (compute_root_node leaves Hne) as Hroot. rewrite <- Hv in Hroot.
  apply verify_loop_sound in Hroot as [Hl|Hc]; [|right|apply length_dhash|done].
  - inversion Hl as [leaf' Hin E|a b _ _ Hab E].
    + destruct (dhash_inj_or (tree_inputs leaves) (proof_inputs leaf p)
        ([0] ++ leaf') ([0] ++ leaf)) as [?|?];
        [unfold tree_inputs; set_solver|unfold proof_inputs; set_solver|done| |by right].
      left. by simplify_eq/=.
    + destruct (dhash_inj_or (tree_inputs leaves) (proof_inputs leaf p)
        ([1] ++ a ++ b) ([0] ++ leaf)) as [?|?];
        [done|unfold proof_inputs; set_solver|done|done|by right].
  - eapply collides_mono; [done| |exact Hc]. incl_tac.
Qed.

(** ** Binding *)

Lemma pair_up_inj l k :
  length l = length k → Nat.Even (length l) → digests l → digests k →
  pair_up l = pair_up k → l = k ∨ collides (pair_inputs l) (pair_inputs k).
Proof.
  remember (length l) as n eqn:Hn. revert l k Hn.
  induction n as [n IH] using lt_wf_ind; intros l k Hn Hk Hev Hl Hd E.
  destruct l as [|a [|b l]], k as [|c [|d k]]; cbn in Hn, Hk; try lia; [by left|..].
  { exfalso. subst n. by destruct Hev as [m ?]; lia. }
  cbn [pair_up] in E. injection E as E1 E2.
  destruct (proj1 (Forall_cons _ _ _) Hl) as [La [Lb Hl']%Forall_cons].
  destruct (proj1 (Forall_cons _ _ _) Hd) as [Lc [Ld Hd']%Forall_cons].
  destruct (IH (length l) ltac:(lia) l k eq_refl ltac:(lia)) as [<-|Hc]; [|done|done|done| |].
  { destruct Hev as [m ?]. exists (m - 1)%nat. lia. }
  - destruct (dhash_inj_or (pair_inputs (a :: b :: l)) (pair_inputs (c :: d :: l))
      ([1] ++ a ++ b) ([1] ++ c ++ d)) as [E'|?];
      [cbn; set_solver|cbn; set_solver|done| |by right].
    left. simplify_eq/=. apply app_inj_1 in E' as [-> ->]; [done|lia].
  - right. eapply collides_mono; [| |exact Hc]; incl_tac.
Qed.

Lemma pad_inj l k : length l = length k → pad l = pad k → l = k.
Proof.
  intros Hlen E. unfold pad in E. rewrite Hlen in E.
  destruct (Nat.odd (length k)); [|done]. by apply app_inj_1 in E as [? _].
Qed.

Lemma level_up_inj l k :
  length l = length k → digests l → digests k → level_up l = level_up k →
  l = k ∨ collides (pair_inputs (pad l)) (pair_inputs (pad k)).
Proof.
  intros Hlen Hl Hk E. destruct (pair_up_inj (pad l) (pad k)) as [Hp|Hc]; auto using digests_pad.
  - by rewrite !length_pad, Hlen.
  - rewrite length_pad. eexists. reflexivity.
  - left. by apply pad_inj.
Qed.

Lemma root_loop_inj fuel l k :
  length l = length k → (0 < length l ≤ fuel)%nat → digests l → digests k →
  List.hd [] (root_loop fuel l) = List.hd [] (root_loop fuel k) →
  l = k ∨ collides (loop_inputs fuel l) (loop_inputs fuel k).
Proof.
  revert l k. induction fuel as [|fuel IH]; intros l k Hlen Hl Hdl Hdk E; [lia|].
  cbn [root_loop loop_inputs] in *. rewrite <- Hlen in *.
  destruct (1 <? length l)%nat eqn:E1.
  - apply Nat.ltb_lt in E1. pose proof (half_le (length l) fuel).
    assert (level_up l = level_up k ∨
            collides (loop_inputs fuel (level_up l)) (loop_inputs fuel (level_up k)))
      as [Hu|Hc].
    { apply IH; auto using digests_level_up.
      - by rewrite !length_level_up, Hlen.
      - rewrite length_level_up. lia. }
    + destruct (level_up_inj l k Hlen Hdl Hdk Hu) as [?|Hc]; [by left|right].
      eapply collides_mono; [| |exact Hc]; incl_tac.
    + right. eapply collides_mono; [| |exact Hc]; incl_tac.
  - apply Nat.ltb_ge in E1.
    destruct l as [|x [|? ?]], k as [|y [|? ?]]; cbn in *; try lia. left. congruence.
Qed.

(** A Merkle root binds its leaves: two lists of the same length with
    the same root are equal, unless the hash collides on two inputs, one
    hashed for each list. *)
Theorem compute_root_binding l k :
  length l = length k → compute_root l = compute_root k →
  l = k ∨ collides (tree_inputs l) (tree_inputs k).
Proof.
  intros Hlen E. destruct l as [|x l], k as [|y k]; try done; [by left|].
  unfold compute_root in E. rewrite !length_fmap, <- Hlen in E.
  apply root_loop_inj in E as [E|Hc]; auto using digests_leaves.
  - assert (∀ l k : list bytes, hash_leaf <$> l = hash_leaf <$> k →
      l = k ∨ collides (app [0] <$> l) (app [0] <$> k)) as Hleaf.
    { clear. induction l as [|a l IH]; intros [|b k] E; try done; [by left|].
      cbn in E. injection E as E1 E2. destruct (IH k E2) as [<-|Hc].
      - destruct (dhash_inj_or (app [0] <$> a :: l) (app [0] <$> b :: l)
          ([0] ++ a) ([0] ++ b)) as [?|?]; [cbn; set_solver|cbn; set_solver|done| |by right].
        left. by simplify_eq/=.
      - right. eapply collides_mono; [| |exact Hc]; incl_tac. }
    destruct (Hleaf _ _ E) as [?|Hc]; [by left|right].
    eapply collides_mono; [| |exact Hc]; incl_tac.
  - right. rewrite Hlen in Hc at 2. eapply collides_mono; [| |exact Hc]; incl_tac.
  - by rewrite !length_fmap.
  - rewrite length_fmap. cbn. lia.
Qed.

(** Roots are 32-byte arrays. *)
Lemma hash_arrays_level_up l : Forall (array 32) (level_up l).
Proof. apply Forall_forall. intros x (a & b & _ & _ & ->)%elem_of_level_up. apply blake3_array. Qed.

Lemma hash_arrays_leaves leaves : Forall (array 32) (hash_leaf <$> leaves).
Proof. apply Forall_fmap, Forall_true. intros x. apply blake3_array. Qed.

Lemma prove_loop_arrays fuel l idx :
  Forall (array 32) l → (idx < length l)%nat → Forall (array 32) (prove_loop fuel l idx).
Proof.
  revert l idx. induction fuel as [|fuel IH]; intros l idx Hl Hi; [constructor|]. cbn [prove_loop].
  destruct (Nat.ltb_spec 1 (length l)) as [H1|]; [|constructor].
  assert (∃ acc, l !! idx = Some acc) as [acc Hacc] by by apply lookup_lt_is_Some_2.
  pose proof (level_up_lookup _ _ _ H1 Hacc) as Hup. cbn zeta in Hup. constructor.
  - assert (∀ s, (s < length (pad l))%nat → array 32 (List.nth s (pad l) [])) as Hn.
    { intros s Hs. apply (nth_In _ []), list_elem_of_In, elem_of_pad in Hs.
      by eapply Forall_forall in Hl. }
    apply Hn. rewrite length_pad. pose proof (Nat.div_mod_eq (length l + 1) 2).
    pose proof (Nat.mod_upper_bound (length l + 1) 2 ltac:(done)).
    destruct (Nat.even idx) eqn:Ee; [|lia]. apply Nat.even_spec in Ee as [k ->]. lia.
  - apply IH; [apply hash_arrays_level_up|]. by apply lookup_lt_Some in Hup.
Qed.

Lemma root_loop_arrays fuel l : Forall (array 32) l → Forall (array 32) (root_loop fuel l).
Proof.
  revert l. induction fuel as [|fuel IH]; intros l Hl; [done|]. cbn [root_loop].
  case_match; [|done]. apply IH, hash_arrays_level_up.
Qed.

Lemma compute_root_array leaves : array 32 (compute_root leaves).
Proof.
  destruct leaves as [|x leaves]; [apply blake3_array|]. unfold compute_root.
  pose proof (root_loop_arrays (length (hash_leaf <$> x :: leaves)) _ (hash_arrays_leaves (x :: leaves))) as Hr.
  pose proof (root_loop_singleton (length (hash_leaf <$> x :: leaves)) (hash_leaf <$> x :: leaves)) as Hl.
  destruct (root_loop _ _) as [|r rs]; [|by inversion Hr].
  cbn in Hl. lia.
Qed.

End merkle.

(** ** Padding, and the two implementations *)

Section merkle_facts.
Context `{Crypto}.

Lemma root_loop_step fuel l :
  (1 < length l)%nat → root_loop (S fuel) l = root_loop fuel (level_up l).
Proof. intros Hl%Nat.ltb_lt. cbn [root_loop]. by rewrite Hl. Qed.

Lemma root_loop_enough n m l :
  (length l ≤ n)%nat → (length l ≤ m)%nat → root_loop n l = root_loop m l.
Proof.
  revert m l. induction n as [|n IH]; intros m l Hn Hm.
  - destruct l; [|cbn in Hn; lia]. by destruct m.
  - destruct m as [|m]; [by destruct l; [|cbn in Hm; lia]|].
    cbn [root_loop]. destruct (1 <? length l)%nat eqn:E; [|done].
    apply Nat.ltb_lt in E. pose proof (half_le (length l) n).
    pose proof (half_le (length l) m). apply IH; rewrite length_level_up; lia.
Qed.

Lemma level_up_padded l :
  Nat.odd (length l) = true → level_up (l ++ [List.last l []]) = level_up l.
Proof.
  intros Ho. unfold level_up, pad. rewrite Ho, length_app. cbn [length].
  rewrite Nat.odd_add, Ho. done.
Qed.

(** Repeating the last leaf of a list of odd length does not change the root. *)
Lemma compute_root_repeats_last leaves :
  Nat.odd (length leaves) = true → (1 < length leaves)%nat →
  compute_root (leaves ++ [List.last leaves []]) = compute_root leaves.
Proof.
  intros Ho Hl. destruct leaves as [|x leaves]; [done|].
  unfold compute_root. change ((x :: leaves) ++ ?y) with (x :: (leaves ++ y)).
  set (l := hash_leaf <$> x :: leaves).
  assert (hash_leaf <$> x :: leaves ++ [List.last (x :: leaves) []]
          = l ++ [List.last l []]) as ->.
  { subst l. rewrite app_comm_cons, fmap_app. f_equal. cbn [fmap list_fmap]. f_equal.
    clear. revert x. induction leaves as [|y leaves IH]; intros x; [done|]. apply IH. }
  assert (length l = length (x :: leaves)) as Hll by apply length_fmap.
  rewrite length_app. cbn [length] in *. rewrite Nat.add_1_r.
  rewrite <- Hll in *. clearbody l. clear Hll x leaves.
  destruct (length l) as [|m] eqn:El; [lia|].
  rewrite root_loop_step by (rewrite length_app; lia).
  rewrite (root_loop_step m l) by lia.
  rewrite level_up_padded by (by rewrite El).
  f_equal. pose proof (half_le (S m) m). apply root_loop_enough; rewrite length_level_up, El; lia.
Qed.

Lemma mapM_option_app {A B : Type} (f : A → option B) (l k : list A) :
  mapM f (l ++ k) = mapM f l ≫= λ a, mapM f k ≫= λ b, Some (a ++ b).
Proof.
  induction l as [|x l IH]; cbn; [by destruct (mapM f k)|].
  destruct (f x); cbn; [|done]. rewrite IH.
  destruct (mapM f l); cbn; [|done]. by destruct (mapM f k).
Qed.

(** Same source text, two crates: once the label [merkle] is expanded the
    copies are the same function. *)
Lemma merkle_root_compute_root leaves : merkle_root leaves = compute_root leaves.
Proof. reflexivity. Qed.

(** [block.tx_root] does not commit to the number of transactions: for a
    list of even length at least two and one more transaction [t], the block
    that carries [t] once and the block that carries it twice have the same
    root (the padding of an odd layer repeats its last hash). *)
Theorem tx_root_repeats_last txs t :
  Nat.even (length txs) = true → txs ≠ [] →
  tx_root (txs ++ [t; t]) = tx_root (txs ++ [t]).
Proof.
  intros Hev Hne. unfold tx_root. change [t; t] with ([t] ++ [t]).
  rewrite app_assoc, (mapM_option_app tx_encode (txs ++ [t])), (mapM_option_app _ txs [t]).
  destruct (mapM tx_encode txs) as [bs|] eqn:E; [|done].
  pose proof (length_mapM _ _ _ E) as Hlen.
  cbn. destruct (tx_encode t) as [b|]; [|done]. cbn. f_equal.
  rewrite !merkle_root_compute_root.
  pose proof (compute_root_repeats_last (bs ++ [b])) as Hr.
  rewrite List.last_last in Hr. apply Hr; rewrite length_app, <- Hlen; cbn [length].
  - rewrite Nat.odd_add, <- Nat.negb_even, Hev. done.
  - destruct txs; [done|cbn; lia].
Qed.

Lemma state_root_commit_root a c : state_root a c = commit_root a c.
Proof. apply merkle_root_compute_root. Qed.

End merkle_facts.

(** ** Witnesses at the toy hash *)

#[local] Existing Instance toy_crypto.
#[local] Existing Instance toy_crypto_laws.

Definition sample_leaves : list bytes := [[1]; [2; 2]; [3]].

Lemma prove_verify_witness :
  ∃ p, prove sample_leaves 2 = Some p ∧ leaf_index p = 2%nat ∧
       verify [3] p (compute_root sample_leaves) = true.
Proof. apply prove_verify. reflexivity. Defined.

Lemma verify_sound_witness :
  ∃ p, verify [2; 2] p (compute_root sample_leaves) = true ∧
       ([2; 2] ∈ sample_leaves ∨
        collides (tree_inputs sample_leaves) (proof_inputs [2; 2] p)).
Proof.
  eexists {| leaf_index := 1; siblings := prove_loop 3 (hash_leaf <$> sample_leaves) 1 |}.
  split; [vm_compute; reflexivity|].
  apply verify_sound; [discriminate|by_eval|vm_compute; reflexivity].
Defined.

Lemma compute_root_binding_witness :
  sample_leaves = sample_leaves ∨ collides (tree_inputs sample_leaves) (tree_inputs sample_leaves).
Proof. apply compute_root_binding; reflexivity. Defined.

Definition tx_no (n : Z) : Tx := tx_transfer 1 n 21000 1 (replicate 32 7) 5.

Lemma tx_root_repeats_last_witness :
  tx_root [tx_no 0; tx_no 1; tx_no 2; tx_no 2] = tx_root [tx_no 0; tx_no 1; tx_no 2].
Proof. apply (tx_root_repeats_last [tx_no 0; tx_no 1] (tx_no 2)); [reflexivity|discriminate]. Defined.
