(* ===== verification/MptNode.v ===== *)
(** Paths and nodes of the Merkle Patricia trie: [state/src/mpt/path.rs] and
    [state/src/mpt/node.rs].

    A path is a list of nibbles (0..15); [pack_hex_prefix] packs it into
    bytes with a flag nibble.  A node is serialised with a tag byte; the main
    result is that [deserialize_node] inverts [serialize_node]. *)

From S2P Require Import Prelude Types Codec Crypto.

#[local] Open Scope Z_scope.
#[local] Open Scope l1_scope.

(** ** [path.rs] *)

Definition nibble (x : Z) : Prop := 0 ≤ x < 16.
Definition nibbles (p : list Z) : Prop := Forall nibble p.

Definition bytes_to_nibbles (l : bytes) : list Z :=
  concat ((λ b, [Z.shiftr b 4; Z.land b 15]) <$> l).

(** [(hi << 4) | lo] on [u8]. *)
Definition pack_byte (hi lo : Z) : Z := Z.lor (Z.land (Z.shiftl hi 4) 255) lo.

(** The [step_by(2)] loop, on a slice of even length. *)
Fixpoint pack_pairs (l : list Z) : bytes :=
  match l with
  | a :: b :: rest => pack_byte a b :: pack_pairs rest
  | _ => []
  end.

Definition pack_hex_prefix (ns : list Z) (is_leaf : bool) : bytes :=
  let flags := if is_leaf then 32 else 0 in
  if Nat.odd (length ns) then
    let flags := Z.lor flags 16 in
    match ns with
    | n0 :: rest => Z.lor flags n0 :: pack_pairs rest
    | [] => []
    end
  else flags :: pack_pairs ns.

Definition unpack_hex_prefix (packed : bytes) : result (list Z * bool) TypesError :=
  match packed with
  | [] => Err (BadLength 1 0)
  | flags :: rest =>
      let is_leaf := negb (Z.land flags 32 =? 0) in
      let odd := negb (Z.land flags 16 =? 0) in
      if odd then Ok ([Z.land flags 15] ++ bytes_to_nibbles rest, is_leaf)
      else Ok (bytes_to_nibbles rest, is_leaf)
  end.

Definition encode_path (ns : list Z) (is_leaf : bool) : bytes :=
  encode (pack_hex_prefix ns is_leaf).

Definition decode_path (buf : bytes) : result (list Z * bool) TypesError :=
  let? packed := decode buf in unpack_hex_prefix packed.

Fixpoint common_prefix_len (a b : list Z) : nat :=
  match a, b with
  | x :: a', y :: b' => if x =? y then S (common_prefix_len a' b') else 0
  | _, _ => 0
  end.

(** ** [node.rs] *)

Inductive Node : Type :=
| Empty
| Leaf (path : list Z) (value : bytes)
| Extension (path : list Z) (next : bytes)
| Branch (children : list (option bytes)) (value : option bytes).

#[export] Instance Node_eq_dec : EqDecision Node.
Proof. solve_decision. Defined.

Definition tag_payload (kind : Z) (rest : bytes) : bytes := [kind] ++ rest.

Definition ser_child (c : option bytes) : bytes :=
  match c with None => [0] | Some h => [1] ++ h end.

Definition ser_value (v : option bytes) : bytes :=
  match v with None => [0] | Some v => [1] ++ be_bytes 4 (as_u32 (len v)) ++ v end.

Definition serialize_node (n : Node) : bytes :=
  match n with
  | Empty => tag_payload 0 []
  | Leaf path value =>
      let hp := pack_hex_prefix path true in
      tag_payload 1 (be_bytes 4 (as_u32 (len hp)) ++ hp ++
                     be_bytes 4 (as_u32 (len value)) ++ value)
  | Extension path next =>
      let hp := pack_hex_prefix path false in
      tag_payload 2 (be_bytes 4 (as_u32 (len hp)) ++ hp ++ next)
  | Branch children value =>
      tag_payload 3 (concat (ser_child <$> children) ++ ser_value value)
  end.

(** [rest.get(a..b)]. *)
Definition get_range (a b : nat) (l : bytes) : option bytes :=
  if (b <=? length l)%nat then Some (slice a b l) else None.

Fixpoint deser_children (n : nat) (rest : bytes) : option (list (option bytes) * bytes) :=
  match n with
  | O => Some ([], rest)
  | S n' =>
      match rest with
      | [] => None
      | b :: tl =>
          if b =? 0 then
            match deser_children n' tl with
            | Some (cs, r) => Some (None :: cs, r)
            | None => None
            end
          else if (b =? 1) && (33 <=? len rest) then
            match deser_children n' (drop 33 rest) with
            | Some (cs, r) => Some (Some (slice 1 33 rest) :: cs, r)
            | None => None
            end
          else None
      end
  end.

Definition deserialize_node (payload : bytes) : option Node :=
  match payload with
  | [] => None
  | tag :: rest =>
      if tag =? 0 then Some Empty
      else if tag =? 1 then
        if len rest <? 4 then None else
        let hlen := Z.to_nat (of_be (slice 0 4 rest)) in
        if (length rest <? 4 + hlen + 4)%nat then None else
        match unpack_hex_prefix (slice 4 (4 + hlen) rest) with
        | Err _ => None
        | Ok (path, is_leaf) =>
            if negb is_leaf then None else
            let voff := (4 + hlen)%nat in
            let vlen := Z.to_nat (of_be (slice voff (voff + 4) rest)) in
            match get_range (voff + 4) (voff + 4 + vlen) rest with
            | Some value => Some (Leaf path value)
            | None => None
            end
        end
      else if tag =? 2 then
        if len rest <? 4 then None else
        let hlen := Z.to_nat (of_be (slice 0 4 rest)) in
        if (length rest <? 4 + hlen + 32)%nat then None else
        match unpack_hex_prefix (slice 4 (4 + hlen) rest) with
        | Err _ => None
        | Ok (path, is_leaf) =>
            if is_leaf then None
            else Some (Extension path (slice (4 + hlen) (4 + hlen + 32) rest))
        end
      else if tag =? 3 then
        match deser_children 16 rest with
        | None => None
        | Some (children, rest') =>
            match rest' with
            | [] => None
            | b :: _ =>
                if b =? 0 then Some (Branch children None)
                else if (b =? 1) && (5 <=? len rest') then
                  let vlen := Z.to_nat (of_be (slice 1 5 rest')) in
                  match get_range 5 (5 + vlen) rest' with
                  | Some v => Some (Branch children (Some v))
                  | None => None
                  end
                else None
            end
        end
      else None
  end.

Section node_hash.
Context `{Crypto}.

Definition hash_encoded (payload : bytes) : bytes :=
  hash_to_array (apply_domain DMptNode (encode payload)).
Definition hash_node (n : Node) : bytes := hash_encoded (serialize_node n).
Definition empty_root : bytes := hash_node Empty.

End node_hash.

(** ** Nibbles *)

(** Check a statement about two nibbles by evaluation. *)
Lemma nibble_cases2 (P : Z → Z → bool) :
  forallb (λ a, forallb (P a) (seqZ 0 16)) (seqZ 0 16) = true →
  ∀ a b, nibble a → nibble b → P a b = true.
Proof.
  intros Hall a b Ha Hb. rewrite forallb_forall in Hall.
  specialize (Hall a). rewrite forallb_forall in Hall. apply Hall.
  - apply list_elem_of_In, elem_of_seqZ. unfold nibble in Ha. lia.
  - apply list_elem_of_In, elem_of_seqZ. unfold nibble in Hb. lia.
Qed.

Lemma pack_byte_hi a b : nibble a → nibble b → Z.shiftr (pack_byte a b) 4 = a.
Proof.
  intros. apply Z.eqb_eq.
  by apply (nibble_cases2 (λ a b, Z.shiftr (pack_byte a b) 4 =? a)).
Qed.

Lemma pack_byte_lo a b : nibble a → nibble b → Z.land (pack_byte a b) 15 = b.
Proof.
  intros. apply Z.eqb_eq.
  by apply (nibble_cases2 (λ a b, Z.land (pack_byte a b) 15 =? b)).
Qed.

Lemma pack_byte_u8 a b : nibble a → nibble b → u8 (pack_byte a b).
Proof.
  intros Ha Hb.
  assert ((0 <=? pack_byte a b) && (pack_byte a b <=? 255) = true) as Hu.
  { by apply (nibble_cases2 (λ a b, (0 <=? pack_byte a b) && (pack_byte a b <=? 255))). }
  bsimpl. ulia.
Qed.

Lemma nibbles_shiftr b : u8 b → nibble (Z.shiftr b 4).
Proof.
  intros Hb. unfold nibble. rewrite Z.shiftr_div_pow2 by lia. change (2 ^ 4) with 16.
  uint. split; [apply Z.div_pos; lia|apply Z.div_lt_upper_bound; lia].
Qed.

Lemma nibbles_land b : nibble (Z.land b 15).
Proof.
  unfold nibble. change 15 with (Z.ones 4). rewrite Z.land_ones by lia.
  apply Z.mod_pos_bound. lia.
Qed.

Lemma nibbles_of_bytes l : bytes_ok l → nibbles (bytes_to_nibbles l).
Proof.
  induction 1 as [|b l Hb _ IH]; [constructor|].
  unfold bytes_to_nibbles. cbn. repeat constructor; try apply nibbles_land || apply IH.
  all: try apply (nibbles_shiftr b Hb).
Qed.

Lemma bytes_to_nibbles_cons b l :
  bytes_to_nibbles (b :: l) = Z.shiftr b 4 :: Z.land b 15 :: bytes_to_nibbles l.
Proof. done. Qed.

Lemma byte_of_nibbles b : u8 b → pack_byte (Z.shiftr b 4) (Z.land b 15) = b.
Proof.
  intros Hb. apply Z.eqb_eq.
  assert (forallb (λ b, pack_byte (Z.shiftr b 4) (Z.land b 15) =? b) (seqZ 0 256) = true)
    as Hall by (vm_compute; reflexivity).
  rewrite forallb_forall in Hall. apply Hall.
  apply list_elem_of_In, elem_of_seqZ. ulia.
Qed.

Lemma bytes_to_nibbles_inj l k :
  bytes_ok l → bytes_ok k → bytes_to_nibbles l = bytes_to_nibbles k → l = k.
Proof.
  intros Hl. revert k. induction Hl as [|b l Hb Hl IH]; intros k Hk E.
  - destruct Hk; [done|]. by rewrite bytes_to_nibbles_cons in E.
  - destruct Hk as [|c k Hc Hk]; [by rewrite bytes_to_nibbles_cons in E|].
    rewrite !bytes_to_nibbles_cons in E. injection E as E1 E2 E3.
    f_equal; [|by apply IH].
    by rewrite <- (byte_of_nibbles b Hb), <- (byte_of_nibbles c Hc), E1, E2.
Qed.

Lemma bytes_to_nibbles_pack_pairs l :
  nibbles l → Nat.Even (length l) → bytes_to_nibbles (pack_pairs l) = l.
Proof.
  remember (length l) as n eqn:Hn. revert l Hn.
  induction n as [n IH] using lt_wf_ind; intros [|a [|b l]] Hn Hl Hev; [done|..].
  - exfalso. destruct Hev as [m ?]. cbn in Hn. lia.
  - apply Forall_cons in Hl as [Ha [Hb Hl]%Forall_cons].
    cbn [pack_pairs]. rewrite bytes_to_nibbles_cons, pack_byte_hi, pack_byte_lo by done.
    rewrite (IH (length l)); [done|cbn in Hn; lia|done|done|].
    destruct Hev as [m ?]. exists (m - 1)%nat. cbn in Hn. lia.
Qed.

(** The flag nibble: leaf bit, parity bit and, for odd paths, the first nibble. *)
Definition flag_byte (is_leaf odd : bool) (n0 : Z) : Z :=
  Z.lor (Z.lor (if is_leaf then 32 else 0) (if odd then 16 else 0)) n0.

Lemma flag_byte_spec is_leaf odd n0 :
  nibble n0 →
  Z.land (flag_byte is_leaf odd n0) 15 = n0 ∧
  negb (Z.land (flag_byte is_leaf odd n0) 32 =? 0) = is_leaf ∧
  negb (Z.land (flag_byte is_leaf odd n0) 16 =? 0) = odd.
Proof.
  intros Hn.
  pose proof (nibble_cases2 (λ a _,
    (Z.land (flag_byte is_leaf odd a) 15 =? a) &&
    eqb (negb (Z.land (flag_byte is_leaf odd a) 32 =? 0)) is_leaf &&
    eqb (negb (Z.land (flag_byte is_leaf odd a) 16 =? 0)) odd)) as Hc.
  specialize (Hc ltac:(by destruct is_leaf, odd) n0 n0 Hn Hn). cbn beta in Hc.
  rewrite !andb_true_iff, Z.eqb_eq, !eqb_true_iff in Hc. naive_solver.
Qed.

Lemma unpack_pack ns is_leaf :
  nibbles ns → unpack_hex_prefix (pack_hex_prefix ns is_leaf) = Ok (ns, is_leaf).
Proof.
  intros Hn. unfold pack_hex_prefix. destruct (Nat.odd (length ns)) eqn:Ho.
  - destruct ns as [|n0 rest]; [done|]. apply Forall_cons in Hn as [H0 Hr].
    destruct (flag_byte_spec is_leaf true n0 H0) as (E1 & E2 & E3).
    unfold flag_byte in E1, E2, E3. unfold unpack_hex_prefix. rewrite E1, E2, E3.
    rewrite bytes_to_nibbles_pack_pairs; [done|done|].
    apply Nat.odd_spec in Ho as [m Hm]. exists m. cbn in Hm. lia.
  - destruct (flag_byte_spec is_leaf false 0 ltac:(unfold nibble; lia)) as (_ & E2 & E3).
    unfold flag_byte in E2, E3. rewrite !Z.lor_0_r in E2, E3.
    unfold unpack_hex_prefix. rewrite E2, E3.
    rewrite bytes_to_nibbles_pack_pairs; [done|done|].
    apply Nat.even_spec. by rewrite <- Nat.negb_odd, Ho.
Qed.

Lemma length_pack_hex_prefix ns is_leaf :
  length (pack_hex_prefix ns is_leaf) = S (length ns / 2).
Proof.
  assert (∀ k l, length l = (2 * k)%nat → length (pack_pairs l) = k) as Hp.
  { induction k as [|k IH]; intros l Hl; [destruct l; [done|cbn in Hl; lia]|].
    destruct l as [|a [|b l]]; cbn in *; try lia. f_equal. apply IH. lia. }
  unfold pack_hex_prefix. destruct (Nat.odd (length ns)) eqn:Ho.
  - apply Nat.odd_spec in Ho as [m Hm]. destruct ns as [|n0 rest]; [cbn in Hm; lia|].
    cbn [length] in *. f_equal. rewrite (Hp m) by lia.
    apply (Nat.div_unique _ 2 m 1); lia.
  - assert (Nat.even (length ns) = true) as [m Hm]%Nat.even_spec
      by (by rewrite <- Nat.negb_odd, Ho).
    cbn [length]. f_equal. rewrite (Hp m) by lia.
    apply (Nat.div_unique _ 2 m 0); lia.
Qed.

(** ** Nodes *)

Definition node_wf (n : Node) : Prop :=
  match n with
  | Empty => True
  | Leaf p v => nibbles p ∧ len p ≤ U32_MAX ∧ len v ≤ U32_MAX
  | Extension p h => nibbles p ∧ len p ≤ U32_MAX ∧ length h = 32%nat
  | Branch cs v =>
      length cs = 16%nat ∧
      Forall (λ c, match c with Some h => length h = 32%nat | None => True end) cs ∧
      match v with Some v => len v ≤ U32_MAX | None => True end
  end.

Lemma hp_len_small p is_leaf :
  len p ≤ U32_MAX → 0 ≤ len (pack_hex_prefix p is_leaf) ≤ U32_MAX.
Proof.
  intros Hp. rewrite length_pack_hex_prefix.
  assert (length p / 2 ≤ length p)%nat by (apply Nat.Div0.div_le_upper_bound; lia).
  destruct p as [|x p]; [cbn; ulia|].
  assert (S (length (x :: p) / 2) ≤ length (x :: p) ∨ length (x :: p) = 1)%nat as [?|E].
  { cbn [length]. destruct (length p) as [|m]; [by right|left].
    assert (S (S m) / 2 < S (S m))%nat by (apply Nat.div_lt; lia). lia. }
  - ulia.
  - rewrite E. cbn. ulia.
Qed.

Lemma deser_children_ser cs rest :
  Forall (λ c, match c with Some h => length h = 32%nat | None => True end) cs →
  deser_children (length cs) (concat (ser_child <$> cs) ++ rest) = Some (cs, rest).
Proof.
  induction 1 as [|c cs Hc _ IH]; [done|].
  cbn [length deser_children fmap list_fmap concat]. rewrite <- app_assoc.
  destruct c as [h|]; cbn [ser_child app].
  - change (1 =? 0) with false. change (1 =? 1) with true. cbn [andb].
    replace (33 <=? len _) with true
      by (symmetry; apply Z.leb_le; cbn [length]; rewrite length_app; lia).
    cbn [drop]. rewrite drop_app_length' by done. rewrite IH.
    change (1 :: h ++ ?k) with ([1] ++ h ++ k). by slices.
  - change (0 =? 0) with true. cbn [app]. by rewrite IH.
Qed.

Lemma ser_value_deser v :
  match v with Some v => len v ≤ U32_MAX | None => True end →
  ∃ b tl, ser_value v = b :: tl ∧
  (if b =? 0 then Some None
   else if (b =? 1) && (5 <=? len (b :: tl)) then
     match get_range 5 (5 + Z.to_nat (of_be (slice 1 5 (b :: tl)))) (b :: tl) with
     | Some v => Some (Some v) | None => None end
   else None) = Some v.
Proof.
  destruct v as [v|]; intros Hv; [|by eexists _, _].
  eexists 1, _. split; [reflexivity|]. change (1 =? 0) with false. cbn [andb].
  change (1 =? 1) with true.
  replace (5 <=? len _) with true
    by (symmetry; apply Z.leb_le; cbn [length]; autorewrite with l1simpl; lia).
  change (1 :: ?k) with ([1] ++ k). cbn [andb]. slices. rewrite as_u32_small by lia.
  rewrite of_be_be_bytes by ulia. unfold get_range.
  replace (_ <=? _)%nat with true by (symmetry; apply Nat.leb_le; len_tac).
  by slices.
Qed.

Lemma node_roundtrip n :
  node_wf n → deserialize_node (serialize_node n) = Some n.
Proof.
  destruct n as [|p v|p h|cs v]; intros Hn; [done|..].
  - destruct Hn as (Hp & Hpl & Hv). pose proof (hp_len_small p true Hpl) as Hh.
    unfold serialize_node, tag_payload. rewrite !as_u32_small by lia.
    set (hp := pack_hex_prefix p true) in *. cbn [app deserialize_node].
    change (1 =? 0) with false. change (1 =? 1) with true. cbn iota.
    replace (_ <? 4) with false by (symmetry; apply Z.ltb_ge; len_tac).
    rewrite slice_head by apply length_be_bytes. rewrite of_be_be_bytes by ulia.
    rewrite Nat2Z.id. replace (_ <? _)%nat with false by (symmetry; apply Nat.ltb_ge; len_tac).
    rewrite slice_mid by len_tac. subst hp. rewrite unpack_pack by done.
    cbn [negb]. rewrite app_assoc, slice_mid by len_tac.
    rewrite of_be_be_bytes by ulia. rewrite Nat2Z.id. unfold get_range.
    replace (_ <=? _)%nat with true by (symmetry; apply Nat.leb_le; len_tac).
    rewrite app_assoc, slice_tail by len_tac. done.
  - destruct Hn as (Hp & Hpl & Hv). pose proof (hp_len_small p false Hpl) as Hh.
    unfold serialize_node, tag_payload. rewrite !as_u32_small by lia.
    set (hp := pack_hex_prefix p false) in *. cbn [app deserialize_node].
    change (2 =? 0) with false. change (2 =? 1) with false. change (2 =? 2) with true. cbn iota.
    replace (_ <? 4) with false by (symmetry; apply Z.ltb_ge; len_tac).
    rewrite slice_head by apply length_be_bytes. rewrite of_be_be_bytes by ulia.
    rewrite Nat2Z.id. replace (_ <? _)%nat with false by (symmetry; apply Nat.ltb_ge; len_tac).
    rewrite slice_mid by len_tac. subst hp. rewrite unpack_pack by done.
    rewrite app_assoc, slice_tail by len_tac. done.
  - destruct Hn as (Hcs & Hf & Hv).
    unfold serialize_node, tag_payload. cbn [app deserialize_node].
    change (3 =? 0) with false. change (3 =? 1) with false. change (3 =? 2) with false.
    change (3 =? 3) with true. cbn iota.
    rewrite <- Hcs, deser_children_ser by done.
    destruct (ser_value_deser v Hv) as (b & tl & -> & E).
    destruct (b =? 0); [by simplify_eq|]. destruct ((b =? 1) && _); [|done].
    destruct (get_range _ _ _); by simplify_eq.
Qed.

(** Node serialisation loses nothing: [deserialize_node] returns the node
    that was serialised, for leaves, extensions and branches alike. *)
Theorem deserialize_serialize n :
  node_wf n → deserialize_node (serialize_node n) = Some n.
Proof. apply node_roundtrip. Qed.

Lemma deserialize_serialize_witness :
  let n := Branch (<[3%nat := Some (replicate 32 7)]> (replicate 16 None)) (Some [1; 2]) in
  node_wf n ∧ deserialize_node (serialize_node n) = Some n.
Proof.
  intros n. assert (node_wf n) as Hn.
  { split; [done|]. split; [by repeat constructor|]. by_eval. }
  split; [exact Hn|]. exact (deserialize_serialize n Hn).
Defined.
