(* ===== verification/Mpt.v ===== *)
(** The hexary Merkle Patricia trie of [state/src/mpt/mod.rs].

    The trie is a table of serialised nodes keyed by their hash, and a root
    hash.  Operations run in the state monad [M]: [load] and [store] are the
    two accesses to the table, a dangling hash or a corrupt node is a panic.
    [st_log] is ghost state: every payload ever given to [store]; statements
    use it to say that the hash has no collision on what was stored.

    The recursion of the code follows hashes; here it has fuel, one more than
    the number of nibbles of the key, which [MptRefine] shows to be enough.
    The [debug_assert]s of the code are those of debug builds and are left
    out; that they hold follows from the same invariant. *)

From S2P Require Import Prelude Types Codec Crypto MptNode.

#[local] Open Scope Z_scope.
#[local] Open Scope l1_scope.

(** ** The node table and its monad *)

Record Nodes := { st_nodes : gmap bytes bytes; st_log : list bytes }.

Inductive outcome (A : Type) : Type :=
| Done (a : A) (s : Nodes)
| Panicked (s : Nodes).
Arguments Done {A} a s.
Arguments Panicked {A} s.

Definition final {A : Type} (o : outcome A) : Nodes :=
  match o with Done _ s => s | Panicked s => s end.

Definition M (A : Type) : Type := Nodes → outcome A.

Definition m_ret {A : Type} (a : A) : M A := λ s, Done a s.
Definition m_panic {A : Type} : M A := λ s, Panicked s.
Definition m_bind {A B : Type} (m : M A) (f : A → M B) : M B :=
  λ s, match m s with Done a s' => f a s' | Panicked s' => Panicked s' end.

Notation "'let!' x ':=' e 'in' k" := (m_bind e (λ x, k))
  (at level 10, x name, e at level 200, k at level 200) : l1_scope.

Section trie.
Context `{Crypto}.

(** [Trie::load]: [expect("dangling node hash")], [expect("corrupt node")]. *)
Definition load (h : bytes) : M Node := λ s,
  match st_nodes s !! h with
  | None => Panicked s
  | Some b => match deserialize_node b with
              | None => Panicked s
              | Some n => Done n s
              end
  end.

Definition store (n : Node) : M bytes := λ s,
  Done (hash_node n)
    {| st_nodes := <[hash_node n := serialize_node n]> (st_nodes s);
       st_log := serialize_node n :: st_log s |}.

(** [key.starts_with(path)]. *)
Definition starts_with (key path : list Z) : bool := bool_decide (path `prefix_of` key).

(** [children[n]] and [children[n] = c]: a 16-element array. *)
Definition child (children : list (option bytes)) (n : Z) : M (option bytes) :=
  match children !! Z.to_nat n with Some c => m_ret c | None => m_panic end.
Definition set_child (children : list (option bytes)) (n : Z) (c : option bytes) :
    M (list (option bytes)) :=
  if bool_decide (Z.to_nat n < length children)%nat
  then m_ret (<[Z.to_nat n := c]> children) else m_panic.
Definition no_children : list (option bytes) := replicate 16 None.

(** The recursion follows hashes; [fuel] bounds it.  Every step of a
    well-formed trie consumes a nibble, so [S (length key)] is enough. *)
Fixpoint get_at (fuel : nat) (h : bytes) (key : list Z) : M (option bytes) :=
  match fuel with
  | O => m_panic
  | S fuel' =>
      let! n := load h in
      match n with
      | Empty => m_ret None
      | Leaf path value => m_ret (if bool_decide (path = key) then Some value else None)
      | Extension path next =>
          if starts_with key path then get_at fuel' next (drop (length path) key)
          else m_ret None
      | Branch children value =>
          match key with
          | [] => m_ret value
          | n :: rest =>
              let! c := child children n in
              match c with
              | Some c => get_at fuel' c rest
              | None => m_ret None
              end
          end
      end
  end.

Definition split_to_branch (a_rest : list Z) (a_val : bytes)
    (b_rest : list Z) (b_val : bytes) : M bytes :=
  let! st := match a_rest with
             | [] => m_ret (no_children, Some a_val)
             | n :: a_tl =>
                 let! h := store (Leaf a_tl a_val) in
                 let! cs := set_child no_children n (Some h) in
                 m_ret (cs, None)
             end in
  let! st := match b_rest with
             | [] => m_ret (st.1, Some b_val)
             | n :: b_tl =>
                 let! h := store (Leaf b_tl b_val) in
                 let! cs := set_child st.1 n (Some h) in
                 m_ret (cs, st.2)
             end in
  store (Branch st.1 st.2).

Fixpoint insert (fuel : nat) (h : bytes) (key : list Z) (value : bytes) : M bytes :=
  match fuel with
  | O => m_panic
  | S fuel' =>
      let! n := load h in
      match n with
      | Empty => store (Leaf key value)
      | Leaf path old_val =>
          if bool_decide (path = key) then store (Leaf path value) else
          let cp := common_prefix_len path key in
          let! branch_h := split_to_branch (drop cp path) old_val (drop cp key) value in
          if (cp =? 0)%nat then m_ret branch_h
          else store (Extension (take cp path) branch_h)
      | Extension path next =>
          if starts_with key path then
            let! new_next := insert fuel' next (drop (length path) key) value in
            store (Extension path new_next)
          else
          let cp := common_prefix_len path key in
          match drop cp path with
          | [] => m_panic
          | ext_nibble :: rest_path =>
              let! ext_child := match rest_path with
                                | [] => m_ret next
                                | _ => store (Extension rest_path next)
                                end in
              let! children := set_child no_children ext_nibble (Some ext_child) in
              match drop cp key with
              | [] =>
                  let! bh := store (Branch children (Some value)) in
                  if (cp =? 0)%nat then m_ret bh else store (Extension key bh)
              | key_nibble :: key_tl =>
                  let! leaf_h := store (Leaf key_tl value) in
                  let! children := set_child children key_nibble (Some leaf_h) in
                  let! bh := store (Branch children None) in
                  if (cp =? 0)%nat then m_ret bh
                  else store (Extension (take cp path) bh)
              end
          end
      | Branch children br_val =>
          match key with
          | [] => store (Branch children (Some value))
          | n :: rest =>
              let! c := child children n in
              let! new_c := insert fuel' (default (hash_node Empty) c) rest value in
              let! children := set_child children n (Some new_c) in
              store (Branch children br_val)
          end
      end
  end.

Definition prefix_child (nib : Z) (child_h : bytes) : M bytes :=
  let! n := load child_h in
  match n with
  | Leaf path value => store (Leaf ([nib] ++ path) value)
  | Extension path next => store (Extension ([nib] ++ path) next)
  | Branch _ _ => store (Extension [nib] child_h)
  | Empty => store Empty
  end.

Definition normalize_extension (path : list Z) (next : bytes) : M bytes :=
  let! n := load next in
  match n with
  | Empty => store Empty
  | Leaf lp value => store (Leaf (path ++ lp) value)
  | Extension ep nn => store (Extension (path ++ ep) nn)
  | Branch _ _ => store (Extension path next)
  end.

(** [children.iter().enumerate().filter_map(..)]. *)
Fixpoint present_from (i : nat) (children : list (option bytes)) : list (nat * bytes) :=
  match children with
  | [] => []
  | Some h :: cs => (i, h) :: present_from (S i) cs
  | None :: cs => present_from (S i) cs
  end.
Definition present (children : list (option bytes)) : list (nat * bytes) :=
  present_from 0 children.

Definition collapse_branch (children : list (option bytes)) (value : option bytes) :
    M (option bytes) :=
  match present children, value with
  | [], None => m_ret None
  | [], Some v => let! h := store (Leaf [] v) in m_ret (Some h)
  | [(n, child_h)], None =>
      let! h := prefix_child (Z.of_nat n) child_h in m_ret (Some h)
  | ps, _ =>
      let ch := foldl (λ ch p, <[p.1 := Some p.2]> ch) no_children ps in
      let! h := store (Branch ch value) in m_ret (Some h)
  end.

(** [None]: the subtree became empty. *)
Fixpoint remove (fuel : nat) (h : bytes) (key : list Z) : M (option bytes) :=
  match fuel with
  | O => m_panic
  | S fuel' =>
      let! n := load h in
      match n with
      | Empty => m_ret None
      | Leaf path value =>
          if bool_decide (path = key) then m_ret None
          else let! h := store (Leaf path value) in m_ret (Some h)
      | Extension path next =>
          if negb (starts_with key path) then
            let! h := store (Extension path next) in m_ret (Some h)
          else
          let! r := remove fuel' next (drop (length path) key) in
          match r with
          | None => m_ret None
          | Some new_next =>
              let! h := normalize_extension path new_next in m_ret (Some h)
          end
      | Branch children value =>
          match key with
          | [] =>
              match value with
              | None => let! h := store (Branch children None) in m_ret (Some h)
              | Some _ => collapse_branch children None
              end
          | n :: rest =>
              let! c := child children n in
              match c with
              | None => let! h := store (Branch children value) in m_ret (Some h)
              | Some ch =>
                  let! r := remove fuel' ch rest in
                  match r with
                  | None =>
                      let! children := set_child children n None in
                      collapse_branch children value
                  | Some new_c =>
                      let! children := set_child children n (Some new_c) in
                      let! h := store (Branch children value) in m_ret (Some h)
                  end
              end
          end
      end
  end.

Record Trie := { t_nodes : Nodes; t_root : bytes }.

Definition Trie_new : Trie :=
  {| t_nodes := {| st_nodes := {[hash_node Empty := serialize_node Empty]};
                   st_log := [serialize_node Empty] |};
     t_root := hash_node Empty |}.

Definition fuel_for (key : list Z) : nat := S (length key).

(** [None] is a panic. *)
Definition get (t : Trie) (key : bytes) : option (option bytes) :=
  let ns := bytes_to_nibbles key in
  match get_at (fuel_for ns) (t_root t) ns (t_nodes t) with
  | Done v _ => Some v
  | Panicked _ => None
  end.

Inductive trie_result := TOk (t : Trie) | TPanic (s : Nodes).

Definition result_log (r : trie_result) : list bytes :=
  match r with TOk t => st_log (t_nodes t) | TPanic s => st_log s end.

Definition put (t : Trie) (key value : bytes) : trie_result :=
  let ns := bytes_to_nibbles key in
  match insert (fuel_for ns) (t_root t) ns value (t_nodes t) with
  | Done h s => TOk {| t_nodes := s; t_root := h |}
  | Panicked s => TPanic s
  end.

Definition delete_key (t : Trie) (key : bytes) : trie_result :=
  match get t key with
  | None => TPanic (t_nodes t)
  | Some None => TOk t
  | Some (Some _) =>
      let ns := bytes_to_nibbles key in
      match remove (fuel_for ns) (t_root t) ns (t_nodes t) with
      | Panicked s => TPanic s
      | Done (Some h) s => TOk {| t_nodes := s; t_root := h |}
      | Done None s =>
          match store Empty s with
          | Done h s' => TOk {| t_nodes := s'; t_root := h |}
          | Panicked s' => TPanic s'
          end
      end
  end.

End trie.
