(* ===== verification/MptRep.v ===== *)
(** What a trie node denotes.

    [crep L kd h m]: in the node payloads [L], the hash [h] is the root of a
    subtrie in canonical shape (extensions are non-empty and lead to
    branches, branches have at least two occupants) whose bindings are [m], a
    function from nibble paths.  The main result is [crep_unique]: the shape,
    and so the root hash, is determined by the bindings. *)

From S2P Require Import Prelude Types Codec Crypto MptNode Mpt.

#[local] Open Scope Z_scope.

Definition pmap : Type := list Z → option bytes.

Definition upd (m : pmap) (key : list Z) (v : bytes) : pmap :=
  λ k, if decide (k = key) then Some v else m k.
Definition del (m : pmap) (key : list Z) : pmap :=
  λ k, if decide (k = key) then None else m k.
Definition sub (m : pmap) (n : Z) : pmap := λ k, m (n :: k).

Inductive kind := KLeaf | KExt | KBranch.

Definition occupants (cs : list (option bytes)) (v : option bytes) : nat :=
  (length (present cs) + match v with Some _ => 1 | None => 0 end)%nat.

Section rep.
Context `{Crypto}.

(** [n] was stored under [h]. *)
Definition stored (L : list bytes) (n : Node) (h : bytes) : Prop :=
  h = hash_node n ∧ serialize_node n ∈ L ∧ node_wf n.

Inductive crep (L : list bytes) : kind → bytes → pmap → Prop :=
| crep_leaf h p v m :
    stored L (Leaf p v) h →
    (∀ k, m k = if decide (k = p) then Some v else None) →
    crep L KLeaf h m
| crep_ext h p nx m m' :
    stored L (Extension p nx) h → p ≠ [] →
    crep L KBranch nx m' →
    (∀ k, m (p ++ k) = m' k) → (∀ k, ¬ p `prefix_of` k → m k = None) →
    crep L KExt h m
| crep_branch h cs v kd m :
    stored L (Branch cs v) h →
    (∀ i c, cs !! i = Some (Some c) → crep L (kd i) c (sub m (Z.of_nat i))) →
    (∀ i k, cs !! i = Some None → m (Z.of_nat i :: k) = None) →
    (∀ n k, ¬ nibble n → m (n :: k) = None) →
    m [] = v → (2 ≤ occupants cs v)%nat →
    crep L KBranch h m.

(** A whole trie may also be empty. *)
Definition trep (L : list bytes) (h : bytes) (m : pmap) : Prop :=
  (stored L Empty h ∧ ∀ k, m k = None) ∨ ∃ kd, crep L kd h m.

Lemma stored_mono L L' n h : L ⊆ L' → stored L n h → stored L' n h.
Proof. intros Hs (? & ? & ?). repeat split; auto. Qed.

Lemma crep_mono L L' kd h m : L ⊆ L' → crep L kd h m → crep L' kd h m.
Proof.
  intros Hs. induction 1.
  - eapply crep_leaf; eauto using stored_mono.
  - eapply crep_ext; eauto using stored_mono.
  - eapply crep_branch; eauto using stored_mono.
Qed.

Lemma crep_equiv L kd h m m' : crep L kd h m → (∀ k, m k = m' k) → crep L kd h m'.
Proof.
  intros Hc. revert m'. induction Hc as [h p v m Hst Hm|h p nx m m1 Hst Hp Hc IH Hin Hout
    |h cs v kd m Hst Hc IH Hnone Hnib Hv Hocc]; intros m' E.
  - eapply crep_leaf; [done|]. intros k. by rewrite <- E.
  - eapply crep_ext; [done..| |]; intros k; rewrite <- E; auto.
  - eapply crep_branch; [done|..|done].
    + intros i c Hi. apply (IH i c Hi). intros k. apply E.
    + intros i k Hi. rewrite <- E. auto.
    + intros n k Hn. rewrite <- E. auto.
    + by rewrite <- E.
Qed.

Lemma trep_equiv L h m m' : trep L h m → (∀ k, m k = m' k) → trep L h m'.
Proof.
  intros [[Hs Hm]|[kd Hc]] E.
  - left. split; [done|]. intros k. by rewrite <- E.
  - right. exists kd. by eapply crep_equiv.
Qed.

Lemma trep_mono L L' h m : L ⊆ L' → trep L h m → trep L' h m.
Proof.
  intros Hs [[Ht Hm]|[kd Hc]]; [left|right; exists kd].
  - split; [by eapply stored_mono|done].
  - by eapply crep_mono.
Qed.

End rep.

(** ** The occupied children *)

Lemma elem_present_from i cs j h :
  (j, h) ∈ present_from i cs ↔ ∃ k, j = (i + k)%nat ∧ cs !! k = Some (Some h).
Proof.
  revert i. induction cs as [|c cs IH]; intros i.
  - cbn. split; [intros []%not_elem_of_nil|intros (k & _ & Hk); by rewrite lookup_nil in Hk].
  - assert ((∃ k, j = (i + k)%nat ∧ (c :: cs) !! k = Some (Some h)) ↔
      (j = i ∧ c = Some h) ∨ (∃ k, j = (S i + k)%nat ∧ cs !! k = Some (Some h))) as ->.
    { split.
      - intros ([|k] & -> & Hk); [left|right; exists k]; simplify_eq/=; auto with lia.
      - intros [[-> ->]|(k & -> & Hk)]; [exists 0%nat|exists (S k)]; split; auto; lia. }
    destruct c as [x|]; cbn [present_from].
    + rewrite elem_of_cons, IH. naive_solver.
    + rewrite IH. naive_solver.
Qed.

Lemma elem_present cs j h : (j, h) ∈ present cs ↔ cs !! j = Some (Some h).
Proof. unfold present. rewrite elem_present_from. naive_solver. Qed.

Lemma present_insert_some cs i x c :
  cs !! i = Some c →
  length (present (<[i := Some x]> cs)) =
    (length (present cs) + match c with Some _ => 0 | None => 1 end)%nat.
Proof.
  unfold present. generalize 0%nat at 1 2. revert i.
  induction cs as [|c' cs IH]; intros i j Hi; [done|].
  destruct i as [|i]; cbn in Hi.
  - injection Hi as ->. change (<[0%nat := Some x]> (c :: cs)) with (Some x :: cs).
    destruct c; cbn [present_from length]; lia.
  - change (<[S i := Some x]> (c' :: cs)) with (c' :: <[i := Some x]> cs).
    destruct c'; cbn [present_from length];
      rewrite (IH i (S j) Hi); lia.
Qed.

Lemma present_insert_none cs i x :
  cs !! i = Some (Some x) →
  S (length (present (<[i := None]> cs))) = length (present cs).
Proof.
  unfold present. generalize 0%nat. revert i.
  induction cs as [|c' cs IH]; intros i j Hi; [done|].
  destruct i as [|i]; cbn in Hi; [by injection Hi as ->|].
  change (<[S i := None]> (c' :: cs)) with (c' :: <[i := None]> cs).
  destruct c'; cbn [present_from length];
    rewrite <- (IH i (S j) Hi); lia.
Qed.

(** Rebuilding the array from the occupied children gives it back. *)
Lemma rebuild_from pre cs :
  foldl (λ ch p, <[p.1 := Some p.2]> ch) (pre ++ replicate (length cs) None)
    (present_from (length pre) cs) = pre ++ cs.
Proof.
  revert pre. induction cs as [|c cs IH]; intros pre; [done|].
  specialize (IH (pre ++ [c])). rewrite length_app, <- !app_assoc in IH.
  cbn [length app] in IH. rewrite Nat.add_1_r in IH. rewrite <- IH.
  destruct c as [h|]; cbn [present_from foldl length replicate fst snd]; [|done].
  by rewrite insert_app_r_alt, Nat.sub_diag by done.
Qed.

Lemma rebuild_present cs :
  length cs = 16%nat →
  foldl (λ ch p, <[p.1 := Some p.2]> ch) no_children (present cs) = cs.
Proof. intros Hl. unfold no_children. rewrite <- Hl. apply (rebuild_from [] cs). Qed.

(** ** Canonical shape is unique *)

Section unique.
Context `{Crypto}.

Lemma occupied_child cs v :
  (1 ≤ occupants cs v)%nat → v ≠ None ∨ ∃ i c, cs !! i = Some (Some c).
Proof.
  unfold occupants. destruct v as [v|]; [by left|]. right.
  destruct (present cs) as [|[i c] ps] eqn:E; [cbn in *; lia|].
  exists i, c. apply elem_present. rewrite E. constructor.
Qed.

Lemma crep_inhabited L kd h m : crep L kd h m → ∃ k, m k ≠ None.
Proof.
  induction 1 as [h p v m Hst Hm|h p nx m m1 Hst Hp Hc [k IH] Hin Hout
    |h cs v kd m Hst Hc IH Hnone Hnib Hv Hocc].
  - exists p. rewrite Hm. by rewrite decide_True.
  - exists (p ++ k). by rewrite Hin.
  - destruct (occupied_child cs v) as [Hs|(i & c & Hi)]; [lia|exists []; congruence|].
    destruct (IH i c Hi) as [k Hk]. by exists (Z.of_nat i :: k).
Qed.

(** No non-empty prefix is common to all keys of a branch. *)
Lemma branch_spread L h m n :
  crep L KBranch h m → ∃ k, m k ≠ None ∧ ∀ r, k ≠ n :: r.
Proof.
  intros Hc. inversion Hc as [| |h' cs v kd m' Hst Hch Hnone Hnib Hv Hocc]; subst.
  destruct (m []) as [v|] eqn:E0; [exists []; split; [congruence|done]|].
  unfold occupants in Hocc.
  destruct (present cs) as [|[i c] [|[j d] ps]] eqn:E; cbn in Hocc; try lia.
  assert (NoDup (present cs)) as Hnd.
  { unfold present. generalize 0%nat. clear. induction cs as [|[c|] cs IH]; intros i; cbn;
      [constructor| |done]. constructor; [|done].
    intros (k & ? & _)%elem_present_from. lia. }
  assert (cs !! i = Some (Some c)) as Hi by (apply elem_present; rewrite E; constructor).
  assert (cs !! j = Some (Some d)) as Hj by (apply elem_present; rewrite E; repeat constructor).
  assert (i ≠ j) as Hij.
  { intros ->. rewrite Hi in Hj. simplify_eq. rewrite E in Hnd.
    apply NoDup_cons in Hnd as [[] _]. constructor. }
  destruct (decide (n = Z.of_nat i)) as [->|Hn].
  - destruct (crep_inhabited _ _ _ _ (Hch j d Hj)) as [k Hk].
    exists (Z.of_nat j :: k). split; [done|]. intros r [=]. lia.
  - destruct (crep_inhabited _ _ _ _ (Hch i c Hi)) as [k Hk].
    exists (Z.of_nat i :: k). split; [done|]. intros r [=]. congruence.
Qed.

(** A key of [m] under an extension starts with its path. *)
Lemma ext_keys (m : pmap) p : (∀ k, ¬ p `prefix_of` k → m k = None) →
  ∀ k, m k ≠ None → p `prefix_of` k.
Proof. intros Hout k Hk. destruct (decide (p `prefix_of` k)); [done|]. by destruct Hk; auto. Qed.

(** Of two branches below the paths [p] and [q], neither path extends the
    other strictly. *)
Lemma ext_path_le L h (m : pmap) m1 p q :
  crep L KBranch h m1 → (∀ k, m (p ++ k) = m1 k) →
  (∀ k, m k ≠ None → q `prefix_of` k) → p `prefix_of` q → p = q.
Proof.
  intros Hb Hp Hq [[|x r] ->]; [by rewrite app_nil_r|].
  destruct (branch_spread _ _ _ x Hb) as (k & Hk & Hne). exfalso.
  rewrite <- Hp in Hk. apply Hq in Hk as [z Ez]. rewrite <- app_assoc in Ez.
  apply app_inv_head in Ez. by apply (Hne (r ++ z)).
Qed.

Lemma prefixes_comparable {A} (p q k : list A) :
  p `prefix_of` k → q `prefix_of` k → p `prefix_of` q ∨ q `prefix_of` p.
Proof. intros. by eapply prefix_weak_total. Qed.

Lemma ext_path_unique L L' h h' (m m' : pmap) m1 m1' p q :
  crep L KBranch h m1 → crep L' KBranch h' m1' →
  (∀ k, m (p ++ k) = m1 k) → (∀ k, m' (q ++ k) = m1' k) →
  (∀ k, ¬ p `prefix_of` k → m k = None) → (∀ k, ¬ q `prefix_of` k → m' k = None) →
  (∀ k, m k = m' k) → p = q.
Proof.
  intros Hb Hb' Hp Hq Hop Hoq E.
  destruct (crep_inhabited _ _ _ _ Hb) as [k Hk]. rewrite <- Hp in Hk.
  assert (∀ k, m k ≠ None → q `prefix_of` k) as Hq'.
  { intros k' Hk'. rewrite E in Hk'. by apply (ext_keys m'). }
  assert (∀ k, m' k ≠ None → p `prefix_of` k) as Hp'.
  { intros k' Hk'. rewrite <- E in Hk'. by apply (ext_keys m). }
  assert (p `prefix_of` q ∨ q `prefix_of` p) as [Hpq|Hqp].
  { apply (prefixes_comparable p q (p ++ k)); [by apply prefix_app_r|by apply Hq']. }
  - by eapply (ext_path_le L h m m1).
  - symmetry. eapply (ext_path_le L' h' m' m1'); eauto.
Qed.

Lemma leaf_not_spread L h (m : pmap) m1 p q v :
  crep L KBranch h m1 → (∀ k, m (q ++ k) = m1 k) →
  (∀ k, m k = if decide (k = p) then Some v else None) → False.
Proof.
  intros Hb Hq Hm.
  assert (∀ k, m1 k ≠ None → q ++ k = p) as Honly.
  { intros k Hk. rewrite <- Hq, Hm in Hk. by case_decide. }
  destruct (crep_inhabited _ _ _ _ Hb) as [[|x k] Hk].
  - pose proof (Honly _ Hk) as E.
    inversion Hb as [| |? cs v' kd ? ? Hch ? ? Hv Hocc]; subst.
    unfold occupants in Hocc.
    destruct (present cs) as [|[i c] ps] eqn:Ep.
    { cbn in Hocc. destruct (m1 []); lia. }
    destruct (crep_inhabited _ _ _ _ (Hch i c ltac:(apply elem_present; rewrite Ep; constructor)))
      as [k2 Hk2]. pose proof (Honly _ Hk2) as E2.
    by apply app_inv_head in E2.
  - destruct (branch_spread _ _ _ x Hb) as (k' & Hk' & Hne).
    pose proof (Honly _ Hk) as E. pose proof (Honly _ Hk') as E'.
    rewrite <- E in E'. apply app_inv_head in E'. by apply (Hne k).
Qed.

Lemma ext_not_branch L h m p :
  crep L KBranch h m → p ≠ [] → (∀ k, ¬ p `prefix_of` k → m k = None) → False.
Proof.
  intros Hb Hp Hout. destruct p as [|x p]; [done|].
  destruct (branch_spread _ _ _ x Hb) as (k & Hk & Hne).
  apply (ext_keys _ _ Hout) in Hk as [r ->]. by apply (Hne (p ++ r)).
Qed.

Lemma branch_children_eq cs cs' (m m' : pmap) L L' kd kd' :
  length cs = 16%nat → length cs' = 16%nat → (∀ k, m k = m' k) →
  (∀ i c, cs !! i = Some (Some c) → crep L (kd i) c (sub m (Z.of_nat i))) →
  (∀ i c, cs' !! i = Some (Some c) → crep L' (kd' i) c (sub m' (Z.of_nat i))) →
  (∀ i k, cs !! i = Some None → m (Z.of_nat i :: k) = None) →
  (∀ i k, cs' !! i = Some None → m' (Z.of_nat i :: k) = None) →
  (∀ i c c', cs !! i = Some (Some c) → cs' !! i = Some (Some c') → c = c') →
  cs = cs'.
Proof.
  intros Hl Hl' E Hc Hc' Hn Hn' Heq. apply list_eq_same_length with 16%nat; [done..|].
  intros i c c' _ Hi Hi'. destruct c as [c|], c' as [c'|]; auto.
  - f_equal. by eapply Heq.
  - exfalso. destruct (crep_inhabited _ _ _ _ (Hc i c Hi)) as [k Hk]. unfold sub in Hk.
    rewrite E, Hn' in Hk by done. done.
  - exfalso. destruct (crep_inhabited _ _ _ _ (Hc' i c' Hi')) as [k Hk]. unfold sub in Hk.
    rewrite <- E, Hn in Hk by done. done.
Qed.

Lemma crep_unique L L' kd kd' h h' m m' :
  crep L kd h m → crep L' kd' h' m' → (∀ k, m k = m' k) → h = h'.
Proof.
  intros Hc. revert kd' h' m'.
  induction Hc as [h p v m Hst Hm|h p nx m m1 Hst Hp Hc IH Hin Hout
    |h cs v kd m Hst Hc IH Hnone Hnib Hv Hocc]; intros kd' h' m' Hc' E.
  - destruct Hc' as [h' p' v' m' Hst' Hm'|h' p' nx' m' m1' Hst' Hp' Hc' Hin' Hout'
      |h' cs' v' kd' m' Hst' Hc' Hnone' Hnib' Hv' Hocc'].
    + pose proof (E p) as Ep. rewrite Hm, Hm', decide_True in Ep by done.
      case_decide; simplify_eq. by destruct Hst as [-> _], Hst' as [-> _].
    + destruct (leaf_not_spread L' nx' m m1' p p' v Hc'); [|done]. intros k. by rewrite E.
    + destruct (leaf_not_spread L' h' m m' p [] v); [by eapply crep_branch|done|done].
  - destruct Hc' as [h' p' v' m' Hst' Hm'|h' p' nx' m' m1' Hst' Hp' Hc' Hin' Hout'
      |h' cs' v' kd' m' Hst' Hc' Hnone' Hnib' Hv' Hocc'].
    + destruct (leaf_not_spread L nx m' m1 p' p v' Hc); [|done]. intros k. by rewrite <- E.
    + assert (p = p') as <- by (by eapply (ext_path_unique L L' nx nx' m m' m1 m1')).
      assert (nx = nx') as <-.
      { eapply IH; [done|]. intros k. by rewrite <- Hin, <- Hin', E. }
      by destruct Hst as [-> _], Hst' as [-> _].
    + destruct (ext_not_branch L' h' m' p); [by eapply crep_branch|done|].
      intros k Hk. rewrite <- E. auto.
  - destruct Hc' as [h' p' v' m' Hst' Hm'|h' p' nx' m' m1' Hst' Hp' Hc' Hin' Hout'
      |h' cs' v' kd' m' Hst' Hc' Hnone' Hnib' Hv' Hocc'].
    + destruct (leaf_not_spread L h m' m p' [] v'); [by eapply crep_branch|by intros|done].
    + destruct (ext_not_branch L h m p'); [by eapply crep_branch|done|].
      intros k Hk. rewrite E. auto.
    + assert (v = v') as <- by (rewrite <- Hv, <- Hv'; apply E).
      assert (cs = cs') as <-.
      { destruct Hst as (_ & _ & Hl & _), Hst' as (_ & _ & Hl' & _).
        eapply (branch_children_eq cs cs' m m' L L' kd kd'); eauto. }
      by destruct Hst as [-> _], Hst' as [-> _].
Qed.

Lemma trep_unique L L' h h' m m' :
  trep L h m → trep L' h' m' → (∀ k, m k = m' k) → h = h'.
Proof.
  intros [[Hs Hm]|[kd Hc]] [[Hs' Hm']|[kd' Hc']] E.
  - by destruct Hs as [-> _], Hs' as [-> _].
  - destruct (crep_inhabited _ _ _ _ Hc') as [k Hk]. by rewrite <- E, Hm in Hk.
  - destruct (crep_inhabited _ _ _ _ Hc) as [k Hk]. by rewrite E, Hm' in Hk.
  - by eapply crep_unique.
Qed.

End unique.
