(* ===== verification/MptRefine.v ===== *)
(** The trie implements a finite map.

    [runs m s Q] is the weakest precondition of a trie operation under the
    proviso that the hash has no collision on the payloads stored by the end
    of the run: the operation returns (no dangling hash, no corrupt node, no
    index out of range, fuel not exhausted), and [Q] holds.  The rules for
    [load], [store] and sequencing give one lemma per operation; the two
    theorems at the end compose them over any sequence of operations. *)

From S2P Require Import Prelude Types Codec Crypto MptNode Mpt MptRep.

#[local] Open Scope Z_scope.
#[local] Open Scope l1_scope.

(** ** Pieces of a map *)

Definition pre (p : list Z) (m : pmap) : pmap :=
  λ k, if decide (p `prefix_of` k) then m (drop (length p) k) else None.

Lemma pre_app p m k : pre p m (p ++ k) = m k.
Proof. unfold pre. rewrite decide_True by by apply prefix_app_r. by rewrite drop_app_length. Qed.

Lemma pre_out p m k : ¬ p `prefix_of` k → pre p m k = None.
Proof. intros. unfold pre. by rewrite decide_False. Qed.

Lemma pre_pre p q m k : pre p (pre q m) k = pre (p ++ q) m k.
Proof.
  destruct (decide (p `prefix_of` k)) as [[r ->]|Hn].
  - rewrite pre_app. destruct (decide (q `prefix_of` r)) as [[z ->]|Hn].
    + by rewrite pre_app, app_assoc, pre_app.
    + rewrite !pre_out; [done| |done]. intros [z Hz]. apply Hn. exists z.
      rewrite <- app_assoc in Hz. by apply app_inv_head in Hz.
  - rewrite !pre_out; [done| |done]. intros [z ->]. apply Hn.
    rewrite <- app_assoc. by apply prefix_app_r.
Qed.

(** A branch value and one child; two children; a single binding. *)
Definition kid_map (n : Z) (m : pmap) (v : option bytes) : pmap :=
  λ k, match k with
       | [] => v
       | x :: k => if decide (x = n) then m k else None
       end.

Definition kid2_map (a b : Z) (ma mb : pmap) : pmap :=
  λ k, match k with
       | [] => None
       | x :: r => if decide (x = b) then mb r else if decide (x = a) then ma r else None
       end.

Definition leaf_map (p : list Z) (v : bytes) : pmap :=
  λ k, if decide (k = p) then Some v else None.

Lemma pre_equiv p m m' : (∀ k, m k = m' k) → ∀ k, pre p m k = pre p m' k.
Proof. intros E k. unfold pre. by case_decide. Qed.

Lemma upd_equiv m m' key v : (∀ k, m k = m' k) → ∀ k, upd m key v k = upd m' key v k.
Proof. intros E k. unfold upd. by case_decide. Qed.

Lemma upd_pre p m key v k : upd (pre p m) (p ++ key) v k = pre p (upd m key v) k.
Proof.
  unfold upd. destruct (decide (p `prefix_of` k)) as [[r ->]|Hn].
  - rewrite !pre_app. repeat case_decide; simplify_list_eq; done.
  - rewrite !pre_out by done. rewrite decide_False; [done|]. intros ->. apply Hn.
    by apply prefix_app_r.
Qed.

Lemma ext_is_pre (m m1 : pmap) p :
  (∀ k, m (p ++ k) = m1 k) → (∀ k, ¬ p `prefix_of` k → m k = None) → ∀ k, m k = pre p m1 k.
Proof.
  intros Hin Hout k. destruct (decide (p `prefix_of` k)) as [[r ->]|Hn].
  - by rewrite pre_app.
  - by rewrite pre_out, Hout.
Qed.

Lemma leaf_map_pre c a v k : leaf_map (c ++ a) v k = pre c (leaf_map a v) k.
Proof.
  pose proof (upd_pre c (λ _, None) a v k) as E. unfold upd in E at 1.
  rewrite <- (pre_equiv c (upd (λ _, None) a v)) by done. rewrite <- E.
  unfold leaf_map. case_decide; [done|]. unfold pre. by case_decide.
Qed.

Lemma pre_cons_kid e p m k : pre (e :: p) m k = kid_map e (pre p m) None k.
Proof.
  change (e :: p) with ([e] ++ p). rewrite <- pre_pre. destruct k as [|x k]; [done|]. cbn.
  unfold pre at 1. case_decide as Hx.
  - destruct Hx as [r [= -> ->]]. by rewrite decide_True.
  - rewrite decide_False; [done|]. intros ->. apply Hx. by exists k.
Qed.

Lemma upd_kid_nil e m v k : upd (kid_map e m None) [] v k = kid_map e m (Some v) k.
Proof. unfold upd. by destruct k. Qed.

Lemma upd_kid_cons e m y b v k :
  e ≠ y → upd (kid_map e m None) (y :: b) v k = kid2_map e y m (leaf_map b v) k.
Proof.
  intros Hne. unfold upd, kid2_map, leaf_map. destruct k as [|x k]; [done|]. cbn.
  repeat case_decide; congruence.
Qed.

(** Cases of a path [k] with respect to the prefix [p]. *)
Ltac prefix_cases p k :=
  let r := fresh "r" in let Hn := fresh "Hn" in
  destruct (decide (p `prefix_of` k)) as [[r ->]|Hn]; [rewrite ?pre_app|rewrite ?pre_out by done].

Lemma common_prefix_split p q :
  ∃ c a b, p = c ++ a ∧ q = c ++ b ∧ common_prefix_len p q = length c ∧
    ∀ x a' y b', a = x :: a' → b = y :: b' → x ≠ y.
Proof.
  revert q. induction p as [|x p IH]; intros q.
  { exists [], [], q. repeat split; done. }
  destruct q as [|y q].
  { exists [], (x :: p), []. repeat split; done. }
  cbn [common_prefix_len]. destruct (Z.eqb_spec x y) as [->|Hne].
  - destruct (IH q) as (c & a & b & -> & -> & -> & Hd). by exists (y :: c), a, b.
  - exists [], (x :: p), (y :: q). repeat split. intros. congruence.
Qed.

(** Keys the code can store: nibbles, with a length that fits the encoding. *)
Definition bounded (m : pmap) : Prop := ∀ k, m k ≠ None → nibbles k ∧ len k ≤ U32_MAX.

Lemma bounded_sub m n : bounded m → bounded (sub m n).
Proof.
  intros Hb k Hk. destruct (Hb _ Hk) as [[_ Hn]%Forall_cons Hl].
  split; [done|]. cbn in Hl. lia.
Qed.

Lemma bounded_suffix m m1 p : bounded m → (∀ k, m (p ++ k) = m1 k) → bounded m1.
Proof.
  intros Hb Hp k Hk. rewrite <- Hp in Hk. destruct (Hb _ Hk) as [[_ Hn]%Forall_app Hl].
  split; [done|]. rewrite length_app in Hl. lia.
Qed.

Lemma bounded_equiv m m' : bounded m → (∀ k, m k = m' k) → bounded m'.
Proof. intros Hb E k Hk. apply Hb. by rewrite E. Qed.

Lemma bounded_del m key : bounded m → bounded (del m key).
Proof. intros Hb k Hk. apply Hb. unfold del in Hk. by case_decide. Qed.

Section wp.
Context `{!Crypto, !CryptoLaws}.

(** ** The hash on the stored payloads *)

Definition collision_free (L : list bytes) : Prop :=
  ∀ x y, x ∈ L → y ∈ L → hash_encoded x = hash_encoded y → x = y.

Lemma collision_free_sub L L' : L ⊆ L' → collision_free L' → collision_free L.
Proof. intros Hs Hc x y Hx Hy. apply Hc; auto. Qed.

Definition good (s : Nodes) : Prop :=
  ∀ b, b ∈ st_log s → st_nodes s !! hash_encoded b = Some b.

Lemma length_hash_node n : length (hash_node n) = 32%nat.
Proof. apply blake3_array. Qed.

(** ** Operations only add to the log *)

Definition grows {A} (m : M A) : Prop := ∀ s, st_log s ⊆ st_log (final (m s)).

Lemma grows_ret {A} (a : A) : grows (m_ret a).
Proof. by intros s b. Qed.
Lemma grows_panic {A} : grows (@m_panic A).
Proof. by intros s b. Qed.
Lemma grows_store n : grows (store n).
Proof. intros s b Hb. cbn. by constructor. Qed.
Lemma grows_load h : grows (load h).
Proof. intros s b. unfold load. by repeat case_match. Qed.
Lemma grows_child cs n : grows (child cs n).
Proof. intros s b. unfold child. by case_match. Qed.
Lemma grows_set_child cs n c : grows (set_child cs n c).
Proof. intros s b. unfold set_child. by case_match. Qed.
Lemma grows_bind {A B} (m : M A) (f : A → M B) :
  grows m → (∀ a, grows (f a)) → grows (m_bind m f).
Proof.
  intros Hm Hf s. unfold m_bind. specialize (Hm s).
  destruct (m s) as [a s'|s']; [|done]. etrans; [exact Hm|apply Hf].
Qed.

Ltac grow :=
  repeat first
    [ eassumption | apply grows_ret | apply grows_panic | apply grows_store | apply grows_load
    | apply grows_child | apply grows_set_child | apply grows_bind | progress intros
    | match goal with |- grows (match ?x with _ => _ end) => destruct x end
    | match goal with |- grows (if ?x then _ else _) => destruct x end
    | solve [auto with l1] ].

Lemma grows_split a av b bv : grows (split_to_branch a av b bv).
Proof. unfold split_to_branch. grow. Qed.
Lemma grows_insert fuel h key v : grows (insert fuel h key v).
Proof.
  revert h key v. induction fuel as [|fuel IH]; intros h key v; cbn [insert]; grow; try apply IH.
  all: try apply grows_split.
Qed.
Lemma grows_normalize p h : grows (normalize_extension p h).
Proof. unfold normalize_extension. grow. Qed.
Lemma grows_prefix_child n h : grows (prefix_child n h).
Proof. unfold prefix_child. grow. Qed.
Lemma grows_collapse cs v : grows (collapse_branch cs v).
Proof. unfold collapse_branch. grow; apply grows_prefix_child. Qed.
Lemma grows_remove fuel h key : grows (remove fuel h key).
Proof.
  revert h key. induction fuel as [|fuel IH]; intros h key; cbn [remove]; grow; try apply IH.
  all: try apply grows_normalize || apply grows_collapse.
Qed.
#[local] Hint Resolve grows_ret grows_store grows_load grows_child grows_set_child grows_split
  grows_insert grows_normalize grows_prefix_child grows_collapse grows_remove : l1.

(** ** Weakest preconditions *)

Definition runs {A} (m : M A) (s : Nodes) (Q : A → Nodes → Prop) : Prop :=
  collision_free (st_log (final (m s))) →
  ∃ a s', m s = Done a s' ∧ good s' ∧ st_log s ⊆ st_log s' ∧ Q a s'.

Lemma runs_ret {A} (a : A) s (Q : A → Nodes → Prop) : good s → Q a s → runs (m_ret a) s Q.
Proof. intros Hg HQ _. by exists a, s. Qed.

Lemma runs_bind {A B} (m : M A) (f : A → M B) s Q1 Q :
  runs m s Q1 → (∀ a, grows (f a)) →
  (∀ a s1, good s1 → st_log s ⊆ st_log s1 → Q1 a s1 → runs (f a) s1 Q) →
  runs (m_bind m f) s Q.
Proof.
  intros Hm Hf Hk Hcf. unfold m_bind in Hcf |- *.
  assert (collision_free (st_log (final (m s)))) as Hcf1.
  { destruct (m s) as [a s1|s1] eqn:E; [|done].
    eapply collision_free_sub; [|exact Hcf]. apply Hf. }
  destruct (Hm Hcf1) as (a & s1 & E & Hg1 & Hs1 & HQ1). rewrite E in Hcf |- *.
  destruct (Hk a s1 Hg1 Hs1 HQ1 Hcf) as (b & s2 & E2 & Hg2 & Hs2 & HQ).
  exists b, s2. repeat split; auto. by etrans.
Qed.

Lemma runs_conseq {A} (m : M A) s (Q Q' : A → Nodes → Prop) :
  runs m s Q → (∀ a s', good s' → st_log s ⊆ st_log s' → Q a s' → Q' a s') → runs m s Q'.
Proof. intros Hm HQ Hcf. destruct (Hm Hcf) as (a & s' & ? & ? & ? & ?). exists a, s'. auto 10. Qed.

Lemma runs_store n s (Q : bytes → Nodes → Prop) :
  good s → node_wf n →
  (∀ s', good s' → st_log s ⊆ st_log s' → stored (st_log s') n (hash_node n) →
    Q (hash_node n) s') →
  runs (store n) s Q.
Proof.
  intros Hg Hn HQ Hcf. cbn in Hcf. eexists _, _. split; [reflexivity|].
  assert (good {| st_nodes := <[hash_node n := serialize_node n]> (st_nodes s);
                  st_log := serialize_node n :: st_log s |}) as Hg'.
  { intros b Hb. cbn in *. destruct (decide (hash_encoded b = hash_node n)) as [E|E].
    - rewrite E, lookup_insert_eq. f_equal. symmetry.
      apply Hcf; [done|constructor|exact E].
    - rewrite lookup_insert_ne by done. apply Hg. apply elem_of_cons in Hb as [->|Hb]; [|done].
      by destruct E. }
  assert (st_log s ⊆ serialize_node n :: st_log s) as Hsub by (intros b; by constructor).
  split; [done|]. split; [exact Hsub|]. apply HQ; [done|exact Hsub|].
  split; [done|]. split; [constructor|done].
Qed.

Lemma runs_store_then {A} n s (f : bytes → M A) Q :
  good s → node_wf n → (∀ h, grows (f h)) →
  (∀ h s1, good s1 → st_log s ⊆ st_log s1 → stored (st_log s1) n h → runs (f h) s1 Q) →
  runs (m_bind (store n) f) s Q.
Proof.
  intros Hg Hn Hf Hk.
  apply (runs_bind _ _ _ (λ h s', stored (st_log s') n h)); [by apply runs_store|done|done].
Qed.

Lemma load_stored n h s :
  good s → stored (st_log s) n h → load h s = Done n s.
Proof.
  intros Hg (-> & Hin & Hn). unfold load.
  change (hash_node n) with (hash_encoded (serialize_node n)).
  by rewrite (Hg _ Hin), node_roundtrip.
Qed.

Lemma runs_load {A} n h s (f : Node → M A) Q :
  good s → stored (st_log s) n h → runs (f n) s Q → runs (m_bind (load h) f) s Q.
Proof.
  intros Hg Hst Hr. unfold runs, m_bind. rewrite (load_stored n h s Hg Hst). exact Hr.
Qed.

Lemma runs_set_child {A} cs n c s (f : list (option bytes) → M A) Q :
  length cs = 16%nat → nibble n →
  runs (f (<[Z.to_nat n := c]> cs)) s Q → runs (m_bind (set_child cs n c) f) s Q.
Proof.
  intros Hl Hn Hr. unfold runs, m_bind, set_child. unfold nibble in Hn.
  rewrite bool_decide_true by lia. exact Hr.
Qed.

Lemma runs_child {A} cs n c s (f : option bytes → M A) Q :
  cs !! Z.to_nat n = Some c → runs (f c) s Q → runs (m_bind (child cs n) f) s Q.
Proof. intros Hc Hr. unfold runs, m_bind, child. rewrite Hc. exact Hr. Qed.

(** ** The children of a branch *)

Definition kids (L : list bytes) (cs : list (option bytes)) (m : pmap) : Prop :=
  ∀ i c, cs !! i = Some c →
    match c with
    | Some c => ∃ kd, crep L kd c (sub m (Z.of_nat i))
    | None => ∀ k, m (Z.of_nat i :: k) = None
    end.

Lemma finite_choice (P : nat → kind → Prop) n :
  (∀ i, (i < n)%nat → ∃ kd, P i kd) → ∃ f, ∀ i, (i < n)%nat → P i (f i).
Proof.
  induction n as [|n IH]; intros Hex; [exists (λ _, KLeaf); lia|].
  destruct IH as [f Hf]; [auto with lia|]. destruct (Hex n) as [kd Hkd]; [lia|].
  exists (λ i, if decide (i = n) then kd else f i). intros i Hi.
  case_decide; [by subst|]. apply Hf. lia.
Qed.

Lemma crep_branch_kids L cs v h m :
  stored L (Branch cs v) h → kids L cs m → (∀ n k, ¬ nibble n → m (n :: k) = None) →
  m [] = v → (2 ≤ occupants cs v)%nat → crep L KBranch h m.
Proof.
  intros Hst Hk Hnib Hv Hocc.
  destruct (finite_choice (λ i kd, ∀ c, cs !! i = Some (Some c) → crep L kd c (sub m (Z.of_nat i)))
    (length cs)) as [kd Hkd].
  { intros i _. destruct (cs !! i) as [[c|]|] eqn:E; [|by exists KLeaf..].
    destruct (Hk i _ E) as [kd Hc]. exists kd. intros c' ?. by simplify_eq. }
  apply crep_branch with cs v kd; auto.
  - intros i c Hi. apply Hkd; [by eapply lookup_lt_Some|done].
  - intros i k Hi. by apply (Hk i None Hi).
Qed.

Lemma kids_of_branch L cs kd m :
  (∀ i c, cs !! i = Some (Some c) → crep L (kd i) c (sub m (Z.of_nat i))) →
  (∀ i k, cs !! i = Some None → m (Z.of_nat i :: k) = None) → kids L cs m.
Proof. intros Hc Hn i [c|] Hi; [by exists (kd i); apply Hc|]. intros k. by apply Hn. Qed.

Lemma kids_mono L L' cs m : L ⊆ L' → kids L cs m → kids L' cs m.
Proof.
  intros Hs Hk i [c|] Hi; [|apply (Hk i None Hi)].
  destruct (Hk i _ Hi) as [kd Hc]. exists kd. by eapply crep_mono.
Qed.

Lemma kids_none L m : (∀ n k, m (n :: k) = None) → kids L no_children m.
Proof. intros Hm i c [-> _]%lookup_replicate_1 k. apply Hm. Qed.

Lemma kids_set L cs m m' n (c : option bytes) :
  kids L cs m → nibble n →
  match c with
  | Some c => ∃ kd, crep L kd c (sub m' n)
  | None => ∀ k, m' (n :: k) = None
  end →
  (∀ x k, x ≠ n → m' (x :: k) = m (x :: k)) →
  kids L (<[Z.to_nat n := c]> cs) m'.
Proof.
  intros Hk Hn Hc Hother i d Hi. unfold nibble in Hn.
  apply list_lookup_insert_Some in Hi as [(<- & -> & _)|[Hne Hi]].
  { rewrite Z2Nat.id by lia. exact Hc. }
  assert (Z.of_nat i ≠ n) as Hx by lia. specialize (Hk i d Hi).
  destruct d as [d|].
  - destruct Hk as [kd Hd]. exists kd. eapply crep_equiv; [exact Hd|].
    intros k. symmetry. by apply Hother.
  - intros k. by rewrite Hother.
Qed.

Definition slots_ok (cs : list (option bytes)) : Prop :=
  length cs = 16%nat ∧
  Forall (λ c, match c with Some h => length h = 32%nat | None => True end) cs.

Lemma slots_none : slots_ok no_children.
Proof. split; [done|]. by apply Forall_replicate. Qed.

Lemma slots_set cs n c :
  slots_ok cs → match c with Some h => length h = 32%nat | None => True end →
  slots_ok (<[n := c]> cs).
Proof.
  intros [Hl Hf] Hc. split; [by rewrite length_insert|]. by apply Forall_insert.
Qed.

Lemma crep_hash_length L kd h m : crep L kd h m → length h = 32%nat.
Proof. by destruct 1 as [??? ? [-> _]|???? ? [-> _]|???? ? [-> _]]; apply length_hash_node. Qed.

Lemma slots_lookup cs n : slots_ok cs → nibble n → ∃ c, cs !! Z.to_nat n = Some c.
Proof. intros [Hl _] Hn. apply lookup_lt_is_Some_2. unfold nibble in Hn. lia. Qed.

(** ** Lengthening a path *)

Lemma crep_pre_ext L p nx h m :
  stored L (Extension p nx) h → p ≠ [] → crep L KBranch nx m → crep L KExt h (pre p m).
Proof.
  intros Hst Hp Hc. eapply crep_ext; [done|done|done|..].
  - intros k. apply pre_app.
  - intros k. apply pre_out.
Qed.

(** A branch, under an extension if the common prefix is not empty. *)
Lemma runs_wrap c cp bh s m :
  good s → nibbles c → len c ≤ U32_MAX → length c = cp → crep (st_log s) KBranch bh m →
  runs (if (cp =? 0)%nat then m_ret bh else store (Extension c bh)) s
    (λ h' s', ∃ kd, crep (st_log s') kd h' (pre c m) ∧ (c = [] → kd = KBranch)).
Proof.
  intros Hg Hn Hl <- Hc. destruct c as [|x c]; cbn [length Nat.eqb].
  - apply runs_ret; [done|]. exists KBranch. split; [|done].
    eapply crep_equiv; [exact Hc|]. intros k. symmetry. apply (pre_app []).
  - apply runs_store; [done|by repeat split; eauto using crep_hash_length|].
    intros s' Hg' Hs Hst. exists KExt. split; [|done].
    eapply crep_pre_ext; eauto using crep_mono.
Qed.

Lemma path_bounded p m k :
  bounded (pre p m) → m k ≠ None → nibbles (p ++ k) ∧ len (p ++ k) ≤ U32_MAX.
Proof. intros Hb Hk. apply Hb. by rewrite pre_app. Qed.

Lemma nibbles_path_le (p k : list Z) :
  nibbles (p ++ k) ∧ len (p ++ k) ≤ U32_MAX → nibbles p ∧ len p ≤ U32_MAX.
Proof. intros [[? ?]%Forall_app Hl]. split; [done|]. rewrite length_app in Hl. lia. Qed.

Lemma runs_normalize p nx kd m s :
  good s → p ≠ [] → crep (st_log s) kd nx m → bounded (pre p m) →
  runs (normalize_extension p nx) s (λ h' s', ∃ kd', crep (st_log s') kd' h' (pre p m)).
Proof.
  intros Hg Hp Hc Hb. unfold normalize_extension.
  destruct (crep_inhabited _ _ _ _ Hc) as [k0 Hk0].
  pose proof (path_bounded p m k0 Hb Hk0) as Hk.
  pose proof Hc as Hc0.
  destruct Hc as [h lp v m Hst Hm|h ep nn m m1 Hst Hep Hc Hin Hout|h cs v kds m Hst].
  - apply (runs_load _ _ _ _ _ Hg Hst).
    assert (k0 = lp) as -> by (rewrite Hm in Hk0; by case_decide).
    apply runs_store; [done|by destruct Hst as (_ & _ & _ & _ & ?), Hk|].
    intros s' _ _ Hst'. exists KLeaf. eapply crep_leaf; [exact Hst'|].
    intros k. prefix_cases p k.
    + rewrite Hm. repeat case_decide; simplify_list_eq; done.
    + rewrite decide_False; [done|]. intros ->. apply Hn. by apply prefix_app_r.
  - apply (runs_load _ _ _ _ _ Hg Hst).
    destruct (ext_keys _ _ Hout _ Hk0) as [z ->]. rewrite app_assoc in Hk.
    apply nibbles_path_le in Hk as [Hk1 Hk2].
    apply runs_store; [done|by destruct Hst as (_ & _ & _ & _ & ?)|].
    intros s' _ Hs Hst'. exists KExt.
    eapply crep_equiv; [eapply crep_pre_ext; [exact Hst'| |by eapply crep_mono]|].
    + by destruct p.
    + intros k. rewrite <- pre_pre. prefix_cases p k; [|done].
      prefix_cases ep r; [by rewrite Hin|by rewrite Hout].
  - apply (runs_load _ _ _ _ _ Hg Hst).
    apply nibbles_path_le in Hk as [Hk1 Hk2].
    apply runs_store; [done|by repeat split; eauto using crep_hash_length|].
    intros s' _ Hs Hst'. exists KExt. eapply crep_pre_ext; eauto using crep_mono.
Qed.

Lemma prefix_child_normalize n h s : prefix_child n h s = normalize_extension [n] h s.
Proof. unfold prefix_child, normalize_extension, m_bind. by destruct (load h s) as [[]|]. Qed.

(** ** Insertion *)

Lemma crep_leaf_map L h p v : stored L (Leaf p v) h → crep L KLeaf h (leaf_map p v).
Proof. intros Hst. by eapply crep_leaf. Qed.

Lemma kids_one L n kd c m v :
  nibble n → crep L kd c m → kids L (<[Z.to_nat n := Some c]> no_children) (kid_map n m v).
Proof.
  intros Hn Hc. eapply (kids_set L _ (λ _, None)); [by apply kids_none|done|..].
  - exists kd. eapply crep_equiv; [exact Hc|]. intros k. unfold sub, kid_map.
    by rewrite decide_True.
  - intros x k Hx. unfold kid_map. by rewrite decide_False.
Qed.

Lemma present_one n c : nibble n →
  length (present (<[Z.to_nat n := Some c]> no_children)) = 1%nat.
Proof.
  intros Hn. rewrite (present_insert_some _ _ _ None); [done|].
  apply lookup_replicate. unfold nibble in Hn. split; [done|lia].
Qed.

(** Two different leading nibbles. *)
Lemma kids_two L a b kda kdb ca cb ma mb :
  nibble a → nibble b → a ≠ b → crep L kda ca ma → crep L kdb cb mb →
  kids L (<[Z.to_nat b := Some cb]> (<[Z.to_nat a := Some ca]> no_children))
    (kid2_map a b ma mb).
Proof.
  intros Ha Hb Hab Hca Hcb.
  eapply (kids_set L _ (kid_map a ma None)); [by eapply kids_one|done|..].
  - exists kdb. eapply crep_equiv; [exact Hcb|]. intros k. unfold sub, kid2_map. by rewrite decide_True.
  - intros x k Hx. unfold kid_map, kid2_map. by rewrite decide_False.
Qed.

Lemma present_two a b ca cb :
  nibble a → nibble b → a ≠ b →
  length (present (<[Z.to_nat b := Some cb]> (<[Z.to_nat a := Some ca]> no_children))) = 2%nat.
Proof.
  intros Ha Hb Hab. unfold nibble in *. rewrite (present_insert_some _ _ _ None).
  - rewrite present_one by done. done.
  - rewrite list_lookup_insert_ne by lia. apply lookup_replicate. split; [done|lia].
Qed.

Lemma kid_map_nib n m v : nibble n → ∀ x k, ¬ nibble x → kid_map n m v (x :: k) = None.
Proof. intros Hn x k Hx. cbn. rewrite decide_False; [done|]. by intros ->. Qed.

Lemma crep_branch_one L n kd c m v h :
  nibble n → crep L kd c m →
  stored L (Branch (<[Z.to_nat n := Some c]> no_children) (Some v)) h →
  crep L KBranch h (kid_map n m (Some v)).
Proof.
  intros Hn Hc Hst. eapply crep_branch_kids; [exact Hst|by eapply kids_one| |done|].
  - by apply kid_map_nib.
  - unfold occupants. by rewrite present_one.
Qed.

Lemma crep_branch_two L a b kda kdb ca cb ma mb h :
  nibble a → nibble b → a ≠ b → crep L kda ca ma → crep L kdb cb mb →
  stored L (Branch (<[Z.to_nat b := Some cb]> (<[Z.to_nat a := Some ca]> no_children)) None) h →
  crep L KBranch h
    (kid2_map a b ma mb).
Proof.
  intros Ha Hb Hab Hca Hcb Hst.
  eapply crep_branch_kids; [exact Hst|by eapply kids_two| |done|].
  - intros n k Hn. unfold kid2_map. rewrite !decide_False; [done| |]; by intros ->.
  - unfold occupants. by rewrite present_two.
Qed.

Lemma branch_wf cs v :
  slots_ok cs → match v with Some v => len v ≤ U32_MAX | None => True end →
  node_wf (Branch cs v).
Proof. by intros [? ?]. Qed.

Lemma slots_hash cs n (c : Node) : slots_ok cs → slots_ok (<[n := Some (hash_node c)]> cs).
Proof. intros. apply slots_set; [done|apply length_hash_node]. Qed.

Definition path_ok (p : list Z) : Prop := nibbles p ∧ len p ≤ U32_MAX.

Lemma path_ok_cons x p : path_ok (x :: p) → nibble x ∧ path_ok p.
Proof. intros [[? ?]%Forall_cons Hl]. cbn in Hl. split; [done|split; [done|lia]]. Qed.
Lemma path_ok_app p q : path_ok (p ++ q) → path_ok p ∧ path_ok q.
Proof.
  intros [[? ?]%Forall_app Hl]. rewrite length_app in Hl. repeat split; auto; lia.
Qed.

(** One half of [split_to_branch]: the rest of a path becomes the branch value
    or a leaf below its first nibble. *)
Lemma runs_split_side r val cs (v : option bytes) s :
  good s → path_ok r → len val ≤ U32_MAX → slots_ok cs →
  runs (match r with
        | [] => m_ret (cs, Some val)
        | n :: tl =>
            let! h := store (Leaf tl val) in
            let! cs := set_child cs n (Some h) in
            m_ret (cs, v)
        end) s
    (λ st s', match r with
              | [] => st = (cs, Some val)
              | n :: tl => ∃ h, crep (st_log s') KLeaf h (leaf_map tl val) ∧
                  st = (<[Z.to_nat n := Some h]> cs, v)
              end).
Proof.
  intros Hg Hr Hval Hcs. destruct r as [|n tl]; [by apply runs_ret|].
  apply path_ok_cons in Hr as [Hn [Htl1 Htl2]].
  apply runs_store_then; [done|done|intros; grow|].
  intros h s1 Hg1 Hs1 Hst. apply runs_set_child; [by destruct Hcs|done|].
  apply runs_ret; [done|]. exists h. split; [by apply crep_leaf_map|done].
Qed.

Lemma grows_split_side r val cs (v : option bytes) :
  grows (match r with
        | [] => m_ret (cs, Some val)
        | n :: tl =>
            let! h := store (Leaf tl val) in
            let! cs := set_child cs n (Some h) in
            m_ret (cs, v)
        end).
Proof. grow. Qed.

Lemma slots_crep L cs n kd c m :
  crep L kd c m → slots_ok cs → slots_ok (<[n := Some c]> cs).
Proof. intros Hc Hs. apply slots_set; [done|by eapply crep_hash_length]. Qed.

Lemma runs_split a av b bv s :
  good s → path_ok a → path_ok b → a ≠ b →
  (∀ x a' y b', a = x :: a' → b = y :: b' → x ≠ y) →
  len av ≤ U32_MAX → len bv ≤ U32_MAX →
  runs (split_to_branch a av b bv) s
    (λ h s', crep (st_log s') KBranch h (upd (leaf_map a av) b bv)).
Proof.
  intros Hg Ha Hb Hab Hd Hav Hbv. unfold split_to_branch.
  eapply runs_bind; [apply runs_split_side; auto using slots_none| |].
  { intros st. apply grows_bind; [apply grows_split_side|auto with l1]. }
  intros st1 s1 Hg1 Hs1 H1.
  assert (slots_ok st1.1) as Hok1.
  { destruct a; [subst; apply slots_none|]. destruct H1 as (h & Hc & ->).
    eapply slots_crep; [exact Hc|apply slots_none]. }
  eapply runs_bind; [apply runs_split_side; auto|auto with l1|].
  intros st2 s2 Hg2 Hs2 H2.
  destruct a as [|x a], b as [|y b]; [done|..].
  - destruct H2 as (h & Hc & ->). subst st1. cbn [fst snd].
    apply path_ok_cons in Hb as [Hy _].
    apply runs_store; [done|by apply branch_wf; [eapply slots_crep|]|].
    intros s3 _ Hs3 Hst. eapply crep_equiv; [eapply crep_branch_one; [exact Hy| |exact Hst]|].
    + by eapply crep_mono.
    + intros [|z k]; unfold upd, leaf_map; cbn; repeat case_decide; congruence.
  - destruct H1 as (h & Hc & ->). subst st2. cbn [fst snd].
    apply path_ok_cons in Ha as [Hx _].
    apply runs_store; [done|by apply branch_wf|].
    intros s3 _ Hs3 Hst. eapply crep_equiv; [eapply crep_branch_one; [exact Hx| |exact Hst]|].
    + eapply crep_mono; [|exact Hc]. by etrans.
    + intros [|z k]; unfold upd, leaf_map; cbn; repeat case_decide; congruence.
  - destruct H1 as (h & Hc & ->), H2 as (h' & Hc' & ->). cbn [fst snd] in *.
    apply path_ok_cons in Ha as [Hx _]. apply path_ok_cons in Hb as [Hy _].
    pose proof (Hd x a y b eq_refl eq_refl) as Hxy.
    apply runs_store; [done|by apply branch_wf; [eapply slots_crep|]|].
    intros s3 _ Hs3 Hst.
    eapply crep_equiv; [eapply crep_branch_two; [exact Hx|exact Hy|exact Hxy|..|exact Hst]|].
    + eapply crep_mono; [|exact Hc]. by etrans.
    + by eapply crep_mono.
    + intros [|z k]; unfold upd, leaf_map; cbn; repeat case_decide; congruence.
Qed.

(** [None]: the empty trie. *)
Definition krep (L : list bytes) (k : option kind) (h : bytes) (m : pmap) : Prop :=
  match k with
  | None => stored L Empty h ∧ ∀ p, m p = None
  | Some kd => crep L kd h m
  end.

(** What [insert] promises: a canonical subtrie for the updated map, which is
    a branch if there was one. *)
Definition inserted (k : option kind) (m : pmap) (key : list Z) (v : bytes)
    (h' : bytes) (s' : Nodes) : Prop :=
  ∃ kd, crep (st_log s') kd h' (upd m key v) ∧ (k = Some KBranch → kd = KBranch).

Lemma insert_leaf fuel s h p old m key v :
  good s → path_ok key → len v ≤ U32_MAX → stored (st_log s) (Leaf p old) h →
  (∀ k, m k = leaf_map p old k) →
  runs (insert (S fuel) h key v) s (inserted (Some KLeaf) m key v).
Proof.
  intros Hg Hkey Hv Hst Hm. cbn [insert]. apply (runs_load _ _ _ _ _ Hg Hst). cbn iota.
  destruct Hst as (_ & _ & Hp1 & Hp2 & Hold).
  case_bool_decide as Hpk.
  { subst key. apply runs_store; [done|done|]. intros s' _ _ Hst'. exists KLeaf. split; [|done].
    eapply crep_leaf; [exact Hst'|]. intros k. unfold upd. rewrite Hm. unfold leaf_map.
    by case_decide. }
  destruct (common_prefix_split p key) as (c & a & b & -> & -> & -> & Hd).
  rewrite !drop_app_length, take_app_length.
  assert (path_ok c ∧ path_ok a) as [Hc Ha] by by apply path_ok_app.
  apply path_ok_app in Hkey as [_ Hb].
  eapply runs_bind; [apply runs_split; [done|done|done|by intros ->|done..]| |].
  { intros bh. destruct (_ =? _)%nat; auto with l1. }
  intros bh s1 Hg1 Hs1 Hbr. destruct Hc as [Hc1 Hc2].
  eapply runs_conseq; [eapply runs_wrap; [done|done|done|done|exact Hbr]|]. intros h' s2 _ _ (kd & Hcr & _).
  exists kd. split; [|done]. eapply crep_equiv; [exact Hcr|]. intros k.
  rewrite <- upd_pre. symmetry. apply upd_equiv. intros k'. by rewrite Hm, leaf_map_pre.
Qed.

(** The key leaves an extension inside its path: the tail of [insert]. *)
Lemma runs_ext_branch c e ch kd m2 b v s :
  good s → path_ok c → nibble e → crep (st_log s) kd ch m2 → path_ok (c ++ b) →
  len v ≤ U32_MAX → (∀ y b', b = y :: b' → e ≠ y) →
  runs (let! children := set_child no_children e (Some ch) in
        match b with
        | [] =>
            let! bh := store (Branch children (Some v)) in
            if (length c =? 0)%nat then m_ret bh else store (Extension (c ++ b) bh)
        | key_nibble :: key_tl =>
            let! leaf_h := store (Leaf key_tl v) in
            let! children := set_child children key_nibble (Some leaf_h) in
            let! bh := store (Branch children None) in
            if (length c =? 0)%nat then m_ret bh else store (Extension c bh)
        end) s
    (λ h' s', ∃ kd, crep (st_log s') kd h' (pre c (upd (kid_map e m2 None) b v))).
Proof.
  intros Hg [Hc1 Hc2] He Hch [_ Hb]%path_ok_app Hv Hd. apply runs_set_child; [done|done|].
  assert (slots_ok (<[Z.to_nat e := Some ch]> no_children)) as Hslots
    by (eapply slots_crep; [exact Hch|apply slots_none]).
  destruct b as [|y b].
  - apply runs_store_then; [done|by apply branch_wf|intros; grow|].
    intros bh s2 Hg2 Hs2 Hst2. rewrite app_nil_r.
    eapply runs_conseq; [apply runs_wrap; [done|done|done|done|]|].
    { eapply crep_branch_one; [exact He| |exact Hst2]. by eapply crep_mono. }
    intros h' s3 _ _ (kd' & Hcr & _). exists kd'. eapply crep_equiv; [exact Hcr|].
    apply pre_equiv. intros k. by rewrite upd_kid_nil.
  - apply path_ok_cons in Hb as [Hy [Hb1 Hb2]]. pose proof (Hd y b eq_refl) as Hey.
    apply runs_store_then; [done|done|intros; grow|].
    intros lh s2 Hg2 Hs2 Hst2. apply runs_set_child; [by destruct Hslots|done|].
    apply runs_store_then; [done| |intros; grow|].
    { apply branch_wf; [|done]. eapply slots_crep; [|done]. by apply crep_leaf_map. }
    intros bh s3 Hg3 Hs3 Hst3.
    eapply runs_conseq; [apply runs_wrap; [done|done|done|done|]|].
    { eapply crep_branch_two; [exact He|exact Hy|exact Hey|..|exact Hst3].
      - eapply crep_mono; [|exact Hch]. by etrans.
      - eapply crep_mono; [|by apply crep_leaf_map]. done. }
    intros h' s4 _ _ (kd' & Hcr & _). exists kd'. eapply crep_equiv; [exact Hcr|].
    apply pre_equiv. intros k. by rewrite upd_kid_cons.
Qed.

Lemma insert_ext_split fuel s h p nx m m1 key v :
  good s → path_ok key → len v ≤ U32_MAX → stored (st_log s) (Extension p nx) h →
  crep (st_log s) KBranch nx m1 → (∀ k, m k = pre p m1 k) → ¬ p `prefix_of` key →
  runs (insert (S fuel) h key v) s (inserted (Some KExt) m key v).
Proof.
  intros Hg Hkey Hv Hst Hbr Hm Hnp. cbn [insert]. apply (runs_load _ _ _ _ _ Hg Hst). cbn iota.
  unfold starts_with. rewrite bool_decide_false by done.
  destruct Hst as (_ & _ & Hp1 & Hp2 & Hnx).
  destruct (common_prefix_split p key) as (c & a & b & -> & -> & -> & Hd).
  rewrite !drop_app_length, take_app_length. destruct a as [|e rest].
  { destruct Hnp. rewrite app_nil_r. by apply prefix_app_r. }
  assert (path_ok c ∧ path_ok (e :: rest)) as [Hc Her] by by apply path_ok_app.
  apply path_ok_cons in Her as [He [Hr1 Hr2]].
  apply (runs_bind _ _ _ (λ ch s', ∃ kd, crep (st_log s') kd ch (pre rest m1))).
  { destruct rest as [|e' rest].
    - apply runs_ret; [done|]. exists KBranch. eapply crep_equiv; [exact Hbr|].
      intros k. symmetry. apply (pre_app []).
    - apply runs_store; [done|done|]. intros s1 _ Hs1 Hst1. exists KExt.
      eapply crep_pre_ext; eauto using crep_mono. }
  { intros. grow. }
  intros ch s1 Hg1 Hs1 (kd & Hch).
  eapply runs_conseq; [eapply runs_ext_branch; eauto|].
  intros h' s2 _ _ (kd' & Hcr). exists kd'. split; [|done]. eapply crep_equiv; [exact Hcr|].
  intros k. rewrite <- upd_pre. symmetry. apply upd_equiv. intros k'. rewrite Hm, <- pre_pre.
  apply pre_equiv. intros k2. by rewrite pre_cons_kid.
Qed.

(** The children of [m] with another value at [key]. *)
Lemma upd_other m n rest v x k : x ≠ n → upd m (n :: rest) v (x :: k) = m (x :: k).
Proof. intros Hx. unfold upd. rewrite decide_False; [done|]. congruence. Qed.

Lemma sub_upd m n rest v k : sub (upd m (n :: rest) v) n k = upd (sub m n) rest v k.
Proof. unfold sub, upd. repeat case_decide; congruence. Qed.

Lemma insert_branch fuel s h cs bv kds m key v :
  (∀ s kd h m key, good s → path_ok key → len v ≤ U32_MAX → krep (st_log s) kd h m →
    stored (st_log s) Empty (hash_node Empty) → (length key < fuel)%nat →
    runs (insert fuel h key v) s (inserted kd m key v)) →
  good s → path_ok key → len v ≤ U32_MAX → stored (st_log s) Empty (hash_node Empty) →
  (length key < S fuel)%nat → stored (st_log s) (Branch cs bv) h →
  (∀ i c, cs !! i = Some (Some c) → crep (st_log s) (kds i) c (sub m (Z.of_nat i))) →
  (∀ i k, cs !! i = Some None → m (Z.of_nat i :: k) = None) →
  (∀ n k, ¬ nibble n → m (n :: k) = None) → m [] = bv → (2 ≤ occupants cs bv)%nat →
  runs (insert (S fuel) h key v) s (inserted (Some KBranch) m key v).
Proof.
  intros IH Hg Hkey Hv Hemp Hfuel Hst Hc Hnone Hnib Hbv Hocc.
  cbn [insert]. apply (runs_load _ _ _ _ _ Hg Hst). cbn iota.
  assert (slots_ok cs) as Hslots by (by destruct Hst as (_ & _ & ? & ? & _)).
  assert (kids (st_log s) cs m) as Hkids by (by eapply kids_of_branch).
  destruct key as [|n rest].
  { apply runs_store; [done|by apply branch_wf|]. intros s' _ Hs Hst'. exists KBranch.
    split; [|done]. eapply crep_branch_kids; [exact Hst'| |done|done|].
    - intros i c Hi. apply (kids_mono _ _ _ _ Hs Hkids i c Hi).
    - unfold occupants in *. destruct bv; lia. }
  apply path_ok_cons in Hkey as [Hn Hrest]. cbn [length] in Hfuel.
  destruct (slots_lookup cs n Hslots Hn) as [c Hcn].
  eapply runs_child; [exact Hcn|]. unfold nibble in Hn.
  assert (∃ k0, krep (st_log s) k0 (default (hash_node Empty) c) (sub m n)) as [k0 Hk0].
  { specialize (Hkids _ c Hcn). rewrite Z2Nat.id in Hkids by lia. destruct c as [c|].
    - destruct Hkids as [kd Hkd]. by exists (Some kd).
    - by exists None. }
  eapply runs_bind; [apply (IH s k0 _ (sub m n) rest); auto; lia|intros; grow|].
  intros c' s1 Hg1 Hs1 (kd' & Hc' & _).
  apply runs_set_child; [by destruct Hslots|done|].
  apply runs_store; [done|apply branch_wf; [by eapply slots_crep|];
    by destruct Hst as (_ & _ & _ & _ & ?)|].
  intros s2 _ Hs2 Hst2. exists KBranch. split; [|done].
  eapply crep_branch_kids; [exact Hst2| | | |].
  + eapply (kids_set _ _ m); [|done|exists kd'|intros; by apply upd_other].
    * eapply kids_mono; [|exact Hkids]. by etrans.
    * eapply crep_mono; [exact Hs2|]. eapply crep_equiv; [exact Hc'|].
      intros k. by rewrite sub_upd.
  + intros x k Hx. rewrite upd_other; [by apply Hnib|]. by intros ->.
  + by rewrite <- Hbv.
  + unfold occupants in *. rewrite (present_insert_some _ _ _ c) by done. lia.
Qed.

Lemma insert_runs fuel s kd h m key v :
  good s → path_ok key → len v ≤ U32_MAX → krep (st_log s) kd h m →
  stored (st_log s) Empty (hash_node Empty) → (length key < fuel)%nat →
  runs (insert fuel h key v) s (inserted kd m key v).
Proof.
  revert s kd h m key. induction fuel as [|fuel IH]; intros s kd h m key Hg Hkey Hv Hr Hemp Hfuel;
    [lia|].
  destruct kd as [kd|]; cbn [krep] in Hr.
  2: { destruct Hr as [Hst Hm]. cbn [insert]. apply (runs_load _ _ _ _ _ Hg Hst). cbn iota.
    destruct Hkey. apply runs_store; [done|done|]. intros s' _ _ Hst'. exists KLeaf. split; [|done].
    eapply crep_leaf; [exact Hst'|]. intros k. unfold upd. by rewrite Hm. }
  destruct Hr as [h p old m Hst Hm|h p nx m m1 Hst Hp Hc Hin Hout|h cs bv kds m Hst Hc Hnone Hnib Hbv Hocc].
  - by eapply insert_leaf.
  - destruct (decide (p `prefix_of` key)) as [[key' ->]|Hnp].
    2: { eapply insert_ext_split; eauto. by apply ext_is_pre. }
    cbn [insert]. apply (runs_load _ _ _ _ _ Hg Hst). cbn iota.
    unfold starts_with. rewrite bool_decide_true by by apply prefix_app_r.
    rewrite drop_app_length. apply path_ok_app in Hkey as [_ Hkey].
    rewrite length_app in Hfuel. assert (length p ≠ 0%nat) by by destruct p.
    eapply runs_bind; [apply (IH s (Some KBranch) nx m1 key'); auto; lia|auto with l1|].
    intros nx' s1 Hg1 Hs1 (kd' & Hc' & Hkd). rewrite (Hkd eq_refl) in Hc'.
    apply runs_store; [done|destruct Hst as (_ & _ & ? & ? & _); repeat split;
      eauto using crep_hash_length|].
    intros s2 _ Hs2 Hst2. exists KExt. split; [|done].
    eapply crep_equiv; [eapply crep_pre_ext; [exact Hst2|done|by eapply crep_mono]|].
    intros k. rewrite <- upd_pre. apply upd_equiv. intros k'. symmetry. by apply ext_is_pre.
  - by eapply insert_branch.
Qed.

(** ** Lookup *)

Lemma get_at_spec fuel s kd h m key :
  good s → krep (st_log s) kd h m → nibbles key → (length key < fuel)%nat →
  get_at fuel h key s = Done (m key) s.
Proof.
  revert s kd h m key. induction fuel as [|fuel IH]; intros s kd h m key Hg Hr Hkey Hfuel; [lia|].
  cbn [get_at]. unfold m_bind. destruct kd as [kd|]; cbn [krep] in Hr.
  2: { destruct Hr as [Hst Hm]. rewrite (load_stored _ _ _ Hg Hst). by rewrite Hm. }
  destruct Hr as [h p old m Hst Hm|h p nx m m1 Hst Hp Hc Hin Hout|h cs bv kds m Hst Hc Hnone Hnib Hbv Hocc];
    rewrite (load_stored _ _ _ Hg Hst).
  - rewrite Hm. unfold m_ret. repeat case_decide; case_bool_decide; congruence.
  - unfold starts_with. case_bool_decide as Hpk; [|by rewrite Hout].
    destruct Hpk as [key' ->]. rewrite drop_app_length, Hin.
    apply (IH s (Some KBranch)); auto; [by apply Forall_app in Hkey as [_ ?]|].
    rewrite length_app in Hfuel. destruct p; [done|]. cbn in Hfuel. lia.
  - destruct key as [|n rest]; [by rewrite Hbv|].
    apply Forall_cons in Hkey as [Hn Hrest]. cbn [length] in Hfuel.
    assert (slots_ok cs) as Hslots by (by destruct Hst as (_ & _ & ? & ? & _)).
    destruct (slots_lookup cs n Hslots Hn) as [c Hcn]. unfold child. rewrite Hcn.
    unfold nibble in Hn. destruct c as [c|]; cbn.
    + specialize (Hc _ c Hcn). rewrite Z2Nat.id in Hc by lia.
      apply (IH s (Some (kds (Z.to_nat n))) c (sub m n) rest); auto. lia.
    + specialize (Hnone _ rest Hcn). rewrite Z2Nat.id in Hnone by lia. by rewrite Hnone.
Qed.

(** ** Deletion *)

Definition removed (m : pmap) (r : option bytes) (s' : Nodes) : Prop :=
  match r with
  | None => ∀ k, m k = None
  | Some h' => ∃ kd, crep (st_log s') kd h' m
  end.

Lemma del_pre p m key k : del (pre p m) (p ++ key) k = pre p (del m key) k.
Proof.
  unfold del. destruct (decide (p `prefix_of` k)) as [[r ->]|Hn].
  - rewrite !pre_app. repeat case_decide; simplify_list_eq; done.
  - rewrite !pre_out by done. by case_decide.
Qed.

Lemma del_equiv m m' key : (∀ k, m k = m' k) → ∀ k, del m key k = del m' key k.
Proof. intros E k. unfold del. by case_decide. Qed.

Lemma del_other m n rest x k : x ≠ n → del m (n :: rest) (x :: k) = m (x :: k).
Proof. intros Hx. unfold del. rewrite decide_False; [done|]. congruence. Qed.

Lemma sub_del m n rest k : sub (del m (n :: rest)) n k = del (sub m n) rest k.
Proof. unfold sub, del. repeat case_decide; congruence. Qed.

Lemma kids_lone L cs m i c :
  kids L cs m → (∀ x k, ¬ nibble x → m (x :: k) = None) → length cs = 16%nat →
  present cs = [(i, c)] → m [] = None → ∀ k, m k = pre [Z.of_nat i] (sub m (Z.of_nat i)) k.
Proof.
  intros Hk Hnib Hl Hp Hm0. apply ext_is_pre; [done|]. intros [|x k] Hn; [done|].
  destruct (decide (nibble x)) as [Hx|Hx]; [|by apply Hnib].
  destruct (lookup_lt_is_Some_2 cs (Z.to_nat x)) as [c' Hc']; [unfold nibble in Hx; lia|].
  pose proof (Hk _ _ Hc') as Hkx. unfold nibble in Hx. rewrite Z2Nat.id in Hkx by lia.
  destruct c' as [c'|]; [|apply Hkx]. apply elem_present in Hc'. rewrite Hp in Hc'.
  apply list_elem_of_singleton in Hc' as [= Hi ->]. destruct Hn. exists k.
  cbn. f_equal. lia.
Qed.

Lemma kids_empty L cs m :
  kids L cs m → (∀ x k, ¬ nibble x → m (x :: k) = None) → length cs = 16%nat →
  present cs = [] → ∀ x k, m (x :: k) = None.
Proof.
  intros Hk Hnib Hl Hp x k. destruct (decide (nibble x)) as [Hx|Hx]; [|by apply Hnib].
  destruct (lookup_lt_is_Some_2 cs (Z.to_nat x)) as [c' Hc']; [unfold nibble in Hx; lia|].
  pose proof (Hk _ _ Hc') as Hkx. unfold nibble in Hx. rewrite Z2Nat.id in Hkx by lia.
  destruct c' as [c'|]; [|apply Hkx]. apply elem_present in Hc'. rewrite Hp in Hc'.
  by apply not_elem_of_nil in Hc'.
Qed.

Lemma runs_collapse cs v m s :
  good s → slots_ok cs → kids (st_log s) cs m → (∀ x k, ¬ nibble x → m (x :: k) = None) →
  m [] = v → match v with Some v => len v ≤ U32_MAX | None => True end →
  (1 ≤ occupants cs v)%nat → bounded m →
  runs (collapse_branch cs v) s (removed m).
Proof.
  intros Hg Hok Hk Hnib Hv Hvl Hocc Hb. unfold collapse_branch, occupants in *.
  assert (2 ≤ occupants cs v →
    runs (let! h := store (Branch (foldl (λ ch p, <[p.1 := Some p.2]> ch) no_children (present cs)) v)
          in m_ret (Some h)) s (removed m))%nat as Hbranch.
  { intros Hocc2. rewrite rebuild_present by by destruct Hok.
    apply runs_store_then; [done|by apply branch_wf|auto with l1|].
    intros h s1 Hg1 Hs1 Hst. apply runs_ret; [done|]. exists KBranch.
    eapply crep_branch_kids; eauto using kids_mono. }
  destruct (present cs) as [|[i c] [|q ps]] eqn:Hp.
  - destruct v as [v|]; [|cbn in Hocc; lia].
    apply runs_store_then; [done|split; [constructor|by cbn; ulia]|auto with l1|].
    intros h s1 Hg1 Hs1 Hst. apply runs_ret; [done|]. exists KLeaf.
    eapply crep_leaf; [exact Hst|]. intros [|x k]; [done|].
    rewrite decide_False by done. eapply kids_empty; eauto. by destruct Hok.
  - destruct v as [v|]; [apply Hbranch; unfold occupants; by rewrite Hp|].
    pose proof (kids_lone _ _ _ _ _ Hk Hnib (proj1 Hok) Hp Hv) as Hm.
    assert (cs !! i = Some (Some c)) as Hi by (apply elem_present; rewrite Hp; constructor).
    destruct (Hk i _ Hi) as [kd Hc].
    eapply runs_bind; [|auto with l1|].
    { unfold runs. rewrite prefix_child_normalize.
      eapply (runs_normalize [Z.of_nat i] c kd); [done|done|exact Hc|by eapply bounded_equiv]. }
    intros h s1 Hg1 Hs1 (kd' & Hc'). apply runs_ret; [done|]. exists kd'.
    eapply crep_equiv; [exact Hc'|]. intros k. by rewrite <- Hm.
  - destruct v; apply Hbranch; unfold occupants; rewrite Hp; cbn; lia.
Qed.

Lemma remove_branch fuel s h cs v kds m key :
  (∀ s kd h m key, good s → nibbles key → crep (st_log s) kd h m → bounded m → m key ≠ None →
    (length key < fuel)%nat → runs (remove fuel h key) s (removed (del m key))) →
  good s → nibbles key → bounded m → m key ≠ None → (length key < S fuel)%nat →
  stored (st_log s) (Branch cs v) h →
  (∀ i c, cs !! i = Some (Some c) → crep (st_log s) (kds i) c (sub m (Z.of_nat i))) →
  (∀ i k, cs !! i = Some None → m (Z.of_nat i :: k) = None) →
  (∀ n k, ¬ nibble n → m (n :: k) = None) → m [] = v → (2 ≤ occupants cs v)%nat →
  runs (remove (S fuel) h key) s (removed (del m key)).
Proof.
  intros IH Hg Hkey Hb Hin Hfuel Hst Hc Hnone Hnib Hv Hocc.
  cbn [remove]. apply (runs_load _ _ _ _ _ Hg Hst). cbn iota.
  assert (slots_ok cs) as Hslots by (by destruct Hst as (_ & _ & ? & ? & _)).
  assert (match v with Some v => len v ≤ U32_MAX | None => True end) as Hvl
    by (by destruct Hst as (_ & _ & _ & _ & ?)).
  assert (kids (st_log s) cs m) as Hkids by (by eapply kids_of_branch).
  destruct key as [|n rest].
  { destruct v as [v|]; [|by destruct Hin].
    apply runs_collapse; auto using bounded_del. unfold occupants in *. cbn in *. lia. }
  apply Forall_cons in Hkey as [Hn Hrest]. cbn [length] in Hfuel.
  destruct (slots_lookup cs n Hslots Hn) as [c Hcn].
  assert (∀ x k, ¬ nibble x → del m (n :: rest) (x :: k) = None) as Hnib'.
  { intros x k Hx. rewrite del_other; [by apply Hnib|]. by intros ->. }
  eapply runs_child; [exact Hcn|]. pose proof Hn as Hn'. unfold nibble in Hn'.
  destruct c as [c|].
  2: { specialize (Hnone _ rest Hcn). rewrite Z2Nat.id in Hnone by lia. by destruct Hin. }
  specialize (Hc _ c Hcn). rewrite Z2Nat.id in Hc by lia.
  eapply runs_bind; [eapply (IH s _ c (sub m n) rest); eauto using bounded_sub; lia| |].
  { intros. grow; apply grows_collapse. }
  intros [c'|] s1 Hg1 Hs1 Hr; cbn [removed] in Hr.
  - destruct Hr as [kd Hc']. apply runs_set_child; [by destruct Hslots|done|].
    apply runs_store_then; [done|apply branch_wf; [by eapply slots_crep|done]|auto with l1|].
    intros h' s2 Hg2 Hs2 Hst2. apply runs_ret; [done|]. exists KBranch.
    eapply crep_branch_kids; [exact Hst2| |done|done|].
    + eapply (kids_set _ _ m); [|done|exists kd|intros; by apply del_other].
      * eapply kids_mono; [|exact Hkids]. by etrans.
      * eapply crep_mono; [exact Hs2|]. eapply crep_equiv; [exact Hc'|].
        intros k. by rewrite sub_del.
    + unfold occupants in *. rewrite (present_insert_some _ _ _ (Some c)) by done. lia.
  - apply runs_set_child; [by destruct Hslots|done|].
    apply runs_collapse; auto using bounded_del.
    + by apply slots_set.
    + eapply (kids_set _ _ m); [by eapply kids_mono|done| |intros; by apply del_other].
      intros k. pose proof (Hr k) as Hrk. by rewrite <- sub_del in Hrk.
    + unfold occupants in *. pose proof (present_insert_none _ _ _ Hcn). lia.
Qed.

Lemma remove_runs fuel s kd h m key :
  good s → nibbles key → crep (st_log s) kd h m → bounded m → m key ≠ None →
  (length key < fuel)%nat → runs (remove fuel h key) s (removed (del m key)).
Proof.
  revert s kd h m key. induction fuel as [|fuel IH]; intros s kd h m key Hg Hkey Hr Hb Hin Hfuel;
    [lia|].
  destruct Hr as [h p old m Hst Hm|h p nx m m1 Hst Hp Hc Hpre Hout|h cs v kds m Hst Hc Hnone Hnib Hv Hocc].
  - cbn [remove]. apply (runs_load _ _ _ _ _ Hg Hst). cbn iota.
    assert (p = key) as -> by (rewrite Hm in Hin; by case_decide).
    rewrite bool_decide_true by done. apply runs_ret; [done|]. intros k. unfold del.
    rewrite Hm. by case_decide.
  - cbn [remove]. apply (runs_load _ _ _ _ _ Hg Hst). cbn iota.
    pose proof (ext_is_pre _ _ _ Hpre Hout) as Hm.
    destruct (ext_keys _ _ Hout _ Hin) as [key' ->]. unfold starts_with.
    rewrite bool_decide_true by by apply prefix_app_r. cbn [negb]. rewrite drop_app_length.
    apply Forall_app in Hkey as [_ Hkey]. rewrite length_app in Hfuel.
    assert (length p ≠ 0%nat) by by destruct p.
    eapply runs_bind; [apply (IH s KBranch nx m1 key'); auto; [by eapply bounded_suffix| |lia]| |].
    { by rewrite <- Hpre. }
    { intros. grow; apply grows_normalize. }
    assert (∀ k, pre p (del m1 key') k = del m (p ++ key') k) as Hdel.
    { intros k. rewrite <- del_pre. apply del_equiv. intros k'. by rewrite Hm. }
    intros [nx'|] s1 Hg1 Hs1 Hr; cbn [removed] in Hr.
    + destruct Hr as [kd Hc'].
      eapply runs_bind; [eapply runs_normalize; [done|done|exact Hc'|]|auto with l1|].
      { eapply bounded_equiv; [by apply (bounded_del m (p ++ key'))|]. intros k. by rewrite Hdel. }
      intros h' s2 Hg2 Hs2 (kd' & Hc2). apply runs_ret; [done|]. exists kd'.
      by eapply crep_equiv.
    + apply runs_ret; [done|]. intros k. rewrite <- Hdel. unfold pre. by case_decide.
  - by eapply remove_branch.
Qed.

End wp.
