(* ===== verification/MptSpec.v ===== *)
(** The trie as a whole: [Trie::get], [put] and [delete] refine the operations
    of a finite map, over any sequence of operations from the empty trie, and
    the root hash depends on the resulting map only. *)

From S2P Require Import Prelude Types Codec Crypto MptNode Mpt MptRep MptRefine.

#[local] Open Scope Z_scope.

Definition key_ok (k : bytes) : Prop := bytes_ok k ∧ 2 * len k ≤ U32_MAX.
Definition val_ok (v : bytes) : Prop := len v ≤ U32_MAX.

#[export] Instance key_ok_dec k : Decision (key_ok k).
Proof. unfold key_ok, bytes_ok. apply _. Defined.
#[export] Instance val_ok_dec v : Decision (val_ok v).
Proof. unfold val_ok. apply _. Defined.

Inductive trie_op := OpPut (k v : bytes) | OpDelete (k : bytes).

Definition op_ok (o : trie_op) : Prop :=
  match o with OpPut k v => key_ok k ∧ val_ok v | OpDelete k => key_ok k end.

#[export] Instance op_ok_dec o : Decision (op_ok o).
Proof. destruct o; cbn; apply _. Defined.

(** The specification: what the operations do to a map. *)
Definition map_op (m : gmap bytes bytes) (o : trie_op) : gmap bytes bytes :=
  match o with OpPut k v => <[k := v]> m | OpDelete k => base.delete k m end.
Definition map_run (ops : list trie_op) : gmap bytes bytes := foldl map_op ∅ ops.

Lemma length_bytes_to_nibbles k : length (bytes_to_nibbles k) = (2 * length k)%nat.
Proof. induction k as [|b k IH]; [done|]. rewrite bytes_to_nibbles_cons. cbn. lia. Qed.

Lemma key_path_ok k : key_ok k → path_ok (bytes_to_nibbles k).
Proof.
  intros [Hk Hl]. split; [by apply nibbles_of_bytes|]. rewrite length_bytes_to_nibbles. lia.
Qed.

(** [m] is the map [mm] seen through nibble paths. *)
Definition rel (mm : gmap bytes bytes) (m : pmap) : Prop :=
  (∀ k, bytes_ok k → m (bytes_to_nibbles k) = mm !! k) ∧
  (∀ p, m p ≠ None → ∃ k, key_ok k ∧ p = bytes_to_nibbles k).

Lemma rel_bounded mm m : rel mm m → bounded m.
Proof. intros [_ Hd] p Hp. destruct (Hd p Hp) as (k & Hk & ->). by apply key_path_ok. Qed.

Lemma rel_unique mm m m' : rel mm m → rel mm m' → ∀ p, m p = m' p.
Proof.
  intros [Hm Hd] [Hm' Hd'] p.
  assert (m p ≠ None ∨ m' p ≠ None ∨ (m p = None ∧ m' p = None)) as [H|[H|[-> ->]]]; [|..|done].
  - destruct (m p), (m' p); naive_solver.
  - destruct (Hd p H) as (k & [Hk _] & ->). by rewrite Hm, Hm'.
  - destruct (Hd' p H) as (k & [Hk _] & ->). by rewrite Hm, Hm'.
Qed.

Lemma rel_put mm m k v :
  rel mm m → key_ok k → rel (<[k := v]> mm) (upd m (bytes_to_nibbles k) v).
Proof.
  intros [Hm Hd] Hk. split.
  - intros k' Hk'. unfold upd. case_decide as E.
    + apply bytes_to_nibbles_inj in E as ->; [by rewrite lookup_insert_eq|done|by destruct Hk].
    + rewrite lookup_insert_ne by (intros ->; done). by apply Hm.
  - intros p. unfold upd. case_decide as E; [|apply Hd]. subst. by exists k.
Qed.

Lemma rel_delete mm m k :
  rel mm m → bytes_ok k → rel (base.delete k mm) (del m (bytes_to_nibbles k)).
Proof.
  intros [Hm Hd] Hk. split.
  - intros k' Hk'. unfold del. case_decide as E.
    + apply bytes_to_nibbles_inj in E as ->; [by rewrite lookup_delete_eq|done|done].
    + rewrite lookup_delete_ne by (intros ->; done). by apply Hm.
  - intros p. unfold del. case_decide; [done|apply Hd].
Qed.

Section spec.
Context `{!Crypto, !CryptoLaws}.

Definition trie_op_run (r : trie_result) (o : trie_op) : trie_result :=
  match r with
  | TPanic s => TPanic s
  | TOk t => match o with OpPut k v => put t k v | OpDelete k => delete_key t k end
  end.
Definition trie_run (ops : list trie_op) : trie_result := foldl trie_op_run (TOk Trie_new) ops.

(** ** The invariant of a trie *)

Definition tinv (t : Trie) (mm : gmap bytes bytes) : Prop :=
  good (t_nodes t) ∧ stored (st_log (t_nodes t)) Empty (hash_node Empty) ∧
  ∃ kd m, krep (st_log (t_nodes t)) kd (t_root t) m ∧ rel mm m.

Lemma tinv_new : tinv Trie_new ∅.
Proof.
  assert (stored [serialize_node Empty] Empty (hash_node Empty)) as Hst
    by (repeat split; constructor).
  split; [|split; [exact Hst|]].
  - intros b Hb. cbn in Hb. apply list_elem_of_singleton in Hb as ->. cbn.
    apply lookup_singleton_eq.
  - exists None, (λ _, None). split; [split; [exact Hst|done]|]. split; [|done].
    intros k _. by rewrite lookup_empty.
Qed.

Lemma get_spec t mm k : tinv t mm → bytes_ok k → get t k = Some (mm !! k).
Proof.
  intros (Hg & _ & kd & m & Hr & Hm & _) Hk. unfold get.
  rewrite (get_at_spec _ _ kd _ m); auto using nibbles_of_bytes.
  by rewrite Hm.
Qed.

Lemma put_log t k v : st_log (t_nodes t) ⊆ result_log (put t k v).
Proof.
  unfold put. pose proof (grows_insert (fuel_for (bytes_to_nibbles k)) (t_root t)
    (bytes_to_nibbles k) v (t_nodes t)) as Hgr. by destruct (insert _ _ _ _ _).
Qed.

Lemma put_spec t mm k v :
  tinv t mm → key_ok k → val_ok v → collision_free (result_log (put t k v)) →
  ∃ t', put t k v = TOk t' ∧ tinv t' (<[k := v]> mm).
Proof.
  intros (Hg & He & kd & m & Hr & Hm) Hk Hv Hcf.
  assert (runs (insert (fuel_for (bytes_to_nibbles k)) (t_root t) (bytes_to_nibbles k) v)
    (t_nodes t) (inserted kd m (bytes_to_nibbles k) v)) as Hi.
  { apply insert_runs; auto using key_path_ok. }
  unfold put in *. destruct Hi as (h' & s' & E & Hg' & Hs' & kd' & Hc' & _).
  { by destruct (insert _ _ _ _ _). }
  rewrite E. eexists. split; [reflexivity|]. split; [done|]. split; [by eapply stored_mono|].
  exists (Some kd'), (upd m (bytes_to_nibbles k) v). split; [done|]. by apply rel_put.
Qed.

Lemma delete_log t k : st_log (t_nodes t) ⊆ result_log (delete_key t k).
Proof.
  unfold delete_key. destruct (get t k) as [[v|]|]; [|by intros b..].
  pose proof (grows_remove (fuel_for (bytes_to_nibbles k)) (t_root t)
    (bytes_to_nibbles k) (t_nodes t)) as Hgr.
  destruct (remove _ _ _ _) as [[h|] s|s]; [done| |done].
  etrans; [exact Hgr|]. apply grows_store.
Qed.

Lemma delete_spec t mm k :
  tinv t mm → key_ok k → collision_free (result_log (delete_key t k)) →
  ∃ t', delete_key t k = TOk t' ∧ tinv t' (base.delete k mm).
Proof.
  intros Ht Hk Hcf. pose proof (get_spec t mm k Ht (proj1 Hk)) as Hget.
  unfold delete_key in *. rewrite Hget in *.
  destruct (mm !! k) as [v|] eqn:Hv.
  2: { exists t. split; [done|]. by rewrite delete_id. }
  destruct Ht as (Hg & He & kd & m & Hr & Hm).
  assert (m (bytes_to_nibbles k) ≠ None) as Hin by (rewrite (proj1 Hm), Hv; [done|apply Hk]).
  destruct kd as [kd|]; [|by destruct Hr as [_ Hr]; rewrite Hr in Hin].
  assert (runs (remove (fuel_for (bytes_to_nibbles k)) (t_root t) (bytes_to_nibbles k))
    (t_nodes t) (removed (del m (bytes_to_nibbles k)))) as Hi.
  { eapply remove_runs; eauto using rel_bounded. by apply nibbles_of_bytes, Hk. }
  pose proof (rel_delete mm m k Hm (proj1 Hk)) as Hm'.
  destruct Hi as (r & s' & E & Hg' & Hs' & Hrem).
  { destruct (remove _ _ _ _) as [[h|] s|s]; [done| |done].
    eapply collision_free_sub; [|exact Hcf]. apply grows_store. }
  rewrite E in *. destruct r as [h|]; cbn [removed] in Hrem.
  - destruct Hrem as [kd' Hc]. eexists. split; [reflexivity|]. split; [done|].
    split; [by eapply stored_mono|]. by exists (Some kd'), (del m (bytes_to_nibbles k)).
  - destruct (runs_store Empty s' (λ h s'', stored (st_log s'') Empty h) Hg' I) as
      (h & s2 & E2 & Hg2 & Hs2 & Hst2); [done|exact Hcf|].
    injection E2 as <- <-. eexists. split; [reflexivity|]. split; [done|].
    split; [done|]. by exists None, (del m (bytes_to_nibbles k)).
Qed.

(** ** Sequences of operations *)

Lemma op_run_log r o : result_log r ⊆ result_log (trie_op_run r o).
Proof. destruct r as [t|s]; [|by intros b]. destruct o; [apply put_log|apply delete_log]. Qed.

Lemma run_log r ops : result_log r ⊆ result_log (foldl trie_op_run r ops).
Proof.
  revert r. induction ops as [|o ops IH]; intros r; [by intros b|].
  cbn. etrans; [apply op_run_log|apply IH].
Qed.

Lemma run_inv ops t mm :
  tinv t mm → Forall op_ok ops → collision_free (result_log (foldl trie_op_run (TOk t) ops)) →
  ∃ t', foldl trie_op_run (TOk t) ops = TOk t' ∧ tinv t' (foldl map_op mm ops).
Proof.
  revert t mm. induction ops as [|o ops IH]; intros t mm Ht Hok Hcf; [by exists t|].
  apply Forall_cons in Hok as [Ho Hok]. cbn [foldl] in *.
  assert (collision_free (result_log (trie_op_run (TOk t) o))) as Hcf1
    by (eapply collision_free_sub; [apply run_log|exact Hcf]).
  assert (∃ t1, trie_op_run (TOk t) o = TOk t1 ∧ tinv t1 (map_op mm o)) as (t1 & E & Ht1).
  { destruct o as [k v|k]; [destruct Ho; by apply put_spec|by apply delete_spec]. }
  rewrite E in *. by apply IH.
Qed.

(** C1: the trie implements a finite map.  Run any sequence of [put] and
    [delete] from [Trie::new]; if the hash has no collision among the node
    payloads the run stored, then no operation panics (no dangling hash, no
    corrupt node, no index out of range, and the recursion ends), and [get]
    returns exactly what the map says, present or absent, without panicking. *)
Theorem trie_refines_map ops :
  Forall op_ok ops → collision_free (result_log (trie_run ops)) →
  ∃ t, trie_run ops = TOk t ∧ ∀ k, bytes_ok k → get t k = Some (map_run ops !! k).
Proof.
  intros Hok Hcf. destruct (run_inv ops Trie_new ∅ tinv_new Hok Hcf) as (t & E & Ht).
  exists t. split; [exact E|]. intros k Hk. by apply get_spec.
Qed.

Lemma tinv_root t t' mm : tinv t mm → tinv t' mm → t_root t = t_root t'.
Proof.
  intros (_ & _ & kd & m & Hr & Hm) (_ & _ & kd' & m' & Hr' & Hm').
  assert (∀ L kd h m, krep L kd h m → trep L h m) as Hkt.
  { intros L [k|] h m0 Hk; [right; by exists k|left; exact Hk]. }
  eapply trep_unique; [by eapply Hkt|by eapply Hkt|]. by apply (rel_unique mm).
Qed.

(** the state root is a commitment to the contents, not to the history:
    two sequences of insertions and deletions that produce the same map end
    with the same root hash.  This needs the canonical shape (collapsed
    branches, merged extensions) that [insert] and [remove] maintain. *)
Theorem root_deterministic ops ops' t t' :
  Forall op_ok ops → Forall op_ok ops' →
  collision_free (result_log (trie_run ops)) → collision_free (result_log (trie_run ops')) →
  trie_run ops = TOk t → trie_run ops' = TOk t' →
  map_run ops = map_run ops' → t_root t = t_root t'.
Proof.
  intros Hok Hok' Hcf Hcf' E E' Em.
  destruct (run_inv ops Trie_new ∅ tinv_new Hok Hcf) as (t1 & E1 & Ht).
  destruct (run_inv ops' Trie_new ∅ tinv_new Hok' Hcf') as (t2 & E2 & Ht').
  change (trie_run ops = TOk t1) in E1. change (trie_run ops' = TOk t2) in E2.
  rewrite E in E1. rewrite E' in E2. injection E1 as <-. injection E2 as <-.
  apply (tinv_root t t' (map_run ops)); [exact Ht|]. rewrite Em. exact Ht'.
Qed.

End spec.

(** ** Witnesses: the toy hash on short keys *)

#[local] Existing Instance toy_crypto.
#[local] Existing Instance toy_crypto_laws.

Definition collision_free_b (L : list bytes) : bool :=
  let hs := (λ x, (hash_encoded x, x)) <$> L in
  forallb (λ x, forallb (λ y, implb (bool_decide (x.1 = y.1)) (bool_decide (x.2 = y.2))) hs) hs.

Lemma collision_free_b_spec L : collision_free_b L = true → collision_free L.
Proof.
  unfold collision_free_b. rewrite forallb_forall. intros Hx x y Ix Iy E.
  assert (∀ x, x ∈ L → In (hash_encoded x, x) ((λ x, (hash_encoded x, x)) <$> L)) as Hin.
  { intros z Hz. apply list_elem_of_In, list_elem_of_fmap. by exists z. }
  specialize (Hx _ (Hin x Ix)). rewrite forallb_forall in Hx. specialize (Hx _ (Hin y Iy)).
  cbn in Hx. rewrite bool_decide_true in Hx by done. cbn in Hx.
  by apply bool_decide_eq_true in Hx.
Qed.

Definition sample_ops : list trie_op :=
  [OpPut [1; 2] [10]; OpPut [1; 3] [11]; OpPut [1] [12]; OpDelete [1; 3]].
Definition sample_ops' : list trie_op := [OpPut [1] [12]; OpPut [1; 2] [10]].

Lemma trie_refines_map_witness :
  Forall op_ok sample_ops ∧ collision_free (result_log (trie_run sample_ops)) ∧
  ∃ t, trie_run sample_ops = TOk t ∧ ∀ k, bytes_ok k → get t k = Some (map_run sample_ops !! k).
Proof.
  assert (Forall op_ok sample_ops) as Hok by by_eval.
  assert (collision_free (result_log (trie_run sample_ops))) as Hcf
    by (apply collision_free_b_spec; vm_compute; reflexivity).
  split; [exact Hok|]. split; [exact Hcf|]. exact (trie_refines_map sample_ops Hok Hcf).
Defined.

Definition trie_of (r : trie_result) : Trie :=
  match r with TOk t => t | TPanic _ => Trie_new end.
Definition is_tok (r : trie_result) : bool :=
  match r with TOk _ => true | TPanic _ => false end.

Lemma trie_of_ok r : is_tok r = true → r = TOk (trie_of r).
Proof. by destruct r. Qed.

Lemma root_deterministic_witness :
  t_root (trie_of (trie_run sample_ops)) = t_root (trie_of (trie_run sample_ops')) ∧
  t_root (trie_of (trie_run sample_ops)) ≠ t_root Trie_new.
Proof.
  split; [|by_eval].
  apply (root_deterministic sample_ops sample_ops'); [by_eval|by_eval|..|by_eval].
  - apply collision_free_b_spec. vm_compute. reflexivity.
  - apply collision_free_b_spec. vm_compute. reflexivity.
  - apply trie_of_ok. vm_compute. reflexivity.
  - apply trie_of_ok. vm_compute. reflexivity.
Defined.
