(* ===== verification/MptProof.v ===== *)
(** Inclusion and exclusion proofs of the Merkle Patricia trie:
    [state/src/mpt/proof.rs].

    A proof is the chain of node payloads from the root to the terminus.
    Shown, against the specification of [MptSpec]: [mpt_prove] always
    produces a proof, it carries the value of the key, and it verifies; a
    proof that verifies against the root of a trie carries the value the trie
    has for the key (so neither inclusion nor exclusion can be forged), unless
    it exhibits a collision with a stored node; the verifier does not panic,
    whatever bytes the proof holds. *)

From S2P Require Import Prelude Types Codec Crypto Merkle MptNode Mpt MptRep MptRefine MptSpec.

#[local] Open Scope Z_scope.

Record MptProof := {
  mp_nodes : list bytes;
  mp_value : option bytes;
  mp_chain_merkle : MerkleProof;
  mp_chain_merkle_root : bytes;
}.

Section proof.
Context `{!Crypto}.

Definition bind_chain (nodes : list bytes) : option (MerkleProof * bytes) :=
  match prove nodes 0 with
  | Some p => Some (p, compute_root nodes)
  | None => None
  end.

(** [Trie::node_bytes]. *)
Definition node_bytes (t : Trie) (h : bytes) : option bytes := st_nodes (t_nodes t) !! h.

(** The loop of [prove]: the payloads pushed on the way, and the value.  The
    outer [None] is a panic ([children[n]] out of range) or exhausted fuel,
    the inner one the [?] of the code. *)
Fixpoint prove_walk (fuel : nat) (t : Trie) (h : bytes) (remaining : list Z)
    (nodes : list bytes) : option (option (list bytes * option bytes)) :=
  match fuel with
  | O => None
  | S fuel' =>
      match node_bytes t h with
      | None => Some None
      | Some b =>
          let nodes := nodes ++ [b] in
          match deserialize_node b with
          | None => Some None
          | Some Empty => Some (Some (nodes, None))
          | Some (Leaf path value) =>
              Some (Some (nodes, if bool_decide (path = remaining) then Some value else None))
          | Some (Extension path next) =>
              if negb (starts_with remaining path) then Some (Some (nodes, None))
              else prove_walk fuel' t next (drop (length path) remaining) nodes
          | Some (Branch children value) =>
              match remaining with
              | [] => Some (Some (nodes, value))
              | n :: rest =>
                  match children !! Z.to_nat n with
                  | None => None
                  | Some (Some next) => prove_walk fuel' t next rest nodes
                  | Some None => Some (Some (nodes, None))
                  end
              end
          end
      end
  end.

Definition mpt_prove (t : Trie) (key : bytes) : option (option MptProof) :=
  let ns := bytes_to_nibbles key in
  match prove_walk (fuel_for ns) t (t_root t) ns [] with
  | None => None
  | Some None => Some None
  | Some (Some (nodes, value)) =>
      match bind_chain nodes with
      | None => Some None
      | Some (p, r) =>
          Some (Some {| mp_nodes := nodes; mp_value := value;
                        mp_chain_merkle := p; mp_chain_merkle_root := r |})
      end
  end.

Definition prove_exclusion (t : Trie) (key : bytes) : option (option MptProof) :=
  match mpt_prove t key with
  | Some (Some p) => match mp_value p with Some _ => Some None | None => Some (Some p) end
  | r => r
  end.

(** The loop of [walk_verify] from node [i] on: [nodes] are the nodes from
    there, [pos] the position in the key.  [None] is a panic (a slice or an
    index out of range). *)
Fixpoint walk_loop (nodes : list bytes) (key_n : list Z) (pos : nat)
    (expected : option bytes) : option bool :=
  match nodes with
  | [] => Some false
  | raw :: rest =>
      match deserialize_node raw with
      | None => Some false
      | Some node =>
          let is_last := bool_decide (rest = []) in
          match node with
          | Empty => Some (is_last && bool_decide (expected = None))
          | Leaf path value =>
              if negb is_last then Some false
              else if (length key_n <? pos)%nat then None
              else if bool_decide (path = drop pos key_n)
              then Some (bool_decide (expected = Some value))
              else Some (bool_decide (expected = None))
          | Extension path next =>
              if (length key_n <? pos)%nat || negb (starts_with (drop pos key_n) path)
              then Some (is_last && bool_decide (expected = None))
              else match rest with
                   | [] => Some false
                   | next_raw :: _ =>
                       if bool_decide (next ≠ hash_encoded next_raw) then Some false
                       else walk_loop rest key_n (pos + length path) expected
                   end
          | Branch children value =>
              if (pos =? length key_n)%nat
              then Some (is_last && bool_decide (expected = value))
              else match key_n !! pos with
                   | None => None
                   | Some n =>
                       match children !! Z.to_nat n with
                       | None => None
                       | Some None => Some (is_last && bool_decide (expected = None))
                       | Some (Some c) =>
                           match rest with
                           | [] => Some false
                           | next_raw :: _ =>
                               if bool_decide (c ≠ hash_encoded next_raw) then Some false
                               else walk_loop rest key_n (pos + 1) expected
                           end
                       end
                   end
          end
      end
  end.

Definition walk_verify (nodes : list bytes) (key : bytes) (expected : option bytes) : option bool :=
  match nodes with
  | [] => Some false
  | _ => walk_loop nodes (bytes_to_nibbles key) 0 expected
  end.

Definition mpt_verify (key : bytes) (proof : MptProof) (root : bytes) : option bool :=
  match mp_nodes proof with
  | [] => Some false
  | n0 :: _ =>
      if bool_decide (hash_encoded n0 ≠ root) then Some false
      else if bool_decide (compute_root (mp_nodes proof) ≠ mp_chain_merkle_root proof)
      then Some false
      else if negb (verify n0 (mp_chain_merkle proof) (mp_chain_merkle_root proof))
      then Some false
      else walk_verify (mp_nodes proof) key (mp_value proof)
  end.

End proof.

(** ** The verifier does not panic *)

Section total.
Context `{!Crypto}.

Lemma length_deser_children n l cs r : deser_children n l = Some (cs, r) → length cs = n.
Proof.
  revert l cs. induction n as [|n IH]; intros l cs E; cbn in E; [by simplify_eq|].
  repeat case_match; simplify_eq; cbn; eauto.
Qed.

Lemma deserialize_branch_16 b cs v :
  deserialize_node b = Some (Branch cs v) → length cs = 16%nat.
Proof.
  unfold deserialize_node. intros E. repeat case_match; simplify_eq;
    eapply length_deser_children; eassumption.
Qed.

Lemma walk_loop_total nodes key_n pos expected :
  nibbles key_n → (pos ≤ length key_n)%nat → is_Some (walk_loop nodes key_n pos expected).
Proof.
  intros Hn. revert pos. induction nodes as [|raw rest IH]; intros pos Hpos; [by eexists|].
  cbn [walk_loop]. destruct (deserialize_node raw) as [[|p v|p nx|cs v]|] eqn:E; [by eexists|..|by eexists].
  - rewrite (proj2 (Nat.ltb_ge _ _) Hpos). repeat case_match; by eexists.
  - rewrite (proj2 (Nat.ltb_ge _ _) Hpos). cbn [orb]. unfold starts_with.
    case_bool_decide as Hp; [|by eexists]. cbn [negb].
    destruct rest as [|r rest]; [by eexists|]. case_bool_decide; [by eexists|].
    apply IH. apply prefix_length in Hp. rewrite length_drop in Hp. lia.
  - destruct (Nat.eqb_spec pos (length key_n)) as [|Hpos']; [by eexists|].
    destruct (lookup_lt_is_Some_2 key_n pos) as [n Hnp]; [lia|]. rewrite Hnp.
    assert (nibble n) as Hnib by (eapply Forall_lookup_1; eauto). unfold nibble in Hnib.
    destruct (lookup_lt_is_Some_2 cs (Z.to_nat n)) as [c Hc].
    { rewrite (deserialize_branch_16 _ _ _ E). lia. }
    rewrite Hc. destruct c as [c|]; [|by eexists]. destruct rest as [|r rest]; [by eexists|].
    case_bool_decide; [by eexists|]. apply IH. lia.
Qed.

(** Verification of a trie proof never panics: for every key and every
    proof object, however malformed its node payloads, [verify] returns a
    boolean (no index or slice out of range). *)
Theorem mpt_verify_total key proof root :
  bytes_ok key → is_Some (mpt_verify key proof root).
Proof.
  intros Hk. unfold mpt_verify, walk_verify. repeat case_match; try by eexists.
  apply walk_loop_total; [by apply nibbles_of_bytes|lia].
Qed.

End total.

(** ** Completeness and soundness *)

Section sound.
Context `{!Crypto, !CryptoLaws}.

(** A payload of the proof and a stored node collide. *)
Definition proof_collision (nodes L : list bytes) : Prop :=
  ∃ x y, x ∈ nodes ∧ y ∈ L ∧ hash_encoded x = hash_encoded y ∧ x ≠ y.

Lemma payload_of_stored nodes L raw n h :
  raw ∈ nodes → stored L n h → hash_encoded raw = h →
  deserialize_node raw = Some n ∨ proof_collision nodes L.
Proof.
  intros Hin (-> & HL & Hn) E. destruct (decide (raw = serialize_node n)) as [->|Hne].
  - left. by apply node_roundtrip.
  - right. exists raw, (serialize_node n). done.
Qed.

Lemma walk_sound all nodes L kd h m key_n pos expected raw rest :
  nodes ⊆ all → nodes = raw :: rest → hash_encoded raw = h → krep L kd h m → nibbles key_n →
  (pos ≤ length key_n)%nat → walk_loop nodes key_n pos expected = Some true →
  expected = m (drop pos key_n) ∨ proof_collision all L.
Proof.
  intros Hsub Hnodes Hh Hr Hn. revert raw rest kd h m pos Hsub Hnodes Hh Hr.
  induction nodes as [|raw' nodes IH]; intros raw rest kd h m pos Hsub Hnodes Hh Hr Hpos Hw; [done|].
  injection Hnodes as -> ->.
  assert (raw ∈ all) as Hin by (apply Hsub; constructor).
  assert (rest ⊆ all) as Hsub' by (intros x Hx; apply Hsub; by constructor).
  cbn [walk_loop] in Hw.
  destruct kd as [kd|]; cbn [krep] in Hr.
  2: { destruct Hr as [Hst Hm].
    destruct (payload_of_stored _ _ _ _ _ Hin Hst Hh) as [E|Hc]; [|by right]. rewrite E in Hw.
    simplify_eq. bsimpl. left. rewrite Hm. naive_solver. }
  destruct Hr as [h p old m Hst Hm|h p nx m m1 Hst Hp Hc Hpre Hout|h cs bv kds m Hst Hc Hnone Hnib Hbv Hocc];
    (destruct (payload_of_stored _ _ _ _ _ Hin Hst Hh) as [E|Hcol]; [|by right]); rewrite E in Hw.
  - left. rewrite Hm. rewrite (proj2 (Nat.ltb_ge _ _) Hpos) in Hw.
    destruct (negb _); [done|]. repeat case_bool_decide; case_decide; simplify_eq; congruence.
  - rewrite (proj2 (Nat.ltb_ge _ _) Hpos) in Hw. cbn [orb] in Hw. unfold starts_with in Hw.
    case_bool_decide as Hpk; cbn [negb] in Hw.
    2: { left. rewrite Hout by done. injection Hw as Hw. bsimpl. naive_solver. }
    destruct rest as [|nraw rest]; [done|]. case_bool_decide as Hnx; [done|].
    destruct (IH nraw rest (Some KBranch) nx m1 (pos + length p)%nat) as [->|]; auto.
    { apply prefix_length in Hpk. rewrite length_drop in Hpk. lia. }
    left. destruct Hpk as [r Hr]. rewrite Hr, Hpre. f_equal.
    rewrite <- drop_drop, Hr. by rewrite drop_app_length.
  - destruct (Nat.eqb_spec pos (length key_n)) as [->|Hpos'].
    { left. rewrite drop_all. injection Hw as Hw. bsimpl. naive_solver. }
    destruct (lookup_lt_is_Some_2 key_n pos) as [n Hnp]; [lia|]. rewrite Hnp in Hw.
    assert (nibble n) as Hnn by (eapply Forall_lookup_1; eauto). unfold nibble in Hnn.
    rewrite (drop_S _ _ _ Hnp). destruct (cs !! Z.to_nat n) as [[c|]|] eqn:Hcn; [| |done].
    + destruct rest as [|nraw rest]; [done|]. case_bool_decide as Hcx; [done|].
      specialize (Hc _ c Hcn). rewrite Z2Nat.id in Hc by lia.
      destruct (IH nraw rest (Some (kds (Z.to_nat n))) c (sub m n) (pos + 1)%nat) as [->|]; auto; [lia|].
      left. by rewrite Nat.add_1_r.
    + left. specialize (Hnone _ (drop (S pos) key_n) Hcn). rewrite Z2Nat.id in Hnone by lia.
      rewrite Hnone. injection Hw as Hw. bsimpl. naive_solver.
Qed.

(** What a walk collects: a chain from [h] that the verifier accepts. *)
Definition chain_for (h : bytes) (key_n : list Z) (pos : nat) (v : option bytes)
    (chain : list bytes) : Prop :=
  ∃ raw rest, chain = raw :: rest ∧ hash_encoded raw = h ∧
    walk_loop chain key_n pos v = Some true.

Lemma node_bytes_stored t n h :
  good (t_nodes t) → stored (st_log (t_nodes t)) n h →
  node_bytes t h = Some (serialize_node n) ∧ deserialize_node (serialize_node n) = Some n ∧
  hash_encoded (serialize_node n) = h.
Proof.
  intros Hg (-> & HL & Hn). split; [by apply Hg|]. split; [by apply node_roundtrip|done].
Qed.

Lemma prove_walk_spec fuel t kd h m key_n pos acc :
  good (t_nodes t) → krep (st_log (t_nodes t)) kd h m → nibbles key_n → (pos ≤ length key_n)%nat →
  (length key_n - pos < fuel)%nat →
  ∃ chain, prove_walk fuel t h (drop pos key_n) acc = Some (Some (acc ++ chain, m (drop pos key_n))) ∧
    chain_for h key_n pos (m (drop pos key_n)) chain.
Proof.
  intros Hg Hr Hn. revert kd h m pos acc Hr.
  induction fuel as [|fuel IH]; intros kd h m pos acc Hr Hpos Hfuel; [lia|].
  pose proof (proj2 (Nat.ltb_ge _ _) Hpos) as Hltb. cbn [prove_walk].
  destruct kd as [kd|]; cbn [krep] in Hr.
  2: { destruct Hr as [Hst Hm]. destruct (node_bytes_stored _ _ _ Hg Hst) as (-> & -> & E).
    rewrite Hm. eexists. split; [reflexivity|]. by eexists _, []. }
  destruct Hr as [h p old m Hst Hm|h p nx m m1 Hst Hp Hc Hpre Hout|h cs bv kds m Hst Hc Hnone Hnib Hbv Hocc];
    destruct (node_bytes_stored _ _ _ Hg Hst) as (-> & Ed & E); rewrite Ed.
  - assert (m (drop pos key_n) = if bool_decide (p = drop pos key_n) then Some old else None) as ->
      by (rewrite Hm; case_decide; case_bool_decide; congruence).
    eexists. split; [reflexivity|]. eexists _, []. split; [done|]. split; [exact E|].
    cbn [walk_loop]. rewrite Ed, Hltb. cbn. by repeat case_bool_decide.
  - unfold starts_with. case_bool_decide as Hpk; cbn [negb].
    + destruct Hpk as [r Hr]. rewrite Hr, drop_app_length, Hpre.
      assert (r = drop (pos + length p) key_n) as -> by (by rewrite <- drop_drop, Hr, drop_app_length).
      pose proof (f_equal length Hr) as Hlen. rewrite length_app, !length_drop in Hlen.
      assert (length p ≠ 0%nat) by by destruct p.
      destruct (IH (Some KBranch) nx m1 (pos + length p)%nat (acc ++ [serialize_node (Extension p nx)]))
        as (chain & Ew & nraw & rest & -> & Eh & Hw); [done|lia|lia|].
      rewrite Ew. eexists. split; [by rewrite <- app_assoc|].
      eexists _, _. split; [done|]. split; [exact E|]. cbn [app walk_loop]. rewrite Ed, Hltb.
      unfold starts_with. rewrite Hr, bool_decide_true by by apply prefix_app_r.
      cbn [orb negb]. by rewrite (bool_decide_false (nx ≠ _)) by (rewrite Eh; by intros []).
    + rewrite (Hout _ Hpk). eexists. split; [reflexivity|]. eexists _, []. split; [done|].
      split; [exact E|]. cbn [app walk_loop]. rewrite Ed, Hltb. unfold starts_with.
      by rewrite bool_decide_false by done.
  - destruct (decide (pos = length key_n)) as [->|Hne].
    { rewrite drop_all. rewrite Hbv. eexists. split; [reflexivity|]. eexists _, []. split; [done|].
      split; [exact E|]. cbn [app walk_loop]. rewrite Ed, Nat.eqb_refl. by rewrite !bool_decide_true. }
    destruct (lookup_lt_is_Some_2 key_n pos) as [n Hnp]; [lia|]. rewrite (drop_S _ _ _ Hnp).
    assert (nibble n) as Hnn by (eapply Forall_lookup_1; eauto).
    assert (slots_ok cs) as Hslots by (by destruct Hst as (_ & _ & ? & ? & _)).
    destruct (slots_lookup cs n Hslots Hnn) as [c Hcn]. rewrite Hcn. unfold nibble in Hnn.
    destruct c as [c|].
    + specialize (Hc _ c Hcn). rewrite Z2Nat.id in Hc by lia.
      destruct (IH (Some (kds (Z.to_nat n))) c (sub m n) (S pos) (acc ++ [serialize_node (Branch cs bv)]))
        as (chain & Ew & nraw & rest & -> & Eh & Hw); [done|lia|lia|].
      rewrite Ew. eexists. split; [by rewrite <- app_assoc|].
      eexists _, _. split; [done|]. split; [exact E|]. cbn [app walk_loop]. rewrite Ed.
      rewrite (proj2 (Nat.eqb_neq _ _) Hne), Hnp, Hcn, Nat.add_1_r.
      by rewrite (bool_decide_false (c ≠ _)) by (rewrite Eh; by intros []).
    + specialize (Hnone _ (drop (S pos) key_n) Hcn). rewrite Z2Nat.id in Hnone by lia.
      rewrite Hnone. eexists. split; [reflexivity|]. eexists _, []. split; [done|].
      split; [exact E|]. cbn [app walk_loop]. rewrite Ed.
      by rewrite (proj2 (Nat.eqb_neq _ _) Hne), Hnp, Hcn.
Qed.

Lemma mpt_prove_complete t mm key :
  tinv t mm → bytes_ok key →
  ∃ p, mpt_prove t key = Some (Some p) ∧ mp_value p = mm !! key ∧
       mpt_verify key p (t_root t) = Some true ∧
       prove_exclusion t key = Some (if mm !! key then None else Some p).
Proof.
  intros (Hg & _ & kd & m & Hr & Hm) Hk.
  destruct (prove_walk_spec (fuel_for (bytes_to_nibbles key)) t kd (t_root t) m
    (bytes_to_nibbles key) 0 [] Hg Hr (nibbles_of_bytes _ Hk)) as (chain & Ew & raw & rest & -> & Eh & Hw);
    [lia|unfold fuel_for; lia|].
  rewrite drop_0, (proj1 Hm) in * by done. cbn [app] in Ew.
  destruct (prove_complete (raw :: rest) 0 raw eq_refl) as (mp & Emp & _ & Hmv).
  eassert (mpt_prove t key = Some (Some _)) as Ep.
  { unfold mpt_prove, bind_chain. rewrite Ew, Emp. reflexivity. }
  eexists. split; [exact Ep|]. split; [done|]. split.
  - unfold mpt_verify. cbn [mp_nodes mp_value mp_chain_merkle mp_chain_merkle_root].
    rewrite !bool_decide_false by (by intros []). rewrite Hmv. exact Hw.
  - unfold prove_exclusion. rewrite Ep. cbn [mp_value]. by destruct (mm !! key).
Qed.

Lemma mpt_verify_sound t mm key p :
  tinv t mm → bytes_ok key → mpt_verify key p (t_root t) = Some true →
  mp_value p = mm !! key ∨ proof_collision (mp_nodes p) (st_log (t_nodes t)).
Proof.
  intros (Hg & _ & kd & m & Hr & Hm) Hk Hv. unfold mpt_verify in Hv.
  destruct (mp_nodes p) as [|raw rest] eqn:En; [done|].
  case_bool_decide as Hh; [done|]. case_bool_decide; [done|].
  destruct (negb _); [done|]. unfold walk_verify in Hv.
  destruct (walk_sound (raw :: rest) (raw :: rest) (st_log (t_nodes t)) kd (t_root t) m
    (bytes_to_nibbles key) 0 (mp_value p) raw rest) as [E|Hc]; auto.
  - by apply nibbles_of_bytes.
  - lia.
  - left. by rewrite E, drop_0, (proj1 Hm).
Qed.

(** C9: trie proofs are complete and cannot be forged.  On a trie that holds
    the map [mm], [prove] succeeds for every key, present or absent, with the
    value of the key in the proof, and [verify] accepts the proof against the
    root; [prove_exclusion] succeeds exactly when the key is absent.
    Conversely, whatever proof [verify] accepts against the root carries the
    value of the key in [mm] (so neither inclusion nor exclusion can be
    forged), unless a payload of the proof collides with a stored node. *)
Theorem mpt_proofs_exact t mm key :
  tinv t mm → bytes_ok key →
  (∃ p, mpt_prove t key = Some (Some p) ∧ mp_value p = mm !! key ∧
        mpt_verify key p (t_root t) = Some true ∧
        prove_exclusion t key = Some (if mm !! key then None else Some p)) ∧
  (∀ p, mpt_verify key p (t_root t) = Some true →
        mp_value p = mm !! key ∨ proof_collision (mp_nodes p) (st_log (t_nodes t))).
Proof. intros Ht Hk. split; [by apply mpt_prove_complete|]. intros p. by apply mpt_verify_sound. Qed.

End sound.

(** ** Witnesses *)

#[local] Existing Instance toy_crypto.
#[local] Existing Instance toy_crypto_laws.

Definition junk_proof : MptProof :=
  {| mp_nodes := [[9; 9]; []]; mp_value := Some [1];
     mp_chain_merkle := {| leaf_index := 7; siblings := [] |}; mp_chain_merkle_root := [] |}.

Lemma mpt_verify_total_witness : is_Some (mpt_verify [1; 2] junk_proof [3]).
Proof. apply (mpt_verify_total [1; 2] junk_proof [3]). by_eval. Defined.

Definition sample_trie : Trie := trie_of (trie_run sample_ops').

Lemma sample_trie_inv : tinv sample_trie (map_run sample_ops').
Proof.
  destruct (run_inv sample_ops' Trie_new ∅ tinv_new) as (t & E & Ht).
  - by_eval.
  - apply collision_free_b_spec. vm_compute. reflexivity.
  - unfold sample_trie, trie_run. rewrite E. exact Ht.
Qed.

Definition sample_proof : MptProof :=
  match mpt_prove sample_trie [1; 2] with Some (Some p) => p | _ => junk_proof end.

Lemma mpt_proofs_exact_witness :
  (∃ p, mpt_prove sample_trie [1; 3] = Some (Some p) ∧ mp_value p = map_run sample_ops' !! [1; 3] ∧
        mpt_verify [1; 3] p (t_root sample_trie) = Some true ∧
        prove_exclusion sample_trie [1; 3] =
          Some (if map_run sample_ops' !! [1; 3] then None else Some p)) ∧
  (mp_value sample_proof = map_run sample_ops' !! [1; 2] ∨
   proof_collision (mp_nodes sample_proof) (st_log (t_nodes sample_trie))).
Proof.
  split.
  - refine (proj1 (mpt_proofs_exact sample_trie (map_run sample_ops') [1; 3] sample_trie_inv _)). by_eval.
  - refine (proj2 (mpt_proofs_exact sample_trie (map_run sample_ops') [1; 2] sample_trie_inv _) sample_proof _);
      [by_eval|vm_compute; reflexivity].
Defined.
