(* ===== verification/Store.v ===== *)
(** Key-value stores and versioned slots: [storage/src/kv.rs],
    [storage/src/memory.rs] and [state/src/version.rs].

    [Store] is the trait, [StoreLaws] what its clients rely on (a failed
    operation leaves the contents alone); [MemoryStore] is the instance of the
    code.  Shown: a batch is all or nothing; and the versioned overlay keeps
    the history of every slot, with optimistic validation succeeding exactly
    on the current version. *)

From S2P Require Import Prelude Types Codec.
From Stdlib Require Import String.
From stdpp Require Import list.

#[local] Open Scope Z_scope.
#[local] Open Scope l1_scope.

(** ** [kv.rs] *)

Inductive BatchOp : Type :=
| BPut (key value : bytes)
| BDelete (key : bytes).

(** Methods on [&mut self] return the store and the result. *)
Class Store (S : Type) := {
  kv_get : S → bytes → result (option bytes) TypesError;
  kv_put : S → bytes → bytes → S * result unit TypesError;
  kv_delete : S → bytes → S * result unit TypesError;
  kv_prefix : S → bytes → result (list (bytes * bytes)) TypesError;
}.

Class StoreLaws (S : Type) `{!Store S} := {
  kv_view : S → gmap bytes bytes;
  kv_get_ok s k v : kv_get s k = Ok v → v = kv_view s !! k;
  kv_put_view s k v :
    kv_view (kv_put s k v).1 =
      match (kv_put s k v).2 with Ok _ => <[k := v]> (kv_view s) | Err _ => kv_view s end;
  kv_delete_view s k :
    kv_view (kv_delete s k).1 =
      match (kv_delete s k).2 with Ok _ => base.delete k (kv_view s) | Err _ => kv_view s end;
}.

Section batch.
Context {S : Type} `{!Store S}.

Definition op_key (op : BatchOp) : bytes :=
  match op with BPut k _ => k | BDelete k => k end.

(** The first loop: the prior value of every key, once. *)
Fixpoint batch_snapshot (s : S) (ops : list BatchOp) (snap : list (bytes * option bytes)) :
    result (list (bytes * option bytes)) TypesError :=
  match ops with
  | [] => Ok snap
  | op :: ops =>
      let key := op_key op in
      if existsb (λ e, bool_decide (e.1 = key)) snap then batch_snapshot s ops snap
      else let? v := kv_get s key in batch_snapshot s ops (snap ++ [(key, v)])
  end.

Fixpoint restore (s : S) (snap : list (bytes * option bytes)) : S :=
  match snap with
  | [] => s
  | (k, Some v) :: snap => restore (kv_put s k v).1 snap
  | (k, None) :: snap => restore (kv_delete s k).1 snap
  end.

(** The second loop: roll back on the first error. *)
Fixpoint batch_apply (s : S) (ops : list BatchOp) (snap : list (bytes * option bytes)) :
    S * result unit TypesError :=
  match ops with
  | [] => (s, Ok tt)
  | op :: ops =>
      let r := match op with
               | BPut k v => kv_put s k v
               | BDelete k => kv_delete s k
               end in
      match r.2 with
      | Err e => (restore r.1 snap, Err e)
      | Ok _ => batch_apply r.1 ops snap
      end
  end.

Definition apply_batch (s : S) (ops : list BatchOp) : S * result unit TypesError :=
  match batch_snapshot s ops [] with
  | Err e => (s, Err e)
  | Ok snap => batch_apply s ops snap
  end.

(** What a batch means on the contents. *)
Definition view_op (m : gmap bytes bytes) (op : BatchOp) : gmap bytes bytes :=
  match op with BPut k v => <[k := v]> m | BDelete k => base.delete k m end.

Context `{!StoreLaws S}.

Definition snap_of (s : S) (snap : list (bytes * option bytes)) : Prop :=
  Forall (λ e, e.2 = kv_view s !! e.1) snap.

Lemma batch_snapshot_ok s ops snap snap' :
  snap_of s snap → batch_snapshot s ops snap = Ok snap' →
  snap_of s snap' ∧ snap.*1 ⊆ snap'.*1 ∧ op_key <$> ops ⊆ snap'.*1.
Proof.
  revert snap. induction ops as [|op ops IH]; intros snap Hs E; cbn in E.
  { simplify_eq. split; [done|]. split; [by intros k|]. by intros k Hk%not_elem_of_nil. }
  destruct (existsb _ snap) eqn:Ex.
  - destruct (IH _ Hs E) as (H1 & H2 & H3). split; [done|]. split; [done|].
    intros k Hk. cbn in Hk. apply elem_of_cons in Hk as [->|Hk]; [|by apply H3]. apply H2.
    apply existsb_exists in Ex as ([k' v] & Hin & Hk'). apply bool_decide_eq_true in Hk'.
    cbn in Hk'. subst. apply list_elem_of_fmap. exists (op_key op, v). split; [done|].
    by apply list_elem_of_In.
  - destruct (kv_get s (op_key op)) as [v|e] eqn:Eg; [|done]. cbn in E.
    apply kv_get_ok in Eg. destruct (IH (snap ++ [(op_key op, v)])) as (H1 & H2 & H3); [|done|].
    { apply Forall_app. split; [done|]. by constructor. }
    assert (snap.*1 ++ [op_key op] ⊆ snap'.*1) as H4 by (by rewrite fmap_app in H2).
    split; [done|]. split.
    + intros k Hk. apply H4, elem_of_app. by left.
    + intros k Hk. cbn in Hk. apply elem_of_cons in Hk as [->|Hk]; [|by apply H3].
      apply H4, elem_of_app. right. constructor.
Qed.

(** The values of the snapshot can be written back. *)
Definition restorable (m : gmap bytes bytes) : Prop :=
  (∀ s k v, m !! k = Some v → is_ok (kv_put s k v).2 = true) ∧
  (∀ s k, m !! k = None → is_ok (kv_delete s k).2 = true).

Lemma restore_view m s snap :
  restorable m → Forall (λ e, e.2 = m !! e.1) snap →
  (∀ k, k ∉ snap.*1 → kv_view s !! k = m !! k) → kv_view (restore s snap) = m.
Proof.
  intros [Hp Hd] Hs. revert s. induction Hs as [|[k v] snap Hk Hs IH]; intros s Hout.
  { apply map_eq. intros k. apply Hout. apply not_elem_of_nil. }
  cbn in Hk. subst v. cbn [restore]. destruct (m !! k) as [v|] eqn:Ek; apply IH; intros k' Hk'.
  - rewrite kv_put_view. specialize (Hp s k v Ek). destruct (kv_put s k v).2; [|done].
    destruct (decide (k' = k)) as [->|Hne]; [by rewrite lookup_insert_eq|].
    rewrite lookup_insert_ne by done. apply Hout. cbn. by apply not_elem_of_cons.
  - rewrite kv_delete_view. specialize (Hd s k Ek). destruct (kv_delete s k).2; [|done].
    destruct (decide (k' = k)) as [->|Hne]; [by rewrite lookup_delete_eq|].
    rewrite lookup_delete_ne by done. apply Hout. cbn. by apply not_elem_of_cons.
Qed.

Lemma batch_apply_view m s ops snap :
  restorable m → Forall (λ e, e.2 = m !! e.1) snap → op_key <$> ops ⊆ snap.*1 →
  (∀ k, k ∉ snap.*1 → kv_view s !! k = m !! k) →
  kv_view (batch_apply s ops snap).1 =
    match (batch_apply s ops snap).2 with
    | Ok _ => foldl view_op (kv_view s) ops
    | Err _ => m
    end.
Proof.
  intros Hr Hs. revert s. induction ops as [|op ops IH]; intros s Hin Hout; [done|].
  assert (op_key op ∈ snap.*1) as Hop by (apply Hin; constructor).
  assert (op_key <$> ops ⊆ snap.*1) as Hin' by (intros k Hk; apply Hin; by constructor).
  cbn [batch_apply]. set (r := match op with BPut k v => kv_put s k v | BDelete k => kv_delete s k end).
  assert (kv_view r.1 = match r.2 with Ok _ => view_op (kv_view s) op | Err _ => kv_view s end) as Ev
    by (unfold r; destruct op; [apply kv_put_view|apply kv_delete_view]).
  destruct r.2 as [u|e] eqn:Er; cbn [fst snd].
  - cbn [foldl]. rewrite <- Ev. apply IH; [done|]. intros k Hk. rewrite Ev.
    assert (k ≠ op_key op) by (intros ->; done). rewrite <- (Hout k Hk).
    destruct op; cbn in *; [by rewrite lookup_insert_ne|by rewrite lookup_delete_ne].
  - apply restore_view; [done|done|]. intros k Hk. rewrite Ev. by apply Hout.
Qed.

Lemma batch_atomic s ops :
  restorable (kv_view s) →
  kv_view (apply_batch s ops).1 =
    match (apply_batch s ops).2 with
    | Ok _ => foldl view_op (kv_view s) ops
    | Err _ => kv_view s
    end.
Proof.
  intros Hr. unfold apply_batch. destruct (batch_snapshot s ops []) as [snap|e] eqn:E; [|done].
  apply batch_snapshot_ok in E as (Hs & _ & Hin); [|constructor].
  by apply batch_apply_view.
Qed.

(** A batch is atomic: [apply_batch] either succeeds and applies all
    operations in order, or fails and leaves the contents as they were, for
    every store whose prior values can be written back. *)
Theorem apply_batch_atomic s ops :
  restorable (kv_view s) →
  kv_view (apply_batch s ops).1 =
    match (apply_batch s ops).2 with
    | Ok _ => foldl view_op (kv_view s) ops
    | Err _ => kv_view s
    end.
Proof. apply batch_atomic. Qed.

End batch.

(** ** [memory.rs] *)

Record MemoryStore := { ms_map : gmap bytes bytes }.

Definition MemoryStore_new : MemoryStore := {| ms_map := ∅ |}.

#[export] Instance memory_store : Store MemoryStore := {|
  kv_get s k := Ok (ms_map s !! k);
  kv_put s k v := ({| ms_map := <[k := v]> (ms_map s) |}, Ok tt);
  kv_delete s k := ({| ms_map := base.delete k (ms_map s) |}, Ok tt);
  kv_prefix s p :=
    Ok (List.filter (λ e, bool_decide (p `prefix_of` e.1)) (btree_iter (ms_map s)));
|}.

#[export] Instance memory_store_laws : StoreLaws MemoryStore.
Proof. refine {| kv_view := ms_map |}; [|done..]. intros s k v E. by injection E. Defined.

(** A store with a size limit on values, where batches do fail. *)
Record LimitedStore := { ls_map : gmap bytes bytes }.

#[export] Instance limited_store : Store LimitedStore := {|
  kv_get s k := Ok (ls_map s !! k);
  kv_put s k v :=
    if (2 <? length v)%nat then (s, Err (Kv "too long"%string))
    else ({| ls_map := <[k := v]> (ls_map s) |}, Ok tt);
  kv_delete s k := ({| ls_map := base.delete k (ls_map s) |}, Ok tt);
  kv_prefix s p := Ok [];
|}.

#[export] Instance limited_store_laws : StoreLaws LimitedStore.
Proof.
  refine {| kv_view := ls_map |}; [| |done].
  - intros s k v E. by injection E.
  - intros s k v. unfold kv_put, limited_store. by destruct (2 <? length v)%nat.
Defined.

Lemma apply_batch_atomic_witness :
  let s := {| ls_map := {[ [1] := [7] ]} |} in
  let ops := [BPut [1] [8]; BDelete [2]; BPut [3] [1; 2; 3]] in
  (apply_batch s ops).2 = Err (Kv "too long"%string) ∧ kv_view (apply_batch s ops).1 = kv_view s.
Proof.
  intros s ops. split; [reflexivity|].
  refine (apply_batch_atomic s ops _). split; [|done].
  intros s' k v Hk. cbn in Hk. apply lookup_singleton_Some in Hk as [<- <-]. reflexivity.
Defined.

(** ** [version.rs]: versioned slots *)

Record VersionedRead := { vr_version : Z; vr_value : option bytes }.

Section versioned.
Context {S : Type} `{!Store S}.

Definition version_key (key : bytes) (version : Z) : bytes := key ++ [0] ++ be_bytes 8 version.

Definition latest (s : S) (key : bytes) : result Z TypesError :=
  let? o := kv_get s key in
  match o with
  | None => Ok 0
  | Some b => if (length b =? 8)%nat then Ok (of_be b) else Err (Kv "corrupt version header"%string)
  end.

Definition vread (s : S) (key : bytes) (version : Z) : result VersionedRead TypesError :=
  if version =? 0 then Ok {| vr_version := 0; vr_value := None |}
  else let? value := kv_get s (version_key key version) in
       Ok {| vr_version := version; vr_value := value |}.

Definition vwrite (s : S) (key value : bytes) : S * result Z TypesError :=
  match latest s key with
  | Err e => (s, Err e)
  | Ok l =>
      let next := sat_add U64_MAX l 1 in
      if next =? 0 then (s, Err (Kv "version overflow"%string))
      else
        let r := apply_batch s [BPut key (be_bytes 8 next); BPut (version_key key next) value] in
        (r.1, match r.2 with Ok _ => Ok next | Err e => Err e end)
  end.

Definition vvalidate (s : S) (key : bytes) (observed : Z) : result bool TypesError :=
  let? l := latest s key in Ok (l =? observed).

End versioned.

(** Run a list of writes; [None] when one of them fails. *)
Fixpoint write_all (s : MemoryStore) (ws : list (bytes * bytes)) : option MemoryStore :=
  match ws with
  | [] => Some s
  | (k, v) :: ws => match vwrite s k v with (s', Ok _) => write_all s' ws | _ => None end
  end.

(** The values written to [k], oldest first. *)
Definition history (k : bytes) (ws : list (bytes * bytes)) : list bytes :=
  (List.filter (λ e, bool_decide (e.1 = k)) ws).*2.

Lemma history_app k ws ws' : history k (ws ++ ws') = history k ws ++ history k ws'.
Proof. unfold history. by rewrite List.filter_app, fmap_app. Qed.

Lemma history_one k k' v : history k [(k', v)] = if decide (k' = k) then [v] else [].
Proof. unfold history. cbn. case_bool_decide; by case_decide. Qed.

Lemma length_history k ws : (length (history k ws) ≤ length ws)%nat.
Proof.
  induction ws as [|[k' v] ws IH]; [done|].
  change ((k', v) :: ws) with ([(k', v)] ++ ws). rewrite history_app, history_one.
  case_decide; cbn; lia.
Qed.

Lemma length_version_key k v : length (version_key k v) = (length k + 9)%nat.
Proof. unfold version_key. by rewrite !length_app, length_be_bytes. Qed.

Lemma version_key_inj n k k' v v' :
  length k = n → length k' = n → u64 v → u64 v' →
  version_key k v = version_key k' v' → k = k' ∧ v = v'.
Proof.
  intros Hk Hk' Hv Hv' E. unfold version_key in E.
  apply app_inj_1 in E as [-> E]; [|congruence]. split; [done|].
  apply app_inj_1 in E as [_ E]; [|done].
  apply (be_bytes_inj 8); [ulia|ulia|done].
Qed.

(** The slots whose keys have length [n] hold the histories of [ws]. *)
Definition slots_inv (n : nat) (m : gmap bytes bytes) (ws : list (bytes * bytes)) : Prop :=
  ∀ k, length k = n →
    m !! k = match history k ws with [] => None | h => Some (be_bytes 8 (len h)) end ∧
    ∀ i v, history k ws !! i = Some v → m !! version_key k (Z.of_nat i + 1) = Some v.

Lemma slots_latest n s ws k :
  slots_inv n (ms_map s) ws → length k = n → len ws ≤ U64_MAX →
  latest s k = Ok (len (history k ws)).
Proof.
  intros Hi Hk Hl. unfold latest. cbn. rewrite (proj1 (Hi k Hk)).
  pose proof (length_history k ws). destruct (history k ws) as [|v h]; [done|].
  rewrite length_be_bytes. cbn [Nat.eqb]. by rewrite of_be_be_bytes by ulia.
Qed.

Lemma slots_write n s ws k v :
  slots_inv n (ms_map s) ws → length k = n → len ws < U64_MAX →
  ∃ s', vwrite s k v = (s', Ok (len (history k ws) + 1)) ∧ slots_inv n (ms_map s') (ws ++ [(k, v)]).
Proof.
  intros Hi Hk Hl. pose proof (length_history k ws) as Hh.
  assert (sat_add U64_MAX (len (history k ws)) 1 = len (history k ws) + 1) as Es
    by (unfold sat_add; lia).
  unfold vwrite. rewrite (slots_latest n s ws k Hi Hk) by lia. rewrite Es.
  replace (_ =? 0) with false by (symmetry; apply Z.eqb_neq; lia).
  set (nx := len (history k ws) + 1). eexists. split.
  { cbn zeta. replace (apply_batch s _).2 with (@Ok unit TypesError tt); [reflexivity|].
    unfold apply_batch. cbn. by destruct (bool_decide _ || false). }
  assert (∀ k', length k' = n → ms_map (apply_batch s [BPut k (be_bytes 8 nx); BPut (version_key k nx) v]).1
    !! k' = (if decide (k' = k) then Some (be_bytes 8 nx) else ms_map s !! k')) as Hhead.
  { intros k' Hk'. unfold apply_batch. cbn. destruct (bool_decide _ || false); cbn.
    all: rewrite lookup_insert_ne by (intros <-; rewrite length_version_key in Hk'; lia).
    all: case_decide; [subst; by rewrite lookup_insert_eq|by rewrite lookup_insert_ne]. }
  assert (∀ k' u, length k' = n → u64 u →
    ms_map (apply_batch s [BPut k (be_bytes 8 nx); BPut (version_key k nx) v]).1 !! version_key k' u
    = (if decide (k' = k ∧ u = nx) then Some v else ms_map s !! version_key k' u)) as Hver.
  { intros k' u Hk' Hu. unfold apply_batch. cbn. destruct (bool_decide _ || false); cbn.
    all: case_decide as Hd; [destruct Hd as [-> ->]; by rewrite lookup_insert_eq|].
    all: rewrite lookup_insert_ne by (intros E; apply (version_key_inj n) in E as [-> ->];
      [by destruct Hd|done|done|unfold nx; ulia|done]).
    all: rewrite lookup_insert_ne; [done|]; intros E; apply (f_equal length) in E;
      rewrite length_version_key in E; lia. }
  intros k' Hk'. rewrite Hhead by done. rewrite history_app, history_one.
  split.
  - destruct (decide (k' = k)) as [->|Hne].
    + rewrite decide_True by done. destruct (history k ws) as [|h0 h] eqn:Eh; [done|].
      cbn [app]. do 2 f_equal. unfold nx. cbn [length]. rewrite length_app. cbn. lia.
    + rewrite decide_False by done. rewrite app_nil_r. by apply Hi.
  - intros i w Hw.
    assert (u64 (Z.of_nat i + 1)) as Hu.
    { apply lookup_lt_Some in Hw. pose proof (length_history k' ws). rewrite length_app in Hw.
      destruct (decide (k = k')); cbn in Hw; uint; lia. }
    rewrite Hver by done. destruct (decide (k = k')) as [<-|Hne].
    + apply lookup_snoc_Some in Hw as [[Hlt Hw]|[-> ->]].
      * rewrite decide_False by (intros [_ E]; unfold nx in E; lia). by apply Hi.
      * rewrite decide_True; [done|]. split; [done|unfold nx; lia].
    + rewrite app_nil_r in Hw. rewrite decide_False by naive_solver. by apply Hi.
Qed.

Lemma slots_write_all n s ws ws' :
  slots_inv n (ms_map s) ws → Forall (λ e, length e.1 = n) ws' → len (ws ++ ws') ≤ U64_MAX →
  ∃ s', write_all s ws' = Some s' ∧ slots_inv n (ms_map s') (ws ++ ws').
Proof.
  intros Hi Hf. revert s ws Hi. induction Hf as [|[k v] ws' Hk Hf IH]; intros s ws Hi Hl.
  { exists s. by rewrite app_nil_r. }
  rewrite length_app in Hl. cbn [length] in Hl.
  destruct (slots_write n s ws k v Hi Hk) as (s1 & E & Hi1); [lia|].
  destruct (IH s1 (ws ++ [(k, v)]) Hi1) as (s' & E' & Hi').
  { rewrite !length_app. cbn. lia. }
  exists s'. cbn [write_all]. rewrite E. split; [done|].
  change ((k, v) :: ws') with ([(k, v)] ++ ws'). by rewrite app_assoc.
Qed.

(** Versioned slots keep the whole history of a key.  After any writes to
    keys of one length (contract slots have 64 bytes), no write has failed;
    [validate] accepts exactly the number of writes to the key as the current
    version, so a stale observation is always detected; and [read] at
    version [i+1] returns the [i]-th value written, however many writes to
    this or other keys came later. *)
Theorem versioned_slots_history n ws :
  Forall (λ e, length e.1 = n) ws → len ws ≤ U64_MAX →
  ∃ s, write_all MemoryStore_new ws = Some s ∧ ∀ k, length k = n →
    (∀ obs, vvalidate s k obs = Ok (len (history k ws) =? obs)) ∧
    (∀ i v, history k ws !! i = Some v →
       vread s k (Z.of_nat i + 1) =
         Ok {| vr_version := Z.of_nat i + 1; vr_value := Some v |}).
Proof.
  intros Hf Hl.
  destruct (slots_write_all n MemoryStore_new [] ws) as (s & E & Hi); [|done|done|].
  { intros k Hk. cbn. split; [apply lookup_empty|]. intros i v Hv. by rewrite lookup_nil in Hv. }
  cbn [app] in Hi. exists s. split; [done|]. intros k Hk. split.
  - intros obs. unfold vvalidate. by rewrite (slots_latest n s ws k).
  - intros i v Hv. unfold vread. replace (_ =? 0) with false by (symmetry; apply Z.eqb_neq; lia).
    cbn. by rewrite (proj2 (Hi k Hk) i v Hv).
Qed.

Lemma versioned_slots_history_witness :
  let ws := [([1; 1], [5]); ([2; 2], [6]); ([1; 1], [7])] in
  ∃ s, write_all MemoryStore_new ws = Some s ∧ ∀ k, length k = 2%nat →
    (∀ obs, vvalidate s k obs = Ok (len (history k ws) =? obs)) ∧
    (∀ i v, history k ws !! i = Some v →
       vread s k (Z.of_nat i + 1) =
         Ok {| vr_version := Z.of_nat i + 1; vr_value := Some v |}).
Proof. intros ws. apply (versioned_slots_history 2 ws); [by repeat constructor|by_eval]. Defined.

(** Keys of different lengths can alias: the record of version 1 of a slot
    is stored under a key that is itself a slot key, so a slot that was never
    written reports the bytes of the other slot's value as its version. *)
Theorem version_key_alias k v :
  length v = 8%nat →
  latest (vwrite MemoryStore_new k v).1 (version_key k 1) = Ok (of_be v).
Proof.
  intros Hv.
  assert (∀ m : gmap bytes bytes, latest {| ms_map := <[version_key k 1 := v]> m |} (version_key k 1)
    = Ok (of_be v)) as Hl.
  { intros m. unfold latest. cbn. rewrite lookup_insert_eq. by rewrite Hv. }
  assert (latest MemoryStore_new k = Ok 0) as E.
  { unfold latest. cbn. by rewrite lookup_empty. }
  unfold vwrite. rewrite E. change (sat_add U64_MAX 0 1) with 1. cbn. unfold apply_batch. cbn.
  destruct (bool_decide _ || false); apply Hl.
Qed.

Lemma version_key_alias_witness :
  latest (vwrite MemoryStore_new [9] (be_bytes 8 77)).1 (version_key [9] 1)
    = Ok (of_be (be_bytes 8 77)).
Proof. apply (version_key_alias [9] (be_bytes 8 77)). reflexivity. Defined.
