(* ===== verification/StoreCodec.v ===== *)
(** Stored encodings and keys: [storage/src/codec.rs].

    Headers by their preimage, signed transactions, block bodies and the
    transaction locator.  Shown: a block body and its encoding determine each
    other ([block_body_roundtrip]). *)

From S2P Require Import Prelude Types Codec Crypto.
From Stdlib Require Import String.
From stdpp Require Import list.

#[local] Open Scope Z_scope.
#[local] Open Scope l1_scope.

(** ** Keys *)

Definition PREFIX_HEADER_HEIGHT : bytes := ascii_bytes "h/".
Definition PREFIX_HEADER_HASH : bytes := ascii_bytes "H/".
Definition PREFIX_BLOCK : bytes := ascii_bytes "b/".
Definition PREFIX_TX : bytes := ascii_bytes "t/".
Definition PREFIX_RECEIPT : bytes := ascii_bytes "r/".
Definition PREFIX_APP : bytes := ascii_bytes "a/".
Definition KEY_TIP : bytes := ascii_bytes "m/tip".
Definition KEY_GENESIS : bytes := ascii_bytes "m/genesis".
Definition KEY_WAL : bytes := ascii_bytes "w/exec".

Definition header_height_key (height : Height) : bytes := PREFIX_HEADER_HEIGHT ++ be_bytes 8 height.
Definition header_hash_key (hash : Hash) : bytes := PREFIX_HEADER_HASH ++ hash.
Definition block_key (height : Height) : bytes := PREFIX_BLOCK ++ be_bytes 8 height.
Definition tx_index_key (tx_hash : Hash) : bytes := PREFIX_TX ++ tx_hash.
Definition receipt_key (tx_hash : Hash) : bytes := PREFIX_RECEIPT ++ tx_hash.
Definition app_hash_key (height : Height) : bytes := PREFIX_APP ++ be_bytes 8 height.

(** [None] is the panic of [Tx::encode]. *)
Definition tx_hash `{!Crypto} (tx : Tx) : option Hash := blake3 <$> tx_encode tx.

(** ** Headers *)

Definition HEADER_PREIMAGE_LEN : Z := 8 + 4 + 48 + 8 + 32 * 5.

Definition header_from_preimage (p : bytes) : result Header TypesError :=
  if negb (len p =? HEADER_PREIMAGE_LEN) then Err (BadLength HEADER_PREIMAGE_LEN (len p))
  else
    Ok {| h_fields := {| hf_height := of_be (slice 0 8 p); hf_round := of_be (slice 8 12 p);
                         hf_proposer := slice 12 60 p; hf_timestamp_ms := of_be (slice 60 68 p) |};
          h_tx_root := slice 68 100 p; h_state_root := slice 100 132 p;
          h_receipts_root := slice 132 164 p; h_validators_hash := slice 164 196 p;
          h_da_root := slice 196 228 p |}.

(** ** Signed transactions *)

Definition encode_signed_tx (s : SignedTx) : option bytes :=
  match tx_encode (st_tx s) with
  | None => None
  | Some t => Some (encode (be_bytes 4 (as_u32 (len t)) ++ t ++ st_signature s ++ st_public_key s))
  end.

Definition decode_signed_tx (buf : bytes) : result SignedTx TypesError :=
  let? p := decode buf in
  if len p <? 4 + 64 + 32 then Err (BadLength 100 (len p))
  else
    let tlen := of_be (slice 0 4 p) in
    let need := 4 + tlen + 64 + 32 in
    if negb (len p =? need) then Err (BadLength need (len p))
    else
      let n := Z.to_nat tlen in
      let? tx := tx_decode (slice 4 (4 + n) p) in
      Ok {| st_tx := tx; st_signature := slice (4 + n) (4 + n + 64) p;
            st_public_key := slice (4 + n + 64) (4 + n + 96) p |}.

(** ** Block bodies *)

(** Pieces with their lengths in front. *)
Definition prefixed (es : list bytes) : bytes :=
  concat ((λ e, be_bytes 4 (as_u32 (len e)) ++ e) <$> es).

Definition fields_bytes (f : HeaderFields) : bytes :=
  be_bytes 8 (hf_height f) ++ be_bytes 4 (hf_round f) ++ hf_proposer f ++ be_bytes 8 (hf_timestamp_ms f).

Definition encode_block_body (block : Block) : option bytes :=
  match mapM encode_signed_tx (b_txs block) with
  | None => None
  | Some es =>
      Some (encode (fields_bytes (b_header_fields block) ++
                    be_bytes 4 (as_u32 (len (b_txs block))) ++ prefixed es))
  end.

(** [for _ in 0..n]. *)
Fixpoint decode_txs (n : nat) (p : bytes) (i : nat) (txs : list SignedTx) :
    result (list SignedTx * nat) TypesError :=
  match n with
  | O => Ok (txs, i)
  | S n =>
      if len p <? Z.of_nat i + 4 then Err CodecTruncated
      else
        let elen := of_be (slice i (i + 4) p) in
        let i := (i + 4)%nat in
        if len p <? Z.of_nat i + elen then Err CodecTruncated
        else
          let? tx := decode_signed_tx (slice i (i + Z.to_nat elen) p) in
          decode_txs n p (i + Z.to_nat elen) (txs ++ [tx])
  end.

Definition decode_block_body (buf : bytes) : result Block TypesError :=
  let? p := decode buf in
  if len p <? 8 + 4 + 48 + 8 + 4 then Err (BadLength 72 (len p))
  else
    let n := of_be (slice 68 72 p) in
    let? r := decode_txs (Z.to_nat n) p 72 [] in
    if negb (Z.of_nat r.2 =? len p) then Err (CodecLength (Z.of_nat r.2) (len p))
    else
      Ok {| b_header_fields := {| hf_height := of_be (slice 0 8 p); hf_round := of_be (slice 8 12 p);
                                  hf_proposer := slice 12 60 p;
                                  hf_timestamp_ms := of_be (slice 60 68 p) |};
            b_txs := r.1 |}.

(** ** The transaction locator *)

Definition encode_tx_locator (height : Height) (index : Z) : bytes := be_bytes 8 height ++ be_bytes 4 index.

Definition decode_tx_locator (buf : bytes) : result (Height * Z) TypesError :=
  if negb (len buf =? 12) then Err (BadLength 12 (len buf))
  else Ok (of_be (slice 0 8 buf), of_be (slice 8 12 buf)).

(** ** Round trips *)

Definition fields_wf (f : HeaderFields) : Prop :=
  u64 (hf_height f) ∧ u32 (hf_round f) ∧ array 48 (hf_proposer f) ∧ u64 (hf_timestamp_ms f).

Definition signed_tx_wf (s : SignedTx) : Prop :=
  tx_wf (st_tx s) ∧ array 64 (st_signature s) ∧ array 32 (st_public_key s).

Definition block_wf (b : Block) : Prop :=
  fields_wf (b_header_fields b) ∧ Forall signed_tx_wf (b_txs b).

#[export] Instance fields_wf_dec f : Decision (fields_wf f).
Proof. unfold fields_wf. apply _. Defined.
#[export] Instance signed_tx_wf_dec s : Decision (signed_tx_wf s).
Proof. unfold signed_tx_wf. apply _. Defined.
#[export] Instance block_wf_dec b : Decision (block_wf b).
Proof. unfold block_wf. apply _. Defined.

Lemma header_roundtrip h : header_wf h → header_from_preimage (hash_preimage h) = Ok h.
Proof.
  intros (Hh & Hr & [Hp _] & Ht & [H1 _] & [H2 _] & [H3 _] & [H4 _] & [H5 _]).
  unfold header_from_preimage, hash_preimage.
  destruct h as [[height round proposer ts] r1 r2 r3 r4 r5]; cbn in *.
  autorewrite with l1simpl. rewrite Hp, H1, H2, H3, H4, H5. cbn [negb].
  change (negb _) with false. cbn iota. slices.
  by rewrite !of_be_be_bytes by ulia.
Qed.

Lemma tx_locator_roundtrip height index :
  u64 height → u32 index → decode_tx_locator (encode_tx_locator height index) = Ok (height, index).
Proof.
  intros Hh Hi. unfold decode_tx_locator, encode_tx_locator. autorewrite with l1simpl.
  change (negb _) with false. cbn iota. slices. by rewrite !of_be_be_bytes by ulia.
Qed.

Lemma signed_tx_decode s b :
  signed_tx_wf s → encode_signed_tx s = Some b → len b ≤ U32_MAX → decode_signed_tx b = Ok s.
Proof.
  intros (Ht & [Hs _] & [Hk _]) He Hl. unfold encode_signed_tx in He.
  destruct (tx_encode (st_tx s)) as [t|] eqn:Et; [|done]. apply (inj Some) in He as <-.
  rewrite length_encode in Hl. autorewrite with l1simpl in Hl. rewrite Hs, Hk in Hl.
  unfold decode_signed_tx. rewrite decode_encode by (autorewrite with l1simpl; lia).
  autorewrite with l1simpl. rewrite Hs, Hk. ztest.
  rewrite slice_head by (autorewrite with l1simpl; lia). rewrite as_u32_small, of_be_be_bytes by ulia.
  ztest. cbn [negb]. rewrite Nat2Z.id.
  rewrite slice_skip, length_be_bytes by (rewrite length_be_bytes; lia).
  replace (4 - 4)%nat with 0%nat by lia. rewrite slice_head by lia.
  rewrite (tx_decode_encode _ _ Ht Et) by lia.
  rewrite !app_assoc, <- (app_assoc (be_bytes _ _ ++ _)).
  rewrite (slice_mid (4 + length t) (4 + length t + 64)) by (autorewrite with l1simpl; lia).
  rewrite app_assoc, (slice_tail (4 + length t + 64) (4 + length t + 96)) by (autorewrite with l1simpl; lia).
  by destruct s.
Qed.

Lemma signed_tx_canonical b s :
  bytes_ok b → decode_signed_tx b = Ok s → encode_signed_tx s = Some b ∧ signed_tx_wf s.
Proof.
  intros Hb Hd. unfold decode_signed_tx in Hd.
  destruct (decode b) as [p|] eqn:Ed; [|done]. destruct (decode_Ok _ _ Hb Ed) as (<- & Hp & Hl). clear Ed.
  case_hyp Hd; [done|]. case_hyp Hd; [done|]. bsimpl.
  pose proof (of_be_bound (slice 0 4 p) (slice_ok 0 4 _ Hp)) as Hn. rewrite length_slice in Hn by lia.
  cbn [Nat.sub] in Hn. set (n := of_be (slice 0 4 p)) in *.
  destruct (tx_decode _) as [tx|] eqn:Et; [|done]. injection Hd as <-.
  assert (bytes_ok (slice 4 (4 + Z.to_nat n) p)) as Hts by auto with l1.
  destruct (tx_encode_decode _ _ Hts Et) as [Ee Hwf]. split.
  - unfold encode_signed_tx. cbn [st_tx st_signature st_public_key]. rewrite Ee. do 2 f_equal.
    rewrite length_slice by lia. replace (4 + Z.to_nat n - 4)%nat with (Z.to_nat n) by lia.
    rewrite Z2Nat.id, as_u32_small by ulia. unfold n at 1.
    rewrite be_bytes_of_be by (auto with l1; rewrite length_slice; lia).
    rewrite slice_glue_app, slice_glue_app, slice_glue by lia. apply slice_all. lia.
  - split; [done|]. cbn. split; (split; [rewrite length_slice; lia|auto with l1]).
Qed.

Lemma prefixed_cons e es : prefixed (e :: es) = be_bytes 4 (as_u32 (len e)) ++ e ++ prefixed es.
Proof. unfold prefixed. cbn. by rewrite app_assoc. Qed.

Lemma length_prefixed_cons e es : length (prefixed (e :: es)) = (4 + length e + length (prefixed es))%nat.
Proof. rewrite prefixed_cons. autorewrite with l1simpl. lia. Qed.

(** A piece at position [i] of a buffer. *)
Lemma prefixed_piece pre e rest :
  len e ≤ U32_MAX →
  let p := pre ++ be_bytes 4 (as_u32 (len e)) ++ e ++ rest in
  of_be (slice (length pre) (length pre + 4) p) = len e ∧
  slice (length pre + 4) (length pre + 4 + length e) p = e.
Proof.
  intros He p. subst p. split.
  - rewrite slice_mid by (autorewrite with l1simpl; lia). by rewrite as_u32_small, of_be_be_bytes by ulia.
  - rewrite app_assoc. apply slice_mid; autorewrite with l1simpl; lia.
Qed.

Lemma decode_txs_ok ts es pre post acc :
  Forall2 (λ t e, signed_tx_wf t ∧ encode_signed_tx t = Some e ∧ len e ≤ U32_MAX) ts es →
  decode_txs (length ts) (pre ++ prefixed es ++ post) (length pre) acc =
    Ok (acc ++ ts, (length pre + length (prefixed es))%nat).
Proof.
  intros Hf. revert pre acc. induction Hf as [|t e ts es (Hw & He & Hl) Hf IH]; intros pre acc.
  { cbn. by rewrite app_nil_r, Nat.add_0_r. }
  cbn [length decode_txs]. rewrite length_prefixed_cons, prefixed_cons, <- !app_assoc.
  destruct (prefixed_piece pre e (prefixed es ++ post) Hl) as [E1 E2]. rewrite E1, Nat2Z.id, E2.
  autorewrite with l1simpl. do 2 ztest. rewrite (signed_tx_decode t e Hw He Hl).
  specialize (IH (pre ++ be_bytes 4 (as_u32 (len e)) ++ e) (acc ++ [t])).
  rewrite <- !app_assoc in IH. cbn [app] in IH. autorewrite with l1simpl in IH.
  replace (length pre + (4 + length e))%nat with (length pre + 4 + length e)%nat in IH by lia.
  rewrite IH. do 2 f_equal. lia.
Qed.

Lemma decode_txs_canonical n p i acc r :
  bytes_ok p → (i ≤ length p)%nat → decode_txs n p i acc = Ok r →
  ∃ ts es, r.1 = acc ++ ts ∧ length ts = n ∧ (i ≤ r.2 ≤ length p)%nat ∧ slice i r.2 p = prefixed es ∧
    mapM encode_signed_tx ts = Some es ∧ Forall signed_tx_wf ts.
Proof.
  intros Hp. revert i acc. induction n as [|n IH]; intros i acc Hi E; cbn [decode_txs] in E.
  { injection E as <-. exists [], []. cbn. rewrite app_nil_r. repeat split; auto; try lia.
    unfold slice. by rewrite Nat.sub_diag. }
  case_hyp E; [done|]. case_hyp E; [done|]. bsimpl.
  pose proof (of_be_bound (slice i (i + 4) p) (slice_ok i (i + 4) _ Hp)) as Hn.
  rewrite length_slice in Hn by lia. replace (i + 4 - i)%nat with 4%nat in Hn by lia.
  set (e := of_be (slice i (i + 4) p)) in *.
  destruct (decode_signed_tx _) as [t|] eqn:Et; [|done].
  apply signed_tx_canonical in Et as [Ee Hw]; [|auto with l1].
  apply IH in E as (ts & es & E1 & E2 & E3 & E4 & E5 & E6); [|lia].
  exists (t :: ts), (slice (i + 4) (i + 4 + Z.to_nat e) p :: es).
  split; [by rewrite E1, <- app_assoc|]. split; [cbn; lia|]. split; [lia|]. split.
  - rewrite prefixed_cons, <- E4, length_slice by lia.
    replace (i + 4 + Z.to_nat e - (i + 4))%nat with (Z.to_nat e) by lia.
    rewrite Z2Nat.id, as_u32_small by ulia. unfold e at 1.
    rewrite be_bytes_of_be by (auto with l1; rewrite length_slice; lia).
    by rewrite slice_glue_app, slice_glue by lia.
  - split; [|by constructor]. cbn. rewrite Ee. cbn. by rewrite E5.
Qed.

Lemma prefixed_count es : (length es ≤ length (prefixed es))%nat.
Proof. induction es as [|e es IH]; [done|]. rewrite length_prefixed_cons. cbn. lia. Qed.

Lemma length_prefixed_elem e es : e ∈ es → (length e ≤ length (prefixed es))%nat.
Proof.
  induction 1 as [|e e' es _ IH]; rewrite length_prefixed_cons; lia.
Qed.

Lemma body_decode block buf :
  block_wf block → encode_block_body block = Some buf → len buf ≤ U32_MAX →
  decode_block_body buf = Ok block.
Proof.
  intros [(Hh & Hr & [Hp _] & Ht) Hts] He Hl. unfold encode_block_body in He.
  destruct (mapM encode_signed_tx (b_txs block)) as [es|] eqn:Em; [|done]. apply (inj Some) in He as <-.
  rewrite length_encode in Hl. autorewrite with l1simpl in Hl.
  assert (length (fields_bytes (b_header_fields block)) = 68%nat) as Hfl
    by (unfold fields_bytes; autorewrite with l1simpl; rewrite Hp; lia).
  rewrite Hfl in Hl. unfold decode_block_body.
  rewrite decode_encode by (autorewrite with l1simpl; lia). autorewrite with l1simpl. rewrite Hfl. ztest.
  apply mapM_Some in Em. pose proof (Forall2_length _ _ _ Em) as Hlen.
  pose proof (prefixed_count es) as Hes.
  rewrite (slice_mid 68 72) by (autorewrite with l1simpl; lia).
  rewrite as_u32_small, of_be_be_bytes, Nat2Z.id by ulia.
  pose proof (decode_txs_ok (b_txs block) es
    (fields_bytes (b_header_fields block) ++ be_bytes 4 (len (b_txs block))) [] []) as Hd.
  rewrite app_nil_r, <- app_assoc in Hd. autorewrite with l1simpl in Hd. rewrite Hfl in Hd.
  cbn [Nat.add app] in Hd. rewrite Hd; clear Hd.
  - cbn [fst snd]. ztest. cbn [negb]. f_equal. destruct block as [[h r pr t] txs]; cbn in *.
    unfold fields_bytes. cbn. rewrite <- !app_assoc. slices. by rewrite !of_be_be_bytes by ulia.
  - apply Forall2_same_length_lookup_2; [done|]. intros i t e Ht' He'.
    split; [by eapply (Forall_lookup_1 _ _ i)|].
    split; [exact (Forall2_lookup_lr _ _ _ i t e Em Ht' He')|].
    pose proof (length_prefixed_elem e es (list_elem_of_lookup_2 _ _ _ He')). lia.
Qed.

Lemma body_canonical block buf :
  bytes_ok buf → decode_block_body buf = Ok block →
  encode_block_body block = Some buf ∧ block_wf block.
Proof.
  intros Hb Hd. unfold decode_block_body in Hd.
  destruct (decode buf) as [p|] eqn:Ed; [|done]. destruct (decode_Ok _ _ Hb Ed) as (<- & Hp & Hl). clear Ed.
  case_hyp Hd; [done|]. bsimpl.
  destruct (decode_txs _ _ _ _) as [r|] eqn:Et; [|done]. case_hyp Hd; [done|]. bsimpl. injection Hd as <-.
  apply decode_txs_canonical in Et as (ts & es & E1 & E2 & E3 & E4 & E5 & E6); [|done|lia].
  cbn [app] in E1. subst ts.
  pose proof (of_be_bound (slice 68 72 p) (slice_ok 68 72 _ Hp)) as Hn. rewrite length_slice in Hn by lia.
  cbn [Nat.sub] in Hn. split.
  - unfold encode_block_body, fields_bytes. cbn [b_txs b_header_fields hf_height hf_round hf_proposer hf_timestamp_ms].
    rewrite E5, E2, Z2Nat.id, as_u32_small by ulia. do 2 f_equal.
    rewrite !be_bytes_of_be by (auto with l1; rewrite length_slice; lia).
    rewrite <- !app_assoc, <- E4, !slice_glue_app, slice_glue by lia. apply slice_all. lia.
  - split; [|exact E6]. unfold fields_wf. cbn.
    split; [apply slice_u64; [done|lia..]|]. split; [apply slice_u32; [done|lia..]|].
    split; [apply array_slice; [done|lia..]|apply slice_u64; [done|lia..]].
Qed.

(** The stored form of a block.  A well-formed block is read back from
    its encoding, and whatever decodes is the encoding of the well-formed
    block it decodes to: no two stored bodies denote the same block. *)
Theorem block_body_roundtrip block buf :
  (block_wf block → encode_block_body block = Some buf → len buf ≤ U32_MAX →
   decode_block_body buf = Ok block) ∧
  (bytes_ok buf → decode_block_body buf = Ok block →
   encode_block_body block = Some buf ∧ block_wf block).
Proof. split; [apply body_decode|apply body_canonical]. Qed.

Definition sample_block : Block :=
  {| b_header_fields := {| hf_height := 3; hf_round := 1; hf_proposer := replicate 48 4; hf_timestamp_ms := 77 |};
     b_txs := [{| st_tx := sample_tx; st_signature := replicate 64 1; st_public_key := replicate 32 2 |}] |}.

Lemma block_body_roundtrip_witness :
  ∃ buf, encode_block_body sample_block = Some buf ∧ decode_block_body buf = Ok sample_block.
Proof.
  exists (default [] (encode_block_body sample_block)). split; [reflexivity|].
  refine (proj1 (block_body_roundtrip sample_block _) _ _ _); [by_eval|reflexivity|by_eval].
Defined.
