(* ===== verification/Blocks.v ===== *)
(** The block store: [storage/src/blocks.rs] and [storage/src/index.rs].

    A block is written in one batch with its header, indexes, receipts,
    application hash and the tip.  Shown: after a write every lookup returns
    what was written, by height, header hash and transaction hash, and
    nothing about other heights changes ([put_block_reads]). *)

From S2P Require Import Prelude Types Codec Crypto Store StoreCodec.
From Stdlib Require Import String.
From stdpp Require Import list.

#[local] Open Scope Z_scope.
#[local] Open Scope l1_scope.

Section blocks.
Context `{!Crypto} {S : Type} `{!Store S}.

Definition put_header_ops (header : Header) : list BatchOp :=
  let hash := header_hash header in
  let height := hf_height (h_fields header) in
  [BPut (header_height_key height) (hash_preimage header);
   BPut (header_hash_key hash) (be_bytes 8 height)].

Definition put_header (store : S) (header : Header) : S * result unit TypesError :=
  apply_batch store (put_header_ops header).

Definition get_header (store : S) (height : Height) : result (option Header) TypesError :=
  let? v := kv_get store (header_height_key height) in
  match v with
  | None => Ok None
  | Some bytes => let? h := header_from_preimage bytes in Ok (Some h)
  end.

Definition height_by_header_hash (store : S) (hash : Hash) : result (option Height) TypesError :=
  let? v := kv_get store (header_hash_key hash) in
  match v with
  | None => Ok None
  | Some b => if len b =? 8 then Ok (Some (of_be b)) else Err (Kv "corrupt header-hash index")
  end.

(** [None] is the panic of [Tx::encode]. *)
Definition tx_index_ops (height : Height) (block : Block) : option (list BatchOp) :=
  mapM (λ e, h ← tx_hash (st_tx e.2);
             Some (BPut (tx_index_key h) (encode_tx_locator height (as_u32 (Z.of_nat e.1)))))
    (imap pair (b_txs block)).

Definition receipt_put_ops (block : Block) (encoded : list bytes) : option (list BatchOp) :=
  mapM (λ e, h ← tx_hash (st_tx e.1); Some (BPut (receipt_key h) e.2)) (zip (b_txs block) encoded).

Definition put_block_ops (header : Header) (block : Block) (receipt_encodings : list bytes)
    (app_hash : Hash) : option (list BatchOp) :=
  body ← encode_block_body block;
  index ← tx_index_ops (hf_height (h_fields header)) block;
  receipts ← receipt_put_ops block receipt_encodings;
  Some (put_header_ops header ++ [BPut (block_key (hf_height (h_fields header))) body] ++
        index ++ receipts ++
        [BPut (app_hash_key (hf_height (h_fields header))) app_hash;
         BPut KEY_TIP (be_bytes 8 (hf_height (h_fields header)))]).

Definition put_block (store : S) (header : Header) (block : Block) (receipt_encodings : list bytes)
    (app_hash : Hash) : option (S * result unit TypesError) :=
  ops ← put_block_ops header block receipt_encodings app_hash; Some (apply_batch store ops).

Definition get_block (store : S) (height : Height) : result (option Block) TypesError :=
  let? v := kv_get store (block_key height) in
  match v with
  | None => Ok None
  | Some bytes => let? b := decode_block_body bytes in Ok (Some b)
  end.

Definition get_app_hash (store : S) (height : Height) : result (option Hash) TypesError :=
  let? v := kv_get store (app_hash_key height) in
  match v with
  | None => Ok None
  | Some b => if len b =? 32 then Ok (Some b) else Err (Kv "corrupt app_hash")
  end.

Definition tip (store : S) : result (option Height) TypesError :=
  let? v := kv_get store KEY_TIP in
  match v with
  | None => Ok None
  | Some b => if len b =? 8 then Ok (Some (of_be b)) else Err (Kv "corrupt tip")
  end.

Definition put_genesis_hash (store : S) (genesis : Genesis) : S * result unit TypesError :=
  apply_batch store [BPut KEY_GENESIS (genesis_hash genesis)].

Definition get_genesis_hash (store : S) : result (option Hash) TypesError :=
  let? v := kv_get store KEY_GENESIS in
  match v with
  | None => Ok None
  | Some b => if len b =? 32 then Ok (Some b) else Err (Kv "corrupt genesis hash")
  end.

(** The outer [None] is the panic of [Tx::encode]. *)
Definition get_tx_by_hash (store : S) (hash : Hash) :
    option (result (option (Height * Z * SignedTx)) TypesError) :=
  match kv_get store (tx_index_key hash) with
  | Err e => Some (Err e)
  | Ok None => Some (Ok None)
  | Ok (Some loc) =>
      match decode_tx_locator loc with
      | Err e => Some (Err e)
      | Ok (height, index) =>
          match get_block store height with
          | Err e => Some (Err e)
          | Ok None => Some (Err (Kv "tx index without block"))
          | Ok (Some block) =>
              match b_txs block !! Z.to_nat index with
              | None => Some (Err (Kv "tx index out of range"))
              | Some signed =>
                  h ← tx_hash (st_tx signed);
                  if bool_decide (h ≠ hash) then Some (Err (Kv "tx hash mismatch"))
                  else Some (Ok (Some (height, index, signed)))
              end
          end
      end
  end.

Definition get_receipt (store : S) (tx_hash_key : Hash) : result (option bytes) TypesError :=
  kv_get store (receipt_key tx_hash_key).

(** ** Batches on a store that works *)

Class ReliableStore `{!StoreLaws S} := {
  get_reliable (s : S) k : kv_get s k = Ok (kv_view s !! k);
  put_reliable (s : S) k v : (kv_put s k v).2 = Ok tt;
  delete_reliable (s : S) k : (kv_delete s k).2 = Ok tt;
}.

Context `{!StoreLaws S, !ReliableStore}.

Lemma batch_reliable (s : S) ops :
  ∃ s', apply_batch s ops = (s', Ok tt) ∧ kv_view s' = foldl view_op (kv_view s) ops.
Proof.
  assert (∀ ops snap, is_ok (batch_snapshot s ops snap) = true) as H1.
  { intros l. induction l as [|op l IH]; intros snap; [done|]. cbn.
    destruct (existsb _ snap); [apply IH|]. rewrite get_reliable. apply IH. }
  assert (∀ (s : S) ops snap, (batch_apply s ops snap).2 = Ok tt) as H2.
  { intros t l. revert t. induction l as [|op l IH]; intros t snap; [done|]. cbn.
    destruct op; cbn; rewrite ?put_reliable, ?delete_reliable; apply IH. }
  assert ((apply_batch s ops).2 = Ok tt) as H3.
  { unfold apply_batch. specialize (H1 ops []). destruct (batch_snapshot s ops []); [apply H2|done]. }
  exists (apply_batch s ops).1. split; [by rewrite <- H3; destruct (apply_batch s ops)|].
  rewrite batch_atomic, H3; [done|]. split; intros; by rewrite ?put_reliable, ?delete_reliable.
Qed.

Lemma view_ops_notin m ops k : k ∉ op_key <$> ops → foldl view_op m ops !! k = m !! k.
Proof.
  revert m. induction ops as [|op ops IH]; intros m Hk; [done|]. cbn in *.
  apply not_elem_of_cons in Hk as [Hne Hk]. rewrite IH by done.
  destruct op; cbn in *; [by rewrite lookup_insert_ne|by rewrite lookup_delete_ne].
Qed.

Lemma view_ops_put m pre k v post :
  k ∉ op_key <$> post → foldl view_op m (pre ++ BPut k v :: post) !! k = Some v.
Proof.
  intros Hk. rewrite foldl_app. cbn. rewrite view_ops_notin by done. apply lookup_insert_eq.
Qed.

(** ** Keys of different tables differ in their first byte *)

Definition tag (k : bytes) : Z := nth 0 k 0.

Definition tagged (c : Z) (ops : list BatchOp) : Prop := Forall (λ op, tag (op_key op) = c) ops.

Lemma tagged_notin c ops k : tagged c ops → tag k ≠ c → k ∉ op_key <$> ops.
Proof.
  intros Ht Hk (op & -> & Hop)%list_elem_of_fmap. unfold tagged in Ht. rewrite Forall_forall in Ht.
  by apply Hk, Ht.
Qed.

(** A table indexed by transaction hash: the last entry with a hash wins. *)
Definition hash_ops {A : Type} (prefix : bytes) (tx_of : A → Tx) (val : A → bytes) (l : list A) :
    option (list BatchOp) :=
  mapM (λ e, h ← tx_hash (tx_of e); Some (BPut (prefix ++ h) (val e))) l.

Lemma hash_ops_tagged {A : Type} c p (tx_of : A → Tx) val l ops :
  hash_ops (c :: p) tx_of val l = Some ops → tagged c ops.
Proof.
  intros E%mapM_Some. apply Forall_forall. intros op (i & Hi)%list_elem_of_lookup_1.
  destruct (Forall2_lookup_r _ _ _ _ _ E Hi) as (e & _ & Ee). cbn in Ee.
  destruct (tx_hash (tx_of e)) as [h|]; [|done]. cbn in Ee. by injection Ee as <-.
Qed.

(** [j] is the last position whose transaction has hash [hh]. *)
Definition last_at (txs : list SignedTx) (hh : Hash) (j : nat) (s : SignedTx) : Prop :=
  txs !! j = Some s ∧ tx_hash (st_tx s) = Some hh ∧
  ∀ j' s', (j < j')%nat → txs !! j' = Some s' → tx_hash (st_tx s') ≠ Some hh.

Lemma last_at_exists txs hh i s :
  txs !! i = Some s → tx_hash (st_tx s) = Some hh → ∃ j s', last_at txs hh j s'.
Proof.
  revert i s. induction txs as [|x txs IH] using rev_ind; intros i s Hi Hs; [done|].
  destruct (decide (tx_hash (st_tx x) = Some hh)) as [E|E].
  - exists (length txs), x. split; [by rewrite lookup_app_r, Nat.sub_diag by lia|]. split; [done|].
    intros j' s' Hj Hj'. apply lookup_lt_Some in Hj'. rewrite length_app in Hj'. cbn in Hj'. lia.
  - apply lookup_app_Some in Hi as [Hi|[_ Hi]].
    + destruct (IH i s Hi Hs) as (j & s' & H1 & H2 & H3). exists j, s'.
      split; [by apply lookup_app_l_Some|]. split; [done|]. intros j' t Hj Ht.
      apply lookup_app_Some in Ht as [Ht|[_ Ht]]; [by eapply H3|].
      by apply list_lookup_singleton_Some in Ht as [_ ->].
    + apply list_lookup_singleton_Some in Hi as [_ ->]. done.
Qed.

Lemma hash_ops_last {A : Type} p (tx_of : A → Tx) val l ops m j e hh :
  hash_ops p tx_of val l = Some ops → l !! j = Some e → tx_hash (tx_of e) = Some hh →
  (∀ j' e', (j < j')%nat → l !! j' = Some e' → tx_hash (tx_of e') ≠ Some hh) →
  foldl view_op m ops !! (p ++ hh) = Some (val e).
Proof.
  intros E Hj He Hl. rewrite <- (take_drop_middle l j e Hj) in E.
  unfold hash_ops in E. apply mapM_Some, Forall2_app_inv_l in E as (pre & l2 & _ & E & ->).
  apply Forall2_cons_inv_l in E as (op0 & post & E0 & Ep & ->). rewrite He in E0. cbn in E0. injection E0 as <-.
  apply view_ops_put. intros (op & Ek & (i & Hi)%list_elem_of_lookup_1)%list_elem_of_fmap.
  destruct (Forall2_lookup_r _ _ _ _ _ Ep Hi) as (e' & He' & Ee).
  destruct (tx_hash (tx_of e')) as [h|] eqn:Eh; [|done]. cbn in Ee. injection Ee as <-. cbn in Ek.
  apply app_inv_head in Ek. subst h. rewrite lookup_drop in He'.
  eapply (Hl (Datatypes.S j + i)%nat e'); [lia|done|done].
Qed.

Lemma tx_index_ops_hash height block :
  tx_index_ops height block =
  hash_ops PREFIX_TX (λ e : nat * SignedTx, st_tx e.2)
    (λ e, encode_tx_locator height (as_u32 (Z.of_nat e.1))) (imap pair (b_txs block)).
Proof. done. Qed.

Lemma receipt_put_ops_hash block encoded :
  receipt_put_ops block encoded =
  hash_ops PREFIX_RECEIPT (λ e : SignedTx * bytes, st_tx e.1) snd (zip (b_txs block) encoded).
Proof. done. Qed.

(** ** What a block write does to the contents *)

(** The tables of the batch, as lookups. *)
Record written (m m' : gmap bytes bytes) (header : Header) (block : Block) (receipts : list bytes)
    (app : Hash) : Prop := {
  wr_header : m' !! header_height_key (hf_height (h_fields header)) = Some (hash_preimage header);
  wr_hash : m' !! header_hash_key (header_hash header) = Some (be_bytes 8 (hf_height (h_fields header)));
  wr_body : m' !! block_key (hf_height (h_fields header)) = encode_block_body block;
  wr_app : m' !! app_hash_key (hf_height (h_fields header)) = Some app;
  wr_tip : m' !! KEY_TIP = Some (be_bytes 8 (hf_height (h_fields header)));
  wr_tx j s hh : last_at (b_txs block) hh j s →
    m' !! tx_index_key hh =
      Some (encode_tx_locator (hf_height (h_fields header)) (as_u32 (Z.of_nat j)));
  wr_receipt j s hh r : last_at (b_txs block) hh j s → length receipts = length (b_txs block) →
    receipts !! j = Some r → m' !! receipt_key hh = Some r;
  wr_other k : tag k ≠ 72 → tag k ≠ 116 → tag k ≠ 114 → k ≠ KEY_TIP →
    k ≠ header_height_key (hf_height (h_fields header)) → k ≠ block_key (hf_height (h_fields header)) →
    k ≠ app_hash_key (hf_height (h_fields header)) → m' !! k = m !! k;
}.

Lemma put_block_ops_shape header block receipts app ops :
  put_block_ops header block receipts app = Some ops →
  ∃ body iops rops, encode_block_body block = Some body ∧
    hash_ops PREFIX_TX (λ e : nat * SignedTx, st_tx e.2)
      (λ e, encode_tx_locator (hf_height (h_fields header)) (as_u32 (Z.of_nat e.1)))
      (imap pair (b_txs block)) = Some iops ∧
    hash_ops PREFIX_RECEIPT (λ e : SignedTx * bytes, st_tx e.1) snd (zip (b_txs block) receipts) = Some rops ∧
    ops = put_header_ops header ++ [BPut (block_key (hf_height (h_fields header))) body] ++ iops ++ rops ++
          [BPut (app_hash_key (hf_height (h_fields header))) app;
           BPut KEY_TIP (be_bytes 8 (hf_height (h_fields header)))].
Proof.
  unfold put_block_ops. destruct (encode_block_body block) as [body|] eqn:Eb; [|done].
  destruct (tx_index_ops _ block) as [iops|] eqn:Ei; [|done].
  destruct (receipt_put_ops block receipts) as [rops|] eqn:Er; [|done]. intros E. apply (inj Some) in E as <-.
  rewrite tx_index_ops_hash in Ei. rewrite receipt_put_ops_hash in Er. eauto 10.
Qed.

Lemma put_block_ops_written m header block receipts app ops :
  put_block_ops header block receipts app = Some ops → written m (foldl view_op m ops) header block receipts app.
Proof.
  intros (body & iops & rops & Eb & Ei & Er & ->)%put_block_ops_shape.
  pose proof (hash_ops_tagged _ _ _ _ _ _ Ei) as Ti. pose proof (hash_ops_tagged _ _ _ _ _ _ Er) as Tr.
  set (h := hf_height (h_fields header)).
  set (o1 := BPut (header_height_key h) (hash_preimage header)).
  set (o2 := BPut (header_hash_key (header_hash header)) (be_bytes 8 h)).
  set (o3 := BPut (block_key h) body).
  set (tl := [BPut (app_hash_key h) app; BPut KEY_TIP (be_bytes 8 h)]).
  change (put_header_ops header ++ [BPut (block_key h) body] ++ iops ++ rops ++ _)
    with ([o1; o2; o3] ++ iops ++ rops ++ tl).
  assert (∀ k, tag k ≠ 116 → tag k ≠ 114 → k ∉ op_key <$> tl → k ∉ op_key <$> iops ++ rops ++ tl) as Hmid.
  { intros k H1 H2 H3. rewrite !fmap_app, !not_elem_of_app. eauto using tagged_notin. }
  assert (∀ k, tag k ≠ 97 → tag k ≠ 109 → k ∉ op_key <$> tl) as Htl.
  { intros k H1 H2. cbn. rewrite !not_elem_of_cons. split; [|split; [|apply not_elem_of_nil]]; intros ->; done. }
  constructor.
  - apply (view_ops_put m [] _ _ (o2 :: o3 :: iops ++ rops ++ tl)). cbn. rewrite !not_elem_of_cons.
    split; [done|]. split; [done|]. by apply Hmid; [| |apply Htl].
  - apply (view_ops_put m [o1] _ _ (o3 :: iops ++ rops ++ tl)). cbn. rewrite !not_elem_of_cons.
    split; [done|]. by apply Hmid; [| |apply Htl].
  - rewrite Eb. apply (view_ops_put m [o1; o2] _ _ (iops ++ rops ++ tl)). by apply Hmid; [| |apply Htl].
  - pose proof (view_ops_put m ([o1; o2; o3] ++ iops ++ rops) (app_hash_key h) app
      [BPut KEY_TIP (be_bytes 8 h)]) as V. rewrite <- !app_assoc in V. apply V. cbn.
    rewrite not_elem_of_cons. split; [done|apply not_elem_of_nil].
  - pose proof (view_ops_put m ([o1; o2; o3] ++ iops ++ rops ++ [BPut (app_hash_key h) app]) KEY_TIP
      (be_bytes 8 h) []) as V. rewrite <- !app_assoc in V. apply V. apply not_elem_of_nil.
  - intros j s hh (H1 & H2 & H3).
    change (foldl view_op m ([o1; o2; o3] ++ iops ++ (rops ++ tl)) !! (PREFIX_TX ++ hh) = Some
      ((λ e : nat * SignedTx, encode_tx_locator h (as_u32 (Z.of_nat e.1))) (j, s))).
    rewrite foldl_app, foldl_app, view_ops_notin.
    + eapply (hash_ops_last PREFIX_TX _ _ _ iops _ j (j, s) hh Ei); [by rewrite list_lookup_imap, H1|done|].
      intros j' e' Hj He'. rewrite list_lookup_imap in He'.
      destruct (b_txs block !! j') as [s'|] eqn:Es; [|done]. cbn in He'. injection He' as <-. by eapply H3.
    + rewrite fmap_app, not_elem_of_app. split; [by eapply tagged_notin|by apply Htl].
  - intros j s hh r (H1 & H2 & H3) Hlen Hr.
    change (foldl view_op m (([o1; o2; o3] ++ iops) ++ rops ++ tl) !! (PREFIX_RECEIPT ++ hh) = Some
      (snd (s, r))).
    rewrite foldl_app, foldl_app, view_ops_notin by (by apply Htl).
    eapply (hash_ops_last PREFIX_RECEIPT _ _ _ rops _ j (s, r) hh Er);
      [by apply lookup_zip_with_Some; eauto|done|].
    intros j' [s' r'] Hj (s2 & r2 & E2 & E3 & E4)%lookup_zip_with_Some.
    injection E2 as -> ->. by eapply H3.
  - intros k Hk1 Hk2 Hk3 Hk4 Hk5 Hk6 Hk7.
    change (foldl view_op m ([o1; o2; o3] ++ iops ++ rops ++ tl) !! k = m !! k).
    apply view_ops_notin. rewrite fmap_app, not_elem_of_app. split.
    + cbn. rewrite !not_elem_of_cons. split; [done|]. split; [by intros ->|]. split; [done|apply not_elem_of_nil].
    + apply Hmid; [done|done|]. cbn. rewrite !not_elem_of_cons.
      split; [done|]. split; [done|apply not_elem_of_nil].
Qed.

(** ** Reading back *)

Lemma be_key_ne p a b : u64 a → u64 b → a ≠ b → p ++ be_bytes 8 a ≠ p ++ be_bytes 8 b.
Proof. intros Ha Hb Hne E%app_inv_head. by apply Hne, be_bytes_u64_inj. Qed.

Lemma tx_hash_total tx : tx_wf tx → is_Some (tx_hash tx).
Proof. intros [b Hb]%tx_encode_total. unfold tx_hash. rewrite Hb. by eexists. Qed.

Lemma encode_block_body_total block : Forall signed_tx_wf (b_txs block) → is_Some (encode_block_body block).
Proof.
  intros Hw. unfold encode_block_body.
  assert (is_Some (mapM encode_signed_tx (b_txs block))) as [es ->]; [|by eexists].
  apply mapM_is_Some_2. eapply Forall_impl; [exact Hw|]. intros s (Ht & _). cbn. unfold encode_signed_tx.
  destruct (tx_encode_total _ Ht) as [b ->]. by eexists.
Qed.

Lemma put_block_ops_total header block receipts app :
  Forall signed_tx_wf (b_txs block) → is_Some (put_block_ops header block receipts app).
Proof.
  intros Hw. unfold put_block_ops.
  destruct (encode_block_body_total block Hw) as [body ->].
  assert (is_Some (tx_index_ops (hf_height (h_fields header)) block)) as [iops ->].
  { apply mapM_is_Some_2, Forall_forall. intros e (i & Hi)%list_elem_of_lookup_1.
    rewrite list_lookup_imap in Hi. destruct (b_txs block !! i) as [s|] eqn:Es; [|done]. injection Hi as <-.
    destruct (tx_hash_total (st_tx s)) as [h Hh]; [by eapply (Forall_lookup_1 _ _ _ _ Hw)|].
    cbn. rewrite Hh. by eexists. }
  assert (is_Some (receipt_put_ops block receipts)) as [rops ->]; [|by eexists].
  apply mapM_is_Some_2, Forall_forall. intros [s r] (i & Hi)%list_elem_of_lookup_1.
  apply lookup_zip_with_Some in Hi as (s' & r' & E & Hs & _). injection E as -> ->.
  destruct (tx_hash_total (st_tx s')) as [h Hh]; [by eapply (Forall_lookup_1 _ _ _ _ Hw)|].
  cbn. rewrite Hh. by eexists.
Qed.

(** A block whose stored form fits the length prefix. *)
Definition body_fits (block : Block) : Prop :=
  ∀ buf, encode_block_body block = Some buf → len buf ≤ U32_MAX.

Lemma put_block_written (s : S) header block receipts app :
  Forall signed_tx_wf (b_txs block) →
  ∃ s', put_block s header block receipts app = Some (s', Ok tt) ∧
        written (kv_view s) (kv_view s') header block receipts app.
Proof.
  intros Hw. destruct (put_block_ops_total header block receipts app Hw) as [ops Eo].
  destruct (batch_reliable s ops) as (s' & Es & Ev). exists s'. split.
  - unfold put_block. rewrite Eo. cbn. by rewrite Es.
  - rewrite Ev. by apply put_block_ops_written.
Qed.

Lemma get_block_view (s : S) height block :
  block_wf block → body_fits block → kv_view s !! block_key height = encode_block_body block →
  get_block s height = Ok (Some block).
Proof.
  intros Hw Hf Hv. unfold get_block. rewrite get_reliable, Hv.
  destruct (encode_block_body_total block (proj2 Hw)) as [buf Eb]. rewrite Eb.
  by rewrite (body_decode block buf Hw Eb (Hf _ Eb)).
Qed.

Lemma block_txs_count block : body_fits block → block_wf block → len (b_txs block) ≤ U32_MAX.
Proof.
  intros Hf Hw. destruct (encode_block_body_total block (proj2 Hw)) as [buf Eb].
  specialize (Hf _ Eb). unfold encode_block_body in Eb.
  destruct (mapM encode_signed_tx (b_txs block)) as [es|] eqn:Em; [|done]. apply (inj Some) in Eb as <-.
  rewrite length_encode in Hf. autorewrite with l1simpl in Hf.
  apply mapM_Some, Forall2_length in Em. rewrite Em.
  pose proof (prefixed_count es). lia.
Qed.

(** A block write is visible in every table.  On a store that works,
    writing a well-formed block succeeds; then the header, body, application
    hash and height are found by height, header hash and as the tip; every
    transaction of the block is found by its hash, at a position of the block
    that holds a transaction with that hash, together with the receipt of
    this position; the tables of all other heights and the genesis hash are
    unchanged. *)
Theorem put_block_reads (s : S) header block receipts app :
  let h := hf_height (h_fields header) in
  header_wf header → block_wf block → body_fits block → array 32 app →
  length receipts = length (b_txs block) →
  ∃ s', put_block s header block receipts app = Some (s', Ok tt) ∧
    get_header s' h = Ok (Some header) ∧ get_block s' h = Ok (Some block) ∧
    get_app_hash s' h = Ok (Some app) ∧ tip s' = Ok (Some h) ∧
    height_by_header_hash s' (header_hash header) = Ok (Some h) ∧
    (∀ i signed hash, b_txs block !! i = Some signed → tx_hash (st_tx signed) = Some hash →
       ∃ j signed' r, get_tx_by_hash s' hash = Some (Ok (Some (h, Z.of_nat j, signed'))) ∧
         b_txs block !! j = Some signed' ∧ tx_hash (st_tx signed') = Some hash ∧
         receipts !! j = Some r ∧ get_receipt s' hash = Ok (Some r)) ∧
    (∀ h', u64 h' → h' ≠ h → get_header s' h' = get_header s h' ∧ get_block s' h' = get_block s h' ∧
       get_app_hash s' h' = get_app_hash s h') ∧
    get_genesis_hash s' = get_genesis_hash s.
Proof.
  intros h Hh Hb Hf [Ha _] Hr. assert (u64 h) as Hu by apply Hh.
  destruct (put_block_written s header block receipts app (proj2 Hb)) as (s' & Ep & W).
  exists s'. split; [exact Ep|].
  assert (get_block s' h = Ok (Some block)) as Egb by (apply get_block_view; [done..|apply W]).
  split; [|split; [exact Egb|split; [|split; [|split; [|split; [|split]]]]]]; subst h.
  - unfold get_header. rewrite get_reliable, (wr_header _ _ _ _ _ _ W). by rewrite header_roundtrip.
  - unfold get_app_hash. rewrite get_reliable, (wr_app _ _ _ _ _ _ W), Ha. done.
  - unfold tip. rewrite get_reliable, (wr_tip _ _ _ _ _ _ W), length_be_bytes, of_be_be_bytes by ulia. done.
  - unfold height_by_header_hash.
    rewrite get_reliable, (wr_hash _ _ _ _ _ _ W), length_be_bytes, of_be_be_bytes by ulia. done.
  - intros i signed hash Hi Hs. destruct (last_at_exists _ _ _ _ Hi Hs) as (j & s2 & Hl).
    pose proof Hl as (Hj & Hs2 & _). assert (j < length (b_txs block))%nat as Hlt by (by eapply lookup_lt_Some).
    destruct (lookup_lt_is_Some_2 receipts j) as [r Er]; [lia|].
    pose proof (block_txs_count block Hf Hb) as Hcnt.
    exists j, s2, r. split; [|split; [done|split; [done|split; [done|]]]].
    + unfold get_tx_by_hash. rewrite get_reliable, (wr_tx _ _ _ _ _ _ W j s2 hash Hl).
      rewrite as_u32_small, tx_locator_roundtrip by ulia. rewrite Egb, Nat2Z.id, Hj, Hs2. cbn.
      by rewrite bool_decide_false by (by intros []).
    + unfold get_receipt. rewrite get_reliable. f_equal. by apply (wr_receipt _ _ _ _ _ _ W j s2).
  - intros h' Hu' Hne. unfold get_header, get_block, get_app_hash.
    rewrite !get_reliable, !(wr_other _ _ _ _ _ _ W) by (done || by apply be_key_ne). done.
  - unfold get_genesis_hash. by rewrite !get_reliable, (wr_other _ _ _ _ _ _ W).
Qed.

End blocks.

#[export] Instance memory_reliable : ReliableStore (S := MemoryStore).
Proof. by constructor. Defined.

(** ** Witness *)

#[local] Existing Instance toy_crypto.

Lemma put_block_reads_witness :
  ∃ s', put_block MemoryStore_new (apply_da_root sample_header (replicate 32 1)) sample_block [[7]]
          (replicate 32 5) = Some (s', Ok tt) ∧
    get_block s' (hf_height (h_fields sample_header)) = Ok (Some sample_block).
Proof.
  destruct (put_block_reads MemoryStore_new (apply_da_root sample_header (replicate 32 1)) sample_block [[7]]
    (replicate 32 5)) as (s' & E & _ & E2 & _); [by_eval|by_eval| |by_eval|reflexivity|].
  - intros buf Eb. assert (len (default [] (encode_block_body sample_block)) ≤ U32_MAX) as Hl by by_eval.
    by rewrite Eb in Hl.
  - exists s'. split; [exact E|exact E2].
Defined.
