(* ===== verification/Recovery.v ===== *)
(** Replay, the execution write-ahead log and pruning:
    [storage/src/replay.rs], [storage/src/wal.rs] and [storage/src/prune.rs].

    The execution of blocks is a callback of these functions, here the
    section variable [apply_block].  Shown: replaying a store to which blocks
    were committed gives the world of the live execution
    ([replay_faithful]); recovery finishes an interrupted commit at every
    point before the body is written or after the batch is complete
    ([recover_completes]), and drops the block when the process dies in
    between ([recover_drops_torn_batch]); pruning removes exactly the cold
    bodies ([prune_exact]). *)

From S2P Require Import Prelude Types Codec Crypto Store StoreCodec Blocks.
From Stdlib Require Import String.
From stdpp Require Import list.

#[local] Open Scope Z_scope.
#[local] Open Scope l1_scope.

Inductive ReplayError : Type :=
| RpStore (e : TypesError)
| RpGenesisMismatch
| RpMissingBlock
| RpAppHashMismatch (height : Z) (expected got : Hash).

Inductive WalError : Type :=
| WStore (e : TypesError)
| WReplay (e : ReplayError)
| WCorrupt.

Record WalPayload := {
  wp_header : Header;
  wp_block : Block;
  wp_receipts : list bytes;
  wp_app_hash : Hash;
}.

Record PruneConfig := { prune_cold : bool; hot_window : Z }.

Definition PruneConfig_default : PruneConfig := {| prune_cold := false; hot_window := 256 |}.

(** ** The WAL record *)

Definition encode_wal (header : Header) (block : Block) (receipt_encodings : list bytes)
    (app_hash : Hash) : option bytes :=
  match encode_block_body block with
  | None => None
  | Some body =>
      Some (encode (be_bytes 4 (as_u32 (len (hash_preimage header))) ++ hash_preimage header ++
                    be_bytes 4 (as_u32 (len body)) ++ body ++ app_hash ++
                    be_bytes 4 (as_u32 (len receipt_encodings)) ++ prefixed receipt_encodings))
  end.

(** The closure [take_u32]: the number and the new position. *)
Definition take_u32 (p : bytes) (i : nat) : result (Z * nat) WalError :=
  if len p <? Z.of_nat i + 4 then Err WCorrupt else Ok (of_be (slice i (i + 4) p), (i + 4)%nat).

Fixpoint decode_receipts (n : nat) (p : bytes) (i : nat) (recs : list bytes) :
    result (list bytes * nat) WalError :=
  match n with
  | O => Ok (recs, i)
  | S n =>
      let? (rl, i) := take_u32 p i in
      if len p <? Z.of_nat i + rl then Err WCorrupt
      else decode_receipts n p (i + Z.to_nat rl) (recs ++ [slice i (i + Z.to_nat rl) p])
  end.

(** The part of [decode_wal] after the header and the body. *)
Definition decode_wal_tail (p : bytes) (header : Header) (block : Block) (i : nat) : result WalPayload WalError :=
  if len p <? Z.of_nat i + 32 then Err WCorrupt
  else
    let app := slice i (i + 32) p in
    let i := (i + 32)%nat in
    let? (n, i) := take_u32 p i in
    let? (recs, i) := decode_receipts (Z.to_nat n) p i [] in
    if negb (Z.of_nat i =? len p) then Err WCorrupt
    else Ok {| wp_header := header; wp_block := block; wp_receipts := recs; wp_app_hash := app |}.

Definition decode_wal (buf : bytes) : result WalPayload WalError :=
  let? p := map_err WStore (decode buf) in
  if len p <? 4 then Err WCorrupt
  else
    let? (plen, i) := take_u32 p 0 in
    if len p <? Z.of_nat i + plen then Err WCorrupt
    else
      let? header := map_err WStore (header_from_preimage (slice i (i + Z.to_nat plen) p)) in
      let i := (i + Z.to_nat plen)%nat in
      let? (blen, i) := take_u32 p i in
      if len p <? Z.of_nat i + blen then Err WCorrupt
      else
        let? block := map_err WStore (decode_block_body (slice i (i + Z.to_nat blen) p)) in
        decode_wal_tail p header block (i + Z.to_nat blen).

(** ** The WAL record is read back *)

Lemma take_u32_at pre n post :
  0 ≤ n ≤ U32_MAX →
  take_u32 (pre ++ be_bytes 4 n ++ post) (length pre) = Ok (n, (length pre + 4)%nat).
Proof.
  intros Hn. unfold take_u32. autorewrite with l1simpl. ztest.
  rewrite slice_mid by (autorewrite with l1simpl; lia). by rewrite of_be_be_bytes by ulia.
Qed.

Lemma decode_receipts_ok rs pre post acc :
  Forall (λ r, len r ≤ U32_MAX) rs →
  decode_receipts (length rs) (pre ++ prefixed rs ++ post) (length pre) acc =
    Ok (acc ++ rs, (length pre + length (prefixed rs))%nat).
Proof.
  intros Hf. revert pre acc. induction Hf as [|r rs Hr Hf IH]; intros pre acc.
  { cbn. by rewrite app_nil_r, Nat.add_0_r. }
  cbn [length decode_receipts]. rewrite length_prefixed_cons, prefixed_cons, <- !app_assoc.
  rewrite as_u32_small, take_u32_at by ulia. autorewrite with l1simpl. ztest.
  destruct (prefixed_piece pre r (prefixed rs ++ post) Hr) as [_ E]. rewrite as_u32_small in E by ulia.
  rewrite Nat2Z.id, E.
  specialize (IH (pre ++ be_bytes 4 (len r) ++ r) (acc ++ [r])).
  rewrite <- !app_assoc in IH. cbn [app] in IH. autorewrite with l1simpl in IH.
  replace (length pre + (4 + length r))%nat with (length pre + 4 + length r)%nat in IH by lia.
  rewrite IH. do 2 f_equal. lia.
Qed.

Lemma length_hash_preimage h : header_wf h → length (hash_preimage h) = 228%nat.
Proof.
  intros (_ & _ & [Hp _] & _ & [H1 _] & [H2 _] & [H3 _] & [H4 _] & [H5 _]).
  unfold hash_preimage. autorewrite with l1simpl. rewrite Hp, H1, H2, H3, H4, H5. done.
Qed.

(** One length-prefixed field at the current position. *)
Lemma field_at pre x post :
  len x ≤ U32_MAX →
  let p := pre ++ be_bytes 4 (as_u32 (len x)) ++ x ++ post in
  take_u32 p (length pre) = Ok (len x, (length pre + 4)%nat) ∧
  (len p <? Z.of_nat (length pre + 4) + len x) = false ∧
  slice (length pre + 4) (length pre + 4 + Z.to_nat (len x)) p = x.
Proof.
  intros Hx p. subst p. rewrite as_u32_small by ulia. split; [apply take_u32_at; ulia|]. split.
  - apply Z.ltb_ge. autorewrite with l1simpl. lia.
  - rewrite Nat2Z.id, app_assoc. apply slice_mid; autorewrite with l1simpl; lia.
Qed.

Lemma prefixed_fits es n : (length (prefixed es) ≤ n)%nat → Z.of_nat n ≤ U32_MAX → Forall (λ e, len e ≤ U32_MAX) es.
Proof. intros H1 H2. apply Forall_forall. intros r Hr%length_prefixed_elem. lia. Qed.

Lemma wal_tail_ok pre app recs header block :
  length app = 32%nat → len (prefixed recs) ≤ U32_MAX →
  decode_wal_tail (pre ++ app ++ be_bytes 4 (as_u32 (len recs)) ++ prefixed recs) header block (length pre) =
    Ok {| wp_header := header; wp_block := block; wp_receipts := recs; wp_app_hash := app |}.
Proof.
  intros Ha Hl. pose proof (prefixed_count recs) as Hc. unfold decode_wal_tail.
  set (p := pre ++ app ++ be_bytes 4 (as_u32 (len recs)) ++ prefixed recs).
  assert (len p = len pre + 36 + len (prefixed recs)) as Hp
    by (subst p; autorewrite with l1simpl; rewrite Ha; lia).
  rewrite (proj2 (Z.ltb_ge (len p) _)) by lia.
  assert (slice (length pre) (length pre + 32) p = app) as -> by (apply slice_mid; lia).
  assert (p = (pre ++ app) ++ be_bytes 4 (len recs) ++ prefixed recs) as P1
    by (subst p; rewrite as_u32_small by ulia; by rewrite <- !app_assoc).
  assert (p = (pre ++ app ++ be_bytes 4 (len recs)) ++ prefixed recs ++ []) as P2
    by (rewrite P1, app_nil_r; by rewrite <- !app_assoc).
  replace (length pre + 32)%nat with (length (pre ++ app)) by (rewrite length_app; lia).
  rewrite P1 at 1. rewrite take_u32_at, Nat2Z.id by ulia.
  replace (length (pre ++ app) + 4)%nat with (length (pre ++ app ++ be_bytes 4 (len recs)))
    by (autorewrite with l1simpl; lia).
  rewrite P2 at 1. rewrite decode_receipts_ok by (eapply prefixed_fits; [done|lia]).
  rewrite (proj2 (Z.eqb_eq _ _)); [done|]. rewrite Hp. autorewrite with l1simpl. rewrite Ha. lia.
Qed.

Lemma wal_roundtrip header block recs app buf :
  header_wf header → block_wf block → array 32 app →
  encode_wal header block recs app = Some buf → len buf ≤ U32_MAX →
  decode_wal buf = Ok {| wp_header := header; wp_block := block; wp_receipts := recs; wp_app_hash := app |}.
Proof.
  intros Hh Hb [Ha _] E Hl. unfold encode_wal in E.
  destruct (encode_block_body block) as [body|] eqn:Eb; [|done]. apply (inj Some) in E as <-.
  pose proof (length_hash_preimage header Hh) as Hp. pose proof (header_roundtrip header Hh) as Hr.
  set (hp := hash_preimage header) in *.
  rewrite length_encode in Hl. autorewrite with l1simpl in Hl. rewrite Hp, Ha in Hl.
  unfold decode_wal. rewrite decode_encode by (autorewrite with l1simpl; lia). cbn [map_err].
  set (tl := app ++ be_bytes 4 (as_u32 (len recs)) ++ prefixed recs).
  set (lb := be_bytes 4 (as_u32 (len body))). set (lh := be_bytes 4 (as_u32 (len hp))).
  set (p := lh ++ hp ++ lb ++ body ++ tl).
  assert (length lh = 4%nat ∧ length lb = 4%nat) as [Llh Llb] by (split; apply length_be_bytes).
  rewrite (proj2 (Z.ltb_ge (len p) 4)) by (subst p; rewrite !length_app; lia).
  destruct (field_at [] hp (lb ++ body ++ tl)) as (F1 & F2 & F3); [lia|]. fold lh in F1, F2, F3.
  change ([] ++ lh ++ hp ++ lb ++ body ++ tl) with p in F1, F2, F3. change (length (@nil Z)) with 0%nat in F1, F2, F3.
  rewrite F1, F2, F3, Hr. cbn [map_err].
  destruct (field_at (lh ++ hp) body tl) as (G1 & G2 & G3); [lia|]. fold lb in G1, G2, G3.
  assert ((lh ++ hp) ++ lb ++ body ++ tl = p) as P2 by (subst p; by rewrite <- !app_assoc).
  assert (length (lh ++ hp) = 0 + 4 + Z.to_nat (len hp))%nat as L2 by (rewrite length_app, Nat2Z.id; lia).
  rewrite P2, L2 in G1, G2, G3. rewrite G1, G2, G3, (body_decode block body Hb Eb) by lia. cbn [map_err].
  rewrite <- (wal_tail_ok (lh ++ hp ++ lb ++ body) app recs header block) by (done || lia). fold tl.
  f_equal; [subst p; by rewrite <- !app_assoc|]. rewrite !length_app, !Nat2Z.id. lia.
Qed.

Section recovery.
Context `{!Crypto} {S : Type} `{!Store S}.
Context {W R : Type} (apply_block : W → Block → option (W * list R * Hash)).

(** ** [replay.rs] *)

(** [while h <= end.0]; [None] is a panic of [apply_block] or a loop that
    outlives its fuel. *)
Fixpoint replay_loop (fuel : nat) (store : S) (h end_ : Z) (world : W) (last_app : Hash) :
    option (result (W * Hash) ReplayError) :=
  if end_ <? h then Some (Ok (world, last_app))
  else match fuel with
  | O => None
  | Datatypes.S fuel =>
      match get_block store h with
      | Err e => Some (Err (RpStore e))
      | Ok None => Some (Err RpMissingBlock)
      | Ok (Some block) =>
          match get_app_hash store h with
          | Err e => Some (Err (RpStore e))
          | Ok None => Some (Err RpMissingBlock)
          | Ok (Some stored_app) =>
              match apply_block world block with
              | None => None
              | Some (next, _, app) =>
                  if bool_decide (app ≠ stored_app) then Some (Err (RpAppHashMismatch h stored_app app))
                  else replay_loop fuel store ((h + 1) mod 2 ^ 64) end_ next app
              end
          end
      end
  end.

Definition replay_from_genesis (store : S) (genesis : Genesis) (world : W) :
    option (result (W * Hash) ReplayError) :=
  match get_genesis_hash store with
  | Err e => Some (Err (RpStore e))
  | Ok None => Some (Err RpGenesisMismatch)
  | Ok (Some stored_g) =>
      let gh := genesis_hash genesis in
      if bool_decide (stored_g ≠ gh) then Some (Err RpGenesisMismatch)
      else match tip store with
      | Err e => Some (Err (RpStore e))
      | Ok None => Some (Ok (world, gh))
      | Ok (Some end_) => replay_loop (Z.to_nat end_ + 1) store 0 end_ world gh
      end
  end.

(** ** [wal.rs] *)

Definition write_wal (store : S) (header : Header) (block : Block) (receipt_encodings : list bytes)
    (app_hash : Hash) : option (S * result unit TypesError) :=
  value ← encode_wal header block receipt_encodings app_hash;
  Some (apply_batch store [BPut KEY_WAL value]).

Definition clear_wal (store : S) : S * result unit TypesError := apply_batch store [BDelete KEY_WAL].

Definition commit_with_wal (store : S) (header : Header) (block : Block)
    (receipt_encodings : list bytes) (app_hash : Hash) (crash_after_wal : bool) :
    option (S * result unit TypesError) :=
  match write_wal store header block receipt_encodings app_hash with
  | None => None
  | Some (store, Err e) => Some (store, Err e)
  | Some (store, Ok _) =>
      if crash_after_wal then Some (store, Ok tt)
      else match put_block store header block receipt_encodings app_hash with
      | None => None
      | Some (store, Err e) => Some (store, Err e)
      | Some (store, Ok _) => Some (clear_wal store)
      end
  end.

(** [?] on the result of a replay. *)
Definition replayed (store : S) (r : option (result (W * Hash) ReplayError)) :
    option (S * result W WalError) :=
  match r with
  | None => None
  | Some (Err e) => Some (store, Err (WReplay e))
  | Some (Ok (w, _)) => Some (store, Ok w)
  end.

Definition recover (store : S) (genesis : Genesis) (world : W) : option (S * result W WalError) :=
  match kv_get store KEY_WAL with
  | Err e => Some (store, Err (WStore e))
  | Ok None => replayed store (replay_from_genesis store genesis world)
  | Ok (Some bytes) =>
      match decode_wal bytes with
      | Err e => Some (store, Err e)
      | Ok payload =>
          match get_block store (hf_height (h_fields (wp_header payload))) with
          | Err e => Some (store, Err (WStore e))
          | Ok (Some _) =>
              match clear_wal store with
              | (store, Err e) => Some (store, Err (WStore e))
              | (store, Ok _) => replayed store (replay_from_genesis store genesis world)
              end
          | Ok None =>
              match replay_from_genesis store genesis world with
              | None => None
              | Some (Err e) => Some (store, Err (WReplay e))
              | Some (Ok (pre, _)) =>
                  match apply_block pre (wp_block payload) with
                  | None => None
                  | Some (post, _, app) =>
                      if bool_decide (app ≠ wp_app_hash payload) then Some (store, Err WCorrupt)
                      else match put_block store (wp_header payload) (wp_block payload)
                                   (wp_receipts payload) (wp_app_hash payload) with
                      | None => None
                      | Some (store, Err e) => Some (store, Err (WStore e))
                      | Some (store, Ok _) =>
                          match clear_wal store with
                          | (store, Err e) => Some (store, Err (WStore e))
                          | (store, Ok _) => Some (store, Ok post)
                          end
                      end
                  end
              end
          end
      end
  end.

(** ** [prune.rs] *)

(** [for h in 0..first_hot]. *)
Fixpoint prune_loop (n : nat) (store : S) (h dropped : Z) : S * result Z TypesError :=
  match n with
  | O => (store, Ok dropped)
  | Datatypes.S n =>
      let key := block_key h in
      match kv_get store key with
      | Err e => (store, Err e)
      | Ok None => prune_loop n store (h + 1) dropped
      | Ok (Some _) =>
          match kv_delete store key with
          | (store, Err e) => (store, Err e)
          | (store, Ok _) => prune_loop n store (h + 1) (dropped + 1)
          end
      end
  end.

Definition prune_cold_bodies (store : S) (cfg : PruneConfig) : S * result Z TypesError :=
  if negb (prune_cold cfg) then (store, Ok 0)
  else match tip store with
  | Err e => (store, Err e)
  | Ok None => (store, Ok 0)
  | Ok (Some t) =>
      if (hot_window cfg =? 0) || (t <? hot_window cfg) then (store, Ok 0)
      else
        let first_hot := t - hot_window cfg + 1 in
        prune_loop (Z.to_nat first_hot) store 0 0
  end.

Definition put_then_maybe_prune (store : S) (header : Header) (block : Block)
    (receipt_encodings : list bytes) (app_hash : Hash) (cfg : PruneConfig) :
    option (S * result Z TypesError) :=
  match put_block store header block receipt_encodings app_hash with
  | None => None
  | Some (store, Err e) => Some (store, Err e)
  | Some (store, Ok _) => Some (prune_cold_bodies store cfg)
  end.

Definition has_body (store : S) (height : Height) : result bool TypesError :=
  let? b := get_block store height in Ok (bool_decide (is_Some b)).

Context `{!CryptoLaws} `{!StoreLaws S, !ReliableStore (S := S)}.

(** ** Chains of committed blocks *)

Record entry := {
  e_header : Header;
  e_block : Block;
  e_receipts : list bytes;
  e_app : Hash;
}.

(** The live execution: every block is applied and gives the application
    hash recorded with it. *)
Fixpoint exec_chain (w : W) (es : list entry) : option W :=
  match es with
  | [] => Some w
  | e :: es =>
      match apply_block w (e_block e) with
      | None => None
      | Some (w', _, app) => if decide (app = e_app e) then exec_chain w' es else None
      end
  end.

Definition entry_ok (i : nat) (e : entry) : Prop :=
  hf_height (h_fields (e_header e)) = Z.of_nat i ∧ header_wf (e_header e) ∧ block_wf (e_block e) ∧
  body_fits (e_block e) ∧ array 32 (e_app e) ∧
  ∀ buf, encode_wal (e_header e) (e_block e) (e_receipts e) (e_app e) = Some buf → len buf ≤ U32_MAX.

Definition entries_ok (es : list entry) : Prop :=
  len es ≤ U64_MAX ∧ ∀ i e, es !! i = Some e → entry_ok i e.

(** What the contents of a store say about the chain. *)
Record stored_chain (m : gmap bytes bytes) (g : Genesis) (es : list entry) : Prop := {
  sc_genesis : m !! KEY_GENESIS = Some (genesis_hash g);
  sc_body i e : es !! i = Some e → m !! block_key (Z.of_nat i) = encode_block_body (e_block e);
  sc_app i e : es !! i = Some e → m !! app_hash_key (Z.of_nat i) = Some (e_app e);
  sc_tip : m !! KEY_TIP = match es with [] => None | _ => Some (be_bytes 8 (len es - 1)) end;
}.

Definition last_app (g : Genesis) (es : list entry) : Hash :=
  match last es with Some e => e_app e | None => genesis_hash g end.

Lemma exec_chain_app w es1 es2 :
  exec_chain w (es1 ++ es2) = match exec_chain w es1 with Some w' => exec_chain w' es2 | None => None end.
Proof.
  revert w. induction es1 as [|e es1 IH]; intros w; cbn; [done|].
  destruct (apply_block w (e_block e)) as [[[w' rs] app]|]; [|done]. by destruct (decide _).
Qed.

(** Replaying the entries from position [length pre]. *)
Lemma replay_loop_ok (s : S) g pre es w w' a fuel :
  stored_chain (kv_view s) g (pre ++ es) → entries_ok (pre ++ es) → exec_chain w es = Some w' →
  (length es ≤ fuel)%nat → pre ++ es ≠ [] →
  replay_loop fuel s (len pre) (len (pre ++ es) - 1) w a =
    Some (Ok (w', match last es with Some e => e_app e | None => a end)).
Proof.
  intros Hs Hok. revert pre w a fuel Hs Hok. induction es as [|e es IH]; intros pre w a fuel Hs Hok He Hf Hne.
  { cbn in He. injection He as <-. rewrite app_nil_r in *. destruct fuel; cbn [replay_loop];
      by rewrite (proj2 (Z.ltb_lt _ _)) by lia. }
  destruct fuel as [|fuel]; [cbn in Hf; lia|]. cbn [replay_loop].
  assert ((pre ++ e :: es) !! length pre = Some e) as Hl by (by rewrite lookup_app_r, Nat.sub_diag by lia).
  destruct Hok as [Hlen Hok]. destruct (Hok _ _ Hl) as (_ & _ & Hb & Hfit & [Ha _] & _).
  rewrite length_app in *. cbn [length] in *. rewrite (proj2 (Z.ltb_ge _ _)) by lia.
  rewrite (get_block_view s _ (e_block e) Hb Hfit (sc_body _ _ _ Hs _ _ Hl)).
  unfold get_app_hash. rewrite get_reliable, (sc_app _ _ _ Hs _ _ Hl), Ha. change (Z.of_nat 32 =? 32) with true.
  cbn [exec_chain] in He. destruct (apply_block w (e_block e)) as [[[w1 rs] app]|]; [|done].
  destruct (decide (app = e_app e)) as [->|]; [|done]. rewrite bool_decide_false by (by intros []).
  assert (pre ++ e :: es = (pre ++ [e]) ++ es) as Eq by (by rewrite <- app_assoc). rewrite Eq in *.
  specialize (IH (pre ++ [e]) w1 (e_app e) fuel Hs). rewrite !length_app in IH. cbn [length] in IH.
  rewrite Z.mod_small by ulia.
  replace (len pre + 1) with (Z.of_nat (length pre + 1)) by lia.
  replace (Z.of_nat (length pre + Datatypes.S (length es)) - 1) with (Z.of_nat (length pre + 1 + length es) - 1) by lia.
  rewrite IH; [|split; [rewrite !length_app; cbn; lia|done]|done|lia|by destruct pre].
  rewrite last_cons. by destruct (last es).
Qed.

Lemma replay_ok (s : S) g es w w' :
  stored_chain (kv_view s) g es → entries_ok es → exec_chain w es = Some w' →
  replay_from_genesis s g w = Some (Ok (w', last_app g es)).
Proof.
  intros Hs Hok He. unfold replay_from_genesis, get_genesis_hash.
  assert (len (genesis_hash g) = 32) as Hg by (unfold genesis_hash; by rewrite (proj1 (blake3_array _))).
  rewrite get_reliable, (sc_genesis _ _ _ Hs), Hg. change (32 =? 32) with true. cbn iota.
  rewrite bool_decide_false by (by intros []). unfold tip. rewrite get_reliable, (sc_tip _ _ _ Hs).
  destruct es as [|e es]; [cbn in He; by injection He as <-|].
  destruct Hok as [Hlen Hok]. rewrite length_be_bytes, of_be_be_bytes by (cbn [length] in *; ulia).
  change (Z.of_nat 8 =? 8) with true. cbn iota.
  pose proof (replay_loop_ok s g [] (e :: es) w w' (genesis_hash g)
    (Z.to_nat (len (e :: es) - 1) + 1)) as T. cbn [app] in T. change (len (@nil entry)) with 0 in T.
  rewrite T; [done|done|done|done|cbn [length]; lia|done].
Qed.
(** ** Committing *)

Lemma batch_one (s : S) op :
  ∃ s', apply_batch s [op] = (s', Ok tt) ∧ kv_view s' = view_op (kv_view s) op.
Proof. apply (batch_reliable s [op]). Qed.

(** Contents that agree on the keys of the chain. *)
Lemma stored_chain_ext m m' g es :
  stored_chain m g es → m' !! KEY_GENESIS = m !! KEY_GENESIS → m' !! KEY_TIP = m !! KEY_TIP →
  (∀ i, (i < length es)%nat → m' !! block_key (Z.of_nat i) = m !! block_key (Z.of_nat i) ∧
        m' !! app_hash_key (Z.of_nat i) = m !! app_hash_key (Z.of_nat i)) →
  stored_chain m' g es.
Proof.
  intros Hs E1 E2 E3. split.
  - rewrite E1. apply (sc_genesis _ _ _ Hs).
  - intros i e Hi. rewrite (proj1 (E3 i ltac:(by eapply lookup_lt_Some))). by apply (sc_body _ _ _ Hs).
  - intros i e Hi. rewrite (proj2 (E3 i ltac:(by eapply lookup_lt_Some))). by apply (sc_app _ _ _ Hs).
  - rewrite E2. apply (sc_tip _ _ _ Hs).
Qed.

Lemma height_key_ne p (i n : nat) :
  (i < n)%nat → Z.of_nat n ≤ U64_MAX → p ++ be_bytes 8 (Z.of_nat i) ≠ p ++ be_bytes 8 (Z.of_nat n).
Proof. intros Hi Hn. apply be_key_ne; ulia. Qed.

(** A complete block write extends the chain. *)
Lemma stored_chain_snoc m m' g es e :
  stored_chain m g es → hf_height (h_fields (e_header e)) = len es → len es ≤ U64_MAX →
  written m m' (e_header e) (e_block e) (e_receipts e) (e_app e) → stored_chain m' g (es ++ [e]).
Proof.
  intros Hs Hh Hlen Wr.
  assert (∀ k, tag k ≠ 72 → tag k ≠ 116 → tag k ≠ 114 → k ≠ KEY_TIP → tag k ≠ 104 →
    k ≠ block_key (len es) → k ≠ app_hash_key (len es) → m' !! k = m !! k) as Hother.
  { intros k H1 H2 H3 H4 H5 H6 H7. apply (wr_other _ _ _ _ _ _ Wr); rewrite ?Hh; try done. by intros ->. }
  split.
  - rewrite Hother by done. apply (sc_genesis _ _ _ Hs).
  - intros i e' [Hi|[Hi He]]%lookup_app_Some.
    + assert (i < length es)%nat as Hlt by (by eapply lookup_lt_Some).
      rewrite Hother by (done || by apply height_key_ne). by apply (sc_body _ _ _ Hs).
    + apply list_lookup_singleton_Some in He as [Hi' ->]. replace i with (length es) by lia.
      rewrite <- Hh. apply (wr_body _ _ _ _ _ _ Wr).
  - intros i e' [Hi|[Hi He]]%lookup_app_Some.
    + assert (i < length es)%nat as Hlt by (by eapply lookup_lt_Some).
      rewrite Hother by (done || by apply height_key_ne). by apply (sc_app _ _ _ Hs).
    + apply list_lookup_singleton_Some in He as [Hi' ->]. replace i with (length es) by lia.
      rewrite <- Hh. apply (wr_app _ _ _ _ _ _ Wr).
  - rewrite (wr_tip _ _ _ _ _ _ Wr), Hh, length_app. destruct es; cbn [app length]; do 2 f_equal; lia.
Qed.

Lemma write_wal_ok (s : S) i e :
  entry_ok i e → ∃ s' buf, write_wal s (e_header e) (e_block e) (e_receipts e) (e_app e) = Some (s', Ok tt) ∧
    encode_wal (e_header e) (e_block e) (e_receipts e) (e_app e) = Some buf ∧
    kv_view s' = <[KEY_WAL := buf]> (kv_view s).
Proof.
  intros (_ & _ & Hb & _). unfold write_wal.
  assert (is_Some (encode_wal (e_header e) (e_block e) (e_receipts e) (e_app e))) as [buf Eb].
  { unfold encode_wal. destruct (encode_block_body_total _ (proj2 Hb)) as [body ->]. by eexists. }
  rewrite Eb. destruct (batch_one s (BPut KEY_WAL buf)) as (s' & E & V). exists s', buf. cbn [mbind option_bind]. by rewrite E.
Qed.

Lemma clear_wal_ok (s : S) : ∃ s', clear_wal s = (s', Ok tt) ∧ kv_view s' = base.delete KEY_WAL (kv_view s).
Proof. apply batch_one. Qed.

(** The WAL key is not a key of the chain. *)
Lemma stored_chain_wal m g es o :
  stored_chain m g es ↔ stored_chain (partial_alter (λ _, o) KEY_WAL m) g es.
Proof.
  split; intros Hs; (eapply stored_chain_ext; [exact Hs|..]);
    intros; rewrite ?lookup_partial_alter_ne by done; try done.
Qed.

Lemma commit_wal_ok (s : S) g es e :
  stored_chain (kv_view s) g es → entry_ok (length es) e → len es ≤ U64_MAX →
  ∃ s', commit_with_wal s (e_header e) (e_block e) (e_receipts e) (e_app e) false = Some (s', Ok tt) ∧
    stored_chain (kv_view s') g (es ++ [e]) ∧ kv_view s' !! KEY_WAL = None.
Proof.
  intros Hs He Hlen. unfold commit_with_wal.
  destruct (write_wal_ok s _ e He) as (s1 & buf & -> & _ & V1).
  destruct (put_block_written s1 (e_header e) (e_block e) (e_receipts e) (e_app e)) as (s2 & -> & V2); [apply He|].
  destruct (clear_wal_ok s2) as (s3 & -> & V3). exists s3. split; [done|]. rewrite V3. split; [|apply lookup_delete_eq].
  apply (proj1 (stored_chain_wal (kv_view s2) g _ None)). eapply stored_chain_snoc; [|apply He|done|exact V2].
  rewrite V1. by apply (proj1 (stored_chain_wal (kv_view s) g es (Some buf))).
Qed.

Fixpoint commit_all (s : S) (es : list entry) : option S :=
  match es with
  | [] => Some s
  | e :: es =>
      match commit_with_wal s (e_header e) (e_block e) (e_receipts e) (e_app e) false with
      | Some (s, Ok _) => commit_all s es
      | _ => None
      end
  end.

Lemma commit_all_ok (s : S) g es0 es :
  stored_chain (kv_view s) g es0 → entries_ok (es0 ++ es) →
  ∃ s', commit_all s es = Some s' ∧ stored_chain (kv_view s') g (es0 ++ es).
Proof.
  revert s es0. induction es as [|e es IH]; intros s es0 Hs Hok.
  { exists s. by rewrite app_nil_r. }
  cbn [commit_all]. destruct Hok as [Hlen Hok]. rewrite length_app in Hlen. cbn in Hlen.
  destruct (commit_wal_ok s g es0 e Hs) as (s1 & -> & Hs1 & _); [|lia|].
  { apply Hok. by rewrite lookup_app_r, Nat.sub_diag by lia. }
  rewrite (app_assoc es0 [e] es : es0 ++ e :: es = _) in *. apply IH; [done|].
  split; [rewrite !length_app; cbn; lia|done].
Qed.

(** C10: replay is faithful.  Starting from a store without a chain, record the
    genesis hash and commit any list of blocks, the way the live node
    executes them; replaying the resulting store from the genesis world
    terminates and gives exactly the live world and the last application
    hash. *)
Theorem replay_faithful (s : S) g es w w' :
  kv_view s !! KEY_TIP = None → entries_ok es → exec_chain w es = Some w' →
  ∃ s', commit_all (put_genesis_hash s g).1 es = Some s' ∧
    replay_from_genesis s' g w = Some (Ok (w', last_app g es)).
Proof.
  intros Ht Hok He. unfold put_genesis_hash.
  destruct (batch_one s (BPut KEY_GENESIS (genesis_hash g))) as (s1 & E & V). rewrite E. cbn [fst].
  assert (stored_chain (kv_view s1) g []) as Hs1.
  { rewrite V. split; cbn [view_op]; [apply lookup_insert_eq|done..|]. by rewrite lookup_insert_ne. }
  destruct (commit_all_ok s1 g [] es Hs1 Hok) as (s' & Ec & Hs'). exists s'. split; [done|].
  by apply replay_ok.
Qed.

(** ** Crashes *)

(** The process dies after [k] operations of the block's batch: the WAL
    record is there, the batch is torn. *)
Definition torn (s : S) (e : entry) (ops : list BatchOp) (k : nat) (sk : S) : Prop :=
  put_block_ops (e_header e) (e_block e) (e_receipts e) (e_app e) = Some ops ∧
  ∃ buf, encode_wal (e_header e) (e_block e) (e_receipts e) (e_app e) = Some buf ∧
    kv_view sk = foldl view_op (<[KEY_WAL := buf]> (kv_view s)) (take k ops).

Lemma take_notin k ops x : x ∉ op_key <$> ops → x ∉ op_key <$> take k ops.
Proof.
  intros Hx (op & -> & Hop)%list_elem_of_fmap. apply Hx, list_elem_of_fmap_2.
  rewrite <- (take_drop k ops), elem_of_app. by left.
Qed.

(** All but the last operation of the batch leave the rest of the chain, the
    tip and the WAL alone. *)
Lemma batch_front header block receipts app ops k x :
  put_block_ops header block receipts app = Some ops → (k < length ops)%nat →
  tag x ≠ 72 → tag x ≠ 116 → tag x ≠ 114 → tag x ≠ 104 →
  (tag x = 98 → x ≠ block_key (hf_height (h_fields header))) →
  (tag x = 97 → x ≠ app_hash_key (hf_height (h_fields header))) →
  x ∉ op_key <$> take k ops.
Proof.
  intros (body & iops & rops & _ & Ei & Er & ->)%put_block_ops_shape Hk H1 H2 H3 H4 H5 H6.
  apply hash_ops_tagged in Ei. apply hash_ops_tagged in Er.
  set (h := hf_height (h_fields header)) in *.
  assert (∀ a b c d (z : BatchOp), a ++ b ++ c ++ d ++ [BPut (app_hash_key h) app; z] =
    (a ++ b ++ c ++ d ++ [BPut (app_hash_key h) app]) ++ [z]) as Eq
    by (intros; by rewrite <- !app_assoc).
  rewrite Eq in *. rewrite length_app in Hk. cbn [length] in Hk. rewrite take_app_le by lia. apply take_notin.
  rewrite !fmap_app, !not_elem_of_app. cbn [fmap list_fmap op_key put_header_ops]. rewrite !not_elem_of_cons.
  repeat split; try apply not_elem_of_nil; eauto using tagged_notin.
  - by intros ->.
  - by intros ->.
  - intros ->. by apply H5.
  - intros ->. by apply H6.
Qed.

Lemma torn_front (s sk : S) g es e ops k :
  stored_chain (kv_view s) g es → entries_ok (es ++ [e]) → torn s e ops k sk → (k < length ops)%nat →
  stored_chain (kv_view sk) g es ∧
  kv_view sk !! KEY_WAL = encode_wal (e_header e) (e_block e) (e_receipts e) (e_app e).
Proof.
  intros Hs [Hlen Hok] (Eo & buf & Ew & V) Hk. rewrite length_app in Hlen. cbn in Hlen.
  destruct (Hok (length es) e) as (Hh & _); [by rewrite lookup_app_r, Nat.sub_diag by lia|].
  split.
  - apply (proj1 (stored_chain_wal (kv_view s) g es (Some buf))) in Hs.
    eapply stored_chain_ext; [exact Hs|..]; rewrite V; [| |intros i Hi; split];
      (apply view_ops_notin, (batch_front _ _ _ _ _ k _ Eo Hk); try done);
      intros _; rewrite Hh; apply height_key_ne; lia.
  - rewrite V, Ew, view_ops_notin; [apply lookup_insert_eq|].
    by apply (batch_front _ _ _ _ _ k _ Eo Hk).
Qed.

Lemma entries_ok_snoc es e : entries_ok (es ++ [e]) → entries_ok es ∧ entry_ok (length es) e ∧ len es ≤ U64_MAX.
Proof.
  intros [Hlen Hok]. rewrite length_app in Hlen. cbn in Hlen. split; [|split; [|lia]].
  - split; [lia|]. intros i x Hi. apply Hok. by apply lookup_app_l_Some.
  - apply Hok. by rewrite lookup_app_r, Nat.sub_diag by lia.
Qed.

Lemma wal_payload (sk : S) i e :
  entry_ok i e → kv_view sk !! KEY_WAL = encode_wal (e_header e) (e_block e) (e_receipts e) (e_app e) →
  ∃ buf, kv_get sk KEY_WAL = Ok (Some buf) ∧
    decode_wal buf = Ok {| wp_header := e_header e; wp_block := e_block e;
                           wp_receipts := e_receipts e; wp_app_hash := e_app e |}.
Proof.
  intros He Hw. destruct (write_wal_ok sk i e He) as (_ & buf & _ & Eb & _). exists buf.
  rewrite get_reliable, Hw, Eb. split; [done|]. destruct He as (_ & Hh & Hb & _ & Ha & Hf).
  apply wal_roundtrip; auto.
Qed.

(** A body at the next height: the WAL is dropped and the chain replayed. *)
Lemma recover_present (sk : S) g es i e w w' :
  stored_chain (kv_view sk) g es → entries_ok es → entry_ok i e → exec_chain w es = Some w' →
  kv_view sk !! KEY_WAL = encode_wal (e_header e) (e_block e) (e_receipts e) (e_app e) →
  kv_view sk !! block_key (Z.of_nat i) = encode_block_body (e_block e) →
  ∃ s', recover sk g w = Some (s', Ok w') ∧ kv_view s' = base.delete KEY_WAL (kv_view sk) ∧
    stored_chain (kv_view s') g es.
Proof.
  intros Hs Hok He Hx Hw Hb. destruct (wal_payload sk i e He Hw) as (buf & Eg & Ed).
  destruct He as (Hh & _ & Hbw & Hfit & _). destruct (clear_wal_ok sk) as (s' & Ec & V).
  assert (stored_chain (kv_view s') g es) as Hs'
    by (rewrite V; by apply (proj1 (stored_chain_wal (kv_view sk) g es None))).
  exists s'. split; [|done]. unfold recover. rewrite Eg, Ed. cbn [wp_header]. rewrite Hh.
  rewrite (get_block_view sk _ _ Hbw Hfit Hb), Ec. by rewrite (replay_ok s' g es w w' Hs' Hok Hx).
Qed.

(** No body yet: the commit is finished. *)
Lemma recover_absent (sk : S) g es e w w' :
  stored_chain (kv_view sk) g es → entries_ok (es ++ [e]) → exec_chain w (es ++ [e]) = Some w' →
  kv_view sk !! KEY_WAL = encode_wal (e_header e) (e_block e) (e_receipts e) (e_app e) →
  kv_view sk !! block_key (len es) = None →
  ∃ s', recover sk g w = Some (s', Ok w') ∧ stored_chain (kv_view s') g (es ++ [e]) ∧
    kv_view s' !! KEY_WAL = None.
Proof.
  intros Hs (Hes & He & Hlen)%entries_ok_snoc Hx Hw Hb.
  destruct (wal_payload sk _ e He Hw) as (buf & Eg & Ed).
  rewrite exec_chain_app in Hx. destruct (exec_chain w es) as [w0|] eqn:Ex; [|done]. cbn in Hx.
  destruct (apply_block w0 (e_block e)) as [[[w1 rs] app]|] eqn:Ea; [|done].
  destruct (decide (app = e_app e)) as [->|]; [|done]. injection Hx as <-.
  destruct (put_block_written sk (e_header e) (e_block e) (e_receipts e) (e_app e)) as (s1 & Ep & V1); [apply He|].
  destruct (clear_wal_ok s1) as (s2 & Ec & V2). exists s2. split; [|split].
  - unfold recover. rewrite Eg, Ed. cbn [wp_header wp_block wp_receipts wp_app_hash].
    rewrite (proj1 He). unfold get_block. rewrite get_reliable, Hb, (replay_ok sk g es w w0 Hs Hes Ex), Ea.
    rewrite bool_decide_false by (by intros []). by rewrite Ep, Ec.
  - rewrite V2. apply (proj1 (stored_chain_wal (kv_view s1) g _ None)). eapply stored_chain_snoc; [exact Hs|apply He|done|exact V1].
  - rewrite V2. apply lookup_delete_eq.
Qed.

(** C6: recovery finishes an interrupted commit.  If the process dies after
    the WAL write and before the body is written (after at most two
    operations of the batch), or after the whole batch and before the WAL is
    cleared, then recovery succeeds with the world after the block; the store
    then holds the chain with the block, without a WAL record, and replays to
    that world. *)
Theorem recover_completes (s sk : S) g es e w w' ops k :
  stored_chain (kv_view s) g es → kv_view s !! block_key (len es) = None →
  entries_ok (es ++ [e]) → exec_chain w (es ++ [e]) = Some w' →
  torn s e ops k sk → (k ≤ 2)%nat ∨ (length ops ≤ k)%nat →
  ∃ s', recover sk g w = Some (s', Ok w') ∧ stored_chain (kv_view s') g (es ++ [e]) ∧
    kv_view s' !! KEY_WAL = None ∧ replay_from_genesis s' g w = Some (Ok (w', e_app e)).
Proof.
  intros Hs Hno Hok Hx Ht Hk. pose proof (entries_ok_snoc es e Hok) as (Hes & He & Hlen).
  assert (∃ s', recover sk g w = Some (s', Ok w') ∧ stored_chain (kv_view s') g (es ++ [e]) ∧
    kv_view s' !! KEY_WAL = None) as (s' & E1 & E2 & E3).
  { destruct (decide (length ops ≤ k)%nat) as [Hall|Hpart].
    - destruct Ht as (Eo & buf & Ew & V). rewrite take_ge in V by done.
      pose proof (put_block_ops_written (<[KEY_WAL := buf]> (kv_view s)) _ _ _ _ _ Eo) as Wr. rewrite <- V in Wr.
      assert (stored_chain (kv_view sk) g (es ++ [e])) as Hsk.
      { eapply stored_chain_snoc; [|apply He|done|exact Wr]. by apply (proj1 (stored_chain_wal (kv_view s) g es (Some buf))). }
      destruct (recover_present sk g (es ++ [e]) (length es) e w w') as (s' & E1 & E2 & E3); try done.
      + rewrite (wr_other _ _ _ _ _ _ Wr), Ew by done. apply lookup_insert_eq.
      + rewrite <- (proj1 He). apply (wr_body _ _ _ _ _ _ Wr).
      + exists s'. split; [done|]. split; [done|]. rewrite E2. apply lookup_delete_eq.
    - destruct (torn_front s sk g es e ops k Hs Hok Ht) as [Hsk Hw]; [lia|].
      apply recover_absent; try done. destruct Ht as (Eo & buf & _ & V). rewrite V.
      rewrite view_ops_notin; [by rewrite lookup_insert_ne|].
      apply put_block_ops_shape in Eo as (body & iops & rops & _ & _ & _ & ->).
      rewrite take_app_le by (cbn; lia). apply take_notin. cbn. rewrite !not_elem_of_cons.
      split; [done|]. split; [done|apply not_elem_of_nil]. }
  exists s'. split; [done|]. split; [done|]. split; [done|].
  rewrite (replay_ok s' g (es ++ [e]) w w' E2 Hok Hx). unfold last_app. by rewrite last_snoc.
Qed.

(** C34: a torn batch loses the block.  If the process dies inside the batch
    after the body is written but before the last operation, recovery takes
    the block for stored: it drops the WAL record and returns the world
    before the block; header and body of the block stay in the store above
    the tip. *)
Theorem recover_drops_torn_batch (s sk : S) g es e w w' ops k :
  stored_chain (kv_view s) g es → entries_ok (es ++ [e]) → exec_chain w es = Some w' →
  torn s e ops k sk → (3 ≤ k < length ops)%nat →
  ∃ s', recover sk g w = Some (s', Ok w') ∧ kv_view s' !! KEY_WAL = None ∧
    stored_chain (kv_view s') g es ∧ get_block s' (len es) = Ok (Some (e_block e)).
Proof.
  intros Hs Hok Hx Ht Hk. pose proof (entries_ok_snoc es e Hok) as (Hes & He & Hlen).
  destruct (torn_front s sk g es e ops k Hs Hok Ht) as [Hsk Hw]; [lia|].
  assert (kv_view sk !! block_key (len es) = encode_block_body (e_block e)) as Hb.
  { destruct Ht as (Eo & buf & _ & V). rewrite V. pose proof Eo as Eo'.
    apply put_block_ops_shape in Eo as (body & iops & rops & Eb & Ei & Er & Eops). rewrite Eb.
    rewrite Eops, take_app_ge, take_app_ge by (cbn; lia). rewrite <- (proj1 He).
    rewrite app_assoc, foldl_app, view_ops_notin.
    - rewrite foldl_app. apply (view_ops_put _ [] _ _ []). apply not_elem_of_nil.
    - apply take_notin. apply hash_ops_tagged in Ei. apply hash_ops_tagged in Er.
      rewrite !fmap_app, !not_elem_of_app. repeat split; eauto using tagged_notin.
      cbn. rewrite !not_elem_of_cons. split; [done|]. split; [done|apply not_elem_of_nil]. }
  destruct (recover_present sk g es (length es) e w w') as (s' & E1 & E2 & E3); try done.
  exists s'. split; [done|]. split; [rewrite E2; apply lookup_delete_eq|]. split; [done|].
  apply get_block_view; [apply He|apply He|]. by rewrite E2, lookup_delete_ne.
Qed.

(** ** Pruning *)

(** How many heights of a range have a body. *)
Definition bodies (m : gmap bytes bytes) (h n : Z) : Z :=
  sumZ (λ i, match m !! block_key i with Some _ => 1 | None => 0 end) (seqZ h n).

Lemma prune_loop_ok n (s : S) h d :
  0 ≤ h → h + Z.of_nat n ≤ U64_MAX →
  ∃ s', prune_loop n s h d = (s', Ok (d + bodies (kv_view s) h (Z.of_nat n))) ∧
    (∀ i, h ≤ i < h + Z.of_nat n → kv_view s' !! block_key i = None) ∧
    (∀ k, (∀ i, h ≤ i < h + Z.of_nat n → k ≠ block_key i) → kv_view s' !! k = kv_view s !! k).
Proof.
  revert s h d. induction n as [|n IH]; intros s h d Hh Hn.
  { exists s. split; [by rewrite Z.add_0_r|]. split; [lia|done]. }
  assert (∀ (s1 : S) d1, (∀ k, k ≠ block_key h → kv_view s1 !! k = kv_view s !! k) →
    kv_view s1 !! block_key h = None →
    d1 + bodies (kv_view s1) (h + 1) (Z.of_nat n) = d + bodies (kv_view s) h (Z.of_nat (Datatypes.S n)) →
    ∃ s', prune_loop n s1 (h + 1) d1 = (s', Ok (d + bodies (kv_view s) h (Z.of_nat (Datatypes.S n)))) ∧
    (∀ i, h ≤ i < h + Z.of_nat (Datatypes.S n) → kv_view s' !! block_key i = None) ∧
    (∀ k, (∀ i, h ≤ i < h + Z.of_nat (Datatypes.S n) → k ≠ block_key i) → kv_view s' !! k = kv_view s !! k)) as Step.
  { intros s1 d1 Hs1 Hnone Hd. destruct (IH s1 (h + 1) d1) as (s' & E & H1 & H2); [lia|lia|].
    exists s'. rewrite E, Hd. split; [done|]. split.
    - intros i Hi. destruct (decide (i = h)) as [->|]; [|apply H1; lia]. rewrite H2; [done|].
      intros j Hj. apply be_key_ne; ulia.
    - intros k Hk. rewrite H2 by (intros j Hj; apply Hk; lia). apply Hs1, Hk. lia. }
  assert (∀ m m' : gmap bytes bytes, (∀ k, k ≠ block_key h → m' !! k = m !! k) →
    bodies m' (h + 1) (Z.of_nat n) = bodies m (h + 1) (Z.of_nat n)) as Hsame.
  { intros m m' Hm. apply sumZ_ext, Forall_forall. intros i Hi%elem_of_seqZ.
    rewrite Hm; [done|]. apply be_key_ne; ulia. }
  assert (seqZ h (Z.of_nat (Datatypes.S n)) = h :: seqZ (h + 1) (Z.of_nat n)) as Eseq.
  { rewrite seqZ_cons by lia. do 2 f_equal; lia. }
  assert (bodies (kv_view s) h (Z.of_nat (Datatypes.S n)) =
    match kv_view s !! block_key h with Some _ => 1 | None => 0 end + bodies (kv_view s) (h + 1) (Z.of_nat n)) as Ecnt
    by (unfold bodies; by rewrite Eseq, sumZ_cons).
  cbn [prune_loop]. rewrite get_reliable. destruct (kv_view s !! block_key h) as [b|] eqn:Eb.
  - pose proof (delete_reliable s (block_key h)) as Ed.
    pose proof (kv_delete_view s (block_key h)) as V. destruct (kv_delete s (block_key h)) as [s1 r].
    cbn [fst snd] in Ed, V. subst r.
    assert (∀ k, k ≠ block_key h → kv_view s1 !! k = kv_view s !! k) as Hk
      by (intros k Hk; by rewrite V, lookup_delete_ne).
    apply Step; [done|rewrite V; apply lookup_delete_eq|]. rewrite (Hsame (kv_view s)) by done. lia.
  - apply Step; [done|done|]. lia.
Qed.

(** Pruning removes exactly the cold bodies.  An archive node (the
    default), a window that covers the chain and a window of zero prune
    nothing.  Otherwise the bodies below [tip - hot_window + 1] are gone, every
    other key of the store is untouched, the count returned is the number of
    bodies removed, and the store can no longer be replayed. *)
Theorem prune_exact (s : S) cfg g es w :
  stored_chain (kv_view s) g es → entries_ok es → es ≠ [] → 0 ≤ hot_window cfg →
  let first_hot := len es - hot_window cfg in
  let r := prune_cold_bodies s cfg in
  if prune_cold cfg && (0 <? hot_window cfg) && (0 <? first_hot) then
    r.2 = Ok (bodies (kv_view s) 0 first_hot) ∧
    (∀ i, 0 ≤ i < first_hot → kv_view r.1 !! block_key i = None) ∧
    (∀ k, (∀ i, 0 ≤ i < first_hot → k ≠ block_key i) → kv_view r.1 !! k = kv_view s !! k) ∧
    replay_from_genesis r.1 g w = Some (Err RpMissingBlock)
  else r = (s, Ok 0).
Proof.
  intros Hs [Hlen Hok] Hne Hw first_hot r. subst first_hot r. unfold prune_cold_bodies.
  destruct (prune_cold cfg); cbn [andb negb]; [|done].
  assert (tip s = Ok (Some (len es - 1))) as Ht.
  { unfold tip. rewrite get_reliable, (sc_tip _ _ _ Hs). destruct es as [|e es]; [done|].
    rewrite length_be_bytes, of_be_be_bytes by (cbn [length] in *; ulia). done. }
  rewrite Ht. destruct (Z.eqb_spec (hot_window cfg) 0) as [->|Hw0]; [done|]. cbn [orb].
  rewrite (proj2 (Z.ltb_lt 0 (hot_window cfg))) by lia. cbn [andb].
  destruct (Z.ltb_spec (len es - 1) (hot_window cfg)) as [Hlt|Hge].
  { by rewrite (proj2 (Z.ltb_ge _ _)) by lia. }
  rewrite (proj2 (Z.ltb_lt _ _)) by lia.
  destruct (prune_loop_ok (Z.to_nat (len es - 1 - hot_window cfg + 1)) s 0 0) as (s' & E & H1 & H2); [lia|lia|].
  rewrite Z2Nat.id in E, H1, H2 by lia. rewrite E. cbn [fst snd].
  replace (len es - 1 - hot_window cfg + 1) with (len es - hot_window cfg) in * by lia. rewrite Z.add_0_l in *.
  split; [done|]. split; [done|]. split; [done|].
  unfold replay_from_genesis, get_genesis_hash, tip.
  assert (len (genesis_hash g) = 32) as Hg by (unfold genesis_hash; by rewrite (proj1 (blake3_array _))).
  rewrite !get_reliable, !H2, (sc_genesis _ _ _ Hs), (sc_tip _ _ _ Hs), Hg by done.
  change (32 =? 32) with true. cbn iota. rewrite bool_decide_false by (by intros []).
  destruct es as [|e es]; [done|]. rewrite length_be_bytes, of_be_be_bytes by (cbn [length] in *; ulia).
  change (Z.of_nat 8 =? 8) with true. cbn iota. rewrite (Nat.add_comm _ 1). cbn [Nat.add replay_loop].
  rewrite (proj2 (Z.ltb_ge _ _)) by (cbn [length]; lia). unfold get_block.
  by rewrite get_reliable, H1 by lia.
Qed.

End recovery.

(** ** Concrete runs *)

#[local] Existing Instance toy_crypto.
#[local] Existing Instance toy_crypto_laws.

(** A world that counts blocks. *)
Definition count_block (w : Z) (b : Block) : option (Z * list unit * Hash) :=
  Some (w + 1, [], replicate 32 w).

Definition toy_entry (n : Z) : entry :=
  let fields := {| hf_height := n; hf_round := 0; hf_proposer := replicate 48 1; hf_timestamp_ms := 10 + n |} in
  {| e_header := {| h_fields := fields; h_tx_root := replicate 32 0; h_state_root := replicate 32 1;
                    h_receipts_root := replicate 32 2; h_validators_hash := replicate 32 3;
                    h_da_root := replicate 32 4 |};
     e_block := {| b_header_fields := fields; b_txs := [] |}; e_receipts := []; e_app := replicate 32 n |}.

Definition toy_chain : list entry := [toy_entry 0; toy_entry 1; toy_entry 2].

Lemma toy_entry_ok n : 0 ≤ n < 3 → entry_ok (Z.to_nat n) (toy_entry n).
Proof.
  intros Hn. assert (n = 0 ∨ n = 1 ∨ n = 2) as [->|[->| ->]] by lia;
    (split; [reflexivity|]; split; [by_eval|]; split; [by_eval|]; split; [|split; [by_eval|]]);
    intros buf E; vm_compute in E; injection E as <-; by_eval.
Qed.

Lemma toy_chain_ok es : es `prefix_of` toy_chain → entries_ok es.
Proof.
  intros Hp. split.
  - apply prefix_length in Hp. cbn in Hp. ulia.
  - intros i e Hi. eapply prefix_lookup_Some in Hp; [|exact Hi].
    assert (i < 3)%nat by (by apply lookup_lt_Some in Hp).
    assert (e = toy_entry (Z.of_nat i)) as ->.
    { destruct i as [|[|[|i]]]; [by injection Hp as <-..|lia]. }
    rewrite <- (Nat2Z.id i) at 1. apply toy_entry_ok. lia.
Qed.

Definition toy_genesis : Genesis := Genesis_new 1.

Lemma replay_faithful_witness :
  ∃ s', commit_all (put_genesis_hash MemoryStore_new toy_genesis).1 toy_chain = Some s' ∧
    replay_from_genesis count_block s' toy_genesis 0 = Some (Ok (3, replicate 32 2)).
Proof.
  apply (replay_faithful count_block MemoryStore_new toy_genesis toy_chain 0 3);
    [reflexivity|by apply toy_chain_ok|reflexivity].
Defined.

(** The store after two blocks, and the one left by a crash in the third. *)
Definition two_blocks : MemoryStore :=
  default MemoryStore_new (commit_all (put_genesis_hash MemoryStore_new toy_genesis).1 (take 2 toy_chain)).

Definition crashed (k : nat) : MemoryStore :=
  let e := toy_entry 2 in
  {| ms_map := foldl view_op
       (<[KEY_WAL := default [] (encode_wal (e_header e) (e_block e) (e_receipts e) (e_app e))]> (ms_map two_blocks))
       (take k (default [] (put_block_ops (e_header e) (e_block e) (e_receipts e) (e_app e)))) |}.

Lemma two_blocks_stored : stored_chain (kv_view two_blocks) toy_genesis (take 2 toy_chain).
Proof.
  assert (stored_chain (kv_view (put_genesis_hash MemoryStore_new toy_genesis).1) toy_genesis []) as Hs.
  { split; [vm_compute; reflexivity|done..|vm_compute; reflexivity]. }
  destruct (commit_all_ok _ _ [] (take 2 toy_chain) Hs) as (s' & E & Hs').
  - apply toy_chain_ok. exists [toy_entry 2]. reflexivity.
  - unfold two_blocks. by rewrite E.
Qed.

Lemma crashed_torn k : ∃ ops, torn two_blocks (toy_entry 2) ops k (crashed k) ∧ length ops = 5%nat.
Proof.
  exists (default [] (put_block_ops (e_header (toy_entry 2)) (e_block (toy_entry 2)) [] (replicate 32 2))).
  split; [|reflexivity]. split; [reflexivity|]. eexists. split; [reflexivity|]. reflexivity.
Qed.

(** A crash after the two header operations. *)
Lemma recover_completes_witness :
  ∃ s', recover count_block (crashed 2) toy_genesis 0 = Some (s', Ok 3) ∧ kv_view s' !! KEY_WAL = None.
Proof.
  destruct (crashed_torn 2) as (ops & Ht & _).
  destruct (recover_completes count_block two_blocks (crashed 2) toy_genesis (take 2 toy_chain) (toy_entry 2)
    0 3 ops 2 two_blocks_stored) as (s' & E1 & _ & E2 & _);
    [vm_compute; reflexivity|by apply toy_chain_ok|reflexivity|exact Ht|by left|].
  exists s'. split; [exact E1|exact E2].
Defined.

(** A crash after the body: the world is that of two blocks. *)
Lemma recover_drops_torn_batch_witness :
  ∃ s', recover count_block (crashed 3) toy_genesis 0 = Some (s', Ok 2) ∧ kv_view s' !! KEY_WAL = None ∧
    get_block s' 2 = Ok (Some (e_block (toy_entry 2))).
Proof.
  destruct (crashed_torn 3) as (ops & Ht & Hl).
  destruct (recover_drops_torn_batch count_block two_blocks (crashed 3) toy_genesis (take 2 toy_chain)
    (toy_entry 2) 0 2 ops 3 two_blocks_stored) as (s' & E1 & E2 & _ & E3);
    [by apply toy_chain_ok|reflexivity|exact Ht|lia|].
  exists s'. split; [exact E1|]. split; [exact E2|exact E3].
Defined.

Lemma prune_exact_witness :
  replay_from_genesis count_block (prune_cold_bodies two_blocks {| prune_cold := true; hot_window := 1 |}).1
    toy_genesis 0 = Some (Err RpMissingBlock).
Proof.
  refine (proj2 (proj2 (proj2 (prune_exact count_block two_blocks {| prune_cold := true; hot_window := 1 |}
    toy_genesis (take 2 toy_chain) 0 two_blocks_stored _ _ _)))); [|done|done].
  apply toy_chain_ok. exists [toy_entry 2]. reflexivity.
Defined.
