(* ===== verification/Tries.v ===== *)
(** The state tries: [state/src/tries.rs] and [state/src/root.rs].

    [TrieImpl]/[TrieLaws] is the interface between the trie and its clients
    (execution, rent): a trie holds a finite map as long as it is [safe].
    The Merkle Patricia trie implements it, with [safe] saying that the hash
    has no collision on the nodes stored so far; a map that is its own root
    does so as well and keeps client witnesses small. *)

From S2P Require Import Prelude Types Codec Crypto Merkle MptNode Mpt MptRep MptRefine MptSpec MptProof.

#[local] Open Scope Z_scope.
#[local] Open Scope l1_scope.

(** ** The interface *)

Class TrieImpl (T : Type) := {
  trie_new : T;
  trie_get : T → bytes → option bytes;
  trie_put : T → bytes → bytes → T;
  trie_delete : T → bytes → T;
  trie_root : T → bytes;
}.

Class TrieLaws (T : Type) `{!TrieImpl T} := {
  trie_holds : T → gmap bytes bytes → Prop;
  trie_safe : T → Prop;
  holds_new : trie_holds trie_new ∅;
  holds_get t m k : trie_holds t m → bytes_ok k → trie_get t k = m !! k;
  holds_put t m k v :
    trie_holds t m → key_ok k → val_ok v → trie_safe (trie_put t k v) →
    trie_holds (trie_put t k v) (<[k := v]> m);
  holds_delete t m k :
    trie_holds t m → key_ok k → trie_safe (trie_delete t k) →
    trie_holds (trie_delete t k) (base.delete k m);
  safe_put t k v : trie_safe (trie_put t k v) → trie_safe t;
  safe_delete t k : trie_safe (trie_delete t k) → trie_safe t;
  holds_root t t' m : trie_holds t m → trie_holds t' m → trie_root t = trie_root t';
}.

(** ** The Merkle Patricia trie is one: a panic is an absorbing state *)

Section mpt.
Context `{!Crypto, !CryptoLaws}.

Definition mpt_get (r : trie_result) (k : bytes) : option bytes :=
  match r with
  | TOk t => match get t k with Some v => v | None => None end
  | TPanic _ => None
  end.

#[export] Instance mpt_trie : TrieImpl trie_result := {|
  trie_new := TOk Trie_new;
  trie_get := mpt_get;
  trie_put r k v := trie_op_run r (OpPut k v);
  trie_delete r k := trie_op_run r (OpDelete k);
  trie_root r := match r with TOk t => t_root t | TPanic _ => [] end;
|}.

Definition mpt_holds (r : trie_result) (m : gmap bytes bytes) : Prop :=
  match r with TOk t => tinv t m | TPanic _ => False end.
Definition mpt_safe (r : trie_result) : Prop := collision_free (result_log r).

#[export] Instance mpt_trie_laws : TrieLaws trie_result.
Proof.
  refine {| trie_holds := mpt_holds; trie_safe := mpt_safe |}.
  - apply tinv_new.
  - intros [t|s] m k Ht Hk; [|done]. cbn. by rewrite (get_spec t m).
  - intros [t|s] m k v Ht Hk Hv Hs; [|done]. cbn in *.
    destruct (put_spec t m k v Ht Hk Hv Hs) as (t' & -> & Ht'). exact Ht'.
  - intros [t|s] m k Ht Hk Hs; [|done]. cbn in *.
    destruct (delete_spec t m k Ht Hk Hs) as (t' & -> & Ht'). exact Ht'.
  - intros r k v. apply collision_free_sub, (op_run_log r (OpPut k v)).
  - intros r k. apply collision_free_sub, (op_run_log r (OpDelete k)).
  - intros [t|s] [t'|s'] m Ht Ht'; [|done..]. by apply (tinv_root t t' m).
Defined.

End mpt.

(** A map with its sorted entries as root. *)
Definition map_root (m : gmap bytes bytes) : bytes :=
  concat ((λ e, e.1 ++ e.2) <$> btree_iter m).

Definition map_trie : TrieImpl (gmap bytes bytes) := {|
  trie_new := ∅;
  trie_get m k := m !! k;
  trie_put m k v := <[k := v]> m;
  trie_delete m k := base.delete k m;
  trie_root := map_root;
|}.

Lemma map_trie_laws : @TrieLaws (gmap bytes bytes) map_trie.
Proof.
  refine {| trie_holds := λ t m, t = m : Prop; trie_safe := λ _, True |}; cbn; naive_solver.
Defined.

(** ** [tries.rs], [root.rs] *)

Section tries.
Context {T : Type} `{!TrieImpl T}.

Definition account_key (addr : Address) : bytes := addr.

Definition acct_put (t : T) (addr : Address) (a : Account) : T :=
  trie_put t (account_key addr) (account_encode a).
Definition acct_get (t : T) (addr : Address) : option Account :=
  match trie_get t (account_key addr) with
  | Some b => ok_option (account_decode b)
  | None => None
  end.
Definition acct_delete (t : T) (addr : Address) : T := trie_delete t (account_key addr).

Definition commit_tries `{!Crypto} (accounts storage : T) : bytes :=
  commit_root (trie_root accounts) (trie_root storage).

Context `{!TrieLaws T}.

(** The accounts trie holds the accounts [am]. *)
Definition aholds (t : T) (am : gmap Address Account) : Prop :=
  trie_holds t (account_encode <$> am) ∧
  map_Forall (λ a acc, array 32 a ∧ account_wf acc) am.

Lemma address_key_ok a : array 32 a → key_ok (account_key a).
Proof. intros [Hl Hb]. split; [done|]. unfold account_key. rewrite Hl. uint. lia. Qed.

Lemma account_val_ok acc : account_wf acc → val_ok (account_encode acc).
Proof.
  intros (_ & _ & Hl & _). unfold val_ok, account_encode. rewrite length_encode.
  autorewrite with l1simpl. rewrite Hl. uint. lia.
Qed.

Lemma aholds_get t am a : aholds t am → array 32 a → acct_get t a = am !! a.
Proof.
  intros [Ht Hwf] Ha. unfold acct_get. rewrite (holds_get _ _ _ Ht) by apply Ha.
  unfold account_key. rewrite lookup_fmap. destruct (am !! a) as [acc|] eqn:E; [|done].
  change (ok_option (account_decode (account_encode acc)) = Some acc).
  destruct (Hwf a acc E) as [_ Hacc]. by rewrite account_decode_encode.
Qed.

Lemma aholds_put t am a acc :
  aholds t am → array 32 a → account_wf acc → trie_safe (acct_put t a acc) →
  aholds (acct_put t a acc) (<[a := acc]> am).
Proof.
  intros [Ht Hwf] Ha Hacc Hs. split.
  - rewrite fmap_insert. unfold acct_put in *. apply holds_put; [done|by apply address_key_ok|by apply account_val_ok|done].
  - by apply map_Forall_insert_2.
Qed.

Lemma aholds_delete t am a :
  aholds t am → array 32 a → trie_safe (acct_delete t a) →
  aholds (acct_delete t a) (base.delete a am).
Proof.
  intros [Ht Hwf] Ha Hs. split.
  - rewrite fmap_delete. unfold acct_delete in *. apply holds_delete; [done|by apply address_key_ok|done].
  - by apply map_Forall_delete.
Qed.

Lemma aholds_new : aholds trie_new ∅.
Proof. split; [rewrite fmap_empty; apply holds_new|apply map_Forall_empty]. Qed.

Lemma safe_acct_put t a acc : trie_safe (acct_put t a acc) → trie_safe t.
Proof. apply safe_put. Qed.

End tries.

#[export] Hint Resolve safe_acct_put : l1.
