(* ===== verification/ExecBase.v ===== *)
(** Building blocks of execution: [execution/src/checks.rs], [gas.rs],
    [fees.rs], [events.rs], [receipt.rs], the gas of [rent.rs] and
    [wasm/gas.rs].

    Admission checks, gas metering, fee priorities, receipts and their
    encoding.  Shown here: the base-fee update stays above its floor and moves
    by a bounded step in the right direction; receipts encode injectively. *)

From S2P Require Import Prelude Types Codec.

#[local] Open Scope Z_scope.
#[local] Open Scope l1_scope.

(** ** [checks.rs] *)

Inductive CheckError : Type := CWrongNonce | CInsufficientBalance.

Definition nonce_check (tx : Tx) (account : Account) : result unit CheckError :=
  if Nonce_matches (nonce account) (tx_nonce tx) then Ok tt else Err CWrongNonce.

Definition value_balance_check (tx : Tx) (amount : Amount) (account : Account) :
    result unit CheckError :=
  let? need := ok_or (Amount_checked_add amount (tx_max_fee tx)) CInsufficientBalance in
  match Amount_checked_sub (balance account) need with
  | Some _ => Ok tt
  | None => Err CInsufficientBalance
  end.

Definition balance_check (tx : Tx) (transfer : Transfer) (account : Account) :
    result unit CheckError :=
  value_balance_check tx (tr_amount transfer) account.

(** ** [gas.rs], [wasm/gas.rs] *)

Inductive GasError : Type := LimitExceedsBlock | LimitTooLow.

Definition gas_cost (p : TxPayload) : Z :=
  match p with
  | PTransfer _ | PStake _ => GAS_TRANSFER
  | PDeploy _ => GAS_DEPLOY
  | PCall _ => GAS_CALL
  end.

Definition gas_meter (tx : Tx) : result Z GasError :=
  if tx_gas_limit tx >? MAX_GAS then Err LimitExceedsBlock
  else
    let cost := gas_cost (tx_payload tx) in
    if tx_gas_limit tx <? cost then Err LimitTooLow else Ok cost.

Definition meter (tx : Tx) : result Z GasError := gas_meter tx.
Definition fuel_budget (tx : Tx) (intrinsic : Z) : Z := sat_sub (tx_gas_limit tx) intrinsic.

(** ** [fees.rs] *)

Definition fee_priority (tx : Tx) : result Z GasError :=
  let? gas := gas_meter tx in
  let g := Z.max gas 1 in
  Ok (sat_mul U128_MAX (tx_max_fee tx) (Z.shiftl 1 64) / g).

Definition next_base_fee (current_base gas_used max_gas : Z) (enabled : bool) (min_floor : Z) : Z :=
  if negb enabled then min_floor
  else
    let cap := Z.max max_gas 1 in
    let used := Z.min gas_used cap in
    let target := cap / 2 in
    let next := Z.max current_base min_floor in
    if used >? target then
      let delta := sat_mul U128_MAX next (used - target) / Z.max target 1 / 8 in
      sat_add U128_MAX next (Z.max delta 1)
    else if used <? target then
      let delta := sat_mul U128_MAX next (target - used) / Z.max target 1 / 8 in
      Z.max (sat_sub next delta) min_floor
    else next.

(** ** [events.rs], [receipt.rs] *)

Inductive Event : Type :=
| ETransfer (from to : Address) (amount : Amount)
| EStake (from : Address) (amount : Amount)
| EWasm (from contract : Address).

Inductive RejectReason : Type :=
| RSignature | RWrongNonce | RInsufficientBalance | RGas
| RStakeMinBond | RStakeTombstone | RStakeUnbonding | RStakeInsufficient
| RWasmInvalid | RWasmGas | RWasmReentrancy | RWasmNoCode.

#[export] Instance Event_eq_dec : EqDecision Event.
Proof. solve_decision. Defined.
#[export] Instance RejectReason_eq_dec : EqDecision RejectReason.
Proof. solve_decision. Defined.

Record Receipt := {
  success : bool;
  gas_used : Z;
  events : list Event;
  reason : option RejectReason;
}.

#[export] Instance Receipt_eq_dec : EqDecision Receipt.
Proof. solve_decision. Defined.

Definition reason_byte (r : option RejectReason) : Z :=
  match r with
  | None => 0
  | Some RWrongNonce => 1
  | Some RInsufficientBalance => 2
  | Some RGas => 3
  | Some RSignature => 4
  | Some RStakeMinBond => 5
  | Some RStakeTombstone => 6
  | Some RStakeUnbonding => 7
  | Some RStakeInsufficient => 8
  | Some RWasmInvalid => 9
  | Some RWasmGas => 10
  | Some RWasmReentrancy => 11
  | Some RWasmNoCode => 12
  end.

Definition event_bytes (e : Event) : bytes :=
  match e with
  | ETransfer from to amount => [0] ++ from ++ to ++ be_bytes 16 amount
  | EStake from amount => [1] ++ from ++ be_bytes 16 amount
  | EWasm from contract => [2] ++ from ++ contract
  end.

Definition receipt_encode (r : Receipt) : bytes :=
  encode ([if success r then 1 else 0] ++ be_bytes 8 (gas_used r) ++ [reason_byte (reason r)] ++
          be_bytes 4 (as_u32 (len (events r))) ++ concat (event_bytes <$> events r)).

(** [impl From<CheckError>], [impl From<GasError>]. *)
Definition reason_of_check (e : CheckError) : RejectReason :=
  match e with CWrongNonce => RWrongNonce | CInsufficientBalance => RInsufficientBalance end.
Definition reason_of_gas (e : GasError) : RejectReason := RGas.

(** ** [rent.rs] *)

(** The unchecked [u64] addition wraps in release builds. *)
Definition rent_gas (account : Account) (extra_storage_bytes epochs : Z) : result Z GasError :=
  let probe := tx_transfer 1 0 GAS_TRANSFER 0 Address_ZERO 0 in
  let? unit := gas_meter probe in
  let bytes := (len (account_encode account) + extra_storage_bytes) mod 2 ^ 64 in
  Ok (sat_mul U64_MAX (sat_mul U64_MAX bytes epochs) (unit / Z.max GAS_TRANSFER 1)).

(** ** Lemmas *)

Lemma value_balance_check_ok tx amount acc u :
  value_balance_check tx amount acc = Ok u →
  amount + tx_max_fee tx ≤ U128_MAX ∧ amount + tx_max_fee tx ≤ balance acc.
Proof.
  unfold value_balance_check, Amount_checked_add, Amount_checked_sub. intros E.
  destruct (checked_add _ _ _) as [need|] eqn:Ea; [|done]. cbn in E.
  destruct (checked_sub _ _) eqn:Es; [|done].
  apply checked_add_Some in Ea. apply checked_sub_Some in Es. lia.
Qed.

Lemma gas_meter_ok tx g :
  gas_meter tx = Ok g → g = gas_cost (tx_payload tx) ∧ g ≤ tx_gas_limit tx ≤ MAX_GAS.
Proof. unfold gas_meter. intros E. repeat (case_match; simplify_eq). bsimpl. lia. Qed.

Lemma div_step_bound (next k t : Z) :
  0 ≤ next → 0 ≤ k → 0 < t → 0 ≤ sat_mul U128_MAX next k / t / 8 ∧
  (k ≤ t → sat_mul U128_MAX next k / t / 8 ≤ next / 8) ∧
  (k ≤ 2 * t → sat_mul U128_MAX next k / t / 8 ≤ next / 4).
Proof.
  intros Hn Hk Ht. assert (0 ≤ next * k) as Hp by (apply Z.mul_nonneg_nonneg; lia).
  assert (0 ≤ sat_mul U128_MAX next k ≤ next * k) as Hm by (unfold sat_mul; uint; lia).
  split; [repeat apply Z.div_pos; lia|]. split; intros Hkt; rewrite Z.div_div by lia.
  - apply Z.div_le_lower_bound; [lia|].
    assert (sat_mul U128_MAX next k / (t * 8) * (t * 8) ≤ next * k) as H1.
    { pose proof (Z.mul_div_le (sat_mul U128_MAX next k) (t * 8)). lia. }
    assert (0 ≤ sat_mul U128_MAX next k / (t * 8)) by (apply Z.div_pos; lia).
    nia.
  - apply Z.div_le_lower_bound; [lia|].
    assert (sat_mul U128_MAX next k / (t * 8) * (t * 8) ≤ next * k) as H1.
    { pose proof (Z.mul_div_le (sat_mul U128_MAX next k) (t * 8)). lia. }
    assert (0 ≤ sat_mul U128_MAX next k / (t * 8)) by (apply Z.div_pos; lia).
    nia.
Qed.

(** The optional base fee: switched off it is the flat floor; switched on
    it never falls below the floor, rises by at least one and at most a
    quarter when a block uses more than half of its gas (short of the [u128]
    ceiling), falls by at most an eighth when it uses less, and otherwise
    stays. *)
Theorem next_base_fee_bounds base used cap on floor :
  u128 base → u128 floor → u64 used → u64 cap →
  let next := next_base_fee base used cap on floor in
  let base' := Z.max base floor in
  let target := Z.max cap 1 / 2 in
  (on = false → next = floor) ∧ floor ≤ next ≤ U128_MAX ∧
  (on = true → Z.min used (Z.max cap 1) > target →
     Z.min U128_MAX (base' + 1) ≤ next ≤ base' + Z.max 1 (base' / 4)) ∧
  (on = true → used < target → base' - base' / 8 ≤ next ≤ base') ∧
  (on = true → used = target → next = base').
Proof.
  intros Hb Hf Hu Hc next base' target. unfold next, next_base_fee.
  fold target base'.
  assert (0 ≤ base' ≤ U128_MAX) as Hb' by (unfold base'; uint; lia).
  assert (floor ≤ base') by (unfold base'; lia).
  set (c := Z.max cap 1) in *. assert (1 ≤ c) by (unfold c; lia).
  assert (2 * target ≤ c < 2 * target + 2) as Ht.
  { unfold target. pose proof (Z.div_mod c 2). pose proof (Z.mod_pos_bound c 2). lia. }
  destruct on; cbn [negb]; [|uint; repeat split; intros; (congruence || lia)].
  destruct (Z.gtb_spec (Z.min used c) target) as [Hgt|Hle].
  - destruct (div_step_bound base' (Z.min used c - target) (Z.max target 1)) as (H1 & _ & H2); [lia..|].
    specialize (H2 ltac:(lia)). uint. unfold sat_add. repeat split; intros; try discriminate; lia.
  - destruct (Z.ltb_spec (Z.min used c) target) as [Hlt|Hge].
    + destruct (div_step_bound base' (target - Z.min used c) (Z.max target 1)) as (H1 & H2 & _); [uint; lia..|].
      specialize (H2 ltac:(uint; lia)). unfold sat_sub.
      assert (base' / 8 ≤ base') by (apply Z.div_le_upper_bound; lia).
      repeat split; intros; try discriminate; uint; lia.
    + repeat split; intros; try discriminate; uint; lia.
Qed.

Lemma next_base_fee_bounds_witness :
  let next := next_base_fee 80 100 100 true 10 in
  next = 90 ∧ 10 ≤ next ≤ U128_MAX ∧ Z.min U128_MAX 81 ≤ next ≤ 100.
Proof.
  intros next.
  pose proof (next_base_fee_bounds 80 100 100 true 10 ltac:(by_eval) ltac:(by_eval)
    ltac:(by_eval) ltac:(by_eval)) as (_ & H1 & H2 & _ & _).
  split; [reflexivity|]. split; [exact H1|]. apply H2; [reflexivity|]. vm_compute. reflexivity.
Defined.

(** ** Receipts *)

Definition event_wf (e : Event) : Prop :=
  match e with
  | ETransfer from to amount => array 32 from ∧ array 32 to ∧ u128 amount
  | EStake from amount => array 32 from ∧ u128 amount
  | EWasm from contract => array 32 from ∧ array 32 contract
  end.

Definition receipt_wf (r : Receipt) : Prop :=
  u64 (gas_used r) ∧ Forall event_wf (events r) ∧ len (receipt_encode r) ≤ U32_MAX.

#[export] Instance event_wf_dec e : Decision (event_wf e).
Proof. destruct e; cbn; apply _. Defined.
#[export] Instance receipt_wf_dec r : Decision (receipt_wf r).
Proof. unfold receipt_wf. apply _. Defined.

Lemma event_bytes_cancel e e' l l' :
  event_wf e → event_wf e' → event_bytes e ++ l = event_bytes e' ++ l' → e = e' ∧ l = l'.
Proof.
  intros He He' E.
  destruct e as [f t a|f a|f c], e' as [f' t' a'|f' a'|f' c']; cbn [event_bytes app] in E;
    try discriminate E; injection E as E; rewrite <- ?app_assoc in E.
  - destruct He as ([Hf _] & [Ht _] & Ha), He' as ([Hf' _] & [Ht' _] & Ha').
    apply app_inj_1 in E as [-> E]; [|congruence]. apply app_inj_1 in E as [-> E]; [|congruence].
    apply app_inj_1 in E as [E ->]; [|by rewrite !length_be_bytes].
    apply be_bytes_inj in E as ->; [done|ulia..].
  - destruct He as ([Hf _] & Ha), He' as ([Hf' _] & Ha').
    apply app_inj_1 in E as [-> E]; [|congruence].
    apply app_inj_1 in E as [E ->]; [|by rewrite !length_be_bytes].
    apply be_bytes_inj in E as ->; [done|ulia..].
  - destruct He as ([Hf _] & [Ht _]), He' as ([Hf' _] & [Ht' _]).
    apply app_inj_1 in E as [-> E]; [|congruence]. by apply app_inj_1 in E as [-> ->]; [|congruence].
Qed.

Lemma events_bytes_inj es es' :
  Forall event_wf es → Forall event_wf es' →
  concat (event_bytes <$> es) = concat (event_bytes <$> es') → es = es'.
Proof.
  intros Hes. revert es'. induction Hes as [|e es He Hes IH]; intros es' Hes' E.
  - destruct Hes' as [|e' es' He' Hes']; [done|]. by destruct e'.
  - destruct Hes' as [|e' es' He' Hes']; [by destruct e|].
    cbn in E. apply event_bytes_cancel in E as [-> E]; [|done..]. f_equal. by apply IH.
Qed.

Lemma reason_byte_inj r r' : reason_byte r = reason_byte r' → r = r'.
Proof. by destruct r as [[]|], r' as [[]|]. Qed.

(** Receipts are committed without loss: two well-formed receipts with the
    same encoding (the leaf that [receipts_root] hashes) are equal, in status,
    gas, reject reason and events. *)
Theorem receipt_encode_inj r r' :
  receipt_wf r → receipt_wf r' → receipt_encode r = receipt_encode r' → r = r'.
Proof.
  intros (Hg & He & Hl) (Hg' & He' & Hl') E. unfold receipt_encode in E, Hl, Hl'.
  rewrite length_encode in Hl, Hl'.
  match type of E with encode ?p = encode ?q =>
    assert (p = q) as E' by (pose proof (decode_encode p ltac:(lia)) as D;
      rewrite E, decode_encode in D by lia; congruence) end.
  clear E. apply app_inj_1 in E' as [Es E]; [|done].
  apply app_inj_1 in E as [Eg E]; [|by rewrite !length_be_bytes].
  apply be_bytes_inj in Eg; [|ulia..].
  apply app_inj_1 in E as [Er E]; [|done]. injection Er as Er. apply reason_byte_inj in Er.
  apply app_inj_1 in E as [_ E]; [|by rewrite !length_be_bytes].
  apply events_bytes_inj in E; [|done..].
  destruct r as [s g ev rs], r' as [s' g' ev' rs']. cbn in *. subst.
  by destruct s, s'.
Qed.

Definition sample_receipt : Receipt :=
  {| success := true; gas_used := 21000;
     events := [ETransfer (replicate 32 1) (replicate 32 2) 5; EStake (replicate 32 1) 7];
     reason := None |}.

Lemma receipt_encode_inj_witness :
  receipt_wf sample_receipt ∧ sample_receipt = sample_receipt.
Proof.
  assert (receipt_wf sample_receipt) as Hw by by_eval.
  split; [exact Hw|]. exact (receipt_encode_inj sample_receipt sample_receipt Hw Hw eq_refl).
Defined.
