(* ===== verification/Expiry.v ===== *)
(** State rent and expiry: [state/src/expiry.rs] and
    [execution/src/rent.rs].

    An account whose rent is unpaid leaves the accounts trie and its last
    value is kept with an inclusion proof; reactivation puts it back.  Shown:
    on every trie that holds a map of accounts, expiry decides exactly by the
    rent and the presence of the account, and an expired account can be
    reactivated in every later state in which its address is free, with the
    value it had ([expire_reactivate]); and a record is checked only against
    the root it carries itself, so that any account at all can be
    "reactivated" at a free address ([reactivate_unanchored]). *)

From S2P Require Import Prelude Types Codec Crypto Merkle MptNode Mpt MptRep MptRefine MptSpec MptProof Tries ExecBase.

#[local] Open Scope Z_scope.
#[local] Open Scope l1_scope.

Record ExpiryRecord := {
  er_address : Address;
  er_encoded : bytes;
  er_inclusion : MptProof;
  er_root : bytes;
}.

Inductive ExpiryError : Type := StillPaid | EProof | StillPresent.

#[export] Instance MerkleProof_eq_dec : EqDecision MerkleProof.
Proof. solve_decision. Defined.
#[export] Instance MptProof_eq_dec : EqDecision MptProof.
Proof. solve_decision. Defined.

Section expiry.
Context `{!Crypto}.

(** [AccountTrie::get]; the outer [None] is a panic. *)
Definition account_get (t : Trie) (addr : Address) : option (option Account) :=
  match get t (account_key addr) with
  | None => None
  | Some None => Some None
  | Some (Some b) => Some (ok_option (account_decode b))
  end.

Definition expire (t : Trie) (address : Address) (rent_due prepaid : Z) :
    option (Trie * result ExpiryRecord ExpiryError) :=
  if rent_due <=? prepaid then Some (t, Err StillPaid)
  else match account_get t address with
  | None => None
  | Some None => Some (t, Err EProof)
  | Some (Some account) =>
      let encoded := account_encode account in
      let key := account_key address in
      match mpt_prove t key with
      | None => None
      | Some None => Some (t, Err EProof)
      | Some (Some inclusion) =>
          let root := t_root t in
          match mpt_verify key inclusion root with
          | None => None
          | Some false => Some (t, Err EProof)
          | Some true =>
              match delete_key t key with
              | TPanic _ => None
              | TOk t' => Some (t', Ok {| er_address := address; er_encoded := encoded;
                                          er_inclusion := inclusion; er_root := root |})
              end
          end
      end
  end.

Definition reactivate (t : Trie) (record : ExpiryRecord) (exclusion : MptProof) :
    option (Trie * result Account ExpiryError) :=
  let key := account_key (er_address record) in
  match account_get t (er_address record) with
  | None => None
  | Some (Some _) => Some (t, Err StillPresent)
  | Some None =>
      if bool_decide (mp_value (er_inclusion record) ≠ Some (er_encoded record))
      then Some (t, Err EProof)
      else match mpt_verify key (er_inclusion record) (er_root record) with
      | None => None
      | Some false => Some (t, Err EProof)
      | Some true =>
          let live_root := t_root t in
          match prove_exclusion t key with
          | None => None
          | Some None => Some (t, Err EProof)
          | Some (Some ex) =>
              match mpt_verify key exclusion live_root with
              | None => None
              | Some v =>
                  if negb v || bool_decide (exclusion ≠ ex) then Some (t, Err EProof)
                  else match account_decode (er_encoded record) with
                  | Err _ => Some (t, Err EProof)
                  | Ok account =>
                      match put t (account_key (er_address record)) (account_encode account) with
                      | TPanic _ => None
                      | TOk t' => Some (t', Ok account)
                      end
                  end
              end
          end
      end
  end.

(** [rent.rs]. *)
Definition expire_if_unpaid (t : Trie) (address : Address) (account : Account)
    (extra_storage_bytes epochs prepaid : Z) : option (Trie * result ExpiryRecord ExpiryError) :=
  match rent_gas account extra_storage_bytes epochs with
  | Err _ => Some (t, Err EProof)
  | Ok due => expire t address due prepaid
  end.

Context `{!CryptoLaws}.

Lemma account_get_spec t am a :
  aholds (TOk t) am → array 32 a → account_get t a = Some (am !! a).
Proof.
  intros Ht Ha. pose proof (aholds_get _ _ _ Ht Ha) as Eg. destruct Ht as [Ht _].
  unfold account_get. unfold acct_get in Eg. cbn in Eg, Ht.
  rewrite (get_spec _ _ _ Ht) in * by apply Ha.
  destruct ((account_encode <$> am) !! account_key a); cbn in *; by rewrite Eg.
Qed.

(** A record made of a proof for the account verifies and is put back. *)
Lemma reactivate_ok t am a acc p root :
  aholds (TOk t) am → array 32 a → account_wf acc → am !! a = None →
  mp_value p = Some (account_encode acc) → mpt_verify (account_key a) p root = Some true →
  collision_free (result_log (put t (account_key a) (account_encode acc))) →
  ∃ ex t', prove_exclusion t (account_key a) = Some (Some ex) ∧
    reactivate t {| er_address := a; er_encoded := account_encode acc; er_inclusion := p; er_root := root |} ex =
      Some (t', Ok acc) ∧ aholds (TOk t') (<[a := acc]> am).
Proof.
  intros Ht Ha Hacc Hno Hv Hver Hcf. pose proof (account_get_spec t am a Ht Ha) as Eg.
  pose proof (aholds_put _ _ a acc Ht Ha Hacc Hcf) as Hput.
  destruct Ht as [Ht _]. cbn in Ht.
  destruct (mpt_prove_complete t _ (account_key a) Ht (proj2 Ha)) as (ex & _ & _ & Hex & Epe).
  unfold account_key at 2 in Epe. rewrite lookup_fmap, Hno in Epe. cbn in Epe.
  destruct (put_spec t _ (account_key a) (account_encode acc) Ht) as (t' & Ep & _);
    [by apply address_key_ok|by apply account_val_ok|done|].
  exists ex, t'. split; [exact Epe|]. split.
  - unfold reactivate. cbn [er_address er_encoded er_inclusion er_root].
    rewrite Eg, Hno, Hv, bool_decide_false, Hver, Epe, Hex by (by intros []).
    rewrite (bool_decide_false (ex ≠ ex)) by (by intros []). cbn [negb orb].
    by rewrite (account_decode_encode acc Hacc), Ep.
  - change (acct_put (TOk t) a acc) with (put t (account_key a) (account_encode acc)) in Hput.
    by rewrite Ep in Hput.
Qed.

(** Expiry and reactivation.  On a trie that holds the accounts [am],
    [expire] never panics: it fails with [StillPaid] exactly when the rent is
    covered, with [Proof] exactly when the account is missing, leaving the
    trie alone, and otherwise removes exactly this account.  The record it
    returns reactivates the account, with exactly its old value, in every
    later state where the address is free; back in the state just after the
    expiry this restores the root from before. *)
Theorem expire_reactivate t am a due prepaid :
  aholds (TOk t) am → array 32 a →
  collision_free (result_log (delete_key t (account_key a))) →
  match expire t a due prepaid with
  | None => False
  | Some (t', Err e) =>
      t' = t ∧ ((due ≤ prepaid ∧ e = StillPaid) ∨ (prepaid < due ∧ am !! a = None ∧ e = EProof))
  | Some (t', Ok record) =>
      prepaid < due ∧ ∃ acc, am !! a = Some acc ∧ aholds (TOk t') (base.delete a am) ∧
      ∀ t2 am2, aholds (TOk t2) am2 → am2 !! a = None →
        collision_free (result_log (put t2 (account_key a) (account_encode acc))) →
        ∃ ex t3, prove_exclusion t2 (account_key a) = Some (Some ex) ∧
          reactivate t2 record ex = Some (t3, Ok acc) ∧ aholds (TOk t3) (<[a := acc]> am2) ∧
          (am2 = base.delete a am → t_root t3 = t_root t)
  end.
Proof.
  intros Ht Ha Hcf. unfold expire. destruct (Z.leb_spec due prepaid) as [Hd|Hd]; [by auto|].
  rewrite (account_get_spec t am a Ht Ha). destruct (am !! a) as [acc|] eqn:Ea; [|by auto].
  pose proof (aholds_delete _ _ a Ht Ha Hcf) as Hdel. destruct Ht as [Ht Hwf]. cbn in Ht.
  destruct (Hwf a acc Ea) as [_ Hacc].
  destruct (mpt_prove_complete t _ (account_key a) Ht (proj2 Ha)) as (p & Ep & Hv & Hver & _).
  rewrite Ep, Hver. unfold account_key in Hv. rewrite lookup_fmap, Ea in Hv.
  destruct (delete_spec t _ (account_key a) Ht) as (t' & Ed & _); [by apply address_key_ok|done|].
  change (acct_delete (TOk t) a) with (delete_key t (account_key a)) in Hdel. rewrite Ed in *.
  split; [done|]. exists acc. split; [done|]. split; [exact Hdel|]. intros t2 am2 Ht2 Hno Hcf2.
  destruct (reactivate_ok t2 am2 a acc p (t_root t) Ht2 Ha Hacc Hno Hv Hver Hcf2) as (ex & t3 & E1 & E2 & H3).
  exists ex, t3. split; [exact E1|]. split; [exact E2|]. split; [exact H3|]. intros ->.
  rewrite insert_delete_eq, insert_id in H3 by done. by apply (tinv_root t3 t _ (proj1 H3)).
Qed.

(** A record is not anchored in any past state of the chain.  At every
    address that is free, for every account value whatsoever, there is a
    record that reactivation accepts: the root it is checked against is the
    record's own, and that of a trie built for the purpose will do. *)
Theorem reactivate_unanchored t am a acc :
  aholds (TOk t) am → array 32 a → account_wf acc → am !! a = None →
  collision_free (result_log (put Trie_new (account_key a) (account_encode acc))) →
  collision_free (result_log (put t (account_key a) (account_encode acc))) →
  ∃ record ex t', reactivate t record ex = Some (t', Ok acc) ∧ aholds (TOk t') (<[a := acc]> am).
Proof.
  intros Ht Ha Hacc Hno Hcf0 Hcf.
  destruct (put_spec Trie_new ∅ (account_key a) (account_encode acc) tinv_new) as (t0 & _ & Ht0);
    [by apply address_key_ok|by apply account_val_ok|done|].
  destruct (mpt_prove_complete t0 _ (account_key a) Ht0 (proj2 Ha)) as (p & _ & Hv & Hver & _).
  rewrite lookup_insert_eq in Hv.
  destruct (reactivate_ok t am a acc p (t_root t0) Ht Ha Hacc Hno Hv Hver Hcf) as (ex & t' & _ & E & H').
  eauto.
Qed.

End expiry.

(** ** Witnesses *)

#[local] Existing Instance toy_crypto.
#[local] Existing Instance toy_crypto_laws.

Definition addr_a : Address := replicate 32 1.
Definition addr_b : Address := replicate 32 2.
Definition sample_account (b : Z) : Account := {| balance := b; nonce := 1; code_hash := replicate 32 0 |}.

Definition live_trie : Trie := trie_of (put Trie_new (account_key addr_a) (account_encode (sample_account 7))).

Lemma live_trie_holds : aholds (TOk live_trie) (<[addr_a := sample_account 7]> ∅).
Proof.
  pose proof (aholds_put (TOk Trie_new) ∅ addr_a (sample_account 7)) as T.
  assert (acct_put (TOk Trie_new) addr_a (sample_account 7) = TOk live_trie) as E.
  { unfold live_trie. change (acct_put (TOk Trie_new) addr_a (sample_account 7))
      with (put Trie_new (account_key addr_a) (account_encode (sample_account 7))).
    assert (is_tok (put Trie_new (account_key addr_a) (account_encode (sample_account 7))) = true) as Hok
      by (vm_compute; reflexivity).
    by destruct (put _ _ _). }
  rewrite E in T. apply T; [exact (aholds_new (T := trie_result))|by_eval|by_eval|].
  apply collision_free_b_spec. vm_compute. reflexivity.
Qed.

Lemma expire_reactivate_witness :
  match expire live_trie addr_a 10 0 with
  | Some (t', Ok record) => aholds (TOk t') (base.delete addr_a (<[addr_a := sample_account 7]> ∅))
  | _ => False
  end.
Proof.
  assert (match expire live_trie addr_a 10 0 with Some (_, Ok _) => true | _ => false end = true) as Hok
    by (vm_compute; reflexivity).
  pose proof (expire_reactivate live_trie _ addr_a 10 0 live_trie_holds) as T.
  destruct (expire live_trie addr_a 10 0) as [[t' [record|e]]|]; [|discriminate..].
  destruct T as (_ & acc & _ & T & _); [by_eval| |exact T].
  apply collision_free_b_spec. vm_compute. reflexivity.
Defined.

(** An account with the largest balance, at an address that never existed. *)
Lemma reactivate_unanchored_witness :
  ∃ record ex t', reactivate live_trie record ex = Some (t', Ok (sample_account U128_MAX)) ∧
    aholds (TOk t') (<[addr_b := sample_account U128_MAX]> (<[addr_a := sample_account 7]> ∅)).
Proof.
  apply (reactivate_unanchored live_trie _ addr_b (sample_account U128_MAX) live_trie_holds).
  - by_eval.
  - by_eval.
  - by_eval.
  - apply collision_free_b_spec. vm_compute. reflexivity.
  - apply collision_free_b_spec. vm_compute. reflexivity.
Defined.
