(* ===== verification/Vote.v ===== *)
(** Votes: [consensus/src/vote.rs], [replay.rs] and [evidence.rs].

    A vote is for a slot (signer, height, round, kind) and a block or nil.
    Shown: the replay log accepts at most one block per slot
    ([replay_log_no_equivocation]); evidence that is accepted proves a
    double-sign and every double-sign yields evidence
    ([evidence_sound_complete]).  Where a statement needs the hash to separate
    two inputs, it says which two. *)

From S2P Require Import Prelude Types Codec Crypto Store.
From Stdlib Require Import String.
From stdpp Require Import list.

#[local] Open Scope Z_scope.
#[local] Open Scope l1_scope.

(** ** Data *)

Inductive VoteKind : Type := Prevote | Precommit.
Inductive VoteBlock : Type := Nil | VBlock (h : Hash).

#[export] Instance VoteKind_eq_dec : EqDecision VoteKind.
Proof. solve_decision. Defined.
#[export] Instance VoteBlock_eq_dec : EqDecision VoteBlock.
Proof. solve_decision. Defined.

Definition vote_kind_byte (k : VoteKind) : Z := match k with Prevote => 0 | Precommit => 1 end.

(** [VoteBlock::encode]; also [block_bytes] of [evidence.rs]. *)
Definition block_encode (b : VoteBlock) : bytes :=
  match b with Nil => [0] | VBlock h => [1] ++ h end.

Record Vote := {
  v_height : Height;
  v_round : Round;
  v_kind : VoteKind;
  v_block : VoteBlock;
  v_signer : ValidatorId;
  v_signature : bytes;
}.

#[export] Instance Vote_eq_dec : EqDecision Vote.
Proof. solve_decision. Defined.

(** [Finalized] of [steps.rs]. *)
Record Finalized := {
  fin_height : Height;
  fin_round : Round;
  fin_block_hash : Hash;
  fin_app_hash : Hash;
}.

Inductive VerifyError : Type := VSignature | VReplaySlot | VEquivocation.

(** ** [vote.rs], [replay.rs] *)

Definition slot_bytes (signer : ValidatorId) (height : Height) (round : Round) (kind : VoteKind) :
    bytes :=
  signer ++ be_bytes 8 height ++ be_bytes 4 round ++ [vote_kind_byte kind].

Definition signed_message (height : Height) (round : Round) (kind : VoteKind) (block : VoteBlock) :
    bytes :=
  apply_domain DVote
    (be_bytes 8 height ++ be_bytes 4 round ++ [vote_kind_byte kind] ++ block_encode block).

Section vote.
Context `{!Crypto}.

Definition replay_key (signer : ValidatorId) (height : Height) (round : Round) (kind : VoteKind) :
    bytes :=
  hash_to_array (apply_domain DVote (slot_bytes signer height round kind)).

Definition vote_hash (signer : ValidatorId) (height : Height) (round : Round) (kind : VoteKind)
    (block_id : bytes) : bytes :=
  hash_to_array (apply_domain DVote (slot_bytes signer height round kind ++ block_id)).

Definition vote_slot_key (v : Vote) : bytes :=
  replay_key (v_signer v) (v_height v) (v_round v) (v_kind v).
Definition vote_body_hash (v : Vote) : bytes :=
  vote_hash (v_signer v) (v_height v) (v_round v) (v_kind v) (block_encode (v_block v)).

(** [sign_vote], for a signature function of the secret key. *)
Definition sign_vote (bls_sign : bytes → bytes) (signer : ValidatorId) (height : Height)
    (round : Round) (kind : VoteKind) (block : VoteBlock) : Vote :=
  {| v_height := height; v_round := round; v_kind := kind; v_block := block;
     v_signer := signer; v_signature := bls_sign (signed_message height round kind block) |}.

Definition prevote bls_sign signer height round (header : Header) : Vote :=
  sign_vote bls_sign signer height round Prevote (VBlock (header_hash header)).
Definition precommit bls_sign signer height round (header : Header) : Vote :=
  sign_vote bls_sign signer height round Precommit (VBlock (header_hash header)).
Definition nil_vote bls_sign signer height round (kind : VoteKind) : Vote :=
  sign_vote bls_sign signer height round kind Nil.

(** [VoteReplayLog]. *)
Abbreviation VoteReplayLog := (gmap bytes bytes).

Definition observe (log : VoteReplayLog) (vote : Vote) : VoteReplayLog * result unit VerifyError :=
  let key := vote_slot_key vote in
  let body := vote_body_hash vote in
  match log !! key with
  | Some prev => if bool_decide (prev ≠ body) then (log, Err VEquivocation) else (log, Ok tt)
  | None => (<[key := body]> log, Ok tt)
  end.

Definition verify_signature (vote : Vote) : result unit VerifyError :=
  if negb (bls_pk_valid (v_signer vote)) then Err VSignature
  else if negb (bls_sig_valid (v_signature vote)) then Err VSignature
  else
    let msg := signed_message (v_height vote) (v_round vote) (v_kind vote) (v_block vote) in
    if bls_verify (v_signer vote) msg (v_signature vote) then Ok tt else Err VSignature.

Definition verify_vote (vote : Vote) (expected_height : Height) (expected_round : Round)
    (log : VoteReplayLog) : VoteReplayLog * result unit VerifyError :=
  match verify_signature vote with
  | Err e => (log, Err e)
  | Ok _ =>
      if negb (v_height vote =? expected_height) || negb (v_round vote =? expected_round)
      then (log, Err VReplaySlot)
      else observe log vote
  end.

(** ** [evidence.rs] *)

Record Evidence := { ev_a : Vote; ev_b : Vote }.

Definition vote_payload (v : Vote) : bytes :=
  v_signer v ++ be_bytes 8 (v_height v) ++ be_bytes 4 (v_round v) ++ [vote_kind_byte (v_kind v)] ++
  block_encode (v_block v) ++ v_signature v.

Definition evidence_encode (e : Evidence) : bytes :=
  let a := vote_payload (ev_a e) in
  let b := vote_payload (ev_b e) in
  encode (be_bytes 4 (as_u32 (len a)) ++ a ++ be_bytes 4 (as_u32 (len b)) ++ b).

Definition equivocation (a b : Vote) : result Evidence VerifyError :=
  let? _ := verify_signature a in
  let? _ := verify_signature b in
  if bool_decide (v_signer a ≠ v_signer b) || negb (v_height a =? v_height b) ||
     negb (v_round a =? v_round b) || bool_decide (v_kind a ≠ v_kind b)
  then Err VReplaySlot
  else if bool_decide (vote_slot_key a ≠ vote_slot_key b) then Err VReplaySlot
  else if bool_decide (vote_body_hash a = vote_body_hash b) then Err VReplaySlot
  else Ok {| ev_a := a; ev_b := b |}.

(** The second copy of the signature check. *)
Definition independent_bls_verify (vote : Vote) : result unit VerifyError :=
  if negb (bls_pk_valid (v_signer vote)) then Err VSignature
  else if negb (bls_sig_valid (v_signature vote)) then Err VSignature
  else
    let msg := signed_message (v_height vote) (v_round vote) (v_kind vote) (v_block vote) in
    if bls_verify (v_signer vote) msg (v_signature vote) then Ok tt else Err VSignature.

Definition submit_evidence (ev : Evidence) : result Evidence VerifyError :=
  let? _ := independent_bls_verify (ev_a ev) in
  let? _ := independent_bls_verify (ev_b ev) in
  let? _ := equivocation (ev_a ev) (ev_b ev) in
  Ok ev.

(** ** Slots *)

Definition same_slot (a b : Vote) : Prop :=
  v_signer a = v_signer b ∧ v_height a = v_height b ∧ v_round a = v_round b ∧ v_kind a = v_kind b.

#[export] Instance same_slot_dec a b : Decision (same_slot a b).
Proof. unfold same_slot. apply _. Defined.

(** Sizes of the Rust types. *)
Definition vote_wf (v : Vote) : Prop :=
  array 48 (v_signer v) ∧ u64 (v_height v) ∧ u32 (v_round v) ∧ length (v_signature v) = 96%nat ∧
  match v_block v with Nil => True | VBlock h => array 32 h end.

Lemma block_encode_inj b b' : block_encode b = block_encode b' → b = b'.
Proof. destruct b, b'; cbn; intros E; simplify_eq; done. Qed.

Lemma kind_byte_inj k k' : vote_kind_byte k = vote_kind_byte k' → k = k'.
Proof. by destruct k, k'. Qed.

Lemma slot_bytes_inj a b :
  vote_wf a → vote_wf b →
  slot_bytes (v_signer a) (v_height a) (v_round a) (v_kind a) =
  slot_bytes (v_signer b) (v_height b) (v_round b) (v_kind b) → same_slot a b.
Proof.
  intros ([Ha _] & Hh & Hr & _) ([Hb _] & Hh' & Hr' & _) E. unfold slot_bytes in E.
  apply app_inj_1 in E as [Es E]; [|congruence].
  apply app_inj_1 in E as [Eh E]; [|by rewrite !length_be_bytes].
  apply app_inj_1 in E as [Er E]; [|by rewrite !length_be_bytes].
  injection E as E. apply kind_byte_inj in E.
  apply be_bytes_inj in Eh; [|ulia..]. apply be_bytes_inj in Er; [|ulia..]. done.
Qed.

Lemma signed_message_inj h r k b h' r' k' b' :
  u64 h → u64 h' → u32 r → u32 r' →
  signed_message h r k b = signed_message h' r' k' b' → h = h' ∧ r = r' ∧ k = k' ∧ b = b'.
Proof.
  intros Hh Hh' Hr Hr' E%apply_domain_same.
  apply app_inj_1 in E as [Eh E]; [|by rewrite !length_be_bytes].
  apply app_inj_1 in E as [Er E]; [|by rewrite !length_be_bytes].
  apply app_inj_1 in E as [Ek E]; [|done]. injection Ek as Ek.
  apply be_bytes_inj in Eh; [|ulia..]. apply be_bytes_inj in Er; [|ulia..].
  apply kind_byte_inj in Ek. by apply block_encode_inj in E.
Qed.

Lemma same_slot_key a b : same_slot a b → vote_slot_key a = vote_slot_key b.
Proof. intros (E1 & E2 & E3 & E4). unfold vote_slot_key. by rewrite E1, E2, E3, E4. Qed.

(** The body hash of two votes of a slot separates their blocks. *)
Definition body_input (v : Vote) : bytes :=
  apply_domain DVote (slot_bytes (v_signer v) (v_height v) (v_round v) (v_kind v) ++
                      block_encode (v_block v)).
Definition slot_input (v : Vote) : bytes :=
  apply_domain DVote (slot_bytes (v_signer v) (v_height v) (v_round v) (v_kind v)).

(** Two votes whose slots, or whose bodies, the hash confuses. *)
Definition vote_collision (a b : Vote) : Prop :=
  (slot_input a ≠ slot_input b ∧ blake3 (slot_input a) = blake3 (slot_input b)) ∨
  (body_input a ≠ body_input b ∧ blake3 (body_input a) = blake3 (body_input b)).

Lemma body_hash_block a b :
  same_slot a b → vote_body_hash a = vote_body_hash b → v_block a = v_block b ∨ vote_collision a b.
Proof.
  intros (E1 & E2 & E3 & E4) E. destruct (decide (body_input a = body_input b)) as [Ei|Hne].
  - left. apply apply_domain_same in Ei. rewrite E1, E2, E3, E4 in Ei.
    apply app_inv_head in Ei. by apply block_encode_inj.
  - right. right. done.
Qed.

(** ** The replay log *)

(** Votes offered to the log in turn; those it accepted. *)
Fixpoint observe_all (log : VoteReplayLog) (vs : list Vote) : VoteReplayLog * list Vote :=
  match vs with
  | [] => (log, [])
  | v :: vs =>
      match observe log v with
      | (log', Ok _) => let r := observe_all log' vs in (r.1, v :: r.2)
      | (log', Err _) => observe_all log' vs
      end
  end.

Lemma observe_keeps log v k body :
  log !! k = Some body → (observe log v).1 !! k = Some body.
Proof.
  intros Hk. unfold observe. destruct (log !! vote_slot_key v) eqn:E.
  - by case_bool_decide.
  - cbn. rewrite lookup_insert_ne; [done|]. congruence.
Qed.

Lemma observe_accepts log v :
  (observe log v).2 = Ok tt → (observe log v).1 !! vote_slot_key v = Some (vote_body_hash v).
Proof.
  unfold observe. intros E. destruct (log !! vote_slot_key v) as [prev|] eqn:El.
  - case_bool_decide; [done|]. cbn. congruence.
  - cbn. by rewrite lookup_insert_eq.
Qed.

Lemma observe_all_recorded log vs k body :
  log !! k = Some body → ∀ v, v ∈ (observe_all log vs).2 → vote_slot_key v = k →
  vote_body_hash v = body.
Proof.
  revert log. induction vs as [|w vs IH]; intros log Hk v Hv Es; cbn in Hv;
    [by apply not_elem_of_nil in Hv|].
  pose proof (observe_keeps log w k body Hk) as Hk'.
  pose proof (observe_accepts log w) as Ha.
  destruct (observe log w) as [log' [u|e]]; cbn in *; [|by eapply IH].
  apply elem_of_cons in Hv as [->|Hv]; [|by eapply IH]. destruct u.
  specialize (Ha eq_refl). rewrite Es in Ha. congruence.
Qed.

Lemma observe_all_unique log vs a b :
  a ∈ (observe_all log vs).2 → b ∈ (observe_all log vs).2 → vote_slot_key a = vote_slot_key b →
  vote_body_hash a = vote_body_hash b.
Proof.
  revert log. induction vs as [|w vs IH]; intros log Ha Hb E; cbn in Ha, Hb;
    [by apply not_elem_of_nil in Ha|].
  pose proof (observe_accepts log w) as Hw.
  destruct (observe log w) as [log' [[]|e]] eqn:Eo; cbn in *; [|by eapply IH].
  specialize (Hw eq_refl).
  apply elem_of_cons in Ha as [->|Ha], Hb as [->|Hb]; [done|..].
  - symmetry. by eapply (observe_all_recorded log').
  - by eapply (observe_all_recorded log').
  - by eapply IH.
Qed.

(** The replay log admits no equivocation: of all the votes it ever
    accepted, whatever was offered in between, two for the same signer,
    height, round and kind are for the same block (or both nil), unless the
    hash collides on exactly these two votes. *)
Theorem replay_log_no_equivocation vs a b :
  a ∈ (observe_all ∅ vs).2 → b ∈ (observe_all ∅ vs).2 → same_slot a b →
  v_block a = v_block b ∨ vote_collision a b.
Proof.
  intros Ha Hb Hs. apply body_hash_block; [done|].
  eapply observe_all_unique; eauto using same_slot_key.
Qed.

(** ** Evidence *)

Lemma equivocation_ok a b e :
  equivocation a b = Ok e →
  e = {| ev_a := a; ev_b := b |} ∧ verify_signature a = Ok tt ∧ verify_signature b = Ok tt ∧
  same_slot a b ∧ v_block a ≠ v_block b.
Proof.
  unfold equivocation. intros E.
  destruct (verify_signature a) as [[]|]; [|done]. destruct (verify_signature b) as [[]|]; [|done].
  cbn in E. case_hyp E; [done|]. case_hyp E; [done|]. case_hyp E; [done|].
  injection E as <-. bsimpl.
  assert (same_slot a b) as Hs.
  { repeat split; auto; apply dec_stable; done. }
  repeat split; try apply Hs. intros Eb. destruct Hs as (E1 & E2 & E3 & E4).
  unfold vote_body_hash in *. congruence.
Qed.

(** Evidence is self-certifying and complete.  Accepted evidence holds two
    validly signed votes of one validator for the same height, round and kind
    and different blocks; conversely any two such votes are accepted as
    evidence, unless the hash collides on them. *)
Theorem evidence_sound_complete a b :
  (submit_evidence {| ev_a := a; ev_b := b |} = Ok {| ev_a := a; ev_b := b |} →
     verify_signature a = Ok tt ∧ verify_signature b = Ok tt ∧ same_slot a b ∧
     v_block a ≠ v_block b) ∧
  (verify_signature a = Ok tt → verify_signature b = Ok tt → same_slot a b →
   v_block a ≠ v_block b →
     submit_evidence {| ev_a := a; ev_b := b |} = Ok {| ev_a := a; ev_b := b |} ∨
     vote_collision a b).
Proof.
  change independent_bls_verify with verify_signature in *.
  unfold submit_evidence. cbn [ev_a ev_b]. split.
  - change independent_bls_verify with verify_signature. intros E.
    destruct (verify_signature a) as [[]|]; [|done].
    destruct (verify_signature b) as [[]|]; [|done]. cbn in E.
    destruct (equivocation a b) as [e|] eqn:Ee; [|done].
    apply equivocation_ok in Ee as (_ & Ha & Hb & Hs & Hne). done.
  - intros Ha Hb Hs Hne.
    destruct (decide (vote_body_hash a = vote_body_hash b)) as [E|E].
    { destruct (body_hash_block a b Hs E) as [?|Hc]; [done|by right]. }
    left. change independent_bls_verify with verify_signature.
    rewrite Ha, Hb. unfold equivocation. rewrite Ha, Hb. cbn.
    rewrite (bool_decide_false (vote_slot_key a ≠ vote_slot_key b))
      by (rewrite (same_slot_key a b Hs); by intros []).
    rewrite (bool_decide_false _ E). destruct Hs as (-> & -> & -> & ->).
    by rewrite !bool_decide_false, !Z.eqb_refl by (by intros []).
Qed.

End vote.

(** ** Witnesses *)

#[local] Existing Instance toy_crypto.

Definition toy_vote (b : VoteBlock) : Vote :=
  {| v_height := 5; v_round := 0; v_kind := Precommit; v_block := b;
     v_signer := replicate 48 3; v_signature := [1] |}.
Definition vote_x : Vote := toy_vote (VBlock (replicate 32 9)).
Definition vote_y : Vote := toy_vote Nil.

Lemma replay_log_no_equivocation_witness :
  (observe_all ∅ [vote_x; vote_y; vote_x]).2 = [vote_x; vote_x] ∧
  (v_block vote_x = v_block vote_x ∨ vote_collision vote_x vote_x).
Proof.
  assert ((observe_all ∅ [vote_x; vote_y; vote_x]).2 = [vote_x; vote_x]) as E by by_eval.
  split; [exact E|].
  apply (replay_log_no_equivocation [vote_x; vote_y; vote_x] vote_x vote_x).
  - rewrite E. constructor.
  - rewrite E. constructor.
  - by_eval.
Defined.

Lemma evidence_sound_complete_witness :
  verify_signature vote_x = Ok tt ∧ same_slot vote_x vote_y ∧
  (submit_evidence {| ev_a := vote_x; ev_b := vote_y |} = Ok {| ev_a := vote_x; ev_b := vote_y |} ∨
   vote_collision vote_x vote_y).
Proof.
  assert (same_slot vote_x vote_y) as Hs by by_eval.
  split; [reflexivity|]. split; [exact Hs|].
  refine (proj2 (evidence_sound_complete vote_x vote_y) _ _ Hs _); [reflexivity|reflexivity|].
  discriminate.
Defined.
