(* ===== verification/Leader.v ===== *)
(** Leader election and rounds: [consensus/src/vrf.rs], [propose.rs],
    [timeout.rs], [state.rs], [checkpoint.rs], [leader.rs].

    Shown: the stake-weighted lottery always elects a validator and each one
    is elected by exactly as many tickets as it has voting power
    ([weighted_leader_fair]).  The locking rule [prevote_allowed] is what the
    agreement theorem of [Tendermint] rests on. *)

From S2P Require Import Prelude Types Codec Crypto Vrf Vote.
From stdpp Require Import list.

#[local] Open Scope Z_scope.
#[local] Open Scope l1_scope.

(** ** [vrf.rs] *)

Inductive WeightedError : Type := WVrf (e : VrfError) | WEmptySet.

Section lottery.
Context `{!Crypto} `{!Curve}.

Definition derive_seed (last_finalized_block_hash : bytes) (epoch : Z) : bytes :=
  hash_to_array (apply_domain DVrf (last_finalized_block_hash ++ be_bytes 8 epoch)).

Definition leader_alpha (seed : bytes) (validator_id : ValidatorId) : bytes := seed ++ validator_id.

Definition leader_prove (vrf_sk seed : bytes) (validator_id : ValidatorId) :
    result (bytes * bytes) VrfError :=
  vrf_prove vrf_sk (leader_alpha seed validator_id).

Definition leader_verify (vrf_pk seed : bytes) (validator_id : ValidatorId) (proof : bytes) :
    result bytes VrfError :=
  vrf_verify vrf_pk (leader_alpha seed validator_id) proof.

(** The walk over the validators in id order. *)
Fixpoint lottery_walk (ticket acc : Z) (l : list (ValidatorId * VotingPower)) :
    option ValidatorId :=
  match l with
  | [] => None
  | (id, power) :: l =>
      let acc := sat_add U128_MAX acc power in
      if ticket <? acc then Some id else lottery_walk ticket acc l
  end.

(** [validators.values().map(u128::from).sum()]. *)
Definition power_sum (validators : gmap ValidatorId VotingPower) : Z :=
  foldl (λ a e, a + e.2) 0 (btree_iter validators).

(** The elected validator for a ticket; [None] is the failed [expect]. *)
Definition pick_leader (validators : gmap ValidatorId VotingPower) (ticket : Z) :
    option ValidatorId :=
  match lottery_walk ticket 0 (btree_iter validators) with
  | Some id => Some id
  | None => last (btree_keys validators)
  end.

(** [None] is a panic. *)
Definition weighted_leader (vrf_pk seed : bytes) (source_id : ValidatorId) (proof : bytes)
    (validators : gmap ValidatorId VotingPower) : option (result ValidatorId WeightedError) :=
  match leader_verify vrf_pk seed source_id proof with
  | Err e => Some (Err (WVrf e))
  | Ok output =>
      let total := power_sum validators in
      if total =? 0 then Some (Err WEmptySet)
      else Ok <$> pick_leader validators (of_be (take 16 output) mod total)
  end.

(** ** [propose.rs] *)

Record Proposal := {
  p_height : Height;
  p_round : Round;
  p_header : Header;
  p_app_hash : Hash;
  p_proposer : ValidatorId;
  p_vrf_source : ValidatorId;
  p_vrf_proof : bytes;
  p_signature : bytes;
}.

Inductive ProposeError : Type := PNotLeader | PVrf.

Definition proposal_message (header : Header) : bytes := apply_domain DHeader (hash_preimage header).

Definition round_vrf_source (validators : gmap ValidatorId VotingPower) (round : Round) :
    option ValidatorId :=
  let n := Z.of_nat (size validators) in
  if n =? 0 then None
  else btree_keys validators !! Z.to_nat (round mod n).

(** [build] is the closure that assembles the block, with the state it
    changes, or [None] when it panics; it is called only for the winner. *)
Definition propose {S : Type} (bls_sign : bytes → bytes) (our_id vrf_source : ValidatorId)
    (source_vrf_pk source_proof : bytes) (validators : gmap ValidatorId VotingPower) (seed : bytes)
    (height : Height) (round : Round) (build : S → option (S * (Header * Hash))) (s : S) :
    option (S * result Proposal ProposeError) :=
  match weighted_leader source_vrf_pk seed vrf_source source_proof validators with
  | None => None
  | Some (Err _) => Some (s, Err PVrf)
  | Some (Ok winner) =>
      if bool_decide (winner ≠ our_id) then Some (s, Err PNotLeader)
      else
        match build s with
        | None => None
        | Some (s, (header, app_hash)) =>
            Some (s, Ok {| p_height := height; p_round := round; p_header := header;
                           p_app_hash := app_hash; p_proposer := our_id; p_vrf_source := vrf_source;
                           p_vrf_proof := source_proof; p_signature := bls_sign (proposal_message header) |})
        end
  end.

Definition verify_leader (proposal : Proposal) (source_vrf_pk seed : bytes)
    (validators : gmap ValidatorId VotingPower) : option bool :=
  match weighted_leader source_vrf_pk seed (p_vrf_source proposal) (p_vrf_proof proposal) validators with
  | None => None
  | Some (Ok id) => Some (bool_decide (id = p_proposer proposal))
  | Some (Err _) => Some false
  end.

(** [timeout_nil]. *)
Definition timeout_nil (bls_sign : bytes → bytes) (signer : ValidatorId) (height : Height)
    (round : Round) (kind : VoteKind) : Vote :=
  nil_vote bls_sign signer height round kind.

(** ** [checkpoint.rs] *)

Record Checkpoint := { cp_height : Height; cp_header_hash : Hash }.

Definition record_checkpoint (finalized : Finalized) (header : Header) : option Checkpoint :=
  let hh := header_hash header in
  if bool_decide (hh ≠ fin_block_hash finalized) then None
  else if negb (hf_height (h_fields header) =? fin_height finalized) then None
  else if CHECKPOINT_INTERVAL =? 0 then None
  else if negb (fin_height finalized mod CHECKPOINT_INTERVAL =? 0) then None
  else Some {| cp_height := fin_height finalized; cp_header_hash := hh |}.

End lottery.

(** ** [leader.rs]: the round-robin test double *)

Definition round_robin_testdouble (validators : list ValidatorId) (round : Round) :
    option ValidatorId :=
  match validators with
  | [] => None
  | _ =>
      let ordered := merge_sort key_leP validators in
      ordered !! Z.to_nat (round mod Z.of_nat (length ordered))
  end.

(** ** [timeout.rs] *)

Inductive TimeoutStep : Type := TPropose | TPrevote | TPrecommit.

Record TimeoutConfig := {
  tc_propose_ms : Z; tc_prevote_ms : Z; tc_precommit_ms : Z; tc_delta_ms : Z }.

Definition TimeoutConfig_from_spec : TimeoutConfig :=
  {| tc_propose_ms := TIMEOUT_PROPOSE_MS; tc_prevote_ms := TIMEOUT_PREVOTE_MS;
     tc_precommit_ms := TIMEOUT_PRECOMMIT_MS; tc_delta_ms := TIMEOUT_DELTA_MS |}.

Definition TimeoutConfig_from_params (params : ParamsRegistry) : TimeoutConfig :=
  {| tc_propose_ms := default TIMEOUT_PROPOSE_MS (params_get params TimeoutProposeMs);
     tc_prevote_ms := default TIMEOUT_PREVOTE_MS (params_get params TimeoutPrevoteMs);
     tc_precommit_ms := default TIMEOUT_PRECOMMIT_MS (params_get params TimeoutPrecommitMs);
     tc_delta_ms := default TIMEOUT_DELTA_MS (params_get params TimeoutDeltaMs) |}.

Definition duration_ms (c : TimeoutConfig) (step : TimeoutStep) (round : Round) : Z :=
  let base := match step with
              | TPropose => tc_propose_ms c
              | TPrevote => tc_prevote_ms c
              | TPrecommit => tc_precommit_ms c
              end in
  sat_add U64_MAX base (sat_mul U64_MAX round (tc_delta_ms c)).

(** [now] is [clock.now_millis()]. *)
Definition elapsed (now : Z) (c : TimeoutConfig) (step : TimeoutStep) (round : Round)
    (started_at_ms : Z) : bool :=
  let due := sat_add U64_MAX started_at_ms (duration_ms c step round) in
  due <=? now.

(** ** [state.rs] *)

Record Lock := { lk_height : Height; lk_round : Round; lk_block_hash : Hash }.

Definition prevote_allowed (lock : option Lock) (height : Height) (candidate : VoteBlock)
    (polka_round : option (Round * Hash)) : bool :=
  match lock with
  | None => true
  | Some lock =>
      if negb (lk_height lock =? height) then true
      else match candidate with
           | Nil => true
           | VBlock h =>
               if bool_decide (h = lk_block_hash lock) then true
               else match polka_round with
                    | Some (r, ph) => (r >? lk_round lock) && bool_decide (ph = h)
                    | None => false
                    end
           end
  end.

Definition round_change_on_timeout (now : Z) (c : TimeoutConfig) (step : TimeoutStep) (round : Round)
    (started_at_ms : Z) : option Round :=
  if elapsed now c step round started_at_ms then Some (Round_saturating_next round) else None.

(** ** The lottery *)

Lemma foldl_add {A : Type} (f : A → Z) l a : foldl (λ a e, a + f e) a l = a + sumZ f l.
Proof.
  revert a. induction l as [|e l IH]; intros a; cbn; [rewrite sumZ_nil; lia|].
  rewrite IH, sumZ_cons. lia.
Qed.

Lemma power_sum_map validators : power_sum validators = map_sum id validators.
Proof. unfold power_sum. rewrite foldl_add, Z.add_0_l. apply (sumZ_btree_iter id). Qed.

(** What an entry contributes to a validator. *)
Definition share (i : ValidatorId) (e : ValidatorId * VotingPower) : Z :=
  if bool_decide (e.1 = i) then e.2 else 0.

Lemma walk_head ticket acc i p l :
  acc + p ≤ U128_MAX → ticket < acc + p → lottery_walk ticket acc ((i, p) :: l) = Some i.
Proof.
  intros Hm Ht. cbn. unfold sat_add. rewrite Z.min_r by lia. by rewrite (proj2 (Z.ltb_lt _ _)).
Qed.

Lemma walk_tail ticket acc i p l :
  acc + p ≤ U128_MAX → acc + p ≤ ticket →
  lottery_walk ticket acc ((i, p) :: l) = lottery_walk ticket (acc + p) l.
Proof.
  intros Hm Ht. cbn. unfold sat_add. rewrite Z.min_r by lia. by rewrite (proj2 (Z.ltb_ge _ _)).
Qed.

Lemma walk_total ticket acc l :
  Forall (λ e, 0 ≤ e.2) l → acc + sumZ snd l ≤ U128_MAX → ticket < acc + sumZ snd l → acc ≤ ticket →
  ∃ i p, lottery_walk ticket acc l = Some i ∧ (i, p) ∈ l.
Proof.
  intros Hl. revert acc. induction Hl as [|[i p] l Hp Hl IH]; intros acc Hm Ht Ha.
  { rewrite sumZ_nil in Ht. lia. }
  rewrite sumZ_cons in Hm, Ht. cbn [snd] in *. assert (0 ≤ sumZ snd l) by by apply sumZ_nonneg.
  destruct (Z_lt_le_dec ticket (acc + p)).
  - exists i, p. rewrite walk_head by lia. split; [done|]. apply list_elem_of_here.
  - rewrite walk_tail by lia. destruct (IH (acc + p)) as (i' & p' & E & Hin); [lia..|].
    exists i', p'. split; [done|]. by apply list_elem_of_further.
Qed.

Lemma count_all {A : Type} (f : A → bool) l b :
  Forall (λ x, f x = b) l → length (List.filter f l) = if b then length l else 0%nat.
Proof.
  induction 1 as [|x l Hx _ IH]; [by destruct b|]. cbn. rewrite Hx. destruct b; cbn; by rewrite IH.
Qed.

Lemma walk_count acc l i :
  Forall (λ e, 0 ≤ e.2) l → acc + sumZ snd l ≤ U128_MAX →
  Z.of_nat (length (List.filter (λ t, bool_decide (lottery_walk t acc l = Some i))
    (seqZ acc (sumZ snd l)))) = sumZ (share i) l.
Proof.
  intros Hl. revert acc. induction Hl as [|[i' p] l Hp Hl IH]; intros acc Hm; [done|].
  rewrite !sumZ_cons in *. cbn [snd] in *. assert (0 ≤ sumZ snd l) by by apply sumZ_nonneg.
  rewrite seqZ_app, List.filter_app, length_app, Nat2Z.inj_add by done. f_equal.
  - rewrite (count_all _ _ (bool_decide (i' = i))).
    + unfold share. cbn. case_bool_decide; [|done]. rewrite length_seqZ. lia.
    + apply Forall_forall. intros t Ht%elem_of_seqZ. rewrite walk_head by lia.
      apply bool_decide_ext. naive_solver.
  - rewrite <- (IH (acc + p)) by lia. f_equal. f_equal. apply filter_ext_in.
    intros t Ht%list_elem_of_In%elem_of_seqZ. by rewrite walk_tail by lia.
Qed.

Lemma share_sum (validators : gmap ValidatorId VotingPower) i :
  sumZ (share i) (btree_iter validators) = default 0 (validators !! i).
Proof.
  rewrite (sumZ_perm _ _ _ (btree_iter_perm validators)).
  induction validators as [|k v m Hk IH] using map_ind; [done|].
  rewrite (sumZ_perm _ _ _ (map_to_list_insert _ _ _ Hk)), sumZ_cons, IH. unfold share. cbn.
  case_bool_decide as E; [subst; rewrite Hk, lookup_insert_eq; cbn; lia|].
  by rewrite lookup_insert_ne by done.
Qed.

(** ** Theorems *)

Lemma pick_leader_walk (validators : gmap ValidatorId VotingPower) t :
  map_Forall (λ _ p, 0 ≤ p) validators → power_sum validators ≤ U128_MAX →
  0 ≤ t < power_sum validators →
  ∃ i, pick_leader validators t = Some i ∧
       lottery_walk t 0 (btree_iter validators) = Some i ∧ is_Some (validators !! i).
Proof.
  intros Hp Hm Ht. rewrite power_sum_map in *.
  pose proof (sumZ_btree_iter id validators : sumZ snd _ = _) as Es. rewrite <- Es in *.
  apply (Forall_btree_iter (λ e, 0 ≤ e.2)) in Hp.
  destruct (walk_total t 0 (btree_iter validators)) as (i & p & E & Hin%elem_of_btree_iter);
    [done|lia..|].
  exists i. unfold pick_leader. by rewrite E.
Qed.

Section fair.
Context `{!Crypto} `{!Curve}.

(** the lottery is fair.  [weighted_leader] never panics and elects only
    members of the set; and among the tickets below the total power a
    validator is elected by exactly as many as it has voting power (by none
    if it is not in the set). *)
Theorem weighted_leader_fair (validators : gmap ValidatorId VotingPower) :
  map_Forall (λ _ p, 0 ≤ p) validators → power_sum validators ≤ U128_MAX →
  (∀ pk seed src proof, ∃ r, weighted_leader pk seed src proof validators = Some r ∧
     match r with Ok i => is_Some (validators !! i) | Err _ => True end) ∧
  ∀ i, Z.of_nat (length (List.filter (λ t, bool_decide (pick_leader validators t = Some i))
         (seqZ 0 (power_sum validators)))) = default 0 (validators !! i).
Proof.
  intros Hp Hm. split.
  - intros pk seed src proof. unfold weighted_leader.
    destruct (leader_verify _ _ _ _) as [out|e]; [|by eexists]. destruct (Z.eqb_spec (power_sum validators) 0); [by eexists|].
    assert (0 ≤ power_sum validators) by (rewrite power_sum_map; by apply map_sum_nonneg).
    destruct (pick_leader_walk validators (of_be (take 16 out) mod power_sum validators) Hp Hm)
      as (i & -> & _ & Hi); [apply Z.mod_pos_bound; lia|]. by exists (Ok i).
  - intros i. pose proof (sumZ_btree_iter id validators : sumZ snd _ = _) as Es.
    rewrite <- share_sum, <- (walk_count 0);
      [|by apply (Forall_btree_iter (λ e, 0 ≤ e.2))|rewrite Es, <- power_sum_map; lia].
    rewrite Es, <- power_sum_map. f_equal. f_equal.
    apply filter_ext_in. intros t Ht%list_elem_of_In%elem_of_seqZ.
    destruct (pick_leader_walk validators t Hp Hm) as (j & -> & -> & _); [lia|done].
Qed.

End fair.

(** ** Witness: powers 3 and 5 *)

#[local] Existing Instances toy_crypto toy_curve.

Definition toy_validators : gmap ValidatorId VotingPower :=
  <[replicate 48 1 := 3]> {[replicate 48 2 := 5]}.

Lemma weighted_leader_fair_witness :
  (∀ pk seed src proof, ∃ r, weighted_leader pk seed src proof toy_validators = Some r ∧
     match r with Ok i => is_Some (toy_validators !! i) | Err _ => True end) ∧
  ∀ i, Z.of_nat (length (List.filter (λ t, bool_decide (pick_leader toy_validators t = Some i))
         (seqZ 0 (power_sum toy_validators)))) = default 0 (toy_validators !! i).
Proof.
  apply (weighted_leader_fair toy_validators).
  - apply map_Forall_insert_2; [lia|]. apply map_Forall_singleton. lia.
  - by_eval.
Defined.
