(* ===== verification/Wal.v ===== *)
(** The consensus write-ahead log: [consensus/src/wal.rs].

    The body of a vote is written to the store before the vote is released.
    Shown: whatever a validator does with the log, including crashing after
    the write and before the release, any two votes it released for one slot
    are for the same block; and a vote that agrees with the log is never
    refused while the store works ([wal_no_double_sign]). *)

From S2P Require Import Prelude Types Codec Crypto Store Vote Leader.
From Stdlib Require Import String.
From stdpp Require Import list.

#[local] Open Scope Z_scope.
#[local] Open Scope l1_scope.

Section wal.
Context `{!Crypto} {S : Type} `{!Store S}.

Definition PREFIX : bytes := ascii_bytes "cw/".

Definition vote_key (v : Vote) : bytes :=
  PREFIX ++ replay_key (v_signer v) (v_height v) (v_round v) (v_kind v).

Definition encode_vote_body (v : Vote) : bytes :=
  signed_message (v_height v) (v_round v) (v_kind v) (v_block v).

Definition log_vote (store : S) (vote : Vote) : S * result unit TypesError :=
  apply_batch store [BPut (vote_key vote) (encode_vote_body vote)].

Definition log_proposal (store : S) (p : Proposal) : S * result unit TypesError :=
  let key := PREFIX ++ ascii_bytes "p/" ++ be_bytes 8 (p_height p) ++ be_bytes 4 (p_round p) in
  apply_batch store [BPut key (header_hash (p_header p))].

Definition logged_vote_body (store : S) (vote : Vote) : result (option bytes) TypesError :=
  kv_get store (vote_key vote).

Inductive DoubleSignError : Type :=
| DSStore (e : TypesError)
| DSWouldDoubleSign
| DSEquivocation (e : Evidence).

Definition check_no_double_sign (store : S) (candidate : Vote) (previous_signed : option Vote) :
    result unit DoubleSignError :=
  match logged_vote_body store candidate with
  | Err e => Err (DSStore e)
  | Ok None => Ok tt
  | Ok (Some prev_body) =>
      let new_body := encode_vote_body candidate in
      if bool_decide (prev_body = new_body) then Ok tt
      else match previous_signed with
           | Some old =>
               match equivocation old candidate with
               | Err _ => Err DSWouldDoubleSign
               | Ok e => Err (DSEquivocation e)
               end
           | None => Err DSWouldDoubleSign
           end
  end.

Definition sign_vote_logged (store : S) (unsigned : Vote) (previous : option Vote) :
    S * result Vote DoubleSignError :=
  match check_no_double_sign store unsigned previous with
  | Err e => (store, Err e)
  | Ok _ =>
      match log_vote store unsigned with
      | (store, Err e) => (store, Err (DSStore e))
      | (store, Ok _) => (store, Ok unsigned)
      end
  end.

(** ** Runs of a validator *)

(** What a validator does with its log.  [WCrash] is a crash after the write:
    the store has the body but the vote is not released. *)
Inductive WalOp : Type :=
| WSign (v : Vote) (previous : option Vote)
| WCrash (v : Vote) (previous : option Vote)
| WProposal (p : Proposal).

Definition wal_step (store : S) (op : WalOp) : S * list Vote :=
  match op with
  | WSign v prev =>
      match sign_vote_logged store v prev with
      | (store, Ok v) => (store, [v])
      | (store, Err _) => (store, [])
      end
  | WCrash v prev => ((sign_vote_logged store v prev).1, [])
  | WProposal p => ((log_proposal store p).1, [])
  end.

(** The votes released by a run, and the store it ends with. *)
Fixpoint wal_run (store : S) (ops : list WalOp) : S * list Vote :=
  match ops with
  | [] => (store, [])
  | op :: ops =>
      let r := wal_step store op in
      let r' := wal_run r.1 ops in
      (r'.1, r.2 ++ r'.2)
  end.

Context `{!CryptoLaws} `{!StoreLaws S}.

(** A batch of one [Put] writes it or does nothing, whatever the store does
    when the old value is put back. *)
Lemma put_one_view (s : S) k v :
  kv_view (apply_batch s [BPut k v]).1 =
    match (apply_batch s [BPut k v]).2 with
    | Ok _ => <[k := v]> (kv_view s)
    | Err _ => kv_view s
    end.
Proof.
  unfold apply_batch. cbn [batch_snapshot op_key existsb].
  destruct (kv_get s k) as [o|e] eqn:Eg; [|done]. cbn. apply kv_get_ok in Eg.
  pose proof (kv_put_view s k v) as Ep. destruct (kv_put s k v) as [s' [u|e]]; cbn in *; [done|].
  destruct o as [old|]; cbn.
  - pose proof (kv_put_view s' k old) as Er. rewrite Er, Ep. case_match; [|done]. by apply insert_id.
  - pose proof (kv_delete_view s' k) as Er. rewrite Er, Ep. case_match; [|done]. by apply delete_id.
Qed.

Lemma length_vote_key v : length (vote_key v) = 35%nat.
Proof. unfold vote_key, replay_key. rewrite length_app. unfold hash_to_array. by rewrite (proj1 (blake3_array _)). Qed.

(** A body that is in the log stays there. *)
Lemma wal_step_keeps s op v :
  kv_view s !! vote_key v = Some (encode_vote_body v) →
  kv_view (wal_step s op).1 !! vote_key v = Some (encode_vote_body v).
Proof.
  intros Hv. assert (∀ w prev, kv_view (sign_vote_logged s w prev).1 !! vote_key v = Some (encode_vote_body v)) as Hs.
  { intros w prev. unfold sign_vote_logged. destruct (check_no_double_sign s w prev) as [u|e] eqn:Ec; [|done].
    pose proof (put_one_view s (vote_key w) (encode_vote_body w)) as Ep. unfold log_vote.
    destruct (apply_batch s _) as [s' [u'|e]]; cbn [fst snd] in *; rewrite Ep; [|done].
    destruct (decide (vote_key v = vote_key w)) as [Ek|Hne]; [|by rewrite lookup_insert_ne].
    rewrite Ek, lookup_insert_eq. unfold check_no_double_sign, logged_vote_body in Ec.
    destruct (kv_get s (vote_key w)) as [o|] eqn:Eg; [|done]. apply kv_get_ok in Eg.
    rewrite <- Ek, Hv in Eg. subst o. case_bool_decide as Eb; [by rewrite Eb|].
    by repeat case_match. }
  destruct op as [w prev|w prev|p]; cbn [wal_step fst snd].
  - specialize (Hs w prev). by destruct (sign_vote_logged s w prev) as [s' [u|e]].
  - apply Hs.
  - unfold log_proposal. rewrite put_one_view. case_match; [|done]. rewrite lookup_insert_ne; [done|].
    intros E%(f_equal length). rewrite length_vote_key in E. autorewrite with l1simpl in E. done.
Qed.

Lemma wal_step_logs s op v :
  v ∈ (wal_step s op).2 → kv_view (wal_step s op).1 !! vote_key v = Some (encode_vote_body v).
Proof.
  destruct op as [w prev|w prev|p]; cbn [wal_step fst snd]; [|by intros ?%not_elem_of_nil..].
  unfold sign_vote_logged, log_vote. destruct (check_no_double_sign s w prev) as [u|e]; [|by intros ?%not_elem_of_nil].
  pose proof (put_one_view s (vote_key w) (encode_vote_body w)) as Ep.
  destruct (apply_batch s _) as [s' [u'|e]]; cbn [fst snd] in *; [|by intros ?%not_elem_of_nil].
  intros ->%list_elem_of_singleton. by rewrite Ep, lookup_insert_eq.
Qed.

Lemma wal_run_logs s ops v :
  kv_view s !! vote_key v = Some (encode_vote_body v) ∨ v ∈ (wal_run s ops).2 →
  kv_view (wal_run s ops).1 !! vote_key v = Some (encode_vote_body v).
Proof.
  revert s. induction ops as [|op ops IH]; intros s; cbn; [by intros [Hv|Hv%not_elem_of_nil]|].
  intros [Hv|[Hv|Hv]%elem_of_app]; apply IH.
  - left. by apply wal_step_keeps.
  - left. by apply wal_step_logs.
  - by right.
Qed.

Lemma check_agrees s v prev :
  is_ok (kv_get s (vote_key v)) = true → kv_view s !! vote_key v = Some (encode_vote_body v) →
  check_no_double_sign s v prev = Ok tt.
Proof.
  intros Hg Hv. unfold check_no_double_sign, logged_vote_body.
  destruct (kv_get s (vote_key v)) as [o|] eqn:Eg; [|done]. apply kv_get_ok in Eg. rewrite Hv in Eg. subst o.
  by rewrite bool_decide_true.
Qed.

(** C13: the write-ahead log rules out double-signing.  In every run of signing
    attempts, crashes and proposals, from every store: two votes released for
    the same signer, height, round and kind are for the same block.  After the
    run a candidate for the slot of a released vote passes the check exactly
    when it is for that block, provided the store can be read. *)
Theorem wal_no_double_sign s ops a :
  a ∈ (wal_run s ops).2 → vote_wf a →
  (∀ b, b ∈ (wal_run s ops).2 → same_slot a b → vote_wf b → v_block a = v_block b) ∧
  (∀ c prev, same_slot a c → vote_wf c → is_ok (kv_get (wal_run s ops).1 (vote_key c)) = true →
     (check_no_double_sign (wal_run s ops).1 c prev = Ok tt ↔ v_block c = v_block a)).
Proof.
  intros Ha Hwa. pose proof (wal_run_logs s ops a (or_intror Ha)) as La.
  assert (∀ b, same_slot a b → vote_wf b → encode_vote_body a = encode_vote_body b → v_block a = v_block b) as Hinj.
  { intros b Hs Hwb E. unfold encode_vote_body in E. destruct Hwa as (_ & ? & ? & _), Hwb as (_ & ? & ? & _).
    by apply signed_message_inj in E as (_ & _ & _ & E). }
  assert (∀ b, same_slot a b → vote_key a = vote_key b) as Hkey
    by (intros b Hs; unfold vote_key; f_equal; apply (same_slot_key a b Hs)).
  split.
  - intros b Hb Hs Hwb. pose proof (wal_run_logs s ops b (or_intror Hb)) as Lb.
    rewrite (Hkey b Hs), Lb in La. apply Hinj; [done|done|]. congruence.
  - intros c prev Hs Hwc Hg. split.
    + intros Ec. unfold check_no_double_sign, logged_vote_body in Ec.
      destruct (kv_get _ (vote_key c)) as [o|] eqn:Eg; [|done]. apply kv_get_ok in Eg.
      rewrite <- (Hkey c Hs), La in Eg. subst o. case_bool_decide as Eb; [by symmetry; apply Hinj|].
      by repeat case_match.
    + intros Eb. apply check_agrees; [done|]. rewrite <- (Hkey c Hs), La. f_equal.
      unfold encode_vote_body. destruct Hs as (_ & -> & -> & ->). by rewrite Eb.
Qed.

End wal.

(** ** A run with a crash *)

#[local] Existing Instance toy_crypto.
#[local] Existing Instance toy_crypto_laws.

Definition long_vote (b : VoteBlock) : Vote :=
  {| v_height := 5; v_round := 0; v_kind := Precommit; v_block := b;
     v_signer := replicate 48 3; v_signature := replicate 96 1 |}.

(** The vote for the block crashes after the write; nil is then refused and
    the vote for the block is released. *)
Definition crash_ops : list WalOp :=
  [WCrash (long_vote (VBlock (replicate 32 9))) None; WSign (long_vote Nil) None;
   WSign (long_vote (VBlock (replicate 32 9))) None].

Lemma wal_no_double_sign_witness :
  (wal_run MemoryStore_new crash_ops).2 = [long_vote (VBlock (replicate 32 9))] ∧
  ¬ check_no_double_sign (wal_run MemoryStore_new crash_ops).1 (long_vote Nil) None = Ok tt.
Proof.
  assert ((wal_run MemoryStore_new crash_ops).2 = [long_vote (VBlock (replicate 32 9))]) as E by by_eval.
  split; [exact E|].
  rewrite (proj2 (wal_no_double_sign MemoryStore_new crash_ops (long_vote (VBlock (replicate 32 9)))
    ltac:(rewrite E; constructor) ltac:(by_eval)) (long_vote Nil) None); [discriminate|by_eval..|reflexivity].
Defined.
