(* ===== verification/Quorum.v ===== *)
(** Quorum certificates and commits: [consensus/src/qc.rs], [safety.rs] and
    [steps.rs].

    Shown: a commit carries precommits of distinct validators with more than
    two thirds of the power ([commit_ok]); two commits of one height and
    round for different blocks exhibit validators with more than a third of
    the power that precommitted both ([conflicting_commits_equivocate]); a
    commit log never changes a height ([commit_log_no_two_commits]); and
    enough precommits do commit ([commit_complete]). *)

From S2P Require Import Prelude Types Codec Crypto Vrf Vote Leader.
From stdpp Require Import list.

#[local] Open Scope Z_scope.
#[local] Open Scope l1_scope.

(** ** The order of [VoteBlock] (derived [Ord]) *)

Definition vote_block_le (a b : VoteBlock) : bool :=
  match a, b with
  | Nil, _ => true
  | VBlock _, Nil => false
  | VBlock x, VBlock y => key_le x y
  end.
#[export] Instance VoteBlock_key_ord : KeyOrd VoteBlock := vote_block_le.
#[export] Instance VoteBlock_key_ord_laws : KeyOrdLaws VoteBlock.
Proof.
  split; unfold key_le, VoteBlock_key_ord, vote_block_le.
  - intros [|a] [|b]; auto. apply key_le_total.
  - intros [|a] [|b] [|c]; try done. apply key_le_trans.
  - intros [|a] [|b]; try done. intros E1 E2. f_equal. by apply key_le_antisym.
Qed.
#[export] Instance VoteBlock_countable : Countable VoteBlock.
Proof.
  refine (inj_countable' (λ b, match b with Nil => None | VBlock h => Some h end)
    (λ o, match o with None => Nil | Some h => VBlock h end) _). by intros [].
Defined.

(** ** [qc.rs] *)

Record QuorumCertificate := {
  qc_height : Height;
  qc_round : Round;
  qc_block : VoteBlock;
  qc_signers : list ValidatorId;
  qc_agg_sig : bytes;
  qc_power : VotingPower;
}.

Inductive QcError : Type := QEmpty | QNotPrecommit | QMixed | QUnknownSigner | QSig | QNoQuorum.

Abbreviation ValidatorSet := (gmap ValidatorId VotingPower).
Abbreviation CommitLog := (gmap Height Hash).
Abbreviation ReplayLog := (gmap bytes bytes).

Definition has_quorum (voted total : VotingPower) : bool := exceeds_two_thirds voted total.

Definition total_power (validators : ValidatorSet) : VotingPower :=
  foldl (λ a e, VotingPower_saturating_add a e.2) 0 (btree_iter validators).

(** The first loop of [aggregate]. *)
Fixpoint collect_votes (height : Height) (round : Round) (block : VoteBlock) (votes : list Vote)
    (by_id : gmap ValidatorId Vote) : result (gmap ValidatorId Vote) QcError :=
  match votes with
  | [] => Ok by_id
  | v :: votes =>
      if bool_decide (v_kind v ≠ Precommit) then Err QNotPrecommit
      else if negb (v_height v =? height) || negb (v_round v =? round) || bool_decide (v_block v ≠ block)
      then Err QMixed
      else collect_votes height round block votes (<[v_signer v := v]> by_id)
  end.

Section quorum.
Context `{!Crypto}.

(** The second loop. *)
Fixpoint collect_signers (validators : ValidatorSet) (l : list (ValidatorId * Vote))
    (sigs : list bytes) (signers : list ValidatorId) (power : VotingPower) :
    result (list bytes * list ValidatorId * VotingPower) QcError :=
  match l with
  | [] => Ok (sigs, signers, power)
  | (id, v) :: l =>
      match validators !! id with
      | None => Err QUnknownSigner
      | Some p =>
          if negb (bls_sig_valid (v_signature v)) then Err QSig
          else collect_signers validators l (sigs ++ [v_signature v]) (signers ++ [id])
                 (VotingPower_saturating_add power p)
      end
  end.

Definition aggregate (votes : list Vote) (validators : ValidatorSet) : result QuorumCertificate QcError :=
  match votes with
  | [] => Err QEmpty
  | v0 :: _ =>
      let height := v_height v0 in
      let round := v_round v0 in
      let block := v_block v0 in
      let? by_id := collect_votes height round block votes ∅ in
      let? r := collect_signers validators (btree_iter by_id) [] [] 0 in
      let '(sigs, signers, power) := r in
      let? agg := ok_or (bls_aggregate sigs) QSig in
      Ok {| qc_height := height; qc_round := round; qc_block := block; qc_signers := signers;
            qc_agg_sig := agg; qc_power := power |}
  end.

(** [qc::verify]; [None] is the index panic of [verify_fast_aggregate] on no
    signers.  The final [verify_aggregate] is called for no effect. *)
Definition qc_verify (qc : QuorumCertificate) (validators : ValidatorSet) : option (result unit QcError) :=
  let total := total_power validators in
  if negb (has_quorum (qc_power qc) total) then Some (Err QNoQuorum)
  else if negb (bls_sig_valid (qc_agg_sig qc)) then Some (Err QSig)
  else
    let msg := signed_message (qc_height qc) (qc_round qc) Precommit (qc_block qc) in
    if negb (forallb bls_pk_valid (qc_signers qc)) then Some (Err QSig)
    else match verify_fast_aggregate (qc_agg_sig qc) (qc_signers qc) msg with
         | None => None
         | Some false => Some (Err QSig)
         | Some true => Some (Ok tt)
         end.

(** ** [safety.rs] *)

Definition halt_no_quorum (reachable total : VotingPower) : bool := negb (has_quorum reachable total).

Inductive SafetyError : Type := TwoCommits (height : Height).

Definition record (log : CommitLog) (f : Finalized) : CommitLog * result unit SafetyError :=
  match log !! fin_height f with
  | Some prev =>
      if bool_decide (prev ≠ fin_block_hash f) then (log, Err (TwoCommits (fin_height f)))
      else (log, Ok tt)
  | None => (<[fin_height f := fin_block_hash f]> log, Ok tt)
  end.

Definition commit_get (log : CommitLog) (height : Height) : option Hash := log !! height.

(** ** [steps.rs] *)

Definition tally_step (validators : ValidatorSet) (t : gmap VoteBlock VotingPower) (v : Vote) :
    gmap VoteBlock VotingPower :=
  match validators !! v_signer v with
  | None => t
  | Some p => <[v_block v := VotingPower_saturating_add (default 0 (t !! v_block v)) p]> t
  end.

Definition tally (votes : list Vote) (validators : ValidatorSet) : gmap VoteBlock VotingPower :=
  foldl (tally_step validators) ∅ votes.

Definition polka (votes : list Vote) (validators : ValidatorSet) : option VoteBlock :=
  let total := total_power validators in
  let t := tally votes validators in
  fst <$> List.find (λ e, has_quorum e.2 total) (btree_iter t).

Inductive PrevoteError : Type := PESlot | PENotLeader | PEVerify (e : VerifyError).

(** [prevote_step]; [None] is a panic of the lottery. *)
Definition prevote_step `{!Curve} (bls_sign : bytes → bytes) (our_id : ValidatorId) (proposal : Proposal)
    (vrf_pks : gmap ValidatorId bytes) (seed : bytes) (validators : ValidatorSet)
    (expected_height : Height) (expected_round : Round) (lock : option Lock)
    (unlock_polka : option (Round * Hash)) (log : ReplayLog) :
    option (ReplayLog * result Vote PrevoteError) :=
  if negb (p_height proposal =? expected_height) || negb (p_round proposal =? expected_round)
  then Some (log, Err PESlot)
  else match vrf_pks !! p_vrf_source proposal with
  | None => Some (log, Err PENotLeader)
  | Some src_pk =>
      match verify_leader proposal src_pk seed validators with
      | None => None
      | Some false => Some (log, Err PENotLeader)
      | Some true =>
          let candidate := VBlock (header_hash (p_header proposal)) in
          if negb (prevote_allowed lock expected_height candidate unlock_polka)
          then
            let v := nil_vote bls_sign our_id expected_height expected_round Prevote in
            let '(log, _) := verify_vote v expected_height expected_round log in
            Some (log, Ok v)
          else
            let v := prevote bls_sign our_id expected_height expected_round (p_header proposal) in
            match verify_vote v expected_height expected_round log with
            | (log, Err e) => Some (log, Err (PEVerify e))
            | (log, Ok _) => Some (log, Ok v)
            end
      end
  end.

Definition precommit_step (bls_sign : bytes → bytes) (our_id : ValidatorId) (height : Height)
    (round : Round) (prevotes : list Vote) (validators : ValidatorSet) (header_for : Header)
    (log : ReplayLog) : ReplayLog * (Vote * option Lock) :=
  let abstain :=
    let v := nil_vote bls_sign our_id height round Precommit in
    let '(log, _) := verify_vote v height round log in
    (log, (v, None)) in
  match polka prevotes validators with
  | Some (VBlock h) =>
      if bool_decide (h = header_hash header_for) then
        let v := precommit bls_sign our_id height round header_for in
        let '(log, _) := verify_vote v height round log in
        (log, (v, Some {| lk_height := height; lk_round := round; lk_block_hash := h |}))
      else abstain
  | _ => abstain
  end.

Inductive CommitError : Type := CQc (e : QcError) | CSafety (e : SafetyError).

(** [commit]; [None] is a panic. *)
Definition commit (precommits : list Vote) (validators : ValidatorSet) (reachable : VotingPower)
    (proposal : Proposal) (log : CommitLog) :
    option (CommitLog * result (option Finalized) CommitError) :=
  let total := total_power validators in
  if halt_no_quorum reachable total then Some (log, Ok None)
  else match polka precommits validators with
  | Some (VBlock h) =>
      if bool_decide (h ≠ header_hash (p_header proposal)) then Some (log, Ok None)
      else match aggregate precommits validators with
      | Err e => Some (log, Err (CQc e))
      | Ok qc =>
          match qc_verify qc validators with
          | None => None
          | Some (Err e) => Some (log, Err (CQc e))
          | Some (Ok _) =>
              let f := {| fin_height := p_height proposal; fin_round := p_round proposal;
                          fin_block_hash := h; fin_app_hash := p_app_hash proposal |} in
              match record log f with
              | (log, Err e) => Some (log, Err (CSafety e))
              | (log, Ok _) => Some (log, Ok (Some f))
              end
          end
      end
  | _ => Some (log, Ok None)
  end.

End quorum.

(** ** Voting power *)

Definition power_of (validators : ValidatorSet) (s : gset ValidatorId) : Z :=
  sumZ (λ e, if bool_decide (e.1 ∈ s) then e.2 else 0) (btree_iter validators).

Definition powers_ok (validators : ValidatorSet) : Prop := map_Forall (λ _ p, 0 ≤ p) validators.

Lemma foldl_saturating {A : Type} (f : A → Z) l a :
  Forall (λ e, 0 ≤ f e) l → a ≤ U64_MAX →
  foldl (λ a e, VotingPower_saturating_add a (f e)) a l = Z.min U64_MAX (a + sumZ f l).
Proof.
  intros Hl. revert a. induction Hl as [|e l He Hl IH]; intros a Ha; cbn [foldl].
  { rewrite sumZ_nil. lia. }
  rewrite sumZ_cons. unfold VotingPower_saturating_add, sat_add in *. rewrite IH by lia.
  assert (0 ≤ sumZ f l) by by apply sumZ_nonneg. lia.
Qed.

Lemma powers_ok_iter validators : powers_ok validators → Forall (λ e, 0 ≤ e.2) (btree_iter validators).
Proof. intros Hp. by apply (Forall_btree_iter (λ e, 0 ≤ e.2)). Qed.

Lemma power_sum_iter validators : power_sum validators = sumZ snd (btree_iter validators).
Proof. unfold power_sum. by rewrite foldl_add. Qed.

Lemma total_power_sum validators :
  powers_ok validators → total_power validators = Z.min U64_MAX (power_sum validators).
Proof.
  intros Hp. unfold total_power. rewrite power_sum_iter.
  rewrite (foldl_saturating snd); [done|by apply powers_ok_iter|by uint].
Qed.

(** The saturating arithmetic errs on the safe side. *)
Lemma has_quorum_sound p t :
  0 ≤ p → 0 ≤ t → has_quorum (Z.min U64_MAX p) (Z.min U64_MAX t) = true → 2 * t < 3 * p.
Proof.
  unfold has_quorum, exceeds_two_thirds, sat_mul. rewrite Z.ltb_lt. uint. lia.
Qed.

Lemma has_quorum_complete p t :
  3 * p ≤ U64_MAX → 3 * t ≤ U64_MAX → 2 * t < 3 * p → has_quorum p t = true.
Proof. unfold has_quorum, exceeds_two_thirds, sat_mul. rewrite Z.ltb_lt. uint. lia. Qed.

Lemma power_of_nonneg validators s : powers_ok validators → 0 ≤ power_of validators s.
Proof.
  intros Hp%powers_ok_iter. apply sumZ_nonneg. eapply Forall_impl; [exact Hp|]. intros e He.
  cbn in *. case_bool_decide; lia.
Qed.

Lemma power_of_mono validators a b :
  powers_ok validators → a ⊆ b → power_of validators a ≤ power_of validators b.
Proof.
  intros Hp%powers_ok_iter Hsub. unfold power_of.
  induction Hp as [|e l He _ IH]; [done|]. rewrite !sumZ_cons. cbn beta.
  destruct (decide (e.1 ∈ a)).
  - rewrite !bool_decide_true by set_solver. lia.
  - rewrite bool_decide_false by done. case_bool_decide; lia.
Qed.

Lemma power_of_union validators a b :
  powers_ok validators →
  power_of validators a + power_of validators b ≤ power_sum validators + power_of validators (a ∩ b).
Proof.
  intros Hp%powers_ok_iter. rewrite power_sum_iter. unfold power_of.
  induction Hp as [|e l He _ IH]; [done|]. rewrite !sumZ_cons. cbn beta.
  assert (bool_decide (e.1 ∈ a ∩ b) = bool_decide (e.1 ∈ a) && bool_decide (e.1 ∈ b)) as ->
    by (rewrite <- bool_decide_and; apply bool_decide_ext; set_solver).
  repeat case_bool_decide; cbn; lia.
Qed.

(** Two quorums share more than a third of the power. *)
Lemma quorum_intersection validators a b :
  powers_ok validators →
  2 * power_sum validators < 3 * power_of validators a →
  2 * power_sum validators < 3 * power_of validators b →
  power_sum validators < 3 * power_of validators (a ∩ b).
Proof. intros Hp Ha Hb. pose proof (power_of_union validators a b Hp). lia. Qed.

Lemma power_of_empty validators : power_of validators ∅ = 0.
Proof.
  unfold power_of. induction (btree_iter validators) as [|e l IH]; [done|].
  rewrite sumZ_cons, IH. by rewrite bool_decide_false by set_solver.
Qed.

Lemma power_of_add validators k s :
  k ∉ s → power_of validators ({[k]} ∪ s) = default 0 (validators !! k) + power_of validators s.
Proof.
  intros Hk. rewrite <- share_sum. unfold power_of.
  induction (btree_iter validators) as [|e l IH]; [done|]. rewrite !sumZ_cons, IH.
  unfold share. destruct (decide (e.1 = k)) as [E|E].
  - rewrite !(bool_decide_true (e.1 = k)), (bool_decide_true (e.1 ∈ _)), (bool_decide_false (e.1 ∈ s))
      by set_solver. lia.
  - rewrite (bool_decide_false (e.1 = k)) by done.
    rewrite (bool_decide_ext (e.1 ∈ {[k]} ∪ s) (e.1 ∈ s)) by set_solver. lia.
Qed.

Lemma power_of_list validators l :
  NoDup l → power_of validators (list_to_set l) = sumZ (λ k, default 0 (validators !! k)) l.
Proof.
  induction 1 as [|k l Hk _ IH]; [apply power_of_empty|]. cbn [list_to_set].
  rewrite power_of_add, sumZ_cons, IH; [done|]. by rewrite elem_of_list_to_set.
Qed.

(** ** Certificates *)

Section spec.
Context `{!Crypto}.

(** A precommit of the given slot and block. *)
Definition precommit_for (height : Height) (round : Round) (block : VoteBlock) (v : Vote) : Prop :=
  v_kind v = Precommit ∧ v_height v = height ∧ v_round v = round ∧ v_block v = block.

Lemma collect_votes_ok height round block votes by_id m :
  collect_votes height round block votes by_id = Ok m →
  Forall (precommit_for height round block) votes ∧
  ∀ i v, m !! i = Some v → by_id !! i = Some v ∨ (v ∈ votes ∧ v_signer v = i).
Proof.
  revert by_id. induction votes as [|v votes IH]; intros by_id E; cbn in E.
  { simplify_eq. split; [done|]. auto. }
  case_bool_decide as Ek; [done|]. destruct (_ || _) eqn:Es in E; [done|]. bsimpl.
  destruct (IH _ E) as [Hall Hm]. split.
  - constructor; [|done]. split; [by destruct (v_kind v)|]. split; [lia|]. split; [lia|].
    by apply dec_stable.
  - intros i v' [Hin|[Hin Hs]]%Hm; [|right; set_solver].
    destruct (decide (v_signer v = i)) as [<-|Hne].
    + rewrite lookup_insert_eq in Hin. simplify_eq. right. split; [apply list_elem_of_here|done].
    + rewrite lookup_insert_ne in Hin by done. auto.
Qed.

Lemma collect_votes_complete height round block votes by_id :
  Forall (precommit_for height round block) votes →
  ∃ m, collect_votes height round block votes by_id = Ok m ∧
    ∀ i, i ∈ dom m ↔ i ∈ dom by_id ∨ i ∈ v_signer <$> votes.
Proof.
  intros Hf. revert by_id. induction Hf as [|v votes (Hk & Hh & Hr & Hb) _ IH]; intros by_id; cbn.
  { exists by_id. split; [done|]. set_solver. }
  rewrite bool_decide_false by (rewrite Hk; tauto).
  rewrite Hh, Hr, !Z.eqb_refl, (bool_decide_false (v_block v ≠ block)) by (rewrite Hb; tauto). cbn.
  destruct (IH (<[v_signer v := v]> by_id)) as (m & -> & Hm). exists m. split; [done|].
  intros i. rewrite Hm, dom_insert. set_solver.
Qed.

Lemma collect_signers_ok validators l sigs signers power sigs' signers' power' :
  powers_ok validators → power ≤ U64_MAX →
  collect_signers validators l sigs signers power = Ok (sigs', signers', power') →
  signers' = signers ++ l.*1 ∧ sigs' = sigs ++ (v_signature <$> l.*2) ∧
  power' = Z.min U64_MAX (power + sumZ (λ k, default 0 (validators !! k)) l.*1).
Proof.
  intros Hp. revert sigs signers power. induction l as [|[i v] l IH]; intros sigs signers power Hm E; cbn in E.
  { simplify_eq. cbn. rewrite !app_nil_r, sumZ_nil. split; [done|]. split; [done|]. lia. }
  destruct (validators !! i) as [p|] eqn:Ei; [|done]. destruct (bls_sig_valid _); [|done]. cbn in E.
  assert (0 ≤ p) by by apply (Hp i). unfold VotingPower_saturating_add, sat_add in *.
  apply IH in E as (-> & -> & ->); [|lia].
  rewrite <- !app_assoc. split; [done|]. split; [done|].
  cbn [fmap list_fmap fst]. rewrite sumZ_cons, Ei. cbn.
  assert (0 ≤ sumZ (λ k, default 0 (validators !! k)) l.*1); [|lia].
  apply sumZ_nonneg, Forall_forall. intros k _. destruct (validators !! k) eqn:Ek; cbn; [|lia]. by apply (Hp k).
Qed.

(** A certificate is for the slot and block of its votes, and its power is
    that of distinct validators who voted. *)
Lemma aggregate_ok votes validators qc :
  powers_ok validators → aggregate votes validators = Ok qc →
  Forall (precommit_for (qc_height qc) (qc_round qc) (qc_block qc)) votes ∧
  NoDup (qc_signers qc) ∧ Forall (λ i, ∃ v, v ∈ votes ∧ v_signer v = i) (qc_signers qc) ∧
  qc_power qc = Z.min U64_MAX (power_of validators (list_to_set (qc_signers qc))).
Proof.
  intros Hp E. unfold aggregate in E. destruct votes as [|v0 votes]; [done|].
  destruct (collect_votes _ _ _ _ _) as [m|] eqn:Ec; [|done]. cbn in E.
  destruct (collect_signers _ _ _ _ _) as [[[sigs signers] power]|] eqn:Es; [|done].
  destruct (bls_aggregate sigs) as [agg|]; [|done]. cbn in E. simplify_eq. cbn.
  destruct (collect_votes_ok _ _ _ _ _ _ Ec) as [Hall Hm].
  apply collect_signers_ok in Es as (-> & _ & ->); [|done|by uint]. cbn.
  fold (btree_keys m). split; [done|]. split; [apply NoDup_btree_keys|]. split.
  - apply Forall_forall. intros i [v Hv]%elem_of_btree_keys.
    destruct (Hm i v Hv) as [Hv'|[Hin Hi]]; [by rewrite lookup_empty in Hv'|]. by exists v.
  - by rewrite power_of_list by apply NoDup_btree_keys.
Qed.

Lemma qc_verify_ok qc validators u :
  qc_verify qc validators = Some (Ok u) →
  has_quorum (qc_power qc) (total_power validators) = true ∧
  verify_fast_aggregate (qc_agg_sig qc) (qc_signers qc)
    (signed_message (qc_height qc) (qc_round qc) Precommit (qc_block qc)) = Some true.
Proof.
  unfold qc_verify. destruct (has_quorum _ _); [|done]. destruct (bls_sig_valid _); [|done].
  destruct (forallb _ _); [|done]. cbn. destruct (verify_fast_aggregate _ _ _) as [[|]|]; done.
Qed.

(** ** Polkas *)

Lemma tally_voted votes validators t b :
  b ∈ dom (foldl (tally_step validators) t votes) → b ∈ dom t ∨ ∃ v, v ∈ votes ∧ v_block v = b.
Proof.
  revert t. induction votes as [|v votes IH]; intros t Hb; cbn in Hb; [auto|].
  apply IH in Hb as [Hb|(v' & Hin & Hv)]; [|right; exists v'; split; [by apply list_elem_of_further|done]].
  unfold tally_step in Hb. destruct (validators !! v_signer v); [|auto].
  apply dom_insert, elem_of_union in Hb as [Hb%elem_of_singleton|Hb]; [|auto].
  right. exists v. split; [apply list_elem_of_here|done].
Qed.

Lemma polka_voted votes validators b :
  polka votes validators = Some b → ∃ v, v ∈ votes ∧ v_block v = b.
Proof.
  unfold polka. intros ([b' p] & E & ->)%fmap_Some. apply find_some in E as [Hin%list_elem_of_In _].
  apply elem_of_btree_iter in Hin. cbn.
  destruct (tally_voted votes validators ∅ b') as [Hb|Hv]; [by eapply elem_of_dom_2|set_solver|done].
Qed.

(** ** Commits *)

(** What a commit establishes: a set of validators with more than two thirds
    of the power, each of which precommitted the block. *)
Definition quorum_for (validators : ValidatorSet) (votes : list Vote) (height : Height) (round : Round)
    (block : VoteBlock) (s : gset ValidatorId) : Prop :=
  2 * power_sum validators < 3 * power_of validators s ∧
  ∀ i, i ∈ s → ∃ v, v ∈ votes ∧ v_signer v = i ∧ precommit_for height round block v.

Lemma commit_ok precommits validators reachable proposal log log' f :
  powers_ok validators →
  commit precommits validators reachable proposal log = Some (log', Ok (Some f)) →
  record log f = (log', Ok tt) ∧
  f = {| fin_height := p_height proposal; fin_round := p_round proposal;
         fin_block_hash := header_hash (p_header proposal); fin_app_hash := p_app_hash proposal |} ∧
  ∃ qc, aggregate precommits validators = Ok qc ∧ qc_block qc = VBlock (fin_block_hash f) ∧
    quorum_for validators precommits (qc_height qc) (qc_round qc) (VBlock (fin_block_hash f))
      (list_to_set (qc_signers qc)) ∧
    verify_fast_aggregate (qc_agg_sig qc) (qc_signers qc)
      (signed_message (qc_height qc) (qc_round qc) Precommit (qc_block qc)) = Some true.
Proof.
  intros Hp E. unfold commit in E. destruct (halt_no_quorum _ _); [done|].
  destruct (polka precommits validators) as [[|h]|] eqn:Ep; [done| |done].
  case_bool_decide as Eh; [done|].
  destruct (aggregate _ _) as [qc|] eqn:Eq; [|done].
  destruct (qc_verify qc validators) as [[[]|]|] eqn:Ev; [|done|done].
  destruct (record log _) as [log1 [[]|]] eqn:Er; [|done]. simplify_eq. cbn.
  split; [done|]. split; [done|]. exists qc. split; [done|].
  destruct (aggregate_ok _ _ _ Hp Eq) as (Hall & Hnd & Hsig & Hpow).
  destruct (qc_verify_ok _ _ _ Ev) as [Hq Hf].
  destruct (polka_voted _ _ _ Ep) as (v & Hin & Hv).
  assert (qc_block qc = VBlock (header_hash (p_header proposal))) as Hb.
  { rewrite Forall_forall in Hall. by destruct (Hall v Hin) as (_ & _ & _ & <-). }
  split; [done|]. split; [|done]. split.
  - rewrite Hpow, total_power_sum in Hq by done. apply has_quorum_sound in Hq; [done| |].
    + by apply power_of_nonneg.
    + rewrite power_sum_map. by apply map_sum_nonneg.
  - intros i Hi%elem_of_list_to_set. rewrite Forall_forall in Hsig. rewrite Forall_forall in Hall.
    destruct (Hsig i Hi) as (v' & Hin' & Hs). exists v'. rewrite <- Hb. auto.
Qed.

End spec.

(** ** What BLS aggregation promises

    Signatures on one message that verify one by one aggregate to one that
    verifies under the aggregate of the keys. *)
Class BlsAggregation `{!Crypto} := {
  bls_aggregation : ∀ (msg : bytes) (signed : list (bytes * bytes)),
    signed ≠ [] → Forall (λ e, bls_verify e.1 msg e.2 = true) signed →
    ∃ agg pk, bls_aggregate_sigs signed.*2 = Some agg ∧ bls_sig_valid agg = true ∧
      bls_aggregate_pks signed.*1 = Some pk ∧ bls_verify pk msg agg = true;
}.

Section live.
Context `{!Crypto} `{!BlsAggregation}.

(** A precommit that a validator of the set signed. *)
Definition valid_precommit (validators : ValidatorSet) (height : Height) (round : Round)
    (block : VoteBlock) (v : Vote) : Prop :=
  precommit_for height round block v ∧ is_Some (validators !! v_signer v) ∧ verify_signature v = Ok tt.

Lemma verify_signature_ok v :
  verify_signature v = Ok tt →
  bls_pk_valid (v_signer v) = true ∧ bls_sig_valid (v_signature v) = true ∧
  bls_verify (v_signer v) (signed_message (v_height v) (v_round v) (v_kind v) (v_block v))
    (v_signature v) = true.
Proof.
  unfold verify_signature. destruct (bls_pk_valid _); [|done]. destruct (bls_sig_valid _); [|done].
  cbn. by destruct (bls_verify _ _ _).
Qed.

Lemma collect_signers_complete validators l sigs signers power :
  Forall (λ e, is_Some (validators !! e.1) ∧ bls_sig_valid (v_signature e.2) = true) l →
  ∃ power', collect_signers validators l sigs signers power =
    Ok (sigs ++ (v_signature <$> l.*2), signers ++ l.*1, power').
Proof.
  intros Hl. revert sigs signers power.
  induction Hl as [|[i v] l [[p Hi] Hv] _ IH]; intros sigs signers power; cbn.
  { exists power. by rewrite !app_nil_r. }
  cbn in Hi, Hv. rewrite Hi, Hv. cbn.
  destruct (IH (sigs ++ [v_signature v]) (signers ++ [i]) (VotingPower_saturating_add power p))
    as [power' ->]. exists power'. by rewrite <- !app_assoc.
Qed.

Lemma aggregate_signed validators height round block (l : list (ValidatorId * Vote)) :
  l ≠ [] → Forall (λ e, v_signer e.2 = e.1 ∧ valid_precommit validators height round block e.2) l →
  ∃ agg pk, bls_aggregate (v_signature <$> l.*2) = Some agg ∧ bls_sig_valid agg = true ∧
    bls_aggregate_pks l.*1 = Some pk ∧
    bls_verify pk (signed_message height round Precommit block) agg = true.
Proof.
  intros Hne Hl.
  destruct (bls_aggregation (signed_message height round Precommit block)
    ((λ e, (e.1, v_signature e.2)) <$> l)) as (agg & pk & Ea & Hag & Epk & Hv).
  { by destruct l. }
  { apply Forall_fmap. eapply Forall_impl; [exact Hl|].
    intros [i v] [Hi ((Hk & Hh & Hr & Hb) & _ & Hv%verify_signature_ok)]. cbn in *. subst i.
    rewrite Hk, Hh, Hr, Hb in Hv. naive_solver. }
  exists agg, pk. rewrite <- list_fmap_compose in Ea, Epk.
  unfold bls_aggregate. rewrite <- list_fmap_compose. by destruct l.
Qed.

(** Valid precommits aggregate to a certificate over exactly their signers,
    which [verify] accepts if they are a quorum. *)
Lemma aggregate_complete validators height round block votes :
  powers_ok validators → votes ≠ [] →
  Forall (valid_precommit validators height round block) votes →
  ∃ qc, aggregate votes validators = Ok qc ∧
    list_to_set (qc_signers qc) = (list_to_set (v_signer <$> votes) : gset ValidatorId) ∧
    (has_quorum (qc_power qc) (total_power validators) = true → qc_verify qc validators = Some (Ok tt)).
Proof.
  intros Hp Hne Hall. destruct votes as [|v0 votes]; [done|].
  assert (Forall (precommit_for height round block) (v0 :: votes)) as Hpre
    by (eapply Forall_impl; [exact Hall|]; by intros v (? & _)).
  pose proof (Forall_inv Hpre) as (_ & Hh & Hr & Hb).
  destruct (collect_votes_complete height round block (v0 :: votes) ∅ Hpre) as (m & Em & Hm).
  destruct (collect_votes_ok _ _ _ _ _ _ Em) as [_ Hfrom].
  assert (Forall (λ e, e.2 ∈ v0 :: votes ∧ v_signer e.2 = e.1) (btree_iter m)) as Hm'.
  { apply Forall_forall. intros [i v] Hin%elem_of_btree_iter.
    destruct (Hfrom i v Hin) as [Hi|?]; [by rewrite lookup_empty in Hi|done]. }
  rewrite Forall_forall in Hall.
  destruct (collect_signers_complete validators (btree_iter m) [] [] 0) as [power Es].
  { eapply Forall_impl; [exact Hm'|]. intros [i v] [Hin Hi]. cbn in Hin, Hi. subst i.
    destruct (Hall v Hin) as (_ & Hi & Hv%verify_signature_ok). naive_solver. }
  unfold aggregate. rewrite Hh, Hr, Hb, Em, Es. cbn. fold (btree_keys m).
  assert (btree_iter m ≠ []) as Hnil.
  { intros E. assert (v_signer v0 ∈ dom m) as [v Hv]%elem_of_dom by (apply Hm; set_solver).
    apply elem_of_btree_iter in Hv. rewrite E in Hv. set_solver. }
  destruct (aggregate_signed validators height round block (btree_iter m)) as (agg & pk & Ea & Hag & Epk & Hv);
    [done| |].
  { eapply Forall_impl; [exact Hm'|]. intros [i v] [Hin Hi]. split; [done|]. by apply Hall. }
  rewrite Ea. cbn [ok_or]. eexists. split; [done|]. cbn [qc_power qc_signers]. split.
  - apply set_eq. intros i. rewrite !elem_of_list_to_set, elem_of_btree_keys, <- elem_of_dom, Hm. set_solver.
  - intros Hq. unfold qc_verify.
    cbn [qc_power qc_agg_sig qc_signers qc_height qc_round qc_block]. rewrite Hq, Hag. cbn [negb].
    rewrite (proj2 (forallb_forall _ _)); [|].
    2:{ intros i Hi%list_elem_of_In. apply list_elem_of_fmap in Hi as ([i' v] & -> & Hin).
        rewrite Forall_forall in Hm'. destruct (Hm' _ Hin) as [Hv' Hi]. cbn in *. subst i'.
        by destruct (Hall v Hv') as (_ & _ & (? & _)%verify_signature_ok). }
    unfold verify_fast_aggregate, btree_keys. rewrite Epk, Hv. by destruct (btree_iter m).
Qed.

Lemma signer_power_nonneg validators votes :
  powers_ok validators → 0 ≤ sumZ (λ v, default 0 (validators !! v_signer v)) votes.
Proof.
  intros Hp. apply sumZ_nonneg, Forall_forall. intros v _.
  destruct (validators !! v_signer v) eqn:E; cbn; [|lia]. by apply (Hp (v_signer v)).
Qed.

(** Votes for one block only form a polka for it if they are a quorum. *)
Lemma tally_same validators b votes a :
  powers_ok validators → a ≤ U64_MAX → Forall (λ v, v_block v = b ∧ is_Some (validators !! v_signer v)) votes →
  foldl (tally_step validators) {[b := a]} votes =
    {[b := Z.min U64_MAX (a + sumZ (λ v, default 0 (validators !! v_signer v)) votes)]}.
Proof.
  intros Hp Ha Hf. revert a Ha. induction Hf as [|v votes [<- [p Hv]] Hf IH]; intros a Ha.
  { cbn. rewrite sumZ_nil, Z.min_r by lia. f_equal. lia. }
  assert (0 ≤ p) by by apply (Hp (v_signer v)).
  pose proof (signer_power_nonneg validators votes Hp).
  cbn [foldl]. unfold tally_step at 2. rewrite Hv, lookup_singleton_eq, insert_singleton_eq. cbn [default].
  unfold VotingPower_saturating_add, sat_add. rewrite IH by lia. f_equal. rewrite sumZ_cons, Hv. cbn. lia.
Qed.

Lemma power_of_list_le validators l :
  powers_ok validators →
  power_of validators (list_to_set l) ≤ sumZ (λ k, default 0 (validators !! k)) l.
Proof.
  intros Hp. induction l as [|k l IH]; [by rewrite power_of_empty|]. cbn [list_to_set]. rewrite sumZ_cons.
  assert (0 ≤ default 0 (validators !! k)) by (destruct (validators !! k) eqn:E; cbn; [by apply (Hp k)|lia]).
  destruct (decide (k ∈ (list_to_set l : gset ValidatorId))).
  - rewrite (subseteq_union_1_L {[k]}) by set_solver. lia.
  - rewrite power_of_add by done. lia.
Qed.

Lemma power_of_le validators s : powers_ok validators → power_of validators s ≤ power_sum validators.
Proof.
  intros Hp%powers_ok_iter. rewrite power_sum_iter. unfold power_of.
  induction Hp as [|e l He _ IH]; [done|]. rewrite !sumZ_cons. cbn beta. case_bool_decide; lia.
Qed.

Lemma polka_same validators b votes :
  powers_ok validators → 3 * power_sum validators ≤ U64_MAX → votes ≠ [] →
  Forall (λ v, v_block v = b ∧ is_Some (validators !! v_signer v)) votes →
  2 * power_sum validators < 3 * power_of validators (list_to_set (v_signer <$> votes)) →
  polka votes validators = Some b.
Proof.
  intros Hp Hmax Hne Hf Hq. destruct votes as [|v votes]; [done|].
  pose proof (power_of_list_le validators (v_signer <$> (v :: votes)) Hp) as Hle.
  pose proof (power_of_le validators (list_to_set (v_signer <$> (v :: votes))) Hp) as Hle'.
  rewrite sumZ_fmap, sumZ_cons in Hle.
  apply Forall_cons in Hf as [[Hb [p Hv]] Hf]. rewrite Hv in Hle. unfold default, id in Hle.
  assert (0 ≤ p) by by apply (Hp (v_signer v)).
  unfold polka, tally. cbn [foldl]. unfold tally_step at 2. rewrite Hv, lookup_empty, insert_empty, Hb.
  cbn [default]. unfold VotingPower_saturating_add, sat_add. rewrite tally_same by (done || lia).
  pose proof (signer_power_nonneg validators votes Hp). set (sum := sumZ _ votes) in *. unfold btree_iter. rewrite map_to_list_singleton. cbn.
  rewrite total_power_sum by done. rewrite (Z.min_r _ (power_sum _)) by lia.
  unfold has_quorum, exceeds_two_thirds, sat_mul.
  rewrite (proj2 (Z.ltb_lt _ _)); [done|]. uint. lia.
Qed.

(** C12: enough precommits commit.  If validators with more than two thirds of
    the power have validly precommitted the proposal and the height is free in
    the log, [commit] returns the finalized block, whatever repetitions the
    list of votes has. *)
Theorem commit_complete validators reachable proposal log height round votes :
  powers_ok validators → 3 * power_sum validators ≤ U64_MAX →
  halt_no_quorum reachable (total_power validators) = false →
  Forall (valid_precommit validators height round (VBlock (header_hash (p_header proposal)))) votes →
  2 * power_sum validators < 3 * power_of validators (list_to_set (v_signer <$> votes)) →
  default (header_hash (p_header proposal)) (log !! p_height proposal) = header_hash (p_header proposal) →
  ∃ log' f, commit votes validators reachable proposal log = Some (log', Ok (Some f)) ∧
    fin_height f = p_height proposal ∧ fin_app_hash f = p_app_hash proposal ∧
    fin_block_hash f = header_hash (p_header proposal) ∧
    log' !! p_height proposal = Some (fin_block_hash f).
Proof.
  intros Hp Hmax Hhalt Hall Hq Hlog.
  assert (votes ≠ []) as Hne.
  { intros ->. cbn in Hq. rewrite power_of_empty in Hq.
    pose proof (map_sum_nonneg id validators Hp). rewrite power_sum_map in Hq. lia. }
  destruct (aggregate_complete validators _ _ _ votes Hp Hne Hall) as (qc & Eq & Hs & Hv).
  assert (qc_verify qc validators = Some (Ok tt)) as Ev.
  { apply Hv. destruct (aggregate_ok _ _ _ Hp Eq) as (_ & _ & _ & ->). rewrite Hs, total_power_sum by done.
    pose proof (power_of_le validators (list_to_set (v_signer <$> votes)) Hp).
    pose proof (power_of_nonneg validators (list_to_set (v_signer <$> votes)) Hp).
    rewrite !Z.min_r by lia. apply has_quorum_complete; lia. }
  unfold commit. rewrite Hhalt.
  rewrite (polka_same validators (VBlock (header_hash (p_header proposal)))); [|done..| |done].
  2:{ eapply Forall_impl; [exact Hall|]. intros v ((_ & _ & _ & Hb) & Hi & _). done. }
  rewrite bool_decide_false by tauto. rewrite Eq, Ev. unfold record. cbn [fin_height fin_block_hash].
  destruct (log !! p_height proposal) as [prev|] eqn:El.
  - cbn in Hlog. subst prev. rewrite bool_decide_false by tauto. by eexists _, _.
  - eexists _, _. split; [done|]. cbn. by rewrite lookup_insert_eq.
Qed.

End live.

Section agree.
Context `{!Crypto}.

(** C11: accountable safety.  If two commits on votes of one height and round
    finalize different blocks, then validators with more than a third of the
    power each appear with two precommits of that slot for different blocks:
    exactly what [submit_evidence] punishes. *)
Theorem conflicting_commits_equivocate validators height round votes1 votes2 reachable1 reachable2
    proposal1 proposal2 log1 log2 log1' log2' f1 f2 :
  powers_ok validators →
  Forall (λ v, v_height v = height ∧ v_round v = round) (votes1 ++ votes2) →
  commit votes1 validators reachable1 proposal1 log1 = Some (log1', Ok (Some f1)) →
  commit votes2 validators reachable2 proposal2 log2 = Some (log2', Ok (Some f2)) →
  fin_block_hash f1 ≠ fin_block_hash f2 →
  ∃ s : gset ValidatorId, power_sum validators < 3 * power_of validators s ∧
    ∀ i, i ∈ s → ∃ v1 v2, v1 ∈ votes1 ∧ v2 ∈ votes2 ∧ v_signer v1 = i ∧
      same_slot v1 v2 ∧ v_kind v1 = Precommit ∧ v_block v1 ≠ v_block v2.
Proof.
  intros Hp Hslot E1 E2 Hne.
  apply commit_ok in E1 as (_ & _ & qc1 & _ & _ & [Hq1 Hs1] & _); [|done].
  apply commit_ok in E2 as (_ & _ & qc2 & _ & _ & [Hq2 Hs2] & _); [|done].
  exists (list_to_set (qc_signers qc1) ∩ list_to_set (qc_signers qc2)).
  split; [by apply quorum_intersection|].
  intros i [Hi1 Hi2]%elem_of_intersection.
  destruct (Hs1 i Hi1) as (v1 & Hin1 & Hv1 & Hk1 & _ & _ & Hb1).
  destruct (Hs2 i Hi2) as (v2 & Hin2 & Hv2 & Hk2 & _ & _ & Hb2).
  apply Forall_app in Hslot as [Hf1 Hf2]. rewrite Forall_forall in Hf1. rewrite Forall_forall in Hf2.
  destruct (Hf1 v1 Hin1), (Hf2 v2 Hin2).
  exists v1, v2. split; [done|]. split; [done|]. split; [done|].
  split; [split; [congruence|split; [congruence|split; congruence]]|]. split; [done|]. congruence.
Qed.

(** A node's commits over time, on one log. *)
Record CommitInput := {
  ci_precommits : list Vote;
  ci_validators : ValidatorSet;
  ci_reachable : VotingPower;
  ci_proposal : Proposal;
}.

Fixpoint commit_run (log : CommitLog) (l : list CommitInput) :
    option (CommitLog * list (result (option Finalized) CommitError)) :=
  match l with
  | [] => Some (log, [])
  | c :: l =>
      match commit (ci_precommits c) (ci_validators c) (ci_reachable c) (ci_proposal c) log with
      | None => None
      | Some (log, r) =>
          match commit_run log l with
          | None => None
          | Some (log, rs) => Some (log, r :: rs)
          end
      end
  end.

Lemma record_spec log f log' r :
  record log f = (log', r) →
  log ⊆ log' ∧ (r = Ok tt → log' !! fin_height f = Some (fin_block_hash f)).
Proof.
  unfold record. destruct (log !! fin_height f) as [prev|] eqn:E.
  - case_bool_decide; intros [= <- <-]; (split; [done|]); [done|]. intros _. naive_solver.
  - intros [= <- <-]. split; [by apply insert_subseteq|]. intros _. by rewrite lookup_insert_eq.
Qed.

Lemma commit_log_step precommits validators reachable proposal log log' r :
  commit precommits validators reachable proposal log = Some (log', r) →
  log ⊆ log' ∧ ∀ f, r = Ok (Some f) → log' !! fin_height f = Some (fin_block_hash f).
Proof.
  unfold commit. intros E.
  destruct (halt_no_quorum _ _); [by simplify_eq|].
  destruct (polka _ _) as [[|h]|]; [by simplify_eq| |by simplify_eq].
  case_bool_decide; [by simplify_eq|]. destruct (aggregate _ _) as [qc|]; [|by simplify_eq].
  destruct (qc_verify _ _) as [[|]|]; [|by simplify_eq|done].
  destruct (record log _) as [log1 [[]|]] eqn:Er; simplify_eq;
    destruct (record_spec _ _ _ _ Er) as [Hsub Hok]; (split; [done|]); intros f [= <-].
  by apply Hok.
Qed.

Lemma commit_run_log log l log' rs :
  commit_run log l = Some (log', rs) →
  log ⊆ log' ∧ ∀ f, Ok (Some f) ∈ rs → log' !! fin_height f = Some (fin_block_hash f).
Proof.
  revert log log' rs. induction l as [|c l IH]; intros log log' rs E; cbn in E.
  { simplify_eq. split; [done|]. intros f Hf. by apply elem_of_nil in Hf. }
  destruct (commit _ _ _ _ log) as [[log1 r]|] eqn:Ec; [|done].
  destruct (commit_run log1 l) as [[log2 rs1]|] eqn:Er; [|done]. simplify_eq.
  destruct (commit_log_step _ _ _ _ _ _ _ Ec) as [Hsub Hf]. destruct (IH _ _ _ Er) as [Hsub' Hf'].
  split; [by transitivity log1|]. intros f [Ef|Hin]%elem_of_cons; [|by apply Hf'].
  apply (lookup_weaken log1); [by apply Hf|done].
Qed.

(** A node never finalizes two blocks at one height.  In any sequence of
    [commit] calls on its log, whatever votes, validator sets and proposals
    they are given, all finalized blocks of one height have one hash. *)
Theorem commit_log_no_two_commits log l log' rs f1 f2 :
  commit_run log l = Some (log', rs) → Ok (Some f1) ∈ rs → Ok (Some f2) ∈ rs →
  fin_height f1 = fin_height f2 → fin_block_hash f1 = fin_block_hash f2.
Proof.
  intros E H1 H2 Hh. destruct (commit_run_log _ _ _ _ E) as [_ Hf].
  apply Hf in H1. apply Hf in H2. congruence.
Qed.

End agree.

(** ** Witnesses: three validators with power 2, 2 and 1 *)

#[local] Existing Instances toy_crypto.

Definition val_a : ValidatorId := replicate 48 1.
Definition val_b : ValidatorId := replicate 48 2.
Definition val_c : ValidatorId := replicate 48 3.
Definition toy_set : ValidatorSet := <[val_a := 2]> (<[val_b := 2]> {[val_c := 1]}).

Definition toy_header (round : Round) : Header :=
  {| h_fields := {| hf_height := 4; hf_round := round; hf_proposer := val_a; hf_timestamp_ms := 9 |};
     h_tx_root := Hash_ZERO; h_state_root := Hash_ZERO; h_receipts_root := Hash_ZERO;
     h_validators_hash := Hash_ZERO; h_da_root := Hash_ZERO |}.

Definition toy_proposal (round : Round) : Proposal :=
  {| p_height := 4; p_round := 0; p_header := toy_header round; p_app_hash := Hash_ZERO;
     p_proposer := val_a; p_vrf_source := val_a; p_vrf_proof := []; p_signature := [] |}.

Definition toy_precommit (round : Round) (i : ValidatorId) : Vote :=
  precommit (λ _, [1]) i 4 0 (toy_header round).

(** The first two validators precommit one block, the first and the last
    with the second another. *)
Definition votes_x : list Vote := [toy_precommit 0 val_a; toy_precommit 0 val_b].
Definition votes_y : list Vote := [toy_precommit 1 val_a; toy_precommit 1 val_c; toy_precommit 1 val_b].

#[local] Instance toy_aggregation : BlsAggregation.
Proof. split. intros msg signed _ _. by exists [1], [2]. Qed.

Lemma toy_powers : powers_ok toy_set.
Proof. do 2 (apply map_Forall_insert_2; [lia|]). apply map_Forall_singleton. lia. Qed.

Definition toy_fin (round : Round) : Finalized :=
  {| fin_height := 4; fin_round := 0; fin_block_hash := header_hash (toy_header round);
     fin_app_hash := Hash_ZERO |}.

Lemma commit_complete_witness :
  ∃ log' f, commit votes_x toy_set 5 (toy_proposal 0) ∅ = Some (log', Ok (Some f)) ∧
    fin_height f = 4 ∧ fin_app_hash f = Hash_ZERO ∧ fin_block_hash f = header_hash (toy_header 0) ∧
    log' !! 4 = Some (fin_block_hash f).
Proof.
  apply (commit_complete toy_set 5 (toy_proposal 0) ∅ 4 0 votes_x).
  - apply toy_powers.
  - by_eval.
  - vm_compute. reflexivity.
  - repeat constructor; vm_compute; eauto.
  - by_eval.
  - reflexivity.
Defined.

Lemma conflicting_commits_equivocate_witness :
  ∃ s : gset ValidatorId, power_sum toy_set < 3 * power_of toy_set s ∧
    ∀ i, i ∈ s → ∃ v1 v2, v1 ∈ votes_x ∧ v2 ∈ votes_y ∧ v_signer v1 = i ∧
      same_slot v1 v2 ∧ v_kind v1 = Precommit ∧ v_block v1 ≠ v_block v2.
Proof.
  apply (conflicting_commits_equivocate toy_set 4 0 votes_x votes_y 5 5 (toy_proposal 0) (toy_proposal 1)
    ∅ ∅ {[4 := fin_block_hash (toy_fin 0)]} {[4 := fin_block_hash (toy_fin 1)]} (toy_fin 0) (toy_fin 1)).
  - apply toy_powers.
  - repeat constructor.
  - vm_compute. reflexivity.
  - vm_compute. reflexivity.
  - by_eval.
Defined.

Definition toy_inputs : list CommitInput :=
  [{| ci_precommits := votes_x; ci_validators := toy_set; ci_reachable := 5; ci_proposal := toy_proposal 0 |};
   {| ci_precommits := votes_y; ci_validators := toy_set; ci_reachable := 5; ci_proposal := toy_proposal 1 |};
   {| ci_precommits := votes_x; ci_validators := toy_set; ci_reachable := 5; ci_proposal := toy_proposal 0 |}].

Lemma commit_log_no_two_commits_witness : fin_block_hash (toy_fin 0) = fin_block_hash (toy_fin 0).
Proof.
  apply (commit_log_no_two_commits ∅ toy_inputs {[4 := fin_block_hash (toy_fin 0)]}
    [Ok (Some (toy_fin 0)); Err (CSafety (TwoCommits 4)); Ok (Some (toy_fin 0))] (toy_fin 0) (toy_fin 0)).
  - vm_compute. reflexivity.
  - apply list_elem_of_here.
  - apply list_elem_of_further, list_elem_of_further, list_elem_of_here.
  - reflexivity.
Defined.
