(* ===== verification/Da.v ===== *)
(** Data availability: [da/src/{rs,chunk,root,das}.rs].

    A block body is cut into four data shards, extended by two parity shards,
    and committed to by a Merkle root over the shards (and a KZG commitment);
    light nodes ask for three of the six shards.  The Reed-Solomon code is the
    third-party crate reed-solomon-erasure: [ReedSolomon] lists the two calls
    and [ReedSolomonLaws] what its documentation promises.

    Shown: a block is recovered from any four of its six shards
    ([da_any_four]); a chunk that is accepted for the root of a block is one
    of its shards ([da_chunk_sound]); and since the sampled indices are a
    function of the root, three shards that everyone can predict are enough to
    pass every sampling while the block cannot be recovered
    ([das_withholding_passes]). *)

From S2P Require Import Prelude Types Codec Crypto Vrf Merkle StoreCodec Kzg.
From Stdlib Require Import String.
From stdpp Require Import list sorting.

#[local] Open Scope Z_scope.
#[local] Open Scope l1_scope.

(** ** The erasure code *)

Class ReedSolomon := {
  (** [ReedSolomon::new(k, m)] succeeds. *)
  rs_new : nat → nat → bool;
  (** [encode]: fills in the parity shards, the last [m]. *)
  rs_code : nat → nat → list bytes → option (list bytes);
  (** [reconstruct]: fills in the missing shards. *)
  rs_reconstruct : nat → nat → list (option bytes) → option (list (option bytes));
}.

(** Shards of one non-zero length. *)
Definition equal_shards (n : nat) (l : list bytes) : Prop := (0 < n)%nat ∧ Forall (λ s, length s = n) l.

Class ReedSolomonLaws `{ReedSolomon} := {
  rs_new_ok : ∀ k m, (0 < k)%nat → (0 < m)%nat → (k + m ≤ 256)%nat → rs_new k m = true;
  rs_code_ok : ∀ k m n shards,
    (0 < k)%nat → (0 < m)%nat → (k + m ≤ 256)%nat → length shards = (k + m)%nat → equal_shards n shards →
    ∃ out, rs_code k m shards = Some out ∧ length out = (k + m)%nat ∧
      take k out = take k shards ∧ equal_shards n out;
  rs_reconstruct_ok : ∀ k m n shards out slots,
    (0 < k)%nat → (0 < m)%nat → (k + m ≤ 256)%nat → length shards = (k + m)%nat → equal_shards n shards →
    rs_code k m shards = Some out →
    Forall2 (λ slot s, slot = None ∨ slot = Some s) slots out →
    (k ≤ length (omap id slots))%nat → rs_reconstruct k m slots = Some (Some <$> out);
  rs_reconstruct_few : ∀ k m slots,
    (length (omap id slots) < k)%nat → rs_reconstruct k m slots = None;
}.

(** ** [rs.rs] *)

Inductive RsError : Type := RsParams | RsReconstruct.

Definition pad_len (data_len k : nat) : nat :=
  let body := (8 + data_len)%nat in
  let rem := (body mod k)%nat in
  if (rem =? 0)%nat then body else (body + (k - rem))%nat.

(** [collect::<Result<_, _>>()]. *)
Fixpoint collect_some (l : list (option bytes)) : option (list bytes) :=
  match l with
  | [] => Some []
  | None :: _ => None
  | Some s :: l => match collect_some l with None => None | Some r => Some (s :: r) end
  end.

Section rs.
Context `{!ReedSolomon}.

Definition rs_encode (data : bytes) (k m : nat) : result (list bytes) RsError :=
  if (k =? 0)%nat || (m =? 0)%nat then Err RsParams
  else
    let total := pad_len (length data) k in
    let shard_len := (total / k)%nat in
    let buf := be_bytes 8 (len data) ++ data ++ replicate (total - (8 + length data)) 0 in
    let shards := ((λ i, slice (i * shard_len) ((i + 1) * shard_len) buf) <$> seq 0 k) ++
                  replicate m (replicate shard_len 0) in
    if negb (rs_new k m) then Err RsParams
    else ok_or (rs_code k m shards) RsReconstruct.

Definition rs_decode (shards : list (option bytes)) (k m : nat) : result bytes RsError :=
  if (k =? 0)%nat || (m =? 0)%nat then Err RsParams
  else if negb (rs_new k m) then Err RsParams
  else
    let? working := ok_or (rs_reconstruct k m shards) RsReconstruct in
    let? present := ok_or (collect_some (take k working)) RsReconstruct in
    let buf := concat present in
    if (length buf <? 8)%nat then Err RsReconstruct
    else
      let n := of_be (slice 0 8 buf) in
      let rest := drop 8 buf in
      if n >? len rest then Err RsReconstruct
      else Ok (take (Z.to_nat n) rest).

(** ** [chunk.rs] *)

Definition DATA_SHARDS : nat := 4.
Definition PARITY_SHARDS : nat := 2.

Record DaShard := { ds_index : Z; ds_payload : bytes }.

Inductive ChunkError : Type := ChRs (e : RsError) | ChBadBody | ChWidth (expected got : nat).

Definition as_u16 (n : Z) : Z := n mod 65536.
Definition u16 (n : Z) : Prop := 0 ≤ n < 65536.

(** [None] is the panic of [encode_block_body]. *)
Definition split (block : Block) : option (result (list DaShard) ChunkError) :=
  match encode_block_body block with
  | None => None
  | Some body =>
      Some (let? shards := map_err ChRs (rs_encode body DATA_SHARDS PARITY_SHARDS) in
            Ok (imap (λ i payload, {| ds_index := as_u16 (Z.of_nat i); ds_payload := payload |}) shards))
  end.

Definition reconstruct (slots : list (option bytes)) : result Block ChunkError :=
  let n := (DATA_SHARDS + PARITY_SHARDS)%nat in
  if negb (length slots =? n)%nat then Err (ChWidth n (length slots))
  else
    let? b := map_err ChRs (rs_decode slots DATA_SHARDS PARITY_SHARDS) in
    map_err (λ _, ChBadBody) (decode_block_body b).

Definition leaf_bytes (shard : DaShard) : bytes := be_bytes 2 (ds_index shard) ++ ds_payload shard.

(** ** [root.rs] *)

Definition KZG_SRS_DEGREE : nat := 16.
Definition KZG_SRS_SEED : bytes := ascii_bytes "l1-da-kzg-toy-srs"%string.

Record DaRoot := { dr_merkle : Hash; dr_kzg : KzgCommitment; dr_data_shards : nat; dr_parity_shards : nat }.
Record ProvenChunk := { pc_shard : DaShard; pc_proof : MerkleProof }.

Inductive RootError : Type := RtChunk (e : ChunkError) | RtKzg (e : KzgError) | RtProof.

Context `{!Crypto} `{!PairingCurve}.

Definition chunk_hash_fr (leaf : bytes) : Z := fr_from_le (hash_to_array leaf).

(** [for (i, shard) in shards.into_iter().enumerate()]. *)
Fixpoint prove_all (leaf_set : list bytes) (i : nat) (shards : list DaShard) : result (list ProvenChunk) RootError :=
  match shards with
  | [] => Ok []
  | shard :: shards =>
      let? proof := ok_or (prove leaf_set i) RtProof in
      let? rest := prove_all leaf_set (S i) shards in
      Ok ({| pc_shard := shard; pc_proof := proof |} :: rest)
  end.

Definition da_commit (block : Block) : option (result (DaRoot * list ProvenChunk) RootError) :=
  match split block with
  | None => None
  | Some s =>
      Some (let? shards := map_err RtChunk s in
            let leaf_set := leaf_bytes <$> shards in
            let merkle := compute_root leaf_set in
            let coeffs := chunk_hash_fr <$> leaf_set in
            let? srs := map_err RtKzg (kzg_setup KZG_SRS_DEGREE KZG_SRS_SEED) in
            let? kzg := map_err RtKzg (kzg_commit srs coeffs) in
            let? proven := prove_all leaf_set 0 shards in
            Ok ({| dr_merkle := merkle; dr_kzg := kzg; dr_data_shards := DATA_SHARDS;
                   dr_parity_shards := PARITY_SHARDS |}, proven))
  end.

Definition verify_chunk (root : DaRoot) (proven : ProvenChunk) : bool :=
  verify (leaf_bytes (pc_shard proven)) (pc_proof proven) (dr_merkle root).

(** ** [das.rs] *)

Definition SAMPLE_COUNT : nat := 3.

(** [ChunkFetch]. *)
Abbreviation ChunkFetch := (Z → option ProvenChunk).

Record SampleReport := { sr_successes : nat; sr_queried : list Z; sr_required : nat }.

Inductive Availability : Type := Available | NotAvailable.

(** [l.swap(i, j)]; out of range panics, which the loop excludes. *)
Definition swap (i j : nat) (l : list Z) : list Z :=
  match l !! i, l !! j with
  | Some x, Some y => <[j := x]> (<[i := y]> l)
  | _, _ => l
  end.

Definition rotate_left64 (x n : Z) : Z := Z.lor (Z.shiftl x n mod 2 ^ 64) (Z.shiftr x (64 - n)).

(** [for i in (1..idx.len()).rev()], with [i] counting down. *)
Fixpoint shuffle_loop (i : nat) (s0 s1 : Z) (idx : list Z) : list Z :=
  match i with
  | O => idx
  | S i' =>
      let s0 := (s0 * 11400714819323198485 + s1) mod 2 ^ 64 in
      let s1 := Z.lxor (rotate_left64 s1 7) s0 in
      let j := Z.to_nat (s0 mod Z.of_nat (i + 1)) in
      shuffle_loop i' s0 s1 (swap i j idx)
  end.

Definition shuffle_indices (n : nat) (seed : bytes) : list Z :=
  let idx := Z.of_nat <$> seq 0 n in
  let s0 := of_le (slice 0 8 seed) in
  let s1 := of_le (slice 8 16 seed) in
  let s0 := if (s0 =? 0) && (s1 =? 0) then 1 else s0 in
  shuffle_loop (n - 1) s0 s1 idx.

Definition sample_indices (root : DaRoot) : list Z :=
  let n := (dr_data_shards root + dr_parity_shards root)%nat in
  let idx := shuffle_indices n (dr_merkle root) in
  merge_sort Z.le (take (min SAMPLE_COUNT n) idx).

Definition sample_ok (root : DaRoot) (fetch : ChunkFetch) (i : Z) : bool :=
  match fetch i with
  | Some chunk => (ds_index (pc_shard chunk) =? i) && verify_chunk root chunk
  | None => false
  end.

Definition sample (root : DaRoot) (fetch : ChunkFetch) : SampleReport :=
  let queried := sample_indices root in
  {| sr_successes := length (List.filter (sample_ok root fetch) queried);
     sr_queried := queried; sr_required := SAMPLE_COUNT |}.

Definition fail_closed (report : SampleReport) : Availability :=
  if (sr_required report <=? sr_successes report)%nat then Available else NotAvailable.

(** [MemoryChunks]. *)
Definition from_proven (chunks : list ProvenChunk) : list (option ProvenChunk) :=
  let n := (DATA_SHARDS + PARITY_SHARDS)%nat in
  foldl (λ inner c, let i := Z.to_nat (ds_index (pc_shard c)) in
           if (i <? n)%nat then <[i := Some c]> inner else inner) (replicate n None) chunks.

Definition withhold (inner : list (option ProvenChunk)) (indices : list Z) : list (option ProvenChunk) :=
  foldl (λ inner i, <[Z.to_nat i := None]> inner) inner indices.

Definition tamper (inner : list (option ProvenChunk)) (index : Z) : list (option ProvenChunk) :=
  match inner !! Z.to_nat index with
  | Some (Some c) =>
      match ds_payload (pc_shard c) with
      | [] => inner
      | b :: rest =>
          <[Z.to_nat index := Some {| pc_shard := {| ds_index := ds_index (pc_shard c);
                                                     ds_payload := Z.lxor b 90 :: rest |};
                                      pc_proof := pc_proof c |}]> inner
      end
  | _ => inner
  end.

Definition memory_fetch (inner : list (option ProvenChunk)) : ChunkFetch :=
  λ index, match inner !! Z.to_nat index with Some (Some c) => Some c | _ => None end.

(** ** Shards *)

Lemma pad_len_spec d k : (0 < k)%nat → ∃ q, pad_len d k = (q * k)%nat ∧ (8 + d ≤ q * k)%nat ∧ (0 < q)%nat.
Proof.
  intros Hk. unfold pad_len. set (b := (8 + d)%nat).
  pose proof (Nat.div_mod_eq b k) as Hb. pose proof (Nat.mod_upper_bound b k).
  destruct (Nat.eqb_spec (b mod k) 0) as [E|E].
  - exists (b / k)%nat. rewrite E in Hb. unfold b in *. nia.
  - exists (b / k + 1)%nat. unfold b in *. nia.
Qed.

Lemma concat_slices (buf : bytes) n k :
  (k * n ≤ length buf)%nat →
  concat ((λ i, slice (i * n) ((i + 1) * n) buf) <$> seq 0 k) = take (k * n) buf.
Proof.
  intros Hl. induction k as [|k IH]; [done|]. rewrite seq_S, fmap_app, concat_app, IH by lia.
  cbn [fmap list_fmap concat]. rewrite app_nil_r. cbn [Nat.add]. unfold slice.
  replace ((k + 1) * n - k * n)%nat with n by lia.
  replace (S k * n)%nat with (k * n + n)%nat by lia. apply take_take_drop.
Qed.

Lemma collect_some_fmap (l : list bytes) : collect_some (Some <$> l) = Some l.
Proof. induction l as [|s l IH]; [done|]. cbn. by rewrite IH. Qed.

Context `{!ReedSolomonLaws}.

(** What [encode] makes, and that any [k] shards give the data back. *)
Lemma rs_roundtrip data k m :
  (0 < k)%nat → (0 < m)%nat → (k + m ≤ 256)%nat → len data ≤ U64_MAX →
  ∃ out, rs_encode data k m = Ok out ∧ length out = (k + m)%nat ∧
    ∀ slots, Forall2 (λ slot s, slot = None ∨ slot = Some s) slots out →
      (k ≤ length (omap id slots))%nat → rs_decode slots k m = Ok data.
Proof.
  intros Hk Hm Hkm Hd. destruct (pad_len_spec (length data) k Hk) as (q & Ep & Hq & Hq0).
  unfold rs_encode, rs_decode. rewrite !(proj2 (Nat.eqb_neq _ 0)) by lia. cbn [orb].
  rewrite Ep, Nat.div_mul, rs_new_ok by lia. cbn [negb].
  set (buf := be_bytes 8 (len data) ++ data ++ replicate (q * k - (8 + length data)) 0).
  assert (length buf = (q * k)%nat) as Hbuf by (subst buf; rewrite !length_app, length_be_bytes, length_replicate; lia).
  set (shards := ((λ i, slice (i * q) ((i + 1) * q) buf) <$> seq 0 k) ++ replicate m (replicate q 0)).
  assert (length shards = (k + m)%nat) as Hlen
    by (subst shards; by rewrite length_app, length_fmap, length_seq, length_replicate).
  assert (equal_shards q shards) as Heq.
  { split; [done|]. apply Forall_app. split; [|apply Forall_replicate, length_replicate].
    apply Forall_fmap, Forall_forall. intros i Hi%elem_of_seq. cbn. rewrite length_slice; nia. }
  destruct (rs_code_ok k m q shards Hk Hm Hkm Hlen Heq) as (out & Eo & Hout & Htake & _).
  exists out. rewrite Eo. split; [done|]. split; [done|]. intros slots Hs Hmany.
  rewrite (rs_reconstruct_ok k m q shards out slots Hk Hm Hkm Hlen Heq Eo Hs Hmany). cbn [ok_or].
  rewrite <- fmap_take, collect_some_fmap, Htake. cbn [ok_or].
  assert (take k shards = (λ i, slice (i * q) ((i + 1) * q) buf) <$> seq 0 k) as ->.
  { subst shards. apply take_app_length'. by rewrite length_fmap, length_seq. }
  rewrite concat_slices, take_ge by lia. rewrite (proj2 (Nat.ltb_ge _ 8)) by lia.
  assert (of_be (slice 0 8 buf) = len data) as ->.
  { subst buf. rewrite slice_head by (by rewrite length_be_bytes). apply of_be_be_bytes. ulia. }
  assert (drop 8 buf = data ++ replicate (q * k - (8 + length data)) 0) as ->
    by (subst buf; by rewrite drop_app_length' by (by rewrite length_be_bytes)).
  rewrite Z.gtb_ltb, (proj2 (Z.ltb_ge _ _)) by (rewrite length_app; lia).
  by rewrite Nat2Z.id, take_app_length.
Qed.

(** The slots that hold some of the shards of a block. *)
Definition slots_of (slots : list (option bytes)) (shards : list DaShard) : Prop :=
  Forall2 (λ slot s, slot = None ∨ slot = Some (ds_payload s)) slots shards.

Lemma split_ok block body :
  block_wf block → encode_block_body block = Some body → len body ≤ U32_MAX →
  ∃ shards, split block = Some (Ok shards) ∧ length shards = 6%nat ∧
    (∀ i s, shards !! i = Some s → ds_index s = Z.of_nat i) ∧
    ∀ slots, slots_of slots shards → (4 ≤ length (omap id slots))%nat → reconstruct slots = Ok block.
Proof.
  intros Hw He Hl. unfold split. rewrite He.
  destruct (rs_roundtrip body DATA_SHARDS PARITY_SHARDS) as (out & -> & Hout & Hdec);
    [unfold DATA_SHARDS, PARITY_SHARDS; lia..|uint; lia|]. cbn [map_err].
  eexists. split; [done|]. change (DATA_SHARDS + PARITY_SHARDS)%nat with 6%nat in *.
  split; [by rewrite length_imap|]. split.
  - intros i s Hs. rewrite list_lookup_imap in Hs. destruct (out !! i) as [p|] eqn:Ei; [|done]. cbn in Hs.
    injection Hs as <-. cbn. apply lookup_lt_Some in Ei. unfold as_u16. rewrite Z.mod_small; lia.
  - intros slots Hs Hmany. unfold reconstruct. change (DATA_SHARDS + PARITY_SHARDS)%nat with 6%nat.
    pose proof (Forall2_length _ _ _ Hs) as Hlen. rewrite length_imap, Hout in Hlen. rewrite Hlen.
    cbn [Nat.eqb negb]. rewrite Hdec; [|..|done].
    + cbn [map_err]. by rewrite (body_decode block body).
    + apply Forall2_same_length_lookup_2; [congruence|]. intros i slot s E1 E2.
      apply (Forall2_lookup_lr _ _ _ i slot {| ds_index := as_u16 (Z.of_nat i); ds_payload := s |} Hs E1).
      by rewrite list_lookup_imap, E2.
Qed.

(** ** Theorems *)

(** C25: any four of the six shards are enough.  A well-formed block whose body
    fits is split without error into six shards, and [reconstruct] returns
    the block from every selection of at least four of them, data or parity. *)
Theorem da_any_four block body :
  block_wf block → encode_block_body block = Some body → len body ≤ U32_MAX →
  ∃ shards, split block = Some (Ok shards) ∧ length shards = 6%nat ∧
    ∀ slots, slots_of slots shards → (4 ≤ length (omap id slots))%nat → reconstruct slots = Ok block.
Proof.
  intros Hw He Hl. destruct (split_ok block body Hw He Hl) as (shards & E & Hn & _ & Hr). by exists shards.
Qed.

Context `{!CryptoLaws} `{!PairingLaws}.

Lemma prove_all_ok leaf_set shards i :
  (i + length shards = length leaf_set)%nat →
  ∃ ps, prove_all leaf_set i shards = Ok ps ∧ pc_shard <$> ps = shards ∧
    ∀ j p, ps !! j = Some p → prove leaf_set (i + j) = Some (pc_proof p).
Proof.
  revert i. induction shards as [|s shards IH]; intros i Hi; cbn in *; [by exists []|].
  destruct (lookup_lt_is_Some_2 leaf_set i) as [leaf El]; [lia|].
  destruct (prove_complete leaf_set i leaf El) as (p & Ep & _). rewrite Ep. cbn [ok_or].
  destruct (IH (S i)) as (ps & -> & Hs & Hp); [lia|].
  eexists. split; [done|]. split; [cbn; by rewrite Hs|]. intros [|j] q Hq; cbn in Hq.
  - injection Hq as <-. by rewrite Nat.add_0_r.
  - rewrite Nat.add_succ_r. by apply Hp.
Qed.

(** The commitment: it succeeds, and every chunk carries a valid proof. *)
Lemma da_commit_ok block shards :
  split block = Some (Ok shards) → length shards = 6%nat →
  ∃ root chunks, da_commit block = Some (Ok (root, chunks)) ∧ pc_shard <$> chunks = shards ∧
    dr_merkle root = compute_root (leaf_bytes <$> shards) ∧ dr_data_shards root = DATA_SHARDS ∧
    dr_parity_shards root = PARITY_SHARDS ∧ Forall (λ c, verify_chunk root c = true) chunks.
Proof.
  intros Es Hn. unfold da_commit. rewrite Es. cbn [map_err].
  assert (∃ srs, kzg_setup KZG_SRS_DEGREE KZG_SRS_SEED = Ok srs) as [srs Esrs] by by eexists.
  rewrite Esrs. cbn [map_err].
  destruct (kzg_commit_ok _ _ _ (chunk_hash_fr <$> (leaf_bytes <$> shards)) Esrs) as (e & -> & _).
  { rewrite !length_fmap, Hn. unfold KZG_SRS_DEGREE. lia. }
  cbn [map_err]. destruct (prove_all_ok (leaf_bytes <$> shards) shards 0) as (ps & -> & Hps & Hpr).
  { by rewrite length_fmap. }
  eexists _, _. split; [done|]. do 4 (split; [done|]). apply Forall_lookup. intros i c Hc.
  specialize (Hpr i c Hc). cbn [Nat.add] in Hpr.
  assert (shards !! i = Some (pc_shard c)) as Hi by (by rewrite <- Hps, list_lookup_fmap, Hc).
  destruct (prove_complete (leaf_bytes <$> shards) i (leaf_bytes (pc_shard c))) as (p & Ep & _ & Hv).
  { by rewrite list_lookup_fmap, Hi. }
  unfold verify_chunk. cbn. rewrite Ep in Hpr. injection Hpr as <-. exact Hv.
Qed.

Lemma leaf_bytes_inj s s' :
  u16 (ds_index s) → u16 (ds_index s') → leaf_bytes s = leaf_bytes s' → s = s'.
Proof.
  intros Hs Hs' E. unfold leaf_bytes in E. apply app_inj_1 in E as [Ei Ep]; [|by rewrite !length_be_bytes].
  apply be_bytes_inj in Ei; [|done..]. destruct s, s'. cbn in *. congruence.
Qed.

(** What the DA root binds.  The chunks published for a block are its
    six shards and all pass [verify_chunk]; and any chunk that passes it, with
    whatever index, payload and proof, is one of these six shards, unless the
    hash collides on an input of the tree and one of the check. *)
Theorem da_chunk_sound block body :
  block_wf block → encode_block_body block = Some body → len body ≤ U32_MAX →
  ∃ shards root chunks, split block = Some (Ok shards) ∧
    da_commit block = Some (Ok (root, chunks)) ∧ pc_shard <$> chunks = shards ∧
    Forall (λ c, verify_chunk root c = true) chunks ∧
    ∀ c, u16 (ds_index (pc_shard c)) → digests (siblings (pc_proof c)) → verify_chunk root c = true →
      pc_shard c ∈ shards ∨
      collides (tree_inputs (leaf_bytes <$> shards)) (proof_inputs (leaf_bytes (pc_shard c)) (pc_proof c)).
Proof.
  intros Hw He Hl. destruct (split_ok block body Hw He Hl) as (shards & E & Hn & Hidx & _).
  destruct (da_commit_ok block shards E Hn) as (root & chunks & Ec & Hs & Hr & _ & _ & Hv).
  exists shards, root, chunks. do 4 (split; [done|]). intros c Hc Hd Hver. unfold verify_chunk in Hver.
  rewrite Hr in Hver. apply verify_sound in Hver as [Hin|Hcol]; [|by right| |done].
  - left. apply list_elem_of_fmap in Hin as (s & Hleaf & Hin).
    apply leaf_bytes_inj in Hleaf as ->; [done|done|].
    apply list_elem_of_lookup in Hin as [i Hi]. rewrite (Hidx i s Hi). apply lookup_lt_Some in Hi. unfold u16. lia.
  - intros E0. apply (f_equal length) in E0. by rewrite length_fmap, Hn in E0.
Qed.

(** ** Sampling *)

Lemma shuffle_loop_perm i s0 s1 idx : (i < length idx)%nat → shuffle_loop i s0 s1 idx ≡ₚ idx.
Proof.
  revert s0 s1 idx. induction i as [|i IH]; intros s0 s1 idx Hi; [done|]. cbn [shuffle_loop]. cbv zeta.
  set (t0 := (s0 * _ + s1) mod 2 ^ 64).
  assert (Z.to_nat (t0 mod Z.of_nat (S i + 1)) < length idx)%nat as Hj.
  { pose proof (Z.mod_pos_bound t0 (Z.of_nat (S i + 1))). lia. }
  destruct (lookup_lt_is_Some_2 idx (S i) Hi) as [x Ex]. destruct (lookup_lt_is_Some_2 idx _ Hj) as [y Ey].
  assert (swap (S i) (Z.to_nat (t0 mod Z.of_nat (S i + 1))) idx ≡ₚ idx) as Hp
    by (unfold swap; rewrite Ex, Ey; by apply Permutation_insert_swap).
  rewrite IH; [done|]. rewrite Hp. lia.
Qed.

(** Three different indices below six. *)
Lemma sample_indices_ok root :
  dr_data_shards root = DATA_SHARDS → dr_parity_shards root = PARITY_SHARDS →
  NoDup (sample_indices root) ∧ length (sample_indices root) = 3%nat ∧
  ∀ i, i ∈ sample_indices root → 0 ≤ i < 6.
Proof.
  intros Hd Hp. unfold sample_indices. rewrite Hd, Hp. unfold shuffle_indices.
  change (DATA_SHARDS + PARITY_SHARDS)%nat with 6%nat. change (min SAMPLE_COUNT 6) with 3%nat.
  change (6 - 1)%nat with 5%nat. cbv zeta. set (l := shuffle_loop 5 _ _ _).
  assert (l ≡ₚ Z.of_nat <$> seq 0 6) as Hl by (apply shuffle_loop_perm; cbn; lia).
  assert (NoDup l) as Hnd by (rewrite Hl; apply (NoDup_fmap_2 Z.of_nat), NoDup_seq).
  assert (length l = 6%nat) as Hlen by (by rewrite Hl).
  assert (take 3 l ⊆ l) as Hsub by (intros x Hx; eapply elem_of_take in Hx as (j & Hj & _); by eapply list_elem_of_lookup_2).
  rewrite <- (take_drop 3 l) in Hnd. apply NoDup_app in Hnd as (Hnd & _ & _).
  pose proof (merge_sort_Permutation Z.le (take 3 l)) as Hm. split; [by rewrite Hm|]. split.
  - rewrite Hm, length_take. lia.
  - intros i. rewrite Hm. intros Hi%Hsub. rewrite Hl in Hi.
    apply list_elem_of_fmap in Hi as (j & -> & Hj%elem_of_seq). lia.
Qed.

(** [NotAvailable] unless every sampled chunk is served. *)
Lemma fail_closed_iff root fetch :
  dr_data_shards root = DATA_SHARDS → dr_parity_shards root = PARITY_SHARDS →
  fail_closed (sample root fetch) = Available ↔
    ∀ i, i ∈ sample_indices root → sample_ok root fetch i = true.
Proof.
  intros Hd Hp. destruct (sample_indices_ok root Hd Hp) as (_ & Hlen & _).
  unfold fail_closed, sample. cbn [sr_required sr_successes]. unfold SAMPLE_COUNT. rewrite <- Hlen at 1.
  clear Hlen. generalize (sample_indices root) as l. intros l.
  pose proof (List.filter_length_le (sample_ok root fetch) l) as Hle.
  split.
  - intros E. destruct (Nat.leb_spec (length l) (length (List.filter (sample_ok root fetch) l))); [|done].
    assert (forallb (sample_ok root fetch) l = true) as Hf by (apply List.filter_length_forallb; lia).
    intros i Hi. by apply (proj1 (List.forallb_forall _ _) Hf), list_elem_of_In.
  - intros Hall. rewrite (List.forallb_filter_id (sample_ok root fetch) l).
    + by rewrite Nat.leb_refl.
    + apply List.forallb_forall. intros i Hi. by apply Hall, list_elem_of_In.
Qed.

Lemma from_proven_all chunks :
  length chunks = 6%nat → (∀ i c, chunks !! i = Some c → ds_index (pc_shard c) = Z.of_nat i) →
  from_proven chunks = Some <$> chunks.
Proof.
  intros Hl Hi. do 7 (destruct chunks as [|? chunks]; try done).
  pose proof (Hi 0%nat _ eq_refl). pose proof (Hi 1%nat _ eq_refl). pose proof (Hi 2%nat _ eq_refl).
  pose proof (Hi 3%nat _ eq_refl). pose proof (Hi 4%nat _ eq_refl). pose proof (Hi 5%nat _ eq_refl).
  unfold from_proven. cbn [foldl]. cbv zeta.
  repeat match goal with E : ds_index _ = _ |- _ => rewrite E; clear E end. done.
Qed.

Lemma withhold_lookup inner js j :
  withhold inner js !! j =
    if decide (j ∈ Z.to_nat <$> js) then (λ _, None) <$> inner !! j else inner !! j.
Proof.
  unfold withhold. revert inner. induction js as [|i js IH]; intros inner; [done|]. cbn [foldl fmap list_fmap].
  rewrite IH. destruct (decide (j = Z.to_nat i)) as [->|Hne].
  - rewrite (decide_True (P := Z.to_nat i ∈ Z.to_nat i :: _)) by constructor.
    destruct (inner !! Z.to_nat i) as [c|] eqn:E.
    + rewrite list_lookup_insert_eq by by apply lookup_lt_Some in E. by case_decide.
    + rewrite list_insert_ge by by apply lookup_ge_None in E. rewrite E. by case_decide.
  - rewrite list_lookup_insert_ne by done.
    rewrite (decide_ext (j ∈ Z.to_nat i :: _) (j ∈ Z.to_nat <$> js)); [done|]. rewrite elem_of_cons. naive_solver.
Qed.

(** The chunks nobody asks for. *)
Definition unsampled (root : DaRoot) : list Z :=
  List.filter (λ i, negb (bool_decide (i ∈ sample_indices root))) (Z.of_nat <$> seq 0 6).

Lemma elem_of_unsampled root i : i ∈ unsampled root ↔ 0 ≤ i < 6 ∧ i ∉ sample_indices root.
Proof.
  unfold unsampled. rewrite list_elem_of_In, filter_In, <- list_elem_of_In, negb_true_iff, bool_decide_eq_false.
  rewrite list_elem_of_fmap. split.
  - intros [(j & -> & Hj%elem_of_seq) ?]. split; [lia|done].
  - intros [Hi ?]. split; [|done]. exists (Z.to_nat i). split; [lia|]. apply elem_of_seq. lia.
Qed.

Lemma kept_lookup root chunks i c :
  length chunks = 6%nat → (∀ i c, chunks !! i = Some c → ds_index (pc_shard c) = Z.of_nat i) →
  chunks !! i = Some c →
  withhold (from_proven chunks) (unsampled root) !! i =
    Some (if bool_decide (Z.of_nat i ∈ sample_indices root) then Some c else None).
Proof.
  intros Hl Hi Hc. rewrite withhold_lookup, from_proven_all, list_lookup_fmap, Hc by done. cbn.
  assert (i ∈ Z.to_nat <$> unsampled root ↔ Z.of_nat i ∉ sample_indices root) as Hin.
  { rewrite list_elem_of_fmap. apply lookup_lt_Some in Hc. split.
    - intros (k & -> & [Hk Hn]%elem_of_unsampled). by rewrite Z2Nat.id by lia.
    - intros Hn. exists (Z.of_nat i). split; [lia|]. apply elem_of_unsampled. split; [lia|done]. }
  rewrite (decide_ext _ _ _ _ Hin). case_decide; case_bool_decide; tauto.
Qed.

Definition payload_slots (inner : list (option ProvenChunk)) : list (option bytes) :=
  (λ o : option ProvenChunk, (λ c, ds_payload (pc_shard c)) <$> o) <$> inner.

(** The slots in which a selection [keep] of the chunks is left. *)
Lemma omap_selection {A} (keep : Z → bool) (l : list A) (f : A → bytes) k :
  length (omap id ((λ o, f <$> o) <$> imap (λ i c, if keep (Z.of_nat (k + i)) then Some c else None) l)) =
  length (List.filter keep (Z.of_nat <$> seq k (length l))).
Proof.
  revert k. induction l as [|c l IH]; intros k; [done|]. rewrite imap_cons. cbn [length seq fmap list_fmap].
  rewrite Nat.add_0_r.
  assert (imap ((λ i c, if keep (Z.of_nat (k + i)) then Some c else None) ∘ S) l =
    imap (λ i c, if keep (Z.of_nat (S k + i)) then Some c else None) l) as E
    by (apply imap_ext; intros i x _; cbn; by rewrite Nat.add_succ_r).
  specialize (IH (S k)). rewrite <- E in IH. cbn [List.filter omap list_omap].
  destruct (keep (Z.of_nat k)); cbn; by rewrite IH.
Qed.

Lemma sampled_count root :
  NoDup (sample_indices root) → (∀ i, i ∈ sample_indices root → 0 ≤ i < 6) →
  length (List.filter (λ i, bool_decide (i ∈ sample_indices root)) (Z.of_nat <$> seq 0 6)) =
  length (sample_indices root).
Proof.
  intros Hnd Hr. apply Permutation_length, NoDup_Permutation; [|done|].
  - apply NoDup_ListNoDup, List.NoDup_filter, NoDup_ListNoDup, (NoDup_fmap_2 Z.of_nat), NoDup_seq.
  - intros i. rewrite list_elem_of_In, filter_In, <- list_elem_of_In, bool_decide_eq_true, list_elem_of_fmap.
    split; [by intros [_ ?]|]. intros Hi. split; [|done]. specialize (Hr i Hi). exists (Z.to_nat i).
    split; [lia|]. apply elem_of_seq. lia.
Qed.

(** C26: what sampling shows, and what it does not.  A light node samples three
    different chunks, and reports the block available exactly when all three
    are served with valid proofs.  But which three is a function of the root
    alone: whoever withholds the other three chunks passes the sampling of
    every light node, although the block can no longer be recovered. *)
Theorem das_withholding_passes block body :
  block_wf block → encode_block_body block = Some body → len body ≤ U32_MAX →
  ∃ root chunks, da_commit block = Some (Ok (root, chunks)) ∧
    NoDup (sample_indices root) ∧ length (sample_indices root) = 3%nat ∧
    (∀ fetch, fail_closed (sample root fetch) = Available ↔
       ∀ i, i ∈ sample_indices root → sample_ok root fetch i = true) ∧
    let kept := withhold (from_proven chunks) (unsampled root) in
    fail_closed (sample root (memory_fetch kept)) = Available ∧
    reconstruct (payload_slots kept) = Err (ChRs RsReconstruct).
Proof.
  intros Hw He Hl. destruct (split_ok block body Hw He Hl) as (shards & E & Hn & Hidx & _).
  destruct (da_commit_ok block shards E Hn) as (root & chunks & Ec & Hs & Hr & Hd & Hp & Hv).
  destruct (sample_indices_ok root Hd Hp) as (Hnd & Hlen & Hrange).
  exists root, chunks. split; [done|]. split; [done|]. split; [done|].
  split; [intros; by apply fail_closed_iff|]. intros kept.
  assert (length chunks = 6%nat) as Hc by (by rewrite <- Hn, <- Hs, length_fmap).
  assert (∀ i c, chunks !! i = Some c → ds_index (pc_shard c) = Z.of_nat i) as Hci.
  { intros i c Hi. apply (Hidx i (pc_shard c)). by rewrite <- Hs, list_lookup_fmap, Hi. }
  assert (∀ i c, chunks !! i = Some c →
    kept !! i = Some (if bool_decide (Z.of_nat i ∈ sample_indices root) then Some c else None)) as Hk
    by (intros; by apply kept_lookup).
  assert (kept = imap (λ i c, if bool_decide (Z.of_nat (0 + i) ∈ sample_indices root) then Some c else None) chunks) as Ek.
  { apply list_eq. intros i. rewrite list_lookup_imap. destruct (chunks !! i) as [c|] eqn:Ei; [by rewrite (Hk i c)|].
    subst kept. rewrite withhold_lookup, from_proven_all, list_lookup_fmap, Ei by done. by case_decide. }
  split.
  - apply fail_closed_iff; [done|done|]. intros i Hi. specialize (Hrange i Hi).
    destruct (lookup_lt_is_Some_2 chunks (Z.to_nat i)) as [c Eci]; [lia|].
    unfold sample_ok, memory_fetch. rewrite (Hk _ c Eci), Z2Nat.id, bool_decide_true by (done || lia).
    rewrite (Hci _ c Eci), Z2Nat.id, Z.eqb_refl by lia. by apply (Forall_lookup_1 _ _ _ _ Hv Eci).
  - unfold reconstruct, payload_slots. change (DATA_SHARDS + PARITY_SHARDS)%nat with 6%nat.
    rewrite length_fmap. assert (length kept = 6%nat) as -> by (by rewrite Ek, length_imap). cbn [Nat.eqb negb].
    unfold rs_decode. change (DATA_SHARDS =? 0)%nat with false. change (PARITY_SHARDS =? 0)%nat with false.
    rewrite rs_new_ok by (unfold DATA_SHARDS, PARITY_SHARDS; lia). cbn [orb negb].
    pose proof (omap_selection (λ i, bool_decide (i ∈ sample_indices root)) chunks
      (λ c, ds_payload (pc_shard c)) 0) as Hsel.
    rewrite Hc, sampled_count, Hlen, <- Ek in Hsel by done.
    rewrite rs_reconstruct_few; [done|]. unfold DATA_SHARDS. rewrite Hsel. lia.
Qed.

End rs.

(** ** Witnesses

    A toy code: a parity shard holds, for every position, the whole column of
    data symbols as one number. *)

Definition column (data : list bytes) (p : nat) : list Z := (λ s, nth p s 0) <$> data.
Definition parity (data : list bytes) : bytes :=
  (λ p, Zpos (countable.encode (column data p))) <$> seq 0 (length (nth 0 data [])).
Definition from_parity (k : nat) (par : bytes) : list bytes :=
  (λ i, (λ z, nth i (default [] (countable.decode (Z.to_pos z))) 0) <$> par) <$> seq 0 k.

Definition toy_rs : ReedSolomon := {|
  rs_new _ _ := true;
  rs_code k m shards := Some (take k shards ++ replicate m (parity (take k shards)));
  rs_reconstruct k m slots :=
    if (length (omap id slots) <? k)%nat then None
    else match omap id (drop k slots) with
         | par :: _ => Some (Some <$> from_parity k par ++ replicate m par)
         | [] => let data := omap id (take k slots) in Some (Some <$> data ++ replicate m (parity data))
         end;
|}.

Lemma length_parity n data : (0 < length data)%nat → equal_shards n data → length (parity data) = n.
Proof.
  intros Hd [_ Hf]. unfold parity. rewrite length_fmap, length_seq. destruct data; [cbn in Hd; lia|].
  by apply Forall_cons in Hf as [Hf _].
Qed.

Lemma from_parity_ok n data :
  (0 < length data)%nat → equal_shards n data → from_parity (length data) (parity data) = data.
Proof.
  intros Hd Hs. apply list_eq. intros i. unfold from_parity. rewrite list_lookup_fmap.
  destruct (data !! i) as [s|] eqn:Ei.
  - pose proof (lookup_lt_Some _ _ _ Ei) as Hi. rewrite lookup_seq_lt by done. cbn. f_equal.
    apply list_eq. intros p. rewrite list_lookup_fmap.
    assert (length s = n) as Hlen by (by apply (Forall_lookup_1 _ _ _ _ (proj2 Hs) Ei)).
    pose proof (length_parity n data Hd Hs) as Hpar. unfold parity in *. rewrite length_fmap, length_seq in Hpar.
    rewrite Hpar, list_lookup_fmap. destruct (decide (p < n)%nat) as [Hp|Hp].
    + rewrite lookup_seq_lt by done. cbn. rewrite countable.decode_encode. cbn. unfold column.
      destruct (lookup_lt_is_Some_2 s p) as [z Ez]; [lia|]. rewrite Ez. f_equal.
      rewrite (nth_lookup_Some _ _ 0 (nth p s 0)); [by apply nth_lookup_Some|]. by rewrite list_lookup_fmap, Ei.
    + rewrite lookup_seq_ge by lia. cbn. symmetry. apply lookup_ge_None. lia.
  - apply lookup_ge_None in Ei. by rewrite lookup_seq_ge by lia.
Qed.

Lemma omap_id_full (slots : list (option bytes)) data :
  Forall2 (λ slot s, slot = None ∨ slot = Some s) slots data →
  (length (omap id slots) ≤ length data)%nat ∧
  ((length data ≤ length (omap id slots))%nat → omap id slots = data).
Proof.
  induction 1 as [|slot s slots data [->| ->] _ [IH1 IH2]]; [done| |]; cbn; (split; [lia|]).
  - lia.
  - intros Hle. f_equal. apply IH2. lia.
Qed.

Lemma omap_id_elem (slots : list (option bytes)) out s :
  Forall2 (λ slot s, slot = None ∨ slot = Some s) slots out → s ∈ omap id slots → s ∈ out.
Proof.
  induction 1 as [|slot s' slots out [->| ->] _ IH]; cbn; [done|set_solver|].
  intros [->|Hs]%elem_of_cons; set_solver.
Qed.

Lemma toy_rs_laws : @ReedSolomonLaws toy_rs.
Proof.
  split; cbn [rs_new rs_code rs_reconstruct toy_rs].
  - done.
  - intros k m n shards Hk Hm _ Hl Hs. eexists. split; [done|].
    assert (length (take k shards) = k) as Ht by (rewrite length_take; lia).
    assert (equal_shards n (take k shards)) as Hst by (split; [apply Hs|by apply Forall_take, Hs]).
    split; [rewrite length_app, length_replicate; lia|]. split; [by rewrite take_app_length' by done|].
    split; [apply Hs|]. apply Forall_app. split; [apply Hst|]. apply Forall_replicate, length_parity; [lia|done].
  - intros k m n shards out slots Hk Hm _ Hl Hs [= <-] Hsl Hmany.
    rewrite (proj2 (Nat.ltb_ge _ _)) by done.
    set (data := take k shards) in *.
    assert (length data = k) as Ht by (subst data; rewrite length_take; lia).
    assert (equal_shards n data) as Hst by (split; [apply Hs|by apply Forall_take, Hs]).
    apply Forall2_app_inv_r in Hsl as (s1 & s2 & H1 & H2 & ->).
    pose proof (Forall2_length _ _ _ H1) as L1. rewrite Ht in L1.
    rewrite take_app_length' by done. rewrite drop_app_length' by done.
    destruct (omap id s2) as [|par rest] eqn:Ep.
    + rewrite omap_app, Ep, app_nil_r in Hmany. destruct (omap_id_full s1 data H1) as [_ Hfull].
      by rewrite Hfull by lia.
    + assert (par ∈ replicate m (parity data)) as [-> _]%elem_of_replicate.
      { apply (omap_id_elem s2); [done|]. rewrite Ep. constructor. }
      rewrite <- Ht at 1. by rewrite (from_parity_ok n) by (done || lia).
  - intros k m slots Hf. by rewrite (proj2 (Nat.ltb_lt _ _)).
Qed.

#[local] Existing Instances toy_crypto toy_crypto_laws toy_pairing toy_pairing_laws toy_rs toy_rs_laws.

Definition sample_body : bytes := default [] (encode_block_body sample_block).

Lemma sample_body_ok :
  block_wf sample_block ∧ encode_block_body sample_block = Some sample_body ∧ len sample_body ≤ U32_MAX.
Proof. split; [by_eval|]. split; [reflexivity|by_eval]. Qed.

Lemma da_any_four_witness :
  ∃ shards, split sample_block = Some (Ok shards) ∧ length shards = 6%nat ∧
    ∀ slots, slots_of slots shards → (4 ≤ length (omap id slots))%nat → reconstruct slots = Ok sample_block.
Proof. destruct sample_body_ok as (H1 & H2 & H3). exact (da_any_four sample_block sample_body H1 H2 H3). Defined.

Lemma da_chunk_sound_witness :
  ∃ shards root chunks, split sample_block = Some (Ok shards) ∧
    da_commit sample_block = Some (Ok (root, chunks)) ∧ pc_shard <$> chunks = shards ∧
    Forall (λ c, verify_chunk root c = true) chunks.
Proof.
  destruct sample_body_ok as (H1 & H2 & H3).
  destruct (da_chunk_sound sample_block sample_body H1 H2 H3) as (shards & root & chunks & E1 & E2 & E3 & E4 & _).
  exact (ex_intro _ shards (ex_intro _ root (ex_intro _ chunks (conj E1 (conj E2 (conj E3 E4)))))).
Defined.

Lemma das_withholding_passes_witness :
  ∃ root chunks, da_commit sample_block = Some (Ok (root, chunks)) ∧
    let kept := withhold (from_proven chunks) (unsampled root) in
    fail_closed (sample root (memory_fetch kept)) = Available ∧
    reconstruct (payload_slots kept) = Err (ChRs RsReconstruct).
Proof.
  destruct sample_body_ok as (H1 & H2 & H3).
  destruct (das_withholding_passes sample_block sample_body H1 H2 H3) as (root & chunks & E1 & _ & _ & _ & E2).
  exact (ex_intro _ root (ex_intro _ chunks (conj E1 E2))).
Defined.
