(* ===== verification/Gossip.v ===== *)
(** The gossip wire format: [network/src/codec.rs].

    The transport (libp2p) is outside; a message is the bytes of one gossip
    frame, a kind byte and an inner payload.  Here are the codecs of frames,
    votes, proposals, headers and DA chunks.  Shown: every message is read back
    from its frame, nothing else decodes to it, and what decodes has the sizes
    of its Rust type ([gossip_roundtrips]). *)

From S2P Require Import Prelude Types Codec Crypto Merkle StoreCodec Recovery Vote Leader Da.
From stdpp Require Import list.

#[local] Open Scope Z_scope.
#[local] Open Scope l1_scope.

(** ** [codec.rs]: frames *)

Inductive GossipKind : Type :=
| KTx | KProposal | KVote | KBlock | KEvidence | KHeader | KDaChunk.

#[export] Instance GossipKind_eq_dec : EqDecision GossipKind.
Proof. solve_decision. Defined.

Definition kind_byte (k : GossipKind) : Z :=
  match k with
  | KTx => 1 | KProposal => 2 | KVote => 3 | KBlock => 4 | KEvidence => 5 | KHeader => 6 | KDaChunk => 7
  end.

Definition kind_from_u8 (v : Z) : option GossipKind :=
  if v =? 1 then Some KTx
  else if v =? 2 then Some KProposal
  else if v =? 3 then Some KVote
  else if v =? 4 then Some KBlock
  else if v =? 5 then Some KEvidence
  else if v =? 6 then Some KHeader
  else if v =? 7 then Some KDaChunk
  else None.

Record GossipFrame := { gf_kind : GossipKind; gf_inner : bytes }.

Definition encode_frame (kind : GossipKind) (inner : bytes) : bytes := encode ([kind_byte kind] ++ inner).

Definition decode_frame (buf : bytes) : result GossipFrame TypesError :=
  let? p := decode buf in
  match p with
  | [] => Err CodecTruncated
  | k :: inner =>
      let? kind := ok_or (kind_from_u8 k) CodecTruncated in
      Ok {| gf_kind := kind; gf_inner := inner |}
  end.

(** ** Votes *)

Definition encode_vote (v : Vote) : bytes :=
  encode (v_signer v ++ be_bytes 8 (v_height v) ++ be_bytes 4 (v_round v) ++ [vote_kind_byte (v_kind v)] ++
          block_encode (v_block v) ++ v_signature v).

Definition kind_of_byte (b : Z) : result VoteKind TypesError :=
  if b =? 0 then Ok Prevote else if b =? 1 then Ok Precommit else Err CodecTruncated.

(** The block of the vote and the offset of the signature. *)
Definition vote_block_at (p : bytes) : result (VoteBlock * nat) TypesError :=
  if nth 61 p 0 =? 0 then Ok (Nil, 62%nat)
  else if nth 61 p 0 =? 1 then
    if len p <? 62 + 32 + 96 then Err CodecTruncated
    else Ok (VBlock (slice 62 94 p), 94%nat)
  else Err CodecTruncated.

Definition decode_vote (buf : bytes) : result Vote TypesError :=
  let? p := decode buf in
  if len p <? 48 + 8 + 4 + 1 + 1 + 96 then Err CodecTruncated
  else
    let? kind := kind_of_byte (nth 60 p 0) in
    let? r := vote_block_at p in
    let '(block, sig_off) := r in
    if negb (len p =? Z.of_nat sig_off + 96) then Err CodecTruncated
    else Ok {| v_height := of_be (slice 48 56 p); v_round := of_be (slice 56 60 p); v_kind := kind;
               v_block := block; v_signer := slice 0 48 p; v_signature := drop sig_off p |}.

(** ** Proposals *)

Definition encode_proposal (p : Proposal) : bytes :=
  let pre := hash_preimage (p_header p) in
  encode (be_bytes 8 (p_height p) ++ be_bytes 4 (p_round p) ++ be_bytes 4 (as_u32 (len pre)) ++ pre ++
          p_app_hash p ++ p_proposer p ++ p_vrf_source p ++ p_vrf_proof p ++ p_signature p).

Definition decode_proposal (buf : bytes) : result Proposal TypesError :=
  let? p := decode buf in
  if len p <? 8 + 4 + 4 then Err CodecTruncated
  else
    let pre_len := of_be (slice 12 16 p) in
    let need := 16 + pre_len + 32 + 48 + 48 + 80 + 96 in
    if negb (len p =? need) then Err CodecTruncated
    else
      let off := (16 + Z.to_nat pre_len)%nat in
      let? header := header_from_preimage (slice 16 off p) in
      Ok {| p_height := of_be (slice 0 8 p); p_round := of_be (slice 8 12 p); p_header := header;
            p_app_hash := slice off (off + 32) p; p_proposer := slice (off + 32) (off + 80) p;
            p_vrf_source := slice (off + 80) (off + 128) p; p_vrf_proof := slice (off + 128) (off + 208) p;
            p_signature := slice (off + 208) (off + 304) p |}.

(** ** Headers *)

Definition encode_header (header : Header) : bytes := encode (hash_preimage header).
Definition decode_header (buf : bytes) : result Header TypesError :=
  let? p := decode buf in header_from_preimage p.

(** ** DA chunks *)

Definition encode_da_chunk (c : ProvenChunk) : bytes :=
  encode (be_bytes 2 (ds_index (pc_shard c)) ++
          be_bytes 4 (as_u32 (len (ds_payload (pc_shard c)))) ++ ds_payload (pc_shard c) ++
          be_bytes 4 (as_u32 (Z.of_nat (leaf_index (pc_proof c)))) ++
          be_bytes 4 (as_u32 (len (siblings (pc_proof c)))) ++ concat (siblings (pc_proof c))).

(** [for _ in 0..n]: the siblings. *)
Fixpoint decode_siblings (n : nat) (p : bytes) (i : nat) : list bytes :=
  match n with
  | O => []
  | S n => slice i (i + 32) p :: decode_siblings n p (i + 32)
  end.

Definition decode_da_chunk (buf : bytes) : result ProvenChunk TypesError :=
  let? p := decode buf in
  if len p <? 2 + 4 then Err CodecTruncated
  else
    let index := of_be (slice 0 2 p) in
    let plen := of_be (slice 2 6 p) in
    if 6 + plen + 8 >? len p then Err CodecTruncated
    else
      let i := (6 + Z.to_nat plen)%nat in
      let payload := slice 6 i p in
      let leaf := of_be (slice i (i + 4) p) in
      let n := of_be (slice (i + 4) (i + 8) p) in
      let i := (i + 8)%nat in
      if negb (Z.of_nat i + n * 32 =? len p) then Err CodecTruncated
      else Ok {| pc_shard := {| ds_index := index; ds_payload := payload |};
                 pc_proof := {| leaf_index := Z.to_nat leaf; siblings := decode_siblings (Z.to_nat n) p i |} |}.

(** ** Round trips *)

(** Sizes of the Rust types. *)
Definition proposal_wf (p : Proposal) : Prop :=
  u64 (p_height p) ∧ u32 (p_round p) ∧ header_wf (p_header p) ∧ array 32 (p_app_hash p) ∧
  array 48 (p_proposer p) ∧ array 48 (p_vrf_source p) ∧ array 80 (p_vrf_proof p) ∧ array 96 (p_signature p).

Definition gossip_vote_wf (v : Vote) : Prop := vote_wf v ∧ bytes_ok (v_signature v).

Definition chunk_wf (c : ProvenChunk) : Prop :=
  u16 (ds_index (pc_shard c)) ∧ bytes_ok (ds_payload (pc_shard c)) ∧
  u32 (Z.of_nat (leaf_index (pc_proof c))) ∧ Forall (array 32) (siblings (pc_proof c)).

Lemma kind_roundtrip k : kind_from_u8 (kind_byte k) = Some k.
Proof. by destruct k. Qed.

Lemma kind_from_byte b k : kind_from_u8 b = Some k → kind_byte k = b.
Proof.
  unfold kind_from_u8. intros E. repeat (case_hyp E; [bsimpl; by injection E as <-|]). done.
Qed.

Lemma frame_roundtrip kind inner :
  len inner < U32_MAX → decode_frame (encode_frame kind inner) = Ok {| gf_kind := kind; gf_inner := inner |}.
Proof.
  intros Hl. unfold decode_frame, encode_frame. rewrite decode_encode by (cbn [length app]; lia).
  cbn [app]. by rewrite kind_roundtrip.
Qed.

Lemma frame_canonical buf f :
  bytes_ok buf → decode_frame buf = Ok f → encode_frame (gf_kind f) (gf_inner f) = buf ∧ bytes_ok (gf_inner f).
Proof.
  intros Hb Hd. unfold decode_frame in Hd. destruct (decode buf) as [p|] eqn:Ed; [|done].
  destruct (decode_Ok _ _ Hb Ed) as (<- & Hp & _). destruct p as [|k inner]; [done|].
  destruct (kind_from_u8 k) as [kind|] eqn:Ek; [|done]. cbn in Hd. injection Hd as <-.
  apply kind_from_byte in Ek as <-. split; [done|]. by apply Forall_cons in Hp as [_ Hp].
Qed.

(** The fixed part of a vote, in front of the block. *)
Lemma vote_prefix s h r k rest :
  length s = 48%nat → u64 h → u32 r →
  let p := s ++ be_bytes 8 h ++ be_bytes 4 r ++ [vote_kind_byte k] ++ rest in
  len p = 61 + len rest ∧ slice 0 48 p = s ∧ of_be (slice 48 56 p) = h ∧ of_be (slice 56 60 p) = r ∧
  kind_of_byte (nth 60 p 0) = Ok k ∧ nth 61 p 0 = nth 0 rest 0 ∧ slice 62 94 p = slice 1 33 rest ∧
  ∀ n, drop (61 + n) p = drop n rest.
Proof.
  intros Hs Hh Hr p. subst p.
  assert (length (s ++ be_bytes 8 h ++ be_bytes 4 r ++ [vote_kind_byte k]) = 61%nat) as Hl
    by (autorewrite with l1simpl; rewrite Hs; cbn; lia).
  split; [autorewrite with l1simpl; rewrite Hs; cbn [length]; lia|]. split; [by slices|].
  split; [slices; by rewrite of_be_be_bytes by ulia|]. split; [slices; by rewrite of_be_be_bytes by ulia|].
  assert (s ++ be_bytes 8 h ++ be_bytes 4 r ++ [vote_kind_byte k] ++ rest =
    (s ++ be_bytes 8 h ++ be_bytes 4 r ++ [vote_kind_byte k]) ++ rest) as E by (by rewrite <- !app_assoc).
  split.
  { rewrite app_nth2, Hs by lia. do 2 (rewrite app_nth2, length_be_bytes by (rewrite length_be_bytes; lia)).
    by destruct k. }
  rewrite E. split; [by rewrite app_nth2, Hl by lia|]. split; [by rewrite slice_skip, Hl by lia|].
  intros n. rewrite drop_app_ge, Hl by lia. f_equal. lia.
Qed.

Lemma vote_decode_encode v : gossip_vote_wf v → decode_vote (encode_vote v) = Ok v.
Proof.
  intros [([Hs _] & Hh & Hr & Hsig & Hblk) _]. unfold decode_vote, encode_vote.
  destruct v as [h r k b s sig]; cbn [v_height v_round v_kind v_block v_signer v_signature] in *.
  destruct (vote_prefix s h r k (block_encode b ++ sig) Hs Hh Hr) as (Hl & E1 & E2 & E3 & E4 & E5 & E6 & E7).
  assert (len (block_encode b ++ sig) = match b with Nil => 97 | VBlock _ => 129 end) as Hb.
  { rewrite length_app, Hsig. destruct b as [|hh]; cbn [block_encode length app]; [lia|]. destruct Hblk. lia. }
  rewrite decode_encode by (rewrite Hl, Hb; destruct b; uint; lia).
  set (p := s ++ _) in *. rewrite Hb in Hl. rewrite (proj2 (Z.ltb_ge (len p) _)) by (destruct b; lia).
  unfold vote_block_at. rewrite E1, E2, E3, E4, E5, E6.
  destruct b as [|hh]; cbn [block_encode app nth Z.eqb Pos.eqb].
  - rewrite (proj2 (Z.eqb_eq (len p) _)) by lia. cbn [negb]. pose proof (E7 1%nat) as E8. cbn [Nat.add] in E8. by rewrite E8.
  - rewrite (proj2 (Z.ltb_ge (len p) _)), (proj2 (Z.eqb_eq (len p) _)) by lia. cbn [negb].
    destruct Hblk as [Hbl _]. pose proof (E7 33%nat) as E8. cbn [Nat.add] in E8. rewrite E8. change (1 :: hh ++ sig) with ([1] ++ hh ++ sig).
    rewrite slice_mid by (cbn; lia). cbn [block_encode]. rewrite <- !app_assoc, app_assoc, drop_app_length' by (cbn; lia). done.
Qed.

Lemma vote_canonical buf v :
  bytes_ok buf → decode_vote buf = Ok v → encode_vote v = buf ∧ gossip_vote_wf v.
Proof.
  intros Hb Hd. unfold decode_vote in Hd. destruct (decode buf) as [p|] eqn:Ed; [|done].
  destruct (decode_Ok _ _ Hb Ed) as (<- & Hp & _). case_hyp Hd; [done|]. bsimpl.
  destruct (kind_of_byte (nth 60 p 0)) as [k|] eqn:Ek; [|done].
  destruct (vote_block_at p) as [[b off]|] eqn:Eb; [|done]. case_hyp Hd; [done|]. bsimpl. injection Hd as <-.
  assert ([vote_kind_byte k] = slice 60 61 p) as Hk.
  { rewrite slice_one by lia. f_equal. unfold kind_of_byte in Ek.
    repeat (case_hyp Ek; [bsimpl; injection Ek as <-; cbn; lia|]). done. }
  assert (block_encode b = slice 61 off p ∧ (61 ≤ off ≤ length p)%nat ∧
    match b with Nil => True | VBlock h => array 32 h end) as (Hblk & Hoff & Hbw).
  { unfold vote_block_at in Eb. case_hyp Eb.
    - bsimpl. injection Eb as <- <-. split; [|split; [lia|done]]. rewrite slice_one by lia. cbn. congruence.
    - case_hyp Eb; [|done]. case_hyp Eb; [done|]. bsimpl. injection Eb as <- <-.
      split; [|split; [lia|apply array_slice; [done|lia..]]].
      rewrite <- (slice_glue 61 62 94), slice_one by lia. cbn. congruence. }
  split.
  - unfold encode_vote. cbn [v_height v_round v_kind v_block v_signer v_signature]. f_equal.
    rewrite !be_bytes_of_be by (auto with l1; rewrite length_slice; lia).
    rewrite Hk, Hblk, slice_to_end. rewrite !slice_glue_app, slice_glue by lia. apply slice_all. lia.
  - split; [|by apply Forall_drop]. split; [apply array_slice; [done|lia..]|].
    split; [apply slice_u64; [done|lia..]|]. split; [apply slice_u32; [done|lia..]|].
    cbn. split; [rewrite length_drop; lia|done].
Qed.

(** A header is read back from its preimage, and only from it. *)
Lemma header_preimage_canonical p h :
  bytes_ok p → header_from_preimage p = Ok h → hash_preimage h = p ∧ header_wf h.
Proof.
  intros Hp Hd. unfold header_from_preimage, HEADER_PREIMAGE_LEN in Hd. case_hyp Hd; [done|]. bsimpl. injection Hd as <-.
  assert (length p = 228%nat) as Hl by lia. split.
  - unfold hash_preimage. cbn. rewrite !be_bytes_of_be by (auto with l1; rewrite length_slice; lia).
    rewrite !slice_glue_app, slice_glue by lia. by apply slice_all.
  - unfold header_wf. cbn. by repeat (split; [slice_range|]); slice_range.
Qed.

Lemma header_decode_encode h : header_wf h → decode_header (encode_header h) = Ok h.
Proof.
  intros Hh. unfold decode_header, encode_header. rewrite decode_encode.
  - by apply header_roundtrip.
  - rewrite length_hash_preimage by done. uint. lia.
Qed.

Lemma header_canonical buf h : bytes_ok buf → decode_header buf = Ok h → encode_header h = buf ∧ header_wf h.
Proof.
  intros Hb Hd. unfold decode_header in Hd. destruct (decode buf) as [p|] eqn:Ed; [|done].
  destruct (decode_Ok _ _ Hb Ed) as (<- & Hp & _).
  destruct (header_preimage_canonical p h Hp Hd) as [<- Hw]. done.
Qed.

Lemma proposal_decode_encode p : proposal_wf p → decode_proposal (encode_proposal p) = Ok p.
Proof.
  destruct p as [h r hd app pr src pf sig]. unfold proposal_wf, decode_proposal, encode_proposal.
  cbn [p_height p_round p_header p_app_hash p_proposer p_vrf_source p_vrf_proof p_signature].
  intros (Hh & Hr & Hw & [Ha _] & [Hpr _] & [Hsrc _] & [Hpf _] & [Hsig _]).
  pose proof (length_hash_preimage hd Hw) as Hl. pose proof (header_roundtrip hd Hw) as Hd.
  rewrite Hl. set (pre := hash_preimage hd) in *.
  change (as_u32 (Z.of_nat 228)) with 228.
  set (p := be_bytes 8 h ++ _).
  assert (length p = 548%nat) as Hp by (subst p; autorewrite with l1simpl; lia).
  rewrite decode_encode by (rewrite Hp; uint; lia). rewrite Hp.
  assert (of_be (slice 12 16 p) = 228) as -> by (subst p; slices; by rewrite of_be_be_bytes by ulia).
  change (Z.of_nat 548 <? 8 + 4 + 4) with false. change (16 + Z.to_nat 228)%nat with 244%nat.
  change (negb (Z.of_nat 548 =? 16 + 228 + 32 + 48 + 48 + 80 + 96)) with false. cbv iota. cbv zeta.
  assert (slice 16 244 p = pre) as -> by (subst p; by slices). rewrite Hd.
  assert (of_be (slice 0 8 p) = h) as -> by (subst p; slices; by rewrite of_be_be_bytes by ulia).
  assert (of_be (slice 8 12 p) = r) as -> by (subst p; slices; by rewrite of_be_be_bytes by ulia).
  cbn [Nat.add]. f_equal. f_equal; clear Hp; subst p; by slices.
Qed.

Lemma proposal_canonical buf p :
  bytes_ok buf → decode_proposal buf = Ok p → encode_proposal p = buf ∧ proposal_wf p.
Proof.
  intros Hb Hd. unfold decode_proposal in Hd. destruct (decode buf) as [q|] eqn:Ed; [|done].
  destruct (decode_Ok _ _ Hb Ed) as (<- & Hq & _). case_hyp Hd; [done|]. bsimpl.
  pose proof (of_be_slice_bound 12 16 q Hq ltac:(lia)) as Hn. cbn [Nat.sub] in Hn.
  set (n := of_be (slice 12 16 q)) in *. case_hyp Hd; [done|]. bsimpl.
  set (off := (16 + Z.to_nat n)%nat) in *. assert (length q = (off + 304)%nat) as Hlq by lia.
  destruct (header_from_preimage (slice 16 off q)) as [h|] eqn:Eh; [|done]. injection Hd as <-.
  destruct (header_preimage_canonical _ h (slice_ok _ _ _ Hq) Eh) as [Hpre Hw].
  split.
  - unfold encode_proposal. cbn [p_height p_round p_header p_app_hash p_proposer p_vrf_source p_vrf_proof p_signature].
    rewrite Hpre, length_slice by lia. f_equal.
    replace (as_u32 (Z.of_nat (off - 16))) with n by (rewrite as_u32_small by ulia; lia).
    unfold n. rewrite !be_bytes_of_be by (auto with l1; rewrite length_slice; lia).
    rewrite !slice_glue_app, slice_glue by lia. apply slice_all. lia.
  - unfold proposal_wf. cbn. by repeat (split; [first [done|slice_range]|]); slice_range.
Qed.

Lemma decode_siblings_ok l pre :
  Forall (array 32) l → decode_siblings (length l) (pre ++ concat l) (length pre) = l.
Proof.
  intros Hl. revert pre. induction Hl as [|x l [Hx _] Hl IH]; intros pre; [done|].
  cbn [length concat decode_siblings]. rewrite slice_mid by lia. f_equal.
  rewrite app_assoc. specialize (IH (pre ++ x)). by rewrite length_app, Hx in IH.
Qed.

Lemma decode_siblings_canonical n p i :
  bytes_ok p → (i + 32 * n ≤ length p)%nat →
  let l := decode_siblings n p i in
  length l = n ∧ Forall (array 32) l ∧ concat l = slice i (i + 32 * n) p.
Proof.
  intros Hp. revert i. induction n as [|n IH]; intros i Hi; cbn [decode_siblings concat length].
  - split; [done|]. split; [done|]. unfold slice. replace (i + 32 * 0 - i)%nat with 0%nat by lia. by destruct (drop i p).
  - destruct (IH (i + 32)%nat ltac:(lia)) as (H1 & H2 & H3). rewrite H1, H3.
    split; [done|]. split; [constructor; [slice_range|done]|].
    rewrite slice_glue by lia. f_equal. lia.
Qed.

(** The pieces of an encoded chunk that the length fields describe. *)
Definition chunk_fits (c : ProvenChunk) : Prop :=
  14 + len (ds_payload (pc_shard c)) + 32 * len (siblings (pc_proof c)) ≤ U32_MAX.

Lemma length_siblings l : Forall (array 32) l → length (concat l) = (32 * length l)%nat.
Proof. induction 1 as [|x l [Hx _] _ IH]; [done|]. cbn [concat length]. rewrite length_app, IH, Hx. lia. Qed.

Lemma chunk_decode_encode c : chunk_wf c → chunk_fits c → decode_da_chunk (encode_da_chunk c) = Ok c.
Proof.
  destruct c as [[i pl] [lf sib]]. unfold chunk_wf, chunk_fits, decode_da_chunk, encode_da_chunk.
  cbn [pc_shard pc_proof ds_index ds_payload leaf_index siblings]. intros (Hi & _ & Hlf & Hs) Hf.
  pose proof (length_siblings sib Hs) as Hls.
  rewrite !as_u32_small by ulia. set (p := be_bytes 2 i ++ _).
  assert (length p = (14 + length pl + 32 * length sib)%nat) as Hp
    by (subst p; autorewrite with l1simpl; lia).
  rewrite decode_encode by lia. rewrite (proj2 (Z.ltb_ge (len p) _)) by lia.
  assert (of_be (slice 0 2 p) = i) as -> by (subst p; slices; by rewrite of_be_be_bytes by (unfold u16 in Hi; ulia)).
  assert (of_be (slice 2 6 p) = len pl) as -> by (subst p; slices; by rewrite of_be_be_bytes by ulia).
  cbv zeta. rewrite Nat2Z.id.
  destruct (Z.gtb_spec (6 + len pl + 8) (len p)) as [?|_]; [lia|].
  assert (slice 6 (6 + length pl) p = pl) as ->.
  { subst p. rewrite app_assoc. apply slice_mid; [by autorewrite with l1simpl|lia]. }
  assert (∀ a b, slice (6 + length pl + a) (6 + length pl + b) p =
    slice a b (be_bytes 4 (Z.of_nat lf) ++ be_bytes 4 (len sib) ++ concat sib)) as Htl.
  { intros a b. subst p. rewrite 2!app_assoc, slice_skip by (autorewrite with l1simpl; lia).
    rewrite <- !app_assoc. autorewrite with l1simpl. f_equal; lia. }
  pose proof (Htl 0 4)%nat as E1. pose proof (Htl 4 8)%nat as E2. rewrite Nat.add_0_r in E1. rewrite E1, E2.
  assert (of_be (slice 0 4 (be_bytes 4 (Z.of_nat lf) ++ be_bytes 4 (len sib) ++ concat sib)) = Z.of_nat lf) as ->
    by (slices; by rewrite of_be_be_bytes by ulia).
  assert (of_be (slice 4 8 (be_bytes 4 (Z.of_nat lf) ++ be_bytes 4 (len sib) ++ concat sib)) = len sib) as ->
    by (slices; by rewrite of_be_be_bytes by ulia).
  rewrite (proj2 (Z.eqb_eq _ (len p))) by lia. cbn [negb]. rewrite !Nat2Z.id. do 3 f_equal.
  subst p. rewrite !app_assoc.
  match goal with |- decode_siblings _ (?q ++ _) ?n = _ => replace n with (length q) end.
  - by apply decode_siblings_ok.
  - autorewrite with l1simpl. lia.
Qed.

Lemma chunk_canonical buf c :
  bytes_ok buf → decode_da_chunk buf = Ok c → encode_da_chunk c = buf ∧ chunk_wf c ∧ chunk_fits c.
Proof.
  intros Hb Hd. unfold decode_da_chunk in Hd. destruct (decode buf) as [p|] eqn:Ed; [|done].
  destruct (decode_Ok _ _ Hb Ed) as (<- & Hp & Hl). case_hyp Hd; [done|]. bsimpl.
  pose proof (of_be_slice_bound 2 6 p Hp ltac:(lia)) as Hn. cbn [Nat.sub] in Hn.
  set (n := of_be (slice 2 6 p)) in *. case_hyp Hd; [done|]. bsimpl.
  set (i := (6 + Z.to_nat n)%nat) in *. assert (i = 6 + Z.to_nat n)%nat as Hi by done. clearbody i.
  pose proof (of_be_slice_bound (i + 4) (i + 8) p Hp ltac:(lia)) as Hk.
  replace (i + 8 - (i + 4))%nat with 4%nat in Hk by lia. set (k := of_be (slice (i + 4) (i + 8) p)) in *.
  case_hyp Hd; [done|]. bsimpl. injection Hd as <-.
  pose proof (of_be_slice_bound i (i + 4) p Hp ltac:(lia)) as Hf.
  replace (i + 4 - i)%nat with 4%nat in Hf by lia.
  destruct (decode_siblings_canonical (Z.to_nat k) p (i + 8) Hp ltac:(lia)) as (Hsl & Hsw & Hsc).
  assert (length (slice 6 i p) = Z.to_nat n) as Hpl by (rewrite length_slice; lia).
  split; [|split].
  - unfold encode_da_chunk. cbn [pc_shard pc_proof ds_index ds_payload leaf_index siblings].
    rewrite Hsl, Hsc, Hpl, !Z2Nat.id, !as_u32_small by ulia. f_equal. unfold n, k.
    rewrite !be_bytes_of_be by (auto with l1; rewrite length_slice; lia).
    rewrite !slice_glue_app, slice_glue by lia. apply slice_all. lia.
  - unfold chunk_wf. cbn [pc_shard pc_proof ds_index ds_payload leaf_index siblings].
    pose proof (of_be_slice_bound 0 2 p Hp ltac:(lia)) as Hx. cbn [Nat.sub] in Hx.
    split; [unfold u16; ulia|]. split; [by apply slice_ok|]. split; [ulia|done].
  - unfold chunk_fits. cbn [pc_shard pc_proof ds_payload siblings]. rewrite Hpl, Hsl. lia.
Qed.

(** [dec] reads back what [enc] writes, accepts nothing else, and only returns
    values of the Rust type. *)
Definition wire_codec {A : Type} (enc : A → bytes) (dec : bytes → result A TypesError) (wf : A → Prop) : Prop :=
  (∀ x, wf x → dec (enc x) = Ok x) ∧
  (∀ buf x, bytes_ok buf → dec buf = Ok x → enc x = buf ∧ wf x).

Definition frame_wf (f : GossipFrame) : Prop := bytes_ok (gf_inner f) ∧ len (gf_inner f) < U32_MAX.

(** C24: Each of the five gossip messages is read back exactly: a frame, a vote,
    a proposal, a header and a DA chunk decode from their own encoding, and any
    buffer that decodes is the encoding of the value returned, which has the
    sizes of its Rust type.  So no two byte strings carry the same message, and
    a peer cannot make a second form of a vote or of a proposal. *)
Theorem gossip_roundtrips :
  wire_codec (λ f, encode_frame (gf_kind f) (gf_inner f)) decode_frame frame_wf ∧
  wire_codec encode_vote decode_vote gossip_vote_wf ∧
  wire_codec encode_proposal decode_proposal proposal_wf ∧
  wire_codec encode_header decode_header header_wf ∧
  wire_codec encode_da_chunk decode_da_chunk (λ c, chunk_wf c ∧ chunk_fits c).
Proof.
  split; [|split; [|split; [|split]]]; split.
  - intros [k i] [_ Hl]. by apply frame_roundtrip.
  - intros buf f Hb Hd. pose proof (frame_canonical _ _ Hb Hd) as [E Hi]. split; [done|]. split; [done|].
    unfold decode_frame in Hd. destruct (decode buf) as [p|] eqn:Ed; [|done].
    destruct (decode_Ok _ _ Hb Ed) as (_ & _ & Hl). destruct p as [|b inner]; [done|].
    destruct (kind_from_u8 b); [|done]. cbn in Hd. injection Hd as <-. cbn in *. lia.
  - apply vote_decode_encode.
  - apply vote_canonical.
  - apply proposal_decode_encode.
  - apply proposal_canonical.
  - apply header_decode_encode.
  - apply header_canonical.
  - intros c [Hw Hf]. by apply chunk_decode_encode.
  - apply chunk_canonical.
Qed.
