(* ===== verification/Tendermint.v ===== *)
(** Agreement of the consensus protocol, as a transition system over the
    steps of [consensus/src/steps.rs].

    A state is everything sent so far at one height, with the lock, the
    current round and the vote log of every validator.  An honest validator
    moves by [prevote_step] and [precommit_step], at most once per round and
    kind, keeps the lock a precommit returns, and moves its round only
    forward (what [state.rs] calls round change); a faulty one sends any vote
    under its own key.  Shown: while the faulty validators have at most a
    third of the power, no two calls of [commit] on votes of a reachable state
    finalize different blocks, in whatever rounds ([agreement]). *)

From S2P Require Import Prelude Types Codec Crypto Vrf Vote Leader Quorum.
From stdpp Require Import list.

#[local] Open Scope Z_scope.
#[local] Open Scope l1_scope.

Record Net := {
  soup : list Vote;
  locks : gmap ValidatorId Lock;
  rounds : gmap ValidatorId Round;
  logs : gmap ValidatorId ReplayLog;
}.

Definition Net_init : Net := {| soup := []; locks := ∅; rounds := ∅; logs := ∅ |}.

Definition round_of (s : Net) (i : ValidatorId) : Round := default 0 (rounds s !! i).
Definition log_of (s : Net) (i : ValidatorId) : ReplayLog := default ∅ (logs s !! i).

(** [v] is sent; its sender's log and lock are updated. *)
Definition send (s : Net) (i : ValidatorId) (v : Vote) (log : ReplayLog) (lock : option Lock) : Net :=
  {| soup := v :: soup s;
     locks := match lock with Some l => <[i := l]> (locks s) | None => locks s end;
     rounds := rounds s; logs := <[i := log]> (logs s) |}.

Definition enter_round (s : Net) (i : ValidatorId) (r : Round) : Net :=
  {| soup := soup s; locks := locks s; rounds := <[i := r]> (rounds s); logs := logs s |}.

Section protocol.
Context `{!Crypto} `{!Curve}.
Context (height : Height) (validators : ValidatorSet) (sign : ValidatorId → bytes → bytes).
Context (faulty : gset ValidatorId).

(** No vote of this slot has been sent. *)
Definition unsent (s : Net) (i : ValidatorId) (r : Round) (k : VoteKind) : Prop :=
  ∀ v, v ∈ soup s → v_signer v = i → v_round v = r → v_kind v ≠ k.

(** Prevotes of one round, one per validator, as a node collects them. *)
Definition collected (s : Net) (r : Round) (votes : list Vote) : Prop :=
  Forall (λ v, v ∈ soup s ∧ v_kind v = Prevote ∧ v_height v = height ∧ v_round v = r) votes ∧
  NoDup (v_signer <$> votes).

Definition polka_seen (s : Net) (p : option (Round * Hash)) : Prop :=
  match p with
  | None => True
  | Some (r, h) => ∃ votes, collected s r votes ∧ polka votes validators = Some (VBlock h)
  end.

Inductive step (s : Net) : Net → Prop :=
| step_prevote i proposal vrf_pks seed unlock v log :
    i ∉ faulty → unsent s i (round_of s i) Prevote → polka_seen s unlock →
    prevote_step (sign i) i proposal vrf_pks seed validators height (round_of s i)
      (locks s !! i) unlock (log_of s i) = Some (log, Ok v) →
    step s (send s i v log None)
| step_precommit i prevotes header v log lock :
    i ∉ faulty → unsent s i (round_of s i) Precommit → collected s (round_of s i) prevotes →
    precommit_step (sign i) i height (round_of s i) prevotes validators header (log_of s i) =
      (log, (v, lock)) →
    step s (send s i v log lock)
| step_round i r :
    round_of s i < r → step s (enter_round s i r)
| step_faulty v :
    v_signer v ∈ faulty → step s (send s (v_signer v) v (log_of s (v_signer v)) None).

Inductive reachable : Net → Prop :=
| reach_init : reachable Net_init
| reach_step s s' : reachable s → step s s' → reachable s'.

(** ** What the steps send *)

Lemma prevote_step_ok sk i proposal vrf_pks seed r lock unlock log log' v :
  prevote_step sk i proposal vrf_pks seed validators height r lock unlock log = Some (log', Ok v) →
  v_signer v = i ∧ v_height v = height ∧ v_round v = r ∧ v_kind v = Prevote ∧
  match v_block v with Nil => True | VBlock h => prevote_allowed lock height (VBlock h) unlock = true end.
Proof.
  unfold prevote_step. intros E. destruct (_ || _) eqn:Es in E; [done|].
  destruct (vrf_pks !! _) as [pk|]; [|done].
  destruct (verify_leader _ _ _ _) as [[|]|]; [|done|done].
  destruct (prevote_allowed _ _ _ _) eqn:Ea; cbn [negb] in E.
  - destruct (verify_vote _ _ _ _) as [l [[]|]]; simplify_eq. done.
  - destruct (verify_vote _ _ _ _) as [l r']. simplify_eq. done.
Qed.

Lemma precommit_step_ok sk i r prevotes header log log' v lock :
  precommit_step sk i height r prevotes validators header log = (log', (v, lock)) →
  v_signer v = i ∧ v_height v = height ∧ v_round v = r ∧ v_kind v = Precommit ∧
  match v_block v with
  | Nil => lock = None
  | VBlock h => lock = Some {| lk_height := height; lk_round := r; lk_block_hash := h |} ∧
                polka prevotes validators = Some (VBlock h)
  end.
Proof.
  unfold precommit_step. intros E.
  destruct (polka prevotes validators) as [[|h]|] eqn:Ep.
  - destruct (verify_vote _ _ _ _). by simplify_eq.
  - case_bool_decide as Eh; destruct (verify_vote _ _ _ _); simplify_eq; done.
  - destruct (verify_vote _ _ _ _). by simplify_eq.
Qed.

(** ** Polkas *)

Hypothesis Hpowers : powers_ok validators.

Lemma tally_power votes t b :
  default 0 (t !! b) ≤ U64_MAX →
  default 0 (foldl (tally_step validators) t votes !! b) =
    Z.min U64_MAX (default 0 (t !! b) +
      sumZ (λ v, default 0 (validators !! v_signer v)) (List.filter (λ v, bool_decide (v_block v = b)) votes)).
Proof.
  revert t. induction votes as [|v votes IH]; intros t Ht; cbn [foldl List.filter].
  { rewrite sumZ_nil. lia. }
  pose proof (signer_power_nonneg validators (List.filter (λ v, bool_decide (v_block v = b)) votes) Hpowers).
  unfold tally_step at 2. destruct (validators !! v_signer v) as [p|] eqn:Ep.
  - assert (0 ≤ p) by by apply (Hpowers (v_signer v)).
    case_bool_decide as Eb.
    + rewrite sumZ_cons, Ep, IH; rewrite Eb, lookup_insert_eq;
        set (sum := sumZ _ _) in *; cbn; unfold VotingPower_saturating_add, sat_add; lia.
    + rewrite IH; by rewrite lookup_insert_ne.
  - rewrite IH by done. case_bool_decide; [|done]. rewrite sumZ_cons, Ep. cbn [default]. lia.
Qed.

Definition supporters (votes : list Vote) (b : VoteBlock) : gset ValidatorId :=
  list_to_set (v_signer <$> List.filter (λ v, bool_decide (v_block v = b)) votes).

Lemma elem_of_supporters votes b i :
  i ∈ supporters votes b ↔ ∃ v, v ∈ votes ∧ v_signer v = i ∧ v_block v = b.
Proof.
  unfold supporters. rewrite elem_of_list_to_set, list_elem_of_fmap. split.
  - intros (v & -> & Hv%list_elem_of_In%filter_In). exists v. destruct Hv as [Hin Hb]. bsimpl.
    split; [by apply list_elem_of_In|done].
  - intros (v & Hin & <- & Hb). exists v. split; [done|]. apply list_elem_of_In, filter_In.
    split; [by apply list_elem_of_In|]. by apply bool_decide_true.
Qed.

Lemma polka_quorum votes b :
  NoDup (v_signer <$> votes) → polka votes validators = Some b →
  2 * power_sum validators < 3 * power_of validators (supporters votes b).
Proof.
  intros Hnd. unfold polka. intros ([b' p] & E & ->)%fmap_Some.
  apply find_some in E as [Hin%list_elem_of_In Hq]. apply elem_of_btree_iter in Hin. cbn in *.
  pose proof (tally_power votes ∅ b') as Ht. unfold tally in Hin. rewrite Hin, lookup_empty in Ht.
  cbn in Ht. rewrite Ht in Hq by (uint; lia). rewrite total_power_sum in Hq by done.
  unfold supporters. rewrite power_of_list, sumZ_fmap.
  - apply has_quorum_sound in Hq; [lia| |].
    + by apply signer_power_nonneg.
    + rewrite power_sum_map. by apply map_sum_nonneg.
  - clear -Hnd. induction votes as [|v votes IH]; cbn; [constructor|].
    apply NoDup_cons in Hnd as [Hv Hnd]. case_bool_decide; [|auto]. cbn. constructor; [|auto].
    intros (v' & E & Hin%list_elem_of_In%filter_In)%list_elem_of_fmap. apply Hv.
    rewrite E. apply list_elem_of_fmap. exists v'. split; [done|]. by apply list_elem_of_In, Hin.
Qed.

(** A quorum of prevotes for a block in the messages sent. *)
Definition has_polka (s : Net) (r : Round) (h : Hash) : Prop :=
  ∃ q : gset ValidatorId, 2 * power_sum validators < 3 * power_of validators q ∧
    ∀ i, i ∈ q → ∃ v, v ∈ soup s ∧ v_signer v = i ∧ v_kind v = Prevote ∧ v_round v = r ∧ v_block v = VBlock h.

Lemma collected_polka s r votes h :
  collected s r votes → polka votes validators = Some (VBlock h) → has_polka s r h.
Proof.
  intros [Hall Hnd] Hp. exists (supporters votes (VBlock h)). split; [by apply polka_quorum|].
  intros i (v & Hin & Hs & Hb)%elem_of_supporters. rewrite Forall_forall in Hall.
  destruct (Hall v Hin) as (Hv & Hk & _ & Hr). by exists v.
Qed.

Lemma has_polka_mono s s' r h : (∀ v, v ∈ soup s → v ∈ soup s') → has_polka s r h → has_polka s' r h.
Proof.
  intros Hsub (q & Hq & Hv). exists q. split; [done|]. intros i Hi.
  destruct (Hv i Hi) as (v & Hin & Hr). exists v. auto.
Qed.

(** ** The invariant *)

(** An honest vote is for this height and not of a future round; there is one
    per round and kind. *)
Definition votes_ok (s : Net) : Prop :=
  (∀ v, v ∈ soup s → v_signer v ∉ faulty →
     v_height v = height ∧ v_round v ≤ round_of s (v_signer v)) ∧
  (∀ v v', v ∈ soup s → v' ∈ soup s → v_signer v ∉ faulty → v_signer v = v_signer v' →
     v_round v = v_round v' → v_kind v = v_kind v' → v_block v = v_block v').

(** An honest validator that precommitted a block saw a polka for it, and is
    locked since: on that block, or on one with a later polka. *)
Definition locked_ok (s : Net) : Prop :=
  ∀ v h, v ∈ soup s → v_signer v ∉ faulty → v_kind v = Precommit → v_block v = VBlock h →
    has_polka s (v_round v) h ∧
    ∃ l, locks s !! v_signer v = Some l ∧ lk_height l = height ∧ v_round v ≤ lk_round l ∧
      (lk_round l = v_round v → lk_block_hash l = h) ∧ has_polka s (lk_round l) (lk_block_hash l).

(** An honest validator that leaves the block it precommitted saw a later
    polka for the other one. *)
Definition unlock_ok (s : Net) : Prop :=
  ∀ v v' h h', v ∈ soup s → v' ∈ soup s → v_signer v ∉ faulty → v_signer v = v_signer v' →
    v_kind v = Precommit → v_block v = VBlock h → v_kind v' = Prevote → v_block v' = VBlock h' →
    v_round v < v_round v' → h ≠ h' → ∃ r, v_round v < r ∧ has_polka s r h'.

(** Once another block has a polka after round [r], a quorum of validators
    whose honest members never precommit [h] in round [r] exists. *)
Definition sealed (s : Net) (r : Round) (h : Hash) : Prop :=
  ∃ q : gset ValidatorId, 2 * power_sum validators < 3 * power_of validators q ∧
    ∀ i, i ∈ q → i ∉ faulty → r < round_of s i ∧
      ∀ v, v ∈ soup s → v_signer v = i → v_kind v = Precommit → v_round v = r → v_block v ≠ VBlock h.

Definition sealed_ok (s : Net) : Prop :=
  ∀ r h r' h', r < r' → h ≠ h' → has_polka s r' h' → sealed s r h.

Definition net_inv (s : Net) : Prop := votes_ok s ∧ locked_ok s ∧ unlock_ok s ∧ sealed_ok s.

Lemma net_inv_init : net_inv Net_init.
Proof.
  assert (∀ v, v ∉ soup Net_init) as Hno by (intros v; apply not_elem_of_nil).
  split; [split; intros v ** |split; [intros v h Hv|split; [intros v v' h h' Hv|]]]; [by exfalso; eapply Hno..|].
  intros r h r' h' _ _ (q & Hq & Hv). exists q. split; [done|]. intros i Hi _.
  destruct (Hv i Hi) as (v & Hin & _). by apply Hno in Hin.
Qed.

(** Moving to a later round changes no message. *)
Lemma round_of_enter s i r j :
  round_of (enter_round s i r) j = if bool_decide (i = j) then r else round_of s j.
Proof.
  unfold round_of, enter_round. cbn. case_bool_decide; [subst; by rewrite lookup_insert_eq|].
  by rewrite lookup_insert_ne.
Qed.

Lemma net_inv_round s i r : net_inv s → round_of s i < r → net_inv (enter_round s i r).
Proof.
  intros ((Hv1 & Hv2) & Hl & Hu & Hs) Hr.
  assert (∀ j, round_of s j ≤ round_of (enter_round s i r) j) as Hmono.
  { intros j. rewrite round_of_enter. case_bool_decide; [subst|]; lia. }
  split; [|split; [exact Hl|split; [exact Hu|]]].
  - split; [|exact Hv2]. intros v Hin Hf. destruct (Hv1 v Hin Hf). split; [done|]. etrans; [done|apply Hmono].
  - intros r0 h r' h' H1 H2 Hp. destruct (Hs r0 h r' h' H1 H2 Hp) as (q & Hq & Hv).
    exists q. split; [done|]. intros j Hj Hf. destruct (Hv j Hj Hf) as [Hlt Hno].
    split; [specialize (Hmono j); lia|exact Hno].
Qed.

(** What an honest validator respects when it sends a vote. *)
Record honest_send (s : Net) (v : Vote) (lock : option Lock) : Prop := {
  hs_height : v_height v = height;
  hs_round : v_round v = round_of s (v_signer v);
  hs_unsent : unsent s (v_signer v) (v_round v) (v_kind v);
  hs_lock : match lock with
            | Some l => v_kind v = Precommit ∧ v_block v = VBlock (lk_block_hash l) ∧
                        lk_height l = height ∧ lk_round l = v_round v ∧
                        has_polka s (v_round v) (lk_block_hash l)
            | None => v_kind v = Precommit → v_block v = Nil
            end;
  hs_prevote : v_kind v = Prevote → ∀ h, v_block v = VBlock h →
    ∃ unlock, polka_seen s unlock ∧
      prevote_allowed (locks s !! v_signer v) height (VBlock h) unlock = true;
}.

Definition sendable (s : Net) (v : Vote) (lock : option Lock) : Prop :=
  if bool_decide (v_signer v ∈ faulty) then lock = None else honest_send s v lock.

Section send.
Context (s : Net) (v : Vote) (log : ReplayLog) (lock : option Lock).
Hypothesis Hinv : net_inv s.
Hypothesis Hsend : sendable s v lock.

Let s' : Net := send s (v_signer v) v log lock.

Lemma send_honest : v_signer v ∉ faulty → honest_send s v lock.
Proof. intros Hf. unfold sendable in Hsend. by rewrite bool_decide_false in Hsend. Qed.

Lemma send_soup w : w ∈ soup s' ↔ w = v ∨ w ∈ soup s.
Proof. apply elem_of_cons. Qed.

Lemma send_polka r h : has_polka s r h → has_polka s' r h.
Proof. apply has_polka_mono. intros w Hw. apply send_soup. by right. Qed.

Lemma votes_ok_send : votes_ok s'.
Proof.
  destruct Hinv as ((Hv1 & Hv2) & _). split.
  - intros w [->|Hw]%send_soup Hf; [|by apply Hv1]. destruct (send_honest Hf) as [Hh Hr _ _ _].
    split; [done|]. by rewrite Hr.
  - intros w w' [->|Hw]%send_soup [->|Hw']%send_soup Hf Es Er Ek; [done| | |by apply Hv2].
    + destruct (send_honest Hf) as [_ Hr Hu _ _]. by destruct (Hu w').
    + rewrite Es in Hf. destruct (send_honest Hf) as [_ Hr Hu _ _]. by destruct (Hu w).
Qed.

Lemma locked_ok_send : locked_ok s'.
Proof.
  destruct Hinv as ((Hv1 & Hv2) & Hl & _). intros w h [->|Hw]%send_soup Hf Hk Hb.
  - destruct (send_honest Hf) as [_ _ _ Hlock _]. revert Hlock.
    case_eq lock; [intros l El Hlock|intros _ Hlock; by rewrite Hlock in Hb].
    destruct Hlock as (_ & Hb' & Hh & Hr & Hp). rewrite Hb in Hb'. injection Hb' as ->.
    split; [by apply send_polka|]. exists l. cbn. rewrite El, lookup_insert_eq, Hr.
    split; [done|]. split; [done|]. split; [lia|]. split; [done|]. by apply send_polka.
  - destruct (Hl w h Hw Hf Hk Hb) as (Hp & l & El & Hh & Hr & Hbl & Hpl).
    split; [by apply send_polka|].
    destruct (decide (v_signer v = v_signer w)) as [Es|Es]; [case_eq lock; [intros l' El'|intros El']|].
    + rewrite <- Es in Hf. destruct (send_honest Hf) as [_ Hrv Hu Hlock _]. rewrite El' in Hlock.
      destruct Hlock as (Hkv & _ & Hh' & Hr' & Hp'). exists l'. cbn. rewrite El', Es, lookup_insert_eq.
      split; [done|]. split; [done|]. rewrite Es in Hf. destruct (Hv1 w Hw Hf) as [_ Hrw].
      rewrite <- Es in Hrw. split; [lia|]. split; [|rewrite Hr'; by apply send_polka].
      intros E. destruct (Hu w); [done..|lia|congruence].
    + exists l. cbn. rewrite El'. split_and!; try done. by apply send_polka.
    + exists l. cbn. split_and!; try done; [|by apply send_polka].
      case_eq lock; [|done]. intros l' _. by rewrite lookup_insert_ne.
Qed.

(** The polka that lets a locked validator prevote another block. *)
Lemma unlock_polka w h h' :
  w ∈ soup s → v_signer w ∉ faulty → v_signer w = v_signer v → v_kind w = Precommit →
  v_block w = VBlock h → v_kind v = Prevote → v_block v = VBlock h' → h ≠ h' →
  ∃ r, v_round w < r ∧ has_polka s r h'.
Proof.
  intros Hw Hf Es Hk Hb Hkv Hbv Hne. destruct Hinv as (_ & Hl & _).
  destruct (Hl w h Hw Hf Hk Hb) as (_ & l & El & Hh & Hr & Hbl & Hpl).
  rewrite Es in Hf, El. destruct (send_honest Hf) as [_ _ _ _ Hpre].
  destruct (Hpre Hkv h' Hbv) as (unlock & Hseen & Hallow). rewrite El in Hallow. cbn in Hallow.
  rewrite Hh, Z.eqb_refl in Hallow. cbn in Hallow. case_bool_decide as Eh.
  - exists (lk_round l). rewrite Eh. split; [|done].
    destruct (Z.eq_dec (lk_round l) (v_round w)) as [E|]; [|lia]. apply Hbl in E. congruence.
  - destruct unlock as [[r ph]|]; [|done].
    apply andb_true_iff in Hallow as [Hlt%Z.gtb_lt ->%bool_decide_eq_true].
    destruct Hseen as (votes & Hc & Hp). exists r. split; [lia|]. by apply (collected_polka _ _ votes).
Qed.

Lemma unlock_ok_send : unlock_ok s'.
Proof.
  destruct Hinv as ((Hv1 & _) & Hl & Hu & _).
  intros w w' h h' [->|Hw]%send_soup [->|Hw']%send_soup Hf Es Hk Hb Hk' Hb' Hr Hne.
  - congruence.
  - destruct (send_honest Hf) as [_ Hrv _ _ _]. rewrite Es in Hf, Hrv. destruct (Hv1 w' Hw' Hf). lia.
  - destruct (unlock_polka w h h') as (r & Hlt & Hp); try done. exists r. split; [done|]. by apply send_polka.
  - destruct (Hu w w' h h') as (r & Hlt & Hp); try done. exists r. split; [done|]. by apply send_polka.
Qed.

Lemma sealed_send r h : sealed s r h → sealed s' r h.
Proof.
  intros (q & Hq & Hv). exists q. split; [done|]. intros i Hi Hf. destruct (Hv i Hi Hf) as [Hlt Hno].
  split; [done|]. intros w [->|Hw]%send_soup Es; [|by apply Hno]. intros Hk Hr.
  subst i. destruct (send_honest Hf) as [_ Hrv _ _ _]. lia.
Qed.

Lemma sealed_ok_send : sealed_ok s'.
Proof.
  pose proof Hinv as (_ & _ & Hu & Hs). intros r h r' h' Hr Hne (q & Hq & Hv).
  destruct (decide (Exists (λ w, v_signer w ∈ q ∧ v_signer w ∉ faulty ∧ v_kind w = Precommit ∧
    v_round w = r ∧ v_block w = VBlock h) (soup s))) as [Hex|Hno].
  - apply Exists_exists in Hex as (w & Hw & Hi & Hf & Hk & <- & Hb). apply sealed_send.
    destruct (Hv _ Hi) as (w' & [->|Hw']%send_soup & Es & Hk' & <- & Hb').
    + destruct (unlock_polka w h h') as (r1 & Hlt & Hp); try done. by apply (Hs _ _ r1 h').
    + destruct (Hu w w' h h') as (r1 & Hlt & Hp); try done. by apply (Hs _ _ r1 h').
  - destruct (decide (v_kind v = Precommit)) as [Ek|Ek].
    + apply sealed_send. apply (Hs r h r' h'); [done..|]. exists q. split; [done|]. intros i Hi.
      destruct (Hv i Hi) as (w & [->|Hw]%send_soup & Hrest); [destruct Hrest as (_ & ? & _); congruence|].
      by exists w.
    + exists q. split; [done|]. intros i Hi Hf. destruct (Hv i Hi) as (w & Hw & <- & _ & <- & _).
      destruct votes_ok_send as [Hv1 _]. destruct (Hv1 w Hw Hf) as [_ Hle]. split; [lia|].
      intros w2 [->|Hw2]%send_soup Es Hk2 Hr2 Hb2; [done|]. apply Hno, Exists_exists. exists w2.
      rewrite Es. done.
Qed.

Lemma net_inv_send : net_inv s'.
Proof.
  split; [apply votes_ok_send|]. split; [apply locked_ok_send|].
  split; [apply unlock_ok_send|apply sealed_ok_send].
Qed.

End send.

Lemma net_inv_step s s' : net_inv s → step s s' → net_inv s'.
Proof.
  intros Hinv Hstep. destruct Hstep as [i proposal vrf_pks seed unlock v log Hf Hu Hseen E
    |i prevotes header v log lock Hf Hu Hc E|i r Hr|v Hf].
  - apply prevote_step_ok in E as (<- & Hh & Hr & Hk & Hb). apply net_inv_send; [done|].
    unfold sendable. rewrite bool_decide_false by done. split; try done; try congruence.
    + by rewrite Hr, Hk.
    + intros _ h Eb. rewrite Eb in Hb. by exists unlock.
  - apply precommit_step_ok in E as (<- & Hh & Hr & Hk & Hb). apply net_inv_send; [done|].
    unfold sendable. rewrite bool_decide_false by done. split; try done; try congruence.
    + by rewrite Hr, Hk.
    + destruct (v_block v) as [|h]; [by subst lock|]. destruct Hb as [-> Hp]. cbn.
      split_and!; try done. rewrite Hr. by apply (collected_polka _ _ prevotes).
  - by apply net_inv_round.
  - apply net_inv_send; [done|]. unfold sendable. by rewrite bool_decide_true.
Qed.

Lemma reachable_inv s : reachable s → net_inv s.
Proof. induction 1; [apply net_inv_init|by eapply net_inv_step]. Qed.

(** ** Agreement *)

Hypothesis Hfaulty : 3 * power_of validators faulty ≤ power_sum validators.

(** Two quorums share an honest validator. *)
Lemma quorums_meet a b :
  2 * power_sum validators < 3 * power_of validators a →
  2 * power_sum validators < 3 * power_of validators b →
  ∃ i, i ∈ a ∧ i ∈ b ∧ i ∉ faulty.
Proof.
  intros Ha Hb. pose proof (quorum_intersection validators a b Hpowers Ha Hb) as Hq.
  destruct (decide (set_Exists (λ i, i ∉ faulty) (a ∩ b))) as [(i & [? ?]%elem_of_intersection & Hf)|Hno].
  { by exists i. }
  assert (a ∩ b ⊆ faulty) as Hsub.
  { intros i Hi. destruct (decide (i ∈ faulty)); [done|]. exfalso. apply Hno. by exists i. }
  pose proof (power_of_mono validators _ _ Hpowers Hsub). lia.
Qed.

Definition decided (s : Net) (r : Round) (h : Hash) : Prop :=
  ∃ q : gset ValidatorId, 2 * power_sum validators < 3 * power_of validators q ∧
    ∀ i, i ∈ q → ∃ v, v ∈ soup s ∧ v_signer v = i ∧ precommit_for height r (VBlock h) v.

Lemma decided_later s r h r' h' : net_inv s → decided s r h → decided s r' h' → r < r' → h = h'.
Proof.
  intros (_ & Hl & _ & Hs) (q & Hq & Hv) (q' & Hq' & Hv') Hr.
  destruct (decide (h = h')) as [|Hne]; [done|exfalso].
  destruct (quorums_meet q' q' Hq' Hq') as (j & Hj & _ & Hf).
  destruct (Hv' j Hj) as (w & Hw & <- & Hk & _ & <- & Hb).
  destruct (Hl w h' Hw Hf Hk Hb) as [Hp _].
  destruct (Hs r h (v_round w) h' Hr Hne Hp) as (q2 & Hq2 & Hno).
  destruct (quorums_meet q q2 Hq Hq2) as (i & Hi & Hi2 & Hfi).
  destruct (Hv i Hi) as (w2 & Hw2 & Es & Hk2 & _ & Hr2 & Hb2).
  destruct (Hno i Hi2 Hfi) as [_ Hn]. by apply (Hn w2).
Qed.

Lemma decided_agree s r h r' h' : net_inv s → decided s r h → decided s r' h' → h = h'.
Proof.
  intros Hinv Hd Hd'. destruct (Z.lt_trichotomy r r') as [Hlt|[<-|Hlt]].
  - by apply (decided_later s r h r' h').
  - destruct Hinv as ((_ & Hv2) & _). destruct Hd as (q & Hq & Hv), Hd' as (q' & Hq' & Hv').
    destruct (quorums_meet q q' Hq Hq') as (i & Hi & Hi' & Hf).
    destruct (Hv i Hi) as (w & Hw & Es & Hk & _ & Hr & Hb).
    destruct (Hv' i Hi') as (w' & Hw' & Es' & Hk' & _ & Hr' & Hb').
    assert (v_block w = v_block w') as E by (apply Hv2; congruence). congruence.
  - symmetry. by apply (decided_later s r' h' r h).
Qed.

Lemma commit_decided s votes reach proposal log log' f :
  Forall (λ v, v ∈ soup s ∧ v_height v = height) votes →
  commit votes validators reach proposal log = Some (log', Ok (Some f)) →
  ∃ r, decided s r (fin_block_hash f).
Proof.
  intros Hall E. apply commit_ok in E as (_ & _ & qc & _ & _ & [Hq Hv] & _); [|done].
  exists (qc_round qc), (list_to_set (qc_signers qc)). split; [done|]. intros i Hi.
  destruct (Hv i Hi) as (v & Hin & Es & Hk & _ & Hr & Hb). rewrite Forall_forall in Hall.
  destruct (Hall v Hin) as [Hs Hh]. by exists v.
Qed.

(** C2: agreement.  While the faulty validators have at most a third of the
    voting power, any two calls of [commit] on votes of this height in a
    reachable state, in whatever rounds and with whatever proposals and logs,
    finalize the same block. *)
Theorem agreement s votes1 votes2 reach1 reach2 proposal1 proposal2 log1 log2 log1' log2' f1 f2 :
  reachable s →
  Forall (λ v, v ∈ soup s ∧ v_height v = height) votes1 →
  Forall (λ v, v ∈ soup s ∧ v_height v = height) votes2 →
  commit votes1 validators reach1 proposal1 log1 = Some (log1', Ok (Some f1)) →
  commit votes2 validators reach2 proposal2 log2 = Some (log2', Ok (Some f2)) →
  fin_block_hash f1 = fin_block_hash f2.
Proof.
  intros Hs Hv1 Hv2 E1 E2. apply reachable_inv in Hs.
  destruct (commit_decided s _ _ _ _ _ _ Hv1 E1) as [r1 H1].
  destruct (commit_decided s _ _ _ _ _ _ Hv2 E2) as [r2 H2].
  by apply (decided_agree s r1 _ r2).
Qed.

End protocol.

(** ** Witness: a round in which two of three validators commit

    The third is faulty and prevotes another block.  The curve is a stand-in
    whose proofs always verify: only the operations are needed here. *)

Definition unit_curve : Curve := {|
  scalar := unit; point := unit;
  sc_mod_order _ := tt; sc_mod_order_wide _ := tt; sc_canonical _ := Some tt; sc_to_bytes _ := [];
  sc_add _ _ := tt; sc_mul _ _ := tt; sc_eqb _ _ := true;
  pt_mul _ _ := tt; pt_sub _ _ := tt; pt_is_identity _ := false; pt_mul_by_cofactor _ := tt;
  BASEPOINT := tt; encode_point _ := []; decode_point _ := Some tt; sha512 _ := replicate 64 0;
|}.

#[local] Existing Instances toy_crypto unit_curve.

Definition toy_sign (i : ValidatorId) (m : bytes) : bytes := [1].
Definition bad_vote : Vote := prevote (λ _, [1]) val_c 4 0 (toy_header 1).
Definition good_prevote (i : ValidatorId) : Vote := prevote (λ _, [1]) i 4 0 (toy_header 0).
Definition toy_pks : gmap ValidatorId bytes := {[val_a := []]}.

Definition net1 : Net :=
  send Net_init (v_signer bad_vote) bad_vote (log_of Net_init (v_signer bad_vote)) None.
(** The outcome of a step that succeeds. *)
Definition res_log (o : option (ReplayLog * result Vote PrevoteError)) : ReplayLog :=
  match o with Some (l, _) => l | None => ∅ end.
Definition res_vote (o : option (ReplayLog * result Vote PrevoteError)) : Vote :=
  match o with Some (_, Ok v) => v | _ => bad_vote end.

Definition toy_prevote_step (s : Net) (i : ValidatorId) :=
  prevote_step (toy_sign i) i (toy_proposal 0) toy_pks [] toy_set 4 (round_of s i) (locks s !! i) None (log_of s i).
Definition do_prevote (s : Net) (i : ValidatorId) : Net :=
  send s i (res_vote (toy_prevote_step s i)) (res_log (toy_prevote_step s i)) None.
Definition toy_prevotes : list Vote := [good_prevote val_a; good_prevote val_b; bad_vote].
Definition toy_precommit_step (s : Net) (i : ValidatorId) :=
  precommit_step (toy_sign i) i 4 (round_of s i) toy_prevotes toy_set (toy_header 0) (log_of s i).
Definition do_precommit (s : Net) (i : ValidatorId) : Net :=
  let r := toy_precommit_step s i in send s i r.2.1 r.1 r.2.2.

Definition net2 : Net := do_prevote net1 val_a.
Definition net3 : Net := do_prevote net2 val_b.
Definition net4 : Net := do_precommit net3 val_a.
Definition net5 : Net := do_precommit net4 val_b.

Definition toy_faulty : gset ValidatorId := {[val_c]}.

Lemma unsent_check s i r k :
  Forall (λ v, ¬ (v_signer v = i ∧ v_round v = r ∧ v_kind v = k)) (soup s) → unsent s i r k.
Proof. intros Hf v Hin Hs Hr Hk. rewrite Forall_forall in Hf. by apply (Hf v Hin). Qed.

Lemma res_ok o :
  (match o with Some (_, Ok _) => true | _ => false end) = true → o = Some (res_log o, Ok (res_vote o)).
Proof. destruct o as [[l [v|e]]|]; done. Qed.

Lemma reach_prevote s i :
  reachable 4 toy_set toy_sign toy_faulty s → i ∉ toy_faulty → unsent s i (round_of s i) Prevote →
  (match toy_prevote_step s i with Some (_, Ok _) => true | _ => false end) = true →
  reachable 4 toy_set toy_sign toy_faulty (do_prevote s i).
Proof.
  intros Hs Hf Hu E. eapply reach_step; [exact Hs|].
  by apply (step_prevote _ _ _ _ _ i (toy_proposal 0) toy_pks [] None), res_ok.
Qed.

Lemma reach_precommit s i :
  reachable 4 toy_set toy_sign toy_faulty s → i ∉ toy_faulty → unsent s i (round_of s i) Precommit →
  collected 4 s (round_of s i) toy_prevotes →
  reachable 4 toy_set toy_sign toy_faulty (do_precommit s i).
Proof.
  intros Hs Hf Hu Hc. eapply reach_step; [exact Hs|].
  apply (step_precommit _ _ _ _ _ i toy_prevotes (toy_header 0)); [done..|].
  fold (toy_precommit_step s i). by destruct (toy_precommit_step s i) as [l [v k]].
Qed.

Lemma net5_reachable : reachable 4 toy_set toy_sign toy_faulty net5.
Proof.
  assert (reachable 4 toy_set toy_sign toy_faulty net1) as H1.
  { eapply reach_step; [apply reach_init|]. apply (step_faulty _ _ _ _ _ bad_vote). by_eval. }
  apply reach_precommit; [apply reach_precommit; [apply reach_prevote; [apply reach_prevote; [exact H1|..]|..]|..]|..];
    try (apply unsent_check; by_eval); try (unfold collected; by_eval); try by_eval; vm_compute; reflexivity.
Qed.

Lemma agreement_witness : fin_block_hash (toy_fin 0) = fin_block_hash (toy_fin 0).
Proof.
  apply (agreement 4 toy_set toy_sign toy_faulty toy_powers) with
    (s := net5) (votes1 := votes_x) (votes2 := rev votes_x) (reach1 := 5) (reach2 := 5)
    (proposal1 := toy_proposal 0) (proposal2 := toy_proposal 0) (log1 := ∅) (log2 := ∅)
    (log1' := {[4 := fin_block_hash (toy_fin 0)]}) (log2' := {[4 := fin_block_hash (toy_fin 0)]}).
  - by_eval.
  - apply net5_reachable.
  - by_eval.
  - by_eval.
  - vm_compute. reflexivity.
  - vm_compute. reflexivity.
Defined.
