(* ===== verification/Staking.v ===== *)
(** The staking ledger: [execution/src/staking.rs].

    Bonds, delegations, pending unbonds and the epoch validator set.  Shown:
    what every operation does to the amount of value the ledger holds (so
    that [Exec] can account for the total supply); withdrawals take exactly
    the requested amount and only matured entries; the effective power obeys
    the delegation cap; and the set installed at an epoch boundary holds
    exactly the eligible validators. *)

From S2P Require Import Prelude Types Codec Crypto Merkle ExecBase Vote.

#[local] Open Scope Z_scope.
#[local] Open Scope l1_scope.

Record UnbondEntry := {
  ue_owner : Address;
  ue_validator : ValidatorId;
  ue_amount : Amount;
  ue_unlock_height : Height;
  ue_unlock_epoch : Z;
}.

#[export] Instance UnbondEntry_eq_dec : EqDecision UnbondEntry.
Proof. solve_decision. Defined.

Record StakingState := {
  self_bond : gmap ValidatorId Amount;
  operator : gmap ValidatorId Address;
  delegations : gmap (Address * ValidatorId) Amount;
  pending_unbond : gmap Z UnbondEntry;
  next_unbond : Z;
  tombstones : gset ValidatorId;
  current_set : gmap ValidatorId VotingPower;
  last_commit_height : Height;
  last_commit_hash : Hash;
}.

Definition StakingState_default : StakingState :=
  {| self_bond := ∅; operator := ∅; delegations := ∅; pending_unbond := ∅; next_unbond := 0;
     tombstones := ∅; current_set := ∅; last_commit_height := 0; last_commit_hash := Hash_ZERO |}.

(** Field updates. *)
Definition set_self_bond (f : gmap ValidatorId Amount → gmap ValidatorId Amount) (b : StakingState) :=
  {| self_bond := f (self_bond b); operator := operator b; delegations := delegations b;
     pending_unbond := pending_unbond b; next_unbond := next_unbond b; tombstones := tombstones b;
     current_set := current_set b; last_commit_height := last_commit_height b;
     last_commit_hash := last_commit_hash b |}.
Definition set_operator (f : gmap ValidatorId Address → gmap ValidatorId Address) (b : StakingState) :=
  {| self_bond := self_bond b; operator := f (operator b); delegations := delegations b;
     pending_unbond := pending_unbond b; next_unbond := next_unbond b; tombstones := tombstones b;
     current_set := current_set b; last_commit_height := last_commit_height b;
     last_commit_hash := last_commit_hash b |}.
Definition set_delegations
    (f : gmap (Address * ValidatorId) Amount → gmap (Address * ValidatorId) Amount) (b : StakingState) :=
  {| self_bond := self_bond b; operator := operator b; delegations := f (delegations b);
     pending_unbond := pending_unbond b; next_unbond := next_unbond b; tombstones := tombstones b;
     current_set := current_set b; last_commit_height := last_commit_height b;
     last_commit_hash := last_commit_hash b |}.
Definition set_pending (f : gmap Z UnbondEntry → gmap Z UnbondEntry) (n : Z) (b : StakingState) :=
  {| self_bond := self_bond b; operator := operator b; delegations := delegations b;
     pending_unbond := f (pending_unbond b); next_unbond := n; tombstones := tombstones b;
     current_set := current_set b; last_commit_height := last_commit_height b;
     last_commit_hash := last_commit_hash b |}.
Definition set_tombstones (f : gset ValidatorId → gset ValidatorId) (b : StakingState) :=
  {| self_bond := self_bond b; operator := operator b; delegations := delegations b;
     pending_unbond := pending_unbond b; next_unbond := next_unbond b; tombstones := f (tombstones b);
     current_set := current_set b; last_commit_height := last_commit_height b;
     last_commit_hash := last_commit_hash b |}.

(** ** Parameters *)

Definition min_self_bond_amount (registry : ParamsRegistry) : Amount :=
  default MIN_SELF_BOND (params_get registry MinSelfBond).

Definition check_min_self_bond (amount : Amount) (registry : ParamsRegistry) :
    result unit RejectReason :=
  if amount <? min_self_bond_amount registry then Err RStakeMinBond else Ok tt.

Definition delegation_cap (registry : ParamsRegistry) : Z :=
  default DELEGATION_CAP (params_get registry DelegationCap).

(** ** Voting power *)

Definition amount_power (a : Amount) : Z := Z.min a U64_MAX.

(** [acc.checked_add(a).unwrap_or(acc)]. *)
Definition add_or_keep (acc a : Amount) : Amount := default acc (Amount_checked_add acc a).

Definition delegated_to (book : StakingState) (id : ValidatorId) : Amount :=
  foldl (λ acc e, add_or_keep acc e.2) 0
    (List.filter (λ e, bool_decide (e.1.2 = id)) (btree_iter (delegations book))).

Definition effective_power (book : StakingState) (id : ValidatorId) (registry : ParamsRegistry) :
    VotingPower :=
  let self_p := amount_power (default 0 (self_bond book !! id)) in
  let del_p := amount_power (delegated_to book id) in
  let capped_del := Z.min del_p (delegation_cap registry) in
  sat_add U64_MAX self_p capped_del.

(** ** Unbonding *)

Definition unbonding_unlock (last_commit : Height) (registry : ParamsRegistry) : Height * Z :=
  let period := default UNBONDING_PERIOD (params_get registry UnbondingPeriod) in
  let epoch_len := default EPOCH_LENGTH (params_get registry EpochLength) in
  let unlock := sat_add U64_MAX last_commit period in
  (unlock, if epoch_len =? 0 then 0 else unlock / epoch_len).

Definition matured (book : StakingState) (owner : Address) (e : UnbondEntry) : bool :=
  bool_decide (ue_owner e = owner) && (ue_unlock_height e <=? last_commit_height book).

Definition matured_withdrawable (book : StakingState) (owner : Address) : Amount :=
  foldl (λ acc e, add_or_keep acc (ue_amount e)) 0
    (List.filter (matured book owner) (btree_values (pending_unbond book))).

Definition with_amount (e : UnbondEntry) (a : Amount) : UnbondEntry :=
  {| ue_owner := ue_owner e; ue_validator := ue_validator e; ue_amount := a;
     ue_unlock_height := ue_unlock_height e; ue_unlock_epoch := ue_unlock_epoch e |}.

(** [for k in keys]; the two [unwrap]s are on subtractions guarded by the
    comparison before them. *)
Fixpoint withdraw_loop (keys : list Z) (from : Address) (now : Height) (left : Amount)
    (pending : gmap Z UnbondEntry) : gmap Z UnbondEntry :=
  match keys with
  | [] => pending
  | k :: keys =>
      if left =? 0 then pending
      else match pending !! k with
           | None => withdraw_loop keys from now left pending
           | Some e =>
               if bool_decide (ue_owner e ≠ from) || (ue_unlock_height e >? now)
               then withdraw_loop keys from now left pending
               else if ue_amount e <=? left
               then withdraw_loop keys from now (left - ue_amount e) (base.delete k pending)
               else withdraw_loop keys from now 0 (<[k := with_amount e (ue_amount e - left)]> pending)
           end
  end.

(** ** [apply_stake_tx] *)

Definition stake_bond_op (book : StakingState) (registry : ParamsRegistry) (from : Address)
    (validator : option ValidatorId) (amount : Amount) : StakingState * result unit RejectReason :=
  match validator with
  | None => (book, Err RGas)
  | Some id =>
      if bool_decide (id ∈ tombstones book) then (book, Err RStakeTombstone)
      else match check_min_self_bond amount registry with
      | Err r => (book, Err r)
      | Ok _ =>
          let claim :=
            match operator book !! id with
            | Some op => if bool_decide (op ≠ from) then None else Some book
            | None => Some (set_operator <[id := from]> book)
            end in
          match claim with
          | None => (book, Err RStakeInsufficient)
          | Some book =>
              let cur := default 0 (self_bond book !! id) in
              match Amount_checked_add cur amount with
              | None => (book, Err RStakeInsufficient)
              | Some next => (set_self_bond <[id := next]> book, Ok tt)
              end
          end
      end
  end.

Definition stake_unbond_op (book : StakingState) (registry : ParamsRegistry) (from : Address)
    (validator : option ValidatorId) (amount : Amount) : StakingState * result unit RejectReason :=
  match validator with
  | None => (book, Err RGas)
  | Some id =>
      if bool_decide (operator book !! id ≠ Some from) then (book, Err RStakeInsufficient)
      else
        let cur := default 0 (self_bond book !! id) in
        match Amount_checked_sub cur amount with
        | None => (book, Err RStakeInsufficient)
        | Some next =>
            let min := min_self_bond_amount registry in
            if negb (next =? 0) && (next <? min) then (book, Err RStakeMinBond)
            else
              let book := set_self_bond <[id := next]> book in
              let unlock := unbonding_unlock (last_commit_height book) registry in
              let seq := next_unbond book in
              (set_pending <[seq := {| ue_owner := from; ue_validator := id; ue_amount := amount;
                                       ue_unlock_height := unlock.1; ue_unlock_epoch := unlock.2 |}]>
                 (sat_add U64_MAX seq 1) book, Ok tt)
        end
  end.

Definition stake_delegate_op (book : StakingState) (from : Address)
    (validator : option ValidatorId) (amount : Amount) : StakingState * result unit RejectReason :=
  match validator with
  | None => (book, Err RGas)
  | Some id =>
      if bool_decide (id ∈ tombstones book) then (book, Err RStakeTombstone)
      else
        let cur := default 0 (delegations book !! (from, id)) in
        match Amount_checked_add cur amount with
        | None => (book, Err RStakeInsufficient)
        | Some next => (set_delegations <[(from, id) := next]> book, Ok tt)
        end
  end.

Definition stake_undelegate_op (book : StakingState) (from : Address)
    (validator : option ValidatorId) (amount : Amount) : StakingState * result unit RejectReason :=
  match validator with
  | None => (book, Err RGas)
  | Some id =>
      let cur := default 0 (delegations book !! (from, id)) in
      match Amount_checked_sub cur amount with
      | None => (book, Err RStakeInsufficient)
      | Some next =>
          (set_delegations (if next =? 0 then base.delete (from, id) else <[(from, id) := next]>) book,
           Ok tt)
      end
  end.

Definition stake_withdraw_op (book : StakingState) (from : Address) (amount : Amount) :
    StakingState * result unit RejectReason :=
  let avail := matured_withdrawable book from in
  if amount >? avail then
    let any_pending :=
      existsb (λ e, bool_decide (ue_owner e = from)) (btree_values (pending_unbond book)) in
    if any_pending && (avail <? amount) then (book, Err RStakeUnbonding)
    else (book, Err RStakeInsufficient)
  else
    let keys := btree_keys (pending_unbond book) in
    (set_pending (withdraw_loop keys from (last_commit_height book) amount) (next_unbond book) book,
     Ok tt).

Definition apply_stake_tx (book : StakingState) (registry : ParamsRegistry) (from : Address)
    (tx : Tx) : StakingState * result unit RejectReason :=
  match as_stake tx with
  | None => (book, Err RGas)
  | Some s =>
      match sp_kind s with
      | Bond => stake_bond_op book registry from (sp_validator s) (sp_amount s)
      | Unbond => stake_unbond_op book registry from (sp_validator s) (sp_amount s)
      | Delegate => stake_delegate_op book from (sp_validator s) (sp_amount s)
      | Undelegate => stake_undelegate_op book from (sp_validator s) (sp_amount s)
      | Withdraw => stake_withdraw_op book from (sp_amount s)
      end
  end.

(** ** Epochs *)

Definition observe_commit (book : StakingState) (finalized : Finalized) : StakingState :=
  {| self_bond := self_bond book; operator := operator book; delegations := delegations book;
     pending_unbond := pending_unbond book; next_unbond := next_unbond book;
     tombstones := tombstones book; current_set := current_set book;
     last_commit_height := fin_height finalized; last_commit_hash := fin_block_hash finalized |}.

Definition compute_next_set (book : StakingState) (registry : ParamsRegistry) :
    gmap ValidatorId VotingPower :=
  let min := min_self_bond_amount registry in
  foldl (λ set e,
           if bool_decide (e.1 ∈ tombstones book) then set
           else if e.2 <? min then set
           else let p := effective_power book e.1 registry in
                if p >? 0 then <[e.1 := p]> set else set)
    ∅ (btree_iter (self_bond book)).

Definition set_current (set : gmap ValidatorId VotingPower) (book : StakingState) : StakingState :=
  {| self_bond := self_bond book; operator := operator book; delegations := delegations book;
     pending_unbond := pending_unbond book; next_unbond := next_unbond book;
     tombstones := tombstones book; current_set := set;
     last_commit_height := last_commit_height book; last_commit_hash := last_commit_hash book |}.

Definition epoch_set_update `{!Crypto} (book : StakingState) (registry : ParamsRegistry)
    (finalized : Finalized) : StakingState * option (Hash * gmap ValidatorId VotingPower) :=
  let book := observe_commit book finalized in
  let epoch_len := default EPOCH_LENGTH (params_get registry EpochLength) in
  if epoch_len =? 0 then (book, None)
  else
    let this_ep := fin_height finalized / epoch_len in
    let next_ep := sat_add U64_MAX (fin_height finalized) 1 / epoch_len in
    if this_ep =? next_ep then (book, None)
    else
      let set := compute_next_set book registry in
      (set_current set book, Some (validators_hash set, set)).

(** ** Folds that skip on overflow *)

Lemma add_or_keep_le acc a : 0 ≤ a → add_or_keep acc a ≤ acc + a.
Proof.
  intros Ha. unfold add_or_keep, Amount_checked_add.
  destruct (checked_add _ _ _) eqn:E; cbn; [|lia]. apply checked_add_Some in E. lia.
Qed.

Lemma foldl_add_or_keep_le {A} (f : A → Z) l acc :
  Forall (λ x, 0 ≤ f x) l → foldl (λ acc x, add_or_keep acc (f x)) acc l ≤ acc + sumZ f l.
Proof.
  intros Hl. revert acc. induction Hl as [|x l Hx Hl IH]; intros acc; cbn; rewrite ?sumZ_nil, ?sumZ_cons; [lia|].
  etrans; [apply IH|]. pose proof (add_or_keep_le acc (f x) Hx). lia.
Qed.

Lemma sumZ_filter {A} (P : A → bool) (f : A → Z) l :
  sumZ f (List.filter P l) = sumZ (λ x, if P x then f x else 0) l.
Proof.
  induction l as [|x l IH]; [done|]. cbn. rewrite sumZ_cons.
  destruct (P x); rewrite ?sumZ_cons; lia.
Qed.

(** ** Withdrawals *)

Definition is_matured (from : Address) (now : Height) (e : UnbondEntry) : bool :=
  bool_decide (ue_owner e = from) && (ue_unlock_height e <=? now).

Definition matured_at (from : Address) (now : Height) (o : option UnbondEntry) : Z :=
  match o with Some e => if is_matured from now e then ue_amount e else 0 | None => 0 end.

(** Value that [from] could withdraw at height [now]. *)
Definition matured_sum (from : Address) (now : Height) (p : gmap Z UnbondEntry) : Z :=
  map_sum (λ e, if is_matured from now e then ue_amount e else 0) p.

Lemma matured_keys from now p :
  sumZ (λ k, matured_at from now (p !! k)) (btree_keys p) = matured_sum from now p.
Proof.
  unfold matured_sum. rewrite <- sumZ_btree_iter. unfold btree_keys. rewrite sumZ_fmap.
  apply sumZ_ext. apply Forall_forall. intros [k e] Hk%elem_of_btree_iter. cbn. by rewrite Hk.
Qed.

Lemma matured_withdrawable_le book from :
  map_Forall (λ _ e, 0 ≤ ue_amount e) (pending_unbond book) →
  matured_withdrawable book from ≤ matured_sum from (last_commit_height book) (pending_unbond book).
Proof.
  intros Hp. unfold matured_withdrawable. etrans; [apply foldl_add_or_keep_le|].
  - apply Forall_forall. intros e He. apply list_elem_of_In, filter_In in He as [He _].
    apply list_elem_of_In in He. unfold btree_values in He.
    apply list_elem_of_fmap in He as ([k e'] & -> & Hk). apply elem_of_btree_iter in Hk.
    by apply (Hp k).
  - rewrite sumZ_filter. unfold matured_sum, btree_values. rewrite sumZ_fmap.
    rewrite <- sumZ_btree_iter, Z.add_0_l. apply Z.eq_le_incl. reflexivity.
Qed.

Lemma skip_matured e from now :
  bool_decide (ue_owner e ≠ from) || (ue_unlock_height e >? now) = negb (is_matured from now e).
Proof.
  unfold is_matured. rewrite negb_andb. f_equal.
  - repeat case_bool_decide; naive_solver.
  - by rewrite Z.gtb_ltb, Z.leb_antisym, negb_involutive.
Qed.

Lemma matured_nonneg from now (p : gmap Z UnbondEntry) keys :
  map_Forall (λ _ e, 0 ≤ ue_amount e) p → 0 ≤ sumZ (λ k, matured_at from now (p !! k)) keys.
Proof.
  intros Hp. apply sumZ_nonneg, Forall_forall. intros k _. unfold matured_at.
  destruct (p !! k) as [e|] eqn:E; [|lia]. case_match; [|lia]. by apply (Hp k).
Qed.

Lemma withdraw_loop_spec keys from now left p :
  NoDup keys → map_Forall (λ _ e, 0 ≤ ue_amount e) p → 0 ≤ left →
  left ≤ sumZ (λ k, matured_at from now (p !! k)) keys →
  let p' := withdraw_loop keys from now left p in
  map_sum ue_amount p' = map_sum ue_amount p - left ∧
  matured_sum from now p' = matured_sum from now p - left ∧
  map_Forall (λ _ e, 0 ≤ ue_amount e) p' ∧ dom p' ⊆ dom p ∧
  (∀ k e, p !! k = Some e → is_matured from now e = false → p' !! k = Some e).
Proof.
  intros Hnd. revert left p.
  induction Hnd as [|k keys Hk Hnd IH]; intros left p Hp Hl Hle; rewrite ?sumZ_nil, ?sumZ_cons in Hle; cbn.
  { assert (left = 0) as -> by lia. repeat split; auto; lia. }
  destruct (Z.eqb_spec left 0) as [->|Hl0].
  { repeat split; auto; lia. }
  destruct (p !! k) as [e|] eqn:Ek; [|by apply IH; cbn in Hle; auto; lia].
  rewrite skip_matured. cbn in Hle. destruct (is_matured from now e) eqn:Em; cbn [negb].
  2: { apply IH; auto; lia. }
  assert (0 ≤ ue_amount e) as He by (by apply (Hp k)).
  assert (∀ (q : gmap Z UnbondEntry) left, (∀ k', k' ≠ k → q !! k' = p !! k') →
    left ≤ sumZ (λ k, matured_at from now (p !! k)) keys →
    left ≤ sumZ (λ k, matured_at from now (q !! k)) keys) as Hrest.
  { intros q l Hq Hlq. rewrite (sumZ_ext _ (λ k, matured_at from now (p !! k))); [done|].
    apply Forall_forall. intros k' Hk'. rewrite Hq; [done|]. by intros ->. }
  destruct (Z.leb_spec (ue_amount e) left) as [Hae|Hae].
  - destruct (IH (left - ue_amount e) (base.delete k p)) as (H1 & H2 & H3 & H4 & H5).
    + by apply map_Forall_delete.
    + lia.
    + apply Hrest; [|lia]. intros k' Hk'. by rewrite lookup_delete_ne.
    + unfold matured_sum in *. rewrite map_sum_delete, Ek in H1, H2. cbn in H1, H2. rewrite Em in H2.
      repeat split; [lia|lia|done| |].
      * etrans; [exact H4|]. rewrite dom_delete_L. set_solver.
      * intros k' e' Hk' Hm'. apply H5; [|done]. rewrite lookup_delete_ne; [done|]. congruence.
  - destruct (IH 0 (<[k := with_amount e (ue_amount e - left)]> p)) as (H1 & H2 & H3 & H4 & H5).
    + apply map_Forall_insert_2; [cbn; lia|done].
    + lia.
    + apply matured_nonneg. apply map_Forall_insert_2; [cbn; lia|done].
    + unfold matured_sum in *. rewrite map_sum_insert, Ek in H1, H2. cbn in H1, H2.
      rewrite Em in H2. change (is_matured from now (with_amount e (ue_amount e - left)))
        with (is_matured from now e) in H2. rewrite Em in H2. cbn in H2.
      repeat split; [lia|lia|done| |].
      * etrans; [exact H4|]. rewrite dom_insert_L. apply elem_of_dom_2 in Ek. set_solver.
      * intros k' e' Hk' Hm'. apply H5; [|done]. rewrite lookup_insert_ne; [done|]. congruence.
Qed.

(** ** The value held by the ledger *)

Definition stake_total (b : StakingState) : Z :=
  map_sum id (self_bond b) + map_sum id (delegations b) + map_sum ue_amount (pending_unbond b).

Definition book_wf (b : StakingState) : Prop :=
  map_Forall (λ _ a, 0 ≤ a) (self_bond b) ∧ map_Forall (λ _ a, 0 ≤ a) (delegations b) ∧
  map_Forall (λ k e, 0 ≤ ue_amount e ∧ k < next_unbond b) (pending_unbond b).

(** What a successful operation adds to the ledger. *)
Definition stake_delta (s : StakePayload) : Z :=
  match sp_kind s with
  | Bond | Delegate => sp_amount s
  | Unbond => 0
  | Undelegate | Withdraw => - sp_amount s
  end.

Lemma map_sum_id_insert `{Countable K} (m : gmap K Z) k v :
  map_sum id (<[k := v]> m) = map_sum id m - default 0 (m !! k) + v.
Proof. rewrite map_sum_insert. by destruct (m !! k). Qed.

Lemma map_sum_id_delete `{Countable K} (m : gmap K Z) k :
  map_sum id (base.delete k m) = map_sum id m - default 0 (m !! k).
Proof. rewrite map_sum_delete. by destruct (m !! k). Qed.

(** An operation preserves the invariant and changes the value by [d] if it
    succeeds. *)
Definition accounted (book : StakingState) (d : Z) (r : StakingState * result unit RejectReason) : Prop :=
  book_wf r.1 ∧
  stake_total r.1 = stake_total book + match r.2 with Ok _ => d | Err _ => 0 end.

Lemma accounted_err book d e : book_wf book → accounted book d (book, Err e).
Proof. intros Hw. split; [done|]. cbn. lia. Qed.

Lemma book_wf_self_bond f b :
  book_wf b → map_Forall (λ _ a, 0 ≤ a) (f (self_bond b)) → book_wf (set_self_bond f b).
Proof. by intros (_ & ? & ?). Qed.

Lemma bond_accounted book registry from v a :
  book_wf book → 0 ≤ a → accounted book a (stake_bond_op book registry from v a).
Proof.
  intros Hw Ha. unfold stake_bond_op. destruct v as [id|]; [|by apply accounted_err].
  case_bool_decide; [by apply accounted_err|].
  destruct (check_min_self_bond _ _); [|by apply accounted_err].
  set (claim := match operator book !! id with Some op => _ | None => _ end).
  assert (∀ b, claim = Some b → book_wf b ∧ stake_total b = stake_total book ∧
    self_bond b = self_bond book) as Hclaim.
  { unfold claim. intros b Hb. repeat (case_match; simplify_eq); auto. }
  destruct claim as [b|]; [|by apply accounted_err].
  destruct (Hclaim b eq_refl) as (Hwb & Ht & Hsb). clear Hclaim.
  destruct (Amount_checked_add _ a) as [next|] eqn:E; [|split; cbn; [done|lia]].
  apply checked_add_Some in E as [-> _].
  assert (0 ≤ default 0 (self_bond b !! id)) as Hcur.
  { destruct (self_bond b !! id) eqn:Eb; cbn; [|lia]. destruct Hwb as [Hb _]. by apply (Hb id). }
  split; cbn [fst snd].
  - apply book_wf_self_bond; [done|]. apply map_Forall_insert_2; [lia|]. apply Hwb.
  - unfold stake_total in *. cbn. rewrite map_sum_id_insert. lia.
Qed.

Lemma unbond_accounted book registry from v a :
  book_wf book → 0 ≤ a → next_unbond book < U64_MAX →
  accounted book 0 (stake_unbond_op book registry from v a).
Proof.
  intros Hw Ha Hn. unfold stake_unbond_op. destruct v as [id|]; [|by apply accounted_err].
  case_bool_decide; [by apply accounted_err|].
  destruct (Amount_checked_sub _ a) as [next|] eqn:E; [|by apply accounted_err].
  apply checked_sub_Some in E as [-> Hge]. case_match; [by apply accounted_err|].
  destruct Hw as (H1 & H2 & H3). split; cbn [fst snd].
  - split; [|split].
    + cbn. apply map_Forall_insert_2; [lia|done].
    + done.
    + cbn. apply map_Forall_insert_2.
      * cbn. unfold sat_add. lia.
      * intros k e Hk. destruct (H3 k e Hk). unfold sat_add. lia.
  - unfold stake_total. cbn. rewrite map_sum_id_insert, map_sum_insert. cbn.
    destruct (pending_unbond book !! next_unbond book) as [e|] eqn:E; [|cbn; lia].
    destruct (H3 _ _ E). lia.
Qed.

Lemma delegate_accounted book from v a :
  book_wf book → 0 ≤ a → accounted book a (stake_delegate_op book from v a).
Proof.
  intros Hw Ha. unfold stake_delegate_op. destruct v as [id|]; [|by apply accounted_err].
  case_bool_decide; [by apply accounted_err|].
  destruct (Amount_checked_add _ a) as [next|] eqn:E; [|by apply accounted_err].
  apply checked_add_Some in E as [-> _]. destruct Hw as (H1 & H2 & H3).
  assert (0 ≤ default 0 (delegations book !! (from, id))) as Hcur.
  { destruct (delegations book !! (from, id)) eqn:Eb; cbn; [|lia]. by apply (H2 (from, id)). }
  split; cbn [fst snd].
  - split; [done|]. split; [|done]. cbn. apply map_Forall_insert_2; [lia|done].
  - unfold stake_total. cbn. rewrite map_sum_id_insert. lia.
Qed.

Lemma undelegate_accounted book from v a :
  book_wf book → 0 ≤ a → accounted book (- a) (stake_undelegate_op book from v a).
Proof.
  intros Hw Ha. unfold stake_undelegate_op. destruct v as [id|]; [|by apply accounted_err].
  destruct (Amount_checked_sub _ a) as [next|] eqn:E; [|by apply accounted_err].
  apply checked_sub_Some in E as [-> Hge]. destruct Hw as (H1 & H2 & H3).
  destruct (Z.eqb_spec (default 0 (delegations book !! (from, id)) - a) 0) as [E0|E0];
    split; cbn [fst snd].
  - split; [done|]. split; [|done]. cbn. by apply map_Forall_delete.
  - unfold stake_total. cbn. rewrite map_sum_id_delete. lia.
  - split; [done|]. split; [|done]. cbn. apply map_Forall_insert_2; [lia|done].
  - unfold stake_total. cbn. rewrite map_sum_id_insert. lia.
Qed.

Lemma withdraw_spec book from a :
  book_wf book → 0 ≤ a → (stake_withdraw_op book from a).2 = Ok tt →
  let p' := pending_unbond (stake_withdraw_op book from a).1 in
  let now := last_commit_height book in
  map_sum ue_amount p' = map_sum ue_amount (pending_unbond book) - a ∧
  matured_sum from now p' = matured_sum from now (pending_unbond book) - a ∧
  map_Forall (λ _ e, 0 ≤ ue_amount e) p' ∧ dom p' ⊆ dom (pending_unbond book) ∧
  (∀ k e, pending_unbond book !! k = Some e → is_matured from now e = false → p' !! k = Some e).
Proof.
  intros (_ & _ & H3) Ha E. unfold stake_withdraw_op in *.
  assert (map_Forall (λ _ e, 0 ≤ ue_amount e) (pending_unbond book)) as Hp
    by (intros k e Hk; by destruct (H3 k e Hk)).
  destruct (Z.gtb_spec a (matured_withdrawable book from)) as [|Hle]; [by repeat case_match|].
  pose proof (matured_withdrawable_le book from Hp).
  apply withdraw_loop_spec; [apply NoDup_btree_keys|done|done|]. rewrite matured_keys. lia.
Qed.

Lemma withdraw_accounted book from a :
  book_wf book → 0 ≤ a → accounted book (- a) (stake_withdraw_op book from a).
Proof.
  intros Hw Ha. destruct ((stake_withdraw_op book from a).2) as [[]|e] eqn:E.
  - destruct (withdraw_spec book from a Hw Ha E) as (H1 & _ & H2 & H4 & _).
    destruct Hw as (Hb & Hd & Hp). unfold accounted. rewrite E.
    unfold stake_withdraw_op in *. destruct (a >? _); [by repeat case_match|]. cbn [fst snd] in *.
    split.
    + split; [done|]. split; [done|]. intros k e Hk. cbn in *. split; [by apply (H2 k)|].
      assert (k ∈ dom (pending_unbond book)) as [e' He']%elem_of_dom
        by (apply H4; by eapply elem_of_dom_2). by apply (Hp k e').
    + unfold stake_total. cbn in *. lia.
  - unfold accounted. rewrite E. unfold stake_withdraw_op in *.
    repeat (case_match; cbn in *; simplify_eq); split; done || lia.
Qed.

Lemma apply_stake_accounted book registry from tx s :
  book_wf book → next_unbond book < U64_MAX → as_stake tx = Some s → 0 ≤ sp_amount s →
  accounted book (stake_delta s) (apply_stake_tx book registry from tx).
Proof.
  intros Hw Hn Hs Ha. unfold apply_stake_tx, stake_delta. rewrite Hs. destruct (sp_kind s).
  - by apply bond_accounted.
  - by apply unbond_accounted.
  - by apply delegate_accounted.
  - by apply undelegate_accounted.
  - by apply withdraw_accounted.
Qed.

(** ** Theorems *)

(** Withdrawals are exact.  A withdrawal that succeeds reduces what the
    owner can withdraw, and the value pending, by exactly the requested
    amount, which was available; it touches no entry of another owner and
    none that has not matured.  (The availability sum that skips on overflow
    never overestimates.) *)
Theorem withdraw_exact book from a :
  book_wf book → 0 ≤ a → (stake_withdraw_op book from a).2 = Ok tt →
  let p := pending_unbond book in
  let p' := pending_unbond (stake_withdraw_op book from a).1 in
  let now := last_commit_height book in
  a ≤ matured_sum from now p ∧
  map_sum ue_amount p' = map_sum ue_amount p - a ∧
  matured_sum from now p' = matured_sum from now p - a ∧
  (∀ k e, p !! k = Some e → ue_owner e ≠ from ∨ ue_unlock_height e > now → p' !! k = Some e).
Proof.
  intros Hw Ha E p p' now.
  destruct (withdraw_spec book from a Hw Ha E) as (H1 & H2 & Hn & _ & H3).
  repeat split; [|done|done|].
  - assert (0 ≤ matured_sum from now p') as Hp; [|unfold p', p, now in *; lia].
    unfold p'. apply map_sum_nonneg. intros k e Hk. case_match; [|lia]. by apply (Hn k).
  - intros k e Hk Hnot. apply H3; [done|]. unfold is_matured.
    destruct Hnot as [Ho|Hh]; [by rewrite bool_decide_false|].
    rewrite (proj2 (Z.leb_gt _ _)) by (unfold now in Hh; lia). apply andb_false_r.
Qed.

Lemma capped_power_arith s d c :
  0 ≤ s → 0 ≤ d → u64 c →
  let sp := amount_power s in
  let p := sat_add U64_MAX sp (Z.min (amount_power d) c) in
  sp ≤ p ≤ U64_MAX ∧ p ≤ sp + c ∧ (d ≤ c → sp + d ≤ U64_MAX → p = sp + d).
Proof. intros Hs Hd Hc sp p. unfold p, sp, amount_power. ulia. Qed.

Lemma delegated_to_nonneg book id : book_wf book → 0 ≤ delegated_to book id.
Proof.
  intros (_ & Hd & _). unfold delegated_to.
  assert (∀ l acc, Forall (λ e : (Address * ValidatorId) * Z, 0 ≤ e.2) l → 0 ≤ acc →
    0 ≤ foldl (λ acc e, add_or_keep acc e.2) acc l) as Hf.
  { induction l as [|e l IH]; intros acc Hl Hacc; [done|]. apply Forall_cons in Hl as [He Hl].
    cbn. apply IH; [done|]. unfold add_or_keep, Amount_checked_add.
    destruct (checked_add _ _ _) eqn:E; cbn; [|done]. apply checked_add_Some in E. lia. }
  apply Hf; [|lia]. apply Forall_forall. intros e He.
  apply list_elem_of_In, filter_In in He as [He _]. apply list_elem_of_In in He.
  destruct e as [k v]. apply elem_of_btree_iter in He. by apply (Hd k).
Qed.

(** Delegation cannot buy power beyond the cap: the effective power is at
    least the (clamped) self-bond, exceeds it by at most the delegation cap of
    the registry, and stays within [u64]; below the cap and without overflow
    it is the exact sum of self-bond and delegations. *)
Theorem effective_power_capped book id registry :
  book_wf book → u64 (delegation_cap registry) →
  let self_p := amount_power (default 0 (self_bond book !! id)) in
  let p := effective_power book id registry in
  self_p ≤ p ≤ U64_MAX ∧ p ≤ self_p + delegation_cap registry ∧
  (delegated_to book id ≤ delegation_cap registry →
   self_p + delegated_to book id ≤ U64_MAX → p = self_p + delegated_to book id).
Proof.
  intros Hw Hc self_p p.
  pose proof (delegated_to_nonneg book id Hw) as Hd.
  assert (0 ≤ default 0 (self_bond book !! id)) as Hs.
  { destruct (self_bond book !! id) eqn:E; cbn; [|lia]. destruct Hw as [Hb _]. by apply (Hb id). }
  unfold p, self_p, effective_power. by apply capped_power_arith.
Qed.

Lemma next_set_fold (book : StakingState) (registry : ParamsRegistry) (l : list (ValidatorId * Amount))
    (acc : gmap ValidatorId VotingPower) (id : ValidatorId) :
  NoDup l.*1 → (∀ e, e ∈ l → acc !! e.1 = None) →
  foldl (λ (set : gmap ValidatorId VotingPower) (e : ValidatorId * Amount),
           if bool_decide (e.1 ∈ tombstones book) then set
           else if e.2 <? min_self_bond_amount registry then set
           else let p := effective_power book e.1 registry in
                if p >? 0 then <[e.1 := p]> set else set) acc l !! id =
  match (list_to_map l : gmap ValidatorId Amount) !! id with
  | Some amt =>
      if bool_decide (id ∈ tombstones book) || (amt <? min_self_bond_amount registry) ||
         negb (effective_power book id registry >? 0)
      then acc !! id else Some (effective_power book id registry)
  | None => acc !! id
  end.
Proof.
  revert acc. induction l as [|[k a] l IH]; intros acc Hnd Hacc; [done|].
  cbn [fmap list_fmap fst] in Hnd. apply NoDup_cons in Hnd as [Hk Hnd]. cbn [foldl fst snd].
  set (acc' := if bool_decide (k ∈ tombstones book) then acc else _).
  assert (∀ j, j ≠ k → acc' !! j = acc !! j) as Hne.
  { intros j Hj. unfold acc'. repeat case_match; done || by rewrite lookup_insert_ne. }
  rewrite IH; [|done|].
  2: { intros e He. rewrite Hne.
    - apply Hacc. by constructor.
    - intros E. apply Hk. rewrite <- E. by apply list_elem_of_fmap_2. }
  cbn [list_to_map foldr fst snd]. destruct (decide (id = k)) as [->|Hid].
  - rewrite lookup_insert_eq, not_elem_of_list_to_map_1 by done.
    pose proof (Hacc (k, a) ltac:(constructor)) as Hn. cbn in Hn. unfold acc'.
    destruct (bool_decide (k ∈ tombstones book)); [done|].
    destruct (a <? min_self_bond_amount registry); [done|]. cbn [orb].
    destruct (effective_power book k registry >? 0); [by rewrite lookup_insert_eq|done].
  - rewrite lookup_insert_ne by done. rewrite Hne by done. done.
Qed.

Lemma compute_next_set_lookup book registry id p :
  compute_next_set book registry !! id = Some p ↔
  ∃ amt, self_bond book !! id = Some amt ∧ id ∉ tombstones book ∧
    min_self_bond_amount registry ≤ amt ∧ p = effective_power book id registry ∧ 0 < p.
Proof.
  unfold compute_next_set. rewrite next_set_fold; [|apply NoDup_btree_keys|by intros; apply lookup_empty].
  assert ((list_to_map (btree_iter (self_bond book)) : gmap ValidatorId Amount) = self_bond book) as ->.
  { transitivity (list_to_map (map_to_list (self_bond book)) : gmap ValidatorId Amount);
      [|apply list_to_map_to_list].
    apply list_to_map_proper; [apply NoDup_btree_keys|apply btree_iter_perm]. }
  rewrite lookup_empty. destruct (self_bond book !! id) as [amt|].
  2: { split; [done|]. intros (? & ? & _). done. }
  destruct (bool_decide _ || _ || _) eqn:E.
  - split; [done|]. intros (amt' & [= <-] & Ht & Hm & -> & Hp).
    rewrite bool_decide_false in E by done. cbn [orb] in E.
    rewrite (proj2 (Z.ltb_ge _ _) Hm) in E. cbn [orb] in E.
    rewrite Z.gtb_ltb, (proj2 (Z.ltb_lt _ _) Hp) in E. done.
  - bsimpl. rewrite Z.gtb_ltb in *. bsimpl. naive_solver.
Qed.

(** The validator set changes only at the last height of an epoch, and the
    set installed there holds exactly the bonded validators that are not
    tombstoned, have at least the minimum self-bond and positive effective
    power, with that power; the returned hash is the header's
    [validators_hash] of this set.  Nothing else of the ledger changes except
    the record of the last commit. *)
Theorem epoch_set_update_spec `{!Crypto} book registry fin :
  let epoch_len := default EPOCH_LENGTH (params_get registry EpochLength) in
  let boundary := negb (epoch_len =? 0) &&
    negb (fin_height fin / epoch_len =? sat_add U64_MAX (fin_height fin) 1 / epoch_len) in
  let r := epoch_set_update book registry fin in
  last_commit_height r.1 = fin_height fin ∧ last_commit_hash r.1 = fin_block_hash fin ∧
  stake_total r.1 = stake_total book ∧ tombstones r.1 = tombstones book ∧
  (boundary = false → r.2 = None ∧ current_set r.1 = current_set book) ∧
  (boundary = true →
   r.2 = Some (validators_hash (current_set r.1), current_set r.1) ∧
   ∀ id p, current_set r.1 !! id = Some p ↔
     ∃ amt, self_bond book !! id = Some amt ∧ id ∉ tombstones book ∧
       min_self_bond_amount registry ≤ amt ∧
       p = effective_power book id registry ∧ 0 < p).
Proof.
  intros el boundary r. unfold r, boundary, epoch_set_update. fold el.
  destruct (el =? 0); [by repeat split|]. destruct (_ =? _); [by repeat split|].
  do 5 (split; [done|]). intros _. split; [done|]. intros id p.
  apply (compute_next_set_lookup (observe_commit book fin)).
Qed.

(** ** Witnesses *)

#[export] Instance book_wf_dec b : Decision (book_wf b).
Proof. unfold book_wf. apply _. Defined.

Definition owner_a : Address := replicate 32 1.
Definition owner_b : Address := replicate 32 2.
Definition val_v : ValidatorId := replicate 48 7.

Definition sample_entry (o : Address) (a h : Z) : UnbondEntry :=
  {| ue_owner := o; ue_validator := val_v; ue_amount := a; ue_unlock_height := h;
     ue_unlock_epoch := 0 |}.

Definition sample_book : StakingState :=
  {| self_bond := {[val_v := 500]}; operator := {[val_v := owner_a]};
     delegations := {[(owner_b, val_v) := 5000]};
     pending_unbond := <[0 := sample_entry owner_a 30 5]> (<[1 := sample_entry owner_a 40 6]>
       (<[2 := sample_entry owner_b 7 5]> {[3 := sample_entry owner_a 9 99]}));
     next_unbond := 4; tombstones := ∅; current_set := ∅; last_commit_height := 10;
     last_commit_hash := Hash_ZERO |}.

Lemma withdraw_exact_witness :
  let p := pending_unbond sample_book in
  let p' := pending_unbond (stake_withdraw_op sample_book owner_a 50).1 in
  let now := last_commit_height sample_book in
  (stake_withdraw_op sample_book owner_a 50).2 = Ok tt ∧
  50 ≤ matured_sum owner_a now p ∧
  map_sum ue_amount p' = map_sum ue_amount p - 50 ∧
  matured_sum owner_a now p' = matured_sum owner_a now p - 50 ∧
  (∀ k e, p !! k = Some e → ue_owner e ≠ owner_a ∨ ue_unlock_height e > now → p' !! k = Some e).
Proof.
  intros p p' now. assert ((stake_withdraw_op sample_book owner_a 50).2 = Ok tt) as E
    by (vm_compute; reflexivity).
  split; [exact E|]. apply (withdraw_exact sample_book owner_a 50); [by_eval|by_eval|exact E].
Defined.

Lemma effective_power_capped_witness :
  effective_power sample_book val_v ParamsRegistry_new = 1500 ∧
  let self_p := amount_power (default 0 (self_bond sample_book !! val_v)) in
  let p := effective_power sample_book val_v ParamsRegistry_new in
  self_p ≤ p ≤ U64_MAX ∧ p ≤ self_p + delegation_cap ParamsRegistry_new ∧
  (delegated_to sample_book val_v ≤ delegation_cap ParamsRegistry_new →
   self_p + delegated_to sample_book val_v ≤ U64_MAX → p = self_p + delegated_to sample_book val_v).
Proof.
  split; [vm_compute; reflexivity|].
  apply (effective_power_capped sample_book val_v ParamsRegistry_new); by_eval.
Defined.
