(* ===== verification/Slash.v ===== *)
(** Slashing: [execution/src/slash.rs].

    Shown: evidence that is accepted cuts the offender's self-bond by exactly
    the slash percentage, once, and evidence that is rejected or repeated
    changes nothing ([slash_exact_once]); a tombstone is permanent
    and removes the validator at the next epoch boundary
    ([tombstone_permanent]); the same two votes in the other order are new
    evidence and cut again ([slash_swapped_again]). *)

From S2P Require Import Prelude Types Codec Crypto Vote ExecBase Staking.
From stdpp Require Import list.

#[local] Open Scope Z_scope.
#[local] Open Scope l1_scope.

(** [SlashState]: the set [applied]. *)
Abbreviation SlashState := (gset Hash).

Section slash.
Context `{!Crypto}.

Definition evidence_hash (ev : Evidence) : Hash := hash_to_array (evidence_encode ev).

Definition slash_percent (registry : ParamsRegistry) : Z :=
  default SLASH_PERCENT (params_get registry SlashPercent).

Definition slash_apply (staking : StakingState) (slash : SlashState) (registry : ParamsRegistry)
    (evidence : Evidence) : StakingState * SlashState * result Amount VerifyError :=
  match submit_evidence evidence with
  | Err e => (staking, slash, Err e)
  | Ok _ =>
      let h := evidence_hash evidence in
      if bool_decide (h ∈ slash) then (staking, slash, Ok 0)
      else
        let id := v_signer (ev_a evidence) in
        let pct := slash_percent registry in
        let cur := default 0 (self_bond staking !! id) in
        let cut := sat_mul U128_MAX cur pct / 100 in
        let next := default 0 (Amount_checked_sub cur cut) in
        (set_self_bond <[id := next]> staking, {[h]} ∪ slash, Ok cut)
  end.

Definition tombstone (staking : StakingState) (id : ValidatorId) : StakingState :=
  set_tombstones (union {[id]}) staking.

(** ** Exactness *)

Lemma submit_swap a b :
  submit_evidence {| ev_a := a; ev_b := b |} = Ok {| ev_a := a; ev_b := b |} →
  submit_evidence {| ev_a := b; ev_b := a |} = Ok {| ev_a := b; ev_b := a |}.
Proof.
  unfold submit_evidence. cbn [ev_a ev_b]. change independent_bls_verify with verify_signature.
  unfold equivocation. destruct (verify_signature a) as [[]|]; [|done].
  destruct (verify_signature b) as [[]|]; [|done]. intros E.
  destruct (_ || _) eqn:Es in E; [done|]. bsimpl.
  destruct (bool_decide (vote_slot_key a ≠ _)) eqn:Ek in E; [done|].
  destruct (bool_decide (vote_body_hash a = _)) eqn:Eb in E; [done|]. bsimpl.
  apply dec_stable in Es0. apply dec_stable in Es1. apply dec_stable in Ek.
  rewrite Es0, Es1, Es3, Es4, Ek, !Z.eqb_refl, !bool_decide_false by (congruence || tauto). done.
Qed.

Lemma vote_payload_inj a b : vote_wf a → vote_wf b → vote_payload a = vote_payload b → v_block a = v_block b.
Proof.
  intros ([Ha _] & _ & _ & Hsa & _) ([Hb _] & _ & _ & Hsb & _) E. unfold vote_payload in E.
  apply app_inj_1 in E as [_ E]; [|congruence].
  apply app_inj_1 in E as [_ E]; [|by rewrite !length_be_bytes].
  apply app_inj_1 in E as [_ E]; [|by rewrite !length_be_bytes].
  apply app_inj_1 in E as [_ E]; [|done].
  apply app_inj_2 in E as [E _]; [|congruence]. by apply block_encode_inj.
Qed.

Lemma length_vote_payload v : vote_wf v → (length (vote_payload v) ≤ 200)%nat.
Proof.
  intros ([Hs _] & _ & _ & Hsig & Hb). unfold vote_payload. autorewrite with l1simpl. rewrite Hs, Hsig.
  destruct (v_block v) as [|h]; cbn; [lia|]. destruct Hb as [-> _]. lia.
Qed.

(** Two votes for different blocks and their swap have different encodings. *)
Lemma evidence_encode_swap a b :
  vote_wf a → vote_wf b → v_block a ≠ v_block b →
  evidence_encode {| ev_a := a; ev_b := b |} ≠ evidence_encode {| ev_a := b; ev_b := a |}.
Proof.
  intros Ha Hb Hne E. unfold evidence_encode, encode in E. cbn [ev_a ev_b] in E.
  pose proof (length_vote_payload a Ha). pose proof (length_vote_payload b Hb).
  apply app_inj_1 in E as [_ E]; [|done]. apply app_inj_1 in E as [_ E]; [|by rewrite !length_be_bytes].
  apply app_inj_1 in E as [El E]; [|by rewrite !length_be_bytes].
  unfold as_u32 in El. rewrite !Z.mod_small in El by lia. apply be_bytes_inj in El; [|cbn; lia..].
  apply app_inj_1 in E as [Ep _]; [|lia]. by apply Hne, vote_payload_inj.
Qed.

(** What one application of accepted evidence does. *)
Definition cut_of (staking : StakingState) (registry : ParamsRegistry) (id : ValidatorId) : Amount :=
  default 0 (self_bond staking !! id) * slash_percent registry / 100.

Lemma cut_bound cur pct : 0 ≤ cur → 0 ≤ pct ≤ 100 → 0 ≤ cur * pct / 100 ≤ cur.
Proof.
  intros Hc Hp. split; [apply Z.div_pos; nia|]. apply Z.div_le_upper_bound; nia.
Qed.

(** slashing is exact and happens once.  Rejected evidence changes
    nothing.  Accepted evidence that is new takes the slash percentage of the
    offender's self-bond (rounded down), and only that, out of the ledger; the
    same evidence again is accepted with a cut of zero and changes nothing. *)
Theorem slash_exact_once staking slash registry ev :
  book_wf staking → 0 ≤ slash_percent registry ≤ 100 →
  default 0 (self_bond staking !! v_signer (ev_a ev)) * slash_percent registry ≤ U128_MAX →
  let id := v_signer (ev_a ev) in
  let cut := cut_of staking registry id in
  match slash_apply staking slash registry ev with
  | (st', sl', Err e) => submit_evidence ev = Err e ∧ st' = staking ∧ sl' = slash
  | (st', sl', Ok c) =>
      submit_evidence ev = Ok ev ∧ sl' = {[evidence_hash ev]} ∪ slash ∧
      (if bool_decide (evidence_hash ev ∈ slash) then st' = staking ∧ c = 0
       else st' = set_self_bond <[id := default 0 (self_bond staking !! id) - cut]> staking ∧
            c = cut ∧ book_wf st' ∧ stake_total st' = stake_total staking - cut ∧ 0 ≤ cut) ∧
      slash_apply st' sl' registry ev = (st', sl', Ok 0)
  end.
Proof.
  intros Hwf Hpct Hmax id cut. unfold slash_apply at 1. fold id in Hmax |- *.
  assert (0 ≤ default 0 (self_bond staking !! id)) as Hcur.
  { destruct (self_bond staking !! id) as [x|] eqn:E; cbn; [|lia]. destruct Hwf as [Hb _]. by apply (Hb id). }
  pose proof (cut_bound _ _ Hcur Hpct : 0 ≤ cut ≤ _) as Hcut.
  destruct (submit_evidence ev) as [ev'|e] eqn:Es; [|done].
  assert (ev' = ev) as -> by (unfold submit_evidence in Es; inv_ok Es; done).
  case_bool_decide as Hin.
  - split; [done|]. split; [set_solver|]. split; [done|]. unfold slash_apply. rewrite Es.
    by rewrite bool_decide_true.
  - assert (sat_mul U128_MAX (default 0 (self_bond staking !! id)) (slash_percent registry) / 100 = cut) as ->
      by (unfold sat_mul; by rewrite Z.min_r).
    rewrite (proj2 (checked_sub_Some _ _ _) (conj eq_refl (proj2 Hcut)) : Amount_checked_sub _ _ = _).
    split; [done|]. split; [done|]. split.
    + split; [done|]. split; [done|]. clearbody cut. split; [|split; [|lia]].
      * apply book_wf_self_bond; [done|]. apply map_Forall_insert_2; [cbn; lia|apply Hwf].
      * unfold stake_total. cbn. rewrite map_sum_id_insert. lia.
    + unfold slash_apply. rewrite Es. by rewrite bool_decide_true by set_solver.
Qed.

Definition swap_evidence (ev : Evidence) : Evidence := {| ev_a := ev_b ev; ev_b := ev_a ev |}.

(** The order of the two votes matters.  After accepted evidence has been
    applied, the same two votes in the other order are accepted as new
    evidence of the same offence and cut the remaining bond again, unless the
    hash collides on the two encodings. *)
Theorem slash_swapped_again staking slash registry ev :
  vote_wf (ev_a ev) → vote_wf (ev_b ev) → submit_evidence ev = Ok ev →
  evidence_hash (swap_evidence ev) ∉ slash →
  let '(st1, sl1, _) := slash_apply staking slash registry ev in
  (evidence_encode ev ≠ evidence_encode (swap_evidence ev) ∧
   evidence_hash ev = evidence_hash (swap_evidence ev)) ∨
  (slash_apply st1 sl1 registry (swap_evidence ev)).2 =
    Ok (sat_mul U128_MAX (default 0 (self_bond st1 !! v_signer (ev_a ev))) (slash_percent registry) / 100).
Proof.
  intros Ha Hb Hev Hnew. destruct ev as [a b]. unfold swap_evidence in *. cbn [ev_a ev_b] in *.
  pose proof (submit_swap _ _ Hev) as Hsw.
  assert (v_signer b = v_signer a ∧ v_block a ≠ v_block b) as [Hid Hne].
  { unfold submit_evidence in Hev. cbn [ev_a ev_b] in Hev. do 2 (destruct (independent_bls_verify _); [|done]).
    destruct (equivocation a b) as [e|] eqn:Ee; [|done].
    apply equivocation_ok in Ee as (_ & _ & _ & (Hs & _) & Hne). done. }
  pose proof (evidence_encode_swap a b Ha Hb Hne) as Henc.
  destruct (decide (evidence_hash {| ev_a := a; ev_b := b |} = evidence_hash {| ev_a := b; ev_b := a |})) as [E|E].
  { destruct (slash_apply _ _ _ _) as [[st1 sl1] r]. by left. }
  unfold slash_apply at 1. rewrite Hev. case_bool_decide as Hin.
  - right. unfold slash_apply. rewrite Hsw, bool_decide_false by done. cbn. by rewrite Hid.
  - right. unfold slash_apply. rewrite Hsw, bool_decide_false by set_solver. cbn [snd ev_a]. by rewrite Hid.
Qed.

(** ** Tombstones *)

(** What changes the staking ledger. *)
Inductive ledger_op : Type :=
| LStake (registry : ParamsRegistry) (from : Address) (tx : Tx)
| LCommit (registry : ParamsRegistry) (fin : Finalized)
| LSlash (slash : SlashState) (registry : ParamsRegistry) (ev : Evidence)
| LTombstone (id : ValidatorId).

Definition ledger_step (b : StakingState) (op : ledger_op) : StakingState :=
  match op with
  | LStake registry from tx => (apply_stake_tx b registry from tx).1
  | LCommit registry fin => (epoch_set_update b registry fin).1
  | LSlash slash registry ev => (slash_apply b slash registry ev).1.1
  | LTombstone id => tombstone b id
  end.

Lemma stake_tombstones b registry from tx :
  tombstones (apply_stake_tx b registry from tx).1 = tombstones b ∧
  current_set (apply_stake_tx b registry from tx).1 = current_set b.
Proof.
  unfold apply_stake_tx. destruct (as_stake tx) as [s|]; [|done].
  destruct (sp_kind s);
    unfold stake_bond_op, stake_unbond_op, stake_delegate_op, stake_undelegate_op, stake_withdraw_op;
    repeat (case_match; simplify_eq; cbn in *; try done).
Qed.

(** A tombstoned validator whose power is still [o] or already gone. *)
Definition barred (o : option VotingPower) (b : StakingState) (id : ValidatorId) : Prop :=
  id ∈ tombstones b ∧ (current_set b !! id = None ∨ current_set b !! id = o).

Lemma epoch_barred b registry fin id :
  id ∈ tombstones b → (epoch_set_update b registry fin).2 ≠ None →
  current_set (epoch_set_update b registry fin).1 !! id = None.
Proof.
  intros Ht. unfold epoch_set_update. do 2 (case_match; [done|]). intros _. cbn.
  apply eq_None_not_Some. intros [p Hp].
  by apply (compute_next_set_lookup (observe_commit b fin)) in Hp as (amt & _ & Hno & _).
Qed.

Lemma barred_step o b op id : barred o b id → barred o (ledger_step b op) id.
Proof.
  intros [Ht Hc]. destruct op as [registry from tx|registry fin|slash registry ev|i]; cbn.
  - destruct (stake_tombstones b registry from tx) as [E1 E2]. split; [by rewrite E1|by rewrite E2].
  - pose proof (epoch_barred b registry fin id Ht) as He. revert He. unfold epoch_set_update.
    do 2 (case_match; [done|]). intros He. split; [done|]. left. by apply He.
  - unfold slash_apply. by repeat case_match.
  - split; [cbn; set_solver|done].
Qed.

(** C29: a tombstone is permanent.  Whatever staking transactions, commits,
    slashings and tombstones follow, a tombstoned validator keeps at most the
    power it had, loses it at the first epoch boundary and never regains it,
    and every bond or delegation to it is rejected and changes nothing. *)
Theorem tombstone_permanent b ops id :
  id ∈ tombstones b →
  let b' := foldl ledger_step b ops in
  id ∈ tombstones b' ∧
  (current_set b' !! id = None ∨ current_set b' !! id = current_set b !! id) ∧
  (current_set b !! id = None → current_set b' !! id = None) ∧
  (∀ registry fin, (epoch_set_update b' registry fin).2 ≠ None →
     current_set (epoch_set_update b' registry fin).1 !! id = None) ∧
  ∀ registry from tx s, as_stake tx = Some s → sp_validator s = Some id →
    sp_kind s = Bond ∨ sp_kind s = Delegate →
    apply_stake_tx b' registry from tx = (b', Err RStakeTombstone).
Proof.
  intros Hb. cbn zeta.
  assert (barred (current_set b !! id) (foldl ledger_step b ops) id) as [Ht Hc].
  { assert (barred (current_set b !! id) b id) as H0 by (split; [done|by right]).
    revert H0. generalize (current_set b !! id) as o. intros o. clear Hb. revert b.
    induction ops as [|op ops IH]; intros b Hb; [done|]. cbn. by apply IH, barred_step. }
  split; [done|]. split; [done|]. split; [intros E; rewrite E in Hc; tauto|].
  split; [intros; by apply epoch_barred|]. intros registry from tx s Es Ev Hk.
  unfold apply_stake_tx. rewrite Es. destruct Hk as [-> | ->];
    unfold stake_bond_op, stake_delegate_op; rewrite Ev; by rewrite bool_decide_true.
Qed.

End slash.

(** ** Concrete runs *)

(** Signatures of the length of a BLS signature. *)
Definition wide_crypto : Crypto := {|
  blake3 := toy_hash;
  ed25519_pk_valid _ := true;
  ed25519_verify _ _ sig := bool_decide (length sig = 64%nat);
  bls_pk_valid _ := true;
  bls_sig_valid _ := true;
  bls_verify _ _ sig := bool_decide (length sig = 96%nat);
  bls_aggregate_sigs _ := Some (replicate 96 1);
  bls_aggregate_pks _ := Some (replicate 48 2);
|}.

#[local] Existing Instance wide_crypto.

Definition wide_vote (b : VoteBlock) : Vote :=
  {| v_height := 5; v_round := 0; v_kind := Precommit; v_block := b;
     v_signer := replicate 48 3; v_signature := replicate 96 1 |}.

Definition sample_evidence : Evidence :=
  {| ev_a := wide_vote (VBlock (replicate 32 9)); ev_b := wide_vote Nil |}.

Definition offender_book : StakingState :=
  set_self_bond <[v_signer (ev_a sample_evidence) := 1000]> sample_book.

Definition slashed_once : StakingState * gset Hash * result Amount VerifyError :=
  slash_apply offender_book ∅ ParamsRegistry_new sample_evidence.

Lemma slash_exact_once_witness :
  slashed_once.2 = Ok 50 ∧
  match slashed_once with
  | (st', sl', Err e) => False
  | (st', sl', Ok c) => stake_total st' = stake_total offender_book - 50 ∧
      slash_apply st' sl' ParamsRegistry_new sample_evidence = (st', sl', Ok 0)
  end.
Proof.
  assert (slashed_once.2 = Ok 50) as E by (vm_compute; reflexivity). split; [exact E|].
  pose proof (slash_exact_once offender_book ∅ ParamsRegistry_new sample_evidence) as T.
  fold slashed_once in T. destruct slashed_once as [[st sl] [c|e]] eqn:Es; [|discriminate].
  destruct T as (_ & _ & T & R); [by_eval|by_eval|by_eval|].
  rewrite bool_decide_false in T by apply not_elem_of_empty. destruct T as (_ & _ & _ & T & _).
  split; [|exact R]. assert (cut_of offender_book ParamsRegistry_new (v_signer (ev_a sample_evidence)) = 50) as Ec
    by by_eval. by rewrite Ec in T.
Defined.

Lemma slash_swapped_again_witness :
  (slash_apply slashed_once.1.1 slashed_once.1.2 ParamsRegistry_new (swap_evidence sample_evidence)).2 =
    Ok (sat_mul U128_MAX (default 0 (self_bond slashed_once.1.1 !! v_signer (ev_a sample_evidence)))
          (slash_percent ParamsRegistry_new) / 100).
Proof.
  pose proof (slash_swapped_again offender_book ∅ ParamsRegistry_new sample_evidence) as T.
  fold slashed_once in T.
  assert (evidence_hash sample_evidence ≠ evidence_hash (swap_evidence sample_evidence)) as Hne by by_eval.
  destruct slashed_once as [[st sl] r]. cbn [fst snd].
  destruct T as [[_ T]|T]; [by_eval|by_eval|vm_compute; reflexivity|apply not_elem_of_empty|by destruct (Hne T)|exact T].
Defined.

Lemma tombstone_permanent_witness :
  let b := tombstone sample_book val_v in
  current_set (foldl ledger_step b [LTombstone owner_a; LSlash ∅ ParamsRegistry_new sample_evidence]) !! val_v = None.
Proof.
  refine (proj1 (proj2 (proj2 (tombstone_permanent (tombstone sample_book val_v) _ val_v _))) _); by_eval.
Defined.
