(* ===== verification/Wasm.v ===== *)
(** The world state and the WASM host: the [World] of [execution/src/seq.rs]
    and [execution/src/wasm/{host,call,deploy}.rs].

    The engine is third-party code.  [Wasm] is its interface: whether a module
    is valid, and the guest it runs as a tree of host calls ([Guest]); fuel
    bounds a run, so the tree is finite.  The host side is the code's:
    [sload], [sstore] and the reentrancy guard.

    Shown: a call never panics, and changes nothing but contract storage and
    the scratch fields, whatever the guest does; and a guest that calls
    back into its own contract is rejected. *)

From S2P Require Import Prelude Types Codec Crypto Merkle Store MptSpec Tries ExecBase Vote Staking.
From Stdlib Require Import String.
From stdpp Require Import list.

#[local] Open Scope Z_scope.
#[local] Open Scope l1_scope.

(** ** [World] *)

Record World {T : Type} := {
  accounts : T;
  w_storage : T;
  staking : StakingState;
  params : ParamsRegistry;
  code : gmap Address bytes;
  executing : gset Address;
  storage_reads : gset bytes;
  storage_writes : gset bytes;
  versioned : MemoryStore;
  wasm_fuel_left : Z;
}.
Arguments World : clear implicits.

Section updates.
Context {T : Type}.

Definition set_accounts (t : T) (w : World T) : World T :=
  {| accounts := t; w_storage := w_storage w; staking := staking w; params := params w;
     code := code w; executing := executing w; storage_reads := storage_reads w;
     storage_writes := storage_writes w; versioned := versioned w;
     wasm_fuel_left := wasm_fuel_left w |}.
Definition set_staking (b : StakingState) (w : World T) : World T :=
  {| accounts := accounts w; w_storage := w_storage w; staking := b; params := params w;
     code := code w; executing := executing w; storage_reads := storage_reads w;
     storage_writes := storage_writes w; versioned := versioned w;
     wasm_fuel_left := wasm_fuel_left w |}.
Definition set_code (c : gmap Address bytes) (w : World T) : World T :=
  {| accounts := accounts w; w_storage := w_storage w; staking := staking w; params := params w;
     code := c; executing := executing w; storage_reads := storage_reads w;
     storage_writes := storage_writes w; versioned := versioned w;
     wasm_fuel_left := wasm_fuel_left w |}.
Definition set_executing (e : gset Address) (w : World T) : World T :=
  {| accounts := accounts w; w_storage := w_storage w; staking := staking w; params := params w;
     code := code w; executing := e; storage_reads := storage_reads w;
     storage_writes := storage_writes w; versioned := versioned w;
     wasm_fuel_left := wasm_fuel_left w |}.
Definition set_fuel_left (z : Z) (w : World T) : World T :=
  {| accounts := accounts w; w_storage := w_storage w; staking := staking w; params := params w;
     code := code w; executing := executing w; storage_reads := storage_reads w;
     storage_writes := storage_writes w; versioned := versioned w; wasm_fuel_left := z |}.
Definition set_storage (t : T) (r wr : gset bytes) (v : MemoryStore) (w : World T) : World T :=
  {| accounts := accounts w; w_storage := t; staking := staking w; params := params w;
     code := code w; executing := executing w; storage_reads := r;
     storage_writes := wr; versioned := v; wasm_fuel_left := wasm_fuel_left w |}.
Definition clear_scratch (w : World T) : World T :=
  {| accounts := accounts w; w_storage := w_storage w; staking := staking w; params := params w;
     code := code w; executing := ∅; storage_reads := ∅; storage_writes := ∅;
     versioned := versioned w; wasm_fuel_left := wasm_fuel_left w |}.

End updates.

(** ** The engine *)

(** What a guest does next: return, trap with an error text, or call a host
    function.  When [host.reenter] fails, the engine turns the host's message
    into the error text of the trap. *)
Inductive Guest : Type :=
| GReturn (fuel_left : Z)
| GTrap (msg : string) (fuel_left : Z)
| GSload (slot : Z) (k : Z → Guest)
| GSstore (slot value : Z) (k : Guest)
| GReenter (k : Guest) (err : string → string) (fuel_left : Z).

Class Wasm := {
  (** [Module::new] succeeds. *)
  wasm_valid : bytes → bool;
  (** The run of a valid module with the given fuel; [None] when linking,
      instantiation or the lookup of the export fails. *)
  wasm_guest : bytes → Z → option Guest;
}.

(** Error texts: [s.contains(needle)] and [to_ascii_lowercase]. *)
Definition contains (hay needle : string) : bool :=
  match index 0 needle hay with Some _ => true | None => false end.

Definition lower_ascii (c : Ascii.ascii) : Ascii.ascii :=
  let n := Ascii.N_of_ascii c in
  if (65 <=? n)%N && (n <=? 90)%N then Ascii.ascii_of_N (n + 32) else c.
Definition to_ascii_lowercase (s : string) : string :=
  string_of_list_ascii (lower_ascii <$> list_ascii_of_string s).

Definition map_trap (err : string) : RejectReason :=
  let s := to_ascii_lowercase err in
  if contains s "reentrancy" then RWasmReentrancy
  else if contains s "fuel" then RWasmGas
  else RWasmInvalid.

(** ** [host.rs] *)

Definition storage_key (contract : Address) (slot : Z) : bytes :=
  contract ++ replicate 28 0 ++ be_bytes 4 slot.

Definition i64_from_value (raw : option bytes) : Z :=
  match raw with
  | Some b =>
      if (length b =? 8)%nat
      then let z := of_be b in if z <? 2 ^ 63 then z else z - 2 ^ 64
      else 0
  | None => 0
  end.

(** The search for the current version.  [None] is a failed [expect] or
    exhausted fuel. *)
Fixpoint latest_loop (fuel : nat) (s : MemoryStore) (key : bytes) (v : Z) : option Z :=
  match fuel with
  | O => None
  | S fuel' =>
      match vvalidate s key v with
      | Err _ => None
      | Ok true => Some v
      | Ok false =>
          let v := sat_add U64_MAX v 1 in
          if v =? 0 then Some 0 else latest_loop fuel' s key v
      end
  end.

(** Steps that are enough: the version itself. *)
Definition latest_fuel (s : MemoryStore) (key : bytes) : nat :=
  match latest s key with Ok l => S (Z.to_nat l) | Err _ => 1 end.

Definition find_latest (s : MemoryStore) (key : bytes) : option Z :=
  match vvalidate s key 0 with
  | Err _ => None
  | Ok true => Some 0
  | Ok false => latest_loop (latest_fuel s key) s key 1
  end.

Section host.
Context {T : Type} `{!TrieImpl T} `{!Crypto} `{!Wasm}.

Definition sload (w : World T) (contract : Address) (slot : Z) : option (World T * Z) :=
  let key := storage_key contract slot in
  let w := set_storage (w_storage w) ({[key]} ∪ storage_reads w) (storage_writes w) (versioned w) w in
  let trie_val := trie_get (w_storage w) key in
  match find_latest (versioned w) key with
  | None => None
  | Some latest =>
      match vread (versioned w) key latest with
      | Err _ => None
      | Ok _ => Some (w, i64_from_value trie_val)
      end
  end.

Definition sstore (w : World T) (contract : Address) (slot value : Z) : option (World T) :=
  match sload w contract slot with
  | None => None
  | Some (w, _) =>
      let key := storage_key contract slot in
      let bytes := be_bytes 8 (value mod 2 ^ 64) in
      let t := trie_put (w_storage w) key bytes in
      match vwrite (versioned w) key bytes with
      | (_, Err _) => None
      | (v, Ok _) =>
          Some (set_storage t (storage_reads w) ({[key]} ∪ storage_writes w) v w)
      end
  end.

(** ** [call.rs] *)

(** The message of [host_reenter]'s error. *)
Definition reenter_message (r : RejectReason) : string :=
  match r with
  | RWasmReentrancy => "reentrancy"
  | RSignature => "Signature" | RWrongNonce => "WrongNonce"
  | RInsufficientBalance => "InsufficientBalance" | RGas => "Gas"
  | RStakeMinBond => "StakeMinBond" | RStakeTombstone => "StakeTombstone"
  | RStakeUnbonding => "StakeUnbonding" | RStakeInsufficient => "StakeInsufficient"
  | RWasmInvalid => "WasmInvalid" | RWasmGas => "WasmGas" | RWasmNoCode => "WasmNoCode"
  end.

(** [func.call]: the guest against the host functions; slots are [i32 as u32]. *)
Fixpoint run_guest (reenter : World T → option (World T * result unit RejectReason))
    (contract : Address) (g : Guest) (w : World T) : option (World T * result unit RejectReason) :=
  match g with
  | GReturn fl => Some (set_fuel_left fl w, Ok tt)
  | GTrap msg fl => Some (set_fuel_left fl w, Err (map_trap msg))
  | GSload slot k =>
      match sload w contract (slot mod 2 ^ 32) with
      | None => None
      | Some (w, v) => run_guest reenter contract (k v) w
      end
  | GSstore slot value k =>
      match sstore w contract (slot mod 2 ^ 32) value with
      | None => None
      | Some w => run_guest reenter contract k w
      end
  | GReenter k err fl =>
      match reenter w with
      | None => None
      | Some (w, Ok _) => run_guest reenter contract k w
      | Some (w, Err r) => Some (set_fuel_left fl w, Err (map_trap (err (reenter_message r))))
      end
  end.

Definition run_engine (reenter : World T → option (World T * result unit RejectReason))
    (w : World T) (contract : Address) (fuel : Z) : option (World T * result unit RejectReason) :=
  match code w !! contract with
  | None => Some (w, Err RWasmNoCode)
  | Some c =>
      if negb (wasm_valid c) then Some (w, Err RWasmInvalid)
      else match wasm_guest c fuel with
           | None => Some (w, Err RWasmInvalid)
           | Some g => run_guest reenter contract g w
           end
  end.

(** [execute] and [host_reenter] are mutually recursive; [depth] bounds the
    nesting, and one level is enough because the guard stops the next. *)
Fixpoint execute (depth : nat) (w : World T) (contract : Address) (fuel : Z) :
    option (World T * result unit RejectReason) :=
  if bool_decide (contract ∈ executing w) then Some (w, Err RWasmReentrancy)
  else match code w !! contract with
  | None => Some (w, Err RWasmNoCode)
  | Some _ =>
      match depth with
      | O => None
      | S depth' =>
          let w := set_executing ({[contract]} ∪ executing w) w in
          match run_engine (λ w, execute depth' w contract 0) w contract fuel with
          | None => None
          | Some (w, r) => Some (set_executing (executing w ∖ {[contract]}) w, r)
          end
      end
  end.

(** ** [deploy.rs] *)

Definition create_address (from : Address) (nonce : Nonce) : Address :=
  hash_to_array (from ++ be_bytes 8 nonce).

Definition validate_wasm (c : bytes) : result unit RejectReason :=
  if wasm_valid c then Ok tt else Err RWasmInvalid.

Definition with_code_hash (a : Account) (h : Hash) : Account :=
  {| balance := balance a; nonce := nonce a; code_hash := h |}.

Definition install (w : World T) (addr : Address) (c : bytes) : World T * result unit RejectReason :=
  match validate_wasm c with
  | Err r => (w, Err r)
  | Ok _ =>
      let acc := default Account_empty (acct_get (accounts w) addr) in
      let acc := with_code_hash acc (hash_to_array c) in
      (set_code (<[addr := c]> (code w)) (set_accounts (acct_put (accounts w) addr acc) w), Ok tt)
  end.

Definition prepare (tx : Tx) (deploy : Deploy) : result unit RejectReason :=
  match meter tx with
  | Err e => Err (reason_of_gas e)
  | Ok _ => validate_wasm (dp_code deploy)
  end.

Definition call (w : World T) (payload : Call) (fuel : Z) :
    option (World T * result unit RejectReason) :=
  match code w !! cl_to payload with
  | None => Some (w, Err RWasmNoCode)
  | Some c =>
      match validate_wasm c with
      | Err r => Some (w, Err r)
      | Ok _ => execute 1 w (cl_to payload) fuel
      end
  end.

(** ** What a guest can change *)

(** Everything but contract storage and the scratch fields is the same. *)
Definition frame (w w' : World T) : Prop :=
  accounts w' = accounts w ∧ staking w' = staking w ∧ params w' = params w ∧ code w' = code w.

#[export] Instance frame_preorder : PreOrder frame.
Proof. split; [by intros w|]. unfold frame. intros a b c. naive_solver congruence. Qed.

(** Version headers of contract slots are eight bytes. *)
Definition versions_ok (s : MemoryStore) : Prop :=
  ∀ k b, length k = 64%nat → ms_map s !! k = Some b → array 8 b.

Lemma length_storage_key contract slot :
  length contract = 32%nat → length (storage_key contract slot) = 64%nat.
Proof. intros Hc. unfold storage_key. by rewrite !length_app, Hc, length_replicate, length_be_bytes. Qed.

Lemma versions_latest s k :
  versions_ok s → length k = 64%nat → ∃ l, latest s k = Ok l ∧ u64 l.
Proof.
  intros Hs Hk. unfold latest. cbn. destruct (ms_map s !! k) as [b|] eqn:E; cbn.
  - destruct (Hs k b Hk E) as [Hl Hb]. rewrite Hl. cbn [Nat.eqb]. exists (of_be b).
    split; [done|]. pose proof (of_be_bound b Hb) as Hbd. rewrite Hl in Hbd. uint. cbn in Hbd. lia.
  - exists 0. split; [done|]. uint. lia.
Qed.

Lemma latest_loop_finds s k l v fuel :
  latest s k = Ok l → u64 l → 0 < v ≤ l → (Z.to_nat (l - v) < fuel)%nat →
  latest_loop fuel s k v = Some l.
Proof.
  intros El Hl. revert v. induction fuel as [|fuel IH]; intros v Hv Hf; [lia|].
  cbn [latest_loop]. unfold vvalidate. rewrite El. cbn.
  destruct (Z.eqb_spec l v) as [->|Hne]; [done|].
  assert (sat_add U64_MAX v 1 = v + 1) as -> by (uint; lia).
  rewrite (proj2 (Z.eqb_neq _ _)) by lia. apply IH; lia.
Qed.

Lemma find_latest_ok s k :
  versions_ok s → length k = 64%nat → ∃ l, find_latest s k = Some l ∧ latest s k = Ok l ∧ u64 l.
Proof.
  intros Hs Hk. destruct (versions_latest s k Hs Hk) as (l & El & Hl). exists l.
  split; [|done]. unfold find_latest, vvalidate. rewrite El. cbn.
  destruct (Z.eqb_spec l 0) as [->|Hne]; [done|]. unfold latest_fuel. rewrite El.
  apply latest_loop_finds; [done|done|uint; lia|uint; lia].
Qed.

Lemma vwrite_versions_ok s k v l :
  versions_ok s → length k = 64%nat → latest s k = Ok l → u64 l →
  ∃ s' n, vwrite s k v = (s', Ok n) ∧ versions_ok s'.
Proof.
  intros Hs Hk El Hl. unfold vwrite. rewrite El.
  set (n := sat_add U64_MAX l 1). rewrite (proj2 (Z.eqb_neq n 0)) by (unfold n; uint; lia).
  assert ((apply_batch s [BPut k (be_bytes 8 n); BPut (version_key k n) v]).2 = Ok tt) as E2.
  { unfold apply_batch. cbn. by destruct (bool_decide _ || false). }
  assert (ms_map (apply_batch s [BPut k (be_bytes 8 n); BPut (version_key k n) v]).1 =
    <[version_key k n := v]> (<[k := be_bytes 8 n]> (ms_map s))) as E1.
  { unfold apply_batch. cbn. by destruct (bool_decide _ || false). }
  exists (apply_batch s [BPut k (be_bytes 8 n); BPut (version_key k n) v]).1, n.
  cbn zeta. rewrite E2. split; [done|]. intros k' b Hk' Hb. rewrite E1 in Hb.
  rewrite lookup_insert_ne in Hb by (intros <-; rewrite length_version_key in Hk'; lia).
  apply lookup_insert_Some in Hb as [[<- <-]|[_ Hb]]; [|by apply (Hs k')].
  split; [apply length_be_bytes|apply be_bytes_ok].
Qed.

Lemma sload_ok w contract slot :
  versions_ok (versioned w) → length contract = 32%nat →
  ∃ w' v, sload w contract slot = Some (w', v) ∧ frame w w' ∧ versioned w' = versioned w ∧
    executing w' = executing w ∧ w_storage w' = w_storage w.
Proof.
  intros Hv Hc. unfold sload. cbn [versioned w_storage set_storage].
  destruct (find_latest_ok (versioned w) (storage_key contract slot) Hv) as (l & -> & El & Hl).
  { by apply length_storage_key. }
  unfold vread. cbn. destruct (l =? 0); by eexists _, _.
Qed.

Lemma sstore_ok w contract slot value :
  versions_ok (versioned w) → length contract = 32%nat →
  ∃ w', sstore w contract slot value = Some w' ∧ frame w w' ∧ versions_ok (versioned w') ∧
    executing w' = executing w.
Proof.
  intros Hv Hc. unfold sstore.
  destruct (sload_ok w contract slot Hv Hc) as (w1 & x & -> & Hf & Ev & Ee & _).
  pose proof (length_storage_key contract slot Hc) as Hk. rewrite Ev.
  destruct (versions_latest (versioned w) (storage_key contract slot) Hv Hk) as (l & El & Hl).
  destruct (vwrite_versions_ok (versioned w) _ (be_bytes 8 (value mod 2 ^ 64)) l Hv Hk El Hl)
    as (s' & n & -> & Hs'). eexists. split; [reflexivity|]. done.
Qed.

Lemma run_guest_ok reenter contract g w :
  (∀ w, versions_ok (versioned w) → contract ∈ executing w →
    reenter w = Some (w, Err RWasmReentrancy)) →
  versions_ok (versioned w) → length contract = 32%nat → contract ∈ executing w →
  ∃ w' r, run_guest reenter contract g w = Some (w', r) ∧ frame w w' ∧ versions_ok (versioned w') ∧
    executing w' = executing w.
Proof.
  intros Hre Hv Hc. revert w Hv.
  induction g as [fl|msg fl|slot k IH|slot value k IH|k IH err fl]; intros w Hv He; cbn [run_guest].
  - by eexists _, _.
  - by eexists _, _.
  - destruct (sload_ok w contract (slot mod 2 ^ 32) Hv Hc) as (w1 & x & -> & Hf & Ev & Ee & _).
    destruct (IH x w1) as (w2 & r & E & Hf2 & Hv2 & Ee2); [by rewrite Ev|by rewrite Ee|].
    exists w2, r. split; [done|]. split; [by etrans|]. split; [done|congruence].
  - destruct (sstore_ok w contract (slot mod 2 ^ 32) value Hv Hc) as (w1 & -> & Hf & Ev & Ee).
    destruct (IH w1) as (w2 & r & E & Hf2 & Hv2 & Ee2); [done|by rewrite Ee|].
    exists w2, r. split; [done|]. split; [by etrans|]. split; [done|congruence].
  - rewrite Hre by done. by eexists _, _.
Qed.

Lemma execute_guard depth w contract fuel :
  contract ∈ executing w → execute depth w contract fuel = Some (w, Err RWasmReentrancy).
Proof. intros He. destruct depth; cbn [execute]; by rewrite bool_decide_true. Qed.

Lemma execute_S depth w contract fuel :
  execute (S depth) w contract fuel =
    if bool_decide (contract ∈ executing w) then Some (w, Err RWasmReentrancy)
    else match code w !! contract with
    | None => Some (w, Err RWasmNoCode)
    | Some _ =>
        match run_engine (λ w, execute depth w contract 0)
                (set_executing ({[contract]} ∪ executing w) w) contract fuel with
        | None => None
        | Some (w, r) => Some (set_executing (executing w ∖ {[contract]}) w, r)
        end
    end.
Proof. done. Qed.

Lemma execute_ok depth w contract fuel :
  versions_ok (versioned w) → length contract = 32%nat →
  ∃ w' r, execute (S depth) w contract fuel = Some (w', r) ∧ frame w w' ∧ versions_ok (versioned w').
Proof.
  intros Hv Hc. rewrite execute_S. case_bool_decide; [by exists w, (Err RWasmReentrancy)|].
  destruct (code w !! contract) as [c|] eqn:Ec; [|by exists w, (Err RWasmNoCode)].
  unfold run_engine. cbn [code set_executing]. rewrite Ec.
  destruct (negb (wasm_valid c)); [by eexists _, _|].
  destruct (wasm_guest c fuel) as [g|]; [|by eexists _, _].
  destruct (run_guest_ok (λ w, execute depth w contract 0) contract g
    (set_executing ({[contract]} ∪ executing w) w)) as (w' & r & -> & Hf & Hv' & _).
  - intros w1 _ He. by apply execute_guard.
  - done.
  - done.
  - cbn. set_solver.
  - by eexists _, _.
Qed.

Lemma call_ok w payload fuel :
  versions_ok (versioned w) → length (cl_to payload) = 32%nat →
  ∃ w' r, call w payload fuel = Some (w', r) ∧ frame w w' ∧ versions_ok (versioned w').
Proof.
  intros Hv Hc. unfold call. destruct (code w !! cl_to payload); [|by eexists _, _].
  destruct (validate_wasm _); [by apply execute_ok|by eexists _, _].
Qed.

(** C30: contract code is confined.  Whatever the deployed bytecode does, a
    call returns (no host function panics), and the accounts, the staking
    ledger, the parameters and the installed code are the same afterwards;
    version headers of the slots stay well formed. *)
Theorem call_confined w payload fuel :
  versions_ok (versioned w) → length (cl_to payload) = 32%nat →
  ∃ w' r, call w payload fuel = Some (w', r) ∧
    accounts w' = accounts w ∧ staking w' = staking w ∧ params w' = params w ∧ code w' = code w ∧
    versions_ok (versioned w').
Proof.
  intros Hv Hc. destruct (call_ok w payload fuel Hv Hc) as (w' & r & E & (?&?&?&?) & Hv').
  by exists w', r.
Qed.

(** A guest that tries to call back into its own contract on every path, under
    an engine that keeps the host's message in the error text. *)
Inductive reenters : Guest → Prop :=
| re_here k err fl :
    map_trap (err (reenter_message RWasmReentrancy)) = RWasmReentrancy → reenters (GReenter k err fl)
| re_sload slot k : (∀ v, reenters (k v)) → reenters (GSload slot k)
| re_sstore slot value k : reenters k → reenters (GSstore slot value k).

Lemma run_guest_reenters reenter contract g w :
  reenters g →
  (∀ w, contract ∈ executing w → reenter w = Some (w, Err RWasmReentrancy)) →
  versions_ok (versioned w) → length contract = 32%nat → contract ∈ executing w →
  ∃ w', run_guest reenter contract g w = Some (w', Err RWasmReentrancy).
Proof.
  intros Hg Hre Hv Hc. revert w Hv. induction Hg as [k err fl Hm|slot k _ IH|slot value k _ IH];
    intros w Hv He; cbn [run_guest].
  - rewrite Hre by done. rewrite Hm. by eexists.
  - destruct (sload_ok w contract (slot mod 2 ^ 32) Hv Hc) as (w1 & x & -> & _ & Ev & Ee & _).
    apply IH; [by rewrite Ev|by rewrite Ee].
  - destruct (sstore_ok w contract (slot mod 2 ^ 32) value Hv Hc) as (w1 & -> & _ & Ev & Ee).
    apply IH; [done|by rewrite Ee].
Qed.

(** No reentrancy: a call into a contract whose code tries to enter the
    same contract again is rejected with the reentrancy reason, before any
    nested code runs, and so is a direct entry while the contract is
    executing. *)
Theorem no_reentrancy w payload fuel c g :
  versions_ok (versioned w) → length (cl_to payload) = 32%nat →
  code w !! cl_to payload = Some c → wasm_valid c = true → wasm_guest c fuel = Some g → reenters g →
  (∃ w', call w payload fuel = Some (w', Err RWasmReentrancy)) ∧
  (∀ depth w' f, cl_to payload ∈ executing w' →
     execute depth w' (cl_to payload) f = Some (w', Err RWasmReentrancy)).
Proof.
  intros Hv Hc Ec Hvalid Hg Hre. split; [|intros; by apply execute_guard].
  unfold call, validate_wasm. rewrite Ec, Hvalid, execute_S.
  case_bool_decide; [by exists w|]. rewrite Ec. unfold run_engine. cbn [code set_executing].
  rewrite Ec, Hvalid, Hg. cbn [negb].
  destruct (run_guest_reenters (λ w, execute 0 w (cl_to payload) 0) (cl_to payload) g
    (set_executing ({[cl_to payload]} ∪ executing w) w) Hre) as (w' & ->).
  - intros w1 He. by apply execute_guard.
  - done.
  - done.
  - cbn. set_solver.
  - by eexists.
Qed.

End host.

(** ** Witnesses: one contract that stores twice, then re-enters *)

#[local] Existing Instance map_trie.

Definition toy_guest : Guest :=
  GSstore 1 5 (GSload 1 (λ v, GReenter (GSstore 2 v (GReturn 0)) (λ m, "host: " ++ m)%string 3)).
Definition toy_wasm : Wasm := {| wasm_valid c := true; wasm_guest c f := Some toy_guest |}.
#[local] Existing Instance toy_wasm.

Definition toy_contract : Address := replicate 32 4.
Definition toy_world : World (gmap bytes bytes) :=
  {| accounts := ∅; w_storage := ∅; staking := StakingState_default; params := ParamsRegistry_new;
     code := {[toy_contract := [0]]}; executing := ∅; storage_reads := ∅; storage_writes := ∅;
     versioned := MemoryStore_new; wasm_fuel_left := 0 |}.
Definition toy_call : Call := {| cl_to := toy_contract; cl_data := [] |}.

Lemma versions_ok_new : versions_ok MemoryStore_new.
Proof. intros k b _ Hb. cbn in Hb. by rewrite lookup_empty in Hb. Qed.

Lemma call_confined_witness :
  ∃ w' r, call toy_world toy_call 100 = Some (w', r) ∧
    accounts w' = accounts toy_world ∧ staking w' = staking toy_world ∧
    params w' = params toy_world ∧ code w' = code toy_world ∧ versions_ok (versioned w').
Proof. apply (call_confined toy_world toy_call 100); [apply versions_ok_new|reflexivity]. Defined.

Lemma no_reentrancy_witness :
  (∃ w', call toy_world toy_call 100 = Some (w', Err RWasmReentrancy)) ∧
  (∀ depth w' f, cl_to toy_call ∈ executing w' →
     execute depth w' (cl_to toy_call) f = Some (w', Err RWasmReentrancy)).
Proof.
  apply (no_reentrancy toy_world toy_call 100 [0] toy_guest);
    [apply versions_ok_new|reflexivity|vm_compute; reflexivity|reflexivity|reflexivity|].
  repeat constructor.
Defined.
