(* ===== verification/Mempool.v ===== *)
(** The mempool: [mempool/src/verify.rs], [queue.rs], [limits.rs], [rbf.rs],
    [fees.rs], [order.rs] and [lib.rs].

    Transactions wait per account and nonce.  Shown: every operation keeps
    each transaction filed under its sender and nonce, and a successful
    insertion that is not a replacement ends within both capacity limits
    ([insert_sound]); selection for a block terminates, stays within the gas
    and byte limits, and hands out the transactions of each account in
    consecutive nonce order from the account's nonce ([take_ready_sound]). *)

From S2P Require Import Prelude Types Codec Crypto ExecBase.
From stdpp Require Import list.

#[local] Open Scope Z_scope.
#[local] Open Scope l1_scope.

(** ** [verify.rs] *)

Inductive AdmitError : Type :=
| ASignature | AWrongNonce | AInsufficientBalance | AGas
| AMinFee | AMempoolFull | ARbfTooLow | ATxTooLarge.

#[export] Instance AdmitError_eq_dec : EqDecision AdmitError.
Proof. solve_decision. Defined.

Definition admit_of_reject (r : RejectReason) : AdmitError :=
  match r with
  | RSignature => ASignature
  | RWrongNonce => AWrongNonce
  | RInsufficientBalance => AInsufficientBalance
  | RGas => AGas
  | RStakeMinBond | RStakeTombstone | RStakeUnbonding | RStakeInsufficient => AInsufficientBalance
  | RWasmInvalid | RWasmGas | RWasmReentrancy | RWasmNoCode => AGas
  end.

Definition admit_of_check (e : CheckError) : AdmitError := admit_of_reject (reason_of_check e).
Definition admit_of_gas (e : GasError) : AdmitError := admit_of_reject (reason_of_gas e).

Record Mempool := {
  queued : gmap Address (gmap Nonce SignedTx);
  account_nonce : gmap Address Nonce;
  min_fee : Z;
  max_txs : Z;
  max_bytes : Z;
}.

Definition set_queued (q : gmap Address (gmap Nonce SignedTx)) (p : Mempool) : Mempool :=
  {| queued := q; account_nonce := account_nonce p; min_fee := min_fee p; max_txs := max_txs p;
     max_bytes := max_bytes p |}.

Section mempool.
Context `{!Crypto}.

Definition pool_sender (signed : SignedTx) : result Address AdmitError :=
  match public_key_from_bytes (st_public_key signed) with
  | None => Err ASignature
  | Some pk => Ok (from_ed25519 pk)
  end.

Definition account_for_nonce_check (tx : Tx) (account : Account) : result Account AdmitError :=
  if tx_nonce tx <? nonce account then
    let? _ := map_err admit_of_check (nonce_check tx account) in Err AWrongNonce
  else Ok {| balance := balance account; nonce := tx_nonce tx; code_hash := code_hash account |}.

(** The balance part of [verify]. *)
Definition verify_balance (tx : Tx) (account : Account) : result unit AdmitError :=
  match as_stake tx with
  | Some stake =>
      let debit := match sp_kind stake with
                   | Bond | Delegate => sp_amount stake
                   | Unbond | Undelegate | Withdraw => 0
                   end in
      map_err admit_of_check (value_balance_check tx debit account)
  | None =>
      if bool_decide (is_Some (as_deploy tx)) || bool_decide (is_Some (as_call tx))
      then map_err admit_of_check (value_balance_check tx 0 account)
      else match as_transfer tx with
           | None => Err AGas
           | Some transfer => map_err admit_of_check (balance_check tx transfer account)
           end
  end.

(** [None] is the panic of [Tx::encode]. *)
Definition mempool_verify (signed : SignedTx) (account : Account) : option (result unit AdmitError) :=
  match verify_ed25519 signed with
  | None => None
  | Some false => Some (Err ASignature)
  | Some true =>
      Some (let? _ := map_err admit_of_gas (gas_meter (st_tx signed)) in
            let? _ := verify_balance (st_tx signed) account in
            let? nonce_acct := account_for_nonce_check (st_tx signed) account in
            map_err admit_of_check (nonce_check (st_tx signed) nonce_acct))
  end.

(** ** [queue.rs] *)

(** [tx.encode().len()]; transactions that cannot be encoded never get past
    [check_tx_bytes]. *)
Definition tx_size (s : SignedTx) : Z := len (default [] (tx_encode (st_tx s))).

(** Address, nonce and transaction in the order of iteration. *)
Definition entries (p : Mempool) : list (Address * Nonce * SignedTx) :=
  concat ((λ am, (λ nt, (am.1, nt.1, nt.2)) <$> btree_iter am.2) <$> btree_iter (queued p)).

Definition tx_count (p : Mempool) : Z := sumZ (λ am, Z.of_nat (size am.2)) (btree_iter (queued p)).

Definition byte_size (p : Mempool) : Z := sumZ (λ e, tx_size e.2) (entries p).

Definition observe_account (p : Mempool) (addr : Address) (n : Nonce) : Mempool :=
  let q := match queued p !! addr with
           | None => queued p
           | Some m =>
               let m := filter (λ e, n ≤ e.1) m in
               if bool_decide (m = ∅) then base.delete addr (queued p) else <[addr := m]> (queued p)
           end in
  {| queued := q; account_nonce := <[addr := n]> (account_nonce p); min_fee := min_fee p;
     max_txs := max_txs p; max_bytes := max_bytes p |}.

Definition next_nonce (p : Mempool) (addr : Address) : Nonce := default 0 (account_nonce p !! addr).

Definition lookup_tx (p : Mempool) (addr : Address) (n : Nonce) : option SignedTx :=
  match queued p !! addr with Some m => m !! n | None => None end.

Definition ready_for (p : Mempool) (addr : Address) : option SignedTx := lookup_tx p addr (next_nonce p addr).

(** [entry(addr).or_default().insert(nonce, signed)]. *)
Definition enqueue (p : Mempool) (addr : Address) (signed : SignedTx) : Mempool :=
  set_queued (<[addr := <[tx_nonce (st_tx signed) := signed]> (default ∅ (queued p !! addr))]> (queued p)) p.

Definition queue_insert (p : Mempool) (signed : SignedTx) (account : Account) :
    option (Mempool * result Address AdmitError) :=
  match mempool_verify signed account with
  | None => None
  | Some (Err e) => Some (p, Err e)
  | Some (Ok _) =>
      match pool_sender signed with
      | Err e => Some (p, Err e)
      | Ok addr => Some (enqueue (observe_account p addr (nonce account)) addr signed, Ok addr)
      end
  end.

Definition pool_remove (p : Mempool) (addr : Address) (n : Nonce) : Mempool :=
  match queued p !! addr with
  | None => p
  | Some m =>
      let m := base.delete n m in
      set_queued (if bool_decide (m = ∅) then base.delete addr (queued p) else <[addr := m]> (queued p)) p
  end.

(** ** [limits.rs], [fees.rs], [rbf.rs] *)

Definition with_limits (min_fee max_txs max_bytes : Z) : Mempool :=
  {| queued := ∅; account_nonce := ∅; min_fee := min_fee; max_txs := max_txs; max_bytes := max_bytes |}.

(** [None] is the [expect] on the registry. *)
Definition min_fee_floor (registry : ParamsRegistry) : option Z :=
  match params_get registry MaxGas with None => None | Some _ => Some MIN_TX_FEE end.

Definition Mempool_new (registry : ParamsRegistry) : option Mempool :=
  match min_fee_floor registry with
  | None => None
  | Some f => Some (with_limits f MEMPOOL_MAX_TXS MAX_BLOCK_BYTES)
  end.

Definition check_tx_bytes (signed : SignedTx) : option (result unit AdmitError) :=
  match tx_encode (st_tx signed) with
  | None => None
  | Some b => Some (if len b >? MAX_TX_BYTES then Err ATxTooLarge else Ok tt)
  end.

Definition check_min_fee (tx : Tx) (min_fee : Z) : result unit AdmitError :=
  if tx_max_fee tx <? min_fee then Err AMinFee else Ok tt.

Definition rbf_allowed (old new : SignedTx) : result unit AdmitError :=
  let? old_p := map_err admit_of_gas (fee_priority (st_tx old)) in
  let? new_p := map_err admit_of_gas (fee_priority (st_tx new)) in
  if old_p =? 0 then if new_p >? 0 then Ok tt else Err ARbfTooLow
  else if sat_mul U128_MAX new_p 10 >=? sat_mul U128_MAX old_p 11 then Ok tt
  else Err ARbfTooLow.

Definition low_step (low : option (Z * Address * Nonce)) (e : Address * Nonce * SignedTx) :
    option (Z * Address * Nonce) :=
  match fee_priority (st_tx e.2) with
  | Err _ => low
  | Ok p =>
      let take := match low with
                  | None => true
                  | Some (lp, la, ln) => (p <? lp) || ((p =? lp) && key_lt e.1 (la, ln))
                  end in
      if take then Some (p, e.1.1, e.1.2) else low
  end.

Definition lowest_priority (p : Mempool) : option (Address * Nonce * Z) :=
  match foldl low_step None (entries p) with
  | None => None
  | Some (pr, a, n) => Some (a, n, pr)
  end.

(** [loop]; every turn removes a transaction, so that the number of
    transactions is enough fuel. *)
Fixpoint room_loop (fuel : nat) (p : Mempool) (inc_bytes inc_p : Z) : option (Mempool * result unit AdmitError) :=
  let over_count := tx_count p >=? max_txs p in
  let over_bytes := sat_add U64_MAX (byte_size p) inc_bytes >? max_bytes p in
  if negb over_count && negb over_bytes then Some (p, Ok tt)
  else match lowest_priority p with
  | None => Some (p, Err AMempoolFull)
  | Some (addr, n, low_p) =>
      if inc_p <=? low_p then Some (p, Err AMempoolFull)
      else match fuel with
           | O => None
           | S fuel => room_loop fuel (pool_remove p addr n) inc_bytes inc_p
           end
  end.

Definition ensure_room (p : Mempool) (incoming : SignedTx) : option (Mempool * result unit AdmitError) :=
  match fee_priority (st_tx incoming) with
  | Err e => Some (p, Err (admit_of_gas e))
  | Ok inc_p => room_loop (length (entries p)) p (tx_size incoming) inc_p
  end.

(** ** [lib.rs] *)

(** [insert] after its checks. *)
Definition insert_checked (p : Mempool) (signed : SignedTx) (addr : Address) :
    option (Mempool * result unit AdmitError) :=
  match lookup_tx p addr (tx_nonce (st_tx signed)) with
  | Some old =>
      match rbf_allowed old signed with
      | Err e => Some (p, Err e)
      | Ok _ => Some (enqueue p addr signed, Ok tt)
      end
  | None =>
      match ensure_room p signed with
      | None => None
      | Some (p, Err e) => Some (p, Err e)
      | Some (p, Ok _) => Some (enqueue p addr signed, Ok tt)
      end
  end.

Definition mempool_insert (p : Mempool) (signed : SignedTx) (account : Account) :
    option (Mempool * result unit AdmitError) :=
  match check_tx_bytes signed with
  | None => None
  | Some (Err e) => Some (p, Err e)
  | Some (Ok _) =>
      match check_min_fee (st_tx signed) (min_fee p) with
      | Err e => Some (p, Err e)
      | Ok _ =>
          match mempool_verify signed account with
          | None => None
          | Some (Err e) => Some (p, Err e)
          | Some (Ok _) =>
              match pool_sender signed with
              | Err e => Some (p, Err e)
              | Ok addr => insert_checked (observe_account p addr (nonce account)) signed addr
              end
          end
      end
  end.

Definition admit_preverified (p : Mempool) (signed : SignedTx) (addr : Address) : Mempool :=
  enqueue p addr signed.

(** ** [order.rs] *)

Definition best_step (local : gmap Address Nonce) (skip : gset (Address * Nonce))
    (best : option (Z * Address * SignedTx)) (e : Address * gmap Nonce SignedTx) :
    option (Z * Address * SignedTx) :=
  let n := default 0 (local !! e.1) in
  match e.2 !! n with
  | None => best
  | Some tx =>
      if bool_decide ((e.1, n) ∈ skip) then best
      else match fee_priority (st_tx tx) with
      | Err _ => best
      | Ok p =>
          let take := match best with
                      | None => true
                      | Some (bp, ba, _) => (p >? bp) || ((p =? bp) && key_lt e.1 ba)
                      end in
          if take then Some (p, e.1, tx) else best
      end
  end.

Definition peek_best_ready (p : Mempool) (local : gmap Address Nonce) (skip : gset (Address * Nonce)) :
    option (Address * SignedTx) :=
  match foldl (best_step local skip) None (btree_iter (queued p)) with
  | None => None
  | Some (_, a, t) => Some (a, t)
  end.

(** [loop]; every turn skips or removes a transaction. *)
Fixpoint take_loop (fuel : nat) (p : Mempool) (local : gmap Address Nonce) (skip : gset (Address * Nonce))
    (out : list SignedTx) (gas bytes max_gas max_bytes : Z) : option (Mempool * list SignedTx) :=
  match peek_best_ready p local skip with
  | None => Some (p, out)
  | Some (addr, signed) =>
      match fuel with
      | O => None
      | S fuel =>
          let n := tx_nonce (st_tx signed) in
          match gas_meter (st_tx signed) with
          | Err _ => take_loop fuel p local ({[(addr, n)]} ∪ skip) out gas bytes max_gas max_bytes
          | Ok g =>
              let b := u32_or_max (tx_size signed) in
              if (sat_add U64_MAX gas g >? max_gas) || (sat_add U32_MAX bytes b >? max_bytes)
              then take_loop fuel p local ({[(addr, n)]} ∪ skip) out gas bytes max_gas max_bytes
              else take_loop fuel (pool_remove p addr n)
                     (<[addr := default n (Nonce_checked_add n 1)]> local) skip (out ++ [signed])
                     (sat_add U64_MAX gas g) (sat_add U32_MAX bytes b) max_gas max_bytes
          end
      end
  end.

Definition take_ready (p : Mempool) (max_gas max_bytes : Z) : option (Mempool * list SignedTx) :=
  take_loop (length (entries p)) p (account_nonce p) ∅ [] 0 0 max_gas max_bytes.

(** ** The pool as one map *)

Definition flat (p : Mempool) : gmap (Address * Nonce) SignedTx :=
  map_uncurry (M1 := gmap Address) (M2 := gmap Nonce) (M12 := gmap (Address * Nonce)) (queued p).

Lemma lookup_flat p a n : flat p !! (a, n) = lookup_tx p a n.
Proof. unfold flat, lookup_tx. rewrite lookup_map_uncurry. by destruct (queued p !! a). Qed.

Lemma elem_of_entries p e : e ∈ entries p ↔ flat p !! e.1 = Some e.2.
Proof.
  destruct e as [[a n] s]. cbn. rewrite lookup_flat. unfold entries, lookup_tx. rewrite list_elem_of_In, in_concat.
  split.
  - intros (l & Hl & He). apply list_elem_of_In in Hl. apply list_elem_of_In in He.
    apply list_elem_of_fmap in Hl as ([a' m] & -> & Hm%elem_of_btree_iter).
    apply list_elem_of_fmap in He as ([n' s'] & E & Hs%elem_of_btree_iter). cbn in *. simplify_eq. by rewrite Hm.
  - destruct (queued p !! a) as [m|] eqn:Em; [|done]. intros Hs.
    exists ((λ nt, (a, nt.1, nt.2)) <$> btree_iter m). rewrite <- !list_elem_of_In. split.
    + apply list_elem_of_fmap. exists (a, m). split; [done|]. by apply elem_of_btree_iter.
    + apply list_elem_of_fmap. exists (n, s). split; [done|]. by apply elem_of_btree_iter.
Qed.

Lemma NoDup_entries p : NoDup (entries p).
Proof.
  unfold entries. pose proof (NoDup_btree_keys (queued p)) as Hnd. unfold btree_keys in Hnd.
  induction (btree_iter (queued p)) as [|[a m] l IH]; cbn in *; [constructor|].
  apply NoDup_cons in Hnd as [Ha Hnd]. apply NoDup_app. split; [|split; [|by apply IH]].
  - apply NoDup_fmap_2_strong.
    + intros [n s] [n' s'] _ _ E. cbn in E. by simplify_eq.
    + apply (NoDup_fmap_1 fst), NoDup_btree_keys.
  - intros e He Hc. apply list_elem_of_fmap in He as ([n s] & -> & _).
    rewrite list_elem_of_In, in_concat in Hc. destruct Hc as (k & Hk & He).
    apply list_elem_of_In in Hk. apply list_elem_of_In in He. apply list_elem_of_fmap in Hk as ([a' m'] & -> & Hm).
    apply list_elem_of_fmap in He as ([n' s'] & E & _). cbn in E. simplify_eq.
    apply Ha. apply list_elem_of_fmap. by exists (a', m').
Qed.

Lemma entries_flat p : entries p ≡ₚ map_to_list (flat p).
Proof.
  apply NoDup_Permutation; [apply NoDup_entries|apply NoDup_map_to_list|].
  intros [k s]. by rewrite elem_of_entries, elem_of_map_to_list.
Qed.

Lemma length_entries p : length (entries p) = size (flat p).
Proof. by rewrite entries_flat, length_map_to_list. Qed.

Lemma tx_count_flat p : tx_count p = Z.of_nat (size (flat p)).
Proof.
  rewrite <- length_entries. unfold tx_count, entries.
  induction (btree_iter (queued p)) as [|[a m] l IH]; [done|]. cbn.
  rewrite sumZ_cons, length_app, length_fmap, length_btree_iter. cbn. lia.
Qed.

Lemma byte_size_flat p : byte_size p = map_sum tx_size (flat p).
Proof. unfold byte_size, map_sum. by rewrite entries_flat. Qed.

Lemma flat_remove p a n : flat (pool_remove p a n) = base.delete (a, n) (flat p).
Proof.
  apply map_eq. intros [a' n']. rewrite lookup_delete. rewrite !lookup_flat. unfold pool_remove, lookup_tx.
  destruct (queued p !! a) as [m|] eqn:Em.
  - cbn. case_bool_decide as He.
    + destruct (decide (a' = a)) as [->|Hne].
      * rewrite lookup_delete_eq. case_decide; [done|]. rewrite Em.
        assert (base.delete n m !! n' = None) as Hd by (by rewrite He, lookup_empty).
        rewrite lookup_delete_ne in Hd by congruence. by rewrite Hd.
      * rewrite lookup_delete_ne by done. case_decide; [congruence|done].
    + destruct (decide (a' = a)) as [->|Hne].
      * rewrite lookup_insert_eq, Em. rewrite lookup_delete. repeat case_decide; congruence.
      * rewrite lookup_insert_ne by done. case_decide; [congruence|done].
  - case_decide; [|done]. simplify_eq. by rewrite Em.
Qed.

Lemma flat_enqueue p a s : flat (enqueue p a s) = <[(a, tx_nonce (st_tx s)) := s]> (flat p).
Proof.
  apply map_eq. intros [a' n']. rewrite lookup_insert, !lookup_flat. unfold enqueue, lookup_tx. cbn.
  destruct (decide (a' = a)) as [->|Hne].
  - rewrite lookup_insert_eq, lookup_insert. repeat case_decide; simplify_eq; try done.
    by destruct (queued p !! a).
  - rewrite lookup_insert_ne by done. case_decide; [congruence|done].
Qed.

Lemma flat_observe p a n : flat (observe_account p a n) = filter (λ e, e.1.1 = a → n ≤ e.1.2) (flat p).
Proof.
  apply map_eq. intros [a' n']. apply option_eq. intros s. rewrite map_lookup_filter_Some, !lookup_flat.
  unfold observe_account, lookup_tx. cbn. destruct (queued p !! a) as [m|] eqn:Em.
  - case_bool_decide as He.
    + destruct (decide (a' = a)) as [->|Hne].
      * rewrite lookup_delete_eq, Em. split; [done|]. intros [Hs Hn].
        assert (filter (λ e : Nonce * SignedTx, n ≤ e.1) m !! n' = Some s) as Hf
          by (apply map_lookup_filter_Some; eauto).
        by rewrite He, lookup_empty in Hf.
      * rewrite lookup_delete_ne by done. naive_solver.
    + destruct (decide (a' = a)) as [->|Hne].
      * rewrite lookup_insert_eq, Em, map_lookup_filter_Some. cbn. naive_solver.
      * rewrite lookup_insert_ne by done. naive_solver.
  - split; [|naive_solver]. intros Hs. split; [done|]. intros ->. by rewrite Em in Hs.
Qed.

(** ** The invariant *)

(** Every transaction is filed under its sender and nonce. *)
Definition pool_ok (p : Mempool) : Prop :=
  map_Forall (λ k s, pool_sender s = Ok k.1 ∧ tx_nonce (st_tx s) = k.2 ∧ tx_wf (st_tx s)) (flat p).

Definition same_config (p p' : Mempool) : Prop :=
  account_nonce p' = account_nonce p ∧ min_fee p' = min_fee p ∧ max_txs p' = max_txs p ∧
  max_bytes p' = max_bytes p.

Lemma same_config_remove p a n : same_config p (pool_remove p a n).
Proof. unfold pool_remove. by destruct (queued p !! a). Qed.

Lemma pool_ok_sub p p' : pool_ok p → flat p' ⊆ flat p → pool_ok p'.
Proof. intros Hp Hs k s Hk. apply Hp. by eapply lookup_weaken. Qed.

Lemma pool_ok_enqueue p a s :
  pool_ok p → pool_sender s = Ok a → tx_wf (st_tx s) → pool_ok (enqueue p a s).
Proof. intros Hp Ha Hw. unfold pool_ok. rewrite flat_enqueue. by apply map_Forall_insert_2. Qed.

(** ** Eviction *)

Lemma low_fold l :
  match foldl low_step None l with
  | None => Forall (λ e, is_ok (fee_priority (st_tx e.2)) = false) l
  | Some (pr, a, n) =>
      (∃ s, (a, n, s) ∈ l ∧ fee_priority (st_tx s) = Ok pr) ∧
      ∀ e q, e ∈ l → fee_priority (st_tx e.2) = Ok q → pr ≤ q
  end.
Proof.
  induction l as [|e l IH] using rev_ind; [by constructor|]. rewrite foldl_snoc. unfold low_step at 1.
  destruct (fee_priority (st_tx e.2)) as [p|err] eqn:Ep.
  - destruct (foldl low_step None l) as [[[lp la] ln]|].
    + destruct IH as [(s & Hin & Hs) Hmin].
      destruct ((p <? lp) || _) eqn:Et; cbn.
      * split.
        { exists e.2. split; [|done]. apply elem_of_app. right. destruct e as [[a n] s']. constructor. }
        intros e' q [He'|He'%list_elem_of_singleton]%elem_of_app Hq; [|subst; rewrite Ep in Hq; simplify_eq; lia].
        specialize (Hmin e' q He' Hq). apply orb_true_iff in Et as [Et|Et]; bsimpl; lia.
      * split; [exists s; split; [apply elem_of_app; by left|done]|].
        intros e' q [He'|He'%list_elem_of_singleton]%elem_of_app Hq; [by eapply Hmin|].
        subst. rewrite Ep in Hq. simplify_eq. apply orb_false_iff in Et as [Et _]. bsimpl. lia.
    + cbn. split.
      * exists e.2. split; [|done]. apply elem_of_app. right. destruct e as [[a n] s']. constructor.
      * intros e' q [He'|He'%list_elem_of_singleton]%elem_of_app Hq; [|subst; rewrite Ep in Hq; simplify_eq; lia].
        rewrite Forall_forall in IH. specialize (IH e' He'). by rewrite Hq in IH.
  - destruct (foldl low_step None l) as [[[lp la] ln]|].
    + destruct IH as [(s & Hin & Hs) Hmin]. split; [exists s; split; [apply elem_of_app; by left|done]|].
      intros e' q [He'|He'%list_elem_of_singleton]%elem_of_app Hq; [by eapply Hmin|]. subst. congruence.
    + apply Forall_app. split; [done|]. constructor; [by rewrite Ep|constructor].
Qed.

Lemma lowest_priority_spec p a n pr :
  lowest_priority p = Some (a, n, pr) → ∃ s, flat p !! (a, n) = Some s ∧ fee_priority (st_tx s) = Ok pr.
Proof.
  unfold lowest_priority. pose proof (low_fold (entries p)) as H0.
  destruct (foldl low_step None (entries p)) as [[[lp la] ln]|]; [|done]. intros E. simplify_eq.
  destruct H0 as [(s & Hin & Hs) _]. exists s. split; [|done]. by apply elem_of_entries in Hin.
Qed.

(** What making room does. *)
Record makes_room (p p' : Mempool) (pr : Z) : Prop := {
  mr_sub : flat p' ⊆ flat p;
  mr_config : same_config p p';
  mr_evicted k s : flat p !! k = Some s → flat p' !! k = None →
    ∃ q, fee_priority (st_tx s) = Ok q ∧ q < pr;
}.

Lemma room_loop_ok fuel p b pr :
  (size (flat p) ≤ fuel)%nat →
  ∃ p' r, room_loop fuel p b pr = Some (p', r) ∧ makes_room p p' pr ∧
    match r with
    | Ok _ => tx_count p' < max_txs p ∧ sat_add U64_MAX (byte_size p') b ≤ max_bytes p
    | Err e => e = AMempoolFull
    end.
Proof.
  assert (∀ p, makes_room p p pr) as Hrefl by (split; [done|done|intros; congruence]).
  revert p. induction fuel as [|fuel IH]; intros p Hf; cbn [room_loop].
  all: destruct (negb _ && negb _) eqn:Eo;
    [exists p, (Ok tt); split; [done|]; split; [done|]; rewrite Z.geb_leb, Z.gtb_ltb in Eo; bsimpl; lia|].
  all: destruct (lowest_priority p) as [[[a n] lp]|] eqn:El; [|by exists p, (Err AMempoolFull)].
  all: destruct (Z.leb_spec pr lp); [by exists p, (Err AMempoolFull)|].
  all: apply lowest_priority_spec in El as (s & Hs & Hq).
  { assert (flat p = ∅) as E0 by (apply map_size_empty_inv; lia). by rewrite E0, lookup_empty in Hs. }
  destruct (IH (pool_remove p a n)) as (p' & r & E & [M1 M2 M3] & Hr).
  { rewrite flat_remove, map_size_delete_Some by (by eexists). lia. }
  destruct (same_config_remove p a n) as (C1 & C2 & C3 & C4).
  exists p', r. split; [exact E|]. split; [|by rewrite <- C3, <- C4]. rewrite flat_remove in M1, M3. split.
  - etrans; [exact M1|]. apply delete_subseteq.
  - destruct M2 as (D1 & D2 & D3 & D4). repeat split; congruence.
  - intros k s' Hk Hk'. destruct (decide (k = (a, n))) as [->|Hne].
    + rewrite Hs in Hk. simplify_eq. eauto.
    + apply (M3 k s'); [|done]. by rewrite lookup_delete_ne.
Qed.

Lemma tx_size_nonneg s : 0 ≤ tx_size s.
Proof. unfold tx_size. lia. Qed.

Lemma pool_sender_total signed account :
  mempool_verify signed account = Some (Ok tt) → ∃ a, pool_sender signed = Ok a.
Proof.
  unfold mempool_verify, verify_ed25519, pool_sender. destruct (public_key_from_bytes _) as [pk|]; [eauto|done].
Qed.

Lemma verify_facts signed account u :
  mempool_verify signed account = Some (Ok u) →
  nonce account ≤ tx_nonce (st_tx signed) ∧ ∃ pr, fee_priority (st_tx signed) = Ok pr.
Proof.
  unfold mempool_verify. destruct (verify_ed25519 signed) as [[|]|]; [|done..]. intros E. apply (inj Some) in E.
  destruct (gas_meter (st_tx signed)) as [g|] eqn:Eg; [|done]. cbn in E.
  destruct (verify_balance _ _) as [u1|]; [|done]. unfold account_for_nonce_check in E.
  destruct (Z.ltb_spec (tx_nonce (st_tx signed)) (nonce account)).
  - by destruct (nonce_check (st_tx signed) account).
  - split; [done|]. unfold fee_priority. rewrite Eg. by eexists.
Qed.

Lemma verify_wf_total signed account : tx_wf (st_tx signed) → is_Some (mempool_verify signed account).
Proof.
  intros Hw. unfold mempool_verify, verify_ed25519, tx_signed_message.
  destruct (tx_encode_total _ Hw) as [b ->]. destruct (public_key_from_bytes _); cbn; [|by eexists].
  case_match; by eexists.
Qed.

Lemma observe_sub p a n : flat (observe_account p a n) ⊆ flat p.
Proof. rewrite flat_observe. apply map_filter_subseteq. Qed.

(** [insert] after its checks. *)
Lemma insert_checked_ok p signed a pr :
  pool_ok p → pool_sender signed = Ok a → tx_wf (st_tx signed) → fee_priority (st_tx signed) = Ok pr →
  max_bytes p < U64_MAX →
  let n := tx_nonce (st_tx signed) in
  ∃ p' r, insert_checked p signed a = Some (p', r) ∧ pool_ok p' ∧ max_txs p' = max_txs p ∧
    match r with
    | Err _ => flat p' ⊆ flat p
    | Ok _ =>
        flat p' !! (a, n) = Some signed ∧ base.delete (a, n) (flat p') ⊆ flat p ∧
        (∀ k s, flat p !! k = Some s → k ≠ (a, n) → flat p' !! k = None →
           ∃ q, fee_priority (st_tx s) = Ok q ∧ q < pr) ∧
        (flat p !! (a, n) = None → tx_count p' ≤ max_txs p ∧ byte_size p' ≤ max_bytes p)
    end.
Proof.
  intros Hp Ha Hw Hpr Hmax n. unfold insert_checked. rewrite <- lookup_flat. fold n.
  destruct (flat p !! (a, n)) as [old|] eqn:Eo.
  - destruct (rbf_allowed old signed) as [u|e]; [|by exists p, (Err e)].
    exists (enqueue p a signed), (Ok tt). split; [done|]. split; [by apply pool_ok_enqueue|]. split; [done|].
    rewrite flat_enqueue. split; [apply lookup_insert_eq|]. split; [|split; [|done]].
    + rewrite delete_insert_eq. apply delete_subseteq.
    + intros k s Hk Hne. rewrite lookup_insert_ne by done. congruence.
  - unfold ensure_room. rewrite Hpr.
    destruct (room_loop_ok (length (entries p)) p (tx_size signed) pr) as (p1 & r & E & [M1 M2 M3] & Hr).
    { by rewrite length_entries. }
    rewrite E. destruct r as [u|e].
    2: { exists p1, (Err e). split; [done|]. split; [by eapply pool_ok_sub|]. split; [apply M2|done]. }
    exists (enqueue p1 a signed), (Ok tt). split; [done|].
    split; [apply pool_ok_enqueue; [by eapply pool_ok_sub|done|done]|]. split; [apply M2|].
    assert (flat p1 !! (a, n) = None) as Hn by (eapply lookup_weaken_None; [exact Eo|exact M1]).
    rewrite tx_count_flat, byte_size_flat, flat_enqueue in *. fold n.
    split; [apply lookup_insert_eq|]. split; [|split].
    + rewrite delete_insert_id by done. exact M1.
    + intros k s Hk Hne Hk'. rewrite lookup_insert_ne in Hk' by done. by apply (M3 k s).
    + intros _. rewrite map_size_insert_None, map_sum_insert_new by done.
      unfold sat_add in Hr. lia.
Qed.

(** C33: insertion.  It never panics or loops on a well-formed transaction.  A
    success leaves exactly this transaction at its sender and nonce, keeps
    the pool's filing, and every transaction it displaced was either stale or
    had a strictly lower fee priority; if it was not a replacement, the pool
    is within both capacity limits afterwards.  A failure adds nothing. *)
Theorem insert_sound p signed account :
  pool_ok p → tx_wf (st_tx signed) → max_bytes p < U64_MAX →
  ∃ p' r, mempool_insert p signed account = Some (p', r) ∧ pool_ok p' ∧ max_txs p' = max_txs p ∧
    match r with
    | Err _ => flat p' ⊆ flat p
    | Ok _ =>
        ∃ a pr, let n := tx_nonce (st_tx signed) in
        pool_sender signed = Ok a ∧ fee_priority (st_tx signed) = Ok pr ∧
        flat p' !! (a, n) = Some signed ∧
        base.delete (a, n) (flat p') ⊆ flat p ∧
        (∀ k s, flat p !! k = Some s → k ≠ (a, n) → flat p' !! k = None →
           (k.1 = a ∧ k.2 < nonce account) ∨ ∃ q, fee_priority (st_tx s) = Ok q ∧ q < pr) ∧
        (flat p !! (a, n) = None → tx_count p' ≤ max_txs p ∧ byte_size p' ≤ max_bytes p)
    end.
Proof.
  intros Hp Hw Hmax. unfold mempool_insert, check_tx_bytes.
  destruct (tx_encode_total _ Hw) as [b ->].
  destruct (len b >? MAX_TX_BYTES); [by exists p, (Err ATxTooLarge)|].
  destruct (check_min_fee _ _) as [u|e]; [|by exists p, (Err e)].
  destruct (verify_wf_total signed account Hw) as [[u'|e] Ev]; rewrite Ev; [|by exists p, (Err e)].
  destruct (verify_facts _ _ _ Ev) as [Hn [pr Hpr]]. destruct u'.
  destruct (pool_sender_total _ _ Ev) as [a Ea]. rewrite Ea.
  pose proof (observe_sub p a (nonce account)) as Hsub.
  destruct (insert_checked_ok (observe_account p a (nonce account)) signed a pr) as (p' & r & E & Hok & Hm & Hr);
    [by eapply pool_ok_sub|done|done|done|done|].
  exists p', r. split; [exact E|]. split; [done|]. split; [done|]. destruct r as [u'|e]; [|by etrans].
  destruct Hr as (R1 & R2 & R3 & R4). exists a, pr. cbn zeta. split; [done|]. split; [done|]. split; [done|].
  split; [by etrans|]. split.
  - intros k s Hk Hne Hk'. destruct (flat (observe_account p a (nonce account)) !! k) as [s'|] eqn:Ek.
    + right. assert (s' = s) as -> by (eapply lookup_weaken in Ek; [|exact Hsub]; congruence). by apply (R3 k).
    + left. rewrite flat_observe, map_lookup_filter_None in Ek. destruct Ek as [Ek|Ek]; [congruence|].
      specialize (Ek s Hk). cbn in Ek. destruct (decide (k.1 = a)); [|naive_solver].
      split; [done|]. destruct (decide (nonce account ≤ k.2)); [naive_solver|lia].
  - intros Hnone. apply R4. by eapply lookup_weaken_None.
Qed.

(** ** Selection *)

Definition gas_of (s : SignedTx) : Z := match gas_meter (st_tx s) with Ok g => g | Err _ => 0 end.

(** The nonces of an account's transactions in a list, in order. *)
Definition nonces_of (out : list SignedTx) (a : Address) : list Z :=
  (λ s, tx_nonce (st_tx s)) <$> filter (λ s, ok_option (pool_sender s) = Some a) out.

Definition consecutive (start : Address → Z) (out : list SignedTx) : Prop :=
  ∀ a, nonces_of out a = seqZ (start a) (len (nonces_of out a)).

Lemma nonces_of_snoc out s a b :
  pool_sender s = Ok a →
  nonces_of (out ++ [s]) b = nonces_of out b ++ (if decide (b = a) then [tx_nonce (st_tx s)] else []).
Proof.
  intros Ha. unfold nonces_of. rewrite filter_app, fmap_app. f_equal. rewrite filter_cons, Ha. cbn.
  repeat case_decide; naive_solver.
Qed.

Lemma best_fold local skip (l : list (Address * gmap Nonce SignedTx)) pr a s :
  foldl (best_step local skip) None l = Some (pr, a, s) →
  ∃ m, (a, m) ∈ l ∧ m !! default 0 (local !! a) = Some s ∧ (a, default 0 (local !! a)) ∉ skip.
Proof.
  revert pr a s. induction l as [|[b m] l IH] using rev_ind; [done|]. intros pr a s. rewrite foldl_snoc.
  assert (foldl (best_step local skip) None l = Some (pr, a, s) → ∃ m', (a, m') ∈ l ++ [(b, m)] ∧
    m' !! default 0 (local !! a) = Some s ∧ (a, default 0 (local !! a)) ∉ skip) as Hold.
  { intros (m' & H1 & H2)%IH. exists m'. split; [apply elem_of_app; by left|done]. }
  unfold best_step at 1. cbn. destruct (m !! default 0 (local !! b)) as [tx|] eqn:Em; [|done].
  case_bool_decide as Hs; [done|]. destruct (fee_priority (st_tx tx)) as [q|]; [|done].
  case_match; [|done]. intros E. simplify_eq. exists m. split; [apply elem_of_app; right; constructor|done].
Qed.

Lemma peek_spec p local skip a s :
  peek_best_ready p local skip = Some (a, s) →
  flat p !! (a, default 0 (local !! a)) = Some s ∧ (a, default 0 (local !! a)) ∉ skip.
Proof.
  unfold peek_best_ready. destruct (foldl _ _ _) as [[[pr b] t]|] eqn:E; [|done]. intros ?; simplify_eq.
  apply best_fold in E as (m & Hm & Hs & Hk). split; [|done]. rewrite lookup_flat. unfold lookup_tx.
  apply elem_of_btree_iter in Hm. by rewrite Hm.
Qed.

(** Transactions that can still be looked at. *)
Definition live (p : Mempool) (skip : gset (Address * Nonce)) : nat :=
  size (filter (λ e : Address * Nonce * SignedTx, e.1 ∉ skip) (flat p)).

Lemma live_skip p skip k s :
  flat p !! k = Some s → k ∉ skip → live p skip = S (live p ({[k]} ∪ skip)).
Proof.
  intros Hk Hs. unfold live.
  assert (filter (λ e : Address * Nonce * SignedTx, e.1 ∉ {[k]} ∪ skip) (flat p) =
          base.delete k (filter (λ e : Address * Nonce * SignedTx, e.1 ∉ skip) (flat p))) as ->.
  { apply map_eq. intros i. apply option_eq. intros x.
    rewrite lookup_delete_Some, !map_lookup_filter_Some. cbn. set_solver. }
  rewrite map_size_delete_Some; [|exists s; by apply map_lookup_filter_Some].
  assert (0 < size (filter (λ e : Address * Nonce * SignedTx, e.1 ∉ skip) (flat p)))%nat; [|lia].
  apply Nat.neq_0_lt_0. intros E0%map_size_empty_inv.
  assert (filter (λ e : Address * Nonce * SignedTx, e.1 ∉ skip) (flat p) !! k = Some s) as Hf
    by (by apply map_lookup_filter_Some).
  by rewrite E0, lookup_empty in Hf.
Qed.

Lemma live_remove p skip a n s :
  flat p !! (a, n) = Some s → (a, n) ∉ skip → live p skip = S (live (pool_remove p a n) skip).
Proof.
  intros Hk Hs. rewrite (live_skip p skip (a, n) s Hk Hs). unfold live. do 2 f_equal.
  rewrite flat_remove. apply map_eq. intros i. apply option_eq. intros x.
  rewrite !map_lookup_filter_Some, lookup_delete_Some. cbn. set_solver.
Qed.

(** The state of the loop. *)
Record taking (start : Address → Z) (p : Mempool) (local : gmap Address Nonce) (out : list SignedTx)
    (gas bytes : Z) : Prop := {
  tk_gas : sumZ gas_of out = gas;
  tk_bytes : sumZ tx_size out = bytes;
  tk_order : consecutive start out;
  tk_next a : default 0 (local !! a) = start a + len (nonces_of out a) ∨
    (default 0 (local !! a) = U64_MAX ∧ flat p !! (a, U64_MAX) = None);
}.

Lemma taking_step start p local out gas bytes a s g :
  pool_ok p → taking start p local out gas bytes → flat p !! (a, default 0 (local !! a)) = Some s →
  gas_meter (st_tx s) = Ok g →
  let n := tx_nonce (st_tx s) in
  taking start (pool_remove p a n) (<[a := default n (Nonce_checked_add n 1)]> local) (out ++ [s])
    (gas + g) (bytes + tx_size s).
Proof.
  intros Hp [T1 T2 T3 T4] Hs Hg n. destruct (Hp _ _ Hs) as (Ha & Hn & Hw). cbn in Ha, Hn. fold n in Hn.
  assert (default 0 (local !! a) = start a + len (nonces_of out a)) as Hl.
  { destruct (T4 a) as [E|[E1 E2]]; [done|]. rewrite E1 in Hs. congruence. }
  assert (u64 n) as Hu by (destruct Hw as (_ & Hw & _); exact Hw).
  assert (∀ (f : SignedTx → Z), sumZ f (out ++ [s]) = sumZ f out + f s) as Hsum.
  { intros f. rewrite <- Permutation_cons_append, sumZ_cons. lia. }
  split.
  - rewrite Hsum, T1. unfold gas_of at 1. by rewrite Hg.
  - by rewrite Hsum, T2.
  - intros b. rewrite (nonces_of_snoc out s a b Ha). case_decide as Hb; [|by rewrite app_nil_r; apply T3].
    subst b. rewrite length_app. cbn [length]. rewrite Nat.add_1_r, seqZ_S.
    f_equal; [apply T3|]. f_equal. fold n. lia.
  - intros b. rewrite (nonces_of_snoc out s a b Ha), flat_remove. destruct (decide (b = a)) as [->|Hne].
    + rewrite lookup_insert_eq. cbn. rewrite length_app. cbn [length]. unfold Nonce_checked_add, checked_add.
      destruct (Z.leb_spec (n + 1) U64_MAX) as [Hle|Hgt]; cbn; [left; lia|]. right.
      assert (n = U64_MAX) as -> by ulia. split; [done|apply lookup_delete_eq].
    + rewrite lookup_insert_ne by done. rewrite app_nil_r. destruct (T4 b) as [E|[E1 E2]]; [by left|right].
      split; [done|]. rewrite lookup_delete_ne by congruence. done.
Qed.

(** What a selection [out] out of [p] leaves in [p']. *)
Record selected (start : Address → Z) (p p' : Mempool) (pre out : list SignedTx) (max_gas max_bytes : Z) : Prop := {
  sl_ok : pool_ok p';
  sl_config : same_config p p';
  sl_sub : flat p' ⊆ flat p;
  sl_gone k s : flat p !! k = Some s → flat p' !! k = None → s ∈ out;
  sl_from s : s ∈ out → ∃ k, flat p !! k = Some s ∧ flat p' !! k = None;
  sl_metered : Forall (λ s, is_ok (gas_meter (st_tx s)) = true) out;
  sl_gas : sumZ gas_of (pre ++ out) ≤ max_gas;
  sl_bytes : sumZ tx_size (pre ++ out) ≤ max_bytes;
  sl_order : consecutive start (pre ++ out);
}.

Lemma gas_meter_nonneg tx g : gas_meter tx = Ok g → 0 ≤ g.
Proof.
  unfold gas_meter. case_match; [done|]. case_match; [done|]. intros E. simplify_eq.
  unfold gas_cost, GAS_TRANSFER, GAS_DEPLOY, GAS_CALL. case_match; lia.
Qed.

Lemma take_loop_ok fuel start p local skip out gas bytes G B :
  pool_ok p → (live p skip ≤ fuel)%nat → taking start p local out gas bytes →
  0 ≤ gas ≤ G → 0 ≤ bytes ≤ B → G < U64_MAX → B < U32_MAX →
  ∃ p' out', take_loop fuel p local skip out gas bytes G B = Some (p', out ++ out') ∧
    selected start p p' out out' G B.
Proof.
  revert p local skip out gas bytes.
  induction fuel as [|fuel IH]; intros p local skip out gas bytes Hp Hf Ht Hg Hb HG HB; cbn [take_loop];
    (destruct (peek_best_ready p local skip) as [[a s]|] eqn:Ek;
      [apply peek_spec in Ek as [Hs Hk]
      |exists p, []; rewrite app_nil_r; split; [done|]; destruct Ht; split; rewrite ?app_nil_r; try done; try lia;
       [intros; congruence|by intros ? ?%not_elem_of_nil]]).
  { rewrite (live_skip p skip _ s Hs Hk) in Hf. lia. }
  destruct (Hp _ _ Hs) as (Ha & Hn & Hw). cbn in Ha, Hn.
  assert (∃ p' out', take_loop fuel p local ({[(a, tx_nonce (st_tx s))]} ∪ skip) out gas bytes G B =
    Some (p', out ++ out') ∧ selected start p p' out out' G B) as Hskip.
  { apply IH; try done. rewrite Hn. rewrite (live_skip p skip _ s Hs Hk) in Hf. lia. }
  destruct (gas_meter (st_tx s)) as [g|e] eqn:Eg; [|exact Hskip].
  destruct (_ || _) eqn:Eo; [exact Hskip|]. clear Hskip. rewrite !Z.gtb_ltb in Eo. bsimpl.
  pose proof (gas_meter_nonneg _ _ Eg) as Hg0. pose proof (tx_size_nonneg s) as Hb0.
  unfold sat_add, u32_or_max in *.
  assert (tx_size s ≤ U32_MAX) as Hsz by (destruct (Z.leb_spec (tx_size s) U32_MAX); lia).
  rewrite (proj2 (Z.leb_le _ _) Hsz) in *. rewrite !Z.min_r by lia.
  pose proof (taking_step start p local out gas bytes a s g Hp Ht Hs Eg) as Ht'. rewrite Hn in *.
  assert (pool_ok (pool_remove p a (default 0 (local !! a)))) as Hp'.
  { eapply pool_ok_sub; [done|]. rewrite flat_remove. apply delete_subseteq. }
  rewrite (live_remove p skip _ _ s Hs Hk) in Hf.
  destruct (IH _ _ skip _ _ _ Hp' ltac:(lia) Ht') as (p' & out' & E & S'); [lia..|].
  exists p', (s :: out'). rewrite <- app_assoc in E. split; [exact E|].
  destruct S' as [S1 S2 S3 S4 S5 S0 S6 S7 S8]. rewrite flat_remove in *. rewrite <- app_assoc in S6, S7, S8.
  split; [done| | | | |constructor; [by rewrite Eg|exact S0]|exact S6|exact S7|exact S8].
  - destruct (same_config_remove p a (default 0 (local !! a))) as (C1 & C2 & C3 & C4).
    destruct S2 as (D1 & D2 & D3 & D4). repeat split; congruence.
  - etrans; [exact S3|]. apply delete_subseteq.
  - intros k t Hk1 Hk2. destruct (decide (k = (a, default 0 (local !! a)))) as [->|Hne].
    + rewrite Hs in Hk1. simplify_eq. constructor.
    + constructor. apply (S4 k); [|done]. by rewrite lookup_delete_ne.
  - intros t [->|Ht1]%elem_of_cons.
    + exists (a, default 0 (local !! a)). split; [done|]. eapply lookup_weaken_None; [|exact S3]. apply lookup_delete_eq.
    + destruct (S5 t Ht1) as (k & Hk1 & Hk2). exists k. split; [|done]. by apply lookup_delete_Some in Hk1 as [_ ?].
Qed.

Lemma take_ready_ok p max_gas max_bytes :
  pool_ok p → 0 ≤ max_gas < U64_MAX → 0 ≤ max_bytes < U32_MAX →
  ∃ p' out, take_ready p max_gas max_bytes = Some (p', out) ∧
    selected (next_nonce p) p p' [] out max_gas max_bytes.
Proof.
  intros Hp Hg Hb. unfold take_ready.
  apply (take_loop_ok (length (entries p)) (next_nonce p) p (account_nonce p) ∅ [] 0 0 max_gas max_bytes);
    try done; try lia.
  - rewrite length_entries. unfold live. apply map_subseteq_size, map_filter_subseteq.
  - split; [done|done|done|]. intros a. left. unfold next_nonce. cbn. lia.
Qed.

(** Selection for a block.  It terminates; what it takes leaves the pool
    and nothing else does; the gas and the encoded bytes taken are within the
    limits given; and the transactions of every account are taken in nonce
    order without a gap, starting at the account's nonce. *)
Theorem take_ready_sound p max_gas max_bytes :
  pool_ok p → 0 ≤ max_gas < U64_MAX → 0 ≤ max_bytes < U32_MAX →
  ∃ p' out, take_ready p max_gas max_bytes = Some (p', out) ∧
    selected (next_nonce p) p p' [] out max_gas max_bytes.
Proof. apply take_ready_ok. Qed.
End mempool.

(** ** Concrete pools *)

#[local] Existing Instance toy_crypto.

Definition pool_tx (n fee : Z) : SignedTx :=
  {| st_tx := tx_transfer 1 n GAS_TRANSFER fee (replicate 32 9) 3; st_signature := [1];
     st_public_key := replicate 32 7 |}.

Definition pool_account : Account := {| balance := 10000; nonce := 0; code_hash := replicate 32 0 |}.

Definition pool_owner : Address := from_ed25519 (replicate 32 7).

Lemma pool_ok_limits f t b : pool_ok (with_limits f t b).
Proof. intros [a n] s Hs. by rewrite lookup_flat in Hs. Qed.

Definition one_tx : Mempool := enqueue (with_limits 1 2 100000) pool_owner (pool_tx 0 5).
Definition three_txs : Mempool := enqueue (enqueue one_tx pool_owner (pool_tx 2 50)) pool_owner (pool_tx 1 20).

Lemma three_txs_ok : pool_ok three_txs.
Proof. repeat (apply pool_ok_enqueue; [|reflexivity|by_eval]). apply pool_ok_limits. Qed.

Definition insert_result : option (Mempool * result unit AdmitError) :=
  mempool_insert three_txs (pool_tx 3 100) pool_account.

(** The pool is over its limit of two: the transaction with the lowest fee is
    evicted twice before there is room. *)
Lemma insert_sound_witness :
  ∃ p', insert_result = Some (p', Ok tt) ∧ flat p' !! (pool_owner, 3) = Some (pool_tx 3 100).
Proof.
  assert (match insert_result with Some (_, Ok tt) => true | _ => false end = true) as Hok
    by (vm_compute; reflexivity).
  destruct (insert_sound three_txs (pool_tx 3 100) pool_account) as (p' & r & E & _ & _ & Hr);
    [exact three_txs_ok|by_eval|by_eval|].
  unfold insert_result in *. rewrite E in Hok |- *. destruct r as [[]|e]; [|discriminate Hok].
  destruct Hr as (a & pr & Ha & _ & Hl & _). exists p'. split; [reflexivity|].
  change (@Ok Address AdmitError pool_owner = Ok a) in Ha. injection Ha as <-. exact Hl.
Defined.

(** All three are ready, in nonce order, whatever they pay. *)
Lemma take_ready_sound_witness :
  ∃ p' out, take_ready three_txs 100000000 100000 = Some (p', out) ∧
    selected (next_nonce three_txs) three_txs p' [] out 100000000 100000.
Proof. apply (take_ready_sound three_txs 100000000 100000); [exact three_txs_ok|by_eval|by_eval]. Defined.

Lemma three_txs_order :
  match take_ready three_txs 100000000 100000 with
  | Some (_, out) => bool_decide (out = [pool_tx 0 5; pool_tx 1 20; pool_tx 2 50])
  | None => false
  end = true.
Proof. vm_compute. reflexivity. Qed.
