(* ===== verification/Topics.v ===== *)
(** What a node does with gossip: [network/src/{topics,validator_mesh,blocks,
    sync,validation}.rs].

    The checks a received transaction, proposal, vote, block, piece of evidence
    or DA chunk has to pass, the validator mesh, headers-first catch-up, and
    the gates for certified blocks.  A block passes exactly when its header
    commits to its body and receipts ([ingest_block_iff]), which fixes the body up
    to the signatures ([ingest_block_binding]); every chunk a node publishes is
    accepted ([published_chunks_accepted]); the block locator starts at the tip,
    goes down and covers the last 16,777,223 blocks ([locator_heights_ok]); catch-up stores whatever self-consistent blocks it
    is given, in place of the ones it has ([sync_replaces_blocks]); a block
    that passes the reorganisation gate is the only one of its height in the
    commit log ([certified_block_unique]). *)

From S2P Require Import Prelude Types Codec Crypto Vrf Merkle Store StoreCodec Blocks Recovery Vote Leader Quorum ExecBase Mempool Kzg Da Wire Gossip.
From stdpp Require Import list.

#[local] Open Scope Z_scope.
#[local] Open Scope l1_scope.

(** ** [topics.rs] *)

Section topics.
Context `{!Crypto}.

Definition ingest_tx_bytes (inner : bytes) (account : Account) : option (result SignedTx TopicError) :=
  match decode_signed_tx inner with
  | Err _ => Some (Err TopCodec)
  | Ok signed =>
      match ingest_tx signed account with
      | None => None
      | Some (Err e) => Some (Err e)
      | Some (Ok _) => Some (Ok signed)
      end
  end.

(** The signature and the slot; the leader is not checked here. *)
Definition ingest_proposal (proposal : Proposal) : result unit TopicError :=
  if negb (p_height proposal =? hf_height (h_fields (p_header proposal))) ||
     negb (p_round proposal =? hf_round (h_fields (p_header proposal)))
  then Err TopProposal
  else if negb (bls_pk_valid (p_proposer proposal)) then Err TopProposal
  else if negb (bls_sig_valid (p_signature proposal)) then Err TopProposal
  else
    let msg := proposal_message (p_header proposal) in
    if bls_verify (p_proposer proposal) msg (p_signature proposal) then Ok tt else Err TopProposal.

Definition ingest_proposal_bytes (inner : bytes) : result Proposal TopicError :=
  let? p := map_err (λ _, TopCodec) (decode_proposal inner) in
  let? _ := ingest_proposal p in
  Ok p.

Definition ingest_vote (vote : Vote) (log : ReplayLog) : ReplayLog * result unit TopicError :=
  let '(log, r) := verify_vote vote (v_height vote) (v_round vote) log in
  (log, map_err TopVote r).

Definition ingest_vote_bytes (inner : bytes) (log : ReplayLog) :
    ReplayLog * result Vote TopicError :=
  match decode_vote inner with
  | Err _ => (log, Err TopCodec)
  | Ok v =>
      let '(log, r) := ingest_vote v log in
      (log, let? _ := r in Ok v)
  end.

Definition verify_root (leaves : list bytes) (root : bytes) : result unit TopicError :=
  match leaves with
  | [] =>
      if bool_decide (compute_root [] ≠ root) then Err TopBlock
      else
        let one := [[]] in
        let one_root := compute_root one in
        let? proof := ok_or (Merkle.prove one 0) TopBlock in
        if negb (Merkle.verify [] proof one_root) then Err TopBlock else Ok tt
  | leaf :: _ =>
      let? proof := ok_or (Merkle.prove leaves 0) TopBlock in
      if negb (Merkle.verify leaf proof root) then Err TopBlock else Ok tt
  end.

(** [None] is the panic of [Tx::encode]. *)
Definition ingest_block (header : Header) (block : Block) (receipt_leaves : list bytes) :
    option (result unit TopicError) :=
  if bool_decide (h_fields header ≠ b_header_fields block) then Some (Err TopBlock)
  else
    match mapM (λ s, tx_encode (st_tx s)) (b_txs block), tx_root_signed (b_txs block) with
    | Some tx_leaves, Some computed =>
        Some (if bool_decide (computed ≠ h_tx_root header) then Err TopBlock
              else
                let? _ := verify_root tx_leaves (h_tx_root header) in
                if bool_decide (Merkle.receipts_root receipt_leaves ≠ h_receipts_root header) then Err TopBlock
                else
                  let? _ := verify_root receipt_leaves (h_receipts_root header) in
                  Ok tt)
    | _, _ => None
    end.

Definition ingest_block_parts (header : Header) (body : bytes) (receipt_leaves : list bytes) :
    option (result Block TopicError) :=
  match decode_block_body body with
  | Err _ => Some (Err TopCodec)
  | Ok block =>
      match ingest_block header block receipt_leaves with
      | None => None
      | Some (Err e) => Some (Err e)
      | Some (Ok _) => Some (Ok block)
      end
  end.

Definition ingest_header_bytes (inner : bytes) : result Header TopicError :=
  map_err (λ _, TopCodec) (decode_header inner).

Definition ingest_evidence (a b : Vote) : result Evidence TopicError :=
  map_err (λ _, TopEvidence) (equivocation a b).

Section da.
Context `{!ReedSolomon} `{!PairingCurve}.

Definition publish_da_chunks (block : Block) : option (result (list ProvenChunk) TopicError) :=
  match Da.split block with
  | None => None
  | Some (Err _) => Some (Err TopDaChunk)
  | Some (Ok shards) =>
      match da_commit block with
      | None => None
      | Some (Err _) => Some (Err TopDaChunk)
      | Some (Ok (root, proven)) =>
          Some (if bool_decide (length shards ≠ length proven) then Err TopDaChunk else Ok proven)
      end
  end.

End da.

Definition ingest_da_chunk (root : DaRoot) (chunk : ProvenChunk) : result unit TopicError :=
  if negb (verify_chunk root chunk) then Err TopDaChunk else Ok tt.

(** ** [validator_mesh.rs] *)

Section mesh.
Context {PeerId : Type} `{!EqDecision PeerId}.

Record ValidatorMesh := {
  vm_validators : ValidatorSet;
  vm_peer_ids : gmap ValidatorId PeerId;
}.

Definition mesh_from_genesis (genesis : Genesis) : ValidatorMesh :=
  {| vm_validators := g_validators genesis; vm_peer_ids := ∅ |}.

Definition bind_peer (mesh : ValidatorMesh) (id : ValidatorId) (peer : PeerId) : ValidatorMesh :=
  match vm_validators mesh !! id with
  | Some _ => {| vm_validators := vm_validators mesh; vm_peer_ids := <[id := peer]> (vm_peer_ids mesh) |}
  | None => mesh
  end.

Definition is_validator (mesh : ValidatorMesh) (id : ValidatorId) : bool :=
  bool_decide (is_Some (vm_validators mesh !! id)).

Definition is_validator_peer (mesh : ValidatorMesh) (peer : PeerId) : bool :=
  existsb (λ e, bool_decide (e.2 = peer)) (btree_iter (vm_peer_ids mesh)).

Definition ingest_validator_proposal (mesh : ValidatorMesh) (proposal : Proposal) : result unit TopicError :=
  if negb (is_validator mesh (p_proposer proposal)) then Err TopProposal else ingest_proposal proposal.

Definition ingest_validator_vote (mesh : ValidatorMesh) (vote : Vote) (log : ReplayLog) :
    ReplayLog * result unit TopicError :=
  if negb (is_validator mesh (v_signer vote)) then (log, Err (TopVote VSignature)) else ingest_vote vote log.

End mesh.

End topics.
#[global] Arguments ValidatorMesh : clear implicits.

(** ** [blocks.rs] *)

Section sync.
Context `{!Crypto} {S : Type} `{!Store S}.

Definition accept_header (store : S) (header : Header) : S * result unit TypesError := put_header store header.

Definition accept_header_bytes (store : S) (inner : bytes) : S * result Header TopicError :=
  match decode_header inner with
  | Err _ => (store, Err TopCodec)
  | Ok header =>
      match accept_header store header with
      | (store, Err _) => (store, Err TopCodec)
      | (store, Ok _) => (store, Ok header)
      end
  end.

Definition accept_body_after_header (header : Header) (block : Block) (receipt_leaves : list bytes) :
    option (result unit TopicError) := ingest_block header block receipt_leaves.

(** ** [sync.rs] *)

(** The [loop] of [locator]: at most 33 heights are pushed. *)
Fixpoint locator_loop (fuel : nat) (heights : list Height) (index step : Z) : list Height :=
  match fuel with
  | O => heights
  | Datatypes.S fuel =>
      let heights := heights ++ [index] in
      if index =? 0 then heights
      else
        let step := if 10 <=? len heights then Z.max (sat_mul U64_MAX step 2) 1 else step in
        let index := sat_sub index (Z.min step index) in
        if len heights >? 32 then heights else locator_loop fuel heights index step
  end.

Definition locator_heights (tip_h : Height) : list Height := locator_loop 33 [] tip_h 1.

(** The hashes of the headers found at the heights. *)
Fixpoint locator_hashes (store : S) (heights : list Height) (out : list Hash) : result (list Hash) TypesError :=
  match heights with
  | [] => Ok out
  | h :: heights =>
      let? header := get_header store h in
      locator_hashes store heights
        match header with Some header => out ++ [header_hash header] | None => out end
  end.

Definition locator (store : S) : result (list Hash) TypesError :=
  let? t := tip store in
  match t with
  | None => Ok []
  | Some tip_h => locator_hashes store (locator_heights tip_h) []
  end.

Record BodyOffer := {
  bo_header : Header;
  bo_block : Block;
  bo_receipts : list bytes;
  bo_app_hash : Hash;
}.

(** The first loop of [headers_then_bodies]. *)
Fixpoint accept_headers (local : S) (remote_headers : list Header) : S * result unit TopicError :=
  match remote_headers with
  | [] => (local, Ok tt)
  | h :: rest =>
      match get_header local (hf_height (h_fields h)) with
      | Err _ => (local, Err TopCodec)
      | Ok (Some _) => accept_headers local rest
      | Ok None =>
          match accept_header local h with
          | (local, Err _) => (local, Err TopCodec)
          | (local, Ok _) => accept_headers local rest
          end
      end
  end.

(** The second loop; [None] is a panic. *)
Fixpoint accept_bodies (local : S) (bodies : list BodyOffer) : option (S * result unit TopicError) :=
  match bodies with
  | [] => Some (local, Ok tt)
  | offer :: rest =>
      match accept_body_after_header (bo_header offer) (bo_block offer) (bo_receipts offer) with
      | None => None
      | Some (Err e) => Some (local, Err e)
      | Some (Ok _) =>
          match put_block local (bo_header offer) (bo_block offer) (bo_receipts offer) (bo_app_hash offer) with
          | None => None
          | Some (local, Err _) => Some (local, Err TopCodec)
          | Some (local, Ok _) => accept_bodies local rest
          end
      end
  end.

Definition headers_then_bodies (local : S) (remote_headers : list Header) (bodies : list BodyOffer) :
    option (S * result (option Height) TopicError) :=
  match locator local with
  | Err _ => Some (local, Err TopCodec)
  | Ok _ =>
      match accept_headers local remote_headers with
      | (local, Err e) => Some (local, Err e)
      | (local, Ok _) =>
          match accept_bodies local bodies with
          | None => None
          | Some (local, Err e) => Some (local, Err e)
          | Some (local, Ok _) => Some (local, map_err (λ _, TopCodec) (tip local))
          end
      end
  end.

End sync.

(** ** [validation.rs] *)

Inductive ValidError : Type :=
| VGossip (e : TopicError) | VQc (e : QcError) | VQcMismatch | VReorg (e : SafetyError).

Section validation.
Context `{!Crypto}.

Definition valid_block_consensus (header : Header) (block : Block) (receipt_leaves : list bytes)
    (qc : QuorumCertificate) (validators : ValidatorSet) : option (result unit ValidError) :=
  match ingest_block header block receipt_leaves with
  | None => None
  | Some (Err e) => Some (Err (VGossip e))
  | Some (Ok _) =>
      match qc_verify qc validators with
      | None => None
      | Some (Err e) => Some (Err (VQc e))
      | Some (Ok _) =>
          let want := VBlock (header_hash header) in
          Some (if bool_decide (qc_block qc ≠ want) || negb (qc_height qc =? hf_height (h_fields header))
                then Err VQcMismatch else Ok tt)
      end
  end.

Definition valid_block_reorg_safety (header : Header) (block : Block) (receipt_leaves : list bytes)
    (qc : QuorumCertificate) (validators : ValidatorSet) (commits : CommitLog) (app_hash : Hash) :
    option (CommitLog * result unit ValidError) :=
  match valid_block_consensus header block receipt_leaves qc validators with
  | None => None
  | Some (Err e) => Some (commits, Err e)
  | Some (Ok _) =>
      let f := {| fin_height := hf_height (h_fields header); fin_round := qc_round qc;
                  fin_block_hash := header_hash header; fin_app_hash := app_hash |} in
      let '(commits, r) := record commits f in
      Some (commits, map_err VReorg r)
  end.

End validation.

(** ** Blocks *)

Section block_facts.
Context `{!Crypto}.

Lemma verify_root_ok leaves : verify_root leaves (compute_root leaves) = Ok tt.
Proof.
  unfold verify_root. destruct leaves as [|leaf leaves].
  - rewrite bool_decide_false by (by intros []).
    destruct (prove_complete [[]] 0 [] eq_refl) as (p & -> & _ & Hv). cbn [ok_or]. by rewrite Hv.
  - destruct (prove_complete (leaf :: leaves) 0 leaf eq_refl) as (p & -> & _ & Hv). cbn [ok_or]. by rewrite Hv.
Qed.

(** The header commits to the body and to the receipts. *)
Definition commits_to (header : Header) (block : Block) (receipts : list bytes) : Prop :=
  h_fields header = b_header_fields block ∧ tx_root_signed (b_txs block) = Some (h_tx_root header) ∧
  Merkle.receipts_root receipts = h_receipts_root header.

#[export] Instance commits_to_dec header block receipts : Decision (commits_to header block receipts).
Proof. unfold commits_to. apply _. Defined.

Lemma tx_leaves_root txs r :
  tx_root_signed txs = Some r → ∃ leaves, mapM (λ s, tx_encode (st_tx s)) txs = Some leaves ∧ compute_root leaves = r.
Proof.
  unfold tx_root_signed, tx_root. intros E. apply fmap_Some in E as (leaves & El & ->).
  exists leaves. split; [|reflexivity]. revert leaves El.
  induction txs as [|t txs IH]; intros leaves El; [done|]. cbn in *.
  destruct (tx_encode (st_tx t)) as [e|]; [|done]. cbn in *.
  destruct (mapM tx_encode (st_tx <$> txs)) as [es|] eqn:Es; [|done]. by rewrite (IH es eq_refl).
Qed.

Lemma ingest_block_ok header block receipts :
  commits_to header block receipts → ingest_block header block receipts = Some (Ok tt).
Proof.
  intros (Ef & Er & Ec). destruct (tx_leaves_root _ _ Er) as (leaves & El & Hr).
  unfold ingest_block. rewrite bool_decide_false by naive_solver. rewrite El, Er.
  rewrite bool_decide_false by naive_solver. rewrite <- Hr, verify_root_ok.
  rewrite bool_decide_false by naive_solver. rewrite <- Ec.
  change (Merkle.receipts_root receipts) with (compute_root receipts). by rewrite verify_root_ok.
Qed.

Lemma ingest_block_bad header block receipts :
  is_Some (tx_root_signed (b_txs block)) → ¬ commits_to header block receipts →
  ingest_block header block receipts = Some (Err TopBlock).
Proof.
  intros [r Er] Hn. destruct (tx_leaves_root _ _ Er) as (leaves & El & Hr). unfold ingest_block.
  case_bool_decide as Ef; [done|]. rewrite El, Er. case_bool_decide as Et; [done|].
  rewrite <- Et, <- Hr, verify_root_ok. case_bool_decide as Ec; [done|]. destruct Hn.
  split; [done|]. by rewrite Er, Et.
Qed.

(** A gossiped block passes exactly when its header commits to it. *)
Lemma ingest_block_iff header block receipts :
  ingest_block header block receipts = Some (Ok tt) ↔ commits_to header block receipts.
Proof.
  split; [|apply ingest_block_ok]. intros E. destruct (decide (commits_to header block receipts)) as [?|Hn]; [done|].
  destruct (tx_root_signed (b_txs block)) as [r|] eqn:Er.
  - rewrite ingest_block_bad in E; [done|by rewrite Er|done].
  - unfold ingest_block in E. rewrite Er in E. case_bool_decide; [done|]. by destruct (mapM _ _).
Qed.

Lemma tx_leaves_inj txs1 txs2 leaves :
  Forall tx_wf txs1 → Forall tx_wf txs2 → Forall (λ b, len b ≤ U32_MAX) leaves →
  mapM tx_encode txs1 = Some leaves → mapM tx_encode txs2 = Some leaves → txs1 = txs2.
Proof.
  intros H1 H2 Hl E1 E2. apply mapM_Some in E1, E2. revert txs1 txs2 H1 H2 E1 E2.
  induction Hl as [|b leaves Hb Hl IH]; intros txs1 txs2 H1 H2 E1 E2.
  - inversion E1. by inversion E2.
  - inversion E1 as [|t1 ? l1 ? Et1 El1]; subst. inversion E2 as [|t2 ? l2 ? Et2 El2]; subst.
    apply Forall_cons in H1 as [Hw1 H1]. apply Forall_cons in H2 as [Hw2 H2]. f_equal; [|by apply IH].
    pose proof (tx_decode_encode t1 b Hw1 Et1 Hb). pose proof (tx_decode_encode t2 b Hw2 Et2 Hb). congruence.
Qed.

Definition encoded_size_ok (tx : Tx) : Prop := ∀ b, tx_encode tx = Some b → len b ≤ U32_MAX.

Context `{!CryptoLaws}.

(** The hash collides on two inputs, one hashed for each of the two blocks. *)
Definition blocks_collide (b1 b2 : Block) (rs1 rs2 : list bytes) : Prop :=
  collides (tree_inputs (default [] (mapM tx_encode (envelopes b1))))
           (tree_inputs (default [] (mapM tx_encode (envelopes b2)))) ∨
  collides (tree_inputs rs1) (tree_inputs rs2).

(** What a header says about a gossiped block.  If two blocks with the same
    numbers of transactions and receipts pass the check under one header, they
    have the same fields, the same transactions and the same receipts, unless
    the hash collides on what is hashed for them; but the signatures and public keys of the transactions
    are not committed to: replacing them all by anything gives a block that
    passes as well. *)
Theorem ingest_block_binding header b1 b2 rs1 rs2 :
  ingest_block header b1 rs1 = Some (Ok tt) → Forall tx_wf (envelopes b1) → Forall encoded_size_ok (envelopes b1) →
  (ingest_block header b2 rs2 = Some (Ok tt) → Forall tx_wf (envelopes b2) →
     length (b_txs b1) = length (b_txs b2) → length rs1 = length rs2 →
     (b_header_fields b1 = b_header_fields b2 ∧ envelopes b1 = envelopes b2 ∧ rs1 = rs2) ∨
     blocks_collide b1 b2 rs1 rs2) ∧
  (b_header_fields b2 = b_header_fields b1 → envelopes b2 = envelopes b1 →
     ingest_block header b2 rs1 = Some (Ok tt)).
Proof.
  intros H1 Hw1 Hs1. apply ingest_block_iff in H1 as (Ef1 & Et1 & Er1). split.
  - intros H2 Hw2 Hlen Hlr. apply ingest_block_iff in H2 as (Ef2 & Et2 & Er2).
    unfold tx_root_signed, tx_root in Et1, Et2. fold (envelopes b1) in Et1. fold (envelopes b2) in Et2.
    apply fmap_Some in Et1 as (l1 & El1 & Eq1). apply fmap_Some in Et2 as (l2 & El2 & Eq2).
    destruct (compute_root_binding l1 l2) as [<-|Hc]; [|by rewrite !merkle_root_compute_root in *; congruence| |by right; left; rewrite El1, El2].
    { apply mapM_Some, Forall2_length in El1, El2. unfold envelopes in *. rewrite length_fmap in *. congruence. }
    destruct (compute_root_binding rs1 rs2) as [<-|Hc]; [done| | |by right; right].
    { change (Merkle.receipts_root rs1 = Merkle.receipts_root rs2). congruence. }
    left. split; [congruence|]. split; [|done]. apply (tx_leaves_inj _ _ l1); try done.
    apply mapM_Some in El1. clear -El1 Hs1. induction El1; [done|]. apply Forall_cons in Hs1 as [Hs ?].
    constructor; [by apply Hs|by auto].
  - intros Ef Ee. apply ingest_block_iff. split; [congruence|]. split; [|done].
    unfold tx_root_signed, envelopes in *. by rewrite Ee.
Qed.

End block_facts.

(** ** DA chunks *)

Section chunk_facts.
Context `{!Crypto} `{!ReedSolomon} `{!PairingCurve} `{!ReedSolomonLaws} `{!CryptoLaws} `{!PairingLaws}.

(** Publishing a block succeeds, and every chunk passes the receiver's check
    against the root of the block. *)
Lemma published_chunks_accepted block body :
  block_wf block → encode_block_body block = Some body → len body ≤ U32_MAX →
  ∃ root chunks, da_commit block = Some (Ok (root, chunks)) ∧ publish_da_chunks block = Some (Ok chunks) ∧
    length chunks = 6%nat ∧ Forall (λ c, ingest_da_chunk root c = Ok tt) chunks.
Proof.
  intros Hw He Hl. destruct (split_ok block body Hw He Hl) as (shards & E & Hn & _ & _).
  destruct (da_commit_ok block shards E Hn) as (root & chunks & Ec & Hs & _ & _ & _ & Hv).
  assert (length chunks = length shards) as Hlen by (by rewrite <- Hs, length_fmap).
  exists root, chunks. split; [done|]. split.
  { unfold publish_da_chunks. by rewrite E, Ec, bool_decide_false by congruence. }
  split; [congruence|]. eapply Forall_impl; [exact Hv|]. intros c Hc. unfold ingest_da_chunk. by rewrite Hc.
Qed.

End chunk_facts.

(** ** The locator *)

(** How far below the tip the entry [i] is. *)
Definition locator_offset (i : nat) : Z := if decide (i < 10)%nat then Z.of_nat i else 9 + (2 ^ (Z.of_nat i - 8) - 2).
Definition locator_step (i : nat) : Z := if decide (i < 10)%nat then 1 else 2 ^ (Z.of_nat i - 9).

Lemma locator_table i :
  (i < 33)%nat →
  locator_offset (S i) = locator_offset i + locator_step (S i) ∧ 0 ≤ locator_offset i ∧
  1 ≤ locator_step i ∧
  (if 10 <=? Z.of_nat (S i) then Z.max (sat_mul U64_MAX (locator_step i) 2) 1 else locator_step i) = locator_step (S i).
Proof. intros Hi. do 33 (destruct i as [|i]; [repeat split; by vm_compute|]). lia. Qed.

Definition locator_entry (tip : Height) (i : nat) : Height := Z.max 0 (tip - locator_offset i).

(** The loop, started with [n] entries, ends with more of the same table: at
    the first entry that is 0, or at entry 32. *)
Lemma locator_loop_table tip fuel n :
  0 ≤ tip → (n + fuel = 33)%nat → (0 < fuel)%nat → (∀ i, (i < n)%nat → locator_offset i < tip) →
  ∃ m, (n ≤ m < 33)%nat ∧
    locator_loop fuel (locator_entry tip <$> seq 0 n) (locator_entry tip n) (locator_step n) =
      locator_entry tip <$> seq 0 (S m) ∧
    (∀ i, (i < m)%nat → locator_offset i < tip) ∧ (m = 32%nat ∨ locator_entry tip m = 0).
Proof.
  intros Ht. revert n. induction fuel as [|fuel IH]; intros n Hn Hf Hlt; [lia|]. cbn [locator_loop]. cbv zeta.
  destruct (locator_table n) as (Hoff & Hpos & Hst & Hstep); [lia|].
  assert ((locator_entry tip <$> seq 0 n) ++ [locator_entry tip n] = locator_entry tip <$> seq 0 (S n)) as ->
    by (by rewrite seq_S, fmap_app).
  rewrite length_fmap, length_seq, Hstep. destruct (Z.eqb_spec (locator_entry tip n) 0) as [E0|E0].
  { exists n. repeat split; [lia|lia|done|by right]. }
  assert (locator_offset n < tip) as Hlt' by (unfold locator_entry in E0; lia).
  destruct (Z.gtb_spec (Z.of_nat (S n)) 32) as [Hg|Hg].
  { exists n. repeat split; [lia|lia|done|left; lia]. }
  replace (sat_sub (locator_entry tip n) (Z.min (locator_step (S n)) (locator_entry tip n)))
    with (locator_entry tip (S n)) by (unfold locator_entry; rewrite Hoff; uint; destruct (locator_table (S n)); lia).
  destruct (IH (S n)) as (m & Hm & -> & Hm' & Hl); [lia|lia| |exists m; repeat split; [lia|lia|done|done]].
  intros i Hi. destruct (decide (i = n)) as [->|]; [done|apply Hlt; lia].
Qed.

(** The heights of the block locator: for every tip they start at the
    tip, go strictly down one by one and then in doubling steps, are at most 33,
    and end at the block 16,777,223 below the tip, or at the genesis block when
    the chain is not longer than that. *)
Theorem locator_heights_ok tip :
  u64 tip →
  let hs := locator_heights tip in
  hs !! 0%nat = Some tip ∧ (length hs ≤ 33)%nat ∧
  (∀ i x y, hs !! i = Some x → hs !! S i = Some y → y < x ∧ ((i < 9)%nat → x - y = 1)) ∧
  last hs = Some (Z.max 0 (tip - 16777223)).
Proof.
  intros Hu. unfold locator_heights.
  destruct (locator_loop_table tip 33 0) as (m & Hm & E & Hlt & Hend); [ulia|lia|lia|intros; lia|].
  assert (locator_entry tip 0 = tip) as E0 by (unfold locator_entry; change (locator_offset 0) with 0; ulia).
  rewrite E0 in E. change (locator_step 0) with 1 in E. change (locator_entry tip <$> seq 0 0) with (@nil Height) in E. rewrite E. cbv zeta.
  assert (∀ i x, (locator_entry tip <$> seq 0 (S m)) !! i = Some x → (i ≤ m)%nat ∧ x = locator_entry tip i) as Hl.
  { intros i x Hi. rewrite list_lookup_fmap in Hi. apply fmap_Some in Hi as (j & Hj & ->).
    apply lookup_seq in Hj as [-> Hj]. cbn. split; [lia|done]. }
  split; [cbn; by rewrite E0|]. split; [rewrite length_fmap, length_seq; lia|]. split.
  - intros i x y Hx Hy. apply Hl in Hx as [Hi ->], Hy as [Hi' ->].
    destruct (locator_table i) as (Hoff & _ & _ & _); [lia|]. specialize (Hlt i ltac:(lia)).
    unfold locator_entry. rewrite Hoff. 
    destruct (locator_table (S i)) as (_ & _ & Hs & _); [lia|]. split; [lia|].
    intros H9. assert (locator_step (S i) = 1) as -> by (unfold locator_step; by rewrite decide_True by lia).
    lia.
  - rewrite seq_S, fmap_app. cbn [Nat.add fmap list_fmap]. rewrite last_snoc. f_equal.
    destruct Hend as [->|Hz]; [done|]. rewrite Hz.
    assert (locator_offset m ≤ 16777223); [|unfold locator_entry in Hz; lia].
    clear -Hm. do 33 (destruct m as [|m]; [by vm_compute|]). lia.
Qed.

Lemma locator_heights_ok_witness : last (locator_heights 20000000) = Some 3222777.
Proof. destruct (locator_heights_ok 20000000) as (_ & _ & _ & ->); [by_eval|done]. Defined.

(** ** Catch-up *)

Section sync_facts.
Context `{!Crypto} {S : Type} `{!Store S} `{!StoreLaws S} `{!ReliableStore (S := S)}.

Definition offer_height (o : BodyOffer) : Height := hf_height (h_fields (bo_header o)).

(** An offer whose header commits to its body, of the sizes of the Rust types.
    It need not have been voted on by anyone. *)
Definition offer_ok (o : BodyOffer) : Prop :=
  commits_to (bo_header o) (bo_block o) (bo_receipts o) ∧ header_wf (bo_header o) ∧ block_wf (bo_block o) ∧
  body_fits (bo_block o) ∧ array 32 (bo_app_hash o).

Lemma offer_ok_fits header block receipts app :
  commits_to header block receipts → header_wf header → block_wf block →
  len (default [] (encode_block_body block)) ≤ U32_MAX → array 32 app →
  offer_ok {| bo_header := header; bo_block := block; bo_receipts := receipts; bo_app_hash := app |}.
Proof. intros Hc Hh Hb Hl Ha. split; [done|]. split; [done|]. split; [done|]. split; [|done]. intros buf E. cbn in E. by rewrite E in Hl. Qed.

(** What the store holds at a height. *)
Definition holds (s : S) (h : Height) (o : BodyOffer) : Prop :=
  get_header s h = Ok (Some (bo_header o)) ∧ get_block s h = Ok (Some (bo_block o)) ∧
  get_app_hash s h = Ok (Some (bo_app_hash o)).
Definition same_at (s s' : S) (h : Height) : Prop :=
  get_header s' h = get_header s h ∧ get_block s' h = get_block s h ∧ get_app_hash s' h = get_app_hash s h.

Lemma written_holds (s s' : S) o m :
  offer_ok o → written m (kv_view s') (bo_header o) (bo_block o) (bo_receipts o) (bo_app_hash o) →
  holds s' (offer_height o) o ∧ tip s' = Ok (Some (offer_height o)) ∧
  (m = kv_view s → ∀ h, u64 h → h ≠ offer_height o → same_at s s' h).
Proof.
  intros (_ & Hh & Hb & Hf & [Ha _]) W. assert (u64 (offer_height o)) as Hu by apply Hh. split; [split; [|split]|split].
  - unfold get_header, offer_height. rewrite get_reliable, (wr_header _ _ _ _ _ _ W). by rewrite header_roundtrip.
  - apply get_block_view; [done..|apply W].
  - unfold get_app_hash, offer_height. by rewrite get_reliable, (wr_app _ _ _ _ _ _ W), Ha.
  - unfold tip. unfold offer_height in *. rewrite get_reliable, (wr_tip _ _ _ _ _ _ W), length_be_bytes, of_be_be_bytes by ulia. done.
  - intros -> h' Hu' Hne. unfold same_at, get_header, get_block, get_app_hash, offer_height in *.
    rewrite !get_reliable, !(wr_other _ _ _ _ _ _ W) by (done || by apply be_key_ne). done.
Qed.

Lemma put_offer (s : S) o :
  offer_ok o →
  ∃ s', put_block s (bo_header o) (bo_block o) (bo_receipts o) (bo_app_hash o) = Some (s', Ok tt) ∧
    holds s' (offer_height o) o ∧ tip s' = Ok (Some (offer_height o)) ∧
    ∀ h, u64 h → h ≠ offer_height o → same_at s s' h.
Proof.
  intros Ho. pose proof Ho as (_ & _ & Hb & _).
  destruct (put_block_written s (bo_header o) (bo_block o) (bo_receipts o) (bo_app_hash o) (proj2 Hb)) as (s' & Ep & W).
  exists s'. split; [done|]. destruct (written_holds s s' o _ Ho W) as (H1 & H2 & H3). auto.
Qed.

(** The last offer for a height. *)
Definition last_offer (h : Height) (bodies : list BodyOffer) : option BodyOffer :=
  last (filter (λ o, offer_height o = h) bodies).

(** The store after the offers: at each height the last offer, or what was
    there. *)
Definition offers_stored (s s' : S) (bodies : list BodyOffer) : Prop :=
  (∀ h, u64 h → match last_offer h bodies with Some o => holds s' h o | None => same_at s s' h end) ∧
  tip s' = match last bodies with Some o => Ok (Some (offer_height o)) | None => tip s end.

Lemma last_offer_cons h o bodies :
  last_offer h (o :: bodies) =
    match last_offer h bodies with Some o' => Some o' | None => if decide (offer_height o = h) then Some o else None end.
Proof.
  unfold last_offer. rewrite filter_cons. destruct (decide (offer_height o = h)).
  - rewrite last_cons. by destruct (last _).
  - by destruct (last _).
Qed.

Lemma offers_stored_cons s s1 s2 o bodies :
  holds s1 (offer_height o) o → tip s1 = Ok (Some (offer_height o)) →
  (∀ h, u64 h → h ≠ offer_height o → same_at s s1 h) → offers_stored s1 s2 bodies →
  offers_stored s s2 (o :: bodies).
Proof.
  intros (A1 & A2 & A3) Ht Hs [Hl Ht2]. split.
  - intros h Hu. specialize (Hl h Hu). rewrite last_offer_cons.
    destruct (last_offer h bodies) as [o'|]; [done|]. destruct Hl as (E1 & E2 & E3). case_decide as Eh.
    + subst h. split; [congruence|]. split; congruence.
    + destruct (Hs h Hu ltac:(done)) as (F1 & F2 & F3). split; [congruence|]. split; congruence.
  - rewrite last_cons. destruct (last bodies); [done|]. congruence.
Qed.

Lemma accept_bodies_ok (s : S) bodies :
  Forall offer_ok bodies → ∃ s', accept_bodies s bodies = Some (s', Ok tt) ∧ offers_stored s s' bodies.
Proof.
  intros Hb. revert s. induction Hb as [|o bodies Ho Hb IH]; intros s.
  { exists s. split; [done|]. split; [|done]. intros h Hu. done. }
  cbn [accept_bodies]. unfold accept_body_after_header. rewrite ingest_block_ok by apply Ho.
  destruct (put_offer s o Ho) as (s1 & -> & H1 & H2 & H3). destruct (IH s1) as (s2 & -> & H4).
  exists s2. split; [done|]. by eapply offers_stored_cons.
Qed.

(** A store that [headers_then_bodies] can read. *)
Definition readable (s : S) : Prop :=
  (∃ l, locator s = Ok l) ∧ ∀ h, u64 h → ∃ o, get_header s h = Ok o.

Lemma put_header_effect (s : S) header :
  header_wf header →
  ∃ s', put_header s header = (s', Ok tt) ∧ tip s' = tip s ∧
    get_header s' (hf_height (h_fields header)) = Ok (Some header) ∧
    (∀ h, get_block s' h = get_block s h ∧ get_app_hash s' h = get_app_hash s h) ∧
    ∀ h, u64 h → h ≠ hf_height (h_fields header) → get_header s' h = get_header s h.
Proof.
  intros Hh. assert (u64 (hf_height (h_fields header))) as Hu by apply Hh.
  destruct (batch_reliable s (put_header_ops header)) as (s' & Es & Ev). exists s'. split; [exact Es|].
  assert (∀ k, tag k ≠ 72 → k ≠ header_height_key (hf_height (h_fields header)) → kv_view s' !! k = kv_view s !! k) as Hk.
  { intros k H1 H2. rewrite Ev. apply view_ops_notin. cbn. rewrite !not_elem_of_cons.
    split; [done|]. split; [|by apply not_elem_of_nil]. intros ->. by apply H1. }
  split; [unfold tip; by rewrite !get_reliable, Hk|]. split; [|split].
  - unfold get_header. rewrite get_reliable, Ev. cbn [foldl put_header_ops view_op].
    rewrite lookup_insert_ne by done. by rewrite lookup_insert_eq, header_roundtrip.
  - intros h. unfold get_block, get_app_hash. by rewrite !get_reliable, !Hk.
  - intros h Hu' Hne. unfold get_header. rewrite !get_reliable, Hk; [done|done|]. by apply be_key_ne.
Qed.

Lemma accept_headers_ok (s : S) hs :
  (∀ h, u64 h → ∃ o, get_header s h = Ok o) → Forall header_wf hs →
  ∃ s', accept_headers s hs = (s', Ok tt) ∧ tip s' = tip s ∧
    ∀ h, get_block s' h = get_block s h ∧ get_app_hash s' h = get_app_hash s h.
Proof.
  intros Hr Hw. revert s Hr. induction Hw as [|hd hs Hh Hw IH]; intros s Hr; [by exists s|].
  cbn [accept_headers]. destruct (Hr (hf_height (h_fields hd))) as [o Eo]; [apply Hh|]. rewrite Eo.
  destruct o as [x|]; [by apply IH|]. unfold accept_header.
  destruct (put_header_effect s hd Hh) as (s1 & -> & Ht & Hg & Hb & Ho).
  destruct (IH s1) as (s2 & -> & Ht2 & Hb2).
  { intros h Hu. destruct (decide (h = hf_height (h_fields hd))) as [->|Hne]; [by eauto|]. rewrite Ho by done. by apply Hr. }
  exists s2. split; [done|]. split; [congruence|]. intros h.
  destruct (Hb h) as [B1 B2], (Hb2 h) as [C1 C2]. split; congruence.
Qed.

Lemma headers_then_bodies_ok (s : S) headers bodies :
  readable s → Forall header_wf headers → Forall offer_ok bodies →
  ∃ s', headers_then_bodies s headers bodies =
      Some (s', map_err (λ _, TopCodec)
        match last bodies with Some o => Ok (Some (offer_height o)) | None => tip s end) ∧
    ∀ h, u64 h →
      match last_offer h bodies with
      | Some o => holds s' h o
      | None => get_block s' h = get_block s h ∧ get_app_hash s' h = get_app_hash s h
      end.
Proof.
  intros [[l El] Hr] Hh Hb. unfold headers_then_bodies. rewrite El.
  destruct (accept_headers_ok s headers Hr Hh) as (s1 & -> & Ht1 & Hb1).
  destruct (accept_bodies_ok s1 bodies Hb) as (s2 & -> & Hs2 & Ht2). exists s2. split.
  - rewrite Ht2. by destruct (last bodies); rewrite ?Ht1.
  - intros h Hu. specialize (Hs2 h Hu). destruct (last_offer h bodies); [done|].
    destruct Hs2 as (_ & E1 & E2), (Hb1 h) as [F1 F2]. split; congruence.
Qed.

(** C23: Catch-up believes its peer.  On a store that works, for every list of
    offers whose headers commit to their own bodies, whoever made them and
    whatever their heights, catch-up succeeds, and afterwards the store holds
    the last offer made for each height, in place of the header, the block and
    the application hash that were there, and the tip is the height of the last
    offer; the blocks of the other heights are kept. *)
Theorem sync_replaces_blocks (s : S) headers bodies :
  readable s → Forall header_wf headers → Forall offer_ok bodies →
  ∃ s', headers_then_bodies s headers bodies =
      Some (s', map_err (λ _, TopCodec)
        match last bodies with Some o => Ok (Some (offer_height o)) | None => tip s end) ∧
    ∀ h, u64 h →
      match last_offer h bodies with
      | Some o => holds s' h o
      | None => get_block s' h = get_block s h ∧ get_app_hash s' h = get_app_hash s h
      end.
Proof. apply headers_then_bodies_ok. Qed.

End sync_facts.

(** ** Certified blocks *)

Section certified.
Context `{!Crypto}.

Lemma valid_block_reorg_ok header block receipts qc validators log app log' :
  valid_block_reorg_safety header block receipts qc validators log app = Some (log', Ok tt) →
  commits_to header block receipts ∧
  has_quorum (qc_power qc) (total_power validators) = true ∧
  verify_fast_aggregate (qc_agg_sig qc) (qc_signers qc)
    (signed_message (hf_height (h_fields header)) (qc_round qc) Precommit (VBlock (header_hash header))) = Some true ∧
  log ⊆ log' ∧ log' !! hf_height (h_fields header) = Some (header_hash header).
Proof.
  unfold valid_block_reorg_safety, valid_block_consensus.
  destruct (ingest_block _ _ _) as [[u|]|] eqn:Ei; [|done..]. destruct u. apply ingest_block_iff in Ei.
  destruct (qc_verify _ _) as [[u|]|] eqn:Eq; [|done..]. apply qc_verify_ok in Eq as [Hq Hv].
  destruct (_ || _) eqn:Em; [done|]. apply orb_false_elim in Em as [Eb Eh].
  apply bool_decide_eq_false, dec_stable in Eb. apply negb_false_iff, Z.eqb_eq in Eh.
  destruct (record _ _) as [lg r] eqn:Er. intros E.
  apply (inj Some) in E. injection E as -> E. destruct r as [[]|]; [|done].
  destruct (record_spec _ _ _ _ Er) as [Hsub Hrec]. cbn in Hrec.
  split; [done|]. split; [done|]. split; [by rewrite <- Eb, <- Eh|]. split; [done|by apply Hrec].
Qed.

(** A run of the gate: the blocks it lets through, with the log threaded. *)
Record Certified := {
  ce_header : Header; ce_block : Block; ce_receipts : list bytes; ce_qc : QuorumCertificate; ce_app : Hash;
}.

Fixpoint gate_run (validators : ValidatorSet) (log : CommitLog) (l : list Certified) :
    option (CommitLog * list Header) :=
  match l with
  | [] => Some (log, [])
  | c :: l =>
      match valid_block_reorg_safety (ce_header c) (ce_block c) (ce_receipts c) (ce_qc c) validators log (ce_app c) with
      | None => None
      | Some (log, r) =>
          match gate_run validators log l with
          | None => None
          | Some (log, hs) => Some (log, match r with Ok _ => ce_header c :: hs | Err _ => hs end)
          end
      end
  end.

Lemma gate_log header block receipts qc validators log app log' r :
  valid_block_reorg_safety header block receipts qc validators log app = Some (log', r) → log ⊆ log'.
Proof.
  unfold valid_block_reorg_safety. destruct (valid_block_consensus _ _ _ _ _) as [[u|]|]; [|by intros [= <- _]|done].
  destruct (record _ _) as [lg r'] eqn:Er. intros [= <- _]. by destruct (record_spec _ _ _ _ Er).
Qed.

Lemma gate_run_log validators log l log' hs :
  gate_run validators log l = Some (log', hs) →
  log ⊆ log' ∧ ∀ h, h ∈ hs → log' !! hf_height (h_fields h) = Some (header_hash h).
Proof.
  revert log log' hs. induction l as [|c l IH]; intros log log' hs E; cbn in E.
  { injection E as <- <-. split; [done|]. by intros h ?%elem_of_nil. }
  destruct (valid_block_reorg_safety _ _ _ _ _ _ _) as [[lg r]|] eqn:Eg; [|done].
  destruct (gate_run validators lg l) as [[lg' hs']|] eqn:El; [|done]. injection E as <- <-.
  destruct (IH _ _ _ El) as [Hsub Hin]. pose proof (gate_log _ _ _ _ _ _ _ _ _ Eg) as Hsub0.
  split; [by transitivity lg|]. intros h Hh. destruct r as [[]|]; [|by apply Hin].
  apply elem_of_cons in Hh as [->|Hh]; [|by apply Hin].
  destruct (valid_block_reorg_ok _ _ _ _ _ _ _ _ Eg) as (_ & _ & _ & _ & Hl). by apply (lookup_weaken _ _ _ _ Hl).
Qed.

(** The network gate never lets two blocks of one height through: in every
    sequence of blocks and certificates offered to it, the headers it accepts
    at the same height have the same hash. *)
Theorem certified_block_unique validators log l log' hs h1 h2 :
  gate_run validators log l = Some (log', hs) → h1 ∈ hs → h2 ∈ hs →
  hf_height (h_fields h1) = hf_height (h_fields h2) → header_hash h1 = header_hash h2.
Proof.
  intros E H1 H2 Eh. destruct (gate_run_log _ _ _ _ _ E) as [_ Hin].
  apply Hin in H1, H2. congruence.
Qed.

End certified.

(** ** Witnesses *)

#[local] Existing Instances toy_crypto toy_crypto_laws.

(** A header that commits to the block. *)
Definition header_for (block : Block) (receipts : list bytes) : Header :=
  {| h_fields := b_header_fields block; h_tx_root := default Hash_ZERO (tx_root_signed (b_txs block));
     h_state_root := Hash_ZERO; h_receipts_root := Merkle.receipts_root receipts;
     h_validators_hash := Hash_ZERO; h_da_root := Hash_ZERO |}.

Definition toy_offer (block : Block) (app : Hash) : BodyOffer :=
  {| bo_header := header_for block [[7]]; bo_block := block; bo_receipts := [[7]]; bo_app_hash := app |}.

(** The sample block with another signature. *)
Definition resigned_block : Block :=
  {| b_header_fields := b_header_fields sample_block;
     b_txs := (λ s, {| st_tx := st_tx s; st_signature := replicate 64 255; st_public_key := replicate 32 0 |})
                <$> b_txs sample_block |}.

Definition empty_block : Block := {| b_header_fields := b_header_fields sample_block; b_txs := [] |}.

Lemma ingest_block_binding_witness :
  ingest_block (header_for sample_block [[7]]) resigned_block [[7]] = Some (Ok tt) ∧ resigned_block ≠ sample_block.
Proof.
  split; [|discriminate].
  apply (ingest_block_binding (header_for sample_block [[7]]) sample_block resigned_block [[7]] [[7]]);
    [vm_compute; reflexivity|by_eval| |reflexivity|reflexivity].
  constructor; [|constructor]. intros b Eb.
  assert (len (default [] (tx_encode sample_tx)) ≤ U32_MAX) as Hl by by_eval. cbn [st_tx] in Eb. by rewrite Eb in Hl.
Defined.

Lemma toy_offer_ok block :
  bool_decide (commits_to (header_for block [[7]]) block [[7]]) && bool_decide (header_wf (header_for block [[7]])) &&
  bool_decide (block_wf block) && bool_decide (len (default [] (encode_block_body block)) ≤ U32_MAX) = true →
  offer_ok (toy_offer block (replicate 32 5)).
Proof.
  intros E. apply andb_prop in E as [E E4]. apply andb_prop in E as [E E3]. apply andb_prop in E as [E1 E2].
  apply offer_ok_fits; [exact (bool_decide_eq_true_1 _ E1)|exact (bool_decide_eq_true_1 _ E2)|
    exact (bool_decide_eq_true_1 _ E3)|exact (bool_decide_eq_true_1 _ E4)|by_eval].
Qed.

(** The store that holds [sample_block] ends up with the empty block. *)
Lemma sync_replaces_blocks_witness :
  ∃ s s' : MemoryStore, get_block s 3 = Ok (Some sample_block) ∧
    headers_then_bodies s [] [toy_offer empty_block (replicate 32 5)] = Some (s', Ok (Some 3)) ∧
    get_block s' 3 = Ok (Some empty_block).
Proof.
  destruct (put_offer MemoryStore_new (toy_offer sample_block (replicate 32 5))) as (s & _ & (G1 & G2 & _) & Ht & Ho);
    [by apply toy_offer_ok; vm_compute|].
  assert (∀ h, u64 h → ∃ o, get_header s h = Ok o) as Hr.
  { intros h Hu. destruct (decide (h = 3)) as [->|Hne]; [by eauto|].
    destruct (Ho h Hu Hne) as (-> & _). by eexists. }
  destruct (sync_replaces_blocks s [] [toy_offer empty_block (replicate 32 5)]) as (s' & E & Hs).
  - split; [|exact Hr]. unfold locator. rewrite Ht. change (locator_heights _) with [3; 2; 1; 0].
    cbn [locator_hashes].
    destruct (Hr 3 ltac:(by_eval)) as [o3 ->], (Hr 2 ltac:(by_eval)) as [o2 ->],
      (Hr 1 ltac:(by_eval)) as [o1 ->], (Hr 0 ltac:(by_eval)) as [o0 ->]. by eexists.
  - constructor.
  - constructor; [by apply toy_offer_ok; vm_compute|constructor].
  - exists s, s'. split; [exact G2|]. split; [exact E|]. exact (proj1 (proj2 (Hs 3 ltac:(by_eval)))).
Defined.

(** Two certificates for one height: the second block is refused. *)
Definition toy_certified (block : Block) : Certified :=
  {| ce_header := header_for block [[7]]; ce_block := block; ce_receipts := [[7]];
     ce_qc := {| qc_height := 3; qc_round := 1; qc_block := VBlock (header_hash (header_for block [[7]]));
                 qc_signers := [val_a]; qc_agg_sig := [1]; qc_power := 5 |};
     ce_app := replicate 32 5 |}.

Definition toy_certificates : list Certified := [toy_certified sample_block; toy_certified empty_block].

Lemma certified_block_unique_witness :
  match gate_run toy_set ∅ toy_certificates with
  | Some (log, hs) => length hs = 1%nat ∧ ∀ h1 h2, h1 ∈ hs → h2 ∈ hs →
      hf_height (h_fields h1) = hf_height (h_fields h2) → header_hash h1 = header_hash h2
  | None => False
  end.
Proof.
  assert ((λ r, length r.2) <$> gate_run toy_set ∅ toy_certificates = Some 1%nat) as E by (vm_compute; reflexivity).
  destruct (gate_run toy_set ∅ toy_certificates) as [[log hs]|] eqn:Eg; [|discriminate E].
  apply (inj Some) in E. split; [exact E|]. intros h1 h2.
  exact (certified_block_unique toy_set ∅ toy_certificates log hs h1 h2 Eg).
Defined.
