(* ===== verification/Exec.v ===== *)
(** Sequential execution: [execution/src/seq.rs].

    [apply_tx] is the whole per-transaction pipeline (signature, nonce, gas,
    balance, staking, WASM); [apply_block] runs a block and computes the
    application hash.  The tries are used through [TrieLaws], so the theorems
    hold for the Merkle Patricia trie under its proviso on hash collisions.

    The theorems are in [ExecSpec]. *)

From S2P Require Import Prelude Types Codec Crypto Merkle Store MptSpec Tries ExecBase Vote Staking Wasm.

#[local] Open Scope Z_scope.
#[local] Open Scope l1_scope.

Section exec.
Context {T : Type} `{!TrieImpl T} `{!Crypto} `{!Wasm}.

(** ** [World::from_genesis], roots *)

Definition world_from_genesis (g : Genesis) : World T :=
  {| accounts := foldl (λ t e, acct_put t e.1 (from_genesis e.2)) trie_new (btree_iter (g_alloc g));
     w_storage := trie_new; staking := StakingState_default; params := gp_registry (g_params g);
     code := ∅; executing := ∅; storage_reads := ∅; storage_writes := ∅;
     versioned := MemoryStore_new; wasm_fuel_left := 0 |}.

(** [World::account]. *)
Definition account (w : World T) (addr : Address) : Account :=
  default Account_empty (acct_get (accounts w) addr).

Definition commit_state_root (w : World T) : Hash := commit_tries (accounts w) (w_storage w).

Definition app_hash (state_root tx_root receipts_root : Hash) : Hash :=
  hash_to_array (state_root ++ tx_root ++ receipts_root).

(** ** [apply_tx] *)

Definition sender_address (signed : SignedTx) : result Address RejectReason :=
  match public_key_from_bytes (st_public_key signed) with
  | None => Err RSignature
  | Some pk => Ok (from_ed25519 pk)
  end.

Definition fail (r : RejectReason) : Receipt :=
  {| success := false; gas_used := 0; events := []; reason := Some r |}.
Definition succeed (gas : Z) (e : Event) : Receipt :=
  {| success := true; gas_used := gas; events := [e]; reason := None |}.

(** [nonce.checked_add(1).unwrap_or(nonce)]. *)
Definition bump (n : Nonce) : Nonce := default n (Nonce_checked_add n 1).

Definition debited (a : Account) (b : Amount) : Account :=
  {| balance := b; nonce := bump (nonce a); code_hash := code_hash a |}.

(** The staking branch.  [None] is a failed [expect]. *)
Definition apply_stake (w : World T) (from : Address) (tx : Tx) (stake : StakePayload)
    (sender : Account) (gas : Z) : option (World T * Receipt) :=
  let debit := match sp_kind stake with
               | Bond | Delegate => sp_amount stake
               | Unbond | Undelegate | Withdraw => 0
               end in
  match value_balance_check tx debit sender with
  | Err e => Some (w, fail (reason_of_check e))
  | Ok _ =>
      let r := apply_stake_tx (staking w) (params w) from tx in
      let w := set_staking r.1 w in
      match r.2 with
      | Err e => Some (w, fail e)
      | Ok _ =>
          match Amount_checked_add debit (tx_max_fee tx) with
          | None => None
          | Some pay =>
              match Amount_checked_sub (balance sender) pay with
              | None => None
              | Some bal =>
                  let bal := match sp_kind stake with
                             | Withdraw => default bal (Amount_checked_add bal (sp_amount stake))
                             | _ => bal
                             end in
                  let w := set_accounts (acct_put (accounts w) from (debited sender bal)) w in
                  Some (w, succeed gas (EStake from (sp_amount stake)))
              end
          end
      end
  end.

(** The deployment branch. *)
Definition apply_deploy (w : World T) (from : Address) (tx : Tx) (deploy : Deploy)
    (sender : Account) (gas : Z) : option (World T * Receipt) :=
  match value_balance_check tx 0 sender with
  | Err e => Some (w, fail (reason_of_check e))
  | Ok _ =>
      match prepare tx deploy with
      | Err _ => Some (w, fail RWasmInvalid)
      | Ok _ =>
          let snapshot := w in
          match Amount_checked_sub (balance sender) (tx_max_fee tx) with
          | None => None
          | Some bal =>
              let w := set_accounts (acct_put (accounts w) from (debited sender bal)) w in
              let addr := create_address from (tx_nonce tx) in
              match install w addr (dp_code deploy) with
              | (w, Ok _) => Some (w, succeed gas (EWasm from addr))
              | (_, Err r) => Some (snapshot, fail r)
              end
          end
      end
  end.

(** The call branch. *)
Definition apply_call (w : World T) (from : Address) (tx : Tx) (c : Call)
    (sender : Account) (gas : Z) : option (World T * Receipt) :=
  match value_balance_check tx 0 sender with
  | Err e => Some (w, fail (reason_of_check e))
  | Ok _ =>
      match code w !! cl_to c with
      | None => Some (w, fail RWasmNoCode)
      | Some _ =>
          let snapshot := w in
          match Amount_checked_sub (balance sender) (tx_max_fee tx) with
          | None => None
          | Some bal =>
              let w := set_accounts (acct_put (accounts w) from (debited sender bal)) w in
              let fuel := fuel_budget tx gas in
              match call w c fuel with
              | None => None
              | Some (w, Ok _) => Some (w, succeed gas (EWasm from (cl_to c)))
              | Some (_, Err r) => Some (snapshot, fail r)
              end
          end
      end
  end.

(** The transfer branch. *)
Definition apply_transfer (w : World T) (from : Address) (tx : Tx) (transfer : Transfer)
    (sender : Account) (gas : Z) : option (World T * Receipt) :=
  match balance_check tx transfer sender with
  | Err e => Some (w, fail (reason_of_check e))
  | Ok _ =>
      match Amount_checked_add (tr_amount transfer) (tx_max_fee tx) with
      | None => None
      | Some pay =>
          match Amount_checked_sub (balance sender) pay with
          | None => None
          | Some bal =>
              let w := set_accounts (acct_put (accounts w) from (debited sender bal)) w in
              let recv := default Account_empty (acct_get (accounts w) (tr_to transfer)) in
              let recv := {| balance := default (balance recv)
                               (Amount_checked_add (balance recv) (tr_amount transfer));
                             nonce := nonce recv; code_hash := code_hash recv |} in
              let w := set_accounts (acct_put (accounts w) (tr_to transfer) recv) w in
              Some (w, succeed gas (ETransfer from (tr_to transfer) (tr_amount transfer)))
          end
      end
  end.

(** [None] is a panic. *)
Definition apply_tx (w : World T) (signed : SignedTx) : option (World T * Receipt) :=
  let w := clear_scratch w in
  match verify_ed25519 signed with
  | None => None
  | Some false => Some (w, fail RSignature)
  | Some true =>
      match sender_address signed with
      | Err r => Some (w, fail r)
      | Ok from =>
          let tx := st_tx signed in
          let sender := default Account_empty (acct_get (accounts w) from) in
          match nonce_check tx sender with
          | Err e => Some (w, fail (reason_of_check e))
          | Ok _ =>
              match gas_meter tx with
              | Err e => Some (w, fail (reason_of_gas e))
              | Ok gas =>
                  match as_stake tx with
                  | Some stake => apply_stake w from tx stake sender gas
                  | None =>
                      match as_deploy tx with
                      | Some deploy => apply_deploy w from tx deploy sender gas
                      | None =>
                          match as_call tx with
                          | Some c => apply_call w from tx c sender gas
                          | None =>
                              match as_transfer tx with
                              | None => Some (w, fail RGas)
                              | Some transfer => apply_transfer w from tx transfer sender gas
                              end
                          end
                      end
                  end
              end
          end
      end
  end.

(** The loop of [apply_block]. *)
Fixpoint apply_txs (w : World T) (txs : list SignedTx) : option (World T * list Receipt) :=
  match txs with
  | [] => Some (w, [])
  | s :: txs =>
      match apply_tx w s with
      | None => None
      | Some (w, r) =>
          match apply_txs w txs with
          | None => None
          | Some (w, rs) => Some (w, r :: rs)
          end
      end
  end.

Definition apply_block_with_roots (pre : World T) (block : Block) :
    option (World T * list Receipt * Hash * Hash * Hash * Hash) :=
  match apply_txs pre (b_txs block) with
  | None => None
  | Some (w, receipts) =>
      match tx_root_signed (b_txs block) with
      | None => None
      | Some tx_r =>
          let rec_r := Merkle.receipts_root (receipt_encode <$> receipts) in
          let st := commit_state_root w in
          Some (w, receipts, app_hash st tx_r rec_r, st, tx_r, rec_r)
      end
  end.

Definition apply_block (pre : World T) (block : Block) : option (World T * list Receipt * Hash) :=
  match apply_txs pre (b_txs block) with
  | None => None
  | Some (w, receipts) =>
      match tx_root_signed (b_txs block) with
      | None => None
      | Some tx_r =>
          let rec_root := Merkle.receipts_root (receipt_encode <$> receipts) in
          let st := commit_state_root w in
          Some (w, receipts, app_hash st tx_r rec_root)
      end
  end.

End exec.
