(* ===== verification/ExecSpec.v ===== *)
(** Correctness of sequential execution.

    Shown for every sequence of transactions, against the map that the
    accounts trie holds: execution never panics and accounts for every unit
    of value ([apply_txs_supply]); a rejected transaction changes nothing
    ([rejected_tx_no_effect]); and no transaction takes effect twice
    ([no_replay]). *)

From S2P Require Import Prelude Types Codec Crypto Merkle Store MptSpec Tries ExecBase Vote Staking Wasm Exec.

#[local] Open Scope Z_scope.
#[local] Open Scope l1_scope.

Section spec.
Context {T : Type} `{!TrieImpl T} `{!TrieLaws T} `{!Crypto} `{!CryptoLaws} `{!Wasm}.
Implicit Types (w : World T) (am : gmap Address Account).

(** ** The state invariant and the total supply *)

Definition world_ok w am : Prop :=
  aholds (accounts w) am ∧ book_wf (staking w) ∧ versions_ok (versioned w).

Definition supply w am : Z := map_sum balance am + stake_total (staking w).

(** What a transaction takes out of circulation: the fee, and the amount of
    an [Undelegate], which is removed from the ledger and credited to nobody. *)
Definition burned (tx : Tx) (r : Receipt) : Z :=
  if success r then
    tx_max_fee tx +
    match as_stake tx with
    | Some s => match sp_kind s with Undelegate => sp_amount s | _ => 0 end
    | None => 0
    end
  else 0.

Definition nonce_of am (a : Address) : Nonce := nonce (default Account_empty (am !! a)).

(** Nothing but the per-transaction scratch fields differs. *)
Definition same_state w w' : Prop :=
  accounts w' = accounts w ∧ w_storage w' = w_storage w ∧ staking w' = staking w ∧
  params w' = params w ∧ code w' = code w ∧ versioned w' = versioned w.

Definition signed_wf (s : SignedTx) : Prop := tx_wf (st_tx s).

(** What one transaction guarantees, from a state with accounts [am]. *)
Definition tx_outcome w am (from : Address) (tx : Tx) (res : option (World T * Receipt)) : Prop :=
  ∃ w' r, res = Some (w', r) ∧
    (trie_safe (accounts w') → trie_safe (accounts w)) ∧
    (success r = false → same_state w w') ∧
    next_unbond (staking w') ≤ next_unbond (staking w) + 1 ∧
    (trie_safe (accounts w') → ∃ am',
       world_ok w' am' ∧ supply w' am' = supply w am - burned tx r ∧
       ∀ a, nonce_of am' a =
         if success r && bool_decide (a = from) then bump (nonce_of am a) else nonce_of am a).

Lemma outcome_fail w am from tx e :
  world_ok w am → tx_outcome w am from tx (Some (w, fail e)).
Proof.
  intros Hw. exists w, (fail e). split; [done|]. split; [done|]. split; [done|]. split; [lia|].
  intros _. exists am. split; [done|]. split; [cbn; lia|]. intros a. done.
Qed.

(** ** Accounts *)

Lemma balance_nonneg am : map_Forall (λ a acc, array 32 a ∧ account_wf acc) am →
  map_Forall (λ _ acc, 0 ≤ balance acc) am.
Proof. intros Hm a acc Ha. destruct (Hm a acc Ha) as (_ & Hb & _). uint. lia. Qed.

Lemma sum_insert_account am a acc :
  map_sum balance (<[a := acc]> am) =
    map_sum balance am - balance (default Account_empty (am !! a)) + balance acc.
Proof. rewrite map_sum_insert. by destruct (am !! a). Qed.

Lemma account_default_wf am a :
  map_Forall (λ a acc, array 32 a ∧ account_wf acc) am → account_wf (default Account_empty (am !! a)).
Proof.
  intros Hm. destruct (am !! a) as [acc|] eqn:E; cbn; [by apply (Hm a)|].
  split; [uint; cbn; lia|]. split; [uint; cbn; lia|]. split; [done|]. by apply Forall_replicate.
Qed.

Lemma balance_default_le am a :
  map_Forall (λ a acc, array 32 a ∧ account_wf acc) am →
  balance (default Account_empty (am !! a)) ≤ map_sum balance am.
Proof.
  intros Hm. pose proof (balance_nonneg am Hm) as Hn. destruct (am !! a) as [acc|] eqn:E; cbn.
  - by apply (map_sum_lookup_le balance am a).
  - by apply map_sum_nonneg.
Qed.

Lemma bump_u64 n : u64 n → u64 (bump n).
Proof.
  intros Hn. unfold bump, Nonce_checked_add. destruct (checked_add _ _ _) eqn:E; cbn; [|done].
  apply checked_add_Some in E. uint. lia.
Qed.

Lemma bump_lt n : n < U64_MAX → bump n = n + 1.
Proof. intros Hn. unfold bump, Nonce_checked_add, checked_add. by ztest. Qed.

Lemma debited_wf acc b : account_wf acc → u128 b → account_wf (debited acc b).
Proof. intros (_ & Hn & Hc) Hb. split; [done|]. split; [by apply bump_u64|done]. Qed.

Lemma nonce_insert am a acc b :
  nonce_of (<[a := acc]> am) b = if bool_decide (b = a) then nonce acc else nonce_of am b.
Proof.
  unfold nonce_of. case_bool_decide as E; [subst; by rewrite lookup_insert_eq|].
  by rewrite lookup_insert_ne.
Qed.

Lemma pending_sum_nonneg b : book_wf b → 0 ≤ map_sum ue_amount (pending_unbond b).
Proof. intros (_ & _ & Hp). apply map_sum_nonneg. intros k e Hk. by destruct (Hp k e Hk). Qed.

Lemma stake_total_nonneg b : book_wf b → 0 ≤ stake_total b.
Proof.
  intros Hw. pose proof (pending_sum_nonneg b Hw). destruct Hw as (Hs & Hd & _). unfold stake_total.
  pose proof (map_sum_nonneg id _ Hs). pose proof (map_sum_nonneg id _ Hd). lia.
Qed.

(** ** Staking rejects without effect, as long as the supply fits [u128] *)

Lemma stake_err_same b registry from tx s e :
  as_stake tx = Some s → (apply_stake_tx b registry from tx).2 = Err e →
  (apply_stake_tx b registry from tx).1 = b ∨
  (sp_kind s = Bond ∧ ∃ id, U128_MAX < default 0 (self_bond b !! id) + sp_amount s).
Proof.
  intros Hs E. unfold apply_stake_tx in *. rewrite Hs in *. destruct (sp_kind s) eqn:Ek.
  - unfold stake_bond_op in *. destruct (sp_validator s) as [id|]; [|by left].
    case_bool_decide; [by left|]. destruct (check_min_self_bond _ _); [|by left].
    destruct (operator b !! id) as [op|].
    + case_bool_decide; [by left|]. destruct (Amount_checked_add _ _) eqn:Ea; [done|by left].
    + cbn [self_bond set_operator] in *.
      destruct (Amount_checked_add _ _) eqn:Ea; [done|]. right. split; [done|]. exists id.
      by apply checked_add_None in Ea.
  - left. unfold stake_unbond_op in *. repeat (case_match; cbn in *; try done).
  - left. unfold stake_delegate_op in *. repeat (case_match; cbn in *; try done).
  - left. unfold stake_undelegate_op in *. repeat (case_match; cbn in *; try done).
  - left. unfold stake_withdraw_op in *. repeat (case_match; cbn in *; try done).
Qed.

Lemma stake_next_unbond b registry from tx :
  next_unbond (apply_stake_tx b registry from tx).1 ≤ next_unbond b + 1.
Proof.
  unfold apply_stake_tx. destruct (as_stake tx) as [s|]; [|cbn; lia].
  destruct (sp_kind s);
    unfold stake_bond_op, stake_unbond_op, stake_delegate_op, stake_undelegate_op, stake_withdraw_op;
    repeat (case_match; simplify_eq; cbn in *; try lia); unfold sat_add; lia.
Qed.

Lemma self_bond_le b i : book_wf b → default 0 (self_bond b !! i) ≤ stake_total b.
Proof.
  intros Hw. pose proof (pending_sum_nonneg b Hw). destruct Hw as (Hs & Hd & _). unfold stake_total.
  pose proof (map_sum_nonneg id _ Hd).
  assert (default 0 (self_bond b !! i) ≤ map_sum id (self_bond b)); [|lia].
  destruct (self_bond b !! i) as [x|] eqn:E; cbn.
  - by apply (map_sum_lookup_le id _ i x).
  - by apply (map_sum_nonneg id).
Qed.

(** Crediting an account that has room: its nonce does not change. *)
Definition credited (a : Account) (amt : Amount) : Account :=
  {| balance := default (balance a) (Amount_checked_add (balance a) amt);
     nonce := nonce a; code_hash := code_hash a |}.

Lemma credit_ok t am a amt :
  aholds t am → array 32 a → 0 ≤ amt → map_sum balance am + amt ≤ U128_MAX →
  let acc := credited (default Account_empty (acct_get t a)) amt in
  trie_safe (acct_put t a acc) →
  aholds (acct_put t a acc) (<[a := acc]> am) ∧
  map_sum balance (<[a := acc]> am) = map_sum balance am + amt ∧
  ∀ b, nonce_of (<[a := acc]> am) b = nonce_of am b.
Proof.
  intros Ht Ha Hamt Hroom. rewrite (aholds_get _ _ _ Ht Ha). intros acc Hs.
  pose proof (balance_default_le am a (proj2 Ht)) as Hle.
  pose proof (account_default_wf am a (proj2 Ht)) as (Hb & Hn & Hc).
  assert (balance acc = balance (default Account_empty (am !! a)) + amt) as Hbal.
  { unfold acc, credited. cbn [balance]. unfold Amount_checked_add, checked_add. by ztest. }
  split; [|split].
  - apply aholds_put; [done|done| |done]. split; [|done]. rewrite Hbal. uint. lia.
  - rewrite sum_insert_account, Hbal. lia.
  - intros b. rewrite nonce_insert. by case_bool_decide; subst.
Qed.

(** Recording a code hash changes neither balances nor nonces. *)
Lemma code_hash_ok t am a h :
  aholds t am → array 32 a → array 32 h →
  let acc := with_code_hash (default Account_empty (acct_get t a)) h in
  trie_safe (acct_put t a acc) →
  aholds (acct_put t a acc) (<[a := acc]> am) ∧
  map_sum balance (<[a := acc]> am) = map_sum balance am ∧
  ∀ b, nonce_of (<[a := acc]> am) b = nonce_of am b.
Proof.
  intros Ht Ha Hh. rewrite (aholds_get _ _ _ Ht Ha). intros acc Hs.
  pose proof (account_default_wf am a (proj2 Ht)) as (Hb & Hn & Hc). split; [|split].
  - by apply aholds_put.
  - rewrite sum_insert_account. cbn. lia.
  - intros b. rewrite nonce_insert. by case_bool_decide; subst.
Qed.

Lemma set_staking_same w : set_staking (staking w) w = w.
Proof. by destruct w. Qed.

(** ** The four kinds of transaction *)

Section branches.
Context (w : World T) (am : gmap Address Account) (from : Address) (tx : Tx) (gas : Z).
Hypothesis Hw : world_ok w am.
Hypothesis Hsup : supply w am ≤ U128_MAX.
Hypothesis Hfrom : array 32 from.
Hypothesis Htx : tx_wf tx.

Let sender : Account := default Account_empty (am !! from).

Lemma sender_wf : account_wf sender.
Proof. apply account_default_wf, Hw. Qed.

Lemma balances_le : map_sum balance am ≤ U128_MAX.
Proof.
  pose proof Hsup as Hle. unfold supply in Hle.
  pose proof (stake_total_nonneg (staking w)) as Hn. destruct Hw as (_ & Hb & _). specialize (Hn Hb). lia.
Qed.

Lemma sender_balance_le : balance sender ≤ map_sum balance am.
Proof. apply balance_default_le, Hw. Qed.

Lemma fee_nonneg : 0 ≤ tx_max_fee tx.
Proof. destruct Htx as (_ & _ & _ & Hf & _). uint. lia. Qed.

(** The accounts after the sender has paid. *)
Lemma pay_ok bal :
  0 ≤ bal ≤ U128_MAX → trie_safe (acct_put (accounts w) from (debited sender bal)) →
  aholds (acct_put (accounts w) from (debited sender bal)) (<[from := debited sender bal]> am).
Proof.
  intros Hb Hs. apply aholds_put; [apply Hw|done| |done].
  apply debited_wf; [apply sender_wf|]. uint. lia.
Qed.

Lemma pay_sum bal :
  map_sum balance (<[from := debited sender bal]> am) = map_sum balance am - balance sender + bal.
Proof. apply sum_insert_account. Qed.

Lemma pay_nonce bal a :
  nonce_of (<[from := debited sender bal]> am) a =
    if bool_decide (a = from) then bump (nonce_of am a) else nonce_of am a.
Proof. rewrite nonce_insert. by case_bool_decide; subst. Qed.

Lemma transfer_outcome t :
  tx_payload tx = PTransfer t →
  tx_outcome w am from tx (apply_transfer w from tx t sender gas).
Proof.
  intros Hp. unfold apply_transfer, balance_check.
  destruct (value_balance_check _ _ _) as [u|e] eqn:Ec; [|by apply outcome_fail].
  apply value_balance_check_ok in Ec as [Ha Hb].
  assert (array 32 (tr_to t) ∧ u128 (tr_amount t)) as [Hto Hamt]
    by (pose proof Htx as (_ & _ & _ & _ & Hpw); by rewrite Hp in Hpw).
  pose proof fee_nonneg as Hfee. pose proof balances_le as Hsum. pose proof sender_balance_le as Hbal.
  pose proof sender_wf as (Hsb & _).
  rewrite (proj2 (checked_add_Some _ _ _ _) (conj eq_refl Ha) : Amount_checked_add _ _ = _).
  rewrite (proj2 (checked_sub_Some _ _ _) (conj eq_refl Hb) : Amount_checked_sub _ _ = _).
  set (bal := balance sender - _) in *. cbn [accounts set_accounts].
  eexists _, _. split; [done|]. split; [cbn; intros; by do 2 eapply safe_acct_put|].
  split; [done|]. split; [cbn; lia|]. cbn [accounts set_accounts]. intros Hs.
  assert (aholds (acct_put (accounts w) from (debited sender bal))
    (<[from := debited sender bal]> am)) as Ht1.
  { apply pay_ok; [uint; lia|]. by eapply safe_acct_put. }
  pose proof (pay_sum bal) as Hsum1.
  destruct (credit_ok _ _ (tr_to t) (tr_amount t) Ht1) as (Hh & Hs2 & Hn2); [done|uint; lia|lia|done|].
  eexists. split; [split; [exact Hh|apply Hw]|]. split.
  - unfold supply, burned, as_stake. cbn. rewrite Hp, Hs2, Hsum1. lia.
  - intros a. by rewrite Hn2, pay_nonce.
Qed.

Lemma transfer_exact_world t :
  tx_payload tx = PTransfer t → tr_to t ≠ from → nonce sender < U64_MAX →
  tr_amount t + tx_max_fee tx ≤ balance sender →
  let receiver := default Account_empty (am !! tr_to t) in
  ∃ w', apply_transfer w from tx t sender gas =
      Some (w', succeed gas (ETransfer from (tr_to t) (tr_amount t))) ∧
    (trie_safe (accounts w') → aholds (accounts w')
      (<[tr_to t := {| balance := balance receiver + tr_amount t; nonce := nonce receiver;
                       code_hash := code_hash receiver |}]>
       (<[from := {| balance := balance sender - (tr_amount t + tx_max_fee tx);
                     nonce := nonce sender + 1; code_hash := code_hash sender |}]> am))).
Proof.
  intros Hp Hne Hmax Hb receiver. unfold apply_transfer, balance_check, value_balance_check.
  assert (array 32 (tr_to t) ∧ u128 (tr_amount t)) as [Hto Hamt]
    by (pose proof Htx as (_ & _ & _ & _ & Hpw); by rewrite Hp in Hpw).
  pose proof fee_nonneg as Hfee. pose proof balances_le as Hsum. pose proof sender_balance_le as Hbal.
  pose proof sender_wf as (Hsb & _).
  assert (tr_amount t + tx_max_fee tx ≤ U128_MAX) as Ha by lia.
  rewrite (proj2 (checked_add_Some _ _ _ _) (conj eq_refl Ha) : Amount_checked_add _ _ = _).
  cbn [ok_or].
  rewrite (proj2 (checked_sub_Some _ _ _) (conj eq_refl Hb) : Amount_checked_sub _ _ = _).
  set (bal := balance sender - _) in *. cbn [accounts set_accounts].
  eexists. split; [done|]. cbn [accounts set_accounts]. intros Hs.
  assert (aholds (acct_put (accounts w) from (debited sender bal))
    (<[from := debited sender bal]> am)) as Ht1.
  { apply pay_ok; [uint; lia|]. by eapply safe_acct_put. }
  pose proof (pay_sum bal) as Hsum1.
  destruct (credit_ok _ _ (tr_to t) (tr_amount t) Ht1) as (Hh & _); [done|uint; lia|lia|done|].
  pose proof (balance_default_le _ (tr_to t) (proj2 Ht1)) as Hr.
  rewrite (aholds_get _ _ _ Ht1 Hto), lookup_insert_ne in * by done. fold receiver in Hh, Hr |- *.
  assert (Amount_checked_add (balance receiver) (tr_amount t) = Some (balance receiver + tr_amount t))
    as Hadd by (apply checked_add_Some; uint; lia).
  unfold credited, debited in *. by rewrite Hadd, bump_lt in * by done.
Qed.

(** The balance after a staking operation, and that the ledger and the
    balances together lose exactly what is burned. *)
Definition stake_balance (s : StakePayload) (pay : Z) : Amount :=
  match sp_kind s with
  | Withdraw => default (balance sender - pay) (Amount_checked_add (balance sender - pay) (sp_amount s))
  | _ => balance sender - pay
  end.

Definition stake_debit (s : StakePayload) : Z :=
  match sp_kind s with
  | Bond | Delegate => sp_amount s
  | Unbond | Undelegate | Withdraw => 0
  end.

Lemma stake_balance_ok s b' :
  book_wf b' → stake_total b' = stake_total (staking w) + stake_delta s → 0 ≤ sp_amount s →
  stake_debit s + tx_max_fee tx ≤ balance sender →
  let bal := stake_balance s (stake_debit s + tx_max_fee tx) in
  0 ≤ bal ≤ U128_MAX ∧
  bal - balance sender + stake_delta s =
    - (tx_max_fee tx + match sp_kind s with Undelegate => sp_amount s | _ => 0 end).
Proof.
  intros Hb' Ht Ha Hpay. cbv zeta. pose proof (stake_total_nonneg b' Hb').
  pose proof sender_balance_le. pose proof fee_nonneg. pose proof balances_le.
  pose proof Hsup as Hle. unfold supply in Hle. pose proof sender_wf as (Hsb & _).
  unfold stake_balance, stake_debit, stake_delta in *. uint.
  destruct (sp_kind s); [lia..|]. unfold Amount_checked_add, checked_add. uint. ztest. cbn. lia.
Qed.

Lemma stake_err_unchanged s e :
  tx_payload tx = PStake s → stake_debit s + tx_max_fee tx ≤ balance sender →
  (apply_stake_tx (staking w) (params w) from tx).2 = Err e →
  (apply_stake_tx (staking w) (params w) from tx).1 = staking w.
Proof.
  intros Hp Hpay E. assert (as_stake tx = Some s) as Hs by (unfold as_stake; by rewrite Hp).
  destruct (stake_err_same _ _ _ _ _ _ Hs E) as [|(Hk & i & Hover)]; [done|exfalso].
  pose proof (self_bond_le (staking w) i (proj1 (proj2 Hw))).
  pose proof sender_balance_le. pose proof fee_nonneg. pose proof Hsup as Hle. unfold supply in Hle.
  unfold stake_debit in Hpay. rewrite Hk in Hpay. lia.
Qed.

Lemma stake_outcome s :
  next_unbond (staking w) < U64_MAX → tx_payload tx = PStake s →
  tx_outcome w am from tx (apply_stake w from tx s sender gas).
Proof.
  intros Hn Hp. unfold apply_stake. fold (stake_debit s).
  destruct (value_balance_check _ _ _) as [u|e] eqn:Ec; [|by apply outcome_fail].
  apply value_balance_check_ok in Ec as [Ha Hb].
  assert (0 ≤ sp_amount s) as Hamt.
  { pose proof Htx as (_ & _ & _ & _ & Hpw). rewrite Hp in Hpw. destruct Hpw as [Hu _]. uint. lia. }
  assert (as_stake tx = Some s) as Hs by (unfold as_stake; by rewrite Hp).
  pose proof (apply_stake_accounted (staking w) (params w) from tx s
    (proj1 (proj2 Hw)) Hn Hs Hamt) as [Hbook Htot].
  pose proof (stake_next_unbond (staking w) (params w) from tx) as Hnu.
  pose proof (stake_err_unchanged s) as Herr.
  destruct (apply_stake_tx _ _ _ _) as [b' res]. cbn [fst snd] in *.
  destruct res as [u'|e]; [|rewrite (Herr e Hp Hb eq_refl), set_staking_same; by apply outcome_fail].
  rewrite (proj2 (checked_add_Some _ _ _ _) (conj eq_refl Ha) : Amount_checked_add _ _ = _).
  rewrite (proj2 (checked_sub_Some _ _ _) (conj eq_refl Hb) : Amount_checked_sub _ _ = _).
  fold (stake_balance s (stake_debit s + tx_max_fee tx)).
  destruct (stake_balance_ok s b' Hbook Htot Hamt Hb) as [Hrange Hsum].
  set (bal := stake_balance _ _) in *.
  eexists _, _. split; [done|]. split; [cbn; by eauto with l1|]. split; [done|]. split; [done|].
  cbn [accounts set_accounts set_staking]. intros Hsafe.
  exists (<[from := debited sender bal]> am). split; [|split].
  - split; [by apply pay_ok|]. split; [done|apply Hw].
  - unfold supply, burned. cbn. rewrite pay_sum, Hs, Htot. lia.
  - intros ad. by rewrite pay_nonce.
Qed.

(** Paying only the fee, as deployments and calls do. *)
Lemma deploy_outcome d :
  tx_payload tx = PDeploy d →
  tx_outcome w am from tx (apply_deploy w from tx d sender gas).
Proof.
  intros Hp. unfold apply_deploy.
  destruct (value_balance_check _ _ _) as [u|e] eqn:Ec; [|by apply outcome_fail].
  apply value_balance_check_ok in Ec as [_ Hb]. rewrite Z.add_0_l in Hb.
  destruct (prepare tx d); [|by apply outcome_fail].
  rewrite (proj2 (checked_sub_Some _ _ _) (conj eq_refl Hb) : Amount_checked_sub _ _ = _).
  set (bal := balance sender - _). unfold install. destruct (validate_wasm _); [|by apply outcome_fail].
  cbn [accounts set_accounts].
  eexists _, _. split; [done|]. split; [cbn; intros; by do 2 eapply safe_acct_put|].
  split; [done|]. split; [cbn; lia|]. cbn [accounts set_accounts set_code]. intros Hs.
  pose proof fee_nonneg. pose proof sender_wf as (Hsb & _).
  assert (aholds (acct_put (accounts w) from (debited sender bal))
    (<[from := debited sender bal]> am)) as Ht1.
  { apply pay_ok; [uint; lia|]. by eapply safe_acct_put. }
  destruct (code_hash_ok _ _ (create_address from (tx_nonce tx)) (hash_to_array (dp_code d)) Ht1)
    as (Hh & Hs2 & Hn2); [apply blake3_array|apply blake3_array|done|].
  eexists. split; [split; [exact Hh|apply Hw]|]. split.
  - unfold supply, burned, as_stake. cbn. rewrite Hp, Hs2, pay_sum. lia.
  - intros ad. by rewrite Hn2, pay_nonce.
Qed.

Lemma call_outcome c :
  tx_payload tx = PCall c →
  tx_outcome w am from tx (apply_call w from tx c sender gas).
Proof.
  intros Hp. unfold apply_call.
  destruct (value_balance_check _ _ _) as [u|e] eqn:Ec; [|by apply outcome_fail].
  apply value_balance_check_ok in Ec as [_ Hb]. rewrite Z.add_0_l in Hb.
  destruct (code w !! cl_to c); [|by apply outcome_fail].
  rewrite (proj2 (checked_sub_Some _ _ _) (conj eq_refl Hb) : Amount_checked_sub _ _ = _).
  set (bal := balance sender - _).
  assert (length (cl_to c) = 32%nat) as Hto.
  { pose proof Htx as (_ & _ & _ & _ & Hpw). rewrite Hp in Hpw. apply Hpw. }
  destruct (call_ok (set_accounts (acct_put (accounts w) from (debited sender bal)) w) c
    (fuel_budget tx gas)) as (w' & r & -> & (Ha & Hst & _ & _) & Hv); [apply Hw|done|].
  destruct r as [u'|e]; [|by apply outcome_fail]. cbn in Ha, Hst.
  pose proof fee_nonneg. pose proof sender_wf as (Hsb & _).
  eexists _, _. split; [done|]. rewrite Ha, Hst. split; [by eauto with l1|].
  split; [done|]. split; [lia|]. intros Hs.
  exists (<[from := debited sender bal]> am). split; [|split].
  - unfold world_ok. rewrite Ha, Hst. split; [apply pay_ok; [uint; lia|done]|]. split; [apply Hw|done].
  - unfold supply, burned, as_stake. rewrite Hst, Hp, pay_sum. cbn. lia.
  - intros ad. by rewrite pay_nonce.
Qed.

End branches.
(** ** One transaction *)

Lemma verify_total s : signed_wf s → ∃ b, verify_ed25519 s = Some b.
Proof.
  intros Hs. destruct (payload_bytes_total _ Hs) as [b Hb].
  unfold verify_ed25519, tx_signed_message, tx_encode. rewrite Hb. cbn. case_match; eauto.
Qed.

(** The address a signed transaction is sent from. *)
Definition sender_of (s : SignedTx) : Address := from_ed25519 (st_public_key s).

Lemma sender_address_eq s from : sender_address s = Ok from → from = sender_of s.
Proof. unfold sender_address, public_key_from_bytes, sender_of. destruct (ed25519_pk_valid _); intros [=]; done. Qed.

Lemma sender_of_array s : array 32 (sender_of s).
Proof. apply blake3_array. Qed.

Lemma clear_scratch_ok w am : world_ok w am → world_ok (clear_scratch w) am.
Proof. done. Qed.

Lemma outcome_scratch w am from tx res :
  tx_outcome (clear_scratch w) am from tx res → tx_outcome w am from tx res.
Proof. done. Qed.

Lemma apply_tx_outcome w am s :
  world_ok w am → supply w am ≤ U128_MAX → next_unbond (staking w) < U64_MAX → signed_wf s →
  tx_outcome w am (sender_of s) (st_tx s) (apply_tx w s).
Proof.
  intros Hw Hsup Hn Hs. apply outcome_scratch. apply clear_scratch_ok in Hw.
  change (supply (clear_scratch w) am ≤ U128_MAX) in Hsup.
  change (next_unbond (staking (clear_scratch w)) < U64_MAX) in Hn.
  unfold apply_tx. cbv zeta. set (w0 := clear_scratch w) in *.
  destruct (verify_total s Hs) as [ok ->]. destruct ok; [|by apply outcome_fail].
  destruct (sender_address s) as [from|e] eqn:Ef; [|by apply outcome_fail].
  apply sender_address_eq in Ef as ->. pose proof (sender_of_array s) as Ha.
  rewrite (aholds_get _ _ _ (proj1 Hw) Ha).
  destruct (nonce_check _ _); [|by apply outcome_fail].
  destruct (gas_meter _) as [gas|]; [|by apply outcome_fail].
  destruct (tx_payload (st_tx s)) as [t|k|d|c] eqn:Ep;
    unfold as_stake, as_deploy, as_call, as_transfer; rewrite Ep.
  - by apply transfer_outcome.
  - by apply stake_outcome.
  - by apply deploy_outcome.
  - by apply call_outcome.
Qed.

(** Only the sender's next nonce is accepted. *)
Lemma apply_tx_nonce w am s w' r :
  world_ok w am → apply_tx w s = Some (w', r) → success r = true →
  tx_nonce (st_tx s) = nonce_of am (sender_of s).
Proof.
  intros Hw E Hr. unfold apply_tx in E. cbv zeta in E.
  destruct (verify_ed25519 s) as [[|]|]; [|by simplify_eq|done].
  destruct (sender_address s) as [from|e] eqn:Ef; [|by simplify_eq].
  apply sender_address_eq in Ef as ->.
  rewrite (aholds_get (accounts (clear_scratch w)) _ _ (proj1 Hw) (sender_of_array s)) in E.
  unfold nonce_check, Nonce_matches in E. destruct (_ =? _) eqn:En in E; [|by simplify_eq].
  bsimpl. by unfold nonce_of.
Qed.

(** No [expect] fails, whatever the tries hold; and a hash collision in the
    accounts trie before a transaction is still one after it. *)
Definition steps_on w (res : option (World T * Receipt)) : Prop :=
  ∃ w' r, res = Some (w', r) ∧ versions_ok (versioned w') ∧
    (trie_safe (accounts w') → trie_safe (accounts w)).

Lemma steps_fail w e : versions_ok (versioned w) → steps_on w (Some (w, fail e)).
Proof. intros Hv. by exists w, (fail e). Qed.

Lemma apply_stake_steps w from tx k sender gas :
  versions_ok (versioned w) → steps_on w (apply_stake w from tx k sender gas).
Proof.
  intros Hv. unfold apply_stake.
  destruct (value_balance_check _ _ _) as [u|e] eqn:Ec; [|by apply steps_fail].
  apply value_balance_check_ok in Ec as [Ha Hb].
  destruct (apply_stake_tx _ _ _ _) as [b' [u'|e]]; cbn [fst snd].
  - rewrite (proj2 (checked_add_Some _ _ _ _) (conj eq_refl Ha) : Amount_checked_add _ _ = _).
    rewrite (proj2 (checked_sub_Some _ _ _) (conj eq_refl Hb) : Amount_checked_sub _ _ = _).
    eexists _, _. split; [done|]. split; [done|]. cbn. by eauto with l1.
  - by eexists _, _.
Qed.

Lemma apply_deploy_steps w from tx d sender gas :
  versions_ok (versioned w) → steps_on w (apply_deploy w from tx d sender gas).
Proof.
  intros Hv. unfold apply_deploy.
  destruct (value_balance_check _ _ _) as [u|e] eqn:Ec; [|by apply steps_fail].
  apply value_balance_check_ok in Ec as [_ Hb]. rewrite Z.add_0_l in Hb.
  destruct (prepare tx d); [|by apply steps_fail].
  rewrite (proj2 (checked_sub_Some _ _ _) (conj eq_refl Hb) : Amount_checked_sub _ _ = _).
  unfold install. destruct (validate_wasm _); [|by apply steps_fail].
  eexists _, _. split; [done|]. split; [done|]. cbn. by eauto with l1.
Qed.

Lemma apply_call_steps w from tx c sender gas :
  versions_ok (versioned w) → length (cl_to c) = 32%nat →
  steps_on w (apply_call w from tx c sender gas).
Proof.
  intros Hv Hto. unfold apply_call.
  destruct (value_balance_check _ _ _) as [u|e] eqn:Ec; [|by apply steps_fail].
  apply value_balance_check_ok in Ec as [_ Hb]. rewrite Z.add_0_l in Hb.
  destruct (code w !! cl_to c); [|by apply steps_fail].
  rewrite (proj2 (checked_sub_Some _ _ _) (conj eq_refl Hb) : Amount_checked_sub _ _ = _).
  destruct (call_ok (set_accounts (acct_put (accounts w) from
    (debited sender (balance sender - tx_max_fee tx))) w) c
    (fuel_budget tx gas)) as (w' & r & -> & (Ha & _) & Hv'); [done|done|].
  destruct r as [u'|e]; [|by apply steps_fail]. cbn in Ha.
  eexists _, _. split; [done|]. split; [done|]. rewrite Ha. by eauto with l1.
Qed.

Lemma apply_transfer_steps w from tx t sender gas :
  versions_ok (versioned w) → steps_on w (apply_transfer w from tx t sender gas).
Proof.
  intros Hv. unfold apply_transfer, balance_check.
  destruct (value_balance_check _ _ _) as [u|e] eqn:Ec; [|by apply steps_fail].
  apply value_balance_check_ok in Ec as [Ha Hb].
  rewrite (proj2 (checked_add_Some _ _ _ _) (conj eq_refl Ha) : Amount_checked_add _ _ = _).
  rewrite (proj2 (checked_sub_Some _ _ _) (conj eq_refl Hb) : Amount_checked_sub _ _ = _).
  eexists _, _. split; [done|]. split; [done|]. cbn. by eauto with l1.
Qed.

Lemma apply_tx_steps w s :
  versions_ok (versioned w) → signed_wf s → steps_on w (apply_tx w s).
Proof.
  intros Hv Hs. change (steps_on (clear_scratch w) (apply_tx w s)).
  change (versions_ok (versioned (clear_scratch w))) in Hv.
  unfold apply_tx. cbv zeta. set (w0 := clear_scratch w) in *.
  destruct (verify_total s Hs) as [ok ->]. destruct ok; [|by apply steps_fail].
  destruct (sender_address s) as [from|e]; [|by apply steps_fail].
  destruct (nonce_check _ _); [|by apply steps_fail].
  destruct (gas_meter _) as [gas|]; [|by apply steps_fail].
  destruct Hs as (_ & _ & _ & _ & Hp).
  destruct (tx_payload (st_tx s)) as [t|k|d|c] eqn:Ep;
    unfold as_stake, as_deploy, as_call, as_transfer; rewrite Ep.
  - by apply apply_transfer_steps.
  - by apply apply_stake_steps.
  - by apply apply_deploy_steps.
  - apply apply_call_steps; [done|apply Hp].
Qed.

(** ** Sequences of transactions *)

Lemma apply_txs_total w txs :
  versions_ok (versioned w) → Forall signed_wf txs →
  ∃ w' rs, apply_txs w txs = Some (w', rs) ∧ length rs = length txs ∧
    (trie_safe (accounts w') → trie_safe (accounts w)).
Proof.
  intros Hv Hf. revert w Hv. induction Hf as [|s txs Hs Hf IH]; intros w Hv; [by eexists _, _|].
  destruct (apply_tx_steps w s Hv Hs) as (w1 & r & E & Hv1 & Hsafe).
  destruct (IH w1 Hv1) as (w' & rs & E' & Hl & Hsafe'). cbn. rewrite E, E'.
  eexists _, _. split; [done|]. split; [cbn; by f_equal|auto].
Qed.

Definition total_burned (txs : list SignedTx) (rs : list Receipt) : Z :=
  sumZ (λ p, burned (st_tx p.1) p.2) (zip txs rs).

Lemma burned_nonneg tx r : tx_wf tx → 0 ≤ burned tx r.
Proof.
  intros (_ & _ & _ & Hf & Hp). unfold burned. destruct (success r); [|lia].
  unfold as_stake, payload_wf, stake_wf in *. uint. repeat case_match; simplify_eq; lia.
Qed.

Lemma bump_ge n : u64 n → n ≤ bump n.
Proof. intros Hn. unfold bump, Nonce_checked_add, checked_add. uint. case_match; cbn; lia. Qed.

Lemma nonce_of_u64 am a : map_Forall (λ a acc, array 32 a ∧ account_wf acc) am → u64 (nonce_of am a).
Proof. intros Hm. by destruct (account_default_wf am a Hm) as (_ & Hn & _). Qed.

Lemma tx_root_total txs : Forall signed_wf txs → ∃ h, tx_root_signed txs = Some h.
Proof.
  intros Hf. unfold tx_root_signed, tx_root.
  assert (is_Some (mapM tx_encode (st_tx <$> txs))) as [l ->]; [|by eexists].
  apply mapM_is_Some, Forall_fmap. eapply Forall_impl; [exact Hf|]. intros s Hs. cbn.
  destruct (payload_bytes_total _ Hs) as [b Hb]. unfold tx_encode. rewrite Hb. by eexists.
Qed.

(** The conditions under which a sequence of transactions is run. *)
Definition run_ok w am (txs : list SignedTx) : Prop :=
  world_ok w am ∧ supply w am ≤ U128_MAX ∧
  next_unbond (staking w) + Z.of_nat (length txs) ≤ U64_MAX ∧ Forall signed_wf txs.

(** One step of a run whose final trie is free of collisions. *)
Lemma apply_txs_cons w am s txs w' rs :
  run_ok w am (s :: txs) → apply_txs w (s :: txs) = Some (w', rs) → trie_safe (accounts w') →
  ∃ w1 r rs1 am1, rs = r :: rs1 ∧ apply_tx w s = Some (w1, r) ∧ apply_txs w1 txs = Some (w', rs1) ∧
    run_ok w1 am1 txs ∧ supply w1 am1 = supply w am - burned (st_tx s) r ∧
    ∀ a, nonce_of am1 a = if success r && bool_decide (a = sender_of s)
                          then bump (nonce_of am a) else nonce_of am a.
Proof.
  intros (Hw & Hsup & Hn & [Hs Hf]%Forall_cons) E Hsafe. cbn in E. rewrite length_cons in Hn.
  destruct (apply_tx_outcome w am s Hw Hsup) as (w1 & r & E1 & _ & _ & Hn1 & Hok); [lia|done|].
  destruct (apply_tx_steps w s (proj2 (proj2 Hw)) Hs) as (? & ? & E1' & Hv1 & _).
  rewrite E1 in E, E1'. injection E1' as <- <-.
  destruct (apply_txs_total w1 txs Hv1 Hf) as (? & rs1 & E2 & _ & Hback).
  rewrite E2 in E. injection E as -> <-.
  destruct (Hok (Hback Hsafe)) as (am1 & Hw1 & Hs1 & Hnon1).
  pose proof (burned_nonneg (st_tx s) r Hs).
  exists w1, r, rs1, am1. do 3 (split; [done|]). split; [|done].
  split; [done|]. split; [lia|]. split; [lia|done].
Qed.

Lemma apply_txs_supply w am txs w' rs :
  run_ok w am txs → apply_txs w txs = Some (w', rs) → trie_safe (accounts w') →
  ∃ am', world_ok w' am' ∧ supply w' am' = supply w am - total_burned txs rs.
Proof.
  revert w am rs. induction txs as [|s txs IH]; intros w am rs Hrun E Hsafe.
  { injection E as <- <-. exists am. split; [apply Hrun|].
    unfold total_burned. cbn. rewrite sumZ_nil. lia. }
  destruct (apply_txs_cons _ _ _ _ _ _ Hrun E Hsafe)
    as (w1 & r & rs1 & am1 & -> & _ & E2 & Hrun1 & Hs1 & _).
  destruct (IH w1 am1 rs1 Hrun1 E2 Hsafe) as (am' & Hw' & Hs'). exists am'. split; [done|].
  unfold total_burned in *. cbn. rewrite sumZ_cons. cbn. lia.
Qed.

(** A transaction that succeeds later in a run has at least the nonce its
    sender has now. *)
Lemma later_nonce w am txs w' rs j s r :
  run_ok w am txs → apply_txs w txs = Some (w', rs) → trie_safe (accounts w') →
  txs !! j = Some s → rs !! j = Some r → success r = true →
  nonce_of am (sender_of s) ≤ tx_nonce (st_tx s).
Proof.
  intros Hrun E Hsafe. revert w am rs j Hrun E.
  induction txs as [|s0 txs IH]; intros w am rs j Hrun E Hs Hr Hok; [done|].
  destruct (apply_txs_cons _ _ _ _ _ _ Hrun E Hsafe)
    as (w1 & r0 & rs1 & am1 & -> & E1 & E2 & Hrun1 & _ & Hnon).
  destruct j as [|j]; cbn in Hs, Hr.
  - simplify_eq. by rewrite (apply_tx_nonce _ _ _ _ _ (proj1 Hrun) E1).
  - specialize (IH w1 am1 rs1 j Hrun1 E2 Hs Hr Hok). rewrite Hnon in IH.
    pose proof (bump_ge _ (nonce_of_u64 am (sender_of s) (proj2 (proj1 (proj1 Hrun))))).
    case_match; lia.
Qed.

Lemma nonces_increase w am txs w' rs i j si sj ri rj :
  run_ok w am txs → apply_txs w txs = Some (w', rs) → trie_safe (accounts w') →
  (i < j)%nat → txs !! i = Some si → rs !! i = Some ri → success ri = true →
  txs !! j = Some sj → rs !! j = Some rj → success rj = true →
  sender_of si = sender_of sj → tx_nonce (st_tx si) < U64_MAX →
  tx_nonce (st_tx si) < tx_nonce (st_tx sj).
Proof.
  intros Hrun E Hsafe. revert w am rs i j Hrun E.
  induction txs as [|s0 txs IH]; intros w am rs i j Hrun E Hij Hsi Hri Hoki Hsj Hrj Hokj Heq Hmax; [done|].
  destruct (apply_txs_cons _ _ _ _ _ _ Hrun E Hsafe)
    as (w1 & r0 & rs1 & am1 & -> & E1 & E2 & Hrun1 & _ & Hnon).
  destruct j as [|j]; [lia|]. destruct i as [|i]; cbn in *.
  - simplify_eq.
    pose proof (later_nonce _ _ _ _ _ _ _ _ Hrun1 E2 Hsafe Hsj Hrj Hokj) as Hle.
    pose proof (apply_tx_nonce _ _ _ _ _ (proj1 Hrun) E1 Hoki) as Hn.
    rewrite Hnon, Hoki, bool_decide_true, <- Heq, <- Hn in Hle by done. cbn in Hle.
    rewrite bump_lt in Hle by done. lia.
  - apply (IH w1 am1 rs1 i j); try done. lia.
Qed.

Lemma verified_sender s : verify_ed25519 s = Some true → sender_address s = Ok (sender_of s).
Proof.
  unfold verify_ed25519, sender_address, sender_of.
  unfold public_key_from_bytes. by destruct (ed25519_pk_valid _).
Qed.

(** ** Genesis *)

Lemma foldl_put_safe (l : list (Address * GenesisAccount)) t :
  trie_safe (foldl (λ t e, acct_put t e.1 (from_genesis e.2)) t l) → trie_safe t.
Proof.
  revert t. induction l as [|e l IH]; cbn; intros t; [done|].
  intros Hs%IH. by eauto with l1.
Qed.

Lemma foldl_put_holds (l : list (Address * GenesisAccount)) t am :
  aholds t am → Forall (λ e, array 32 e.1 ∧ account_wf (from_genesis e.2)) l →
  trie_safe (foldl (λ t e, acct_put t e.1 (from_genesis e.2)) t l) →
  aholds (foldl (λ t e, acct_put t e.1 (from_genesis e.2)) t l)
         (foldl (λ m e, <[e.1 := from_genesis e.2]> m) am l).
Proof.
  revert t am. induction l as [|e l IH]; cbn; intros t am Ht Hl Hs; [done|].
  apply Forall_cons in Hl as [[Ha Hacc] Hl]. apply IH; [|done|done].
  apply aholds_put; try done. by eapply foldl_put_safe.
Qed.

Lemma foldl_insert_fmap (g : gmap Address GenesisAccount) :
  foldl (λ m e, <[e.1 := from_genesis e.2]> m) ∅ (btree_iter g) = from_genesis <$> g.
Proof.
  transitivity (foldr (λ e m, <[e.1 := from_genesis e.2]> m) (∅ : gmap Address Account) (rev (btree_iter g))).
  { generalize (∅ : gmap Address Account). induction (btree_iter g) as [|e l IH]; intros b; [done|].
    cbn. by rewrite IH, foldr_app. }
  transitivity (list_to_map (prod_map id from_genesis <$> rev (btree_iter g)) : gmap Address Account).
  { induction (rev (btree_iter g)) as [|e l IH]; [done|]. cbn. by rewrite IH. }
  rewrite list_to_map_fmap. f_equal. rewrite <- (list_to_map_to_list g) at 2.
  assert (rev (btree_iter g) ≡ₚ map_to_list g) as Hp
    by (rewrite <- btree_iter_perm; symmetry; apply Permutation_rev).
  apply list_to_map_proper; [|done]. rewrite Hp. apply NoDup_fst_map_to_list.
Qed.

Definition alloc_wf (g : Genesis) : Prop :=
  map_Forall (λ a acc, array 32 a ∧ account_wf (from_genesis acc)) (g_alloc g).

Lemma genesis_holds g :
  alloc_wf g → trie_safe (accounts (world_from_genesis g : World T)) →
  aholds (accounts (world_from_genesis g : World T)) (from_genesis <$> g_alloc g).
Proof.
  intros Hg Hs. cbn in *. rewrite <- foldl_insert_fmap. apply foldl_put_holds; [apply aholds_new| |done].
  rewrite btree_iter_perm. apply map_Forall_to_list in Hg.
  eapply Forall_impl; [exact Hg|]. by intros [].
Qed.

(** ** Theorems *)

(** C5: a block is executed without panicking, gives one receipt per
    transaction, and value is conserved.  The balances and the staking ledger
    together fall by exactly the fees of the successful transactions and the
    amounts of the successful undelegations, and the application hash commits
    to the three roots.  (Provided the supply fits 128 bits, the unbonding
    counter does not run out, and no two nodes of the accounts trie collide.) *)
Theorem apply_block_supply w am block :
  run_ok w am (b_txs block) →
  ∃ w' rs tx_r, tx_root_signed (b_txs block) = Some tx_r ∧
    apply_block w block = Some (w', rs, app_hash (commit_state_root w') tx_r
      (Merkle.receipts_root (receipt_encode <$> rs))) ∧
    length rs = length (b_txs block) ∧
    (trie_safe (accounts w') →
     ∃ am', world_ok w' am' ∧ supply w' am' = supply w am - total_burned (b_txs block) rs).
Proof.
  intros Hrun. pose proof Hrun as (Hw & _ & _ & Hf).
  destruct (apply_txs_total w _ (proj2 (proj2 Hw)) Hf) as (w' & rs & E & Hl & _).
  destruct (tx_root_total (b_txs block) Hf) as [tx_r Hr].
  exists w', rs, tx_r. split; [done|]. unfold apply_block. rewrite E, Hr.
  split; [done|]. split; [done|]. by apply apply_txs_supply.
Qed.

(** A rejected transaction has no effect.  Apart from the per-transaction
    scratch fields, the world after a failed transaction is the world before
    it, contract storage included. *)
Theorem rejected_tx_no_effect w am s w' r :
  run_ok w am [s] → apply_tx w s = Some (w', r) → success r = false → same_state w w'.
Proof.
  intros (Hw & Hsup & Hn & [Hs _]%Forall_cons) E Hr. cbn in Hn.
  destruct (apply_tx_outcome w am s Hw Hsup) as (w1 & r1 & E1 & _ & Hsame & _); [lia|done|].
  rewrite E1 in E. simplify_eq. by apply Hsame.
Qed.


(** Genesis establishes the invariant.  The first world holds exactly the
    allocated accounts and nothing is staked, so the supply is the sum of the
    allocations. *)
Theorem genesis_world_ok g :
  alloc_wf g → trie_safe (accounts (world_from_genesis g : World T)) →
  world_ok (world_from_genesis g : World T) (from_genesis <$> g_alloc g) ∧
  supply (world_from_genesis g : World T) (from_genesis <$> g_alloc g) =
    map_sum ga_balance (g_alloc g).
Proof.
  intros Hg Hs. split; [split; [by apply genesis_holds|split]|].
  - split; [apply map_Forall_empty|]. split; apply map_Forall_empty.
  - apply versions_ok_new.
  - unfold supply, stake_total. cbn. rewrite !map_sum_empty, map_sum_fmap. apply Z.add_0_r.
Qed.

(** a valid transfer does exactly what it says.  If the signature
    verifies, the nonce is the sender's next, the gas limit covers the
    intrinsic cost and the balance covers amount and fee, the transfer
    succeeds: the sender pays amount and fee and its nonce advances, the
    receiver gains the amount, and every other account keeps its value. *)
Theorem transfer_exact w am s t :
  run_ok w am [s] → tx_payload (st_tx s) = PTransfer t → verify_ed25519 s = Some true →
  tr_to t ≠ sender_of s → GAS_TRANSFER ≤ tx_gas_limit (st_tx s) ≤ MAX_GAS →
  let sender := default Account_empty (am !! sender_of s) in
  let receiver := default Account_empty (am !! tr_to t) in
  tx_nonce (st_tx s) = nonce sender → nonce sender < U64_MAX →
  tr_amount t + tx_max_fee (st_tx s) ≤ balance sender →
  ∃ w', apply_tx w s = Some (w', succeed GAS_TRANSFER (ETransfer (sender_of s) (tr_to t) (tr_amount t))) ∧
    (trie_safe (accounts w') → aholds (accounts w')
      (<[tr_to t := {| balance := balance receiver + tr_amount t; nonce := nonce receiver;
                       code_hash := code_hash receiver |}]>
       (<[sender_of s := {| balance := balance sender - (tr_amount t + tx_max_fee (st_tx s));
                            nonce := nonce sender + 1; code_hash := code_hash sender |}]> am))).
Proof.
  intros (Hw & Hsup & Hn & [Hs _]%Forall_cons) Hp Hver Hne Hgas sender receiver Hnonce Hmax Hbal.
  unfold apply_tx. cbv zeta. rewrite Hver, (verified_sender s Hver).
  rewrite (aholds_get (accounts (clear_scratch w)) _ _ (proj1 Hw) (sender_of_array s)). fold sender.
  unfold nonce_check, Nonce_matches. rewrite Hnonce, Z.eqb_refl.
  unfold gas_meter. rewrite Hp, Z.gtb_ltb. cbn [gas_cost]. do 2 ztest.
  unfold as_stake, as_deploy, as_call, as_transfer. rewrite Hp.
  apply (transfer_exact_world (clear_scratch w) am (sender_of s) (st_tx s) GAS_TRANSFER); try done.
  apply sender_of_array.
Qed.

End spec.

(** ** Witnesses: two transfers and a repeated one, on a map of accounts *)

#[local] Existing Instances toy_crypto toy_crypto_laws map_trie map_trie_laws toy_wasm.

Definition toy_key : bytes := replicate 32 7.
Definition toy_from : Address := from_ed25519 toy_key.
Definition toy_to : Address := replicate 32 9.
Definition toy_transfer (n : Nonce) : SignedTx :=
  {| st_tx := tx_transfer 1 n 21000 5 toy_to 100; st_public_key := toy_key; st_signature := [1] |}.
Definition toy_genesis : Genesis :=
  insert_alloc (Genesis_new 1) toy_from
    {| ga_balance := 1000; ga_nonce := 0; ga_code_hash := Hash_ZERO |}.
Definition toy_accounts : gmap Address Account := from_genesis <$> g_alloc toy_genesis.
Definition toy_start : World (gmap bytes bytes) := world_from_genesis toy_genesis.

Lemma toy_alloc_wf : alloc_wf toy_genesis.
Proof.
  apply map_Forall_insert_2; [|apply map_Forall_empty]. split; [apply blake3_array|by_eval].
Qed.

Lemma toy_supply : supply toy_start toy_accounts = 1000.
Proof. vm_compute. reflexivity. Qed.

Lemma toy_run_ok txs :
  Forall signed_wf txs → (length txs ≤ 10)%nat → run_ok toy_start toy_accounts txs.
Proof.
  intros Hf Hl. split; [|split; [|split; [|done]]].
  - split; [|split; [|apply versions_ok_new]].
    + apply genesis_holds; [apply toy_alloc_wf|exact I].
    + split; [apply map_Forall_empty|]. split; apply map_Forall_empty.
  - rewrite toy_supply. by_eval.
  - change (next_unbond (staking toy_start)) with 0. uint. lia.
Qed.

Lemma toy_transfer_wf n : u64 n → signed_wf (toy_transfer n).
Proof. intros Hn. split; [by_eval|]. split; [done|]. by_eval. Qed.

Definition toy_txs : list SignedTx := [toy_transfer 0; toy_transfer 0; toy_transfer 1].
Definition toy_block : Block := {| b_header_fields := h_fields sample_header; b_txs := toy_txs |}.
Definition toy_end : World (gmap bytes bytes) * list Receipt :=
  default (toy_start, []) (apply_txs toy_start toy_txs).
Definition toy_rejected : World (gmap bytes bytes) * Receipt :=
  default (toy_start, fail RGas) (apply_tx toy_start (toy_transfer 1)).

Lemma toy_txs_wf : Forall signed_wf toy_txs.
Proof. repeat constructor; try apply toy_transfer_wf; by_eval. Qed.

Lemma some_default_pair {A B : Type} (o : option (A * B)) d :
  (if o then true else false) = true → o = Some ((default d o).1, (default d o).2).
Proof. by destruct o as [[]|]. Qed.

Lemma toy_txs_run : apply_txs toy_start toy_txs = Some (toy_end.1, toy_end.2).
Proof. apply (some_default_pair (apply_txs toy_start toy_txs) (toy_start, [])). vm_compute. reflexivity. Qed.

Lemma apply_block_supply_witness :
  ∃ w' rs tx_r, tx_root_signed toy_txs = Some tx_r ∧
    apply_block toy_start toy_block = Some (w', rs, app_hash (commit_state_root w') tx_r
      (Merkle.receipts_root (receipt_encode <$> rs))) ∧
    length rs = 3%nat ∧
    ∃ am', world_ok w' am' ∧ supply w' am' = supply toy_start toy_accounts - total_burned toy_txs rs.
Proof.
  destruct (apply_block_supply toy_start toy_accounts toy_block) as (w' & rs & tx_r & Hr & E & Hl & Hs).
  - apply toy_run_ok; [apply toy_txs_wf|cbn; lia].
  - exists w', rs, tx_r. split; [exact Hr|]. split; [exact E|]. split; [exact Hl|]. exact (Hs I).
Defined.

Lemma rejected_tx_no_effect_witness : same_state toy_start toy_rejected.1.
Proof.
  apply (rejected_tx_no_effect toy_start toy_accounts (toy_transfer 1) toy_rejected.1 toy_rejected.2).
  - apply toy_run_ok; [repeat constructor; by_eval|cbn; lia].
  - apply (some_default_pair (apply_tx toy_start (toy_transfer 1)) (toy_start, fail RGas)).
    vm_compute. reflexivity.
  - vm_compute. reflexivity.
Defined.


Lemma genesis_world_ok_witness :
  world_ok toy_start toy_accounts ∧ supply toy_start toy_accounts = map_sum ga_balance (g_alloc toy_genesis).
Proof. apply (genesis_world_ok toy_genesis); [apply toy_alloc_wf|exact I]. Defined.

Lemma transfer_exact_witness :
  ∃ w', apply_tx toy_start (toy_transfer 0) =
    Some (w', succeed GAS_TRANSFER (ETransfer (sender_of (toy_transfer 0)) toy_to 100)).
Proof.
  destruct (transfer_exact toy_start toy_accounts (toy_transfer 0) {| tr_to := toy_to; tr_amount := 100 |})
    as (w' & E & _).
  - apply toy_run_ok; [repeat constructor; by_eval|cbn; lia].
  - reflexivity.
  - vm_compute. reflexivity.
  - by_eval.
  - split; by_eval.
  - vm_compute. reflexivity.
  - by_eval.
  - by_eval.
  - exists w'. exact E.
Defined.
