(* ===== verification/Stm.v ===== *)
(** The Block-STM engine: [execution/src/stm/{rwset,graph,schedule,validate,
    reexec,mod}.rs].

    Every transaction of a block is first executed on the state before the
    block ([speculate]), with the versions of the slots it may touch.  Then the
    block is committed in order: a result whose slots still have the observed
    versions is merged, any other transaction is executed again
    ([reexec_sequential]).  The threads of [speculate] share only immutable
    data and are joined in index order, so they are a map over the block; those
    of [run_waves] run an empty closure and are left out.

    Here are the definitions, the version counters, and the schedule; the
    equivalence with sequential execution is in [StmSpec]. *)

From S2P Require Import Prelude Types Codec Crypto Merkle Store MptSpec Tries ExecBase Vote Staking Wasm Exec.
From stdpp Require Import list sorting.

#[local] Open Scope Z_scope.
#[local] Open Scope l1_scope.

(** ** [rwset.rs] *)

(** [b"stm.staking"]. *)
Definition STAKING_SLOT : bytes := [115; 116; 109; 46; 115; 116; 97; 107; 105; 110; 103].

Record SpecTx {T : Type} := {
  sx_index : nat;
  sx_reads : gset bytes;
  sx_writes : gset bytes;
  sx_observed : gmap bytes Z;
  sx_world : World T;
  sx_receipt : Receipt;
}.
Arguments SpecTx : clear implicits.

(** [latest_version]; [None] is a failed [expect]. *)
Definition latest_version (slots : MemoryStore) (key : bytes) : option Z :=
  latest_loop (latest_fuel slots key) slots key 0.

(** ** [graph.rs] *)

Record ConflictGraph := { adj : gmap nat (gset nat); directed : gset (nat * nat) }.

(** [g.adj.get_mut(&a).unwrap().insert(b)]. *)
Definition adj_insert (m : gmap nat (gset nat)) (a b : nat) : option (gmap nat (gset nat)) :=
  match m !! a with
  | None => None
  | Some s => Some (<[a := {[b]} ∪ s]> m)
  end.

Definition ConflictGraph_isolated (n : nat) : ConflictGraph :=
  {| adj := foldl (λ m i, <[i := ∅]> m) ∅ (seq 0 n); directed := ∅ |}.

Section graph.
Context {T : Type}.

Definition union_rw (s : SpecTx T) : gset bytes := sx_reads s ∪ sx_writes s.

(** The body of the inner loop. *)
Definition conflict_pair (a : SpecTx T) (g : ConflictGraph) (b : SpecTx T) : option ConflictGraph :=
  if (sx_index a =? sx_index b)%nat then Some g
  else if bool_decide (sx_writes a ∩ union_rw b = ∅) then Some g
  else match adj_insert (adj g) (sx_index a) (sx_index b) with
       | None => None
       | Some m =>
           match adj_insert m (sx_index b) (sx_index a) with
           | None => None
           | Some m => Some {| adj := m; directed := {[(sx_index a, sx_index b)]} ∪ directed g |}
           end
       end.

Fixpoint conflict_row (a : SpecTx T) (bs : list (SpecTx T)) (g : ConflictGraph) : option ConflictGraph :=
  match bs with
  | [] => Some g
  | b :: bs => match conflict_pair a g b with None => None | Some g => conflict_row a bs g end
  end.

Fixpoint conflict_rows (rows specs : list (SpecTx T)) (g : ConflictGraph) : option ConflictGraph :=
  match rows with
  | [] => Some g
  | a :: rows => match conflict_row a specs g with None => None | Some g => conflict_rows rows specs g end
  end.

(** [g.adj.entry(s.index).or_default()]. *)
Definition adj_entries (specs : list (SpecTx T)) : gmap nat (gset nat) :=
  foldl (λ m s, match m !! sx_index s with Some _ => m | None => <[sx_index s := ∅]> m end) ∅ specs.

Definition conflict_graph (specs : list (SpecTx T)) : option ConflictGraph :=
  conflict_rows specs specs {| adj := adj_entries specs; directed := ∅ |}.

End graph.

(** ** [schedule.rs] *)

Definition waves : Type := list (list nat).

(** One pass over the candidates: the wave, and what remains. *)
Fixpoint wave_loop (g : ConflictGraph) (cand wave : list nat) (blocked remaining : gset nat) :
    list nat * gset nat :=
  match cand with
  | [] => (wave, remaining)
  | i :: cand =>
      if bool_decide (i ∈ blocked) then wave_loop g cand wave blocked remaining
      else wave_loop g cand (wave ++ [i]) (default ∅ (adj g !! i) ∪ blocked) (remaining ∖ {[i]})
  end.

(** [None] is exhausted fuel. *)
Fixpoint schedule_loop (fuel : nat) (g : ConflictGraph) (remaining : gset nat) : option waves :=
  if bool_decide (remaining = ∅) then Some []
  else match fuel with
  | O => None
  | S fuel =>
      let r := wave_loop g (btset_iter remaining) [] ∅ remaining in
      match schedule_loop fuel g r.2 with
      | None => None
      | Some ws => Some (merge_sort (≤)%nat r.1 :: ws)
      end
  end.

Definition schedule (g : ConflictGraph) : option waves :=
  let n := size (adj g) in
  schedule_loop n g (list_to_set (seq 0 n)).

(** ** [validate.rs] *)

Section validate.
Context {T : Type}.

(** The loop over the read slots: whether one of them has moved on. *)
Fixpoint stale_keys (slots : MemoryStore) (observed : gmap bytes Z) (keys : list bytes) : option bool :=
  match keys with
  | [] => Some false
  | key :: keys =>
      match observed !! key with
      | None => stale_keys slots observed keys
      | Some obs =>
          match vvalidate slots key obs with
          | Err _ => None
          | Ok false => Some true
          | Ok true =>
              match latest_version slots key with
              | None => None
              | Some _ => stale_keys slots observed keys
              end
          end
      end
  end.

Fixpoint validate (specs : list (SpecTx T)) (slots : MemoryStore) (sched : waves) : option (gset nat) :=
  match specs with
  | [] => Some ∅
  | s :: specs =>
      match stale_keys slots (sx_observed s) (btset_iter (sx_reads s)) with
      | None => None
      | Some b =>
          match validate specs slots sched with
          | None => None
          | Some idx => Some (if b then {[sx_index s]} ∪ idx else idx)
          end
      end
  end.

Definition stale_pair (j i : SpecTx T) : bool :=
  (sx_index i <? sx_index j)%nat && negb (bool_decide (sx_writes i ∩ union_rw j = ∅)).

Definition stale_from_earlier_writes (specs : list (SpecTx T)) : gset nat :=
  foldl (λ idx j, if existsb (stale_pair j) specs then {[sx_index j]} ∪ idx else idx) ∅ specs.

End validate.

Section engine.
Context {T : Type} `{!TrieImpl T} `{!Crypto} `{!Wasm}.

(** ** Speculation *)

Definition stm_sender_of (signed : SignedTx) : option Address :=
  match public_key_from_bytes (st_public_key signed) with
  | None => None
  | Some pk => Some (from_ed25519 pk)
  end.

Definition inferred_keys (signed : SignedTx) : gset bytes :=
  let keys := match stm_sender_of signed with Some from => {[account_key from]} | None => ∅ end in
  let keys := match as_transfer (st_tx signed) with
              | Some t => {[account_key (tr_to t)]} ∪ keys | None => keys end in
  let keys := match as_stake (st_tx signed) with
              | Some _ => {[STAKING_SLOT]} ∪ keys | None => keys end in
  let keys := match as_call (st_tx signed) with
              | Some c => {[account_key (cl_to c)]} ∪ keys | None => keys end in
  match stm_sender_of signed with
  | Some from =>
      match as_deploy (st_tx signed) with
      | Some _ => {[account_key (create_address from (tx_nonce (st_tx signed)))]} ∪ keys
      | None => keys
      end
  | None => keys
  end.

(** [latest_version], [read] and [observed.insert]. *)
Definition observe_key (slots : MemoryStore) (observed : gmap bytes Z) (key : bytes) : option (gmap bytes Z) :=
  match latest_version slots key with
  | None => None
  | Some l =>
      match vread slots key l with
      | Err _ => None
      | Ok _ => Some (<[key := l]> observed)
      end
  end.

(** [if slots.validate(key, 0).unwrap() { slots.write(key, v).expect(..) }]. *)
Definition seed_write (slots : MemoryStore) (key value : bytes) : option MemoryStore :=
  match vvalidate slots key 0 with
  | Err _ => None
  | Ok false => Some slots
  | Ok true => match vwrite slots key value with (s, Ok _) => Some s | (_, Err _) => None end
  end.

Definition seed_value (world : World T) (slots : MemoryStore) (key : bytes) : option MemoryStore :=
  if (length key =? 32)%nat then
    match acct_get (accounts world) key with
    | Some acc => seed_write slots key (account_encode acc)
    | None => Some slots
    end
  else if (length key =? 64)%nat then
    match trie_get (w_storage world) key with
    | Some val => seed_write slots key val
    | None => Some slots
    end
  else Some slots.

Fixpoint seed_and_read (world : World T) (keys : list bytes) (slots : MemoryStore)
    (observed : gmap bytes Z) : option (MemoryStore * gmap bytes Z) :=
  match keys with
  | [] => Some (slots, observed)
  | key :: keys =>
      if bool_decide (key = STAKING_SLOT) then
        match vvalidate slots key 0 with
        | Err _ => None
        | Ok false => seed_and_read world keys slots observed
        | Ok true =>
            match vread slots key 0 with
            | Err _ => None
            | Ok _ => seed_and_read world keys slots (<[key := 0]> observed)
            end
        end
      else
        match seed_value world slots key with
        | None => None
        | Some slots =>
            match observe_key slots observed key with
            | None => None
            | Some observed => seed_and_read world keys slots observed
            end
        end
  end.

Definition writes_from (receipt : Receipt) (reads : gset bytes) : gset bytes :=
  if success receipt then reads else ∅.

Fixpoint observe_all (slots : MemoryStore) (keys : list bytes) (observed : gmap bytes Z) : option (gmap bytes Z) :=
  match keys with
  | [] => Some observed
  | key :: keys =>
      match observe_key slots observed key with
      | None => None
      | Some observed => observe_all slots keys observed
      end
  end.

(** The second loop skips keys that are already observed. *)
Fixpoint observe_new (slots : MemoryStore) (keys : list bytes) (observed : gmap bytes Z) : option (gmap bytes Z) :=
  match keys with
  | [] => Some observed
  | key :: keys =>
      match observed !! key with
      | Some _ => observe_new slots keys observed
      | None =>
          match observe_key slots observed key with
          | None => None
          | Some observed => observe_new slots keys observed
          end
      end
  end.

Definition speculate_one (index : nat) (pre : World T) (signed : SignedTx) (slots : MemoryStore) :
    option (SpecTx T) :=
  let keys := inferred_keys signed in
  match observe_all slots (btset_iter keys) ∅ with
  | None => None
  | Some observed =>
      match apply_tx pre signed with
      | None => None
      | Some (spec_world, receipt) =>
          let reads := keys ∪ storage_reads spec_world in
          match observe_new slots (btset_iter reads) observed with
          | None => None
          | Some observed =>
              Some {| sx_index := index; sx_reads := reads;
                      sx_writes := writes_from receipt reads ∪ storage_writes spec_world;
                      sx_observed := observed; sx_world := spec_world; sx_receipt := receipt |}
          end
      end
  end.

Fixpoint speculate_from (i : nat) (pre : World T) (txs : list SignedTx) (slots : MemoryStore) :
    option (list (SpecTx T)) :=
  match txs with
  | [] => Some []
  | s :: txs =>
      match speculate_one i pre s slots, speculate_from (S i) pre txs slots with
      | Some x, Some xs => Some (x :: xs)
      | _, _ => None
      end
  end.

Definition speculate (pre : World T) (txs : list SignedTx) (slots : MemoryStore) : option (list (SpecTx T)) :=
  speculate_from 0 pre txs slots.

(** ** [reexec.rs] *)

Definition merge_key (spec : SpecTx T) (dst : World T) (key : bytes) : World T :=
  if bool_decide (key = STAKING_SLOT) then set_staking (staking (sx_world spec)) dst
  else if (length key =? 64)%nat then
    match trie_get (w_storage (sx_world spec)) key with
    | Some val => set_storage (trie_put (w_storage dst) key val) (storage_reads dst)
                    (storage_writes dst) (versioned dst) dst
    | None => dst
    end
  else if negb (length key =? 32)%nat then dst
  else
    let dst := match acct_get (accounts (sx_world spec)) key with
               | Some acc => set_accounts (acct_put (accounts dst) key acc) dst
               | None => dst
               end in
    match code (sx_world spec) !! key with
    | Some c => set_code (<[key := c]> (code dst)) dst
    | None => dst
    end.

Definition merge_spec (dst : World T) (spec : SpecTx T) : World T :=
  foldl (merge_key spec) dst (btset_iter (sx_writes spec)).

(** [let _ = slots.write(..)]: a failed write is ignored. *)
Definition bump_key (world : World T) (slots : MemoryStore) (key : bytes) : MemoryStore :=
  if bool_decide (key = STAKING_SLOT) then (vwrite slots key [115]).1
  else if (length key =? 64)%nat then
    (vwrite slots key (default [] (trie_get (w_storage world) key))).1
  else if negb (length key =? 32)%nat then slots
  else (vwrite slots key (account_encode (default Account_empty (acct_get (accounts world) key)))).1.

Definition bump_writes (slots : MemoryStore) (world : World T) (writes : gset bytes) : MemoryStore :=
  foldl (bump_key world) slots (btset_iter writes).

(** Transaction [i]: reuse the speculation, or execute again. *)
Definition commit_tx (i : nat) (world : World T) (signed : SignedTx) (slots : MemoryStore)
    (spec : SpecTx T) (stale : gset nat) : option (World T * MemoryStore * Receipt) :=
  if bool_decide (i ∉ stale) then
    let world := merge_spec world spec in
    Some (world, bump_writes slots world (sx_writes spec), sx_receipt spec)
  else
    match apply_tx world signed with
    | None => None
    | Some (world, r) =>
        let writes := (if success r then inferred_keys signed else ∅) ∪ storage_writes world in
        Some (world, bump_writes slots world writes, r)
    end.

(** Re-validate the transactions after [i]. *)
Definition revalidate (rest : list (SpecTx T)) (slots : MemoryStore) (stale : gset nat) : option (gset nat) :=
  match rest with
  | [] => Some stale
  | _ =>
      match conflict_graph rest with
      | None => None
      | Some g =>
          match schedule g with
          | None => None
          | Some sched =>
              match validate rest slots sched with
              | None => None
              | Some more => Some (more ∪ stale)
              end
          end
      end
  end.

Fixpoint reexec_loop (i : nat) (txs : list SignedTx) (specs : list (SpecTx T)) (world : World T)
    (slots : MemoryStore) (stale : gset nat) : option (World T * list Receipt) :=
  match txs with
  | [] => Some (world, [])
  | signed :: txs =>
      match specs !! i with
      | None => None
      | Some spec =>
          match commit_tx i world signed slots spec stale with
          | None => None
          | Some (world, slots, rec) =>
              match revalidate (drop (S i) specs) slots stale with
              | None => None
              | Some stale =>
                  match reexec_loop (S i) txs specs world slots stale with
                  | None => None
                  | Some (world, receipts) => Some (world, rec :: receipts)
                  end
              end
          end
      end
  end.

Definition reexec_sequential (pre : World T) (block : Block) (slots : MemoryStore)
    (specs : list (SpecTx T)) (stale : gset nat) : option (World T * list Receipt) :=
  reexec_loop 0 (b_txs block) specs pre slots stale.

(** The keys of a block. *)
Definition block_keys (txs : list SignedTx) : gset bytes :=
  foldl (λ keys tx, keys ∪ inferred_keys tx) ∅ txs.

Definition commit_block (pre : World T) (block : Block) : option (World T * list Receipt * MemoryStore) :=
  match seed_and_read pre (btset_iter (block_keys (b_txs block))) MemoryStore_new ∅ with
  | None => None
  | Some (slots, _) =>
      match speculate pre (b_txs block) slots with
      | None => None
      | Some specs =>
          match conflict_graph specs with
          | None => None
          | Some g =>
              match schedule g with
              | None => None
              | Some sched =>
                  match validate specs slots sched with
                  | None => None
                  | Some more =>
                      match reexec_sequential pre block slots specs
                              (more ∪ stale_from_earlier_writes specs) with
                      | None => None
                      | Some (world, receipts) => Some (world, receipts, MemoryStore_new)
                      end
                  end
              end
          end
      end
  end.

(** ** [mod.rs] *)

Definition apply_block_engine (pre : World T) (block : Block) : option (World T * list Receipt * Hash) :=
  match seed_and_read pre (btset_iter (block_keys (b_txs block))) MemoryStore_new ∅ with
  | None => None
  | Some (slots, _) =>
      match speculate pre (b_txs block) slots with
      | None => None
      | Some specs =>
          match conflict_graph specs with
          | None => None
          | Some g =>
              match schedule g with
              | None => None
              | Some sched =>
                  match validate specs slots sched with
                  | None => None
                  | Some more =>
                      match reexec_sequential pre block slots specs
                              (more ∪ stale_from_earlier_writes specs) with
                      | None => None
                      | Some (world, receipts) =>
                          match tx_root_signed (b_txs block) with
                          | None => None
                          | Some tx_r =>
                              let rec_root := Merkle.receipts_root (receipt_encode <$> receipts) in
                              Some (world, receipts, app_hash (commit_state_root world) tx_r rec_root)
                          end
                      end
                  end
              end
          end
      end
  end.

(** [apply_block]: the engine beside sequential execution; [None] also when
    one of the three [assert_eq!]s fails. *)
Definition stm_apply_block (pre : World T) (block : Block) : option (World T * list Receipt * Hash) :=
  match apply_block pre block, apply_block_engine pre block with
  | Some (seq_world, seq_receipts, seq_app), Some (world, receipts, app) =>
      if bool_decide (receipt_encode <$> receipts = receipt_encode <$> seq_receipts) &&
         bool_decide (app = seq_app) &&
         bool_decide (commit_state_root world = commit_state_root seq_world)
      then Some (world, receipts, app)
      else None
  | _, _ => None
  end.

End engine.

(** ** Iteration of sets *)

Section btset.
Context {K : Type} `{Countable K, KeyOrd K}.

Lemma btset_iter_perm (s : gset K) : btset_iter s ≡ₚ elements s.
Proof. apply merge_sort_Permutation. Qed.

Lemma elem_of_btset_iter (s : gset K) x : x ∈ btset_iter s ↔ x ∈ s.
Proof. rewrite btset_iter_perm. apply elem_of_elements. Qed.

Lemma NoDup_btset_iter (s : gset K) : NoDup (btset_iter s).
Proof. rewrite btset_iter_perm. apply NoDup_elements. Qed.

End btset.

(** ** Version counters of the slots *)

(** Slot keys are the staking slot, addresses and contract slots; none of
    these lengths is that of a version record. *)
Definition slot_key (k : bytes) : Prop :=
  length k = 11%nat ∨ length k = 32%nat ∨ length k = 64%nat.

(** Version headers are eight bytes. *)
Definition slots_ok (s : MemoryStore) : Prop :=
  ∀ k b, slot_key k → ms_map s !! k = Some b → array 8 b.

Lemma slots_ok_new : slots_ok MemoryStore_new.
Proof. intros k b _ Hb. cbn in Hb. by rewrite lookup_empty in Hb. Qed.

Lemma slots_ok_latest s k : slots_ok s → slot_key k → ∃ l, latest s k = Ok l ∧ u64 l.
Proof.
  intros Hs Hk. unfold latest. cbn. destruct (ms_map s !! k) as [b|] eqn:E; cbn.
  - destruct (Hs k b Hk E) as [Hl Hb]. rewrite Hl. cbn [Nat.eqb]. exists (of_be b).
    split; [done|]. pose proof (of_be_bound b Hb) as Hbd. rewrite Hl in Hbd. uint. cbn in Hbd. lia.
  - exists 0. split; [done|]. uint. lia.
Qed.

Lemma latest_loop_zero s k l v fuel :
  latest s k = Ok l → u64 l → 0 ≤ v ≤ l → (Z.to_nat (l - v) < fuel)%nat →
  latest_loop fuel s k v = Some l.
Proof.
  intros El Hl Hv Hf. destruct (decide (v = 0)) as [->|]; [|apply latest_loop_finds; [done|done|lia|done]].
  destruct fuel as [|fuel]; [lia|]. cbn [latest_loop]. unfold vvalidate. rewrite El. cbn.
  destruct (Z.eqb_spec l 0) as [->|Hne]; [done|]. change (sat_add U64_MAX 0 1) with 1.
  cbn [Z.eqb]. apply latest_loop_finds; [done|done|lia|lia].
Qed.

(** The search of [latest_version] finds the stored version. *)
Lemma latest_version_ok s k l : latest s k = Ok l → u64 l → latest_version s k = Some l.
Proof.
  intros El Hl. unfold latest_version, latest_fuel. rewrite El.
  apply latest_loop_zero; [done|done|uint; lia|uint; lia].
Qed.

Lemma slot_key_version k k' n : slot_key k → slot_key k' → version_key k n ≠ k'.
Proof. intros Hk Hk' <-. unfold slot_key in *. rewrite length_version_key in Hk'. lia. Qed.

(** A write advances the counter of its key and no other. *)
Lemma vwrite_slots s k v l :
  slots_ok s → slot_key k → latest s k = Ok l → 0 ≤ l < U64_MAX →
  ∃ s', vwrite s k v = (s', Ok (l + 1)) ∧ slots_ok s' ∧ latest s' k = Ok (l + 1) ∧
    ∀ k', slot_key k' → k' ≠ k → latest s' k' = latest s k'.
Proof.
  intros Hs Hk El Hl. unfold vwrite. rewrite El.
  assert (sat_add U64_MAX l 1 = l + 1) as -> by (unfold sat_add; lia).
  rewrite (proj2 (Z.eqb_neq _ 0)) by lia.
  assert ((apply_batch s [BPut k (be_bytes 8 (l + 1)); BPut (version_key k (l + 1)) v]).2 = Ok tt) as E2.
  { unfold apply_batch. cbn. by destruct (bool_decide _ || false). }
  assert (ms_map (apply_batch s [BPut k (be_bytes 8 (l + 1)); BPut (version_key k (l + 1)) v]).1 =
    <[version_key k (l + 1) := v]> (<[k := be_bytes 8 (l + 1)]> (ms_map s))) as E1.
  { unfold apply_batch. cbn. by destruct (bool_decide _ || false). }
  set (s' := (apply_batch _ _).1) in *. exists s'. cbn zeta. rewrite E2. split; [done|].
  assert (∀ k', slot_key k' → ms_map s' !! k' =
    if decide (k' = k) then Some (be_bytes 8 (l + 1)) else ms_map s !! k') as Hget.
  { intros k' Hk'. rewrite E1, lookup_insert_ne by by apply slot_key_version.
    case_decide; [subst; by rewrite lookup_insert_eq|by rewrite lookup_insert_ne]. }
  split; [|split].
  - intros k' b Hk' Hb. rewrite Hget in Hb by done. case_decide; [|by apply (Hs k')].
    simplify_eq. split; [apply length_be_bytes|apply be_bytes_ok].
  - unfold latest. cbn. rewrite Hget, decide_True, length_be_bytes by done. cbn [Nat.eqb].
    by rewrite of_be_be_bytes by (uint; lia).
  - intros k' Hk' Hne. unfold latest. cbn. by rewrite Hget, decide_False.
Qed.

(** ** The conflict graph *)

Section graph_spec.
Context {T : Type}.
Implicit Types (a b : SpecTx T) (specs : list (SpecTx T)) (g : ConflictGraph).

(** The edge rule: [a] writes what [b] reads or writes. *)
Definition conflicts a b : Prop :=
  sx_index a ≠ sx_index b ∧ sx_writes a ∩ union_rw b ≠ ∅.

(** Adjacency is the symmetric closure of the directed edges. *)
Definition graph_ok g : Prop :=
  ∀ i j, (∃ s, adj g !! i = Some s ∧ j ∈ s) ↔ (i, j) ∈ directed g ∨ (j, i) ∈ directed g.

Lemma adj_insert_lookup m x y m' :
  adj_insert m x y = Some m' →
  dom m' = dom m ∧ ∀ i j, (∃ s, m' !! i = Some s ∧ j ∈ s) ↔
    (i = x ∧ j = y) ∨ (∃ s, m !! i = Some s ∧ j ∈ s).
Proof.
  unfold adj_insert. intros E. destruct (m !! x) as [s|] eqn:Ex; [|done]. simplify_eq. split.
  - rewrite dom_insert_L. apply elem_of_dom_2 in Ex. set_solver.
  - intros i j. destruct (decide (i = x)) as [->|Hne].
    + rewrite lookup_insert_eq, Ex. split.
      * intros (s' & E & Hj). simplify_eq. apply elem_of_union in Hj as [->%elem_of_singleton|Hj]; eauto.
      * intros [[_ ->]|(s' & E & Hj)]; simplify_eq; eexists; (split; [done|]); set_solver.
    + rewrite lookup_insert_ne by done. naive_solver.
Qed.

Lemma adj_insert_total m x y : x ∈ dom m → is_Some (adj_insert m x y).
Proof. intros [s E]%elem_of_dom. unfold adj_insert. by rewrite E. Qed.

Lemma conflict_pair_spec a b g :
  graph_ok g → sx_index a ∈ dom (adj g) → sx_index b ∈ dom (adj g) →
  ∃ g', conflict_pair a g b = Some g' ∧ graph_ok g' ∧ dom (adj g') = dom (adj g) ∧
    ∀ e, e ∈ directed g' ↔ e ∈ directed g ∨ (conflicts a b ∧ e = (sx_index a, sx_index b)).
Proof.
  intros Hg Ha Hb. unfold conflict_pair, conflicts.
  destruct (Nat.eqb_spec (sx_index a) (sx_index b)) as [|Hne]; [exists g; naive_solver|].
  case_bool_decide as Hd; [exists g; naive_solver|].
  destruct (adj_insert_total (adj g) (sx_index a) (sx_index b) Ha) as [m1 E1]. rewrite E1.
  apply adj_insert_lookup in E1 as [Hd1 H1].
  destruct (adj_insert_total m1 (sx_index b) (sx_index a)) as [m2 E2]; [by rewrite Hd1|]. rewrite E2.
  apply adj_insert_lookup in E2 as [Hd2 H2].
  eexists. split; [done|]. cbn. split; [|split; [congruence|set_solver]].
  intros i j. cbn. rewrite H2, H1, (Hg i j). set_solver.
Qed.

Lemma conflict_row_spec a bs g :
  graph_ok g → sx_index a ∈ dom (adj g) → Forall (λ b, sx_index b ∈ dom (adj g)) bs →
  ∃ g', conflict_row a bs g = Some g' ∧ graph_ok g' ∧ dom (adj g') = dom (adj g) ∧
    ∀ e, e ∈ directed g' ↔ e ∈ directed g ∨
      ∃ b, b ∈ bs ∧ conflicts a b ∧ e = (sx_index a, sx_index b).
Proof.
  intros Hg Ha Hf. revert g Hg Ha Hf. induction bs as [|b bs IH]; intros g Hg Ha Hf.
  { exists g. do 3 (split; [done|]). intros e. set_solver. }
  apply Forall_cons in Hf as [Hb Hf].
  destruct (conflict_pair_spec a b g Hg Ha Hb) as (g1 & E1 & Hg1 & Hd1 & He1).
  destruct (IH g1) as (g' & E' & Hg' & Hd' & He'); [done|by rewrite Hd1|by rewrite Hd1|].
  exists g'. cbn. rewrite E1. split; [done|]. split; [done|]. split; [congruence|].
  intros e. rewrite He', He1. set_solver.
Qed.

Lemma conflict_rows_spec rows specs g :
  graph_ok g → Forall (λ b, sx_index b ∈ dom (adj g)) rows →
  Forall (λ b, sx_index b ∈ dom (adj g)) specs →
  ∃ g', conflict_rows rows specs g = Some g' ∧ graph_ok g' ∧ dom (adj g') = dom (adj g) ∧
    ∀ e, e ∈ directed g' ↔ e ∈ directed g ∨
      ∃ a b, a ∈ rows ∧ b ∈ specs ∧ conflicts a b ∧ e = (sx_index a, sx_index b).
Proof.
  intros Hg Hr Hf. revert g Hg Hr Hf. induction rows as [|a rows IH]; intros g Hg Hr Hf.
  { exists g. do 3 (split; [done|]). intros e. set_solver. }
  apply Forall_cons in Hr as [Ha Hr].
  destruct (conflict_row_spec a specs g Hg Ha Hf) as (g1 & E1 & Hg1 & Hd1 & He1).
  destruct (IH g1) as (g' & E' & Hg' & Hd' & He'); [done|by rewrite Hd1|by rewrite Hd1|].
  exists g'. cbn. rewrite E1. split; [done|]. split; [done|]. split; [congruence|].
  intros e. rewrite He', He1. set_solver.
Qed.

Lemma adj_entries_spec specs :
  dom (adj_entries specs) = list_to_set (sx_index <$> specs) ∧
  map_Forall (λ _ s, s = ∅) (adj_entries specs).
Proof.
  unfold adj_entries.
  assert (∀ m : gmap nat (gset nat), map_Forall (λ _ s, s = ∅) m →
    let m' := foldl (λ m s, match m !! sx_index s with
      Some _ => m | None => <[sx_index s := ∅]> m end) m specs in
    dom m' = dom m ∪ list_to_set (sx_index <$> specs) ∧ map_Forall (λ _ s, s = ∅) m') as Hgen.
  { induction specs as [|s specs IH]; intros m Hm; cbn.
    { split; [set_solver|done]. }
    destruct (m !! sx_index s) as [x|] eqn:E; cbn.
    - destruct (IH m Hm) as [-> ?]. apply elem_of_dom_2 in E. split; [set_solver|done].
    - destruct (IH (<[sx_index s := ∅]> m)) as [-> ?]; [by apply map_Forall_insert_2|].
      split; [rewrite dom_insert_L; set_solver|done]. }
  destruct (Hgen ∅ (map_Forall_empty _)) as [-> ?]. split; [set_solver|done].
Qed.

(** The graph is built without a failed [unwrap]: an edge for every pair in
    conflict and no other, and symmetric adjacency. *)
Lemma conflict_graph_spec specs :
  ∃ g, conflict_graph specs = Some g ∧ graph_ok g ∧
    dom (adj g) = list_to_set (sx_index <$> specs) ∧
    ∀ i j, (i, j) ∈ directed g ↔
      ∃ a b, a ∈ specs ∧ b ∈ specs ∧ conflicts a b ∧ sx_index a = i ∧ sx_index b = j.
Proof.
  destruct (adj_entries_spec specs) as [Hd He]. unfold conflict_graph.
  assert (Forall (λ b, sx_index b ∈ dom (adj_entries specs)) specs) as Hin.
  { apply Forall_forall. intros b Hb. rewrite Hd. apply elem_of_list_to_set, list_elem_of_fmap. eauto. }
  destruct (conflict_rows_spec specs specs {| adj := adj_entries specs; directed := ∅ |})
    as (g & E & Hg & Hdg & Hdir); [|done|done|].
  { intros i j. cbn. split; [|set_solver]. intros (s & Hs & Hj). apply He in Hs. set_solver. }
  exists g. split; [done|]. split; [done|]. split; [by rewrite Hdg|].
  intros i j. rewrite Hdir. cbn. split; [|naive_solver].
  intros [?|(a & b & ? & ? & ? & E')]; [set_solver|]. simplify_eq. by exists a, b.
Qed.

End graph_spec.

(** ** The schedule *)

Section schedule_spec.
Context (g : ConflictGraph).
Implicit Types (wave cand : list nat) (blocked remaining : gset nat).

Definition neighbours (i : nat) : gset nat := default ∅ (adj g !! i).

(** No two members are adjacent. *)
Definition independent wave : Prop :=
  ∀ i j, i ∈ wave → j ∈ wave → i ≠ j → j ∉ neighbours i.

Definition symmetric_adj : Prop := ∀ i j, j ∈ neighbours i → i ∈ neighbours j.

Lemma graph_ok_symmetric : graph_ok g → symmetric_adj.
Proof.
  intros Hg i j Hj. unfold neighbours in *.
  destruct (adj g !! i) as [s|] eqn:Ei; [|cbn in Hj; set_solver]. cbn in Hj.
  destruct (proj2 (Hg j i)) as (s' & -> & ?); [|done]. apply or_comm, Hg. eauto.
Qed.

(** One pass takes an independent set of candidates, the first included. *)
Lemma wave_loop_spec cand wave blocked remaining :
  symmetric_adj → NoDup cand → independent wave → (∀ i, i ∈ wave → neighbours i ⊆ blocked) →
  ∃ new, wave_loop g cand wave blocked remaining = (wave ++ new, remaining ∖ list_to_set new) ∧
    independent (wave ++ new) ∧ NoDup new ∧ new ⊆ cand ∧
    (∀ i l, cand = i :: l → i ∉ blocked → i ∈ new).
Proof.
  intros Hsym Hnd. revert wave blocked remaining.
  induction Hnd as [|i cand Hi Hnd IH]; intros wave blocked remaining Hind Hbl; cbn [wave_loop].
  { exists []. rewrite app_nil_r. split; [f_equal; set_solver|]. split; [done|].
    split; [constructor|]. by split. }
  case_bool_decide as Hb.
  { destruct (IH wave blocked remaining Hind Hbl) as (new & E & H1 & H2 & H3 & _).
    exists new. do 3 (split; [done|]). split; [set_solver|]. by intros ?? [= <- <-]. }
  fold (neighbours i).
  destruct (IH (wave ++ [i]) (neighbours i ∪ blocked) (remaining ∖ {[i]}))
    as (new & E & H1 & H2 & H3 & _).
  - intros x y Hx Hy Hne. apply elem_of_app in Hx as [Hx|Hx], Hy as [Hy|Hy].
    + by apply Hind.
    + apply list_elem_of_singleton in Hy as ->. intros Hn. by apply Hb, (Hbl x).
    + apply list_elem_of_singleton in Hx as ->. intros Hn%Hsym. by apply Hb, (Hbl y).
    + apply list_elem_of_singleton in Hx as ->. by apply list_elem_of_singleton in Hy as ->.
  - intros x [Hx%Hbl| ->%list_elem_of_singleton]%elem_of_app; set_solver.
  - exists (i :: new). rewrite E, <- app_assoc in *. split; [f_equal; set_solver|].
    split; [done|]. split; [constructor; [set_solver|done]|]. split; [set_solver|].
    intros ?? [= <- <-] _. constructor.
Qed.

Lemma schedule_loop_spec fuel remaining :
  symmetric_adj → (size remaining ≤ fuel)%nat →
  ∃ ws, schedule_loop fuel g remaining = Some ws ∧ concat ws ≡ₚ elements remaining ∧
    Forall (λ w, w ≠ [] ∧ independent w ∧ StronglySorted (≤)%nat w) ws.
Proof.
  intros Hsym. revert remaining. induction fuel as [|fuel IH]; intros remaining Hf; cbn [schedule_loop].
  all: case_bool_decide as He; [subst; exists []; split; [done|]; by rewrite elements_empty|].
  { exfalso. apply He. apply leibniz_equiv, size_empty_iff. lia. }
  destruct (wave_loop_spec (btset_iter remaining) [] ∅ remaining Hsym (NoDup_btset_iter _))
    as (new & E & Hind & Hnd & Hsub & Hfirst); [by intros ?? ?%not_elem_of_nil|by intros ? ?%not_elem_of_nil|].
  rewrite E. cbn [fst snd app] in *.
  assert (list_to_set new ⊆ remaining) as Hin.
  { intros x Hx%elem_of_list_to_set. apply elem_of_btset_iter. by apply Hsub. }
  assert (new ≠ []) as Hne.
  { destruct (btset_iter remaining) as [|i l] eqn:Ei.
    - exfalso. apply He. apply leibniz_equiv, elements_empty_iff.
      pose proof (btset_iter_perm remaining) as Hp. rewrite Ei in Hp. by apply Permutation_nil.
    - specialize (Hfirst i l eq_refl ltac:(set_solver)). by intros ->; apply not_elem_of_nil in Hfirst. }
  destruct (IH (remaining ∖ list_to_set new)) as (ws & Ew & Hp & Hw).
  { rewrite size_difference, size_list_to_set by done. destruct new; [done|cbn; lia]. }
  exists (merge_sort (≤)%nat new :: ws). rewrite Ew. split; [done|]. split.
  - cbn [concat]. rewrite (merge_sort_Permutation (≤)%nat new), Hp.
    transitivity (elements (list_to_set new ∪ remaining ∖ list_to_set new)).
    + rewrite elements_disj_union by set_solver. by rewrite elements_list_to_set.
    + f_equiv. by rewrite <- (union_difference_L (list_to_set new) remaining).
  - constructor; [|done]. split; [|split].
    + intros E'. apply Hne, Permutation_nil. rewrite <- E'. apply merge_sort_Permutation.
    + intros x y Hx Hy. rewrite (merge_sort_Permutation (≤)%nat new) in Hx, Hy. by apply Hind.
    + apply (StronglySorted_merge_sort (≤)%nat).
Qed.

Lemma schedule_total :
  symmetric_adj → ∃ ws, schedule g = Some ws ∧ concat ws ≡ₚ seq 0 (size (adj g)) ∧
    Forall (λ w, w ≠ [] ∧ independent w ∧ StronglySorted (≤)%nat w) ws.
Proof.
  intros Hsym. unfold schedule. set (n := size (adj g)).
  destruct (schedule_loop_spec n (list_to_set (seq 0 n)) Hsym) as (ws & E & Hp & Hw).
  { rewrite size_list_to_set by apply NoDup_seq. by rewrite length_seq. }
  exists ws. split; [done|]. split; [|done]. rewrite Hp. apply elements_list_to_set, NoDup_seq.
Qed.

End schedule_spec.

(** The schedule of a speculated block: the loop ends, every transaction is
    in exactly one wave, and no transaction of a wave writes what another one
    of the same wave reads or writes. *)
Theorem schedule_sound {T : Type} (specs : list (SpecTx T)) :
  sx_index <$> specs = seq 0 (length specs) →
  ∃ g ws, conflict_graph specs = Some g ∧ schedule g = Some ws ∧
    concat ws ≡ₚ seq 0 (length specs) ∧
    ∀ w a b, w ∈ ws → a ∈ specs → b ∈ specs → sx_index a ∈ w → sx_index b ∈ w → ¬ conflicts a b.
Proof.
  intros Hidx. destruct (conflict_graph_spec specs) as (g & E & Hg & Hd & Hdir).
  destruct (schedule_total g (graph_ok_symmetric g Hg)) as (ws & Es & Hp & Hw).
  exists g, ws. split; [done|]. split; [done|]. split.
  - rewrite Hp. assert (size (adj g) = length specs) as ->; [|done].
    rewrite <- size_dom, Hd, Hidx, size_list_to_set by apply NoDup_seq. apply length_seq.
  - intros w a b Hin Ha Hb Haw Hbw Hc. rewrite Forall_forall in Hw.
    destruct (Hw w Hin) as (_ & Hind & _). apply (Hind _ _ Haw Hbw (proj1 Hc)).
    destruct (proj2 (Hg (sx_index a) (sx_index b))) as (s & Hs & Hj).
    + left. apply Hdir. by exists a, b.
    + unfold neighbours. by rewrite Hs.
Qed.
