(* ===== verification/StmSpec.v ===== *)
(** Block-STM is sequential execution.

    A transaction reads and changes only what its inferred keys stand for: the
    accounts and code of the addresses among them, all contract storage of
    these addresses, and the staking ledger if the staking slot is one
    ([apply_tx_lockstep]).  So a speculation whose slots have kept their
    versions gives what the transaction gives now, and the engine commits the
    receipts, the application hash and the state of sequential execution
    ([stm_matches_sequential]). *)

From S2P Require Import Prelude Types Codec Crypto Merkle Store MptSpec Tries ExecBase Vote Staking Wasm Exec ExecSpec Stm.
From stdpp Require Import list.

#[local] Open Scope Z_scope.
#[local] Open Scope l1_scope.

Section spec.
Context {T : Type} `{TI : !TrieImpl T} `{TL : !TrieLaws T} `{CR : !Crypto} `{CL : !CryptoLaws} `{WA : !Wasm}.
(** The state tries are taken as exact maps: no hash collisions, also in
    runs that are rolled back. *)
Hypothesis ideal : ∀ t : T, trie_safe t.

Implicit Types (w v : World T).

(** ** Tries as maps *)

Definition aok (t : T) : Prop := ∃ am, aholds t am.

(** Contract storage: 64-byte keys. *)
Definition sok (t : T) : Prop :=
  ∃ sm, trie_holds t sm ∧ map_Forall (λ k val, array 64 k ∧ val_ok val) sm.

Lemma acct_get_wf t a acc : aok t → array 32 a → acct_get t a = Some acc → account_wf acc.
Proof.
  intros [am Ht] Ha E. rewrite (aholds_get _ _ _ Ht Ha) in E. by apply (proj2 Ht a).
Qed.

Lemma acct_default_wf t a : aok t → array 32 a → account_wf (default Account_empty (acct_get t a)).
Proof.
  intros [am Ht] Ha. rewrite (aholds_get _ _ _ Ht Ha). apply account_default_wf, Ht.
Qed.

Lemma aok_put t a acc : aok t → array 32 a → account_wf acc → aok (acct_put t a acc).
Proof. intros [am Ht] Ha Hacc. eexists. by apply aholds_put. Qed.

Lemma acct_get_put t a acc b :
  aok t → array 32 a → account_wf acc → array 32 b →
  acct_get (acct_put t a acc) b = if decide (b = a) then Some acc else acct_get t b.
Proof.
  intros [am Ht] Ha Hacc Hb.
  rewrite (aholds_get _ _ _ (aholds_put _ _ _ _ Ht Ha Hacc (ideal _)) Hb), (aholds_get _ _ _ Ht Hb).
  case_decide; [subst; apply lookup_insert_eq|by apply lookup_insert_ne].
Qed.

Lemma storage_key_ok k : array 64 k → key_ok k.
Proof. intros [Hl Hb]. split; [done|]. rewrite Hl. uint. lia. Qed.

Lemma sok_val t k val : sok t → array 64 k → trie_get t k = Some val → val_ok val.
Proof.
  intros (sm & Ht & Hm) [_ Hk] E. rewrite (holds_get _ _ _ Ht Hk) in E. by destruct (Hm k val E).
Qed.

Lemma sok_put t k val : sok t → array 64 k → val_ok val → sok (trie_put t k val).
Proof.
  intros (sm & Ht & Hm) Hk Hv. eexists. split.
  - apply holds_put; [exact Ht|by apply storage_key_ok|done|apply ideal].
  - by apply map_Forall_insert_2.
Qed.

Lemma trie_get_put t k val k' :
  sok t → array 64 k → val_ok val → array 64 k' →
  trie_get (trie_put t k val) k' = if decide (k' = k) then Some val else trie_get t k'.
Proof.
  intros (sm & Ht & _) Hk Hv Hk'.
  rewrite (holds_get _ _ _ (holds_put _ _ _ _ Ht (storage_key_ok k Hk) Hv (ideal _)) (proj2 Hk')).
  rewrite (holds_get _ _ _ Ht (proj2 Hk')).
  case_decide; [subst; apply lookup_insert_eq|by apply lookup_insert_ne].
Qed.

(** ** Worlds that agree on some keys *)

Definition agree (P : bytes → Prop) w1 w2 : Prop :=
  (∀ a, array 32 a → P a →
     acct_get (accounts w1) a = acct_get (accounts w2) a ∧ code w1 !! a = code w2 !! a) ∧
  (∀ k, array 64 k → P (take 32 k) → trie_get (w_storage w1) k = trie_get (w_storage w2) k) ∧
  (P STAKING_SLOT → staking w1 = staking w2) ∧ params w1 = params w2.

Lemma agree_refl P w : agree P w w.
Proof. done. Qed.

Lemma agree_sym P w1 w2 : agree P w1 w2 → agree P w2 w1.
Proof.
  intros (H1 & H2 & H3 & H4). split; [|split; [|split]].
  - intros a Ha Hp. destruct (H1 a Ha Hp). by split.
  - intros k Hk Hp. symmetry. auto.
  - intros Hp. symmetry. auto.
  - done.
Qed.

Lemma agree_trans P w1 w2 w3 : agree P w1 w2 → agree P w2 w3 → agree P w1 w3.
Proof.
  intros (H1 & H2 & H3 & H4) (G1 & G2 & G3 & G4). split; [|split; [|split]].
  - intros a Ha Hp. destruct (H1 a Ha Hp), (G1 a Ha Hp). split; congruence.
  - intros k Hk Hp. rewrite H2 by done. auto.
  - intros Hp. rewrite H3 by done. auto.
  - congruence.
Qed.

Lemma agree_mono (P Q : bytes → Prop) w1 w2 : (∀ k, P k → Q k) → agree Q w1 w2 → agree P w1 w2.
Proof. intros Hpq (H1 & H2 & H3 & H4). split; [|split; [|split]]; auto. Qed.

(** Agreement is decided key by key. *)
Lemma agree_split (P : bytes → Prop) (Q : bytes → Prop) `{!∀ k, Decision (Q k)} w1 w2 :
  agree (λ k, P k ∧ Q k) w1 w2 → agree (λ k, P k ∧ ¬ Q k) w1 w2 → agree P w1 w2.
Proof.
  intros (H1 & H2 & H3 & H4) (G1 & G2 & G3 & G4). split; [|split; [|split]]; [..|done].
  - intros a Ha Hp. destruct (decide (Q a)); auto.
  - intros k Hk Hp. destruct (decide (Q (take 32 k))); auto.
  - intros Hp. destruct (decide (Q STAKING_SLOT)); auto.
Qed.

Lemma same_state_agree P w w' : same_state w w' → agree P w w'.
Proof.
  intros (Ha & Hs & Hb & Hp & Hc & _). unfold agree. by rewrite Ha, Hs, Hb, Hp, Hc.
Qed.

(** The invariant of the state. *)
Definition wok w : Prop := aok (accounts w) ∧ sok (w_storage w) ∧ versions_ok (versioned w).

(** Worlds that agree everywhere have the same roots. *)
Lemma agree_root w1 w2 :
  wok w1 → wok w2 → agree (λ _, True) w1 w2 → commit_state_root w1 = commit_state_root w2.
Proof.
  intros ([am1 Ha1] & (sm1 & Hs1 & Hm1) & _) ([am2 Ha2] & (sm2 & Hs2 & Hm2) & _) (H1 & H2 & _).
  assert (am1 = am2) as <-.
  { apply map_eq. intros a. destruct (decide (array 32 a)) as [Ha|Ha].
    - destruct (H1 a Ha I) as [E _]. by rewrite (aholds_get _ _ _ Ha1 Ha), (aholds_get _ _ _ Ha2 Ha) in E.
    - transitivity (@None Account); [|symmetry]; apply eq_None_not_Some; intros [acc E].
      + by apply (proj2 Ha1) in E as [? _].
      + by apply (proj2 Ha2) in E as [? _]. }
  assert (sm1 = sm2) as <-.
  { apply map_eq. intros k. destruct (decide (array 64 k)) as [Hk|Hk].
    - specialize (H2 k Hk I). by rewrite (holds_get _ _ _ Hs1 (proj2 Hk)), (holds_get _ _ _ Hs2 (proj2 Hk)) in H2.
    - transitivity (@None bytes); [|symmetry]; apply eq_None_not_Some; intros [acc E].
      + by apply Hm1 in E as [? _].
      + by apply Hm2 in E as [? _]. }
  unfold commit_state_root, commit_tries. f_equal.
  - by apply (holds_root _ _ _ (proj1 Ha1) (proj1 Ha2)).
  - by apply (holds_root _ _ _ Hs1 Hs2).
Qed.

(** ** What a run changes *)

(** From [v], whose scratch is empty, to [w]: only what [K] stands for, and
    contract storage only where it is recorded as written. *)
Definition stepped (K : gset bytes) v w : Prop :=
  agree (λ k, k ∉ K) v w ∧
  (∀ a, array 32 a → is_Some (acct_get (accounts v) a) → is_Some (acct_get (accounts w) a)) ∧
  (∀ a, is_Some (code v !! a) → is_Some (code w !! a)) ∧
  (∀ k, array 64 k → k ∉ storage_writes w → trie_get (w_storage w) k = trie_get (w_storage v) k) ∧
  (∀ k, k ∈ storage_writes w → array 64 k ∧ take 32 k ∈ K ∧ is_Some (trie_get (w_storage w) k)) ∧
  (∀ k, k ∈ storage_reads w → array 64 k ∧ take 32 k ∈ K).

(** Two runs of the same transaction, side by side. *)
Definition locked (K : gset bytes) v1 v2 w1 w2 : Prop :=
  wok w1 ∧ wok w2 ∧ agree (λ k, k ∈ K) w1 w2 ∧ stepped K v1 w1 ∧ stepped K v2 w2 ∧
  storage_writes w1 = storage_writes w2.

Lemma wok_put w a acc :
  wok w → array 32 a → account_wf acc → wok (set_accounts (acct_put (accounts w) a acc) w).
Proof. intros (H1 & H2) Ha Hacc. split; [by apply aok_put|done]. Qed.

Lemma agree_put (P : bytes → Prop) w1 w2 a acc :
  wok w1 → wok w2 → array 32 a → account_wf acc → agree P w1 w2 →
  agree P (set_accounts (acct_put (accounts w1) a acc) w1) (set_accounts (acct_put (accounts w2) a acc) w2).
Proof.
  intros (Hw1 & _) (Hw2 & _) Ha Hacc (H1 & H2). split; [|done]. intros b Hb Hp.
  destruct (H1 b Hb Hp). cbn. rewrite !acct_get_put by done. split; [by case_decide|done].
Qed.

Lemma stepped_put K v w a acc :
  wok w → array 32 a → account_wf acc → a ∈ K → stepped K v w →
  stepped K v (set_accounts (acct_put (accounts w) a acc) w).
Proof.
  intros (Hw & _) Ha Hacc Hin ((H1 & H2) & H3 & H4). split; [|split; [|done]].
  - split; [|done]. intros b Hb Hp. destruct (H1 b Hb Hp). cbn.
    rewrite acct_get_put by done. split; [|done]. case_decide; [congruence|done].
  - intros b Hb Hsome. cbn. rewrite acct_get_put by done. case_decide; [done|auto].
Qed.

Lemma locked_put K v1 v2 w1 w2 a acc :
  locked K v1 v2 w1 w2 → array 32 a → account_wf acc → a ∈ K →
  locked K v1 v2 (set_accounts (acct_put (accounts w1) a acc) w1)
                 (set_accounts (acct_put (accounts w2) a acc) w2).
Proof.
  intros (Hw1 & Hw2 & Ha & H1 & H2 & Hs) Har Hacc Hin.
  split; [by apply wok_put|]. split; [by apply wok_put|]. split; [by apply agree_put|].
  split; [by apply stepped_put|]. split; [by apply stepped_put|done].
Qed.

Lemma locked_staking K v1 v2 w1 w2 b :
  locked K v1 v2 w1 w2 → STAKING_SLOT ∈ K → locked K v1 v2 (set_staking b w1) (set_staking b w2).
Proof.
  intros (Hw1 & Hw2 & (A1 & A2 & _ & A4) & ((B1 & B2 & _ & B4) & B) & ((C1 & C2 & _ & C4) & C) & Hs) Hin.
  by repeat (split; try done).
Qed.

Lemma locked_code K v1 v2 w1 w2 a c :
  locked K v1 v2 w1 w2 → a ∈ K →
  locked K v1 v2 (set_code (<[a := c]> (code w1)) w1) (set_code (<[a := c]> (code w2)) w2).
Proof.
  intros (Hw1 & Hw2 & (A1 & A2) & ((B1 & B2) & B3 & B4 & B) & ((C1 & C2) & C3 & C4 & C) & Hs) Hin.
  split; [done|]. split; [done|]. split; [|split; [|split; [|done]]].
  - split; [|done]. intros b Hb Hp. destruct (A1 b Hb Hp) as [? E]. split; [done|]. cbn.
    destruct (decide (b = a)) as [->|]; [by rewrite !lookup_insert_eq|by rewrite !lookup_insert_ne].
  - split; [|split; [done|split; [|done]]].
    + split; [|done]. intros b Hb Hp. destruct (B1 b Hb Hp) as [? E]. split; [done|]. cbn.
      by rewrite lookup_insert_ne by congruence.
    + intros b Hb%B4. cbn. destruct (decide (b = a)) as [->|]; [by rewrite lookup_insert_eq|by rewrite lookup_insert_ne].
  - split; [|split; [done|split; [|done]]].
    + split; [|done]. intros b Hb Hp. destruct (C1 b Hb Hp) as [? E]. split; [done|]. cbn.
      by rewrite lookup_insert_ne by congruence.
    + intros b Hb%C4. cbn. destruct (decide (b = a)) as [->|]; [by rewrite lookup_insert_eq|by rewrite lookup_insert_ne].
Qed.

(** ** Calls *)

Section contract.
Context (c : Address) (K : gset bytes).
Hypothesis Hc : array 32 c.
Hypothesis HcK : c ∈ K.

(** One run of the contract, started in [v]. *)
Definition guest_run v w : Prop :=
  frame v w ∧ sok (w_storage w) ∧ versions_ok (versioned w) ∧ c ∈ executing w ∧
  (∀ k, array 64 k → k ∉ storage_writes w → trie_get (w_storage w) k = trie_get (w_storage v) k) ∧
  (∀ k, k ∈ storage_writes w → array 64 k ∧ take 32 k = c ∧ is_Some (trie_get (w_storage w) k)) ∧
  (∀ k, k ∈ storage_reads w → array 64 k ∧ take 32 k = c).

(** Two runs, on storage that is the same for this contract. *)
Definition twins v1 v2 w1 w2 : Prop :=
  guest_run v1 w1 ∧ guest_run v2 w2 ∧ storage_writes w1 = storage_writes w2 ∧
  ∀ k, array 64 k → take 32 k = c → trie_get (w_storage w1) k = trie_get (w_storage w2) k.

Lemma slot_array slot : array 64 (storage_key c slot) ∧ take 32 (storage_key c slot) = c.
Proof.
  destruct Hc as [Hl Hb]. split; [split|].
  - by apply length_storage_key.
  - unfold storage_key. apply Forall_app. split; [done|]. apply Forall_app.
    split; [by apply Forall_replicate|apply be_bytes_ok].
  - unfold storage_key. by rewrite take_app_length' by done.
Qed.

Lemma sload_run v w slot :
  guest_run v w → ∃ w', sload w c slot = Some (w', i64_from_value (trie_get (w_storage w) (storage_key c slot))) ∧
    guest_run v w' ∧ storage_writes w' = storage_writes w ∧ w_storage w' = w_storage w.
Proof.
  intros (Hf & Hs & Hv & He & H1 & H2 & H3). unfold sload. cbn [versioned w_storage set_storage].
  destruct (slot_array slot) as [Hk Ht].
  destruct (find_latest_ok (versioned w) (storage_key c slot) Hv (proj1 Hk)) as (l & -> & _).
  unfold vread. cbn. destruct (l =? 0); eexists; (split; [done|]).
  all: split; [|done]; repeat (split; [done|]).
  all: cbn [storage_reads set_storage]; intros k [->%elem_of_singleton|Hin]%elem_of_union; [done|by apply H3].
Qed.

Lemma sstore_run v w slot value :
  guest_run v w → ∃ w', sstore w c slot value = Some w' ∧ guest_run v w' ∧
    storage_writes w' = {[storage_key c slot]} ∪ storage_writes w ∧
    w_storage w' = trie_put (w_storage w) (storage_key c slot) (be_bytes 8 (value mod 2 ^ 64)).
Proof.
  intros Hrun. unfold sstore. destruct (sload_run v w slot Hrun) as (w1 & -> & Hr1 & Ew & Est).
  destruct (slot_array slot) as [Hk Ht]. destruct Hr1 as (Hf & Hs & Hv & He & H1 & H2 & H3).
  destruct (versions_latest _ _ Hv (proj1 Hk)) as (l & El & Hl).
  destruct (vwrite_versions_ok (versioned w1) _ (be_bytes 8 (value mod 2 ^ 64)) l Hv (proj1 Hk) El Hl)
    as (s' & n & -> & Hs').
  assert (val_ok (be_bytes 8 (value mod 2 ^ 64))) as Hval
    by (unfold val_ok; rewrite length_be_bytes; uint; lia).
  eexists. split; [reflexivity|]. cbn [w_storage storage_writes set_storage].
  split; [|by rewrite Ew, Est]. split; [done|]. cbn [w_storage versioned executing set_storage].
  split; [by apply sok_put|]. split; [done|]. split; [done|].
  cbn [storage_writes storage_reads set_storage]. split; [|split; [|done]].
  - intros k Hk' [Hne Hnw]%not_elem_of_union. rewrite trie_get_put by done.
    rewrite decide_False by set_solver. by apply H1.
  - intros k Hin. assert (array 64 k ∧ take 32 k = c) as [Hk' Htk].
    { apply elem_of_union in Hin as [->%elem_of_singleton|Hin]; [done|]. by destruct (H2 k Hin) as (? & ? & _). }
    split; [done|]. split; [done|]. rewrite trie_get_put by done. case_decide; [done|].
    apply elem_of_union in Hin as [?%elem_of_singleton|Hin]; [done|]. by apply H2.
Qed.

Lemma guest_run_fuel v w fl : guest_run v w → guest_run v (set_fuel_left fl w).
Proof. done. Qed.

(** The guest cannot tell the two runs apart. *)
Lemma run_guest_twins reenter g v1 v2 w1 w2 :
  (∀ w, c ∈ executing w → reenter w = Some (w, Err RWasmReentrancy)) →
  twins v1 v2 w1 w2 →
  ∃ w1' w2' r, run_guest reenter c g w1 = Some (w1', r) ∧ run_guest reenter c g w2 = Some (w2', r) ∧
    twins v1 v2 w1' w2'.
Proof.
  intros Hre. revert w1 w2.
  induction g as [fl|msg fl|slot k IH|slot value k IH|k IH err fl]; intros w1 w2 Ht; cbn [run_guest].
  - by eexists _, _, _.
  - by eexists _, _, _.
  - destruct Ht as (R1 & R2 & Ew & Eg).
    destruct (sload_run v1 w1 (slot mod 2 ^ 32) R1) as (w1' & -> & R1' & W1 & S1).
    destruct (sload_run v2 w2 (slot mod 2 ^ 32) R2) as (w2' & -> & R2' & W2 & S2).
    destruct (slot_array (slot mod 2 ^ 32)) as [Hk Htk]. rewrite (Eg _ Hk Htk). apply IH.
    split; [done|]. split; [done|]. split; [congruence|]. by rewrite S1, S2.
  - destruct Ht as (R1 & R2 & Ew & Eg).
    destruct (sstore_run v1 w1 (slot mod 2 ^ 32) value R1) as (w1' & -> & R1' & W1 & S1).
    destruct (sstore_run v2 w2 (slot mod 2 ^ 32) value R2) as (w2' & -> & R2' & W2 & S2).
    apply IH. split; [done|]. split; [done|]. split; [congruence|].
    destruct (slot_array (slot mod 2 ^ 32)) as [Hk Htk].
    assert (val_ok (be_bytes 8 (value mod 2 ^ 64))) as Hval
      by (unfold val_ok; rewrite length_be_bytes; uint; lia).
    intros k' Hk' Htk'. rewrite S1, S2.
    rewrite (trie_get_put _ _ _ _ (proj1 (proj2 R1)) Hk Hval Hk').
    rewrite (trie_get_put _ _ _ _ (proj1 (proj2 R2)) Hk Hval Hk').
    case_decide; [done|by apply Eg].
  - rewrite !Hre; [by eexists _, _, _|apply Ht|apply Ht].
Qed.

(** A call, from worlds with empty scratch. *)
Lemma call_twins w1 w2 data fuel :
  wok w1 → wok w2 → agree (λ k, k ∈ K) w1 w2 → code w1 !! c = code w2 !! c →
  executing w1 = ∅ → executing w2 = ∅ →
  storage_writes w1 = ∅ → storage_writes w2 = ∅ → storage_reads w1 = ∅ → storage_reads w2 = ∅ →
  let p := {| cl_to := c; cl_data := data |} in
  ∃ w1' w2' r, call w1 p fuel = Some (w1', r) ∧ call w2 p fuel = Some (w2', r) ∧
    twins w1 w2 (set_executing {[c]} w1') (set_executing {[c]} w2').
Proof.
  intros Hw1 Hw2 Hag Hcode E1 E2 X1 X2 Y1 Y2 p.
  assert (twins w1 w2 (set_executing {[c]} w1) (set_executing {[c]} w2)) as Hstart.
  { split; [|split; [|split; [cbn; congruence|]]].
    - split; [done|]. split; [apply Hw1|]. split; [apply Hw1|]. cbn. rewrite X1, Y1. set_solver.
    - split; [done|]. split; [apply Hw2|]. split; [apply Hw2|]. cbn. rewrite X2, Y2. set_solver.
    - intros k Hk Ht. apply Hag; [done|by rewrite Ht]. }
  unfold call, p. cbn [cl_to]. rewrite Hcode. destruct (code w2 !! c) as [b|] eqn:Ec; [|by eexists _, _, _].
  unfold validate_wasm. destruct (wasm_valid b) eqn:Evalid; [|by eexists _, _, _].
  rewrite !execute_S, E1, E2, !bool_decide_false by set_solver. rewrite Hcode, Ec, union_empty_r_L.
  unfold run_engine. cbn [code set_executing]. rewrite Hcode, Ec, Evalid. cbn [negb].
  destruct (wasm_guest b fuel) as [g|]; [|by eexists _, _, _].
  destruct (run_guest_twins (λ w, execute 0 w c 0) g w1 w2 _ _ (λ w, execute_guard 0 w c 0) Hstart)
    as (w1' & w2' & r & -> & -> & (R1 & R2 & Ht)).
  eexists _, _, r. split; [done|]. split; [done|]. split; [|split; [|done]].
  - destruct R1 as (F1 & ? & ? & _ & R1). split; [exact F1|]. split; [done|]. split; [done|]. by split; [cbn; set_solver|].
  - destruct R2 as (F1 & ? & ? & _ & R2). split; [exact F1|]. split; [done|]. split; [done|]. by split; [cbn; set_solver|].
Qed.

(** The run of a call within a transaction that has already changed accounts. *)
Lemma twins_locked v1 v2 u1 u2 w1 w2 :
  locked K v1 v2 u1 u2 → storage_writes u1 = ∅ → storage_writes u2 = ∅ →
  twins u1 u2 (set_executing {[c]} w1) (set_executing {[c]} w2) → locked K v1 v2 w1 w2.
Proof.
  intros (Hw1 & Hw2 & Hag & S1 & S2 & _) X1 X2 (R1 & R2 & Ew & Eg).
  assert (∀ v u w, wok u → stepped K v u → storage_writes u = ∅ → guest_run u (set_executing {[c]} w) →
    wok w ∧ stepped K v w ∧ agree (λ k, k ∉ K) u w ∧ frame u w) as Hone.
  { clear -HcK. intros v u w Hu ((A1 & A2 & A3 & A4) & A5 & A6 & A7 & A8 & A9) X (F & Hs & Hv & _ & H1 & H2 & H3).
    pose proof F as (F1 & F2 & F3 & F4). cbn in *.
    assert (∀ k, array 64 k → take 32 k ∉ K → trie_get (w_storage w) k = trie_get (w_storage u) k) as Hout.
    { intros k Hk Hin. apply H1; [done|]. intros (_ & Ht & _)%H2. by rewrite Ht in Hin. }
    split; [|split; [|split; [|done]]].
    - split; [by rewrite F1; apply Hu|done].
    - unfold stepped, agree. rewrite F1, F2, F3, F4. split; [|split; [done|split; [done|split; [|split]]]].
      + split; [done|]. split; [|done]. intros k Hk Hin. rewrite Hout by done. by apply A2.
      + intros k Hk Hn. rewrite H1 by done. apply A7; [done|]. rewrite X. set_solver.
      + intros k (? & -> & ?)%H2. done.
      + intros k (? & ->)%H3. done.
    - unfold agree. rewrite F1, F2, F3, F4. split; [done|]. split; [|done]. intros k Hk Hin. symmetry. by apply Hout. }
  destruct (Hone v1 u1 w1 Hw1 S1 X1 R1) as (W1 & T1 & _ & F1 & F2 & F3 & F4).
  destruct (Hone v2 u2 w2 Hw2 S2 X2 R2) as (W2 & T2 & _ & G1 & G2 & G3 & G4).
  split; [done|]. split; [done|]. split; [|by split; [|split]].
  destruct Hag as (A1 & A2 & A3 & A4). unfold agree. rewrite F1, F2, F3, F4, G1, G2, G3, G4.
  split; [done|]. split; [|done]. intros k Hk Hin. cbn in Eg, Ew.
  destruct (decide (take 32 k = c)) as [Ht|Ht]; [by apply Eg|].
  destruct R1 as (_ & _ & _ & _ & N1 & M1 & _), R2 as (_ & _ & _ & _ & N2 & M2 & _). cbn in *.
  rewrite N1, N2; [by apply A2|done| |done|]; by intros (_ & ? & _)%M1 || by intros (_ & ? & _)%M2.
Qed.

End contract.

(** ** The four kinds of transaction *)

Definition fresh w : Prop := executing w = ∅ ∧ storage_reads w = ∅ ∧ storage_writes w = ∅.

Lemma locked_start K w1 w2 :
  wok w1 → wok w2 → fresh w1 → fresh w2 → agree (λ k, k ∈ K) w1 w2 → locked K w1 w2 w1 w2.
Proof.
  intros Hw1 Hw2 (_ & R1 & W1) (_ & R2 & W2) Hag. split; [done|]. split; [done|]. split; [done|].
  unfold stepped. rewrite R1, W1, R2, W2. split; [|split; [|done]]; repeat (split; [done|]); set_solver.
Qed.

Section branches.
Context (w1 w2 : World T) (K : gset bytes) (from : Address) (tx : Tx) (sender : Account) (gas : Z).
Hypothesis Hw1 : wok w1.
Hypothesis Hw2 : wok w2.
Hypothesis Hf1 : fresh w1.
Hypothesis Hf2 : fresh w2.
Hypothesis Hag : agree (λ k, k ∈ K) w1 w2.
Hypothesis Hfrom : array 32 from.
Hypothesis HfromK : from ∈ K.
Hypothesis Hsender : account_wf sender.
Hypothesis Htx : tx_wf tx.

(** Both runs return, with the same receipt. *)
Definition lockstep (res1 res2 : option (World T * Receipt)) : Prop :=
  ∃ w1' w2' r, res1 = Some (w1', r) ∧ res2 = Some (w2', r) ∧ locked K w1 w2 w1' w2'.

Lemma lockstep_fail e : lockstep (Some (w1, fail e)) (Some (w2, fail e)).
Proof. exists w1, w2, (fail e). split; [done|]. split; [done|]. by apply locked_start. Qed.

Lemma max_fee_nonneg : 0 ≤ tx_max_fee tx.
Proof. destruct Htx as (_ & _ & _ & Hf & _). uint. lia. Qed.

Lemma payer_wf pay : 0 ≤ pay ≤ balance sender → account_wf (debited sender (balance sender - pay)).
Proof.
  intros Hp. apply debited_wf; [done|]. destruct Hsender as (Hb & _). uint. lia.
Qed.

Lemma transfer_lockstep t :
  tx_payload tx = PTransfer t → tr_to t ∈ K →
  lockstep (apply_transfer w1 from tx t sender gas) (apply_transfer w2 from tx t sender gas).
Proof.
  intros Hp Hto. unfold apply_transfer, balance_check.
  destruct (value_balance_check _ _ _) as [u|e] eqn:Ec; [|by apply lockstep_fail].
  apply value_balance_check_ok in Ec as [Ha Hb].
  assert (array 32 (tr_to t) ∧ u128 (tr_amount t)) as [Hta Hamt]
    by (pose proof Htx as (_ & _ & _ & _ & Hpw); by rewrite Hp in Hpw).
  pose proof max_fee_nonneg as Hfee.
  rewrite (proj2 (checked_add_Some _ _ _ _) (conj eq_refl Ha) : Amount_checked_add _ _ = _).
  rewrite (proj2 (checked_sub_Some _ _ _) (conj eq_refl Hb) : Amount_checked_sub _ _ = _).
  set (u1 := set_accounts (acct_put (accounts w1) _ _) w1). set (u2 := set_accounts (acct_put (accounts w2) _ _) w2).
  assert (locked K w1 w2 u1 u2) as Hl.
  { apply locked_put; [by apply locked_start|done|apply payer_wf; uint; lia|done]. }
  pose proof Hl as (Hu1 & _ & Hu & _). destruct (proj1 Hu (tr_to t) Hta Hto) as [<- _].
  pose proof (acct_default_wf _ _ (proj1 Hu1) Hta) as (Hrb & Hrn & Hrc).
  eexists _, _, _. split; [done|]. split; [done|]. apply locked_put; [done|done| |done].
  split; [|done]. cbn [balance]. unfold Amount_checked_add. destruct (checked_add _ _ _) eqn:E; cbn; [|done].
  apply checked_add_Some in E. uint. lia.
Qed.

Lemma stake_lockstep k :
  tx_payload tx = PStake k → STAKING_SLOT ∈ K →
  lockstep (apply_stake w1 from tx k sender gas) (apply_stake w2 from tx k sender gas).
Proof.
  intros Hp Hin. unfold apply_stake. fold (stake_debit k).
  destruct (value_balance_check _ _ _) as [u|e] eqn:Ec; [|by apply lockstep_fail].
  apply value_balance_check_ok in Ec as [Ha Hb].
  assert (0 ≤ sp_amount k) as Hamt.
  { pose proof Htx as (_ & _ & _ & _ & Hpw). rewrite Hp in Hpw. destruct Hpw as [Hu _]. uint. lia. }
  pose proof max_fee_nonneg as Hfee. destruct Hag as (_ & _ & Hst & Hpar). rewrite (Hst Hin), Hpar.
  destruct (apply_stake_tx _ _ _ _) as [b' res]. cbn [fst snd].
  assert (locked K w1 w2 (set_staking b' w1) (set_staking b' w2)) as Hl
    by (apply locked_staking; [by apply locked_start|done]).
  destruct res as [u'|e]; [|by eexists _, _, _].
  rewrite (proj2 (checked_add_Some _ _ _ _) (conj eq_refl Ha) : Amount_checked_add _ _ = _).
  rewrite (proj2 (checked_sub_Some _ _ _) (conj eq_refl Hb) : Amount_checked_sub _ _ = _).
  eexists _, _, _. split; [done|]. split; [done|].
  apply (locked_put K w1 w2 (set_staking b' w1) (set_staking b' w2)); [done|done| |done].
  assert (0 ≤ stake_debit k) as Hd by (unfold stake_debit; destruct (sp_kind k); lia).
  destruct Hsender as (Hsb & _). apply debited_wf; [done|].
  destruct (sp_kind k); [uint; lia..|]. unfold Amount_checked_add. destruct (checked_add _ _ _) eqn:E; cbn; [|uint; lia].
  apply checked_add_Some in E. uint. lia.
Qed.

Lemma deploy_lockstep d :
  create_address from (tx_nonce tx) ∈ K →
  lockstep (apply_deploy w1 from tx d sender gas) (apply_deploy w2 from tx d sender gas).
Proof.
  intros Hin. unfold apply_deploy.
  destruct (value_balance_check _ _ _) as [u|e] eqn:Ec; [|by apply lockstep_fail].
  apply value_balance_check_ok in Ec as [_ Hb]. rewrite Z.add_0_l in Hb.
  destruct (prepare tx d); [|by apply lockstep_fail].
  rewrite (proj2 (checked_sub_Some _ _ _) (conj eq_refl Hb) : Amount_checked_sub _ _ = _).
  set (u1 := set_accounts (acct_put (accounts w1) _ _) w1). set (u2 := set_accounts (acct_put (accounts w2) _ _) w2).
  assert (locked K w1 w2 u1 u2) as Hl.
  { pose proof max_fee_nonneg. apply locked_put; [by apply locked_start|done|apply payer_wf; lia|done]. }
  unfold install. destruct (validate_wasm _); [|by apply lockstep_fail].
  pose proof Hl as (Hu1 & _ & Hu & _).
  assert (array 32 (create_address from (tx_nonce tx))) as Har by apply blake3_array.
  destruct (proj1 Hu _ Har Hin) as [<- _].
  pose proof (acct_default_wf _ _ (proj1 Hu1) Har) as (Hrb & Hrn & Hrc).
  set (acc := with_code_hash _ _).
  assert (account_wf acc) as Hacc by (split; [done|]; split; [done|]; apply blake3_array).
  eexists _, _, _. split; [done|]. split; [done|].
  exact (locked_code _ _ _ _ _ _ _ (locked_put _ _ _ _ _ _ _ Hl Har Hacc Hin) Hin).
Qed.

Lemma call_lockstep c :
  tx_payload tx = PCall c → cl_to c ∈ K →
  lockstep (apply_call w1 from tx c sender gas) (apply_call w2 from tx c sender gas).
Proof.
  intros Hp Hin. unfold apply_call.
  destruct (value_balance_check _ _ _) as [u|e] eqn:Ec; [|by apply lockstep_fail].
  apply value_balance_check_ok in Ec as [_ Hb]. rewrite Z.add_0_l in Hb.
  assert (array 32 (cl_to c)) as Hto
    by (pose proof Htx as (_ & _ & _ & _ & Hpw); rewrite Hp in Hpw; apply Hpw).
  destruct (proj1 Hag _ Hto Hin) as [_ Ecode]. rewrite Ecode.
  destruct (code w2 !! cl_to c) eqn:Ecode2; [|by apply lockstep_fail].
  rewrite (proj2 (checked_sub_Some _ _ _) (conj eq_refl Hb) : Amount_checked_sub _ _ = _).
  set (u1 := set_accounts (acct_put (accounts w1) _ _) w1). set (u2 := set_accounts (acct_put (accounts w2) _ _) w2).
  assert (locked K w1 w2 u1 u2) as Hl.
  { pose proof max_fee_nonneg. apply locked_put; [by apply locked_start|done|apply payer_wf; lia|done]. }
  pose proof Hl as (Hu1 & Hu2 & Hu & _). destruct Hf1 as (X1 & R1 & W1), Hf2 as (X2 & R2 & W2).
  destruct (call_twins (cl_to c) K Hto Hin u1 u2 (cl_data c) (fuel_budget tx gas)
    Hu1 Hu2 Hu (eq_trans Ecode (eq_sym Ecode2)) X1 X2 W1 W2 R1 R2) as (w1' & w2' & r & E1 & E2 & Ht).
  destruct c as [to data]. cbn [cl_to cl_data] in *. rewrite E1, E2.
  destruct r as [u'|e]; [|by apply lockstep_fail].
  eexists _, _, _. split; [done|]. split; [done|]. by apply (twins_locked to K Hin w1 w2 u1 u2).
Qed.

End branches.

(** ** One transaction *)

Lemma keys_sender s from : sender_address s = Ok from → from ∈ inferred_keys s.
Proof.
  unfold sender_address, inferred_keys, stm_sender_of, account_key.
  destruct (public_key_from_bytes _) as [pk|]; [|done]. intros E. simplify_eq.
  repeat case_match; set_solver.
Qed.

Lemma keys_payload s :
  match tx_payload (st_tx s) with
  | PTransfer t => tr_to t ∈ inferred_keys s
  | PStake _ => STAKING_SLOT ∈ inferred_keys s
  | PDeploy _ => ∀ from, sender_address s = Ok from →
      create_address from (tx_nonce (st_tx s)) ∈ inferred_keys s
  | PCall c => cl_to c ∈ inferred_keys s
  end.
Proof.
  unfold sender_address, inferred_keys, stm_sender_of, account_key, as_transfer, as_stake, as_call, as_deploy.
  destruct (tx_payload _), (public_key_from_bytes _) as [pk|]; try set_solver.
Qed.

(** The keys are addresses, or the staking slot. *)
Lemma keys_shape s k : signed_wf s → k ∈ inferred_keys s → array 32 k ∨ k = STAKING_SLOT.
Proof.
  intros (_ & _ & _ & _ & Hp).
  unfold inferred_keys, stm_sender_of, account_key, as_transfer, as_stake, as_call, as_deploy.
  assert (∀ b, array 32 (hash_to_array b)) as Hh by (intros; apply blake3_array).
  assert (∀ pk, array 32 (from_ed25519 pk)) as Hk by (intros; apply blake3_array).
  destruct (tx_payload _), (public_key_from_bytes _) as [pk|]; cbn in Hp;
    rewrite ?elem_of_union, ?elem_of_singleton, ?elem_of_empty; unfold create_address; naive_solver.
Qed.

(** A transaction executed in two worlds that agree on its keys returns in
    both, with the same receipt and the same effect on the keys, and changes
    nothing else. *)
Lemma apply_tx_lockstep s w1 w2 :
  wok w1 → wok w2 → signed_wf s → agree (λ k, k ∈ inferred_keys s) w1 w2 →
  ∃ w1' w2' r, apply_tx w1 s = Some (w1', r) ∧ apply_tx w2 s = Some (w2', r) ∧
    locked (inferred_keys s) w1 w2 w1' w2'.
Proof.
  intros Hw1 Hw2 Hs Hag.
  change (lockstep (clear_scratch w1) (clear_scratch w2) (inferred_keys s) (apply_tx w1 s) (apply_tx w2 s)).
  unfold apply_tx. cbv zeta.
  assert (wok (clear_scratch w1) ∧ fresh (clear_scratch w1)) as [Hc1 Hf1] by done.
  assert (wok (clear_scratch w2) ∧ fresh (clear_scratch w2)) as [Hc2 Hf2] by done.
  assert (agree (λ k, k ∈ inferred_keys s) (clear_scratch w1) (clear_scratch w2)) as Hc by done.
  set (v1 := clear_scratch w1) in *. set (v2 := clear_scratch w2) in *.
  destruct (verify_total s Hs) as [ok ->]. destruct ok; [|by apply lockstep_fail].
  destruct (sender_address s) as [from|e] eqn:Ef; [|by apply lockstep_fail].
  pose proof (keys_sender s from Ef) as HfK. pose proof (keys_payload s) as Hpay. rewrite Ef in Hpay.
  assert (array 32 from) as Hfrom by (apply sender_address_eq in Ef as ->; apply sender_of_array).
  destruct (proj1 Hc from Hfrom HfK) as [<- _].
  pose proof (acct_default_wf (accounts v1) from (proj1 Hc1) Hfrom) as Hsender.
  destruct (nonce_check _ _); [|by apply lockstep_fail].
  destruct (gas_meter _) as [gas|]; [|by apply lockstep_fail].
  destruct (tx_payload (st_tx s)) as [t|k|d|c] eqn:Ep;
    unfold as_stake, as_deploy, as_call, as_transfer; rewrite Ep.
  - by apply transfer_lockstep.
  - by apply stake_lockstep.
  - apply deploy_lockstep; try done. by apply Hpay.
  - by apply call_lockstep.
Qed.

(** A rejected transaction has written no slot. *)
Lemma apply_tx_fail_writes w s w' r :
  apply_tx w s = Some (w', r) → success r = false → storage_writes w' = ∅.
Proof.
  unfold apply_tx, apply_transfer, apply_stake, apply_deploy, apply_call. cbv zeta. intros E Hr.
  repeat (case_match; simplify_eq; try done).
Qed.

(** ** Merging a speculation *)

Definition key_shape (k : bytes) : Prop := array 32 k ∨ k = STAKING_SLOT ∨ array 64 k.

Lemma key_shape_slot k : key_shape k → slot_key k.
Proof. intros [[Hk _]|[->|[Hk _]]]; unfold slot_key; [auto|by left|auto]. Qed.

Definition or_else {A} (x y : option A) : option A := match x with Some _ => x | None => y end.

(** [d] is [dst] with the slots among [ks] taken from [sw] where it has them. *)
Definition merged (sw dst : World T) (ks : list bytes) (d : World T) : Prop :=
  wok d ∧ params d = params dst ∧
  staking d = (if decide (STAKING_SLOT ∈ ks) then staking sw else staking dst) ∧
  (∀ a, array 32 a →
     acct_get (accounts d) a = (if decide (a ∈ ks) then or_else (acct_get (accounts sw) a) (acct_get (accounts dst) a)
                                else acct_get (accounts dst) a) ∧
     code d !! a = (if decide (a ∈ ks) then or_else (code sw !! a) (code dst !! a) else code dst !! a)) ∧
  (∀ k, array 64 k →
     trie_get (w_storage d) k = (if decide (k ∈ ks) then or_else (trie_get (w_storage sw) k) (trie_get (w_storage dst) k)
                                 else trie_get (w_storage dst) k)).

Lemma decide_one {A} (x y : bytes) (u v : A) :
  (if decide (x ∈ [y]) then u else v) = if decide (x = y) then u else v.
Proof. by rewrite (decide_ext (x ∈ [y]) (x = y)) by apply list_elem_of_singleton. Qed.

(** The writes to one address. *)
Lemma merge_account x dst a :
  wok dst → wok (sx_world x) → array 32 a → merged (sx_world x) dst [a] (merge_key x dst a).
Proof.
  intros (Hda & Hds & Hdv) (Hsa & _) Ha. unfold merge_key.
  assert (a ≠ STAKING_SLOT) as Hns by (intros ->; by destruct Ha).
  rewrite bool_decide_false by done. rewrite (proj1 Ha). cbn [Nat.eqb negb]. cbv zeta.
  set (d1 := match acct_get (accounts (sx_world x)) a with Some acc => _ | None => _ end).
  assert (wok d1 ∧ params d1 = params dst ∧ staking d1 = staking dst ∧ code d1 = code dst ∧
    w_storage d1 = w_storage dst ∧ ∀ b, array 32 b → acct_get (accounts d1) b =
      if decide (b = a) then or_else (acct_get (accounts (sx_world x)) a) (acct_get (accounts dst) a)
      else acct_get (accounts dst) b) as (Hw1 & Hp & Hst & Hco & Hsto & Hacc).
  { unfold d1. destruct (acct_get (accounts (sx_world x)) a) as [acc|] eqn:E.
    - pose proof (acct_get_wf _ _ _ Hsa Ha E) as Hwf. split; [split; [by apply aok_put|done]|].
      do 4 (split; [done|]). intros b Hb. cbn. by rewrite acct_get_put.
    - split; [done|]. do 4 (split; [done|]). intros b Hb. by case_decide; subst. }
  clearbody d1. clear Hda Hds Hdv.
  assert (∀ d, wok d → params d = params d1 → staking d = staking d1 → accounts d = accounts d1 →
    w_storage d = w_storage d1 → (∀ b, code d !! b = if decide (b = a)
      then or_else (code (sx_world x) !! a) (code dst !! a) else code dst !! b) →
    merged (sx_world x) dst [a] d) as Hfin.
  { intros d Hd E1 E2 E3 E4 E5. split; [done|]. split; [congruence|]. split; [|split].
    - rewrite decide_one, decide_False by done. congruence.
    - intros b Hb. rewrite !decide_one, E3, Hacc, E5 by done. case_decide; [by subst|done].
    - intros k Hk. rewrite decide_one, decide_False, E4, Hsto; [done|].
      intros ->. destruct Hk, Ha. congruence. }
  destruct (code (sx_world x) !! a) as [c|]; apply Hfin; try done.
  - intros b. cbn. rewrite Hco. case_decide; [subst; by rewrite lookup_insert_eq|by rewrite lookup_insert_ne].
  - intros b. rewrite Hco. by case_decide; subst.
Qed.

Lemma merge_key_spec x dst k :
  wok dst → wok (sx_world x) → key_shape k → merged (sx_world x) dst [k] (merge_key x dst k).
Proof.
  intros Hd Hsw [Ha|[->|Hk]]; [by apply merge_account| |].
  - unfold merge_key. rewrite bool_decide_true by done. split; [done|]. split; [done|].
    rewrite decide_one, decide_True by done. split; [done|]. split; intros a Ha; rewrite !decide_one, !decide_False; try done.
    + by intros ->; destruct Ha.
    + by intros ->; destruct Ha.
    + by intros ->; destruct Ha.
  - unfold merge_key. assert (k ≠ STAKING_SLOT) as Hns by (intros ->; by destruct Hk).
    rewrite bool_decide_false by done. rewrite (proj1 Hk). cbn [Nat.eqb].
    assert (∀ d, wok d → params d = params dst → staking d = staking dst → accounts d = accounts dst →
      code d = code dst → (∀ b, array 64 b → trie_get (w_storage d) b = if decide (b = k)
        then or_else (trie_get (w_storage (sx_world x)) k) (trie_get (w_storage dst) k)
        else trie_get (w_storage dst) b) → merged (sx_world x) dst [k] d) as Hfin.
    { intros d Hdd E1 E2 E3 E4 E5. split; [done|]. split; [done|]. split; [|split].
      - by rewrite decide_one, decide_False.
      - intros b Hb. rewrite !decide_one, !decide_False, E3, E4; [done|..]; intros ->; destruct Hk, Hb; congruence.
      - intros b Hb. rewrite decide_one, E5 by done. by case_decide; subst. }
    destruct (trie_get (w_storage (sx_world x)) k) as [val|] eqn:E; apply Hfin; try done.
    + pose proof (sok_val _ _ _ (proj1 (proj2 Hsw)) Hk E) as Hval. split; [apply Hd|]. split; [|apply Hd].
      apply sok_put; [apply Hd|done|done].
    + pose proof (sok_val _ _ _ (proj1 (proj2 Hsw)) Hk E) as Hval. intros b Hb.
      cbn [w_storage set_storage]. rewrite trie_get_put; [done|apply Hd|done..].
    + intros b Hb. by case_decide; subst.
Qed.

Lemma or_else_twice {A} (x y : option A) : or_else x (or_else x y) = or_else x y.
Proof. by destruct x. Qed.

Lemma merged_step (x k : bytes) ks {A} (sv dv d1 : option A) :
  d1 = (if decide (x ∈ [k]) then or_else sv dv else dv) →
  (if decide (x ∈ ks) then or_else sv d1 else d1) = if decide (x ∈ k :: ks) then or_else sv dv else dv.
Proof.
  intros ->. rewrite decide_one. destruct (decide (x = k)) as [->|Hne].
  - rewrite (decide_True (P := k ∈ k :: ks)) by constructor. case_decide; [apply or_else_twice|done].
  - rewrite (decide_ext (x ∈ k :: ks) (x ∈ ks)); [done|]. rewrite elem_of_cons. naive_solver.
Qed.

Lemma merge_keys_spec x dst ks :
  wok dst → wok (sx_world x) → Forall key_shape ks →
  merged (sx_world x) dst ks (foldl (merge_key x) dst ks).
Proof.
  intros Hd Hsw Hks. revert dst Hd. induction Hks as [|k ks Hk Hks IH]; intros dst Hd; cbn [foldl].
  { split; [done|]. split; [done|]. split; [done|]. by split. }
  destruct (merge_key_spec x dst k Hd Hsw Hk) as (Hd1 & P1 & S1 & A1 & T1).
  destruct (IH _ Hd1) as (Hd2 & P2 & S2 & A2 & T2).
  split; [done|]. split; [congruence|]. split; [|split].
  - rewrite S2, S1, decide_one. repeat case_decide; try done; set_solver.
  - intros a Ha. destruct (A1 a Ha) as [G1 C1], (A2 a Ha) as [G2 C2]. rewrite G2, C2.
    split; by apply merged_step.
  - intros b Hb. rewrite T2 by done. by apply merged_step, T1.
Qed.

Lemma merge_spec_ok x dst :
  wok dst → wok (sx_world x) → (∀ k, k ∈ sx_writes x → key_shape k) →
  ∃ ks, (∀ k, k ∈ ks ↔ k ∈ sx_writes x) ∧ merged (sx_world x) dst ks (merge_spec dst x).
Proof.
  intros Hd Hsw Hk. exists (btset_iter (sx_writes x)). split; [intros; apply elem_of_btset_iter|].
  apply merge_keys_spec; [done|done|]. apply Forall_forall. intros k Hin%elem_of_btset_iter. auto.
Qed.

(** A key of [K] merged: what the speculation has, or what both sides lack. *)
Lemma or_else_agree {A} (sv pv dv : option A) : (is_Some pv → is_Some sv) → pv = dv → or_else sv dv = sv.
Proof. intros Hs <-. destruct sv; [done|]. destruct pv; [|done]. by destruct Hs. Qed.

(** Merging a speculation made in [pre] into [dst], which agrees with [pre] on
    the keys and with [w] everywhere, gives what the transaction does to [w]. *)
Lemma merge_agree K x pre dst w w' :
  wok dst → locked K pre w (sx_world x) w' →
  (∀ k, k ∈ K → array 32 k ∨ k = STAKING_SLOT) →
  sx_writes x = (K ∪ storage_reads (sx_world x)) ∪ storage_writes (sx_world x) →
  agree (λ k, k ∈ K) pre dst → agree (λ _, True) dst w →
  wok (merge_spec dst x) ∧ agree (λ _, True) (merge_spec dst x) w'.
Proof.
  intros Hd (Hsw & _ & (A1 & A2 & A3 & A4) & ((_ & _ & _ & B0) & B1 & B2 & B3 & B4 & B5) & S2 & _) HK HW
    (C1 & C2 & C3 & C4) (D1 & D2 & D3 & D4).
  destruct S2 as ((E1 & E2 & E3 & E4) & _).
  assert (∀ k, k ∈ sx_writes x → k ∈ K ∨ (array 64 k ∧ take 32 k ∈ K)) as Hwr.
  { intros k. rewrite HW, !elem_of_union. intros [[?|?%B5]|(? & ? & _)%B4]; auto. }
  destruct (merge_spec_ok x dst Hd Hsw) as (ks & Hks & Hm & P & S & A & G).
  { intros k [[?|?]%HK|[? _]]%Hwr; unfold key_shape; auto. }
  assert (∀ a, array 32 a → a ∈ ks ↔ a ∈ K) as Hks32.
  { intros a Ha. rewrite Hks. split; [|rewrite HW; set_solver]. intros [?|[Hk _]]%Hwr; [done|].
    destruct Ha, Hk; congruence. }
  split; [done|]. split; [|split; [|split]].
  - intros a Ha _. destruct (A a Ha) as [-> ->]. destruct (D1 a Ha I) as [F1 F2].
    rewrite !(decide_ext (a ∈ ks) (a ∈ K)) by by apply Hks32. destruct (decide (a ∈ K)) as [Hin|Hin].
    + destruct (A1 a Ha Hin) as [<- <-], (C1 a Ha Hin). split; eapply or_else_agree; [exact (B1 a Ha)|done|exact (B2 a)|done].
    + destruct (E1 a Ha Hin). split; congruence.
  - intros k Hk _. rewrite (G k Hk). destruct (decide (take 32 k ∈ K)) as [Hin|Hin].
    + rewrite <- (A2 k Hk Hin). specialize (C2 k Hk Hin). destruct (decide (k ∈ ks)) as [Hkin|Hkin].
      * refine (or_else_agree _ _ _ _ C2). intros Hs.
        destruct (decide (k ∈ storage_writes (sx_world x))) as [(_ & _ & ?)%B4|Hn]; [done|].
        by rewrite (B3 k Hk Hn).
      * rewrite <- C2. symmetry. apply B3; [done|]. intros Hw. apply Hkin, Hks. rewrite HW. set_solver.
    + rewrite decide_False; [rewrite (D2 k Hk I); by apply E2|].
      intros [Hin'|[_ ?]]%Hks%Hwr; [|done]. destruct (HK k Hin') as [[Hl _]| ->]; destruct Hk; [congruence|done].
  - intros _. rewrite S. assert (STAKING_SLOT ∈ ks ↔ STAKING_SLOT ∈ K) as Hst.
    { rewrite Hks. split; [|rewrite HW; set_solver]. by intros [?|[[] _]]%Hwr. }
    rewrite (decide_ext _ (STAKING_SLOT ∈ K)) by done. destruct (decide (STAKING_SLOT ∈ K)); [by apply A3|]. rewrite (D3 I). by apply E3.
  - congruence.
Qed.

(** ** Version counters along a run *)

Lemma bump_keys_spec w ks slots (n : Z) :
  slots_ok slots → NoDup ks → Forall key_shape ks →
  (∀ k, slot_key k → ∃ l, latest slots k = Ok l ∧ 0 ≤ l ≤ n) → n < U64_MAX →
  slots_ok (foldl (bump_key w) slots ks) ∧
  ∀ k l, slot_key k → latest slots k = Ok l →
    latest (foldl (bump_key w) slots ks) k = Ok (if decide (k ∈ ks) then l + 1 else l).
Proof.
  intros Hs Hnd Hks Hl Hn.
  assert (∀ s : MemoryStore, slots_ok s → (∀ k l, slot_key k → k ∈ ks → latest s k = Ok l → 0 ≤ l ≤ n) →
    slots_ok (foldl (bump_key w) s ks) ∧
    ∀ k l, slot_key k → latest s k = Ok l →
      latest (foldl (bump_key w) s ks) k = Ok (if decide (k ∈ ks) then l + 1 else l)) as Hgen.
  { clear slots Hs Hl. induction Hks as [|k ks Hk Hks IH]; intros s Hs Hl; cbn [foldl].
    { split; [done|]. done. }
    apply NoDup_cons in Hnd as [Hnin Hnd].
    destruct (slots_ok_latest s k Hs (key_shape_slot k Hk)) as (l & El & _).
    assert (∃ val, bump_key w s k = (vwrite s k val).1) as [val ->].
    { unfold bump_key. destruct Hk as [Hk|[->|Hk]].
      - rewrite bool_decide_false by (intros ->; by destruct Hk). rewrite (proj1 Hk). cbn. eauto.
      - rewrite bool_decide_true by done. eauto.
      - rewrite bool_decide_false by (intros ->; by destruct Hk). rewrite (proj1 Hk). cbn. eauto. }
    pose proof (Hl k l (key_shape_slot k Hk) ltac:(constructor) El) as Hb.
    destruct (vwrite_slots s k val l Hs (key_shape_slot k Hk) El) as (s' & -> & Hs' & El' & Hoth); [lia|].
    cbn [fst]. destruct (IH Hnd s' Hs') as [Hs2 Hl2].
    { intros k' l' Hk' Hin E'. apply (Hl k'); [done|by constructor|]. rewrite <- Hoth; [done|done|congruence]. }
    split; [done|]. intros k' l' Hk' E'. destruct (decide (k' = k)) as [->|Hne].
    - rewrite (Hl2 k (l + 1)) by done. rewrite decide_False by done.
      rewrite decide_True by constructor. congruence.
    - rewrite (Hl2 k' l') by (try done; by rewrite Hoth). do 2 f_equal.
      rewrite (decide_ext (k' ∈ k :: ks) (k' ∈ ks)); [done|]. rewrite elem_of_cons. naive_solver. }
  apply Hgen; [done|]. intros k l Hk _ E. destruct (Hl k Hk) as (l' & E' & ?). congruence.
Qed.

Lemma bump_writes_spec w W slots (n : Z) :
  slots_ok slots → (∀ k, k ∈ W → key_shape k) →
  (∀ k, slot_key k → ∃ l, latest slots k = Ok l ∧ 0 ≤ l ≤ n) → n < U64_MAX →
  slots_ok (bump_writes slots w W) ∧
  ∀ k l, slot_key k → latest slots k = Ok l →
    latest (bump_writes slots w W) k = Ok (if decide (k ∈ W) then l + 1 else l).
Proof.
  intros Hs HW Hl Hn. unfold bump_writes.
  destruct (bump_keys_spec w (btset_iter W) slots n Hs (NoDup_btset_iter W)) as [Hs' Hl'].
  - apply Forall_forall. intros k Hk%elem_of_btset_iter. auto.
  - done.
  - done.
  - split; [done|]. intros k l Hk E. rewrite (Hl' k l Hk E). do 2 f_equal.
    apply decide_ext, elem_of_btset_iter.
Qed.

(** ** Speculation *)

Lemma observe_key_ok slots observed k l :
  slots_ok slots → slot_key k → latest slots k = Ok l →
  observe_key slots observed k = Some (<[k := l]> observed).
Proof.
  intros Hs Hk El. destruct (slots_ok_latest slots k Hs Hk) as (l' & E' & Hu).
  assert (l' = l) as -> by congruence. unfold observe_key. rewrite (latest_version_ok _ _ l El Hu).
  unfold vread. cbn. by destruct (l =? 0).
Qed.

(** Observed versions are the current ones. *)
Definition current (slots : MemoryStore) (observed : gmap bytes Z) : Prop :=
  map_Forall (λ k l, latest slots k = Ok l) observed.

Lemma observe_all_ok slots ks observed :
  slots_ok slots → Forall slot_key ks → current slots observed →
  ∃ o, observe_all slots ks observed = Some o ∧ current slots o ∧
    dom observed ⊆ dom o ∧ (∀ k, k ∈ ks → k ∈ dom o).
Proof.
  intros Hs Hks. revert observed. induction Hks as [|k ks Hk Hks IH]; intros observed Ho; cbn.
  { exists observed. split; [done|]. split; [done|]. split; [done|]. set_solver. }
  destruct (slots_ok_latest slots k Hs Hk) as (l & El & _).
  rewrite (observe_key_ok slots observed k l) by done.
  destruct (IH (<[k := l]> observed)) as (o & E & Hc & Hd & Hin); [by apply map_Forall_insert_2|].
  exists o. split; [done|]. split; [done|]. rewrite dom_insert in Hd. set_solver.
Qed.

Lemma observe_new_ok slots ks observed :
  slots_ok slots → Forall slot_key ks → current slots observed →
  ∃ o, observe_new slots ks observed = Some o ∧ current slots o ∧
    dom observed ⊆ dom o ∧ (∀ k, k ∈ ks → k ∈ dom o).
Proof.
  intros Hs Hks. revert observed. induction Hks as [|k ks Hk Hks IH]; intros observed Ho; cbn.
  { exists observed. split; [done|]. split; [done|]. split; [done|]. set_solver. }
  destruct (observed !! k) as [l|] eqn:El.
  { destruct (IH observed Ho) as (o & E & Hc & Hd & Hin). apply elem_of_dom_2 in El.
    exists o. split; [done|]. split; [done|]. set_solver. }
  destruct (slots_ok_latest slots k Hs Hk) as (l & E' & _).
  rewrite (observe_key_ok slots observed k l) by done.
  destruct (IH (<[k := l]> observed)) as (o & E & Hc & Hd & Hin); [by apply map_Forall_insert_2|].
  exists o. split; [done|]. split; [done|]. rewrite dom_insert in Hd. set_solver.
Qed.

(** What a speculation on [pre] with the counters [slots] is. *)
Definition spec_of pre (slots : MemoryStore) (i : nat) (s : SignedTx) (x : SpecTx T) : Prop :=
  sx_index x = i ∧ apply_tx pre s = Some (sx_world x, sx_receipt x) ∧
  sx_reads x = inferred_keys s ∪ storage_reads (sx_world x) ∧
  sx_writes x = writes_from (sx_receipt x) (sx_reads x) ∪ storage_writes (sx_world x) ∧
  (∀ k, k ∈ sx_reads x → key_shape k) ∧
  ∀ k, k ∈ sx_reads x → ∃ l, sx_observed x !! k = Some l ∧ latest slots k = Ok l.

Lemma speculate_one_ok i pre s slots :
  wok pre → signed_wf s → slots_ok slots →
  ∃ x, speculate_one i pre s slots = Some x ∧ spec_of pre slots i s x.
Proof.
  intros Hw Hs Hsl. unfold speculate_one.
  assert (∀ W : gset bytes, (∀ k, k ∈ W → key_shape k) → Forall slot_key (btset_iter W)) as Hfor.
  { intros W HW. apply Forall_forall. intros k Hk%elem_of_btset_iter. auto using key_shape_slot. }
  destruct (observe_all_ok slots (btset_iter (inferred_keys s)) ∅ Hsl) as (o & -> & Ho & _).
  { apply Hfor. intros k [?|?]%keys_shape; unfold key_shape; auto. }
  { apply map_Forall_empty. }
  destruct (apply_tx_lockstep s pre pre Hw Hw Hs (agree_refl _ _)) as (w' & ? & r & E & _ & Hl). rewrite E.
  destruct Hl as (_ & _ & _ & (_ & _ & _ & _ & _ & Hr) & _).
  assert (∀ k, k ∈ inferred_keys s ∪ storage_reads w' → key_shape k) as Hshape.
  { intros k [[?|?]%keys_shape|[? _]%Hr]%elem_of_union; unfold key_shape; auto. }
  destruct (observe_new_ok slots (btset_iter (inferred_keys s ∪ storage_reads w')) o Hsl)
    as (o' & -> & Ho' & _ & Hin); [by apply Hfor|done|].
  eexists. split; [done|]. do 5 (split; [done|]). cbn. intros k Hk%elem_of_btset_iter%Hin.
  apply elem_of_dom in Hk as [l Hl]. exists l. split; [done|]. by apply Ho'.
Qed.

Lemma speculate_from_ok i pre txs slots :
  wok pre → Forall signed_wf txs → slots_ok slots →
  ∃ xs, speculate_from i pre txs slots = Some xs ∧ length xs = length txs ∧
    ∀ j s, txs !! j = Some s → ∃ x, xs !! j = Some x ∧ spec_of pre slots (i + j) s x.
Proof.
  intros Hw Hf Hsl. revert i. induction Hf as [|s txs Hs Hf IH]; intros i; cbn; [by exists []|].
  destruct (speculate_one_ok i pre s slots Hw Hs Hsl) as (x & -> & Hx).
  destruct (IH (S i)) as (xs & -> & Hlen & Hxs).
  exists (x :: xs). split; [done|]. split; [cbn; congruence|]. intros [|j] s' E; cbn in *.
  - simplify_eq. exists x. by rewrite Nat.add_0_r.
  - destruct (Hxs j s' E) as (x' & ? & ?). exists x'. by rewrite Nat.add_succ_r.
Qed.

(** ** Seeding *)

(** Every counter is at zero or one. *)
Definition seeded (slots : MemoryStore) : Prop :=
  slots_ok slots ∧ ∀ k, slot_key k → ∃ l, latest slots k = Ok l ∧ 0 ≤ l ≤ 1.

Lemma seeded_new : seeded MemoryStore_new.
Proof.
  split; [apply slots_ok_new|]. intros k _. exists 0. split; [|lia].
  unfold latest. cbn. by rewrite lookup_empty.
Qed.

Lemma seed_write_ok slots k val :
  seeded slots → slot_key k → ∃ slots', seed_write slots k val = Some slots' ∧ seeded slots'.
Proof.
  intros [Hs Hl] Hk. destruct (Hl k Hk) as (l & El & Hb). unfold seed_write, vvalidate. rewrite El. cbn.
  destruct (Z.eqb_spec l 0) as [->|Hne]; [|by exists slots].
  destruct (vwrite_slots slots k val 0 Hs Hk El) as (s' & -> & Hs' & El' & Hoth); [uint; lia|].
  exists s'. split; [done|]. split; [done|]. intros k' Hk'.
  destruct (decide (k' = k)) as [->|]; [exists 1; split; [done|lia]|]. rewrite Hoth by done. by apply Hl.
Qed.

Lemma seed_value_ok w slots k :
  seeded slots → slot_key k → ∃ slots', seed_value w slots k = Some slots' ∧ seeded slots'.
Proof.
  intros Hs Hk. unfold seed_value.
  destruct (length k =? 32)%nat; [destruct (acct_get _ _)|destruct (length k =? 64)%nat; [destruct (trie_get _ _)|]];
    eauto using seed_write_ok.
Qed.

Lemma seed_and_read_ok w ks slots observed :
  seeded slots → Forall slot_key ks →
  ∃ slots' o, seed_and_read w ks slots observed = Some (slots', o) ∧ seeded slots'.
Proof.
  intros Hs Hks. revert slots observed Hs. induction Hks as [|k ks Hk Hks IH]; intros slots observed Hs; cbn.
  { by eexists _, _. }
  case_bool_decide.
  - destruct (proj2 Hs k Hk) as (l & El & _). unfold vvalidate. rewrite El. cbn.
    destruct (l =? 0); by apply IH.
  - destruct (seed_value_ok w slots k Hs Hk) as (s' & -> & Hs').
    destruct (proj2 Hs' k Hk) as (l & El & _).
    rewrite (observe_key_ok s' observed k l); [by apply IH|apply Hs'|done|done].
Qed.

(** ** Validation *)

Lemma stale_keys_ok slots observed ks :
  slots_ok slots → Forall slot_key ks →
  ∃ b, stale_keys slots observed ks = Some b ∧
    (b = false → ∀ k l, k ∈ ks → observed !! k = Some l → latest slots k = Ok l).
Proof.
  intros Hs Hks. induction Hks as [|k ks Hk Hks (b & E & Hb)]; cbn.
  { exists false. split; [done|]. intros _ k l Hk. by apply not_elem_of_nil in Hk. }
  destruct (observed !! k) as [obs|] eqn:Eo.
  2: { exists b. split; [done|]. intros Hf k' l [->|Hin]%elem_of_cons El; [congruence|by apply Hb]. }
  destruct (slots_ok_latest slots k Hs Hk) as (l & El & Hu). unfold vvalidate. rewrite El. cbn.
  destruct (Z.eqb_spec l obs) as [->|]; [|by exists true].
  rewrite (latest_version_ok _ _ obs El Hu). exists b. split; [done|].
  intros Hf k' l' [->|Hin]%elem_of_cons El'; [by simplify_eq|by apply Hb].
Qed.

Lemma validate_ok (specs : list (SpecTx T)) slots sched :
  slots_ok slots → (∀ x k, x ∈ specs → k ∈ sx_reads x → slot_key k) →
  ∃ idx, validate specs slots sched = Some idx ∧
    ∀ x k l, x ∈ specs → sx_index x ∉ idx → k ∈ sx_reads x → sx_observed x !! k = Some l →
      latest slots k = Ok l.
Proof.
  intros Hs Hsh. induction specs as [|x specs IH]; cbn.
  { exists ∅. split; [done|]. intros x k l Hx. by apply not_elem_of_nil in Hx. }
  destruct (stale_keys_ok slots (sx_observed x) (btset_iter (sx_reads x)) Hs) as (b & -> & Hb).
  { apply Forall_forall. intros k Hk%elem_of_btset_iter. apply (Hsh x); [constructor|done]. }
  destruct IH as (idx & -> & Hidx). { intros y k Hy. apply Hsh. by constructor. }
  eexists. split; [done|]. intros y k l [->|Hy]%elem_of_cons Hn Hk Ho.
  - destruct b; [set_solver|]. by apply (Hb eq_refl); [apply elem_of_btset_iter|].
  - apply (Hidx y); [done|destruct b; set_solver|done|done].
Qed.

Lemma revalidate_ok (rest : list (SpecTx T)) slots stale :
  slots_ok slots → (∀ x k, x ∈ rest → k ∈ sx_reads x → slot_key k) →
  ∃ stale', revalidate rest slots stale = Some stale' ∧
    ∀ x k l, x ∈ rest → sx_index x ∉ stale' → k ∈ sx_reads x → sx_observed x !! k = Some l →
      latest slots k = Ok l.
Proof.
  intros Hs Hsh. unfold revalidate. destruct rest as [|x xs] eqn:Er.
  { exists stale. split; [done|]. intros y k l Hy. by apply not_elem_of_nil in Hy. }
  rewrite <- Er in *. clear Er x xs.
  destruct (conflict_graph_spec rest) as (g & -> & Hg & _).
  destruct (schedule_total g (graph_ok_symmetric g Hg)) as (ws & -> & _).
  destruct (validate_ok rest slots ws Hs Hsh) as (idx & -> & Hidx).
  eexists. split; [done|]. intros y k l Hy Hn. apply (Hidx y); [done|set_solver].
Qed.

(** ** The commit loop *)

Section commit.
Context (pre : World T) (slots0 : MemoryStore) (block : list SignedTx) (specs : list (SpecTx T)).
Hypothesis Hpre : wok pre.
Hypothesis Hseed : seeded slots0.
Hypothesis Hn : len block < U64_MAX.
Hypothesis Hlen : length specs = length block.
Hypothesis Hspecs : ∀ i s, block !! i = Some s → ∃ x, specs !! i = Some x ∧ spec_of pre slots0 i s x.

(** After [i] transactions: the committed world is the sequential one, and
    what a slot stands for is still as in [pre] unless its counter has moved. *)
Definition commit_inv (i : nat) w wseq (slots : MemoryStore) : Prop :=
  wok w ∧ wok wseq ∧ agree (λ _, True) w wseq ∧ slots_ok slots ∧
  ∀ k l0, slot_key k → latest slots0 k = Ok l0 →
    ∃ l, latest slots k = Ok l ∧ l0 ≤ l ≤ l0 + Z.of_nat i ∧ (l = l0 → agree (λ k', k' = k) pre w).

(** Advancing the counters of [W], where the world changed only in [W]. *)
Lemma commit_inv_bump i w wseq slots w' wseq' W wb :
  (i < length block)%nat → commit_inv i w wseq slots → wok w' → wok wseq' → agree (λ _, True) w' wseq' →
  (∀ k, k ∈ W → key_shape k) → (∀ k, slot_key k → k ∉ W → agree (λ k', k' = k) w w') →
  commit_inv (S i) w' wseq' (bump_writes slots wb W).
Proof.
  intros Hi (_ & _ & _ & Hs & Hl) Hw' Hwseq' Hag HW Hch.
  assert (∀ k, slot_key k → ∃ l, latest slots k = Ok l ∧ 0 ≤ l ≤ 1 + Z.of_nat i) as Hb.
  { intros k Hk. destruct (proj2 Hseed k Hk) as (l0 & E0 & ?). destruct (Hl k l0 Hk E0) as (l & E & ? & _).
    exists l. split; [done|lia]. }
  destruct (bump_writes_spec wb W slots (1 + Z.of_nat i) Hs HW Hb) as [Hs' Hl']; [lia|].
  do 4 (split; [done|]). intros k l0 Hk E0. destruct (Hl k l0 Hk E0) as (l & E & Hle & Hsame).
  rewrite (Hl' k l Hk E). eexists. split; [done|]. destruct (decide (k ∈ W)) as [Hin|Hin].
  - split; [lia|]. lia.
  - split; [lia|]. intros ->. eapply agree_trans; [by apply Hsame|by apply Hch].
Qed.

Lemma agree_keys (P : bytes → Prop) w1 w2 : (∀ k, slot_key k → P k → agree (λ k', k' = k) w1 w2) →
  params w1 = params w2 → agree P w1 w2.
Proof.
  intros Hk Hp. split; [|split; [|split]]; [..|done].
  - intros a Ha Hin. apply (Hk a); [right; left; apply Ha|done|done|done].
  - intros k Hk64 Hin. apply (Hk (take 32 k)); [|done|done|done]. right. left.
    rewrite length_take. destruct Hk64. lia.
  - intros Hin. by apply (Hk STAKING_SLOT); [left| |].
Qed.

(** Both ways of committing a transaction give what it does sequentially. *)
Lemma commit_tx_ok i w wseq am slots s x stale :
  (i < length block)%nat → commit_inv i w wseq slots → run_ok wseq am [s] → spec_of pre slots0 i s x →
  (i ∉ stale → ∀ k, k ∈ inferred_keys s → latest slots k = latest slots0 k) →
  params pre = params w →
  ∃ w' slots' r wseq', commit_tx i w s slots x stale = Some (w', slots', r) ∧
    apply_tx wseq s = Some (wseq', r) ∧ commit_inv (S i) w' wseq' slots' ∧ params w' = params w.
Proof.
  intros Hi Hinv (Hok & Hsup & Hnu & [Hs _]%Forall_cons) Hx Hstale Hpar.
  pose proof Hinv as (Hw & Hwseq & Hag & Hsl & Hver). cbn in Hnu.
  assert (∀ wseq' r, apply_tx wseq s = Some (wseq', r) → success r = false → agree (λ _, True) wseq wseq') as Hfail.
  { intros wseq' r E Hr. destruct (apply_tx_outcome wseq am s Hok Hsup) as (? & ? & E' & _ & Hsame & _); [lia|done|].
    rewrite E in E'. simplify_eq. by apply same_state_agree, Hsame. }
  assert (∀ k, k ∈ inferred_keys s → key_shape k) as HKs.
  { intros k [?|?]%keys_shape; unfold key_shape; auto. }
  set (K := inferred_keys s) in *. unfold commit_tx. case_bool_decide as Hst.
  - destruct Hx as (_ & Epre & Hreads & Hwrites & Hrs & _).
    assert (agree (λ k, k ∈ K) pre w) as Hpw.
    { apply agree_keys; [|done]. intros k Hk Hin. destruct (proj2 Hseed k Hk) as (l0 & E0 & _).
      destruct (Hver k l0 Hk E0) as (l & E & _ & Hsame). apply Hsame.
      rewrite (Hstale Hst k Hin), E0 in E. congruence. }
    assert (agree (λ k, k ∈ K) pre wseq) as Hps.
    { eapply agree_trans; [done|]. by eapply agree_mono; [|exact Hag]. }
    destruct (apply_tx_lockstep s pre wseq Hpre Hwseq Hs Hps) as (sw & wseq' & r & E1 & E2 & Hl).
    rewrite Epre in E1. injection E1 as <- <-. fold K in Hl.
    pose proof Hl as (_ & Hwseq' & _ & (_ & _ & _ & _ & Hsw & _) & Hst2 & _).
    unfold writes_from in Hwrites. destruct (success (sx_receipt x)) eqn:Er.
    + destruct (merge_agree K x pre w wseq wseq' Hw Hl) as [Hm Hma]; [by intros; apply (keys_shape s)|by rewrite Hwrites, Hreads|done|done|].
      eexists _, _, _, wseq'. split; [done|]. split; [done|]. split.
      * apply (commit_inv_bump i w wseq slots); try done.
        -- intros k. rewrite Hwrites, elem_of_union. intros [?|(? & _)%Hsw]; [auto|unfold key_shape; auto].
        -- intros k Hk Hnk. assert (k ∉ K) by (rewrite Hwrites, Hreads in Hnk; set_solver).
           eapply agree_trans; [|by eapply agree_sym, agree_mono; [|exact Hma]].
           eapply agree_trans; [by eapply agree_mono; [|exact Hag]|].
           eapply agree_mono; [|exact (proj1 Hst2)]. by intros ? ->.
      * destruct Hma as (_ & _ & _ & ->). destruct Hst2 as ((_ & _ & _ & <-) & _).
        by destruct Hag as (_ & _ & _ & ->).
    + assert (sx_writes x = ∅) as HW0.
      { rewrite Hwrites, union_empty_l_L. by apply (apply_tx_fail_writes _ _ _ _ Epre). }
      eexists _, _, _, wseq'. split; [done|]. split; [done|].
      assert (merge_spec w x = w) as -> by (unfold merge_spec; by rewrite HW0). split; [|done].
      apply (commit_inv_bump i w wseq slots); try done.
      * eapply agree_trans; [exact Hag|]. by apply (Hfail _ _ E2).
      * intros k. rewrite HW0. set_solver.
  - destruct (apply_tx_lockstep s w wseq Hw Hwseq Hs) as (w' & wseq' & r & E1 & E2 & Hl).
    { by eapply agree_mono; [|exact Hag]. }
    fold K in Hl. rewrite E1. pose proof Hl as (Hw' & Hwseq' & HK & Hst1 & Hst2 & _).
    assert (agree (λ _, True) w' wseq') as Hag'.
    { apply (agree_split _ (λ k, k ∈ K)); [by eapply agree_mono; [|exact HK]; intros ? [_ ?]|].
      eapply agree_trans; [eapply agree_sym, agree_mono; [|exact (proj1 Hst1)]; by intros ? [_ ?]|].
      eapply agree_trans; [by eapply agree_mono; [|exact Hag]|].
      eapply agree_mono; [|exact (proj1 Hst2)]; by intros ? [_ ?]. }
    eexists _, _, _, wseq'. split; [done|]. split; [done|]. split; [|by destruct Hst1 as ((_ & _ & _ & ->) & _)].
    apply (commit_inv_bump i w wseq slots); try done.
    + intros k. rewrite elem_of_union. destruct Hst1 as (_ & _ & _ & _ & Hsw & _).
      intros [Hin|(? & _)%Hsw]; [|unfold key_shape; auto]. destruct (success r); [auto|set_solver].
    + intros k Hk Hnk. destruct (success r) eqn:Er.
      * eapply agree_mono; [|exact (proj1 Hst1)]. intros ? ->. set_solver.
      * eapply agree_trans; [by eapply agree_mono; [|exact Hag]|].
        eapply agree_trans; [by eapply agree_mono; [|exact (Hfail _ _ E2 Er)]|].
        by eapply agree_mono; [|exact (agree_sym _ _ _ Hag')].
Qed.

Lemma spec_lookup i x : specs !! i = Some x → ∃ s, block !! i = Some s ∧ spec_of pre slots0 i s x.
Proof.
  intros E. destruct (lookup_lt_is_Some_2 block i) as [s Es].
  { rewrite <- Hlen. by apply lookup_lt_Some in E. }
  exists s. split; [done|]. destruct (Hspecs i s Es) as (x' & E' & Hx). congruence.
Qed.

(** A speculation that is not marked stale has observed the current versions. *)
Definition stale_ok (i : nat) (slots : MemoryStore) (stale : gset nat) : Prop :=
  ∀ j x k, (i ≤ j)%nat → specs !! j = Some x → j ∉ stale → k ∈ sx_reads x →
    latest slots k = latest slots0 k.

Lemma revalidate_stale_ok i slots stale :
  slots_ok slots →
  ∃ stale', revalidate (drop (S i) specs) slots stale = Some stale' ∧ stale_ok (S i) slots stale'.
Proof.
  intros Hs.
  destruct (revalidate_ok (drop (S i) specs) slots stale Hs) as (stale' & E & Hst).
  { intros x k [j Hj]%list_elem_of_lookup Hk. rewrite lookup_drop in Hj.
    destruct (spec_lookup _ _ Hj) as (s & _ & (_ & _ & _ & _ & Hsh & _)). by apply key_shape_slot, Hsh. }
  exists stale'. split; [done|]. intros j x k Hj Ex Hn' Hk.
  destruct (spec_lookup _ _ Ex) as (s & _ & (Hidx & _ & _ & _ & _ & Ho)).
  destruct (Ho k Hk) as (l & Eo & ->). apply (Hst x); [|by rewrite Hidx|done|done].
  apply list_elem_of_lookup. exists (j - S i)%nat. rewrite lookup_drop. by replace (S i + (j - S i))%nat with j by lia.
Qed.

Lemma run_ok_step w am s txs w' r :
  run_ok w am (s :: txs) → apply_tx w s = Some (w', r) → ∃ am', run_ok w' am' txs.
Proof.
  intros (Hw & Hsup & Hnu & [Hs Hf]%Forall_cons) E. rewrite length_cons in Hnu.
  destruct (apply_tx_outcome w am s Hw Hsup) as (w1 & r1 & E' & _ & _ & Hnu' & Hok); [lia|done|].
  rewrite E in E'. injection E' as <- <-. destruct (Hok (ideal _)) as (am' & Hw' & Hsup' & _).
  pose proof (burned_nonneg (st_tx s) r Hs). exists am'. split; [done|]. split; [lia|]. split; [lia|done].
Qed.

Lemma reexec_loop_ok txs i w wseq am slots stale :
  drop i block = txs → commit_inv i w wseq slots → run_ok wseq am txs → params pre = params w →
  stale_ok i slots stale →
  ∃ w' wseq' rs, reexec_loop i txs specs w slots stale = Some (w', rs) ∧
    apply_txs wseq txs = Some (wseq', rs) ∧ wok w' ∧ wok wseq' ∧ agree (λ _, True) w' wseq'.
Proof.
  revert i w wseq am slots stale.
  induction txs as [|s txs IH]; intros i w wseq am slots stale Hd Hinv Hrun Hpar Hst; cbn [reexec_loop apply_txs].
  { destruct Hinv as (? & ? & ? & _). by exists w, wseq, []. }
  assert (block !! i = Some s) as Es by (rewrite <- (Nat.add_0_r i), <- lookup_drop; by rewrite Hd).
  destruct (Hspecs i s Es) as (x & Ex & Hx). rewrite Ex.
  assert (run_ok wseq am [s]) as Hrun1.
  { destruct Hrun as (H1 & H2 & H3 & [H4 _]%Forall_cons). rewrite length_cons in H3.
    split; [done|]. split; [done|]. split; [cbn; lia|by constructor]. }
  destruct (commit_tx_ok i w wseq am slots s x stale) as (w1 & slots1 & r & wseq1 & -> & E2 & Hinv1 & Hp1);
    [by apply lookup_lt_Some in Es|done|done|done| |done|].
  { intros Hns k Hk. apply (Hst i x); [done|done|done|]. destruct Hx as (_ & _ & -> & _). set_solver. }
  rewrite E2. destruct (revalidate_stale_ok i slots1 stale) as (stale1 & -> & Hst1); [apply Hinv1|].
  destruct (run_ok_step _ _ _ _ _ _ Hrun E2) as [am1 Hrun2].
  destruct (IH (S i) w1 wseq1 am1 slots1 stale1) as (w' & wseq' & rs & -> & -> & Hrest);
    [by rewrite (drop_S block s i Es) in Hd; injection Hd|done|done|congruence|done|].
  by exists w', wseq', (r :: rs).
Qed.

End commit.

(** ** The engine *)

Lemma block_keys_shape txs k : Forall signed_wf txs → k ∈ block_keys txs → key_shape k.
Proof.
  intros Hf. unfold block_keys.
  assert (∀ K : gset bytes, (∀ k, k ∈ K → key_shape k) →
    ∀ k, k ∈ foldl (λ keys tx, keys ∪ inferred_keys tx) K txs → key_shape k) as Hgen; [|apply Hgen; set_solver].
  clear k. induction Hf as [|s txs Hs Hf IH]; intros K HK; cbn; [done|]. apply IH.
  intros k [?|[?|?]%(keys_shape s)]%elem_of_union; [by apply HK|unfold key_shape; auto..].
Qed.

(** The commit of a block: no panic on the way, and the sequential result. *)
Lemma commit_matches pre am block :
  run_ok pre am (b_txs block) → sok (w_storage pre) → len (b_txs block) < U64_MAX →
  ∃ slots o specs g sched more w' wseq rs,
    seed_and_read pre (btset_iter (block_keys (b_txs block))) MemoryStore_new ∅ = Some (slots, o) ∧
    speculate pre (b_txs block) slots = Some specs ∧ conflict_graph specs = Some g ∧
    schedule g = Some sched ∧ validate specs slots sched = Some more ∧
    reexec_sequential pre block slots specs (more ∪ stale_from_earlier_writes specs) = Some (w', rs) ∧
    apply_txs pre (b_txs block) = Some (wseq, rs) ∧
    wok w' ∧ wok wseq ∧ agree (λ _, True) w' wseq.
Proof.
  intros Hrun Hsto Hlen. pose proof Hrun as ((Ha & Hb & Hv) & _ & _ & Hf).
  assert (wok pre) as Hw by (split; [by exists am|done]).
  destruct (seed_and_read_ok pre (btset_iter (block_keys (b_txs block))) MemoryStore_new ∅ seeded_new)
    as (slots & o & E1 & Hseed).
  { apply Forall_forall. intros k Hk%elem_of_btset_iter. by apply key_shape_slot, (block_keys_shape (b_txs block)). }
  destruct (speculate_from_ok 0 pre (b_txs block) slots Hw Hf (proj1 Hseed)) as (specs & E2 & Hl & Hspecs).
  destruct (conflict_graph_spec specs) as (g & E3 & Hg & _).
  destruct (schedule_total g (graph_ok_symmetric g Hg)) as (sched & E4 & _).
  destruct (validate_ok specs slots sched (proj1 Hseed)) as (more & E5 & _).
  { intros x k [j Hj]%list_elem_of_lookup Hk.
    destruct (spec_lookup pre slots (b_txs block) specs Hl Hspecs j x Hj) as (s & _ & (_ & _ & _ & _ & Hsh & _)).
    by apply key_shape_slot, Hsh. }
  destruct (reexec_loop_ok pre slots (b_txs block) specs Hw Hseed Hlen Hl Hspecs (b_txs block) 0 pre pre am slots
    (more ∪ stale_from_earlier_writes specs)) as (w' & wseq & rs & E6 & E7 & H1 & H2 & H3); [done| |done|done|done|].
  { do 3 (split; [done|]). split; [apply Hseed|]. intros k l0 Hk E0. exists l0. split; [done|]. split; [lia|done]. }
  by exists slots, o, specs, g, sched, more, w', wseq, rs.
Qed.


End spec.

(** ** Witness: three transfers of one sender, the second one a repetition *)

#[local] Existing Instances toy_crypto toy_crypto_laws map_trie map_trie_laws toy_wasm.

(** The engine runs: the second transfer is rejected, and the third one, stale
    after the first, is executed again. *)
Example stm_toy_run :
  match stm_apply_block toy_start toy_block with
  | Some (_, rs, _) => success <$> rs
  | None => []
  end = [true; false; true].
Proof. vm_compute. reflexivity. Qed.

