(* ===== verification/Builder.v ===== *)
(** Block building: [execution/src/builder.rs], with the mempool as its source
    of transactions.

    Shown: whatever the source offers, a built block is within the gas and
    byte limits of the genesis parameters and its header commits to exactly
    the result of executing it ([built_block_commits]); and with the mempool
    as the source, building succeeds and takes over the whole selection, in
    order ([mempool_block_complete]). *)

From S2P Require Import Prelude Types Codec Crypto Merkle Store MptSpec Tries ExecBase Vote Staking Wasm Mempool Exec ExecSpec.
From stdpp Require Import list.

#[local] Open Scope Z_scope.
#[local] Open Scope l1_scope.

(** The trait; [None] is a panic. *)
Class ReadyTxs (P : Type) := {
  ready_take : P → Z → Z → option (P * list SignedTx);
}.

#[export] Instance mempool_ready `{!Crypto} : ReadyTxs Mempool := {| ready_take := take_ready |}.

Record BuiltBlock (T : Type) := {
  bb_block : Block;
  bb_header : Header;
  bb_world : World T;
  bb_receipts : list Receipt;
  bb_app_hash : Hash;
}.
Arguments bb_block {T} _.
Arguments bb_header {T} _.
Arguments bb_world {T} _.
Arguments bb_receipts {T} _.
Arguments bb_app_hash {T} _.

Section builder.
Context {T : Type} `{!TrieImpl T} `{!Crypto} `{!Wasm} {P : Type} `{!ReadyTxs P}.

(** [for signed in candidates]; [None] is the panic of [Tx::encode]. *)
Fixpoint select (candidates : list SignedTx) (max_gas max_bytes gas_used bytes_used : Z)
    (txs : list SignedTx) : option (list SignedTx) :=
  match candidates with
  | [] => Some txs
  | signed :: candidates =>
      match gas_meter (st_tx signed) with
      | Err _ => select candidates max_gas max_bytes gas_used bytes_used txs
      | Ok g =>
          match tx_encode (st_tx signed) with
          | None => None
          | Some enc =>
              let b := u32_or_max (len enc) in
              if sat_add U64_MAX gas_used g >? max_gas
              then select candidates max_gas max_bytes gas_used bytes_used txs
              else if sat_add U32_MAX bytes_used b >? max_bytes
              then select candidates max_gas max_bytes gas_used bytes_used txs
              else select candidates max_gas max_bytes (sat_add U64_MAX gas_used g)
                     (sat_add U32_MAX bytes_used b) (txs ++ [signed])
          end
      end
  end.

Definition build_local (pool : P) (genesis : Genesis) (pre : World T) (fields : HeaderFields) :
    option (P * BuiltBlock T) :=
  match params_get (gp_registry (g_params genesis)) MaxGas with
  | None => None
  | Some max_gas =>
      match params_get (gp_registry (g_params genesis)) MaxBlockBytes with
      | None => None
      | Some mb =>
          let max_bytes := as_u32 mb in
          match ready_take pool max_gas max_bytes with
          | None => None
          | Some (pool, candidates) =>
              match select candidates max_gas max_bytes 0 0 [] with
              | None => None
              | Some txs =>
                  let block := {| b_header_fields := fields; b_txs := txs |} in
                  match apply_block pre block with
                  | None => None
                  | Some (world, receipts, app) =>
                      match tx_root_signed (b_txs block) with
                      | None => None
                      | Some tx_r =>
                          let rec_r := Merkle.receipts_root (receipt_encode <$> receipts) in
                          let st := commit_state_root world in
                          let header :=
                            {| h_fields := b_header_fields block; h_tx_root := tx_r; h_state_root := st;
                               h_receipts_root := rec_r;
                               h_validators_hash := validators_hash (g_validators genesis);
                               h_da_root := DA_ROOT_PLACEHOLDER |} in
                          Some (pool, {| bb_block := block; bb_header := header; bb_world := world;
                                         bb_receipts := receipts; bb_app_hash := app |})
                      end
                  end
              end
          end
      end
  end.

(** ** The selection of the builder *)

Lemma sumZ_snoc {A : Type} (f : A → Z) l x : sumZ f (l ++ [x]) = sumZ f l + f x.
Proof. rewrite <- Permutation_cons_append, sumZ_cons. lia. Qed.

Lemma tx_size_enc s enc : tx_encode (st_tx s) = Some enc → tx_size s = len enc.
Proof. intros E. unfold tx_size. by rewrite E. Qed.

Lemma select_ok candidates G B gas bytes txs r :
  select candidates G B gas bytes txs = Some r → G < U64_MAX → B < U32_MAX →
  gas = sumZ gas_of txs → bytes = sumZ tx_size txs → 0 ≤ gas ≤ G → 0 ≤ bytes ≤ B →
  ∃ l, r = txs ++ l ∧ l `sublist_of` candidates ∧ sumZ gas_of r ≤ G ∧ sumZ tx_size r ≤ B.
Proof.
  revert gas bytes txs. induction candidates as [|s l IH]; intros gas bytes txs E HG HB Eg Eb Hg Hb; cbn in E.
  { simplify_eq. exists []. rewrite app_nil_r. repeat split; [constructor|lia..]. }
  assert (select l G B gas bytes txs = Some r → ∃ l0, r = txs ++ l0 ∧ l0 `sublist_of` s :: l ∧
    sumZ gas_of r ≤ G ∧ sumZ tx_size r ≤ B) as Hskip.
  { intros (l0 & H1 & H2 & H3)%IH; [|done..]. exists l0. split; [done|]. split; [by apply sublist_cons|done]. }
  destruct (gas_meter (st_tx s)) as [g|e] eqn:Em; [|by apply Hskip].
  destruct (tx_encode (st_tx s)) as [enc|] eqn:Ee; [|done].
  pose proof (gas_meter_nonneg _ _ Em) as Hg0. pose proof (tx_size_enc s enc Ee) as Hsz.
  rewrite !Z.gtb_ltb in E. case_match eqn:E1; [by apply Hskip|]. case_match eqn:E2; [by apply Hskip|].
  clear Hskip. bsimpl. unfold sat_add, u32_or_max in *.
  destruct (Z.leb_spec (len enc) U32_MAX) as [Hle|Hgt]; [|lia]. rewrite !Z.min_r in E by lia.
  apply IH in E as (l0 & -> & Hl & H3 & H4); [|done|done|..].
  - exists (s :: l0). rewrite <- app_assoc in *. split; [done|]. split; [by apply sublist_skip|done].
  - rewrite sumZ_snoc. unfold gas_of at 2. rewrite Em. lia.
  - rewrite sumZ_snoc. lia.
  - lia.
  - lia.
Qed.

Lemma gas_sum_nonneg l : 0 ≤ sumZ gas_of l.
Proof.
  apply sumZ_nonneg, Forall_forall. intros t _. unfold gas_of.
  destruct (gas_meter (st_tx t)) eqn:E; [by eapply gas_meter_nonneg|done].
Qed.

Lemma size_sum_nonneg l : 0 ≤ sumZ tx_size l.
Proof. apply sumZ_nonneg, Forall_forall. intros t _. apply tx_size_nonneg. Qed.

Lemma select_all candidates G B txs :
  G < U64_MAX → B < U32_MAX →
  Forall (λ s, is_ok (gas_meter (st_tx s)) = true ∧ tx_wf (st_tx s)) candidates →
  sumZ gas_of (txs ++ candidates) ≤ G → sumZ tx_size (txs ++ candidates) ≤ B →
  select candidates G B (sumZ gas_of txs) (sumZ tx_size txs) txs = Some (txs ++ candidates).
Proof.
  intros HG HB Hf. revert txs. induction Hf as [|s l [Hm Hw] Hf IH]; intros txs Hg Hb; cbn [select].
  { by rewrite app_nil_r. }
  destruct (gas_meter (st_tx s)) as [g|e] eqn:Em; [|done]. destruct (tx_encode_total _ Hw) as [enc Ee]. rewrite Ee.
  pose proof (gas_meter_nonneg _ _ Em) as Hg0. pose proof (tx_size_enc s enc Ee) as Hsz.
  assert (gas_of s = g) as Hgs by (unfold gas_of; by rewrite Em).
  pose proof (gas_sum_nonneg l). pose proof (size_sum_nonneg l).
  pose proof (gas_sum_nonneg txs). pose proof (size_sum_nonneg txs).
  specialize (IH (txs ++ [s])). rewrite <- app_assoc, !sumZ_snoc in IH. cbn [app] in IH.
  rewrite sumZ_app, sumZ_cons in Hg, Hb. unfold sat_add, u32_or_max.
  rewrite (proj2 (Z.leb_le (len enc) _)) by lia. rewrite !Z.min_r, !Z.gtb_ltb by lia.
  rewrite !(proj2 (Z.ltb_ge _ _)) by lia. rewrite <- Hgs, <- Hsz. apply IH; rewrite sumZ_app, sumZ_cons; lia.
Qed.

(** A successful build: the candidates, and the execution of the block. *)
Lemma build_local_exec pool genesis pre fields pool' b :
  build_local pool genesis pre fields = Some (pool', b) →
  h_fields (bb_header b) = fields ∧ b_header_fields (bb_block b) = fields ∧
  apply_block pre (bb_block b) = Some (bb_world b, bb_receipts b, bb_app_hash b) ∧
  ∃ max_gas mb candidates, params_get (gp_registry (g_params genesis)) MaxGas = Some max_gas ∧
    params_get (gp_registry (g_params genesis)) MaxBlockBytes = Some mb ∧
    ready_take pool max_gas (as_u32 mb) = Some (pool', candidates) ∧
    select candidates max_gas (as_u32 mb) 0 0 [] = Some (b_txs (bb_block b)).
Proof.
  unfold build_local. destruct (params_get _ MaxGas) as [max_gas|]; [|done].
  destruct (params_get _ MaxBlockBytes) as [mb|]; [|done].
  destruct (ready_take _ _ _) as [[p' candidates]|] eqn:Et; [|done].
  destruct (select candidates _ _ 0 0 []) as [txs|] eqn:Es; [|done].
  destruct (apply_block pre _) as [[[w rs] app]|] eqn:Ea; [|done]. cbn [b_txs].
  destruct (tx_root_signed txs) as [tx_r|]; [|done]. intros [= <- <-]. cbn. split; [done|]. split; [done|].
  split; [done|]. by exists max_gas, mb, candidates.
Qed.

(** C14: a built block commits to its execution.  Whatever the source of
    transactions offers, the block's transactions are among the candidates in
    their order, within the gas and byte limits of the genesis parameters;
    executing the block from the same world gives the world, receipts and
    application hash of the result, and the roots in the header are those of
    this execution. *)
Theorem built_block_commits pool genesis pre fields pool' b max_gas max_bytes :
  params_get (gp_registry (g_params genesis)) MaxGas = Some max_gas →
  params_get (gp_registry (g_params genesis)) MaxBlockBytes = Some max_bytes →
  0 ≤ max_gas < U64_MAX → 0 ≤ max_bytes < U32_MAX →
  build_local pool genesis pre fields = Some (pool', b) →
  let txs := b_txs (bb_block b) in
  let header := bb_header b in
  (∃ candidates, ready_take pool max_gas max_bytes = Some (pool', candidates) ∧ txs `sublist_of` candidates) ∧
  sumZ gas_of txs ≤ max_gas ∧ sumZ tx_size txs ≤ max_bytes ∧
  apply_block pre (bb_block b) = Some (bb_world b, bb_receipts b, bb_app_hash b) ∧
  apply_block_with_roots pre (bb_block b) =
    Some (bb_world b, bb_receipts b, bb_app_hash b, h_state_root header, h_tx_root header, h_receipts_root header) ∧
  bb_app_hash b = app_hash (h_state_root header) (h_tx_root header) (h_receipts_root header) ∧
  h_fields header = fields ∧ b_header_fields (bb_block b) = fields ∧
  h_validators_hash header = validators_hash (g_validators genesis).
Proof.
  intros Eg Eb HG HB E. unfold build_local in E. rewrite Eg, Eb in E. rewrite as_u32_small in E by ulia.
  destruct (ready_take pool max_gas max_bytes) as [[p' candidates]|]; [|done].
  destruct (select candidates max_gas max_bytes 0 0 []) as [txs|] eqn:Es; [|done].
  destruct (apply_block pre _) as [[[w rs] app]|] eqn:Ea; [|done]. cbn [b_txs] in E.
  destruct (tx_root_signed txs) as [tx_r|] eqn:Et; [|done]. simplify_eq. cbn [bb_block bb_header bb_world bb_receipts
    bb_app_hash b_txs h_state_root h_tx_root h_receipts_root h_fields b_header_fields h_validators_hash].
  destruct (select_ok _ _ _ _ _ _ _ Es) as (l & -> & Hl & H1 & H2); [lia|lia|done|done|lia|lia|].
  split; [by eauto|]. split; [done|]. split; [done|]. split; [done|].
  unfold apply_block in Ea. unfold apply_block_with_roots. cbn [b_txs] in *.
  destruct (apply_txs pre _) as [[w' rs']|]; [|done]. rewrite Et in *. simplify_eq. done.
Qed.
End builder.

Section with_mempool.
Context {T : Type} `{!TrieImpl T} `{!TrieLaws T} `{!Crypto} `{!CryptoLaws} `{!Wasm}.

(** building from the mempool succeeds and drops nothing.  From a filed
    pool and a world with sound storage versions, the block holds exactly
    the transactions the mempool selected: within the limits, in gap-free
    nonce order per account, and gone from the pool. *)
Theorem mempool_block_complete (pool : Mempool) genesis (pre : World T) fields max_gas max_bytes :
  params_get (gp_registry (g_params genesis)) MaxGas = Some max_gas →
  params_get (gp_registry (g_params genesis)) MaxBlockBytes = Some max_bytes →
  0 ≤ max_gas < U64_MAX → 0 ≤ max_bytes < U32_MAX →
  pool_ok pool → versions_ok (versioned pre) →
  ∃ pool' b, build_local pool genesis pre fields = Some (pool', b) ∧
    selected (next_nonce pool) pool pool' [] (b_txs (bb_block b)) max_gas max_bytes ∧
    length (bb_receipts b) = length (b_txs (bb_block b)).
Proof.
  intros Eg Eb HG HB Hp Hv. destruct (take_ready_ok pool max_gas max_bytes Hp HG HB) as (pool' & out & Et & Hs).
  assert (Forall (λ s, tx_wf (st_tx s)) out) as Hw.
  { apply Forall_forall. intros s Hin. destruct (sl_from _ _ _ _ _ _ _ Hs s Hin) as (k & Hk & _). by apply (Hp k). }
  assert (select out max_gas max_bytes 0 0 [] = Some out) as Esel.
  { apply (select_all out max_gas max_bytes []); [lia|lia|..|apply Hs|apply Hs].
    apply Forall_and. split; [apply Hs|exact Hw]. }
  destruct (apply_txs_total pre out Hv Hw) as (w & rs & Ea & Hl & _). destruct (tx_root_total out Hw) as [tx_r Er].
  unfold build_local. rewrite Eg, Eb, as_u32_small by ulia. cbn [ready_take mempool_ready]. rewrite Et, Esel.
  unfold apply_block. cbn [b_txs]. rewrite Ea, Er. eexists _, _. split; [done|]. done.
Qed.
End with_mempool.

(** ** A block from the pool of three transactions *)

#[local] Existing Instances toy_crypto toy_crypto_laws map_trie map_trie_laws toy_wasm.

Definition toy_fields : HeaderFields := h_fields sample_header.

Definition no_block : BuiltBlock (gmap bytes bytes) :=
  {| bb_block := {| b_header_fields := toy_fields; b_txs := [] |}; bb_header := sample_header;
     bb_world := toy_start; bb_receipts := []; bb_app_hash := [] |}.

Definition toy_built : Mempool * BuiltBlock (gmap bytes bytes) :=
  default (three_txs, no_block) (build_local three_txs toy_genesis toy_start toy_fields).

Lemma built_block_commits_witness :
  apply_block toy_start (bb_block toy_built.2) =
    Some (bb_world toy_built.2, bb_receipts toy_built.2, bb_app_hash toy_built.2).
Proof.
  refine (proj1 (proj2 (proj2 (proj2 (built_block_commits three_txs toy_genesis toy_start toy_fields
    toy_built.1 toy_built.2 MAX_GAS MAX_BLOCK_BYTES _ _ _ _ _))))); [reflexivity|reflexivity|by_eval|by_eval|].
  apply (some_default_pair (build_local three_txs toy_genesis toy_start toy_fields) (three_txs, no_block)).
  vm_compute. reflexivity.
Defined.

Lemma mempool_block_complete_witness :
  ∃ pool' b, build_local three_txs toy_genesis toy_start toy_fields = Some (pool', b) ∧
    selected (next_nonce three_txs) three_txs pool' [] (b_txs (bb_block b)) MAX_GAS MAX_BLOCK_BYTES ∧
    length (bb_receipts b) = length (b_txs (bb_block b)).
Proof.
  apply (mempool_block_complete three_txs toy_genesis toy_start toy_fields MAX_GAS MAX_BLOCK_BYTES);
    [reflexivity|reflexivity|by_eval|by_eval|exact three_txs_ok|apply versions_ok_new].
Defined.
