(* ===== verification/Limits.v ===== *)
(** The gate in front of execution: [node/src/limits.rs].

    The caps on the size, the gas and the state growth of a block, derived from
    the spec constants and the genesis parameters.  Shown: what the gate answers
    for every well-formed block ([precheck_exact]); that the caps only tighten
    the spec, but a byte parameter of [2^32] wraps to a cap of zero
    ([caps_tighten]); and that it counts the whole body where the block builder
    counts the envelopes, so that a block the builder fills is refused
    ([full_block_refused]). *)

From S2P Require Import Prelude Types Codec Crypto Merkle StoreCodec Blocks Tries ExecBase Mempool Exec ExecSpec Builder.
From stdpp Require Import list.

#[local] Open Scope Z_scope.
#[local] Open Scope l1_scope.

(** ** [limits.rs] *)

Inductive LimitError : Type := BlockBytes | BlockGas | StateGrowth.

(** The bandwidth budget is computed and dropped. *)
Definition max_block_bytes (genesis : Genesis) : Z :=
  let from_params := as_u32 (default MAX_BLOCK_BYTES (params_get (gp_registry (g_params genesis)) MaxBlockBytes)) in
  Z.min MAX_BLOCK_BYTES from_params.

Definition max_gas (genesis : Genesis) : Z :=
  let bytes := max_block_bytes genesis in
  let from_params := default MAX_GAS (params_get (gp_registry (g_params genesis)) MaxGas) in
  let from_bytes := sat_mul U64_MAX (bytes / 100) GAS_TRANSFER in
  Z.min (Z.min from_params from_bytes) MAX_GAS.

Definition max_state_delta_bytes (genesis : Genesis) : Z := 64 * 1024.

(** The loop over the transactions. *)
Fixpoint gas_gate (genesis : Genesis) (txs : list SignedTx) (gas : Z) : result unit LimitError :=
  match txs with
  | [] => Ok tt
  | s :: txs =>
      let? g := map_err (λ _, BlockGas) (gas_meter (st_tx s)) in
      let gas := sat_add U64_MAX gas g in
      if gas >? max_gas genesis then Err BlockGas else gas_gate genesis txs gas
  end.

Definition precheck_block (genesis : Genesis) (block : Block) : option (result unit LimitError) :=
  match encode_block_body block with
  | None => None
  | Some encoded =>
      Some (if as_u32 (len encoded) >? max_block_bytes genesis then Err BlockBytes
            else gas_gate genesis (b_txs block) 0)
  end.

(** The two roots are computed and dropped. *)
Definition precheck_state_growth {T : Type} (genesis : Genesis) (pre post storage : T) (accounted_delta : Z) :
    result unit LimitError :=
  if accounted_delta >? max_state_delta_bytes genesis then Err StateGrowth else Ok tt.

(** ** The caps *)

(** The parameter can only tighten the caps of the spec; but it is cut to 32
    bits first, so one of [2^32] is a cap of zero bytes. *)
Lemma caps_tighten genesis :
  0 ≤ max_block_bytes genesis ≤ MAX_BLOCK_BYTES ∧ max_gas genesis ≤ MAX_GAS ∧
  (params_get (gp_registry (g_params genesis)) MaxBlockBytes = Some (2 ^ 32) → max_block_bytes genesis = 0).
Proof.
  unfold max_block_bytes, max_gas. split; [|split; [lia|by intros ->]].
  generalize (default MAX_BLOCK_BYTES (params_get (gp_registry (g_params genesis)) MaxBlockBytes)). intros n.
  assert (0 ≤ as_u32 n) by (apply Z.mod_pos_bound; ulia). unfold MAX_BLOCK_BYTES. lia.
Qed.

(** ** The size of a body *)

(** The bytes a transaction takes in the body of a block: the envelope, the
    signature, the key and three length fields. *)
Definition body_size (block : Block) : Z := 77 + sumZ (λ s, 109 + tx_size s) (b_txs block).

Lemma signed_size s e : signed_tx_wf s → encode_signed_tx s = Some e → len e = 105 + tx_size s.
Proof.
  intros (Hw & [Hs _] & [Hp _]) E. unfold encode_signed_tx, tx_size in *.
  destruct (tx_encode (st_tx s)) as [t|]; [|done]. injection E as <-. rewrite length_encode.
  autorewrite with l1simpl. cbn [default]. rewrite Hs, Hp. unfold id. lia.
Qed.

Lemma prefixed_size txs es :
  Forall signed_tx_wf txs → mapM encode_signed_tx txs = Some es →
  len (prefixed es) = sumZ (λ s, 109 + tx_size s) txs.
Proof.
  intros Hw E. apply mapM_Some in E. revert Hw. unfold prefixed. induction E as [|s e txs es Es E IH]; intros Hw; [done|].
  apply Forall_cons in Hw as [Hs Hw]. rewrite sumZ_cons, <- IH by done. cbn. autorewrite with l1simpl.
  pose proof (signed_size s e Hs Es). lia.
Qed.

Lemma encode_body_size block body :
  Forall signed_tx_wf (b_txs block) → array 48 (hf_proposer (b_header_fields block)) →
  encode_block_body block = Some body → len body = body_size block.
Proof.
  intros Hw [Hp _] E. unfold encode_block_body in E.
  destruct (mapM encode_signed_tx (b_txs block)) as [es|] eqn:Ees; [|done]. injection E as <-.
  unfold body_size. rewrite <- (prefixed_size _ _ Hw Ees), length_encode. unfold fields_bytes.
  autorewrite with l1simpl. rewrite Hp. lia.
Qed.

(** ** What the gate answers *)

Definition metered (txs : list SignedTx) : bool := forallb (λ s, is_ok (gas_meter (st_tx s))) txs.

Lemma metered_elem txs : metered txs = true → ∀ s, s ∈ txs → is_ok (gas_meter (st_tx s)) = true.
Proof. intros H s Hs. apply (proj1 (forallb_forall _ _) H), list_elem_of_In, Hs. Qed.

Lemma gas_gate_ok genesis txs gas :
  0 ≤ gas ≤ max_gas genesis →
  gas_gate genesis txs gas =
    if metered txs && (gas + sumZ gas_of txs <=? max_gas genesis) then Ok tt else Err BlockGas.
Proof.
  assert (max_gas genesis ≤ MAX_GAS) as Hm by apply caps_tighten. revert gas.
  induction txs as [|s txs IH]; intros gas Hg; cbn [gas_gate metered forallb].
  { rewrite sumZ_nil, Z.add_0_r. by rewrite (proj2 (Z.leb_le _ _) (proj2 Hg)). }
  rewrite sumZ_cons. unfold gas_of at 1. destruct (gas_meter (st_tx s)) as [g|e] eqn:E; [|done]. cbn [map_err is_ok andb].
  destruct (gas_meter_ok _ _ E) as [Eg Hle].
  assert (0 ≤ g) as Hg0 by (by apply gas_meter_nonneg in E).
  assert (sat_add U64_MAX gas g = gas + g) as -> by (unfold MAX_GAS in *; ulia).
  destruct (gas + g >? max_gas genesis) eqn:Ec.
  - rewrite andb_comm, (proj2 (Z.leb_gt _ _)); [done|]. pose proof (gas_sum_nonneg txs). bsimpl. lia.
  - fold (metered txs). rewrite IH by (bsimpl; lia). by rewrite Z.add_assoc.
Qed.

(** The gate, on every well-formed block: refused for its size when the body,
    cut to 32 bits, is over the cap; refused for its gas when a transaction
    cannot be metered or the sum is over the cap; and let through otherwise. *)
Theorem precheck_exact genesis block :
  Forall signed_tx_wf (b_txs block) → array 48 (hf_proposer (b_header_fields block)) → 0 ≤ max_gas genesis →
  precheck_block genesis block =
    Some (if max_block_bytes genesis <? as_u32 (body_size block) then Err BlockBytes
          else if metered (b_txs block) && (sumZ gas_of (b_txs block) <=? max_gas genesis) then Ok tt
          else Err BlockGas).
Proof.
  intros Hw Hp Hg. unfold precheck_block. destruct (encode_block_body_total block Hw) as [body E]. rewrite E.
  rewrite (encode_body_size block body Hw Hp E), Z.gtb_ltb, gas_gate_ok by lia. done.
Qed.

(** The builder and the gate disagree about the same limit: the builder fills a
    block with envelopes up to the byte parameter, the gate counts 109 bytes
    more for each transaction and 77 for the header; so every block whose
    envelopes fit, but come within that of the cap, is selected by the builder
    and refused by the gate. *)
Theorem full_block_refused genesis block G B :
  params_get (gp_registry (g_params genesis)) MaxGas = Some G → G < U64_MAX →
  params_get (gp_registry (g_params genesis)) MaxBlockBytes = Some B → 0 ≤ B ≤ MAX_BLOCK_BYTES →
  Forall signed_tx_wf (b_txs block) → array 48 (hf_proposer (b_header_fields block)) →
  metered (b_txs block) = true → sumZ gas_of (b_txs block) ≤ G →
  sumZ tx_size (b_txs block) ≤ B < body_size block → body_size block ≤ U32_MAX →
  select (b_txs block) G B 0 0 [] = Some (b_txs block) ∧ precheck_block genesis block = Some (Err BlockBytes).
Proof.
  intros EG HG EB HB Hw Hp Hm Hgas Hsize Hu. split.
  - apply (select_all (b_txs block) G B []); [done|unfold MAX_BLOCK_BYTES in *; ulia| |done|exact (proj1 Hsize)].
    apply Forall_and. split; [by apply Forall_forall, metered_elem|].
    eapply Forall_impl; [exact Hw|]. by intros s [].
  - unfold precheck_block. destruct (encode_block_body_total block Hw) as [body E]. rewrite E.
    rewrite (encode_body_size block body Hw Hp E), Z.gtb_ltb.
    rewrite (as_u32_small (body_size block)) by lia. unfold max_block_bytes. rewrite EB.
    change (default MAX_BLOCK_BYTES (Some B)) with B. rewrite (as_u32_small B) by (unfold MAX_BLOCK_BYTES in *; ulia).
    by rewrite (proj2 (Z.ltb_lt _ _)) by lia.
Qed.

(** ** A block within the limit of the builder and over that of the gate *)

#[local] Existing Instances toy_crypto.

Definition tight_genesis : Genesis :=
  {| g_chain_id := 1; g_alloc := ∅; g_validators := ∅;
     g_params := {| gp_registry := params_set ParamsRegistry_new MaxBlockBytes 250;
                    gp_timeouts := gp_timeouts (g_params (Genesis_new 1)) |} |}.

Definition tight_block : Block :=
  {| b_header_fields := {| hf_height := 1; hf_round := 0; hf_proposer := replicate 48 3; hf_timestamp_ms := 5 |};
     b_txs := [{| st_tx := tx_transfer 1 0 21000 5 (replicate 32 9) 100; st_signature := replicate 64 1;
                  st_public_key := replicate 32 7 |}] |}.

Lemma full_block_refused_witness :
  select (b_txs tight_block) MAX_GAS 250 0 0 [] = Some (b_txs tight_block) ∧
  precheck_block tight_genesis tight_block = Some (Err BlockBytes).
Proof.
  apply (full_block_refused tight_genesis tight_block MAX_GAS 250).
  - reflexivity.
  - reflexivity.
  - reflexivity.
  - by_eval.
  - by_eval.
  - by_eval.
  - reflexivity.
  - by_eval.
  - by_eval.
  - by_eval.
Defined.
