(* ===== verification/Node.v ===== *)
(** The hand-offs of the node: [node/src/wire.rs] and [node/src/sync.rs].

    Consensus results go out on gossip and blocks into the store here.  The
    transport is a sink, the class [BlockBroadcast]; clocks are arguments.
    Shown: a block is announced only after its log record, its body and the
    removal of the record are durable ([persist_commits]); what
    [wire_commit] finalises was precommitted by a quorum and is in the commit
    log and in the store ([wire_commit_sound]); an offered block is read back
    from its message, and only from it ([body_offer_roundtrip]); a fresh node
    that is offered the chain catches up with it ([catchup_complete]).  A node
    re-executes a proposal without the transactions of its block, so only
    proposals of empty blocks are ever accepted ([follows_only_empty_blocks]). *)

From S2P Require Import Prelude Types Codec Config Crypto Vrf Kzg Merkle MptSpec Store StoreCodec Blocks Recovery Tries ExecBase Vote Leader Quorum Da Gossip Staking Wasm Mempool Wire Topics Exec ExecSpec Builder.
From Stdlib Require Import Ascii String.
From stdpp Require Import list.

#[local] Open Scope Z_scope.
#[local] Open Scope list_scope.
#[local] Open Scope l1_scope.

(** ** Sinks *)

(** The trait [BlockBroadcast]; encoding a block can panic ([None]). *)
Class BlockBroadcast (B : Type) := {
  broadcast_block : B → Header → Block → list bytes → Hash → option B;
  broadcast_proposal : B → Proposal → B;
  broadcast_vote : B → Vote → B;
}.

Class DaChunkSink (D : Type) := {
  broadcast_da_chunk : D → ProvenChunk → D;
}.

(** The recorder; the time of the last broadcast is left out. *)
Record TraceSink := { ts_order : list string; ts_blocks : list Hash }.

#[export] Instance trace_broadcast `{!Crypto} : BlockBroadcast TraceSink := {|
  broadcast_block s header _ _ _ :=
    Some {| ts_order := ts_order s ++ ["broadcast"%string]; ts_blocks := ts_blocks s ++ [header_hash header] |};
  broadcast_proposal s _ := s;
  broadcast_vote s _ := s;
|}.

#[export] Instance trace_da : DaChunkSink TraceSink := {|
  broadcast_da_chunk s _ := {| ts_order := ts_order s ++ ["da_chunk"%string]; ts_blocks := ts_blocks s |};
|}.

Section wire.
Context {T : Type} `{!TrieImpl T} `{!Crypto} `{!Curve} `{!Wasm} `{!Libp2p}.
Context {S : Type} `{!Store S} {B : Type} `{!BlockBroadcast B}.

Definition persist_then_broadcast (store : S) (header : Header) (block : Block) (receipts : list bytes)
    (app_hash : Hash) (sink : B) : option (S * B * result unit WireError) :=
  match ingest_block header block receipts with
  | None => None
  | Some (Err _) => Some (store, sink, Err WGossip)
  | Some (Ok _) =>
      match write_wal store header block receipts app_hash with
      | None => None
      | Some (store, Err _) => Some (store, sink, Err Wire.WStore)
      | Some (store, Ok _) =>
          match put_block store header block receipts app_hash with
          | None => None
          | Some (store, Err _) => Some (store, sink, Err Wire.WStore)
          | Some (store, Ok _) =>
              match clear_wal store with
              | (store, Err _) => Some (store, sink, Err Wire.WStore)
              | (store, Ok _) =>
                  match broadcast_block sink header block receipts app_hash with
                  | None => None
                  | Some sink => Some (store, sink, Ok tt)
                  end
              end
          end
      end
  end.

(** The clock is read twice: [ts] before the lottery, [now] by the check of
    [HeaderFields::new], whose failure is the panic [expect("timestamp")]. *)
Definition wire_propose (cfg : NodeConfig) (bls_sign : bytes → bytes) (our_id vrf_source : ValidatorId)
    (source_vrf_pk source_proof seed : bytes) (height : Height) (round : Round) (ts now last_ts : Z)
    (world : World T) (pool : Mempool) (sink : B) :
    option (Mempool * B * result (Proposal * BuiltBlock T) WireError) :=
  let build (s : Mempool * option (BuiltBlock T)) :=
    match HeaderFields_new now height round our_id last_ts ts with
    | None => None
    | Some fields =>
        match build_local s.1 (nc_genesis cfg) world fields with
        | None => None
        | Some (pool, b) => Some ((pool, Some b), (bb_header b, bb_app_hash b))
        end
    end in
  match propose bls_sign our_id vrf_source source_vrf_pk source_proof (g_validators (nc_genesis cfg)) seed
          height round build (pool, None) with
  | None => None
  | Some ((pool, built_slot), Err _) => Some (pool, sink, Err WPropose)
  | Some ((pool, built_slot), Ok proposal) =>
      match ingest_proposal proposal with
      | Err _ => Some (pool, sink, Err WGossip)
      | Ok _ =>
          let sink := broadcast_proposal sink proposal in
          match built_slot with
          | None => None
          | Some b => Some (pool, sink, Ok (proposal, b))
          end
      end
  end.

Definition wire_vote (mesh : ValidatorMesh PeerId) (bls_sign : bytes → bytes) (our_id : ValidatorId)
    (proposal : Proposal) (vrf_pks : gmap ValidatorId bytes) (seed : bytes) (expected_height : Height)
    (expected_round : Round) (lock : option Lock) (log : ReplayLog) (sink : B) :
    option (ReplayLog * B * result Vote WireError) :=
  match ingest_validator_proposal mesh proposal with
  | Err _ => Some (log, sink, Err WGossip)
  | Ok _ =>
      match prevote_step bls_sign our_id proposal vrf_pks seed (vm_validators mesh) expected_height
              expected_round lock None log with
      | None => None
      | Some (log, Err _) => Some (log, sink, Err WPrevote)
      | Some (log, Ok prevote) =>
          match ingest_validator_vote mesh prevote log with
          | (log, Err _) => Some (log, sink, Err WGossip)
          | (log, Ok _) => Some (log, broadcast_vote sink prevote, Ok prevote)
          end
      end
  end.

Definition wire_precommit (mesh : ValidatorMesh PeerId) (bls_sign : bytes → bytes) (our_id : ValidatorId)
    (height : Height) (round : Round) (prevotes : list Vote) (header : Header) (log : ReplayLog) (sink : B) :
    ReplayLog * B * result (Vote * option Lock) WireError :=
  let '(log, (precommit, new_lock)) :=
    precommit_step bls_sign our_id height round prevotes (vm_validators mesh) header log in
  match ingest_validator_vote mesh precommit log with
  | (log, Err _) => (log, sink, Err WGossip)
  | (log, Ok _) => (log, broadcast_vote sink precommit, Ok (precommit, new_lock))
  end.

Definition wire_commit (precommits : list Vote) (validators : ValidatorSet) (reachable : VotingPower)
    (proposal : Proposal) (commits : CommitLog) (store : S) (block : Block) (receipts : list bytes) (sink : B) :
    option (CommitLog * S * B * result (option Finalized) WireError) :=
  match commit precommits validators reachable proposal commits with
  | None => None
  | Some (commits, Err _) => Some (commits, store, sink, Err WCommit)
  | Some (commits, Ok None) => Some (commits, store, sink, Ok None)
  | Some (commits, Ok (Some f)) =>
      match persist_then_broadcast store (p_header proposal) block receipts (fin_app_hash f) sink with
      | None => None
      | Some (store, sink, Err e) => Some (commits, store, sink, Err e)
      | Some (store, sink, Ok _) => Some (commits, store, sink, Ok (Some f))
      end
  end.

(** The [for] loop of [wire_da]. *)
Fixpoint broadcast_chunks {D : Type} `{!DaChunkSink D} (root : DaRoot) (chunks : list ProvenChunk) (da_sink : D) :
    D * result unit WireError :=
  match chunks with
  | [] => (da_sink, Ok tt)
  | c :: chunks =>
      match ingest_da_chunk root c with
      | Err _ => (da_sink, Err WGossip)
      | Ok _ => broadcast_chunks root chunks (broadcast_da_chunk da_sink c)
      end
  end.

(** The header with the DA root is computed and dropped. *)
Definition wire_da `{!ReedSolomon} `{!PairingCurve} {D : Type} `{!DaChunkSink D} (precommits : list Vote)
    (validators : ValidatorSet) (reachable : VotingPower) (proposal : Proposal) (commits : CommitLog) (store : S)
    (block : Block) (receipts : list bytes) (sink : B) (da_sink : D) :
    option (CommitLog * S * B * D * result (option (Finalized * DaRoot)) WireError) :=
  match wire_commit precommits validators reachable proposal commits store block receipts sink with
  | None => None
  | Some (commits, store, sink, Err e) => Some (commits, store, sink, da_sink, Err e)
  | Some (commits, store, sink, Ok None) => Some (commits, store, sink, da_sink, Ok None)
  | Some (commits, store, sink, Ok (Some f)) =>
      match publish_da_chunks block with
      | None => None
      | Some (Err _) => Some (commits, store, sink, da_sink, Err WGossip)
      | Some (Ok chunks) =>
          match da_commit block with
          | None => None
          | Some (Err _) => Some (commits, store, sink, da_sink, Err WGossip)
          | Some (Ok (root, _)) =>
              let '(da_sink, r) := broadcast_chunks root chunks da_sink in
              Some (commits, store, sink, da_sink, let? _ := r in Ok (Some (f, root)))
          end
      end
  end.

(** The [for] loop of [wire_sync]. *)
Fixpoint persist_offers (local : S) (bodies : list BodyOffer) (sink : B) : option (S * B * result unit WireError) :=
  match bodies with
  | [] => Some (local, sink, Ok tt)
  | offer :: bodies =>
      match persist_then_broadcast local (bo_header offer) (bo_block offer) (bo_receipts offer)
              (bo_app_hash offer) sink with
      | None => None
      | Some (local, sink, Err e) => Some (local, sink, Err e)
      | Some (local, sink, Ok _) => persist_offers local bodies sink
      end
  end.

Definition wire_sync (local : S) (remote_headers : list Header) (bodies : list BodyOffer) (sink : B) :
    option (S * B * result (option Height) WireError) :=
  match headers_then_bodies MemoryStore_new remote_headers bodies with
  | None => None
  | Some (_, Err _) => Some (local, sink, Err WGossip)
  | Some (_, Ok _) =>
      match persist_offers local bodies sink with
      | None => None
      | Some (local, sink, Err e) => Some (local, sink, Err e)
      | Some (local, sink, Ok _) => Some (local, sink, map_err (λ _, Wire.WStore) (tip local))
      end
  end.

Definition wire_ingest_vote (vote : Vote) (log : ReplayLog) : ReplayLog * result unit WireError :=
  let '(log, r) := ingest_vote vote log in (log, map_err (λ _, WGossip) r).

Definition round_seed (last : Hash) : bytes := derive_seed last 0.

Definition init_store (store : S) (cfg : NodeConfig) : S * result unit WireError :=
  let '(store, r) := put_genesis_hash store (nc_genesis cfg) in (store, map_err (λ _, Wire.WStore) r).

(** [sort_by] is stable. *)
Definition sort_by_signer (votes : list Vote) : list Vote := sort_by_key v_signer votes.

Definition insert_vote_sorted (votes : list Vote) (vote : Vote) : list Vote :=
  if existsb (λ x, bool_decide (v_signer x = v_signer vote) && bool_decide (v_kind x = v_kind vote)) votes
  then votes
  else sort_by_signer (votes ++ [vote]).

(** The pool is empty.  The outer [None] is a panic. *)
Definition built_from_proposal (cfg : NodeConfig) (world : World T) (proposal : Proposal) :
    option (option (BuiltBlock T)) :=
  match Mempool_new (gp_registry (g_params (nc_genesis cfg))) with
  | None => None
  | Some pool =>
      match build_local pool (nc_genesis cfg) world (h_fields (p_header proposal)) with
      | None => None
      | Some (_, built) =>
          Some (if bool_decide (header_hash (bb_header built) ≠ header_hash (p_header proposal)) ||
                   bool_decide (bb_app_hash built ≠ p_app_hash proposal)
                then None else Some built)
      end
  end.

(** ** Body offers on the wire *)

Definition encode_body_offer (offer : BodyOffer) : option bytes :=
  let pre := hash_preimage (bo_header offer) in
  body ← encode_block_body (bo_block offer);
  Some (be_bytes 4 (as_u32 (len pre)) ++ pre ++ be_bytes 4 (as_u32 (len body)) ++ body ++ bo_app_hash offer ++
        be_bytes 4 (as_u32 (len (bo_receipts offer))) ++ prefixed (bo_receipts offer)).

Fixpoint decode_receipts (n : nat) (inner : bytes) (i : nat) (receipts : list bytes) :
    result (list bytes * nat) WireError :=
  match n with
  | O => Ok (receipts, i)
  | Datatypes.S n =>
      let? (rlen, i) := take_at WGossip inner i 4 in
      let? (r, i) := take_at WGossip inner i (of_be rlen) in
      decode_receipts n inner i (receipts ++ [r])
  end.

Definition decode_body_offer (inner : bytes) : result BodyOffer WireError :=
  if len inner <? 4 then Err WGossip
  else
    let? (plen, i) := take_at WGossip inner 0 4 in
    let? (pre, i) := take_at WGossip inner i (of_be plen) in
    let? header := map_err (λ _, WGossip) (header_from_preimage pre) in
    let? (blen, i) := take_at WGossip inner i 4 in
    let? (body, i) := take_at WGossip inner i (of_be blen) in
    let? block := map_err (λ _, WGossip) (decode_block_body body) in
    let? (app, i) := take_at WGossip inner i 32 in
    let? (n, i) := take_at WGossip inner i 4 in
    let? (receipts, i) := decode_receipts (Z.to_nat (of_be n)) inner i [] in
    if negb (i =? length inner)%nat then Err WGossip
    else Ok {| bo_header := header; bo_block := block; bo_receipts := receipts; bo_app_hash := app |}.

(** ** [sync.rs] *)

Definition catchup (cfg : NodeConfig) (store : S) (remote_headers : list Header) (bodies : list BodyOffer) (sink : B) :
    option (S * B * result Hash WireError) :=
  match wire_sync store remote_headers bodies sink with
  | None => None
  | Some (store, sink, Err e) => Some (store, sink, Err e)
  | Some (store, sink, Ok _) =>
      let world : World T := world_from_genesis (nc_genesis cfg) in
      match replay_from_genesis apply_block store (nc_genesis cfg) world with
      | None => None
      | Some (Err _) => Some (store, sink, Err Wire.WStore)
      | Some (Ok (_, app)) => Some (store, sink, Ok app)
      end
  end.

End wire.

(** ** Durability *)

Section durable.
Context `{!Crypto} {S : Type} `{!Store S} `{!StoreLaws S} `{!ReliableStore (S := S)}.
Context {B : Type} `{!BlockBroadcast B}.

Lemma write_wal_total (s : S) header block receipts app :
  Forall signed_tx_wf (b_txs block) →
  ∃ s' buf, write_wal s header block receipts app = Some (s', Ok tt) ∧
    kv_view s' = <[KEY_WAL := buf]> (kv_view s).
Proof.
  intros Hb. unfold write_wal, encode_wal. destruct (encode_block_body_total block Hb) as [body ->].
  cbn [mbind option_bind]. match goal with |- context [BPut KEY_WAL ?v] => set (buf := v) end.
  destruct (batch_one s (BPut KEY_WAL buf)) as (s' & -> & V). by exists s', buf.
Qed.

(** The contents after a logged block write: the tables of the block on top of
    what was there, and no log record. *)
Definition persisted (m m' : gmap bytes bytes) (header : Header) (block : Block) (receipts : list bytes)
    (app : Hash) : Prop :=
  ∃ buf m2, written (<[KEY_WAL := buf]> m) m2 header block receipts app ∧ m' = base.delete KEY_WAL m2.

Lemma persist_commits (s : S) header block receipts app (sink : B) :
  commits_to header block receipts → Forall signed_tx_wf (b_txs block) →
  ∃ s', persisted (kv_view s) (kv_view s') header block receipts app ∧
    persist_then_broadcast s header block receipts app sink =
      match broadcast_block sink header block receipts app with
      | None => None
      | Some sink' => Some (s', sink', Ok tt)
      end.
Proof.
  intros Hc Hb. unfold persist_then_broadcast. rewrite ingest_block_ok by done.
  destruct (write_wal_total s header block receipts app Hb) as (s1 & buf & -> & V1).
  destruct (put_block_written s1 header block receipts app Hb) as (s2 & -> & W).
  destruct (clear_wal_ok s2) as (s3 & -> & V3). exists s3. split; [|done].
  exists buf, (kv_view s2). by rewrite <- V1.
Qed.

Lemma persist_rejects (s : S) header block receipts app (sink : B) :
  ¬ commits_to header block receipts → Forall signed_tx_wf (b_txs block) →
  persist_then_broadcast s header block receipts app sink = Some (s, sink, Err WGossip).
Proof.
  intros Hc Hb. unfold persist_then_broadcast. rewrite ingest_block_bad; [done| |done].
  destruct (tx_root_total (b_txs block)) as [h ->]; [|by eexists].
  eapply Forall_impl; [exact Hb|]. by intros x [? _].
Qed.

(** What can be read from the store after a logged write. *)
Lemma persisted_reads (s s' : S) o :
  offer_ok o → persisted (kv_view s) (kv_view s') (bo_header o) (bo_block o) (bo_receipts o) (bo_app_hash o) →
  holds s' (offer_height o) o ∧ tip s' = Ok (Some (offer_height o)) ∧ kv_view s' !! KEY_WAL = None ∧
  ∀ h, u64 h → h ≠ offer_height o → same_at s s' h.
Proof.
  intros (_ & Hh & Hb & Hf & [Ha _]) (buf & m2 & W & E). assert (u64 (offer_height o)) as Hu by apply Hh.
  assert (∀ k, k ≠ KEY_WAL → kv_view s' !! k = m2 !! k) as Hk by (intros; by rewrite E, lookup_delete_ne).
  split; [split; [|split]|split; [|split]].
  - unfold get_header, offer_height. rewrite get_reliable, Hk, (wr_header _ _ _ _ _ _ W) by done.
    by rewrite header_roundtrip.
  - apply get_block_view; [done..|]. rewrite Hk by done. apply W.
  - unfold get_app_hash, offer_height. by rewrite get_reliable, Hk, (wr_app _ _ _ _ _ _ W), Ha by done.
  - unfold tip, offer_height in *. rewrite get_reliable, Hk, (wr_tip _ _ _ _ _ _ W) by done.
    by rewrite length_be_bytes, of_be_be_bytes by ulia.
  - rewrite E. apply lookup_delete_eq.
  - intros h' Hu' Hne. unfold same_at, get_header, get_block, get_app_hash, offer_height in *.
    rewrite !get_reliable, !Hk, !(wr_other _ _ _ _ _ _ W), !lookup_insert_ne by (done || by apply be_key_ne). done.
Qed.

Lemma wire_commit_spec (s : S) precommits validators reachable proposal commits block receipts (sink : B)
    commits' s' sink' r :
  powers_ok validators → Forall signed_tx_wf (b_txs block) →
  wire_commit precommits validators reachable proposal commits s block receipts sink = Some (commits', s', sink', r) →
  commits ⊆ commits' ∧
  match r with
  | Ok (Some f) =>
      f = {| fin_height := p_height proposal; fin_round := p_round proposal;
             fin_block_hash := header_hash (p_header proposal); fin_app_hash := p_app_hash proposal |} ∧
      commits' !! p_height proposal = Some (header_hash (p_header proposal)) ∧
      (∃ height round signers, quorum_for validators precommits height round (VBlock (header_hash (p_header proposal))) signers) ∧
      commits_to (p_header proposal) block receipts ∧
      persisted (kv_view s) (kv_view s') (p_header proposal) block receipts (p_app_hash proposal) ∧
      broadcast_block sink (p_header proposal) block receipts (p_app_hash proposal) = Some sink'
  | _ => sink' = sink ∧ kv_view s' = kv_view s
  end.
Proof.
  intros Hp Hb E. unfold wire_commit in E.
  destruct (commit precommits validators reachable proposal commits) as [[lg cr]|] eqn:Ec; [|done].
  destruct (commit_log_step _ _ _ _ _ _ _ Ec) as [Hsub Hrec].
  destruct cr as [[f|]|e]; [|by simplify_eq..].
  destruct (commit_ok _ _ _ _ _ _ _ Hp Ec) as (_ & Hf & qc & _ & _ & Hq & _).
  specialize (Hrec f eq_refl). subst f. cbn [fin_height fin_block_hash fin_app_hash] in *.
  destruct (decide (commits_to (p_header proposal) block receipts)) as [Hc|Hc].
  - destruct (persist_commits s (p_header proposal) block receipts (p_app_hash proposal) sink Hc Hb) as (s1 & Hper & Ep).
    rewrite Ep in E. destruct (broadcast_block _ _ _ _ _) as [sk|] eqn:Eb; [|done].
    injection E as <- <- <- <-. split; [done|]. split; [done|]. split; [done|]. split; [by eauto|].
    split; [done|]. split; done.
  - rewrite persist_rejects in E by done. injection E as <- <- <- <-. done.
Qed.


End durable.

(** ** Body offers *)

(** Sizes that the length fields of an offer can hold. *)
Definition offer_fits (o : BodyOffer) : Prop :=
  header_wf (bo_header o) ∧ block_wf (bo_block o) ∧ body_fits (bo_block o) ∧ array 32 (bo_app_hash o) ∧
  len (bo_receipts o) ≤ U32_MAX ∧ Forall (λ r, bytes_ok r ∧ len r ≤ U32_MAX) (bo_receipts o).

Lemma offer_receipts_decode rs pre acc :
  Forall (λ r, bytes_ok r ∧ len r ≤ U32_MAX) rs →
  decode_receipts (length rs) (pre ++ prefixed rs) (length pre) acc = Ok (acc ++ rs, length (pre ++ prefixed rs)).
Proof.
  intros Hr. revert pre acc. induction Hr as [|r rs [_ Hl] Hr IH]; intros pre acc.
  { cbn. by rewrite !app_nil_r. }
  cbn [length decode_receipts]. rewrite prefixed_cons, as_u32_small by lia.
  take_step. rewrite of_be_be_bytes by ulia. take_step. rewrite IH, <- !app_assoc. done.
Qed.

Lemma body_offer_decode o b :
  offer_fits o → encode_body_offer o = Some b → decode_body_offer b = Ok o.
Proof.
  intros (Hh & Hb & Hf & [Ha _] & Hn & Hr) E. unfold encode_body_offer in E.
  destruct (encode_block_body (bo_block o)) as [body|] eqn:Eb; [|done]. apply (inj Some) in E as <-.
  pose proof (Hf body Eb) as Hlb. pose proof (body_decode _ _ Hb Eb Hlb) as Hdb.
  pose proof (length_hash_preimage _ Hh) as Hlh. rewrite Hlh. rewrite !as_u32_small by ulia.
  unfold decode_body_offer. rewrite (proj2 (Z.ltb_ge _ _)) by (rewrite length_app, length_be_bytes; lia).
  rewrite take_at_head by done. rewrite of_be_be_bytes by ulia.
  take_step. rewrite header_roundtrip by done. cbn [map_err]. take_step. rewrite of_be_be_bytes by ulia.
  take_step. rewrite Hdb. cbn [map_err]. do 2 take_step. rewrite of_be_be_bytes, Nat2Z.id by ulia.
  rewrite offer_receipts_decode by done. rewrite Nat.eqb_refl. cbn [negb]. by destruct o.
Qed.

Lemma take_at_ok {E : Type} (e : E) p i n x j :
  0 ≤ n → take_at e p i n = Ok (x, j) →
  x = slice i j p ∧ j = (i + Z.to_nat n)%nat ∧ (j ≤ length p)%nat.
Proof.
  intros Hn. unfold take_at. destruct (Z.gtb_spec (Z.of_nat i + n) (len p)); [done|]. intros [= <- <-].
  split; [done|]. split; [done|]. lia.
Qed.

(** A length field and the piece it announces. *)
Lemma take_prefixed (e : WireError) p i lb j x k :
  bytes_ok p → take_at e p i 4 = Ok (lb, j) → take_at e p j (of_be lb) = Ok (x, k) →
  be_bytes 4 (as_u32 (len x)) ++ x = slice i k p ∧ (i ≤ k ≤ length p)%nat ∧ bytes_ok x ∧ len x ≤ U32_MAX.
Proof.
  intros Hp H1 H2. apply take_at_ok in H1 as (-> & -> & Hj); [|lia]. change (Z.to_nat 4) with 4%nat in *.
  pose proof (of_be_slice_bound i (i + 4) p Hp Hj) as Hb. replace (i + 4 - i)%nat with 4%nat in Hb by lia.
  apply take_at_ok in H2 as (-> & Hk & Hle); [|lia].
  assert (length (slice (i + 4) k p) = Z.to_nat (of_be (slice i (i + 4) p))) as Hl by (rewrite length_slice; lia).
  rewrite Hl, Z2Nat.id, as_u32_small by ulia.
  rewrite be_bytes_of_be by (auto with l1; rewrite length_slice; lia).
  rewrite slice_glue by lia. split; [done|]. split; [lia|]. split; [by apply slice_ok|ulia].
Qed.

Lemma decode_receipts_canonical n p i acc rs j :
  bytes_ok p → (i ≤ length p)%nat → decode_receipts n p i acc = Ok (rs, j) →
  ∃ l, rs = acc ++ l ∧ length l = n ∧ prefixed l = slice i j p ∧ (i ≤ j ≤ length p)%nat ∧
    Forall (λ r, bytes_ok r ∧ len r ≤ U32_MAX) l.
Proof.
  intros Hp. revert i acc. induction n as [|n IH]; intros i acc Hi E; cbn in E.
  { injection E as <- <-. exists []. rewrite app_nil_r. repeat split; [|lia|lia|done].
    unfold slice. by replace (i - i)%nat with 0%nat by lia. }
  destruct (take_at WGossip p i 4) as [[lb i1]|] eqn:E1; [|done].
  destruct (take_at WGossip p i1 (of_be lb)) as [[r i2]|] eqn:E2; [|done].
  destruct (take_prefixed _ _ _ _ _ _ _ Hp E1 E2) as (Hr & Hi2 & Hrb & Hrl).
  destruct (IH i2 (acc ++ [r])) as (l & -> & Hl & Hpl & Hj & Hf); [lia|done|].
  exists (r :: l). rewrite <- app_assoc. cbn [length]. repeat split; [congruence| |lia|lia|by constructor].
  rewrite prefixed_cons, Hpl, app_assoc, Hr. apply slice_glue. lia.
Qed.

Lemma body_offer_canonical b o :
  bytes_ok b → decode_body_offer b = Ok o → encode_body_offer o = Some b ∧ offer_fits o.
Proof.
  intros Hb E. unfold decode_body_offer in E. case_hyp E; [done|]. bsimpl.
  destruct (take_at WGossip b 0 4) as [[plen i1]|] eqn:E1; [|done].
  destruct (take_at WGossip b i1 (of_be plen)) as [[pre i2]|] eqn:E2; [|done].
  destruct (header_from_preimage pre) as [header|] eqn:E3; [|done]. cbn [map_err] in E.
  destruct (take_at WGossip b i2 4) as [[blen i3]|] eqn:E4; [|done].
  destruct (take_at WGossip b i3 (of_be blen)) as [[body i4]|] eqn:E5; [|done].
  destruct (decode_block_body body) as [block|] eqn:E6; [|done]. cbn [map_err] in E.
  destruct (take_at WGossip b i4 32) as [[app i5]|] eqn:E7; [|done].
  destruct (take_at WGossip b i5 4) as [[nb i6]|] eqn:E8; [|done].
  destruct (decode_receipts _ b i6 []) as [[rs i7]|] eqn:E9; [|done].
  case_hyp E; [done|]. injection E as <-. bsimpl. apply Nat.eqb_eq in Heqb1 as ->.
  destruct (take_prefixed _ _ _ _ _ _ _ Hb E1 E2) as (P1 & Hi2 & Hpre & _).
  destruct (header_preimage_canonical _ _ Hpre E3) as [Hhp Hhw].
  destruct (take_prefixed _ _ _ _ _ _ _ Hb E4 E5) as (P2 & Hi4 & Hbody & Hbl).
  destruct (body_canonical _ _ Hbody E6) as [Heb Hbw].
  apply take_at_ok in E7 as (-> & -> & Hi5); [|lia]. change (Z.to_nat 32) with 32%nat in *.
  apply take_at_ok in E8 as (-> & -> & Hi6); [|lia]. change (Z.to_nat 4) with 4%nat in *.
  destruct (decode_receipts_canonical _ _ _ _ _ _ Hb Hi6 E9) as (l & -> & Hl & Hpl & Hi7 & Hrf).
  pose proof (of_be_slice_bound (i4 + 32) (i4 + 32 + 4) b Hb Hi6) as Hn.
  replace (i4 + 32 + 4 - (i4 + 32))%nat with 4%nat in Hn by lia. cbn [app].
  split.
  - unfold encode_body_offer. cbn [bo_header bo_block bo_receipts bo_app_hash]. rewrite Heb. cbn [mbind option_bind].
    rewrite Hhp. f_equal. rewrite (app_assoc _ pre), P1, (app_assoc _ body), P2, Hl, Z2Nat.id, as_u32_small by ulia.
    rewrite be_bytes_of_be by (auto with l1; rewrite length_slice; lia). rewrite Hpl.
    rewrite !slice_glue_app, slice_glue by lia. by apply slice_all.
  - split; [done|]. split; [done|]. split; [intros buf; cbn; rewrite Heb; by intros [= <-]|].
    split; [cbn; slice_range|]. cbn. rewrite Hl. split; [ulia|done].
Qed.

(** A gossiped block is read back exactly: an offer decodes from its own
    encoding, and a message that decodes is the encoding of the offer returned,
    which has the sizes of its Rust types. *)
Theorem body_offer_roundtrip o b :
  (offer_fits o → encode_body_offer o = Some b → decode_body_offer b = Ok o) ∧
  (bytes_ok b → decode_body_offer b = Ok o → encode_body_offer o = Some b ∧ offer_fits o).
Proof. split; [apply body_offer_decode|apply body_offer_canonical]. Qed.

(** ** Following a proposal *)

Section follow.
Context {T : Type} `{!TrieImpl T} `{!Crypto} `{!Wasm} `{!Libp2p}.

(** The block without transactions: executing it changes nothing. *)
Definition empty_built (genesis : Genesis) (world : World T) (fields : HeaderFields) : BuiltBlock T :=
  let tx_r := merkle_root [] in
  let rec_r := Merkle.receipts_root [] in
  let st := commit_state_root world in
  {| bb_block := {| b_header_fields := fields; b_txs := [] |};
     bb_header := {| h_fields := fields; h_tx_root := tx_r; h_state_root := st; h_receipts_root := rec_r;
                     h_validators_hash := validators_hash (g_validators genesis);
                     h_da_root := DA_ROOT_PLACEHOLDER |};
     bb_world := world; bb_receipts := []; bb_app_hash := app_hash st tx_r rec_r |}.

Lemma build_empty genesis (world : World T) fields pool pool' b :
  Mempool_new (gp_registry (g_params genesis)) = Some pool →
  build_local pool genesis world fields = Some (pool', b) → b = empty_built genesis world fields.
Proof.
  unfold Mempool_new. destruct (min_fee_floor _) as [f|]; [|done]. intros [= <-] E. unfold build_local in E.
  destruct (params_get _ MaxGas) as [mg|]; [|done]. destruct (params_get _ MaxBlockBytes) as [mb|]; [|done].
  change (ready_take (with_limits f MEMPOOL_MAX_TXS MAX_BLOCK_BYTES) mg (as_u32 mb))
    with (Some (with_limits f MEMPOOL_MAX_TXS MAX_BLOCK_BYTES, @nil SignedTx)) in E.
  cbn in E. by injection E as <- <-.
Qed.

Lemma built_from_proposal_ok cfg (world : World T) p b :
  built_from_proposal cfg world p = Some (Some b) →
  b = empty_built (nc_genesis cfg) world (h_fields (p_header p)) ∧
  header_hash (bb_header b) = header_hash (p_header p) ∧ bb_app_hash b = p_app_hash p.
Proof.
  unfold built_from_proposal. destruct (Mempool_new _) as [pool|] eqn:Ep; [|done].
  destruct (build_local _ _ _ _) as [[pool' b']|] eqn:Eb; [|done].
  destruct (_ || _) eqn:Ec; [done|]. intros [= <-]. apply orb_false_elim in Ec as [E1 E2].
  apply bool_decide_eq_false, dec_stable in E1. apply bool_decide_eq_false, dec_stable in E2.
  split; [|done]. by eapply build_empty.
Qed.

Lemma built_from_empty cfg (world : World T) p :
  params_get (gp_registry (g_params (nc_genesis cfg))) MaxGas ≠ None →
  params_get (gp_registry (g_params (nc_genesis cfg))) MaxBlockBytes ≠ None →
  let empty := empty_built (nc_genesis cfg) world (h_fields (p_header p)) in
  p_header p = bb_header empty → p_app_hash p = bb_app_hash empty → built_from_proposal cfg world p = Some (Some empty).
Proof.
  intros Hg Hb empty Eh Ea. unfold built_from_proposal, Mempool_new, min_fee_floor.
  destruct (params_get _ MaxGas) as [mg|] eqn:Eg; [|done].
  destruct (params_get _ MaxBlockBytes) as [mb|] eqn:Em; [|done].
  assert (build_local (with_limits MIN_TX_FEE MEMPOOL_MAX_TXS MAX_BLOCK_BYTES) (nc_genesis cfg) world
    (h_fields (p_header p)) = Some (with_limits MIN_TX_FEE MEMPOOL_MAX_TXS MAX_BLOCK_BYTES, empty)) as ->.
  { unfold build_local. rewrite Eg, Em. reflexivity. }
  rewrite <- Eh, <- Ea. rewrite !bool_decide_false by (by intros []). done.
Qed.

(** The hash collides on the preimages of two headers. *)
Definition headers_collide (h1 h2 : Header) : Prop :=
  hash_preimage h1 ≠ hash_preimage h2 ∧ header_hash h1 = header_hash h2.

Context `{!CryptoLaws}.

Lemma empty_header_wf genesis (world : World T) h :
  header_wf h → header_wf (bb_header (empty_built genesis world (h_fields h))).
Proof.
  intros (Hh & Hr & Hp & Ht & _). unfold header_wf. cbn.
  split; [done|]. split; [done|]. split; [done|]. split; [done|].
  do 3 (split; [apply blake3_array|]).
  split; [unfold validators_hash; rewrite merkle_root_compute_root; apply compute_root_array|]. by_eval.
Qed.

(** C22: A node follows only empty blocks.  It executes a gossiped proposal
    with an empty pool, so when it accepts one, the block it holds for it has no
    transactions and leaves the world as it is, and the header proposed is the
    header of that empty block, unless the hash collides; and the empty block of
    a leader with the same world is accepted. *)
Theorem follows_only_empty_blocks cfg (world : World T) p :
  header_wf (p_header p) →
  params_get (gp_registry (g_params (nc_genesis cfg))) MaxGas ≠ None →
  params_get (gp_registry (g_params (nc_genesis cfg))) MaxBlockBytes ≠ None →
  let empty := empty_built (nc_genesis cfg) world (h_fields (p_header p)) in
  (∀ b, built_from_proposal cfg world p = Some (Some b) →
     b_txs (bb_block b) = [] ∧ bb_world b = world ∧
     (p_header p = bb_header empty ∨ headers_collide (bb_header empty) (p_header p))) ∧
  (p_header p = bb_header empty → p_app_hash p = bb_app_hash empty → built_from_proposal cfg world p = Some (Some empty)).
Proof.
  intros Hw Hg Hb. cbv zeta. split.
  - intros b E. destruct (built_from_proposal_ok _ _ _ _ E) as (-> & Eh & _). split; [done|]. split; [done|].
    destruct (decide (hash_preimage (bb_header (empty_built (nc_genesis cfg) world (h_fields (p_header p)))) =
      hash_preimage (p_header p))) as [Ep|Ep]; [left|by right].
    symmetry. apply hash_preimage_inj; [by apply empty_header_wf|done|done].
  - intros Eh Ea. by apply built_from_empty.
Qed.

End follow.

(** ** Vote sets *)

(** One vote per signer and kind: the first one wins. *)
Definition one_per_signer (votes : list Vote) : Prop := NoDup ((λ v, (v_signer v, v_kind v)) <$> votes).

Lemma insert_vote_sorted_spec votes v :
  one_per_signer votes →
  one_per_signer (insert_vote_sorted votes v) ∧
  (insert_vote_sorted votes v = votes ∨
   insert_vote_sorted votes v ≡ₚ v :: votes ∧
   StronglySorted (by_key v_signer) (insert_vote_sorted votes v)).
Proof.
  intros Hn. unfold insert_vote_sorted. destruct (existsb _ votes) eqn:E; [by split; [|left]|].
  assert (sort_by_signer (votes ++ [v]) ≡ₚ v :: votes) as Hp
    by (unfold sort_by_signer; rewrite sort_by_key_perm; symmetry; apply Permutation_cons_append).
  split; [|right; split; [done|exact (sort_by_key_sorted v_signer _)]].
  unfold one_per_signer. rewrite Hp. cbn. constructor; [|done].
  intros (w & Ew & Hw)%list_elem_of_fmap.
  assert (existsb (λ x, bool_decide (v_signer x = v_signer v) && bool_decide (v_kind x = v_kind v)) votes = true).
  { apply existsb_exists. exists w. split; [by apply list_elem_of_In|].
    injection Ew as -> ->. by rewrite !bool_decide_true. }
  congruence.
Qed.

(** ** Catching up *)

Section catch_up.
Context {T : Type} `{!TrieImpl T} `{!Crypto} `{!CryptoLaws} `{!Wasm} `{!Libp2p}.
Context {S : Type} `{!Store S} `{!StoreLaws S} `{!ReliableStore (S := S)} {B : Type} `{!BlockBroadcast B}.

Definition offer_entry (o : BodyOffer) : entry :=
  {| e_header := bo_header o; e_block := bo_block o; e_receipts := bo_receipts o; e_app := bo_app_hash o |}.

(** A logged write extends the stored chain. *)
Lemma persisted_chain m m' g es e :
  stored_chain m g es → hf_height (h_fields (e_header e)) = len es → len es ≤ U64_MAX →
  persisted m m' (e_header e) (e_block e) (e_receipts e) (e_app e) → stored_chain m' g (es ++ [e]).
Proof.
  intros Hs Hh Hl (buf & m2 & W & ->).
  apply (proj1 (stored_chain_wal m2 g _ None)). eapply stored_chain_snoc; [|done|done|exact W].
  by apply (proj1 (stored_chain_wal m g es (Some buf))).
Qed.

(** Every sink accepts every block. *)
Hypothesis broadcast_total : ∀ (sink : B) header block receipts app,
  Forall signed_tx_wf (b_txs block) → is_Some (broadcast_block sink header block receipts app).

Lemma persist_offers_chain (s : S) g es bodies (sink : B) :
  stored_chain (kv_view s) g es → entries_ok (es ++ (offer_entry <$> bodies)) →
  Forall (λ o, commits_to (bo_header o) (bo_block o) (bo_receipts o)) bodies →
  ∃ s' sink', persist_offers s bodies sink = Some (s', sink', Ok tt) ∧
    stored_chain (kv_view s') g (es ++ (offer_entry <$> bodies)).
Proof.
  intros Hs Hok Hc. revert s es sink Hs Hok. induction Hc as [|o bodies Ho Hc IH]; intros s es sink Hs Hok.
  { exists s, sink. by rewrite app_nil_r. }
  cbn [persist_offers]. rewrite fmap_cons in *. destruct Hok as [Hlen Hok].
  destruct (Hok (length es) (offer_entry o)) as (Hh & _ & Hb & _); [by rewrite lookup_app_r, Nat.sub_diag by lia|].
  destruct (persist_commits s (bo_header o) (bo_block o) (bo_receipts o) (bo_app_hash o) sink Ho (proj2 Hb))
    as (s1 & Hp & ->).
  destruct (broadcast_total sink (bo_header o) (bo_block o) (bo_receipts o) (bo_app_hash o) (proj2 Hb)) as [sk1 ->].
  rewrite (app_assoc es [offer_entry o] (offer_entry <$> bodies) : es ++ offer_entry o :: (offer_entry <$> bodies) = _) in *.
  apply IH; [|done].
  apply (persisted_chain (kv_view s)); [done|done| |done]. rewrite !length_app in Hlen. cbn in Hlen. lia.
Qed.

Lemma empty_readable : readable MemoryStore_new.
Proof. split; [by eexists|]. intros h _. by eexists. Qed.

Lemma entry_offer_ok i o :
  entry_ok i (offer_entry o) → commits_to (bo_header o) (bo_block o) (bo_receipts o) → offer_ok o.
Proof. intros (_ & Hh & Hb & Hf & Ha & _) Hc. done. Qed.

Lemma catchup_ok cfg (s : S) headers bodies (sink : B) (world' : World T) :
  kv_view s !! KEY_TIP = None → Forall header_wf headers →
  entries_ok (offer_entry <$> bodies) →
  Forall (λ o, commits_to (bo_header o) (bo_block o) (bo_receipts o)) bodies →
  exec_chain apply_block (world_from_genesis (nc_genesis cfg)) (offer_entry <$> bodies) = Some world' →
  let g := nc_genesis cfg in
  let app := Recovery.last_app g (offer_entry <$> bodies) in
  ∃ s' sink', catchup (T := T) cfg (init_store s cfg).1 headers bodies sink = Some (s', sink', Ok app) ∧
    replay_from_genesis apply_block s' g (world_from_genesis g : World T) = Some (Ok (world', app)).
Proof.
  intros Ht Hh Hok Hc He. cbv zeta. unfold init_store, put_genesis_hash.
  destruct (batch_one s (BPut KEY_GENESIS (genesis_hash (nc_genesis cfg)))) as (s1 & -> & V). cbn [fst].
  assert (stored_chain (kv_view s1) (nc_genesis cfg) []) as Hs1.
  { rewrite V. split; cbn [view_op]; [apply lookup_insert_eq|done..|]. by rewrite lookup_insert_ne. }
  destruct (persist_offers_chain s1 _ [] bodies sink Hs1 Hok Hc) as (s2 & sink2 & Ep & Hs2).
  pose proof (replay_ok apply_block s2 _ _ _ _ Hs2 Hok He) as Er. cbn [app] in Er.
  destruct (headers_then_bodies_ok MemoryStore_new headers bodies empty_readable Hh) as (sc & Esc & _).
  { apply Forall_lookup. intros i o Ho. rewrite Forall_lookup in Hc. apply (entry_offer_ok i); [|by eapply Hc].
    apply Hok. by rewrite list_lookup_fmap, Ho. }
  exists s2, sink2. split; [|done]. unfold catchup, wire_sync. rewrite Esc, Ep.
  assert (is_ok (tip s2) = true) as Htip.
  { unfold tip. rewrite get_reliable, (sc_tip _ _ _ Hs2). by destruct (offer_entry <$> bodies). }
  destruct (tip s2); [|done].
  destruct (last bodies); cbn [map_err]; [|change (tip MemoryStore_new) with (Ok (E := TypesError) (@None Height))];
    cbn [map_err]; by rewrite Er.
Qed.

(** C18: A fresh node catches up.  When a node whose store holds only the
    genesis hash is offered a chain of blocks that starts at height 0, in which
    each header commits to its body and each block executes to its application
    hash, catch-up succeeds with the last application hash; the store then holds
    the chain, and replaying it gives the world of the chain. *)
Theorem catchup_complete cfg (s : S) headers bodies (sink : B) (world' : World T) :
  kv_view s !! KEY_TIP = None → Forall header_wf headers →
  entries_ok (offer_entry <$> bodies) →
  Forall (λ o, commits_to (bo_header o) (bo_block o) (bo_receipts o)) bodies →
  exec_chain apply_block (world_from_genesis (nc_genesis cfg)) (offer_entry <$> bodies) = Some world' →
  let g := nc_genesis cfg in
  let app := Recovery.last_app g (offer_entry <$> bodies) in
  ∃ s' sink', catchup (T := T) cfg (init_store s cfg).1 headers bodies sink = Some (s', sink', Ok app) ∧
    replay_from_genesis apply_block s' g (world_from_genesis g : World T) = Some (Ok (world', app)).
Proof. apply catchup_ok. Qed.

End catch_up.

(** ** Witnesses *)

#[local] Existing Instances toy_crypto toy_crypto_laws toy_curve map_trie map_trie_laws toy_wasm toy_libp2p.

Definition live_genesis : Genesis :=
  {| g_chain_id := 1; g_alloc := ∅; g_validators := toy_set; g_params := GenesisParams_from_registry ParamsRegistry_new |}.

Definition live_config : NodeConfig :=
  NodeConfig_new live_genesis ∅
    {| ni_ed25519 := replicate 32 8; ni_keypair := replicate 32 8 : Keypair; ni_peer_id := replicate 32 8 : PeerId |}
    "dir"%string.

Abbreviation toy_trie := (gmap bytes bytes).

(** The empty block of height 0, proposed by nobody. *)
Definition rogue_fields : HeaderFields :=
  {| hf_height := 0; hf_round := 0; hf_proposer := val_a; hf_timestamp_ms := 7 |}.
Definition rogue_built : BuiltBlock toy_trie := empty_built live_genesis (world_from_genesis live_genesis) rogue_fields.
Definition rogue_proposal : Proposal :=
  {| p_height := 0; p_round := 0; p_header := bb_header rogue_built; p_app_hash := bb_app_hash rogue_built;
     p_proposer := replicate 48 77; p_vrf_source := replicate 48 77; p_vrf_proof := replicate 80 0;
     p_signature := replicate 96 0 |}.

Definition forged (kind : VoteKind) (i : ValidatorId) : Vote :=
  {| v_height := 0; v_round := 0; v_kind := kind; v_block := VBlock (header_hash (bb_header rogue_built));
     v_signer := i; v_signature := replicate 96 0 |}.

Definition no_trace : TraceSink := {| ts_order := []; ts_blocks := [] |}.

Lemma rogue_commits_to : commits_to (bb_header rogue_built) (bb_block rogue_built) [].
Proof. by_eval. Qed.

(** Three precommits commit the block, and it is announced. *)
Definition rogue_commit : option (CommitLog * MemoryStore * TraceSink * result (option Finalized) WireError) :=
  wire_commit (forged Precommit <$> [val_a; val_b; val_c]) toy_set 5 rogue_proposal ∅ MemoryStore_new
    (bb_block rogue_built) [] no_trace.

Lemma rogue_commit_result :
  (λ r, (match r.2 with Ok (Some f) => fin_height f | _ => -1 end, ts_order r.1.2)) <$> rogue_commit =
    Some (0, ["broadcast"%string]).
Proof. vm_compute. reflexivity. Qed.

Lemma rogue_commit_ok :
  ∃ commits s sink f, rogue_commit = Some (commits, s, sink, Ok (Some f)) ∧ ts_order sink = ["broadcast"%string].
Proof.
  destruct (proj1 (fmap_Some _ _ _) rogue_commit_result) as ([[[commits s] sink] r] & E & Er).
  cbn [fst snd] in Er. apply pair_equal_spec in Er as [Er Et].
  destruct r as [[f|]|e]; [|discriminate Er..]. exists commits, s, sink, f. split; [exact E|symmetry; exact Et].
Qed.


Definition rogue_offer : BodyOffer :=
  {| bo_header := bb_header rogue_built; bo_block := bb_block rogue_built; bo_receipts := [];
     bo_app_hash := bb_app_hash rogue_built |}.

Lemma rogue_header_wf : header_wf (bb_header rogue_built).
Proof. by_eval. Qed.

Lemma fits_by (o : option bytes) buf : from_option (λ b, len b <=? U32_MAX) false o = true → o = Some buf → len buf ≤ U32_MAX.
Proof. intros H ->. by apply Z.leb_le. Qed.

Lemma rogue_body_fits : body_fits (bb_block rogue_built).
Proof. intros buf. apply fits_by. vm_compute. reflexivity. Qed.

Lemma rogue_entry_ok : entry_ok 0 (offer_entry rogue_offer).
Proof.
  split; [reflexivity|]. split; [exact rogue_header_wf|]. split; [by_eval|]. split; [exact rogue_body_fits|].
  split; [by_eval|]. intros buf. apply fits_by. vm_compute. reflexivity.
Qed.

Lemma body_offer_roundtrip_witness :
  ∃ b, encode_body_offer rogue_offer = Some b ∧ decode_body_offer b = Ok rogue_offer.
Proof.
  eexists. split; [reflexivity|]. apply body_offer_roundtrip; [|reflexivity].
  split; [exact rogue_header_wf|]. split; [by_eval|]. split; [exact rogue_body_fits|]. split; [by_eval|].
  split; [by_eval|constructor].
Defined.

Lemma follows_only_empty_blocks_witness :
  built_from_proposal live_config (world_from_genesis live_genesis) rogue_proposal = Some (Some rogue_built).
Proof.
  apply (follows_only_empty_blocks live_config (world_from_genesis live_genesis) rogue_proposal);
    [exact rogue_header_wf|by_eval|by_eval|reflexivity|reflexivity].
Defined.

Lemma rogue_exec :
  exec_chain apply_block (world_from_genesis live_genesis) [offer_entry rogue_offer] =
    Some (world_from_genesis live_genesis : World toy_trie).
Proof. vm_compute. reflexivity. Qed.

Lemma trace_total (sink : TraceSink) header block receipts app :
  Forall signed_tx_wf (b_txs block) → is_Some (broadcast_block sink header block receipts app).
Proof. by eexists. Qed.

Lemma catchup_complete_witness :
  ∃ s sink, catchup (T := toy_trie) live_config (init_store MemoryStore_new live_config).1 [bb_header rogue_built]
    [rogue_offer] no_trace = Some (s, sink, Ok (bb_app_hash rogue_built)).
Proof.
  destruct (catchup_complete (T := toy_trie) trace_total live_config MemoryStore_new
    [bb_header rogue_built] [rogue_offer] no_trace (world_from_genesis live_genesis)) as (s & sink & E & _).
  - reflexivity.
  - constructor; [exact rogue_header_wf|constructor].
  - split; [by_eval|]. intros [|i] e He; [|done]. apply (inj Some) in He as <-. exact rogue_entry_ok.
  - constructor; [exact rogue_commits_to|constructor].
  - exact rogue_exec.
  - exists s, sink. exact E.
Defined.
