(* ===== verification/Snapshot.v ===== *)
(** Shortcuts to a current state: [storage/src/snapshot.rs] and the
    weak-subjectivity bootstrap of [node/src/ws.rs].

    Shown: the accounts of a snapshot, put into a fresh trie, give back the
    accounts and the root the snapshot was taken at ([snapshot_restores]).  But
    the comparison with a replay looks at the root only
    ([snapshot_match_root_only]); and the bootstrap compares the checkpoint with
    the headers it is given and then stores the bodies, whose headers are
    others, so a chain without the checkpoint is accepted
    ([bootstrap_unbound]). *)

From S2P Require Import Prelude Types Codec Config Crypto Merkle MptSpec Store StoreCodec Blocks Recovery Tries ExecBase Vote Leader Quorum Staking Wasm Mempool Wire Topics Exec ExecSpec Builder Node.
From stdpp Require Import list.

#[local] Open Scope Z_scope.
#[local] Open Scope l1_scope.

(** ** [snapshot.rs] *)

Record StateSnapshot := { sn_commit_root : bytes; sn_accounts : list (Address * bytes) }.

Definition snapshot_commit_root (account_root contract_root : bytes) (commit_root : bytes → bytes → bytes) : bytes :=
  commit_root account_root contract_root.

Definition take_snapshot (commit_root : bytes) (accounts : list (Address * bytes)) : StateSnapshot :=
  {| sn_commit_root := commit_root; sn_accounts := sort_by_key fst accounts |}.

Definition restore_account_encodings (snap : StateSnapshot) : list (Address * bytes) := sn_accounts snap.

Definition snapshot_matches_replay (snap : StateSnapshot) (replayed_commit : Hash) : bool :=
  bool_decide (sn_commit_root snap = replayed_commit).

Definition replay_for_snapshot_check `{!Crypto} {S : Type} `{!Store S} {W R : Type}
    (apply_block : W → Block → option (W * list R * Hash)) (store : S) (genesis : Genesis) (world : W) :
    option (result (W * Hash) ReplayError) :=
  replay_from_genesis apply_block store genesis world.

(** ** [ws.rs] *)

Definition bootstrap {T : Type} `{!TrieImpl T} `{!Crypto} `{!Wasm} `{!Libp2p} {S : Type} `{!Store S} {B : Type}
    `{!BlockBroadcast B} (cfg : NodeConfig) (store : S) (checkpoint : Checkpoint) (remote_headers : list Header)
    (bodies : list BodyOffer) (sink : B) : option (S * B * result Hash WireError) :=
  match List.find (λ hdr, hf_height (h_fields hdr) =? cp_height checkpoint) remote_headers with
  | None => Some (store, sink, Err WGossip)
  | Some h =>
      if bool_decide (header_hash h ≠ cp_header_hash checkpoint) then Some (store, sink, Err WGossip)
      else catchup (T := T) cfg store remote_headers bodies sink
  end.

(** ** Snapshots *)

Section snapshot.
Context {T : Type} `{!TrieImpl T} `{!TrieLaws T} `{!Crypto}.

(** What the caller does with the restored encodings. *)
Definition insert_encodings (t : T) (l : list (Address * bytes)) : T :=
  foldl (λ t e, trie_put t (account_key e.1) e.2) t l.

Lemma insert_encodings_safe l t : trie_safe (insert_encodings t l) → trie_safe t.
Proof. revert t. induction l as [|e l IH]; intros t Hs; [done|]. eapply safe_put, IH, Hs. Qed.

Lemma insert_encodings_holds l t m :
  trie_holds t m → Forall (λ e, key_ok e.1 ∧ val_ok e.2) l → trie_safe (insert_encodings t l) →
  trie_holds (insert_encodings t l) (foldl (λ m e, <[e.1 := e.2]> m) m l).
Proof.
  revert t m. induction l as [|e l IH]; intros t m Ht Hl Hs; [done|]. apply Forall_cons in Hl as [[Hk Hv] Hl].
  apply IH; [|done|exact Hs]. apply holds_put; [done..|]. by eapply insert_encodings_safe.
Qed.

Lemma foldl_insert_perm (l : list (Address * bytes)) (m : gmap Address bytes) :
  l ≡ₚ map_to_list m → foldl (λ m e, <[e.1 := e.2]> m) ∅ l = m.
Proof.
  intros Hl. transitivity (list_to_map (rev l) : gmap Address bytes).
  - generalize l. clear. intros l. rewrite <- (rev_involutive l) at 1. induction (rev l) as [|e k IH]; [done|].
    cbn. rewrite foldl_app. cbn. rewrite IH. by destruct e.
  - rewrite <- (list_to_map_to_list m). apply list_to_map_proper; rewrite <- Permutation_rev, Hl; [|done].
    apply NoDup_fst_map_to_list.
Qed.

Lemma val_ok_encoded (am : gmap Address Account) a e :
  map_Forall (λ a acc, array 32 a ∧ account_wf acc) am → (account_encode <$> am) !! a = Some e → key_ok a ∧ val_ok e.
Proof.
  intros Hwf. rewrite lookup_fmap. destruct (am !! a) as [acc|] eqn:E; [|done]. intros [= <-].
  destruct (Hwf a acc E) as [Ha Hacc]. split; [by apply (address_key_ok a)|by apply account_val_ok].
Qed.

(** A snapshot restores the state.  Take it of a trie that holds the accounts
    [am], with the encodings listed in any order: the restored list is in key
    order, putting it into a fresh trie gives one that holds the same accounts,
    and the root committed with the contract storage is the one of the
    snapshot. *)
Theorem snapshot_restores (t storage : T) am l :
  aholds t am → l ≡ₚ map_to_list (account_encode <$> am) →
  let snap := take_snapshot (commit_tries t storage) l in
  let t' := insert_encodings trie_new (restore_account_encodings snap) in
  trie_safe t' →
  StronglySorted (by_key fst) (restore_account_encodings snap) ∧ aholds t' am ∧
  snapshot_commit_root (trie_root t') (trie_root storage) commit_root = sn_commit_root snap.
Proof.
  intros [Ht Hwf] Hl. cbv zeta. unfold restore_account_encodings. cbn [take_snapshot sn_accounts sn_commit_root]. intros Hs.
  assert (sort_by_key fst l ≡ₚ map_to_list (account_encode <$> am)) as Hp by (by rewrite sort_by_key_perm).
  assert (aholds (insert_encodings trie_new (sort_by_key fst l)) am) as Ht'.
  { split; [|done]. rewrite <- (foldl_insert_perm _ _ Hp). apply insert_encodings_holds; [apply holds_new| |done].
    rewrite Hp. apply Forall_forall. intros [a e] Hin%elem_of_map_to_list. by eapply val_ok_encoded. }
  split; [exact (sort_by_key_sorted fst l)|]. split; [exact Ht'|].
  unfold snapshot_commit_root, commit_tries. f_equal. eapply holds_root; [apply Ht'|exact Ht].
Qed.

(** The comparison with a replay does not look at the accounts: a snapshot of
    the right root passes with any of them. *)
Lemma snapshot_match_root_only root l l' replayed :
  snapshot_matches_replay (take_snapshot root l) replayed = snapshot_matches_replay (take_snapshot root l') replayed.
Proof. done. Qed.

End snapshot.

(** ** The bootstrap *)

Section ws.
Context {T : Type} `{!TrieImpl T} `{!Crypto} `{!CryptoLaws} `{!Wasm} `{!Libp2p}.
Context {S : Type} `{!Store S} `{!StoreLaws S} `{!ReliableStore (S := S)} {B : Type} `{!BlockBroadcast B}.

Hypothesis broadcast_total : ∀ (sink : B) header block receipts app,
  Forall signed_tx_wf (b_txs block) → is_Some (broadcast_block sink header block receipts app).

(** C39: The checkpoint does not bind the chain.  Let the headers contain the one
    the checkpoint names: then any blocks that execute from the genesis, none of
    which need be of that chain, are stored, and the bootstrap returns their
    application hash, with the store replaying to their world. *)
Theorem bootstrap_unbound cfg (s : S) checkpoint h headers bodies (sink : B) (world' : World T) :
  List.find (λ hdr, hf_height (h_fields hdr) =? cp_height checkpoint) headers = Some h →
  header_hash h = cp_header_hash checkpoint →
  kv_view s !! KEY_TIP = None → Forall header_wf headers → entries_ok (offer_entry <$> bodies) →
  Forall (λ o, commits_to (bo_header o) (bo_block o) (bo_receipts o)) bodies →
  exec_chain apply_block (world_from_genesis (nc_genesis cfg)) (offer_entry <$> bodies) = Some world' →
  let g := nc_genesis cfg in
  let app := Recovery.last_app g (offer_entry <$> bodies) in
  ∃ s' sink', bootstrap (T := T) cfg (init_store s cfg).1 checkpoint headers bodies sink = Some (s', sink', Ok app) ∧
    replay_from_genesis apply_block s' g (world_from_genesis g : World T) = Some (Ok (world', app)).
Proof.
  intros Hf Hh Ht Hw Hok Hc He. unfold bootstrap. rewrite Hf, bool_decide_false by congruence. by apply catchup_ok.
Qed.

End ws.

(** ** Witnesses *)

#[local] Existing Instances toy_crypto toy_crypto_laws map_trie map_trie_laws toy_wasm toy_libp2p.

(** The checkpoint is of another block of height 0 than the one stored. *)
Definition honest_header : Header :=
  bb_header (empty_built live_genesis (world_from_genesis live_genesis : World toy_trie)
    {| hf_height := 0; hf_round := 0; hf_proposer := val_a; hf_timestamp_ms := 8 |}).

Definition honest_checkpoint : Checkpoint := {| cp_height := 0; cp_header_hash := header_hash honest_header |}.

Lemma bootstrap_unbound_witness :
  header_hash (bo_header rogue_offer) ≠ cp_header_hash honest_checkpoint ∧
  ∃ s sink, bootstrap (T := toy_trie) live_config (init_store MemoryStore_new live_config).1 honest_checkpoint
    [honest_header] [rogue_offer] no_trace = Some (s, sink, Ok (bb_app_hash rogue_built)).
Proof.
  split; [by_eval|].
  destruct (bootstrap_unbound (T := toy_trie) trace_total live_config MemoryStore_new honest_checkpoint honest_header
    [honest_header] [rogue_offer] no_trace (world_from_genesis live_genesis)) as (s & sink & E & _).
  - reflexivity.
  - reflexivity.
  - reflexivity.
  - constructor; [by_eval|constructor].
  - split; [by_eval|]. intros [|i] e He; [|done]. apply (inj Some) in He as <-. exact rogue_entry_ok.
  - constructor; [exact rogue_commits_to|constructor].
  - exact rogue_exec.
  - exists s, sink. exact E.
Defined.

Lemma snapshot_restores_witness :
  let t := accounts toy_start in
  aholds (insert_encodings trie_new (restore_account_encodings
    (take_snapshot (commit_tries t t) (map_to_list (account_encode <$> toy_accounts))))) toy_accounts.
Proof.
  refine (proj1 (proj2 (snapshot_restores (accounts toy_start) (accounts toy_start) toy_accounts _ _ _ _)));
    [|reflexivity|exact I].
  apply genesis_holds; [apply toy_alloc_wf|exact I].
Defined.
