(* ===== verification/Live.v ===== *)
(** The running node: the [Live] state machine of [node/src/main.rs].

    One step is a gossip message ([handle_bytes]) or a tick of the loop
    ([tick]).  The fields of [Live] that are set at start are [LiveConf], the
    others [LiveState]; [out] is the outbox.  Every reading of a clock is an
    argument ([TickTimes]), in nanoseconds for [Instant]s and milliseconds for
    the wall clock; the event log and the tip file are part of the state.
    Listening, dialling and publishing are libp2p and not here.

    [LiveSpec.v] shows: in every run of a validator, whatever messages arrive,
    the store holds a chain that executes from the genesis to the node's world,
    its height, its commit log and the blocks it gossips are those of that
    chain, and a restart that replays the store gives the same world
    ([live_chain]); what it holds has the sizes of its types
    ([live_well_typed]); no message can make a validator panic
    ([handle_bytes_total]).  But the first proposal of the empty block is kept,
    whoever sent it ([proposal_capture]), and a forged vote in a validator's own
    name stops it from voting ([forged_vote_silences]). *)

From S2P Require Import Prelude Types Codec Config Crypto Vrf Kzg Merkle MptSpec Store StoreCodec Blocks Recovery Tries ExecBase Vote Leader Quorum Da Gossip Staking Wasm Mempool Wire Topics Exec ExecSpec Builder Node.
From Stdlib Require Import Ascii String.
From stdpp Require Import list.

#[local] Open Scope Z_scope.
#[local] Open Scope list_scope.
#[local] Open Scope l1_scope.

(** ** The outbox *)

Definition TOPIC_BLOCK : string := "/l1/block/1".
Definition TOPIC_PROPOSAL : string := "/l1/proposal/1".
Definition VALIDATOR_PROPOSAL_TOPIC : string := "/l1/validator/proposal/1".
Definition VALIDATOR_VOTE_TOPIC : string := "/l1/validator/vote/1".

(** [OutboxSink]: topics and frames, in the order they are pushed. *)
Definition Outbox : Type := list (string * bytes).

Definition block_frame (offer : BodyOffer) : option (string * bytes) :=
  inner ← encode_body_offer offer; Some (TOPIC_BLOCK, encode_frame KBlock inner).

#[export] Instance outbox_sink : BlockBroadcast Outbox := {|
  broadcast_block out header block receipts app :=
    let offer := {| bo_header := header; bo_block := block; bo_receipts := receipts; bo_app_hash := app |} in
    frame ← block_frame offer; Some (out ++ [frame]);
  broadcast_proposal out p :=
    let frame := encode_frame KProposal (encode_proposal p) in
    out ++ [(TOPIC_PROPOSAL, frame); (VALIDATOR_PROPOSAL_TOPIC, frame)];
  broadcast_vote out v := out ++ [(VALIDATOR_VOTE_TOPIC, encode_frame KVote (encode_vote v))];
|}.

(** The lines of [events.log]. *)
Inductive Event : Type :=
| EvTxAdmit | EvTxDrop | EvProposeOk | EvProposeErr
| EvCatchup (h : Height) (app : Hash) | EvCommit (h : Height).

Section live.
Context {T : Type} `{!TrieImpl T} `{!Crypto} `{!Curve} `{!Wasm} `{!Libp2p}.

(** The fields that never change. *)
Record LiveConf := {
  lc_cfg : NodeConfig;
  lc_bls_sign : bytes → bytes;
  lc_our_id : ValidatorId;
  lc_vrf_sk : bytes;
  lc_vrf_secrets : gmap ValidatorId bytes;
  lc_vrf_pks : gmap ValidatorId bytes;
  lc_mesh : ValidatorMesh PeerId;
  lc_is_validator : bool;
  lc_started : Z;
}.

(** The committed chain. *)
Record Chain := {
  ch_store : MemoryStore;
  ch_world : World T;
  ch_commits : CommitLog;
  ch_height : Height;
  ch_round : Round;
  ch_last_hash : Hash;
  ch_last_ts : Z;
  ch_committed : list BodyOffer;
}.

(** The open height. *)
Record Ballot := {
  ba_replay : ReplayLog;
  ba_pending : option (Proposal * BuiltBlock T);
  ba_prevotes : list Vote;
  ba_precommits : list Vote;
}.

Record LiveState := {
  lv_chain : Chain;
  lv_ballot : Ballot;
  lv_pool : Mempool;
  lv_sync_offers : gmap Z BodyOffer;
  lv_last_commit : Z;
  lv_last_repub : Z;
  lv_last_prop : Z;
  lv_events : list Event;
  lv_tip_file : option (Height * Z);
}.

(** Assignments. *)
Definition set_chain (c : Chain) (s : LiveState) : LiveState :=
  {| lv_chain := c; lv_ballot := lv_ballot s; lv_pool := lv_pool s; lv_sync_offers := lv_sync_offers s;
     lv_last_commit := lv_last_commit s; lv_last_repub := lv_last_repub s; lv_last_prop := lv_last_prop s;
     lv_events := lv_events s; lv_tip_file := lv_tip_file s |}.
Definition set_ballot (b : Ballot) (s : LiveState) : LiveState :=
  {| lv_chain := lv_chain s; lv_ballot := b; lv_pool := lv_pool s; lv_sync_offers := lv_sync_offers s;
     lv_last_commit := lv_last_commit s; lv_last_repub := lv_last_repub s; lv_last_prop := lv_last_prop s;
     lv_events := lv_events s; lv_tip_file := lv_tip_file s |}.
Definition set_pool (p : Mempool) (s : LiveState) : LiveState :=
  {| lv_chain := lv_chain s; lv_ballot := lv_ballot s; lv_pool := p; lv_sync_offers := lv_sync_offers s;
     lv_last_commit := lv_last_commit s; lv_last_repub := lv_last_repub s; lv_last_prop := lv_last_prop s;
     lv_events := lv_events s; lv_tip_file := lv_tip_file s |}.
Definition set_offers (o : gmap Z BodyOffer) (s : LiveState) : LiveState :=
  {| lv_chain := lv_chain s; lv_ballot := lv_ballot s; lv_pool := lv_pool s; lv_sync_offers := o;
     lv_last_commit := lv_last_commit s; lv_last_repub := lv_last_repub s; lv_last_prop := lv_last_prop s;
     lv_events := lv_events s; lv_tip_file := lv_tip_file s |}.
Definition set_times (last_commit last_repub last_prop : Z) (s : LiveState) : LiveState :=
  {| lv_chain := lv_chain s; lv_ballot := lv_ballot s; lv_pool := lv_pool s; lv_sync_offers := lv_sync_offers s;
     lv_last_commit := last_commit; lv_last_repub := last_repub; lv_last_prop := last_prop;
     lv_events := lv_events s; lv_tip_file := lv_tip_file s |}.
Definition append_event (e : Event) (s : LiveState) : LiveState :=
  {| lv_chain := lv_chain s; lv_ballot := lv_ballot s; lv_pool := lv_pool s; lv_sync_offers := lv_sync_offers s;
     lv_last_commit := lv_last_commit s; lv_last_repub := lv_last_repub s; lv_last_prop := lv_last_prop s;
     lv_events := lv_events s ++ [e]; lv_tip_file := lv_tip_file s |}.
Definition write_tip (h : Height) (ms : Z) (s : LiveState) : LiveState :=
  {| lv_chain := lv_chain s; lv_ballot := lv_ballot s; lv_pool := lv_pool s; lv_sync_offers := lv_sync_offers s;
     lv_last_commit := lv_last_commit s; lv_last_repub := lv_last_repub s; lv_last_prop := lv_last_prop s;
     lv_events := lv_events s; lv_tip_file := Some (h, ms) |}.

(** [insert_vote_sorted] into the set of the vote's kind. *)
Definition ballot_insert (b : Ballot) (v : Vote) : Ballot :=
  match v_kind v with
  | Prevote => {| ba_replay := ba_replay b; ba_pending := ba_pending b;
                  ba_prevotes := insert_vote_sorted (ba_prevotes b) v; ba_precommits := ba_precommits b |}
  | Precommit => {| ba_replay := ba_replay b; ba_pending := ba_pending b;
                    ba_prevotes := ba_prevotes b; ba_precommits := insert_vote_sorted (ba_precommits b) v |}
  end.
Definition ballot_replay (log : ReplayLog) (b : Ballot) : Ballot :=
  {| ba_replay := log; ba_pending := ba_pending b; ba_prevotes := ba_prevotes b; ba_precommits := ba_precommits b |}.
(** [self.pending = Some(..)], with both vote sets cleared. *)
Definition ballot_open (p : Proposal) (b : BuiltBlock T) (ba : Ballot) : Ballot :=
  {| ba_replay := ba_replay ba; ba_pending := Some (p, b); ba_prevotes := []; ba_precommits := [] |}.
Definition ballot_close (ba : Ballot) : Ballot :=
  {| ba_replay := ba_replay ba; ba_pending := None; ba_prevotes := []; ba_precommits := [] |}.

Definition total_power_of (conf : LiveConf) : VotingPower := total_power (g_validators (nc_genesis (lc_cfg conf))).

(** ** [try_catchup] *)

(** [heights[i] == i] for all [i]. *)
Fixpoint contiguous (i : Z) (heights : list Z) : bool :=
  match heights with
  | [] => true
  | h :: heights => if negb (h =? i) then false else contiguous (i + 1) heights
  end.

Definition set_replayed (w : World T) (c : Chain) : Chain :=
  {| ch_store := ch_store c; ch_world := w; ch_commits := ch_commits c; ch_height := ch_height c;
     ch_round := ch_round c; ch_last_hash := ch_last_hash c; ch_last_ts := ch_last_ts c; ch_committed := ch_committed c |}.
Definition set_store (st : MemoryStore) (c : Chain) : Chain :=
  {| ch_store := st; ch_world := ch_world c; ch_commits := ch_commits c; ch_height := ch_height c;
     ch_round := ch_round c; ch_last_hash := ch_last_hash c; ch_last_ts := ch_last_ts c; ch_committed := ch_committed c |}.
Definition set_tip (last : BodyOffer) (c : Chain) : Chain :=
  {| ch_store := ch_store c; ch_world := ch_world c; ch_commits := ch_commits c;
     ch_height := sat_add U64_MAX (hf_height (h_fields (bo_header last))) 1; ch_round := ch_round c;
     ch_last_hash := header_hash (bo_header last); ch_last_ts := hf_timestamp_ms (h_fields (bo_header last));
     ch_committed := ch_committed c |}.

(** [None] is a panic; [ms] is the wall clock. *)
Definition try_catchup (conf : LiveConf) (ms : Z) (s : LiveState) (out : Outbox) : option (LiveState * Outbox) :=
  let heights := btree_keys (lv_sync_offers s) in
  match heights with
  | [] => Some (s, out)
  | _ =>
      if negb (contiguous 0 heights) then Some (s, out)
      else
        let bodies := btree_values (lv_sync_offers s) in
        let headers := bo_header <$> bodies in
        match catchup (T := T) (lc_cfg conf) (ch_store (lv_chain s)) headers bodies out with
        | None => None
        | Some (store, out, Err _) => Some (set_chain (set_store store (lv_chain s)) s, out)
        | Some (store, out, Ok app) =>
            let c := set_store store (lv_chain s) in
            match last bodies with
            | None => Some (set_chain c s, out)
            | Some last =>
                match replay_from_genesis apply_block store (nc_genesis (lc_cfg conf))
                        (world_from_genesis (nc_genesis (lc_cfg conf)) : World T) with
                | None => None
                | Some r =>
                    let c := match r with Ok (w, _) => set_replayed w c | Err _ => c end in
                    let tip_h := hf_height (h_fields (bo_header last)) in
                    Some (append_event (EvCatchup tip_h app) (write_tip tip_h ms (set_chain (set_tip last c) s)), out)
                end
            end
        end
  end.

(** ** [handle_bytes] *)

Definition handle_tx (s : LiveState) (inner : bytes) : option LiveState :=
  match decode_signed_tx inner with
  | Err _ => Some (append_event EvTxDrop s)
  | Ok signed =>
      let account := match pool_sender signed with
                     | Ok a => Exec.account (ch_world (lv_chain s)) a
                     | Err _ => Account_empty
                     end in
      match wire_mempool signed account (lv_pool s) with
      | None => None
      | Some (pool, Ok _) => Some (append_event EvTxAdmit (set_pool pool s))
      | Some (pool, Err _) => Some (append_event EvTxDrop (set_pool pool s))
      end
  end.

(** The verdict of [wire_ingest_vote] is dropped. *)
Definition handle_vote (s : LiveState) (inner : bytes) : LiveState :=
  match decode_vote inner with
  | Err _ => s
  | Ok v =>
      let ba := ballot_replay (wire_ingest_vote v (ba_replay (lv_ballot s))).1 (lv_ballot s) in
      if (v_height v =? ch_height (lv_chain s)) && (v_round v =? ch_round (lv_chain s))
      then set_ballot (ballot_insert ba v) s
      else set_ballot ba s
  end.

Definition handle_proposal (conf : LiveConf) (s : LiveState) (inner : bytes) : option LiveState :=
  match decode_proposal inner with
  | Err _ => Some s
  | Ok p =>
      if (p_height p =? ch_height (lv_chain s)) && (p_round p =? ch_round (lv_chain s)) &&
         match ba_pending (lv_ballot s) with None => true | Some _ => false end
      then match built_from_proposal (lc_cfg conf) (ch_world (lv_chain s)) p with
           | None => None
           | Some None => Some s
           | Some (Some b) => Some (set_ballot (ballot_open p b (lv_ballot s)) s)
           end
      else Some s
  end.

Definition handle_block (conf : LiveConf) (ms : Z) (s : LiveState) (out : Outbox) (inner : bytes) :
    option (LiveState * Outbox) :=
  match decode_body_offer inner with
  | Err _ => Some (s, out)
  | Ok offer =>
      let s := set_offers (<[hf_height (h_fields (bo_header offer)) := offer]> (lv_sync_offers s)) s in
      if negb (lc_is_validator conf) then try_catchup conf ms s out else Some (s, out)
  end.

Definition handle_bytes (conf : LiveConf) (ms : Z) (s : LiveState) (out : Outbox) (data : bytes) :
    option (LiveState * Outbox) :=
  match decode_frame data with
  | Err _ => Some (s, out)
  | Ok frame =>
      match gf_kind frame with
      | KTx => s ← handle_tx s (gf_inner frame); Some (s, out)
      | KVote => Some (handle_vote s (gf_inner frame), out)
      | KProposal => s ← handle_proposal conf s (gf_inner frame); Some (s, out)
      | KBlock => handle_block conf ms s out (gf_inner frame)
      | _ => Some (s, out)
      end
  end.

(** ** [maybe_vote_and_commit] *)

(** The clock readings of one tick. *)
Record TickTimes := {
  tt_started : Z; tt_commit : Z; tt_repub : Z; tt_repub_set : Z; tt_prop : Z; tt_prop_set : Z;
  tt_commit_set : Z; tt_ts : Z; tt_now : Z; tt_tip_ms : Z;
}.

(** [Instant::elapsed], in nanoseconds. *)
Definition elapsed_ns (now since : Z) : Z := Z.max 0 (now - since).

Definition ours (conf : LiveConf) (v : Vote) : bool := bool_decide (v_signer v = lc_our_id conf).

Definition rebroadcast_own (conf : LiveConf) (votes : list Vote) (out : Outbox) : Outbox :=
  match List.find (ours conf) votes with Some v => broadcast_vote out v | None => out end.

(** The proposal and our votes, again, every 250 ms. *)
Definition republish (conf : LiveConf) (tt : TickTimes) (prop : Proposal) (s : LiveState) (out : Outbox) :
    LiveState * Outbox :=
  if elapsed_ns (tt_prop tt) (lv_last_prop s) >=? 250 * 10 ^ 6
  then
    let out := broadcast_proposal out prop in
    let out := rebroadcast_own conf (ba_prevotes (lv_ballot s)) out in
    let out := rebroadcast_own conf (ba_precommits (lv_ballot s)) out in
    (set_times (lv_last_commit s) (lv_last_repub s) (tt_prop_set tt) s, out)
  else (s, out).

(** Our prevote, when there is none in our name.  There is no lock. *)
Definition cast_prevote (conf : LiveConf) (seed : bytes) (prop : Proposal) (s : LiveState) (out : Outbox) :
    option (LiveState * Outbox) :=
  if forallb (λ v, negb (ours conf v)) (ba_prevotes (lv_ballot s))
  then
    let out := broadcast_proposal out prop in
    match wire_vote (lc_mesh conf) (lc_bls_sign conf) (lc_our_id conf) prop (lc_vrf_pks conf) seed
            (ch_height (lv_chain s)) (ch_round (lv_chain s)) None (ba_replay (lv_ballot s)) out with
    | None => None
    | Some (log, out, r) =>
        let ba := ballot_replay log (lv_ballot s) in
        Some (set_ballot match r with
                         | Ok v => {| ba_replay := ba_replay ba; ba_pending := ba_pending ba;
                                      ba_prevotes := insert_vote_sorted (ba_prevotes ba) v;
                                      ba_precommits := ba_precommits ba |}
                         | Err _ => ba
                         end s, out)
    end
  else Some (s, out).

(** Our precommit, after three prevotes. *)
Definition cast_precommit (conf : LiveConf) (prop : Proposal) (s : LiveState) (out : Outbox) : LiveState * Outbox :=
  if (3 <=? length (ba_prevotes (lv_ballot s)))%nat &&
     forallb (λ v, negb (ours conf v)) (ba_precommits (lv_ballot s))
  then
    let '(log, out, r) :=
      wire_precommit (lc_mesh conf) (lc_bls_sign conf) (lc_our_id conf) (ch_height (lv_chain s))
        (ch_round (lv_chain s)) (ba_prevotes (lv_ballot s)) (p_header prop) (ba_replay (lv_ballot s)) out in
    let ba := ballot_replay log (lv_ballot s) in
    (set_ballot match r with
                | Ok (pc, _) => {| ba_replay := ba_replay ba; ba_pending := ba_pending ba;
                                   ba_prevotes := ba_prevotes ba;
                                   ba_precommits := insert_vote_sorted (ba_precommits ba) pc |}
                | Err _ => ba
                end s, out)
  else (s, out).

(** The assignments after a commit. *)
Definition committed_chain (prop : Proposal) (built : BuiltBlock T) (f : Finalized) (store : MemoryStore)
    (commits : CommitLog) (c : Chain) : Chain :=
  {| ch_store := store; ch_world := bb_world built; ch_commits := commits;
     ch_height := sat_add U64_MAX (fin_height f) 1; ch_round := 0; ch_last_hash := fin_block_hash f;
     ch_last_ts := hf_timestamp_ms (h_fields (p_header prop));
     ch_committed := ch_committed c ++
       [{| bo_header := p_header prop; bo_block := bb_block built;
           bo_receipts := receipt_encode <$> bb_receipts built; bo_app_hash := fin_app_hash f |}] |}.

Definition try_commit (conf : LiveConf) (tt : TickTimes) (prop : Proposal) (built : BuiltBlock T) (s : LiveState)
    (out : Outbox) : option (LiveState * Outbox) :=
  if (3 <=? length (ba_precommits (lv_ballot s)))%nat
  then
    let rec := receipt_encode <$> bb_receipts built in
    let c := lv_chain s in
    match wire_commit (ba_precommits (lv_ballot s)) (g_validators (nc_genesis (lc_cfg conf)))
            (total_power_of conf) prop (ch_commits c) (ch_store c) (bb_block built) rec out with
    | None => None
    | Some (commits, store, out, Ok (Some f)) =>
        let s := set_chain (committed_chain prop built f store commits c) s in
        let s := set_times (tt_commit_set tt) (lv_last_repub s) (lv_last_prop s) s in
        let s := set_ballot (ballot_close (lv_ballot s)) s in
        Some (append_event (EvCommit (fin_height f)) (write_tip (fin_height f) (tt_tip_ms tt) s), out)
    | Some (commits, store, out, _) =>
        Some (set_chain {| ch_store := store; ch_world := ch_world c; ch_commits := commits; ch_height := ch_height c;
                           ch_round := ch_round c; ch_last_hash := ch_last_hash c; ch_last_ts := ch_last_ts c;
                           ch_committed := ch_committed c |} s, out)
    end
  else Some (s, out).

Definition maybe_vote_and_commit (conf : LiveConf) (tt : TickTimes) (s : LiveState) (out : Outbox) :
    option (LiveState * Outbox) :=
  let seed := round_seed (ch_last_hash (lv_chain s)) in
  match ba_pending (lv_ballot s) with
  | None => Some (s, out)
  | Some (prop, built) =>
      let '(s, out) := republish conf tt prop s out in
      match cast_prevote conf seed prop s out with
      | None => None
      | Some (s, out) =>
          let '(s, out) := cast_precommit conf prop s out in
          try_commit conf tt prop built s out
      end
  end.

(** ** [tick] *)

(** The leader's proposal. *)
Definition tick_propose (conf : LiveConf) (tt : TickTimes) (src : ValidatorId) (src_pk proof seed : bytes)
    (s : LiveState) (out : Outbox) : option (LiveState * Outbox) :=
  let c := lv_chain s in
  match wire_propose (lc_cfg conf) (lc_bls_sign conf) (lc_our_id conf) src src_pk proof seed (ch_height c)
          (ch_round c) (tt_ts tt) (tt_now tt) (ch_last_ts c) (ch_world c) (lv_pool s) out with
  | None => None
  | Some (pool, out, Ok (p, b)) =>
      let s := append_event EvProposeOk (set_pool pool s) in
      Some (set_ballot (ballot_open p b (lv_ballot s)) s, out)
  | Some (pool, out, Err _) => Some (append_event EvProposeErr (set_pool pool s), out)
  end.

(** Push the frames of all committed blocks. *)
Fixpoint push_blocks (offers : list BodyOffer) (out : Outbox) : option Outbox :=
  match offers with
  | [] => Some out
  | offer :: offers => frame ← block_frame offer; push_blocks offers (out ++ [frame])
  end.

Definition tick_repub (tt : TickTimes) (s : LiveState) (out : Outbox) : option (LiveState * Outbox) :=
  if (elapsed_ns (tt_repub tt) (lv_last_repub s) >=? 2 * 10 ^ 9) &&
     negb (length (ch_committed (lv_chain s)) =? 0)%nat
  then out ← push_blocks (ch_committed (lv_chain s)) out;
       Some (set_times (lv_last_commit s) (tt_repub_set tt) (lv_last_prop s) s, out)
  else Some (s, out).

(** Whether the lottery makes us propose: the winner and its proof. *)
Definition tick_leader (conf : LiveConf) (s : LiveState) :
    option (option (ValidatorId * bytes * bytes * bytes * ValidatorId)) :=
  let validators := g_validators (nc_genesis (lc_cfg conf)) in
  let seed := round_seed (ch_last_hash (lv_chain s)) in
  match round_vrf_source validators (ch_round (lv_chain s)) with
  | None => Some None
  | Some src =>
      match lc_vrf_pks conf !! src with
      | None => Some None
      | Some src_pk =>
          let prove_sk := default (lc_vrf_sk conf) (lc_vrf_secrets conf !! src) in
          match leader_prove prove_sk seed src with
          | Err _ => Some None
          | Ok (_, proof) =>
              match weighted_leader src_pk seed src proof validators with
              | None => None
              | Some (Err _) => Some None
              | Some (Ok winner) => Some (Some (src, src_pk, proof, seed, winner))
              end
          end
      end
  end.

Definition tick (conf : LiveConf) (tt : TickTimes) (s : LiveState) (out : Outbox) : option (LiveState * Outbox) :=
  if negb (lc_is_validator conf) then Some (s, out)
  else if elapsed_ns (tt_started tt) (lc_started conf) <? 2 * 10 ^ 9 then maybe_vote_and_commit conf tt s out
  else if elapsed_ns (tt_commit tt) (lv_last_commit s) <? nc_min_block_time_ms (lc_cfg conf) * 10 ^ 6
  then maybe_vote_and_commit conf tt s out
  else
    match tick_leader conf s with
    | None => None
    | Some None => Some (s, out)
    | Some (Some (src, src_pk, proof, seed, winner)) =>
        match (if bool_decide (winner = lc_our_id conf) &&
                  match ba_pending (lv_ballot s) with None => true | Some _ => false end
               then tick_propose conf tt src src_pk proof seed s out
               else Some (s, out)) with
        | None => None
        | Some (s, out) =>
            match maybe_vote_and_commit conf tt s out with
            | None => None
            | Some (s, out) => tick_repub tt s out
            end
        end
    end.

(** ** Start *)

(** The [Live] that [main] builds, with [now] the clock at the start; [None] is
    a panic. *)
Definition live_start (cfg : NodeConfig) (now : Z) : option LiveState :=
  let genesis := nc_genesis cfg in
  match Mempool_new (gp_registry (g_params genesis)) with
  | None => None
  | Some pool =>
      match init_store MemoryStore_new cfg with
      | (_, Err _) => None
      | (store, Ok _) =>
          Some {| lv_chain := {| ch_store := store; ch_world := world_from_genesis genesis; ch_commits := ∅;
                                 ch_height := 0; ch_round := 0; ch_last_hash := genesis_hash genesis;
                                 ch_last_ts := 0; ch_committed := [] |};
                  lv_ballot := {| ba_replay := ∅; ba_pending := None; ba_prevotes := []; ba_precommits := [] |};
                  lv_pool := pool; lv_sync_offers := ∅; lv_last_commit := now - 2 * 10 ^ 9; lv_last_repub := now;
                  lv_last_prop := now - 10 ^ 9; lv_events := []; lv_tip_file := None |}
      end
  end.

End live.
