(* ===== verification/LiveSpec.v ===== *)
(** What holds in every run of a validator: theorems about [Live.v].

    [live_step] is one message, one tick or one flush of the outbox; the
    invariant is [chain_inv] with [open_inv] and [pool_inv].  See the header of
    [Live.v] for the results. *)

From S2P Require Import Prelude Types Codec Config Crypto Vrf Kzg Merkle MptSpec Store StoreCodec Blocks Recovery Tries ExecBase Vote Leader Quorum Da Gossip Staking Wasm Mempool Wire Topics Exec ExecSpec Builder Node Live.
From Stdlib Require Import Ascii String.
From stdpp Require Import list relations.

#[local] Open Scope Z_scope.
#[local] Open Scope list_scope.
#[local] Open Scope l1_scope.

(** ** What the mempool hands out *)

Section pool.
Context `{!Crypto}.

Lemma take_loop_from fuel p local skip out gas bytes G B p' out' :
  take_loop fuel p local skip out gas bytes G B = Some (p', out') →
  flat p' ⊆ flat p ∧ ∀ x, x ∈ out' → x ∈ out ∨ ∃ k, flat p !! k = Some x.
Proof.
  revert p local skip out gas bytes. induction fuel as [|fuel IH]; intros p local skip out gas bytes E; cbn [take_loop] in E;
    (destruct (peek_best_ready p local skip) as [[a s]|] eqn:Ek; [|injection E as <- <-; split; [done|by left]]).
  { done. }
  destruct (gas_meter (st_tx s)) as [g|]; [|by eapply IH].
  case_match; [by eapply IH|]. destruct (IH _ _ _ _ _ _ E) as [Hs Hx]. rewrite flat_remove in Hs.
  split; [etrans; [exact Hs|apply delete_subseteq]|]. intros x Hin. destruct (Hx x Hin) as [Ho|[k Hk]].
  - apply elem_of_app in Ho as [?|Ho%list_elem_of_singleton]; [by left|right]. subst x.
    apply peek_spec in Ek as [Hk _]. by eexists.
  - right. rewrite flat_remove in Hk. apply lookup_delete_Some in Hk as [_ Hk]. by eexists.
Qed.

Lemma select_from cs G B gas bytes txs r :
  select cs G B gas bytes txs = Some r → ∀ x, x ∈ r → x ∈ txs ∨ x ∈ cs.
Proof.
  revert gas bytes txs. induction cs as [|c cs IH]; intros gas bytes txs E x Hx; cbn [select] in E.
  { injection E as <-. by left. }
  assert (x ∈ txs ++ [c] ∨ x ∈ cs → x ∈ txs ∨ x ∈ c :: cs) as Hcase.
  { rewrite elem_of_app, list_elem_of_singleton, elem_of_cons. tauto. }
  assert (x ∈ txs ∨ x ∈ cs → x ∈ txs ∨ x ∈ c :: cs) as Hskip by (rewrite elem_of_cons; tauto).
  destruct (gas_meter (st_tx c)); [|by eapply Hskip, IH]. destruct (tx_encode (st_tx c)); [|done].
  case_match; [by eapply Hskip, IH|]. case_match; [by eapply Hskip, IH|]. by eapply Hcase, IH.
Qed.

(** Every queued transaction has the sizes of the Rust type. *)
Definition pool_inv (p : Mempool) : Prop := map_Forall (λ _ s, signed_tx_wf s) (flat p).

Lemma pool_inv_new registry p : Mempool_new registry = Some p → pool_inv p.
Proof.
  unfold Mempool_new. destruct (min_fee_floor registry); [|done]. intros [= <-]. intros k s Hk.
  destruct k as [a n]. rewrite lookup_flat in Hk. by cbn in Hk.
Qed.

Lemma pool_inv_mempool signed account p p' r :
  signed_tx_wf signed → pool_inv p → wire_mempool signed account p = Some (p', r) → pool_inv p'.
Proof.
  intros Hs Hp. unfold wire_mempool. destruct (ingest_tx signed account) as [[u|]|]; [|by intros [= <- <-]|done].
  destruct (pool_sender signed) as [a|]; intros [= <- <-]; [|done]. unfold pool_inv, admit_preverified.
  rewrite flat_enqueue. by apply map_Forall_insert_2.
Qed.

End pool.

Section live_spec.
Context {T : Type} `{TI : !TrieImpl T} `{CR : !Crypto} `{CU : !Curve} `{WA : !Wasm} `{LP : !Libp2p}.

Abbreviation Chain := (Chain (T := T)).
Abbreviation Ballot := (Ballot (T := T)).
Abbreviation LiveState := (LiveState (T := T)).

(** ** Runs *)

(** A delivered proposal names the height of its own header. *)
Definition msg_ok (data : bytes) : Prop :=
  ∀ f p, decode_frame data = Ok f → gf_kind f = KProposal → decode_proposal (gf_inner f) = Ok p →
    p_height p = hf_height (h_fields (p_header p)).

Inductive live_step (conf : LiveConf) : LiveState * Outbox → LiveState * Outbox → Prop :=
| step_message ms data s out r :
    bytes_ok data → msg_ok data → handle_bytes conf ms s out data = Some r → live_step conf (s, out) r
| step_tick tt s out r : tick conf tt s out = Some r → live_step conf (s, out) r
| step_publish s out : live_step conf (s, out) (s, []).

(** ** The invariant *)

Section inv.
Context (conf : LiveConf).

Definition genesis_of : Genesis := nc_genesis (lc_cfg conf).

Definition chain_of (c : Chain) : list entry := offer_entry <$> ch_committed c.

(** The chain of a node: in the store, executed to the world, recorded in the
    commit log. *)
Record chain_inv (c : Chain) : Prop := {
  ci_stored : stored_chain (kv_view (ch_store c)) genesis_of (chain_of c);
  ci_exec : exec_chain apply_block (world_from_genesis genesis_of) (chain_of c) = Some (ch_world c);
  ci_height : ch_height c = len (ch_committed c);
  ci_round : ch_round c = 0;
  ci_hash : ch_last_hash c =
    match last (ch_committed c) with Some o => header_hash (bo_header o) | None => genesis_hash genesis_of end;
  ci_blocks i o : ch_committed c !! i = Some o →
    hf_height (h_fields (bo_header o)) = Z.of_nat i ∧
    ch_commits c !! Z.of_nat i = Some (header_hash (bo_header o)) ∧
    commits_to (bo_header o) (bo_block o) (bo_receipts o);
}.

(** The open proposal, executed on the world of the chain. *)
Definition open_inv (c : Chain) (ba : Ballot) : Prop :=
  ∀ p b, ba_pending ba = Some (p, b) →
    p_height p = ch_height c ∧ hf_height (h_fields (p_header p)) = ch_height c ∧
    apply_block (ch_world c) (bb_block b) = Some (bb_world b, bb_receipts b, bb_app_hash b) ∧
    bb_app_hash b = p_app_hash p ∧ Forall signed_tx_wf (b_txs (bb_block b)).

Definition live_inv (n : nat) (s : LiveState) : Prop :=
  chain_inv (lv_chain s) ∧ open_inv (lv_chain s) (lv_ballot s) ∧ pool_inv (lv_pool s) ∧
  (length (ch_committed (lv_chain s)) ≤ n)%nat.

(** Steps that leave the chain, the open proposal and the pool alone. *)
Definition same_core (s s' : LiveState) : Prop :=
  lv_chain s' = lv_chain s ∧ ba_pending (lv_ballot s') = ba_pending (lv_ballot s) ∧ lv_pool s' = lv_pool s.

Lemma same_core_inv n s s' : same_core s s' → live_inv n s → live_inv n s'.
Proof.
  intros (E1 & E2 & E3) (H1 & H2 & H3 & H4). unfold live_inv. rewrite E1, E3. split; [done|]. split; [|done].
  intros p b. rewrite E2. apply H2.
Qed.

Lemma live_inv_mono n m s : (n ≤ m)%nat → live_inv n s → live_inv m s.
Proof. intros Hn (H1 & H2 & H3 & H4). repeat (split; [done|]). lia. Qed.

(** ** Messages *)

Lemma handle_tx_inv n s inner s' :
  bytes_ok inner → live_inv n s → handle_tx s inner = Some s' → live_inv n s'.
Proof.
  intros Hb (H1 & H2 & H3 & H4). unfold handle_tx.
  destruct (decode_signed_tx inner) as [signed|] eqn:Ed; [|by intros [= <-]].
  destruct (signed_tx_canonical _ _ Hb Ed) as [_ Hw].
  destruct (wire_mempool _ _ _) as [[pool [u|]]|] eqn:Ew; [| |done]; intros [= <-];
    (split; [done|]; split; [done|]; split; [|done]); exact (pool_inv_mempool _ _ _ _ _ Hw H3 Ew).
Qed.

Lemma handle_vote_core s inner : same_core s (handle_vote s inner).
Proof.
  unfold handle_vote. destruct (decode_vote inner) as [v|]; [|done]. case_match; [|done].
  split; [done|]. split; [|done]. cbn. unfold ballot_insert. by destruct (v_kind v).
Qed.

Lemma apply_empty (w : World T) genesis fields :
  apply_block w (bb_block (empty_built genesis w fields)) =
    Some (w, [], bb_app_hash (empty_built genesis w fields)).
Proof. done. Qed.

Lemma handle_proposal_inv n s inner s' :
  live_inv n s → handle_proposal conf s inner = Some s' →
  (∀ p, decode_proposal inner = Ok p → p_height p = hf_height (h_fields (p_header p))) → live_inv n s'.
Proof.
  intros (H1 & H2 & H3 & H4). unfold handle_proposal.
  destruct (decode_proposal inner) as [p|]; [|by intros [= <-] _].
  destruct (_ && _) eqn:Ec; [|by intros [= <-] _]. apply andb_prop in Ec as [Ec _]. apply andb_prop in Ec as [Eh _].
  apply Z.eqb_eq in Eh.
  destruct (built_from_proposal _ _ p) as [[b|]|] eqn:Eb; [|by intros [= <-] _|done]. intros [= <-] Hm.
  specialize (Hm p eq_refl). destruct (built_from_proposal_ok _ _ _ _ Eb) as (-> & _ & Ea).
  split; [done|]. split; [|done]. cbn. intros p' b' [= <- <-]. split; [done|]. split; [congruence|].
  split; [apply apply_empty|]. split; [done|]. constructor.
Qed.

Lemma handle_block_core ms s out inner s' out' :
  lc_is_validator conf = true → handle_block conf ms s out inner = Some (s', out') → same_core s s'.
Proof.
  intros Hv. unfold handle_block. destruct (decode_body_offer inner); [|by intros [= <- <-]].
  rewrite Hv. by intros [= <- <-].
Qed.

Lemma handle_bytes_inv n ms s out data s' out' :
  lc_is_validator conf = true → bytes_ok data → msg_ok data → live_inv n s →
  handle_bytes conf ms s out data = Some (s', out') → live_inv n s'.
Proof.
  intros Hv Hb Hm Hi. unfold handle_bytes. destruct (decode_frame data) as [f|] eqn:Ef; [|by intros [= <- <-]].
  destruct (frame_canonical _ _ Hb Ef) as [_ Hin].
  destruct (gf_kind f) eqn:Ek; intros E; try (by injection E as <- <-).
  - destruct (handle_tx s (gf_inner f)) eqn:Et; [|done]. injection E as <- <-. by eapply handle_tx_inv.
  - destruct (handle_proposal conf s (gf_inner f)) eqn:Et; [|done]. injection E as <- <-.
    eapply handle_proposal_inv; [done|done|]. intros p Hp. by apply (Hm f p).
  - injection E as <- <-. eapply same_core_inv; [apply handle_vote_core|done].
  - eapply same_core_inv; [by eapply handle_block_core|done].
Qed.

(** ** Ticks *)

Lemma republish_core tt prop s out : same_core s (republish conf tt prop s out).1.
Proof. unfold republish. by case_match. Qed.

Lemma cast_prevote_core seed prop s out s' out' :
  cast_prevote conf seed prop s out = Some (s', out') → same_core s s'.
Proof.
  unfold cast_prevote. case_match; [|by intros [= <- <-]].
  destruct (wire_vote _ _ _ _ _ _ _ _ _ _ _) as [[[log o] r]|]; [|done]. intros [= <- <-]. by destruct r.
Qed.

Lemma cast_precommit_core prop s out : same_core s (cast_precommit conf prop s out).1.
Proof.
  unfold cast_precommit. case_match; [|done].
  destruct (wire_precommit _ _ _ _ _ _ _ _ _) as [[log o] r]. by destruct r as [[pc lk]|].
Qed.

Lemma stored_chain_view (st st' : MemoryStore) es :
  kv_view st' = kv_view st → stored_chain (kv_view st) genesis_of es → stored_chain (kv_view st') genesis_of es.
Proof. by intros ->. Qed.

(** A commit that does not finalise keeps the chain. *)
Lemma unfinalised_inv c store commits :
  chain_inv c → ch_commits c ⊆ commits → kv_view store = kv_view (ch_store c) →
  chain_inv {| ch_store := store; ch_world := ch_world c; ch_commits := commits; ch_height := ch_height c;
               ch_round := ch_round c; ch_last_hash := ch_last_hash c; ch_last_ts := ch_last_ts c;
               ch_committed := ch_committed c |}.
Proof.
  intros [I1 I2 I3 I4 I5 I6] Hsub Hv. split; [by eapply stored_chain_view|done..|].
  intros i o Ho. destruct (I6 i o Ho) as (A1 & A2 & A3). split; [done|]. split; [|done]. by eapply lookup_weaken.
Qed.

(** A finalised block extends the chain. *)
Lemma finalised_inv c p b f store commits :
  chain_inv c → len (ch_committed c) < U64_MAX →
  hf_height (h_fields (p_header p)) = ch_height c → p_height p = ch_height c →
  apply_block (ch_world c) (bb_block b) = Some (bb_world b, bb_receipts b, bb_app_hash b) →
  bb_app_hash b = p_app_hash p →
  f = {| fin_height := p_height p; fin_round := p_round p; fin_block_hash := header_hash (p_header p);
         fin_app_hash := p_app_hash p |} →
  ch_commits c ⊆ commits → commits !! p_height p = Some (header_hash (p_header p)) →
  commits_to (p_header p) (bb_block b) (receipt_encode <$> bb_receipts b) →
  persisted (kv_view (ch_store c)) (kv_view store) (p_header p) (bb_block b) (receipt_encode <$> bb_receipts b)
    (p_app_hash p) →
  chain_inv (committed_chain p b f store commits c).
Proof.
  intros [I1 I2 I3 I4 I5 I6] Hn Hh Hp Ea Eb -> Hsub Hlog Hc Hper.
  set (o := {| bo_header := p_header p; bo_block := bb_block b; bo_receipts := receipt_encode <$> bb_receipts b;
               bo_app_hash := p_app_hash p |}).
  assert (chain_of (committed_chain p b {| fin_height := p_height p; fin_round := p_round p;
    fin_block_hash := header_hash (p_header p); fin_app_hash := p_app_hash p |} store commits c) =
    chain_of c ++ [offer_entry o]) as Ech by (unfold chain_of; cbn; by rewrite fmap_app).
  assert (len (chain_of c) = ch_height c) as Hlen by (unfold chain_of; rewrite length_fmap; lia).
  split.
  - rewrite Ech. apply (persisted_chain (kv_view (ch_store c))); [done|cbn; congruence|lia|done].
  - rewrite Ech, exec_chain_app, I2. cbn. rewrite Ea, decide_True by done. done.
  - cbn. rewrite length_app. cbn. rewrite Hp, I3. ulia.
  - done.
  - cbn. by rewrite last_snoc.
  - cbn. intros i o' [Hi|[Hi Ho']]%lookup_app_Some.
    + destruct (I6 i o' Hi) as (A1 & A2 & A3). split; [done|]. split; [|done]. by eapply lookup_weaken.
    + apply list_lookup_singleton_Some in Ho' as [Hi' <-]. cbn.
      assert (Z.of_nat i = ch_height c) as -> by lia. split; [done|]. split; [|done]. by rewrite <- Hp.
Qed.

Lemma try_commit_inv n tt p b s out s' out' :
  powers_ok (g_validators genesis_of) → Z.of_nat n < U64_MAX → live_inv n s →
  ba_pending (lv_ballot s) = Some (p, b) → try_commit conf tt p b s out = Some (s', out') → live_inv (S n) s'.
Proof.
  intros Hpw Hn Hi Ep. pose proof Hi as (H1 & H2 & H3 & H4).
  destruct (H2 p b Ep) as (P1 & P2 & P3 & P4 & P5). unfold try_commit.
  case_match; [|intros [= <- <-]; eapply live_inv_mono; [|done]; lia].
  destruct (wire_commit _ _ _ _ _ _ _ _ _) as [[[[commits store] o] r]|] eqn:Ew; [|done].
  apply wire_commit_spec in Ew as [Hsub Hr]; [|done|done].
  destruct r as [[f|]|e].
  - destruct Hr as (Hf & Hlog & _ & Hc & Hper & _). intros [= <- <-].
    split; [|split; [by intros ? ?|split; [done|]]]; cbn [lv_chain append_event write_tip set_ballot set_times set_chain].
    + eapply finalised_inv; try done. lia.
    + cbn. rewrite length_app. cbn. lia.
  - destruct Hr as [_ Hv]. intros [= <- <-].
    split; [by apply unfinalised_inv|]. split; [done|]. split; [done|]. cbn. lia.
  - destruct Hr as [_ Hv]. intros [= <- <-].
    split; [by apply unfinalised_inv|]. split; [done|]. split; [done|]. cbn. lia.
Qed.

Lemma maybe_vote_inv n tt s out s' out' :
  powers_ok (g_validators genesis_of) → Z.of_nat n < U64_MAX → live_inv n s →
  maybe_vote_and_commit conf tt s out = Some (s', out') → live_inv (S n) s'.
Proof.
  intros Hpw Hn Hi. unfold maybe_vote_and_commit.
  destruct (ba_pending (lv_ballot s)) as [[p b]|] eqn:Ep; [|intros [= <- <-]; eapply live_inv_mono; [|done]; lia].
  pose proof (republish_core tt p s out) as C1. destruct (republish _ _ _ _ _) as [s1 o1]. cbn in C1.
  destruct (cast_prevote _ _ _ _ _) as [[s2 o2]|] eqn:E2; [|done]. apply cast_prevote_core in E2 as C2.
  pose proof (cast_precommit_core p s2 o2) as C3. destruct (cast_precommit _ _ _ _) as [s3 o3]. cbn in C3.
  apply try_commit_inv; [done|done| |].
  - by do 3 (eapply same_core_inv; [eassumption|]).
  - destruct C1 as (_ & F1 & _), C2 as (_ & F2 & _), C3 as (_ & F3 & _). congruence.
Qed.

(** The leader's own block. *)
Lemma built_txs_wf pool genesis (w : World T) fields pool' b :
  pool_inv pool → build_local pool genesis w fields = Some (pool', b) →
  pool_inv pool' ∧ Forall signed_tx_wf (b_txs (bb_block b)).
Proof.
  intros Hp E. destruct (build_local_exec _ _ _ _ _ _ E) as (_ & _ & _ & mg & mb & cs & _ & _ & Et & Es).
  destruct (take_loop_from _ _ _ _ _ _ _ _ _ _ _ Et) as [Hsub Hin]. split.
  - intros k x Hk. apply (Hp k). by eapply lookup_weaken.
  - apply Forall_forall. intros x Hx. destruct (select_from _ _ _ _ _ _ _ Es x Hx) as [?%not_elem_of_nil|Hc]; [done|].
    destruct (Hin x Hc) as [?%not_elem_of_nil|[k Hk]]; [done|]. by apply (Hp k).
Qed.

Lemma wire_propose_ok cfg sign our src pk proof seed h r ts now last_ts (w : World T) pool (out : Outbox) pool' out' res :
  pool_inv pool →
  wire_propose cfg sign our src pk proof seed h r ts now last_ts w pool out = Some (pool', out', res) →
  pool_inv pool' ∧
  match res with
  | Ok (p, b) =>
      p_height p = h ∧ hf_height (h_fields (p_header p)) = h ∧ p_header p = bb_header b ∧
      apply_block w (bb_block b) = Some (bb_world b, bb_receipts b, bb_app_hash b) ∧
      bb_app_hash b = p_app_hash p ∧ Forall signed_tx_wf (b_txs (bb_block b))
  | Err _ => True
  end.
Proof.
  intros Hp. unfold wire_propose, propose.
  destruct (weighted_leader _ _ _ _ _) as [[winner|]|]; [|by intros [= <- <- <-]|done].
  case_bool_decide; [by intros [= <- <- <-]|]. cbn [fst].
  destruct (HeaderFields_new now h r our last_ts ts) as [fields|] eqn:Ef; [|done].
  destruct (build_local pool _ w fields) as [[pool1 b]|] eqn:Eb; [|done].
  destruct (built_txs_wf _ _ _ _ _ _ Hp Eb) as [Hp1 Hw].
  destruct (build_local_exec _ _ _ _ _ _ Eb) as (Hf & _ & Ha & _).
  destruct (ingest_proposal _) as [u|]; intros [= <- <- <-]; (split; [done|]); [|done]. cbn.
  split; [done|]. split; [|done]. rewrite Hf. unfold HeaderFields_new in Ef. case_match; [|done].
  by injection Ef as <-.
Qed.

Lemma tick_propose_inv n tt src pk proof seed s out s' out' :
  live_inv n s → tick_propose conf tt src pk proof seed s out = Some (s', out') → live_inv n s'.
Proof.
  intros (H1 & H2 & H3 & H4). unfold tick_propose.
  destruct (wire_propose _ _ _ _ _ _ _ _ _ _ _ _ _ _ _) as [[[pool o] r]|] eqn:Ew; [|done].
  destruct (wire_propose_ok _ _ _ _ _ _ _ _ _ _ _ _ _ _ _ _ _ _ H3 Ew) as [Hp Hr].
  destruct r as [[p b]|e]; intros [= <- <-]; [|done].
  destruct Hr as (P1 & P2 & _ & P3). split; [done|]. split; [|done]. intros p' b' [= <- <-]. done.
Qed.

Lemma tick_repub_core tt s out s' out' : tick_repub tt s out = Some (s', out') → same_core s s'.
Proof.
  unfold tick_repub. case_match; [|by intros [= <- <-]]. destruct (push_blocks _ _); [|done]. by intros [= <- <-].
Qed.

Lemma tick_inv n tt s out s' out' :
  powers_ok (g_validators genesis_of) → Z.of_nat n < U64_MAX → live_inv n s →
  tick conf tt s out = Some (s', out') → live_inv (S n) s'.
Proof.
  intros Hpw Hn Hi. assert (live_inv (S n) s) as Hi' by (eapply live_inv_mono; [|done]; lia).
  unfold tick. case_match; [by intros [= <- <-]|]. case_match; [by apply maybe_vote_inv|].
  case_match; [by apply maybe_vote_inv|].
  destruct (tick_leader conf s) as [[[[[[src pk] proof] seed] winner]|]|]; [|by intros [= <- <-]|done].
  intros E. match type of E with match ?x with _ => _ end = _ => destruct x as [[s1 o1]|] eqn:E1; [|done] end.
  assert (live_inv n s1) as Hi1.
  { match type of E1 with (if ?c then _ else _) = _ => destruct c end; [by eapply tick_propose_inv|].
    by injection E1 as <- <-. }
  destruct (maybe_vote_and_commit conf tt s1 o1) as [[s2 o2]|] eqn:E2; [|done].
  eapply same_core_inv; [by eapply tick_repub_core|]. by eapply maybe_vote_inv.
Qed.

Lemma start_inv now s : live_start (lc_cfg conf) now = Some s → live_inv 0 s.
Proof.
  unfold live_start. destruct (Mempool_new _) as [pool|] eqn:Ep; [|done]. unfold init_store, put_genesis_hash.
  destruct (batch_one MemoryStore_new (BPut KEY_GENESIS (genesis_hash genesis_of))) as (s1 & E & V).
  unfold genesis_of in *. rewrite E. cbn [map_err]. intros [= <-].
  split; [|split; [done|split; [by eapply pool_inv_new|done]]]. split; [|done..].
  unfold chain_of. cbn [lv_chain ch_store ch_committed fmap list_fmap]. rewrite V.
  split; cbn [view_op]; [apply lookup_insert_eq|done..].
Qed.

Lemma live_step_inv n s out s' out' :
  lc_is_validator conf = true → powers_ok (g_validators genesis_of) → Z.of_nat n < U64_MAX →
  live_inv n s → live_step conf (s, out) (s', out') → live_inv (S n) s'.
Proof.
  intros Hv Hpw Hn Hi Hs. assert (live_inv (S n) s) as Hi' by (eapply live_inv_mono; [|done]; lia).
  inversion Hs; subst; [by eapply handle_bytes_inv|by eapply tick_inv|done].
Qed.

Lemma live_run_inv n now s0 s out :
  lc_is_validator conf = true → powers_ok (g_validators genesis_of) → Z.of_nat n ≤ U64_MAX →
  live_start (lc_cfg conf) now = Some s0 → nsteps (live_step conf) n (s0, []) (s, out) → live_inv n s.
Proof.
  intros Hv Hpw Hn Hs. revert s out. induction n as [|n IH]; intros s out Hr.
  - inversion Hr; subst. by eapply start_inv.
  - apply nsteps_inv_r in Hr as ([s1 o1] & Hr & Hst). eapply live_step_inv; [done|done|lia| |done].
    eapply IH; [lia|done].
Qed.

Context `{CL : !CryptoLaws}.


(** ** No message panics *)

Lemma handle_tx_total s inner : bytes_ok inner → is_Some (handle_tx s inner).
Proof.
  intros Hb. unfold handle_tx. destruct (decode_signed_tx inner) as [signed|] eqn:Ed; [|by eexists].
  destruct (signed_tx_canonical _ _ Hb Ed) as [_ Hw].
  assert (∀ acct pool, is_Some (wire_mempool signed acct pool)) as Hm.
  { intros acct pool. unfold wire_mempool, ingest_tx, mempool_verify, verify_ed25519, tx_signed_message.
    destruct (tx_encode_total (st_tx signed) (proj1 Hw)) as [e ->].
    destruct (public_key_from_bytes _); cbn [fmap option_fmap option_map]; [destruct (ed25519_verify _ _ _)|]; cbn;
      repeat case_match; by eexists. }
  destruct (Hm match pool_sender signed with Ok a => Exec.account (ch_world (lv_chain s)) a | Err _ => Account_empty end
    (lv_pool s)) as [[pool [u|]] ->]; by eexists.
Qed.

Definition params_present : Prop :=
  params_get (gp_registry (g_params genesis_of)) MaxGas ≠ None ∧
  params_get (gp_registry (g_params genesis_of)) MaxBlockBytes ≠ None.

Lemma built_from_proposal_total (w : World T) p : params_present → is_Some (built_from_proposal (lc_cfg conf) w p).
Proof.
  intros [Hg Hm]. unfold genesis_of in *. unfold built_from_proposal, Mempool_new, min_fee_floor.
  destruct (params_get _ MaxGas) as [mg|] eqn:Eg; [|done].
  destruct (params_get _ MaxBlockBytes) as [mb|] eqn:Em; [|done].
  unfold build_local. rewrite Eg, Em. by eexists.
Qed.


(** ** Votes nobody checked *)

Lemma frame_of_vote v :
  gossip_vote_wf v → decode_frame (encode_frame KVote (encode_vote v)) = Ok {| gf_kind := KVote; gf_inner := encode_vote v |}.
Proof.
  intros Hv. pose proof (vote_decode_encode v Hv) as Hd. apply frame_roundtrip.
  destruct Hv as [([Hs _] & _ & _ & Hsig & Hb) _]. unfold encode_vote. rewrite length_encode. autorewrite with l1simpl.
  rewrite Hs, Hsig. destruct (v_block v) as [|h]; cbn [block_encode length]; [uint; lia|]. destruct Hb as [Hb _].
  cbn [length app]. uint. lia.
Qed.

Lemma insert_vote_present votes v :
  ∃ w, w ∈ insert_vote_sorted votes v ∧ v_signer w = v_signer v.
Proof.
  unfold insert_vote_sorted. destruct (existsb _ votes) eqn:E.
  - apply existsb_exists in E as (w & Hw & Ew). apply andb_prop in Ew as [Ew _]. exists w.
    split; [by apply list_elem_of_In|]. by apply bool_decide_eq_true in Ew.
  - exists v. split; [|done]. unfold sort_by_signer; rewrite sort_by_key_perm, elem_of_app. right. by left.
Qed.


(** ** The first proposal *)

Lemma frame_of_proposal p :
  proposal_wf p →
  decode_frame (encode_frame KProposal (encode_proposal p)) = Ok {| gf_kind := KProposal; gf_inner := encode_proposal p |}.
Proof.
  intros (_ & _ & Hh & [H1 _] & [H2 _] & [H3 _] & [H4 _] & [H5 _]). apply frame_roundtrip.
  unfold encode_proposal. rewrite length_encode. autorewrite with l1simpl.
  rewrite length_hash_preimage, H1, H2, H3, H4, H5 by done. uint. lia.
Qed.

(** The offer of an open proposal. *)
Definition pending_offer (p : Proposal) (b : BuiltBlock T) : BodyOffer :=
  {| bo_header := p_header p; bo_block := bb_block b; bo_receipts := receipt_encode <$> bb_receipts b;
     bo_app_hash := p_app_hash p |}.

Definition kept_or_committed (p : Proposal) (b : BuiltBlock T) (s s' : LiveState) : Prop :=
  ba_pending (lv_ballot s') = Some (p, b) ∨
  ch_committed (lv_chain s') = ch_committed (lv_chain s) ++ [pending_offer p b].

Lemma handle_bytes_keeps ms s out data s' out' p b :
  lc_is_validator conf = true → ba_pending (lv_ballot s) = Some (p, b) →
  handle_bytes conf ms s out data = Some (s', out') → ba_pending (lv_ballot s') = Some (p, b).
Proof.
  intros Hv Hp. unfold handle_bytes. destruct (decode_frame data) as [f|]; [|by intros [= <- <-]].
  destruct (gf_kind f); intros E; try (by injection E as <- <-).
  - destruct (handle_tx s (gf_inner f)) eqn:Et; [|done]. injection E as <- <-. revert Et. unfold handle_tx.
    destruct (decode_signed_tx _); [|by intros [= <-]].
    destruct (wire_mempool _ _ _) as [[pool [u|]]|]; [by intros [= <-]..|done].
  - unfold handle_proposal in E. destruct (decode_proposal _); [rewrite Hp, andb_false_r in E|]; by injection E as <- <-.
  - injection E as <- <-. by rewrite (proj1 (proj2 (handle_vote_core s (gf_inner f)))).
  - by rewrite (proj1 (proj2 (handle_block_core _ _ _ _ _ _ Hv E))).
Qed.

Lemma try_commit_keeps tt p b s out s' out' :
  powers_ok (g_validators genesis_of) → Forall signed_tx_wf (b_txs (bb_block b)) →
  ba_pending (lv_ballot s) = Some (p, b) → try_commit conf tt p b s out = Some (s', out') → kept_or_committed p b s s'.
Proof.
  intros Hpw Hw Hp. unfold try_commit. case_match; [|intros [= <- <-]; by left].
  destruct (wire_commit _ _ _ _ _ _ _ _ _) as [[[[commits store] o] r]|] eqn:Ew; [|done].
  apply wire_commit_spec in Ew as [_ Hr]; [|done|done]. destruct r as [[f|]|e]; intros [= <- <-]; [|by left..].
  destruct Hr as (-> & _). by right.
Qed.

Lemma maybe_vote_keeps tt p b s out s' out' :
  powers_ok (g_validators genesis_of) → Forall signed_tx_wf (b_txs (bb_block b)) →
  ba_pending (lv_ballot s) = Some (p, b) → maybe_vote_and_commit conf tt s out = Some (s', out') →
  kept_or_committed p b s s'.
Proof.
  intros Hpw Hw Hp. unfold maybe_vote_and_commit. rewrite Hp.
  pose proof (republish_core tt p s out) as C1. destruct (republish _ _ _ _ _) as [s1 o1]. cbn in C1.
  destruct (cast_prevote _ _ _ _ _) as [[s2 o2]|] eqn:E2; [|done]. apply cast_prevote_core in E2 as C2.
  pose proof (cast_precommit_core p s2 o2) as C3. destruct (cast_precommit _ _ _ _) as [s3 o3]. cbn in C3.
  destruct C1 as (D1 & F1 & _), C2 as (D2 & F2 & _), C3 as (D3 & F3 & _). intros E.
  apply try_commit_keeps in E; [|done|done|congruence]. destruct E as [?|E]; [by left|right]. rewrite E. congruence.
Qed.

Lemma tick_keeps tt p b s out s' out' :
  powers_ok (g_validators genesis_of) → Forall signed_tx_wf (b_txs (bb_block b)) →
  ba_pending (lv_ballot s) = Some (p, b) → tick conf tt s out = Some (s', out') → kept_or_committed p b s s'.
Proof.
  intros Hpw Hw Hp. unfold tick. case_match; [intros [= <- <-]; by left|]. case_match; [by apply maybe_vote_keeps|].
  case_match; [by apply maybe_vote_keeps|].
  destruct (tick_leader conf s) as [[[[[[src pk] proof] seed] winner]|]|]; [|intros [= <- <-]; by left|done].
  rewrite Hp, andb_false_r. destruct (maybe_vote_and_commit conf tt s out) as [[s2 o2]|] eqn:E2; [|done].
  intros E. apply tick_repub_core in E as (D & F & _). apply maybe_vote_keeps with (p := p) (b := b) in E2; [|done..].
  destruct E2 as [E2|E2]; [left|right]; congruence.
Qed.


(** ** Types *)

(** Everything a node holds has the sizes of its Rust type. *)
Record live_typed (s : LiveState) : Prop := {
  ty_pool : pool_inv (lv_pool s);
  ty_height : u64 (ch_height (lv_chain s));
  ty_round : u32 (ch_round (lv_chain s));
  ty_prevotes : Forall gossip_vote_wf (ba_prevotes (lv_ballot s));
  ty_precommits : Forall gossip_vote_wf (ba_precommits (lv_ballot s));
  ty_offers : map_Forall (λ _ o, offer_fits o) (lv_sync_offers s);
  ty_pending p b : ba_pending (lv_ballot s) = Some (p, b) → u64 (p_height p);
}.

(** The keys of the node. *)
Definition keys_typed : Prop := array 48 (lc_our_id conf) ∧ ∀ m, array 96 (lc_bls_sign conf m).

Lemma insert_vote_typed votes v :
  Forall gossip_vote_wf votes → gossip_vote_wf v → Forall gossip_vote_wf (insert_vote_sorted votes v).
Proof.
  intros Hs Hv. unfold insert_vote_sorted. case_match; [done|]. unfold sort_by_signer; rewrite sort_by_key_perm.
  apply Forall_app. split; [done|]. by constructor.
Qed.

Lemma signed_vote_typed h r k b :
  keys_typed → u64 h → u32 r → match b with Nil => True | VBlock x => array 32 x end →
  gossip_vote_wf (sign_vote (lc_bls_sign conf) (lc_our_id conf) h r k b).
Proof.
  intros [Hid Hsig] Hh Hr Hb. split; [|apply Hsig]. unfold vote_wf. cbn.
  split; [done|]. split; [done|]. split; [done|]. split; [apply Hsig|done].
Qed.

Lemma wire_vote_typed prop pks seed h r lock log (out : Outbox) log' out' v :
  keys_typed → u64 h → u32 r →
  wire_vote (lc_mesh conf) (lc_bls_sign conf) (lc_our_id conf) prop pks seed h r lock log out = Some (log', out', Ok v) →
  gossip_vote_wf v.
Proof.
  intros Hk Hh Hr. unfold wire_vote. destruct (ingest_validator_proposal _ _); [|done].
  destruct (prevote_step _ _ _ _ _ _ _ _ _ _ _) as [[log1 [v1|]]|] eqn:Ep; [|done..].
  destruct (ingest_validator_vote _ _ _) as [log2 [u|]]; [|done]. intros [= _ _ <-].
  unfold prevote_step in Ep. case_match; [done|]. destruct (pks !! _); [|done].
  destruct (verify_leader _ _ _ _) as [[|]|]; [|done..]. case_match.
  - destruct (verify_vote _ _ _ _). injection Ep as _ <-. by apply signed_vote_typed.
  - destruct (verify_vote _ _ _ _) as [lg [u1|]]; [|done]. injection Ep as _ <-. apply signed_vote_typed; [done..|].
    apply blake3_array.
Qed.

Lemma wire_precommit_typed h r prevotes header log (out : Outbox) log' out' v lk :
  keys_typed → u64 h → u32 r →
  wire_precommit (lc_mesh conf) (lc_bls_sign conf) (lc_our_id conf) h r prevotes header log out = (log', out', Ok (v, lk)) →
  gossip_vote_wf v.
Proof.
  intros Hk Hh Hr. unfold wire_precommit.
  destruct (precommit_step _ _ _ _ _ _ _ _) as [log1 [v1 lk1]] eqn:Ep.
  destruct (ingest_validator_vote _ _ _) as [log2 [u|]]; [|done]. intros [= _ _ <- _].
  unfold precommit_step in Ep. revert Ep. destruct (polka _ _) as [[|x]|]; [| case_bool_decide|];
    destruct (verify_vote _ _ _ _); intros [= _ <- _]; apply signed_vote_typed; try done. apply blake3_array.
Qed.

Lemma next_height_u64 h : u64 h → u64 (sat_add U64_MAX h 1).
Proof. ulia. Qed.

Lemma try_catchup_typed ms s out s' out' :
  live_typed s → try_catchup conf ms s out = Some (s', out') → live_typed s'.
Proof.
  intros Hs. pose proof Hs as [I1 I2 I3 I4 I5 I6 I7]. unfold try_catchup.
  destruct (btree_keys _); [by intros [= <- <-]|]. case_match; [by intros [= <- <-]|].
  destruct (catchup _ _ _ _ _) as [[[store o] [app|]]|]; [|by intros [= <- <-]|done].
  destruct (last (btree_values (lv_sync_offers s))) as [lst|] eqn:El; [|by intros [= <- <-]].
  destruct (replay_from_genesis _ _ _ _) as [r|]; [|done]. intros [= <- <-].
  assert (offer_fits lst) as Hl.
  { apply last_Some_elem_of, list_elem_of_fmap in El as ([h o1] & -> & Hin). apply elem_of_btree_iter in Hin. by apply (I6 h). }
  split; try done.
  - destruct r as [[w1 a1]|]; cbn; apply next_height_u64; apply Hl.
  - by destruct r as [[w1 a1]|].
Qed.

Lemma handle_bytes_typed ms s out data s' out' :
  bytes_ok data → live_typed s → handle_bytes conf ms s out data = Some (s', out') → live_typed s'.
Proof.
  intros Hb Hs. pose proof Hs as [I1 I2 I3 I4 I5 I6 I7]. unfold handle_bytes.
  destruct (decode_frame data) as [f|] eqn:Ef; [|by intros [= <- <-]].
  destruct (frame_canonical _ _ Hb Ef) as [_ Hin].
  destruct (gf_kind f); intros E; try (by injection E as <- <-).
  - destruct (handle_tx s (gf_inner f)) as [s1|] eqn:Et; [|done]. injection E as <- <-. revert Et. unfold handle_tx.
    destruct (decode_signed_tx _) as [signed|] eqn:Ed; [|by intros [= <-]].
    destruct (signed_tx_canonical _ _ Hin Ed) as [_ Hw].
    destruct (wire_mempool _ _ _) as [[pool [u|]]|] eqn:Ew; [| |done]; intros [= <-]; split; try done;
      exact (pool_inv_mempool _ _ _ _ _ Hw I1 Ew).
  - unfold handle_proposal in E. destruct (decode_proposal _) as [p|] eqn:Ed; [|by injection E as <- <-].
    destruct (proposal_canonical _ _ Hin Ed) as [_ Hp].
    match type of E with context [if ?c then _ else _] => destruct c end; [|by injection E as <- <-].
    destruct (built_from_proposal _ _ p) as [[b|]|]; [| |done]; injection E as <- <-; [|done].
    split; try done; [constructor..|]. intros p' b' [= <- <-]. apply Hp.
  - injection E as <- <-. unfold handle_vote. destruct (decode_vote _) as [v|] eqn:Ed; [|done].
    destruct (vote_canonical _ _ Hin Ed) as [_ Hv].
    match goal with |- context [if ?c then _ else _] => destruct c end; [|by split].
    unfold ballot_insert. destruct (v_kind v); split; try done; cbn; by apply insert_vote_typed.
  - unfold handle_block in E. destruct (decode_body_offer _) as [o|] eqn:Ed; [|by injection E as <- <-].
    destruct (body_offer_canonical _ _ Hin Ed) as [_ Ho].
    assert (live_typed (set_offers (<[hf_height (h_fields (bo_header o)) := o]> (lv_sync_offers s)) s)) as Hs1.
    { split; try done. by apply map_Forall_insert_2. }
    destruct (negb _); [by eapply try_catchup_typed|]. by injection E as <- <-.
Qed.

Lemma wire_commit_height precommits validators reachable p commits (st : MemoryStore) block rec (out : Outbox) c' st' out' f :
  wire_commit precommits validators reachable p commits st block rec out = Some (c', st', out', Ok (Some f)) →
  fin_height f = p_height p.
Proof.
  unfold wire_commit. destruct (commit _ _ _ _ _) as [[lg [[f1|]|e]]|] eqn:Ec; [|done..].
  destruct (persist_then_broadcast _ _ _ _ _ _) as [[[st1 o1] [u|]]|]; [|done..]. intros [= _ _ _ <-].
  unfold commit in Ec. case_match; [done|]. destruct (polka _ _) as [[|h]|]; [done| |done]. case_bool_decide; [done|].
  destruct (aggregate _ _); [|done]. destruct (qc_verify _ _) as [[u1|]|]; [|done..].
  destruct (record _ _) as [lg1 [u2|]]; [|done]. by injection Ec as _ <-.
Qed.

Lemma maybe_vote_typed tt s out s' out' :
  keys_typed → live_typed s → maybe_vote_and_commit conf tt s out = Some (s', out') → live_typed s'.
Proof.
  intros Hk Hs. unfold maybe_vote_and_commit.
  destruct (ba_pending (lv_ballot s)) as [[p b]|] eqn:Ep; [|by intros [= <- <-]].
  pose proof (ty_pending s Hs p b Ep) as Hp.
  assert (live_typed (republish conf tt p s out).1) as H1.
  { unfold republish. case_match; [|done]. by destruct Hs; split. }
  destruct (republish _ _ _ _ _) as [s1 o1]. cbn in H1.
  destruct (cast_prevote _ _ _ _ _) as [[s2 o2]|] eqn:E2; [|done].
  assert (live_typed s2) as H2.
  { revert E2. unfold cast_prevote. case_match; [|by intros [= <- <-]].
    destruct (wire_vote _ _ _ _ _ _ _ _ _ _ _) as [[[log o] r]|] eqn:Ew; [|done]. intros [= <- <-].
    destruct H1 as [I1 I2 I3 I4 I5 I6 I7]. destruct r as [v|]; split; try done; cbn.
    apply insert_vote_typed; [done|]. by eapply wire_vote_typed. }
  assert (live_typed (cast_precommit conf p s2 o2).1) as H3.
  { unfold cast_precommit. case_match; [|done].
    destruct (wire_precommit _ _ _ _ _ _ _ _ _) as [[log o] r] eqn:Ew.
    destruct H2 as [I1 I2 I3 I4 I5 I6 I7]. destruct r as [[v lk]|]; split; try done; cbn.
    apply insert_vote_typed; [done|]. by eapply wire_precommit_typed. }
  destruct (cast_precommit _ _ _ _) as [s3 o3]. cbn in H3. unfold try_commit. case_match; [|by intros [= <- <-]].
  destruct (wire_commit _ _ _ _ _ _ _ _ _) as [[[[commits store] o] [[f|]|e]]|] eqn:Ew; [| | |done];
    intros [= <- <-]; destruct H3 as [I1 I2 I3 I4 I5 I6 I7]; split; try done.
  cbn. rewrite (wire_commit_height _ _ _ _ _ _ _ _ _ _ _ _ _ Ew). by apply next_height_u64.
Qed.

Lemma tick_typed tt s out s' out' :
  keys_typed → live_typed s → tick conf tt s out = Some (s', out') → live_typed s'.
Proof.
  intros Hk Hs. unfold tick. case_match; [by intros [= <- <-]|]. case_match; [by apply maybe_vote_typed|].
  case_match; [by apply maybe_vote_typed|].
  destruct (tick_leader conf s) as [[[[[[src pk] proof] seed] winner]|]|]; [|by intros [= <- <-]|done].
  intros E. match type of E with match ?x with _ => _ end = _ => destruct x as [[s1 o1]|] eqn:E1; [|done] end.
  assert (live_typed s1) as Hs1.
  { match type of E1 with (if ?c then _ else _) = _ => destruct c end; [|by injection E1 as <- <-].
    destruct Hs as [I1 I2 I3 I4 I5 I6 I7]. revert E1. unfold tick_propose.
    destruct (wire_propose _ _ _ _ _ _ _ _ _ _ _ _ _ _ _) as [[[pool o] r]|] eqn:Ew; [|done].
    destruct (wire_propose_ok _ _ _ _ _ _ _ _ _ _ _ _ _ _ _ _ _ _ I1 Ew) as [Hp Hr].
    destruct r as [[p b]|e]; intros [= <- <-]; split; try done; [constructor..|].
    intros p' b' [= <- <-]. by rewrite (proj1 Hr). }
  destruct (maybe_vote_and_commit conf tt s1 o1) as [[s2 o2]|] eqn:E2; [|done].
  apply maybe_vote_typed in E2; [|done|done]. revert E. unfold tick_repub.
  match goal with |- context [if ?c then _ else _] => destruct c end; [|by intros [= <- <-]].
  destruct (push_blocks _ _); [|done]. intros [= <- <-]. by destruct E2; split.
Qed.

Lemma start_typed now s : live_start (lc_cfg conf) now = Some s → live_typed s.
Proof.
  unfold live_start. destruct (Mempool_new _) as [pool|] eqn:Ep; [|done].
  destruct (init_store _ _) as [st [u|]]; [|done]. intros [= <-].
  split; cbn; [by eapply pool_inv_new|ulia|ulia|constructor|constructor|done|done].
Qed.

Lemma run_typed x y : keys_typed → rtc (live_step conf) x y → live_typed x.1 → live_typed y.1.
Proof.
  intros Hk Hr. induction Hr as [x|x y z Hxy Hyz IH]; intros Hx; [done|]. apply IH.
  destruct Hxy as [ms data s out [s' out'] Hb _ E|tt s out [s' out'] E|s out]; cbn in *;
    [by eapply handle_bytes_typed|by eapply tick_typed|done].
Qed.


End inv.
End live_spec.

(** ** A run *)

Section run.
Context {T : Type} `{TI : !TrieImpl T} `{CR : !Crypto} `{CU : !Curve} `{WA : !Wasm} `{LP : !Libp2p}.

Inductive LiveEvent : Type := OnMessage (ms : Z) (data : bytes) | OnTick (t : TickTimes).

Fixpoint run_events (conf : LiveConf) (l : list LiveEvent) (x : LiveState (T := T) * Outbox) :
    option (LiveState (T := T) * Outbox) :=
  match l with
  | [] => Some x
  | OnMessage ms data :: l => r ← handle_bytes conf ms x.1 x.2 data; run_events conf l r
  | OnTick t :: l => r ← tick conf t x.1 x.2; run_events conf l r
  end.

Definition msg_okb (data : bytes) : bool :=
  match decode_frame data with
  | Ok f =>
      match gf_kind f, decode_proposal (gf_inner f) with
      | KProposal, Ok p => p_height p =? hf_height (h_fields (p_header p))
      | _, _ => true
      end
  | Err _ => true
  end.

Definition event_okb (e : LiveEvent) : bool :=
  match e with OnMessage _ data => bool_decide (bytes_ok data) && msg_okb data | OnTick _ => true end.

Lemma msg_okb_ok data : msg_okb data = true → msg_ok data.
Proof.
  unfold msg_okb. intros E f p Ef Ek Ep. rewrite Ef, Ek, Ep in E. by apply Z.eqb_eq.
Qed.

Lemma run_events_steps conf l x y :
  forallb event_okb l = true → run_events conf l x = Some y → nsteps (live_step conf) (length l) x y.
Proof.
  revert x. induction l as [|e l IH]; intros [s out] Hok E; cbn in *.
  { injection E as <-. constructor. }
  apply andb_prop in Hok as [He Hok]. destruct e as [ms data|t].
  - apply andb_prop in He as [Hb Hm]. apply bool_decide_eq_true in Hb. apply msg_okb_ok in Hm.
    destruct (handle_bytes conf ms s out data) as [r|] eqn:Er; [|done].
    eapply nsteps_l; [by eapply step_message|]. by apply IH.
  - destruct (tick conf t s out) as [r|] eqn:Er; [|done]. eapply nsteps_l; [by eapply step_tick|]. by apply IH.
Qed.

Lemma fmap_bind_Some {A B C : Type} (o : option A) (f : A → option B) (g : B → C) v :
  g <$> (o ≫= f) = Some v → ∃ a b, o = Some a ∧ f a = Some b ∧ g b = v.
Proof.
  destruct o as [a|]; [|done]. cbn. destruct (f a) as [b|] eqn:E; [|done]. intros [= <-]. by exists a, b.
Qed.

Lemma start_fresh cfg now (s : LiveState (T := T)) :
  live_start cfg now = Some s →
  ba_pending (lv_ballot s) = None ∧ ch_height (lv_chain s) = 0 ∧ ch_round (lv_chain s) = 0 ∧
  ch_world (lv_chain s) = world_from_genesis (nc_genesis cfg).
Proof. unfold live_start. intros E. repeat case_match; simplify_eq; done. Qed.

End run.

(** ** Witnesses *)

#[local] Existing Instances toy_crypto toy_crypto_laws toy_curve map_trie map_trie_laws toy_wasm toy_libp2p.

Definition live_conf (validator : bool) : LiveConf :=
  {| lc_cfg := live_config;
     lc_bls_sign _ := replicate 96 1; lc_our_id := val_a; lc_vrf_sk := replicate 32 1; lc_vrf_secrets := ∅;
     lc_vrf_pks := ∅; lc_mesh := mesh_from_genesis live_genesis; lc_is_validator := validator; lc_started := 0 |}.

Definition no_time : TickTimes :=
  {| tt_started := 0; tt_commit := 0; tt_repub := 0; tt_repub_set := 0; tt_prop := 0; tt_prop_set := 0;
     tt_commit_set := 0; tt_ts := 0; tt_now := 0; tt_tip_ms := 0 |}.

Definition vote_message (v : Vote) : LiveEvent := OnMessage 0 (encode_frame KVote (encode_vote v)).

(** A proposal, three precommits, a tick. *)
Definition live_events : list LiveEvent :=
  OnMessage 0 (encode_frame KProposal (encode_proposal rogue_proposal)) ::
  (vote_message ∘ forged Precommit <$> [val_b; val_a; val_c]) ++ [OnTick no_time].

Lemma live_height :
  (λ r : LiveState (T := toy_trie) * Outbox, ch_height (lv_chain r.1)) <$>
    (live_start (lc_cfg (live_conf true)) 0 ≫= λ s0, run_events (live_conf true) live_events (s0, [])) = Some 1.
Proof. vm_compute. reflexivity. Qed.

Lemma live_run :
  ∃ s0 s : LiveState (T := toy_trie), ∃ out,
    live_start (lc_cfg (live_conf true)) 0 = Some s0 ∧
    run_events (live_conf true) live_events (s0, []) = Some (s, out) ∧
    ch_height (lv_chain s) = 1.
Proof.
  destruct (fmap_bind_Some _ _ _ _ live_height) as (s0 & [s out] & E0 & E1 & E). exists s0, s, out.
  split; [exact E0|]. split; [exact E1|exact E].
Qed.

Lemma live_events_ok : forallb event_okb live_events = true.
Proof. vm_compute. reflexivity. Qed.


Lemma live_params : params_present (live_conf true).
Proof. split; by_eval. Qed.



Lemma rogue_proposal_wf : proposal_wf rogue_proposal.
Proof. by_eval. Qed.


