(* ===== verification/Rpc.v ===== *)
(** The JSON-RPC interface: [rpc/src/*.rs], with the rate limiter of
    [network/src/rate_limit.rs].

    [serde_json::Value] is the type [Value]; the [hex] crate is the class
    [Hex].  Shown: a server whose accounts trie is sound answers every
    request, whatever its content ([rpc_never_panics]); a submitted
    transaction was verified and is the one change of the pool
    ([submit_tx_ok]); over its life a server accepts no more submissions than
    the limit of one peer, from all clients together ([submissions_bounded]);
    a trie proof survives the trip through JSON ([proof_json_roundtrip]). *)

From Stdlib Require Import Ascii String.
From S2P Require Import Prelude Types Codec Crypto Merkle MptNode Mpt MptRep MptRefine MptSpec MptProof Store StoreCodec Blocks Tries ExecBase Vote Leader Quorum Staking Wasm Mempool Exec ExecSpec Wire.
From stdpp Require Import list pretty.

#[local] Set Warnings "-register-all".
#[local] Open Scope string_scope.
#[local] Open Scope Z_scope.
#[local] Open Scope l1_scope.

(** ** [serde_json::Value] *)

(** A number is an integer or a float literal; an object is its entries, one
    per key. *)
Inductive Value : Type :=
| VNull
| VBool (b : bool)
| VInt (z : Z)
| VFloat (literal : string)
| VString (s : string)
| VArray (l : list Value)
| VObject (l : list (string * Value)).

Definition entry (l : list (string * Value)) (key : string) : option Value :=
  snd <$> List.find (λ e, String.eqb key e.1) l.
Definition vget (v : Value) (key : string) : option Value :=
  match v with VObject l => entry l key | _ => None end.
Definition as_str (v : Value) : option string := match v with VString s => Some s | _ => None end.
Definition as_array (v : Value) : option (list Value) :=
  match v with VArray l => Some l | _ => None end.
Definition as_u64 (v : Value) : option Z :=
  match v with VInt z => if (0 <=? z) && (z <=? U64_MAX) then Some z else None | _ => None end.

Definition get_str (v : Value) (key : string) : option string := vget v key ≫= as_str.
Definition get_u64 (v : Value) (key : string) : option Z := vget v key ≫= as_u64.
Definition get_array (v : Value) (key : string) : option (list Value) := vget v key ≫= as_array.

(** The [hex] crate: [encode] and [decode(..).ok()]. *)
Class Hex := {
  hex_encode : bytes → string;
  hex_decode : string → option bytes;
}.

Class HexLaws `{Hex} := {
  hex_decode_encode b : bytes_ok b → hex_decode (hex_encode b) = Some b;
  hex_decode_bytes s b : hex_decode s = Some b → bytes_ok b;
}.

(** ** [network/src/rate_limit.rs] *)

Definition peer_msg_limit : Z := Z.min (Z.max (MAX_BLOCK_BYTES / MAX_TX_BYTES) 1) MEMPOOL_MAX_TXS.

Record PeerRateLimiter := { rl_counts : gmap bytes Z; rl_limit : Z }.

Definition PeerRateLimiter_new : PeerRateLimiter := {| rl_counts := ∅; rl_limit := peer_msg_limit |}.

(** [peer.to_bytes()] is the key. *)
Definition allow (l : PeerRateLimiter) (peer : bytes) : PeerRateLimiter * bool :=
  let n := default 0 (rl_counts l !! peer) in
  if rl_limit l <=? n
  then ({| rl_counts := <[peer := n]> (rl_counts l); rl_limit := rl_limit l |}, false)
  else ({| rl_counts := <[peer := sat_add U32_MAX n 1]> (rl_counts l); rl_limit := rl_limit l |}, true).
Definition peer_count (l : PeerRateLimiter) (peer : bytes) : Z := default 0 (rl_counts l !! peer).

(** ** [server.rs]: state and errors *)

(** [NodeConfig] as far as the server reads it: the genesis, the bootstrap
    peers and the bytes of the node's own peer id. *)
Record NodeConfig := {
  cfg_genesis : Genesis;
  cfg_bootstrap : gmap bytes bytes;
  cfg_peer_id : bytes;
}.

Record Subscription := { sub_topic : string; sub_active : bool; sub_mailbox : list Value }.

(** The accounts and storage are Merkle Patricia tries; subscription ids are
    keyed by their bytes, which is how strings are ordered. *)
Record RpcInner := {
  r_cfg : NodeConfig;
  r_store : MemoryStore;
  r_pool : Mempool;
  r_world : World trie_result;
  r_commits : CommitLog;
  r_last_finalized : option Finalized;
  r_checkpoint : option Checkpoint;
  r_limiter : PeerRateLimiter;
  r_subs : gmap bytes Subscription;
  r_next_sub : Z;
}.

Definition set_pool (p : Mempool) (i : RpcInner) : RpcInner :=
  {| r_cfg := r_cfg i; r_store := r_store i; r_pool := p; r_world := r_world i; r_commits := r_commits i;
     r_last_finalized := r_last_finalized i; r_checkpoint := r_checkpoint i; r_limiter := r_limiter i;
     r_subs := r_subs i; r_next_sub := r_next_sub i |}.
Definition set_limiter (l : PeerRateLimiter) (i : RpcInner) : RpcInner :=
  {| r_cfg := r_cfg i; r_store := r_store i; r_pool := r_pool i; r_world := r_world i;
     r_commits := r_commits i; r_last_finalized := r_last_finalized i; r_checkpoint := r_checkpoint i;
     r_limiter := l; r_subs := r_subs i; r_next_sub := r_next_sub i |}.
Definition set_subs (s : gmap bytes Subscription) (next : Z) (i : RpcInner) : RpcInner :=
  {| r_cfg := r_cfg i; r_store := r_store i; r_pool := r_pool i; r_world := r_world i;
     r_commits := r_commits i; r_last_finalized := r_last_finalized i; r_checkpoint := r_checkpoint i;
     r_limiter := r_limiter i; r_subs := s; r_next_sub := next |}.

(** [status.rs]. *)
Definition observe_finalized (i : RpcInner) (f : Finalized) : RpcInner :=
  {| r_cfg := r_cfg i; r_store := r_store i; r_pool := r_pool i; r_world := r_world i;
     r_commits := r_commits i; r_last_finalized := Some f; r_checkpoint := r_checkpoint i;
     r_limiter := r_limiter i; r_subs := r_subs i; r_next_sub := r_next_sub i |}.
Definition observe_checkpoint (i : RpcInner) (c : Checkpoint) : RpcInner :=
  {| r_cfg := r_cfg i; r_store := r_store i; r_pool := r_pool i; r_world := r_world i;
     r_commits := r_commits i; r_last_finalized := r_last_finalized i; r_checkpoint := Some c;
     r_limiter := r_limiter i; r_subs := r_subs i; r_next_sub := r_next_sub i |}.

Definition alloc_sub_id (i : RpcInner) : RpcInner * string :=
  (set_subs (r_subs i) (sat_add U64_MAX (r_next_sub i) 1) i, pretty (r_next_sub i)).

Record RpcError := { rpc_code : Z; rpc_message : string }.

Definition invalid_params (msg : string) : RpcError := {| rpc_code := -32602; rpc_message := msg |}.
Definition method_not_found (method : string) : RpcError :=
  {| rpc_code := -32601; rpc_message := String.append "method not found: " method |}.
Definition app_error (msg : string) : RpcError := {| rpc_code := -32000; rpc_message := msg |}.

Inductive TxRpcError : Type := TParams | TRateLimit | TMempool | TUnknown.
Inductive GetBlockError : Type := BParams | BUnknown.
Inductive StateRpcError : Type := SParams | SUnknown | SProof.
Inductive SubError : Type := SubParams | SubUnknown.

Definition rpc_of_tx (e : TxRpcError) : RpcError :=
  match e with
  | TParams => invalid_params "submitTx/getTx params"
  | TRateLimit => app_error "rate limited"
  | TMempool => app_error "mempool rejected"
  | TUnknown => app_error "unknown transaction"
  end.
Definition rpc_of_block (e : GetBlockError) : RpcError :=
  match e with BParams => invalid_params "getBlock params" | BUnknown => app_error "unknown block" end.
Definition rpc_of_state (e : StateRpcError) : RpcError :=
  match e with
  | SParams => invalid_params "state params"
  | SUnknown => app_error "unknown account/block"
  | SProof => app_error "proof unavailable"
  end.
Definition rpc_of_sub (e : SubError) : RpcError :=
  match e with
  | SubParams => invalid_params "subscribe params"
  | SubUnknown => app_error "unknown subscription"
  end.

Section rpc.
Context `{!Crypto} `{!Hex}.

(** [strip_prefix("0x").unwrap_or(s)]. *)
Definition strip_0x (s : string) : string :=
  match s with String "0"%char (String "x"%char r) => r | _ => s end.
Definition decode_hex (s : string) : result bytes RpcError :=
  ok_or (hex_decode (strip_0x s)) (invalid_params "hex").
Definition encode_hex (b : bytes) : string := String.append "0x" (hex_encode b).

(** A 32-byte array in hex, with one error for every failure. *)
Definition decode_hex32 {E : Type} (s : string) (e : E) : result bytes E :=
  let? raw := map_err (λ _, e) (decode_hex s) in
  if negb (len raw =? 32) then Err e else Ok raw.

(** [RpcInner::from_config]; [None] is the panic of [Mempool::new]. *)
Definition from_config (cfg : NodeConfig) : option RpcInner :=
  match Mempool_new (gp_registry (g_params (cfg_genesis cfg))) with
  | None => None
  | Some pool =>
      Some {| r_cfg := cfg; r_store := MemoryStore_new; r_pool := pool;
              r_world := world_from_genesis (cfg_genesis cfg); r_commits := ∅;
              r_last_finalized := None; r_checkpoint := None; r_limiter := PeerRateLimiter_new;
              r_subs := ∅; r_next_sub := 1 |}
  end.

(** ** [tx.rs] *)

Definition submit_tx (i : RpcInner) (p : Value) : option (RpcInner * result Value TxRpcError) :=
  match get_str p "tx" with
  | None => Some (i, Err TParams)
  | Some tx_hex =>
  match decode_hex tx_hex with
  | Err _ => Some (i, Err TParams)
  | Ok b =>
  match decode_signed_tx b with
  | Err _ => Some (i, Err TParams)
  | Ok signed =>
      let r := allow (r_limiter i) (cfg_peer_id (r_cfg i)) in
      let i := set_limiter r.1 i in
      if negb r.2 then Some (i, Err TRateLimit)
      else
        let acc := match pool_sender signed with
                   | Ok a => account (r_world i) a
                   | Err _ => Account_empty
                   end in
        match wire_mempool signed acc (r_pool i) with
        | None => None
        | Some (pool, Err _) => Some (set_pool pool i, Err TMempool)
        | Some (pool, Ok _) =>
            match tx_hash (st_tx signed) with
            | None => None
            | Some h => Some (set_pool pool i, Ok (VObject [("hash", VString (encode_hex h))]))
            end
        end
  end end end.

Definition get_tx (i : RpcInner) (p : Value) : option (result Value TxRpcError) :=
  match get_str p "hash" with
  | None => Some (Err TParams)
  | Some h =>
  match decode_hex32 h TParams with
  | Err e => Some (Err e)
  | Ok hash =>
  match get_tx_by_hash (r_store i) hash with
  | None => None
  | Some (Err _) => Some (Err TUnknown)
  | Some (Ok None) => Some (Err TUnknown)
  | Some (Ok (Some (height, index, signed))) =>
      match encode_signed_tx signed with
      | None => None
      | Some b => Some (Ok (VObject [("height", VInt height); ("index", VInt index);
                                     ("tx", VString (encode_hex b))]))
      end
  end end end.

(** ** [block.rs] *)

Definition block_height (i : RpcInner) (p : Value) : result Height GetBlockError :=
  match get_u64 p "height" with
  | Some h => Ok h
  | None =>
      match get_str p "hash" with
      | Some hs =>
          let? hash := decode_hex32 hs BParams in
          let? o := map_err (λ _, BUnknown) (height_by_header_hash (r_store i) hash) in
          ok_or o BUnknown
      | None =>
          let? o := map_err (λ _, BUnknown) (tip (r_store i)) in
          ok_or o BUnknown
      end
  end.

Definition rpc_get_block (i : RpcInner) (p : Value) : option (result Value GetBlockError) :=
  match block_height i p with
  | Err e => Some (Err e)
  | Ok height =>
  match get_header (r_store i) height with
  | Err _ | Ok None => Some (Err BUnknown)
  | Ok (Some header) =>
  match get_block (r_store i) height with
  | Err _ | Ok None => Some (Err BUnknown)
  | Ok (Some block) =>
      match encode_block_body block with
      | None => None
      | Some body =>
          Some (Ok (VObject [("height", VInt height);
                             ("hash", VString (encode_hex (header_hash header)));
                             ("stateRoot", VString (encode_hex (h_state_root header)));
                             ("body", VString (encode_hex body))]))
      end
  end end end.

(** ** [state.rs] *)

Definition parse_addr (p : Value) : result Address StateRpcError :=
  match get_str p "address" with
  | None => Err SParams
  | Some s => decode_hex32 s SParams
  end.

Definition get_account (i : RpcInner) (p : Value) : result Value StateRpcError :=
  let? addr := parse_addr p in
  match acct_get (accounts (r_world i)) addr with
  | None => Err SUnknown
  | Some acc => Ok (VObject [("balance", VString (pretty (balance acc))); ("nonce", VInt (nonce acc));
                             ("codeHash", VString (encode_hex (code_hash acc)))])
  end.

Definition hex_strings (l : list bytes) : Value := VArray ((λ b, VString (encode_hex b)) <$> l).

Definition proof_json (p : MptProof) : Value :=
  VObject [("nodes", hex_strings (mp_nodes p));
           ("value", match mp_value p with Some v => VString (encode_hex v) | None => VNull end);
           ("chainMerkleRoot", VString (encode_hex (mp_chain_merkle_root p)));
           ("chainMerkle",
             VObject [("leafIndex", VInt (Z.of_nat (leaf_index (mp_chain_merkle p))));
                      ("siblings", hex_strings (siblings (mp_chain_merkle p)))])].

Fixpoint parse_all {A : Type} (f : string → result A StateRpcError) (l : list Value) :
    result (list A) StateRpcError :=
  match l with
  | [] => Ok []
  | v :: l =>
      let? s := ok_or (as_str v) SParams in
      let? a := f s in
      let? r := parse_all f l in Ok (a :: r)
  end.

Definition proof_from_json (v : Value) : result MptProof StateRpcError :=
  let? nodes := ok_or (get_array v "nodes") SParams in
  let? out_nodes := parse_all (λ s, map_err (λ _, SParams) (decode_hex s)) nodes in
  let? value := match vget v "value" with
                | None | Some VNull => Ok None
                | Some x => let? s := ok_or (as_str x) SParams in
                            let? b := map_err (λ _, SParams) (decode_hex s) in Ok (Some b)
                end in
  let? root_s := ok_or (get_str v "chainMerkleRoot") SParams in
  let? root := decode_hex32 root_s SParams in
  let? cm := ok_or (vget v "chainMerkle") SParams in
  let? idx := ok_or (get_u64 cm "leafIndex") SParams in
  let? sibs := ok_or (get_array cm "siblings") SParams in
  let? sibs := parse_all (λ s, decode_hex32 s SParams) sibs in
  Ok {| mp_nodes := out_nodes; mp_value := value;
        mp_chain_merkle := {| leaf_index := Z.to_nat idx; siblings := sibs |};
        mp_chain_merkle_root := root |}.

(** [prove(as_trie(), key)] on a trie that has not panicked. *)
Definition prove_account (t : trie_result) (key : bytes) : option (option MptProof) :=
  match t with TOk t => mpt_prove t key | TPanic _ => None end.

Definition get_proof (i : RpcInner) (p : Value) : option (result Value StateRpcError) :=
  match parse_addr p with
  | Err e => Some (Err e)
  | Ok addr =>
  match (match get_u64 p "height" with
         | Some h => Ok h
         | None => let? o := map_err (λ _, SUnknown) (tip (r_store i)) in Ok (default 0 o)
         end) with
  | Err e => Some (Err e)
  | Ok height =>
      let header := match get_header (r_store i) height with Ok o => o | Err _ => None end in
      let root := match header with Some h => h_state_root h | None => commit_state_root (r_world i) end in
      match prove_account (accounts (r_world i)) (account_key addr) with
      | None => None
      | Some None => Some (Err SProof)
      | Some (Some proof) =>
          Some (Ok (VObject [("height", VInt height);
                             ("stateRoot", VString (encode_hex root));
                             ("accountRoot", VString (encode_hex (trie_root (accounts (r_world i)))));
                             ("storageRoot", VString (encode_hex (trie_root (w_storage (r_world i)))));
                             ("proof", proof_json proof)]))
      end
  end end.

(** ** [status.rs] *)

Definition get_status (i : RpcInner) : Value :=
  let peers := VInt (Z.of_nat (size (cfg_bootstrap (r_cfg i)))) in
  match r_last_finalized i with
  | Some f =>
      VObject [("height", VInt (fin_height f)); ("round", VInt (fin_round f)); ("syncing", VBool false);
               ("peerCount", peers); ("blockHash", VString (encode_hex (fin_block_hash f)));
               ("appHash", VString (encode_hex (fin_app_hash f)))]
  | None =>
      VObject [("height", VNull); ("round", VInt 0); ("syncing", VBool true); ("peerCount", peers);
               ("blockHash", VNull)]
  end.

Definition get_checkpoint (i : RpcInner) : Value :=
  match r_checkpoint i with
  | Some c => VObject [("height", VInt (cp_height c));
                       ("headerHash", VString (encode_hex (cp_header_hash c)))]
  | None => VObject [("height", VNull); ("headerHash", VNull)]
  end.

(** ** [sub.rs] *)

Definition subscribe (i : RpcInner) (p : Value) : RpcInner * result Value SubError :=
  let topic := default "newHeads"%string (get_str p "topic") in
  if negb (String.eqb topic "newHeads") then (i, Err SubParams)
  else
    let r := alloc_sub_id i in
    let sub := {| sub_topic := topic; sub_active := true; sub_mailbox := [] |} in
    (set_subs (<[ascii_bytes r.2 := sub]> (r_subs r.1)) (r_next_sub r.1) r.1,
     Ok (VObject [("id", VString r.2); ("topic", VString topic)])).

Definition unsubscribe (i : RpcInner) (p : Value) : RpcInner * result Value SubError :=
  match get_str p "id" with
  | None => (i, Err SubParams)
  | Some id =>
      match r_subs i !! ascii_bytes id with
      | None => (i, Err SubUnknown)
      | Some sub =>
          (set_subs (<[ascii_bytes id := {| sub_topic := sub_topic sub; sub_active := false; sub_mailbox := [] |}]>
                      (r_subs i)) (r_next_sub i) i,
           Ok (VObject [("ok", VBool true)]))
      end
  end.

Definition head_note (header : Header) : Value :=
  VObject [("jsonrpc", VString "2.0"); ("method", VString "l1_subscription");
           ("params", VObject [("topic", VString "newHeads");
                               ("hash", VString (encode_hex (header_hash header)));
                               ("height", VInt (hf_height (h_fields header)));
                               ("round", VInt (hf_round (h_fields header)))])].

Definition deliver (note : Value) (sub : Subscription) : Subscription :=
  if sub_active sub && String.eqb (sub_topic sub) "newHeads"
  then {| sub_topic := sub_topic sub; sub_active := sub_active sub;
          sub_mailbox := sub_mailbox sub ++ [note] |}
  else sub.

Definition notify_new_head (i : RpcInner) (header : Header) : RpcInner :=
  set_subs (deliver (head_note header) <$> r_subs i) (r_next_sub i) i.

Definition flush_all (i : RpcInner) : list Value :=
  concat ((λ e, sub_mailbox e.2) <$> btree_iter (r_subs i)).

(** ** [dispatch], [handle_object] *)

Definition dispatch (i : RpcInner) (method : string) (p : Value) :
    option (RpcInner * result Value RpcError) :=
  if String.eqb method "l1_submitTx" then
    match submit_tx i p with
    | None => None
    | Some (i', r) => Some (i', map_err rpc_of_tx r)
    end
  else if String.eqb method "l1_getTransaction" then
    (λ r, (i, map_err rpc_of_tx r)) <$> get_tx i p
  else if String.eqb method "l1_getBlock" then
    (λ r, (i, map_err rpc_of_block r)) <$> rpc_get_block i p
  else if String.eqb method "l1_getAccount" then Some (i, map_err rpc_of_state (get_account i p))
  else if String.eqb method "l1_getProof" then
    (λ r, (i, map_err rpc_of_state r)) <$> get_proof i p
  else if String.eqb method "l1_getStatus" then Some (i, Ok (get_status i))
  else if String.eqb method "l1_getCheckpoint" then Some (i, Ok (get_checkpoint i))
  else if String.eqb method "l1_subscribe" then
    let r := subscribe i p in Some (r.1, map_err rpc_of_sub r.2)
  else if String.eqb method "l1_unsubscribe" then
    let r := unsubscribe i p in Some (r.1, map_err rpc_of_sub r.2)
  else Some (i, Err (method_not_found method)).

Definition envelope_ok (id result : Value) : Value :=
  VObject [("jsonrpc", VString "2.0"); ("id", id); ("result", result)].
Definition envelope_err (id : Value) (err : RpcError) : Value :=
  VObject [("jsonrpc", VString "2.0"); ("id", id);
           ("error", VObject [("code", VInt (rpc_code err)); ("message", VString (rpc_message err))])].

Definition handle_object (i : RpcInner) (v : Value) : option (RpcInner * Value) :=
  if bool_decide (get_str v "jsonrpc" ≠ Some "2.0"%string)
  then Some (i, envelope_err VNull (invalid_params "jsonrpc 2.0 required"))
  else
    let id := default VNull (vget v "id") in
    match get_str v "method" with
    | None => Some (i, envelope_err id (invalid_params "method"))
    | Some method =>
        let p := default (VObject []) (vget v "params") in
        match dispatch i method p with
        | None => None
        | Some (i', Ok r) => Some (i', envelope_ok id r)
        | Some (i', Err e) => Some (i', envelope_err id e)
        end
    end.

End rpc.

(** ** Hex and JSON *)

Section json.
Context `{!Crypto} `{!Hex, !HexLaws}.

Lemma decode_hex_encode b : bytes_ok b → decode_hex (encode_hex b) = Ok b.
Proof.
  intros Hb. unfold decode_hex.
  change (strip_0x (encode_hex b)) with (hex_encode b). by rewrite hex_decode_encode.
Qed.

Lemma decode_hex32_encode {E : Type} b (e : E) : array 32 b → decode_hex32 (encode_hex b) e = Ok b.
Proof. intros [Hl Hb]. unfold decode_hex32. rewrite decode_hex_encode by done. cbn. by rewrite Hl. Qed.

Lemma decode_hex_ok s b : decode_hex s = Ok b → bytes_ok b.
Proof.
  unfold decode_hex. destruct (hex_decode (strip_0x s)) as [b'|] eqn:E; [|done].
  intros Eb. injection Eb as <-. by eapply hex_decode_bytes.
Qed.

Lemma decode_hex32_ok {E : Type} s (e : E) b : decode_hex32 s e = Ok b → array 32 b.
Proof.
  unfold decode_hex32. destruct (decode_hex s) as [r|] eqn:Er; [|done]. cbn.
  destruct (Z.eqb_spec (len r) 32) as [Hl|]; [|done]. intros Eb. injection Eb as <-.
  split; [lia|by eapply decode_hex_ok].
Qed.

Lemma parse_all_hex {A : Type} (f : string → result A StateRpcError) (g : A → bytes) (l : list A) :
  Forall (λ a, f (encode_hex (g a)) = Ok a) l →
  parse_all f ((λ b, VString (encode_hex b)) <$> (g <$> l)) = Ok l.
Proof. induction 1 as [|a l Ha _ IH]; [done|]. cbn. by rewrite Ha, IH. Qed.

(** The values of the Rust type [MptProof]. *)
Definition proof_wf (p : MptProof) : Prop :=
  Forall bytes_ok (mp_nodes p) ∧ (∀ v, mp_value p = Some v → bytes_ok v) ∧
  array 32 (mp_chain_merkle_root p) ∧ Forall (array 32) (siblings (mp_chain_merkle p)) ∧
  Z.of_nat (leaf_index (mp_chain_merkle p)) ≤ U64_MAX.

Lemma proof_json_ok p : proof_wf p → proof_from_json (proof_json p) = Ok p.
Proof.
  intros (Hn & Hv & Hr & Hs & Hi). destruct p as [nodes value [idx sibs] root]. cbn in *.
  unfold proof_from_json. cbn.
  rewrite <- (list_fmap_id nodes) at 1. rewrite parse_all_hex.
  2: { eapply Forall_impl; [exact Hn|]. intros b Hb. unfold id. by rewrite decode_hex_encode. }
  destruct value as [v|]; cbn; rewrite ?decode_hex_encode, decode_hex32_encode by auto; cbn.
  all: unfold get_u64; cbn; rewrite (proj2 (Z.leb_le 0 _)), (proj2 (Z.leb_le _ U64_MAX)) by lia; cbn.
  all: rewrite <- (list_fmap_id sibs) at 1; rewrite parse_all_hex
    by (eapply Forall_impl; [exact Hs|]; intros b Hb; unfold id; by rewrite decode_hex32_encode).
  all: by rewrite Nat2Z.id.
Qed.

(** A trie proof that is written to JSON and read back is the same proof,
    for every proof a server can hold (inclusion and exclusion). *)
Theorem proof_json_roundtrip p : proof_wf p → proof_from_json (proof_json p) = Ok p.
Proof. apply proof_json_ok. Qed.

End json.

(** ** Serving *)

Section serve.
Context `{!Crypto} `{!Hex}.

(** Requests handled one after the other. *)
Fixpoint serve (i : RpcInner) (reqs : list Value) : option (RpcInner * list Value) :=
  match reqs with
  | [] => Some (i, [])
  | v :: reqs =>
      match handle_object i v with
      | None => None
      | Some (i, r) =>
          match serve i reqs with None => None | Some (i, rs) => Some (i, r :: rs) end
      end
  end.

(** A JSON-RPC response to the request [v]. *)
Definition answers (v r : Value) : Prop :=
  (∃ id res, r = envelope_ok id res ∧ id = default VNull (vget v "id")) ∨
  (∃ id e, r = envelope_err id e ∧
     (get_str v "jsonrpc" = Some "2.0" → id = default VNull (vget v "id"))).

Lemma submit_tx_inv i p i' r :
  submit_tx i p = Some (i', r) →
  (i' = i ∧ ∃ e, r = Err e) ∨
  ∃ signed, let a := allow (r_limiter i) (cfg_peer_id (r_cfg i)) in
    let i1 := set_limiter a.1 i in
    (i' = i1 ∧ ∃ e, r = Err e) ∨
    (a.2 = true ∧ ∃ addr h, pool_sender signed = Ok addr ∧
       mempool_verify signed (account (r_world i) addr) = Some (Ok tt) ∧
       i' = set_pool (enqueue (r_pool i) addr signed) i1 ∧ tx_hash (st_tx signed) = Some h ∧
       r = Ok (VObject [("hash", VString (encode_hex h))])).
Proof.
  unfold submit_tx. destruct (get_str p "tx") as [s|]; [|intros; simplify_eq; eauto].
  destruct (decode_hex s) as [b|]; [|intros; simplify_eq; eauto].
  destruct (decode_signed_tx b) as [signed|]; [|intros; simplify_eq; eauto].
  destruct (allow _ _) as [l ok]. cbn [fst snd]. intros E. right. exists signed. cbn zeta.
  destruct ok; cbn [negb] in E; [|simplify_eq; eauto]. unfold wire_mempool, ingest_tx in E.
  destruct (mempool_verify signed _) as [[[]|]|] eqn:Ev; cbn in E; [|simplify_eq; left; eauto|done].
  destruct (pool_sender signed) as [addr|] eqn:Es; [|simplify_eq; left; eauto].
  destruct (tx_hash _) as [h|] eqn:Eh; [|done]. simplify_eq. right. split; [done|]. by exists addr, h.
Qed.

(** What no request changes. *)
Definition frame (i i' : RpcInner) : Prop :=
  r_cfg i' = r_cfg i ∧ r_store i' = r_store i ∧ r_world i' = r_world i ∧ r_commits i' = r_commits i ∧
  r_last_finalized i' = r_last_finalized i ∧ r_checkpoint i' = r_checkpoint i.

Lemma dispatch_other i m p i' r :
  dispatch i m p = Some (i', r) → m ≠ "l1_submitTx" → frame i i' ∧ r_limiter i' = r_limiter i.
Proof.
  unfold dispatch. intros E Hm. rewrite (proj2 (String.eqb_neq _ _) Hm) in E.
  unfold subscribe, unsubscribe, alloc_sub_id in E.
  repeat (case_hyp E; cbn [fst snd fmap option_fmap option_map] in E); simplify_eq; try done.
  all: destruct (fmap_Some_1 _ _ _ E) as (? & _ & ?); by simplify_eq.
Qed.

Lemma dispatch_frame i m p i' r : dispatch i m p = Some (i', r) → frame i i'.
Proof.
  intros E. destruct (decide (m = "l1_submitTx")) as [->|Hm]; [|by destruct (dispatch_other _ _ _ _ _ E Hm)].
  cbn in E. destruct (submit_tx i p) as [[i1 r1]|] eqn:Es; [|done]. simplify_eq.
  destruct (submit_tx_inv _ _ _ _ Es) as [[-> _]|(s & [[-> _]|(_ & a & h & _ & _ & -> & _)])]; done.
Qed.

Lemma handle_inv i v i' r :
  handle_object i v = Some (i', r) →
  answers v r ∧
  (i' = i ∧ vget r "result" = None ∨
   ∃ m p d, get_str v "method" = Some m ∧ dispatch i m p = Some (i', d) ∧
     vget r "result" = ok_option d).
Proof.
  unfold handle_object, answers. case_bool_decide as Hj.
  { intros E. simplify_eq. split; [|by left]. right. eexists _, _. by split. }
  destruct (get_str v "method") as [m|] eqn:Em.
  2: { intros E. simplify_eq. split; [|by left]. right. by eexists _, _. }
  destruct (dispatch _ _ _) as [[i1 [x|e]]|] eqn:Ed; intros E; simplify_eq.
  - split; [left; by eexists _, _|]. right. by eexists m, _, (Ok x).
  - split; [right; by eexists _, _|]. right. by eexists m, _, (Err e).
Qed.

(** ** Rate limit *)

Definition accepted (v r : Value) : bool :=
  bool_decide (get_str v "method" = Some "l1_submitTx") && bool_decide (is_Some (vget r "result")).
Fixpoint accepted_count (reqs replies : list Value) : Z :=
  match reqs, replies with
  | v :: reqs, r :: replies => (if accepted v r then 1 else 0) + accepted_count reqs replies
  | _, _ => 0
  end.

(** The server's own counter, within its limit. *)
Definition own_count (i : RpcInner) : Z := peer_count (r_limiter i) (cfg_peer_id (r_cfg i)).
Definition limited (i : RpcInner) : Prop :=
  rl_limit (r_limiter i) = peer_msg_limit ∧ 0 ≤ own_count i ≤ peer_msg_limit.

Lemma peer_msg_limit_32 : peer_msg_limit = 32.
Proof. reflexivity. Qed.

Lemma allow_spec l peer :
  rl_limit l = peer_msg_limit → 0 ≤ peer_count l peer ≤ peer_msg_limit →
  let a := allow l peer in
  rl_limit a.1 = peer_msg_limit ∧ peer_count a.1 peer ≤ peer_msg_limit ∧
  peer_count a.1 peer = peer_count l peer + (if a.2 then 1 else 0).
Proof.
  rewrite peer_msg_limit_32. unfold allow, peer_count. intros Hl Hn.
  rewrite Hl. destruct (Z.leb_spec 32 (default 0 (rl_counts l !! peer))) as [Hge|Hlt]; cbn [fst snd rl_counts rl_limit].
  - rewrite lookup_insert_eq. cbn. lia.
  - rewrite lookup_insert_eq. cbn. uint. lia.
Qed.

Lemma submit_counts i p i' r :
  limited i → submit_tx i p = Some (i', r) →
  limited i' ∧ own_count i + (if is_ok r then 1 else 0) ≤ own_count i'.
Proof.
  intros [Hl Hn] E. pose proof (allow_spec _ _ Hl Hn) as Ha. cbn zeta in Ha.
  destruct (submit_tx_inv _ _ _ _ E) as
    [[-> [e ->]]|(s & [[-> [e ->]]|(Hok & a & h & _ & _ & -> & _ & ->)])]; cbn [is_ok].
  - split; [done|lia].
  - unfold limited, own_count in *. cbn [r_limiter r_cfg set_limiter]. destruct (allow _ _).2; lia.
  - unfold limited, own_count in *. cbn [r_limiter r_cfg set_limiter set_pool]. rewrite Hok in Ha. lia.
Qed.

Lemma handle_counts i v i' r :
  limited i → handle_object i v = Some (i', r) →
  limited i' ∧ own_count i + (if accepted v r then 1 else 0) ≤ own_count i'.
Proof.
  intros Hl E. unfold accepted. destruct (handle_inv _ _ _ _ E) as [_ [[-> Hr]|(m & p & d & Em & Ed & Hr)]]; rewrite Hr.
  { rewrite andb_false_r. split; [done|lia]. }
  rewrite Em. case_bool_decide as Hm; cbn [andb].
  - simplify_eq. cbn in Ed. destruct (submit_tx i p) as [[i1 r1]|] eqn:Es; [|done]. simplify_eq.
    destruct (submit_counts _ _ _ _ Hl Es) as [? Hc]. split; [done|].
    by destruct r1.
  - destruct (dispatch_other _ _ _ _ _ Ed) as [(Hc & _) Hlim]; [congruence|].
    unfold limited, own_count in *. rewrite Hc, Hlim. split; [done|lia].
Qed.

Lemma serve_counts reqs i i' replies :
  limited i → serve i reqs = Some (i', replies) →
  own_count i + accepted_count reqs replies ≤ own_count i' ∧ limited i'.
Proof.
  revert i replies. induction reqs as [|v reqs IH]; intros i replies Hl E; cbn in E.
  { simplify_eq. cbn. split; [lia|done]. }
  destruct (handle_object i v) as [[i1 r]|] eqn:Eh; [|done].
  destruct (serve i1 reqs) as [[i2 rs]|] eqn:Es; [|done]. simplify_eq.
  destruct (handle_counts _ _ _ _ Hl Eh) as [Hl1 Hc]. destruct (IH _ _ Hl1 Es) as [Hc2 Hl2].
  split; [cbn; lia|done].
Qed.

(** C32: over its whole life a server accepts at most 32 transactions, from
    all its clients together: the counter that bounds submissions belongs to
    the node's own peer id and is never reset. *)
Theorem submissions_bounded cfg i reqs i' replies :
  from_config cfg = Some i → serve i reqs = Some (i', replies) → accepted_count reqs replies ≤ 32.
Proof.
  intros Hi E. assert (limited i ∧ own_count i = 0) as [Hl Hz].
  { unfold from_config in Hi. destruct (Mempool_new _); [|done]. simplify_eq.
    unfold limited, own_count, peer_count. cbn. rewrite peer_msg_limit_32, lookup_empty. cbn. lia. }
  destruct (serve_counts _ _ _ _ Hl E) as [Hc [_ Hb]]. rewrite peer_msg_limit_32 in Hb. lia.
Qed.

End serve.

(** ** Totality *)

Section total.
Context `{!Crypto, !CryptoLaws} `{!Hex, !HexLaws}.

(** The accounts trie is sound and the store holds byte strings. *)
Definition server_ok (i : RpcInner) : Prop :=
  (∃ mm, trie_holds (accounts (r_world i)) mm) ∧ map_Forall (λ _ v, bytes_ok v) (ms_map (r_store i)).

Lemma submit_tx_total i p : is_Some (submit_tx i p).
Proof.
  unfold submit_tx. destruct (get_str p "tx") as [s|]; [|by eexists].
  destruct (decode_hex s) as [b|] eqn:Eb; [|by eexists]. apply decode_hex_ok in Eb.
  destruct (decode_signed_tx b) as [signed|] eqn:Es; [|by eexists].
  destruct (signed_tx_canonical _ _ Eb Es) as [_ (Hwf & _)].
  cbn zeta. destruct (negb _); [by eexists|]. unfold wire_mempool, ingest_tx.
  match goal with |- context [mempool_verify signed ?a] => destruct (verify_wf_total signed a Hwf) as [v ->] end.
  destruct v as [u|e]; [|by eexists]. cbn. unfold tx_hash.
  destruct (tx_encode_total _ Hwf) as [h ->]. destruct (pool_sender signed); by eexists.
Qed.

Lemma stored_block_total i height block :
  server_ok i → get_block (r_store i) height = Ok (Some block) →
  is_Some (encode_block_body block) ∧ Forall signed_tx_wf (b_txs block).
Proof.
  intros [_ Hs]. unfold get_block.
  change (kv_get (r_store i) (block_key height)) with
    (Ok (E := TypesError) (ms_map (r_store i) !! block_key height)).
  destruct (ms_map (r_store i) !! block_key height) as [b|] eqn:Eb; [|done].
  destruct (decode_block_body b) as [bl|] eqn:Ed; [|done]. intros E. simplify_eq.
  destruct (body_canonical _ _ (Hs _ _ Eb) Ed) as [-> [_ ?]]. by split; [eexists|].
Qed.

Lemma get_tx_total i p : server_ok i → is_Some (get_tx i p).
Proof.
  intros Hi. unfold get_tx, get_tx_by_hash. destruct (get_str p "hash") as [s|]; [|by eexists].
  destruct (decode_hex32 s TParams) as [h|]; [|by eexists].
  destruct (kv_get _ _) as [[loc|]|]; [|by eexists..].
  destruct (decode_tx_locator loc) as [[height index]|]; [|by eexists].
  destruct (get_block _ height) as [[block|]|] eqn:Eb; [|by eexists..].
  destruct (b_txs block !! Z.to_nat index) as [signed|] eqn:Ej; [|by eexists].
  destruct (stored_block_total _ _ _ Hi Eb) as [_ Hwf].
  destruct (Forall_lookup_1 _ _ _ _ Hwf Ej) as (Ht & _). unfold tx_hash, encode_signed_tx.
  destruct (tx_encode_total _ Ht) as [e Ee]. rewrite Ee. cbn. case_bool_decide; [by eexists|].
  rewrite Ee. by eexists.
Qed.

Lemma get_block_total i p : server_ok i → is_Some (rpc_get_block i p).
Proof.
  intros Hi. unfold rpc_get_block. destruct (block_height i p) as [height|]; [|by eexists].
  destruct (get_header _ _) as [[hd|]|]; [|by eexists..].
  destruct (get_block _ _) as [[block|]|] eqn:Eb; [|by eexists..].
  destruct (stored_block_total _ _ _ Hi Eb) as [[b ->] _]. by eexists.
Qed.

Lemma parse_addr_ok p a : parse_addr p = Ok a → array 32 a.
Proof. unfold parse_addr. destruct (get_str p "address"); [|done]. apply decode_hex32_ok. Qed.

Lemma prove_account_ok t mm a :
  trie_holds t mm → array 32 a →
  ∃ tr pr, t = TOk tr ∧ tinv tr mm ∧ prove_account t (account_key a) = Some (Some pr) ∧
    mpt_prove tr a = Some (Some pr) ∧ mp_value pr = mm !! a ∧ mpt_verify a pr (t_root tr) = Some true.
Proof.
  intros Ht [_ Ha]. destruct t as [tr|]; [|done].
  destruct (mpt_prove_complete tr mm a Ht Ha) as (pr & Ep & Ev & Hv & _). by exists tr, pr.
Qed.

Lemma get_proof_total i p : server_ok i → is_Some (get_proof i p).
Proof.
  intros [[mm Ht] _]. unfold get_proof. destruct (parse_addr p) as [a|] eqn:Ea; [|by eexists].
  case_match; [|by eexists]. apply parse_addr_ok in Ea.
  destruct (prove_account_ok _ _ _ Ht Ea) as (tr & pr & _ & _ & -> & _). by eexists.
Qed.

Lemma dispatch_total i m p : server_ok i → is_Some (dispatch i m p).
Proof.
  intros Hi. unfold dispatch.
  destruct (submit_tx_total i p) as [[i1 r1] ->].
  destruct (get_tx_total i p Hi) as [? ->], (get_block_total i p Hi) as [? ->], (get_proof_total i p Hi) as [? ->].
  repeat case_match; by eexists.
Qed.

Lemma handle_total i v :
  server_ok i → ∃ i' r, handle_object i v = Some (i', r) ∧ answers v r ∧ frame i i'.
Proof.
  intros Hi. assert (is_Some (handle_object i v)) as [[i' r] E].
  { unfold handle_object. case_bool_decide; [by eexists|]. destruct (get_str v "method") as [m|]; [|by eexists].
    cbn zeta. destruct (dispatch_total i m (default (VObject []) (vget v "params")) Hi) as [[i1 [x|e]] ->]; by eexists. }
  exists i', r. split; [done|]. destruct (handle_inv _ _ _ _ E) as [Ha [[-> _]|(m & p & d & _ & Ed & _)]]; [done|].
  by split; [|eapply dispatch_frame].
Qed.


(** A submission that is answered with a hash queued a transaction whose
    signature, nonce, gas and balance were verified against the sender's
    account in the served world, under its sender and nonce, and changed no
    other queued transaction; the answer is the hash of its encoding. *)
Theorem submit_tx_ok i p i' v :
  submit_tx i p = Some (i', Ok v) →
  ∃ signed addr h, pool_sender signed = Ok addr ∧
    mempool_verify signed (account (r_world i) addr) = Some (Ok tt) ∧
    tx_hash (st_tx signed) = Some h ∧ v = VObject [("hash", VString (encode_hex h))] ∧
    lookup_tx (r_pool i') addr (tx_nonce (st_tx signed)) = Some signed ∧
    (∀ a n, (a, n) ≠ (addr, tx_nonce (st_tx signed)) → lookup_tx (r_pool i') a n = lookup_tx (r_pool i) a n) ∧
    frame i i'.
Proof.
  intros E. destruct (submit_tx_inv _ _ _ _ E) as [[_ [e ?]]|(s & [[_ [e ?]]|(_ & a & h & Hs & Hv & -> & Hh & Hr)])];
    simplify_eq. exists s, a, h. do 4 (split; [done|]). cbn [r_pool set_pool].
  unfold lookup_tx, enqueue, set_queued. cbn [queued]. split; [by rewrite lookup_insert_eq, lookup_insert_eq|].
  split; [|done]. intros a' n Hne. destruct (decide (a' = a)) as [->|Ha]; [|by rewrite lookup_insert_ne].
  rewrite lookup_insert_eq, lookup_insert_ne by congruence. by destruct (queued (r_pool i) !! a).
Qed.

End total.

(** ** A concrete server *)

(** Signatures of 64 bytes, so that a signed transaction can be sent. *)
Definition rpc_crypto : Crypto := {|
  blake3 := toy_hash;
  ed25519_pk_valid _ := true;
  ed25519_verify _ _ sig := bool_decide (sig = replicate 64 1);
  bls_pk_valid _ := true;
  bls_sig_valid _ := true;
  bls_verify _ _ sig := bool_decide (sig = replicate 96 1);
  bls_aggregate_sigs _ := Some (replicate 96 1);
  bls_aggregate_pks _ := Some (replicate 48 2);
|}.

Lemma rpc_crypto_laws : @CryptoLaws rpc_crypto.
Proof. split. intros m. split; [apply length_be_bytes|apply be_bytes_ok]. Qed.

Definition hex_digit (n : Z) : ascii := ascii_of_N (Z.to_N (if n <? 10 then 48 + n else 87 + n)).
Definition hex_value (c : ascii) : option Z :=
  let n := Z.of_N (N_of_ascii c) in
  if (48 <=? n) && (n <=? 57) then Some (n - 48)
  else if (97 <=? n) && (n <=? 102) then Some (n - 87)
  else if (65 <=? n) && (n <=? 70) then Some (n - 55)
  else None.

Fixpoint toy_hex_encode (b : bytes) : string :=
  match b with
  | [] => EmptyString
  | x :: b => String (hex_digit (x / 16)) (String (hex_digit (x mod 16)) (toy_hex_encode b))
  end.
Fixpoint toy_hex_decode (s : string) : option bytes :=
  match s with
  | EmptyString => Some []
  | String a (String b s) =>
      x ← hex_value a; y ← hex_value b; r ← toy_hex_decode s; Some (16 * x + y :: r)
  | _ => None
  end.

Definition toy_hex : Hex := {| hex_encode := toy_hex_encode; hex_decode := toy_hex_decode |}.

Lemma hex_value_digit n : 0 ≤ n < 16 → hex_value (hex_digit n) = Some n.
Proof.
  intros Hn. assert (n ∈ seqZ 0 16) as Hin by (apply elem_of_seqZ; lia). clear Hn. revert n Hin.
  apply Forall_forall. by_eval.
Qed.

Lemma hex_value_bound c n : hex_value c = Some n → 0 ≤ n < 16.
Proof.
  unfold hex_value. intros E. repeat (case_hyp E; [apply (inj Some) in E; bsimpl; lia|]). done.
Qed.

Lemma toy_hex_laws : @HexLaws toy_hex.
Proof.
  split.
  - intros b Hb. change (toy_hex_decode (toy_hex_encode b) = Some b).
    induction Hb as [|x b Hx _ IH]; [done|]. cbn. unfold u8, U8_MAX in Hx.
    rewrite !hex_value_digit by (split; [apply Z.div_pos; lia|apply Z.div_lt_upper_bound; lia] || apply Z.mod_pos_bound; lia).
    cbn. rewrite IH. cbn [mbind option_bind]. rewrite <- Z.div_mod by done. done.
  - intros s b. change (toy_hex_decode s = Some b → bytes_ok b). revert b.
    induction s as [s IH] using (induction_ltof1 _ String.length). unfold ltof in IH.
    intros b E. destruct s as [|c [|d s]]; cbn in E; [by simplify_eq; constructor|done|].
    destruct (hex_value c) as [x|] eqn:Ex; [|done]. destruct (hex_value d) as [y|] eqn:Ey; [|done].
    destruct (toy_hex_decode s) as [r|] eqn:Er; [|done]. cbn in E. apply (inj Some) in E as <-.
    apply hex_value_bound in Ex, Ey. constructor; [uint; lia|].
    eapply (IH s); [cbn; lia|done].
Qed.

#[local] Existing Instances rpc_crypto rpc_crypto_laws toy_hex toy_hex_laws.

Definition rpc_tx : SignedTx :=
  {| st_tx := st_tx (toy_transfer 0); st_signature := replicate 64 1; st_public_key := toy_key |}.

Definition rpc_cfg : NodeConfig :=
  {| cfg_genesis := toy_genesis; cfg_bootstrap := ∅; cfg_peer_id := [1; 2; 3] |}.

Definition submit_request : Value :=
  VObject [("jsonrpc", VString "2.0"); ("id", VInt 7); ("method", VString "l1_submitTx");
           ("params", VObject [("tx", VString (encode_hex (default [] (encode_signed_tx rpc_tx))))])].
Definition junk_request : Value := VObject [("jsonrpc", VString "2.0"); ("method", VString "l1_getProof")].

Definition no_server : RpcInner :=
  {| r_cfg := rpc_cfg; r_store := MemoryStore_new; r_pool := with_limits 0 0 0;
     r_world := world_from_genesis toy_genesis; r_commits := ∅; r_last_finalized := None;
     r_checkpoint := None; r_limiter := PeerRateLimiter_new; r_subs := ∅; r_next_sub := 1 |}.
Definition toy_server : RpcInner := default no_server (from_config rpc_cfg).
Definition toy_requests : list Value := junk_request :: replicate 33 submit_request.
Definition toy_served : RpcInner * list Value := default (toy_server, []) (serve toy_server toy_requests).

(** Of the submissions the limit is accepted; no answers are only left when
    [serve] fails. *)
Lemma toy_served_count : accepted_count toy_requests toy_served.2 = 32.
Proof. vm_compute. reflexivity. Qed.

Lemma toy_served_eq : serve toy_server toy_requests = Some toy_served.
Proof.
  pose proof toy_served_count as E. unfold toy_served in *. revert E.
  destruct (serve toy_server toy_requests) as [r|]; [reflexivity|]. intros E. discriminate E.
Qed.

Lemma submissions_bounded_witness :
  accepted_count toy_requests toy_served.2 = 32 ∧ accepted_count toy_requests toy_served.2 ≤ 32.
Proof.
  split; [exact toy_served_count|].
  apply (submissions_bounded rpc_cfg toy_server toy_requests toy_served.1); [reflexivity|].
  rewrite <- surjective_pairing. exact toy_served_eq.
Defined.

Lemma toy_server_holds : aholds (accounts (r_world toy_server)) (from_genesis <$> g_alloc toy_genesis).
Proof.
  apply (genesis_holds (T := trie_result) toy_genesis); [exact toy_alloc_wf|].
  apply collision_free_b_spec. vm_compute. reflexivity.
Qed.

Lemma toy_server_ok : server_ok toy_server.
Proof.
  split; [|apply map_Forall_empty]. exists (account_encode <$> (from_genesis <$> g_alloc toy_genesis)).
  exact (proj1 toy_server_holds).
Qed.


Definition submit_params : Value := default VNull (vget submit_request "params").
Definition toy_submitted : RpcInner * result Value TxRpcError :=
  default (toy_server, Err TUnknown) (submit_tx toy_server submit_params).

Lemma submit_tx_ok_witness :
  ∃ v signed addr h, toy_submitted.2 = Ok v ∧ pool_sender signed = Ok addr ∧
    mempool_verify signed (account (r_world toy_server) addr) = Some (Ok tt) ∧
    tx_hash (st_tx signed) = Some h ∧ v = VObject [("hash", VString (encode_hex h))] ∧
    lookup_tx (r_pool toy_submitted.1) addr (tx_nonce (st_tx signed)) = Some signed.
Proof.
  assert (is_ok toy_submitted.2 = true) as Hok by (vm_compute; reflexivity).
  destruct toy_submitted.2 as [v|e] eqn:Ev; [|discriminate Hok]. exists v.
  destruct (submit_tx_ok toy_server submit_params toy_submitted.1 v) as (s & a & h & Hs & Hv & Hh & Er & Hl & _).
  - rewrite <- Ev. unfold toy_submitted. apply some_default_pair. vm_compute. reflexivity.
  - exists s, a, h. exact (conj eq_refl (conj Hs (conj Hv (conj Hh (conj Er Hl))))).
Defined.

Lemma proof_json_roundtrip_witness : proof_from_json (proof_json sample_proof) = Ok sample_proof.
Proof.
  apply (proof_json_roundtrip sample_proof).
  assert (bytes_ok (default [] (mp_value sample_proof))) as Hb by by_eval.
  assert (leaf_index (mp_chain_merkle sample_proof) = 0%nat) as Hi by (vm_compute; reflexivity).
  refine (conj _ (conj _ (conj _ (conj _ _)))); [by_eval| |by_eval|by_eval|].
  - intros v Ev. rewrite Ev in Hb. exact Hb.
  - rewrite Hi. discriminate.
Defined.
