(* ===== verification/Sdk.v ===== *)
(** The client library: [sdk/src/*.rs] over the server of [Rpc], with
    [crypto::tx::sign].

    A signing key is a value of a type [K] with the operations of the class
    [Signer] ([ed25519_dalek]); one HTTP exchange of [ureq] is the operation
    [post] on a type of worlds; [Instant] is the sequence of the readings of
    [t0.elapsed()].  Shown: what a client signs verifies under the address it
    reports ([sign_tx_verifies]); a submission reaches the pool unchanged and
    its outcome is the pool's ([submit_signed_exact]), in process and over HTTP
    alike ([http_matches_in_process]); waiting for finality always ends, with an
    answer that was settled before the transaction was submitted
    ([wait_finality_blind]). *)

From Stdlib Require Import Ascii String.
From S2P Require Import Prelude Types Codec Crypto Merkle MptNode Mpt MptRep MptRefine MptSpec MptProof Store StoreCodec Blocks Tries ExecBase Vote Leader Quorum Staking Wasm Mempool Exec ExecSpec Wire Rpc.
From stdpp Require Import list pretty.

#[local] Set Warnings "-register-all".
#[local] Open Scope string_scope.
#[local] Open Scope Z_scope.
#[local] Open Scope l1_scope.

(** ** Keys and transport *)

(** [SigningKey]: [verifying_key().as_bytes()] and [sign(msg).to_bytes()]. *)
Class Signer (K : Type) := {
  verifying_key : K → bytes;
  ed25519_sign : K → bytes → bytes;
}.

Class SignerLaws (K : Type) `{Crypto} `{!Signer K} := {
  verifying_key_array k : array 32 (verifying_key k);
  verifying_key_valid k : ed25519_pk_valid (verifying_key k) = true;
  ed25519_sign_array k m : array 64 (ed25519_sign k m);
  ed25519_sign_verifies k m : ed25519_verify (verifying_key k) m (ed25519_sign k m) = true;
}.

(** [ureq::post(url)…send_json(body)…into_json()]: the world after the
    exchange, with the JSON of the response or the text of the error. *)
Class Http (W : Type) := post : W → Value → W * result Value string.

(** [Value::as_i64]. *)
Definition as_i64 (v : Value) : option Z :=
  match v with VInt z => if (- 2 ^ 63 <=? z) && (z <? 2 ^ 63) then Some z else None | _ => None end.

(** ** [crypto::tx::sign], [sdk/src/sign.rs] *)

Record SignedFrom := { sf_signed : SignedTx; sf_from : Address }.

Inductive SdkError : Type :=
| Transport (message : string)
| SdkRpc (code : Z) (message : string)
| BadResult.

#[export] Instance SdkError_eq_dec : EqDecision SdkError.
Proof. solve_decision. Defined.

Inductive WaitError : Type :=
| WSdk (e : SdkError)
| WTimeout (timeout : Z).

Record FinalityRecord := {
  fr_tx_hash : Hash;
  fr_signed : SignedFrom;
  fr_height : Z;
  fr_waited : Z;
}.

Section sdk.
Context `{!Crypto} `{!Hex} {K : Type} `{!Signer K}.

(** [None] is the panic of [Tx::encode]. *)
Definition tx_sign (sk : K) (tx : Tx) : option SignedTx :=
  match tx_signed_message tx with
  | None => None
  | Some msg =>
      Some {| st_tx := tx; st_signature := ed25519_sign sk msg; st_public_key := verifying_key sk |}
  end.

Definition sign_tx (sk : K) (tx : Tx) : option SignedFrom :=
  (λ signed, {| sf_signed := signed; sf_from := from_ed25519 (verifying_key sk) |}) <$> tx_sign sk tx.

(** ** [submit.rs] *)

Definition hash_from_submit_result (v : Value) : result Hash SdkError :=
  match get_str v "hash" with
  | None => Err BadResult
  | Some s =>
      let? raw := map_err (λ _, BadResult) (decode_hex s) in
      if negb (len raw =? 32) then Err BadResult else Ok raw
  end.

Definition submit_signed (i : RpcInner) (signed : SignedTx) :
    option (RpcInner * result Hash SdkError) :=
  match encode_signed_tx signed with
  | None => None
  | Some b =>
      match submit_tx i (VObject [("tx", VString (encode_hex b))]) with
      | None => None
      | Some (i', Ok v) => Some (i', hash_from_submit_result v)
      | Some (i', Err e) =>
          let err := rpc_of_tx e in Some (i', Err (SdkRpc (rpc_code err) (rpc_message err)))
      end
  end.

Definition submit (i : RpcInner) (sk : K) (tx : Tx) :
    option (RpcInner * result (SignedFrom * Hash) SdkError) :=
  match sign_tx sk tx with
  | None => None
  | Some signed =>
      match submit_signed i (sf_signed signed) with
      | None => None
      | Some (i', r) => Some (i', let? hash := r in Ok (signed, hash))
      end
  end.

(** ** [finality.rs], in process *)

Definition height_from_status (v : Value) : option Z := get_u64 v "height".

(** The loop from its [k]-th turn; [None] is a loop that has not ended. *)
Fixpoint wait_status_finality (i : RpcInner) (signed : SignedFrom) (hash : Hash) (timeout : Z)
    (elapsed : nat → Z) (k fuel : nat) : option (result FinalityRecord WaitError) :=
  match fuel with
  | O => None
  | S fuel =>
      match height_from_status (get_status i) with
      | Some h =>
          Some (Ok {| fr_tx_hash := hash; fr_signed := signed; fr_height := h; fr_waited := elapsed k |})
      | None =>
          if timeout <=? elapsed k then Some (Err (WTimeout timeout))
          else wait_status_finality i signed hash timeout elapsed (S k) fuel
      end
  end.

Definition wait_finality (i : RpcInner) (sk : K) (tx : Tx) (timeout : Z) (elapsed : nat → Z)
    (fuel : nat) : option (RpcInner * result FinalityRecord WaitError) :=
  match submit i sk tx with
  | None => None
  | Some (i', Err e) => Some (i', Err (WSdk e))
  | Some (i', Ok (signed, hash)) =>
      (λ r, (i', r)) <$> wait_status_finality i' signed hash timeout elapsed 0 fuel
  end.

(** ** [proof.rs] *)

(** [format!("{e:?}")]. *)
Definition state_debug (e : StateRpcError) : string :=
  match e with SParams => "Params" | SUnknown => "Unknown" | SProof => "Proof" end.

Definition query_proof (i : RpcInner) (address : Address) (wait : option (SignedFrom * Hash * Z))
    (elapsed : nat → Z) (fuel : nat) : option (result Value WaitError) :=
  match (match wait with
         | Some (signed, hash, timeout) =>
             (λ r, let? _ := r in Ok tt) <$> wait_status_finality i signed hash timeout elapsed 0 fuel
         | None => Some (Ok tt)
         end) with
  | None => None
  | Some (Err e) => Some (Err e)
  | Some (Ok _) =>
      map_err (λ e, WSdk (SdkRpc (-32000) (state_debug e))) <$>
        get_proof i (VObject [("address", VString (encode_hex address))])
  end.

(** ** Over HTTP *)

Section http.
Context {W : Type} `{!Http W}.

Definition rpc_call (w : W) (method : string) (params : Value) : W * result Value SdkError :=
  let body := VObject [("jsonrpc", VString "2.0"); ("id", VInt 1); ("method", VString method);
                       ("params", params)] in
  let r := post w body in
  (r.1, let? resp := map_err Transport r.2 in
        match vget resp "error" with
        | Some err => Err (SdkRpc (default (-1) (vget err "code" ≫= as_i64))
                                  (default "error" (get_str err "message")))
        | None => ok_or (vget resp "result") BadResult
        end).

Definition submit_signed_http (w : W) (signed : SignedTx) : option (W * result Hash SdkError) :=
  match encode_signed_tx signed with
  | None => None
  | Some b =>
      let r := rpc_call w "l1_submitTx" (VObject [("tx", VString (encode_hex b))]) in
      Some (r.1, let? v := r.2 in hash_from_submit_result v)
  end.

(** [sleep] is what happens to the world during [thread::sleep]. *)
Fixpoint wait_status_http (sleep : W → W) (w : W) (signed : SignedFrom) (hash : Hash) (timeout : Z)
    (elapsed : nat → Z) (k fuel : nat) : option (W * result FinalityRecord WaitError) :=
  match fuel with
  | O => None
  | S fuel =>
      let r := rpc_call w "l1_getStatus" (VObject []) in
      match r.2 with
      | Err e => Some (r.1, Err (WSdk e))
      | Ok st =>
          match height_from_status st with
          | Some h =>
              Some (r.1, Ok {| fr_tx_hash := hash; fr_signed := signed; fr_height := h;
                               fr_waited := elapsed k |})
          | None =>
              if timeout <=? elapsed k then Some (r.1, Err (WTimeout timeout))
              else wait_status_http sleep (sleep r.1) signed hash timeout elapsed (S k) fuel
          end
      end
  end.

Definition query_proof_http (w : W) (address : Address) : W * result Value SdkError :=
  rpc_call w "l1_getProof" (VObject [("address", VString (encode_hex address))]).

End http.

(** A server reached over HTTP: the body goes through [handle_object]; a
    handler that panics closes the connection. *)
Definition served : Http RpcInner := λ i v,
  match handle_object i v with
  | Some (i', resp) => (i', Ok resp)
  | None => (i, Err "connection closed")
  end.

End sdk.

(** ** Signing and submitting *)

Section proofs.
Context `{!Crypto, !CryptoLaws} `{!Hex, !HexLaws} {K : Type} `{!Signer K, !SignerLaws K}.

Lemma tx_sign_ok sk tx s :
  tx_sign sk tx = Some s →
  st_tx s = tx ∧ verify_ed25519 s = Some true ∧ pool_sender s = Ok (from_ed25519 (verifying_key sk)) ∧
  (tx_wf tx → signed_tx_wf s).
Proof.
  unfold tx_sign. destruct (tx_signed_message tx) as [m|] eqn:Em; [|done]. intros E. simplify_eq.
  unfold verify_ed25519, pool_sender, public_key_from_bytes. cbn.
  rewrite verifying_key_valid, Em, ed25519_sign_verifies. split_and!; try done.
  intros Hwf. split; [exact Hwf|]. split; [apply ed25519_sign_array|apply verifying_key_array].
Qed.

(** A transaction a client signs verifies, and the address reported with it
    is the one every node charges; an encodable transaction can be signed. *)
Theorem sign_tx_verifies sk tx :
  tx_wf tx →
  ∃ sf, sign_tx sk tx = Some sf ∧ st_tx (sf_signed sf) = tx ∧ signed_tx_wf (sf_signed sf) ∧
    verify_ed25519 (sf_signed sf) = Some true ∧ pool_sender (sf_signed sf) = Ok (sf_from sf).
Proof.
  intros Hwf. destruct (tx_encode_total _ Hwf) as [b Hb].
  assert (∃ s, tx_sign sk tx = Some s) as [s Hs].
  { unfold tx_sign, tx_signed_message. rewrite Hb. cbn. eauto. }
  destruct (tx_sign_ok _ _ _ Hs) as (Et & Hv & Hp & Hw).
  eexists. unfold sign_tx. rewrite Hs. split; [done|]. cbn. auto.
Qed.

Lemma hash_from_submit h :
  array 32 h → hash_from_submit_result (VObject [("hash", VString (encode_hex h))]) = Ok h.
Proof.
  intros [Hl Hb]. unfold hash_from_submit_result. cbn. rewrite decode_hex_encode by done. cbn.
  by rewrite Hl.
Qed.

(** What the pool makes of a submission. *)
Definition pool_outcome (i : RpcInner) (s : SignedTx) : option (RpcInner * result Hash SdkError) :=
  let a := allow (r_limiter i) (cfg_peer_id (r_cfg i)) in
  let i1 := set_limiter a.1 i in
  if negb a.2 then Some (i1, Err (SdkRpc (-32000) "rate limited"))
  else
    let acc := match pool_sender s with Ok addr => account (r_world i) addr | Err _ => Account_empty end in
    match wire_mempool s acc (r_pool i) with
    | None => None
    | Some (pool, Err _) => Some (set_pool pool i1, Err (SdkRpc (-32000) "mempool rejected"))
    | Some (pool, Ok _) => (λ h, (set_pool pool i1, Ok h)) <$> tx_hash (st_tx s)
    end.

Lemma tx_encode_bytes tx b : tx_wf tx → tx_encode tx = Some b → bytes_ok b.
Proof.
  intros (_ & _ & _ & _ & Hp) Hb. apply fmap_Some in Hb as (p & Hb & ->). apply encode_ok.
  unfold payload_bytes, payload_wf, stake_wf in *.
  repeat (case_hyp Hb; try done); apply (inj Some) in Hb as <-; try destruct Hp as [Hp ?].
  all: unfold array, bytes_ok in *; repeat apply Forall_app_2; try apply be_bytes_ok; try tauto.
  all: repeat constructor; cbn; ulia.
Qed.

Lemma encode_signed_bytes s b : signed_tx_wf s → encode_signed_tx s = Some b → bytes_ok b.
Proof.
  intros (Ht & [_ Hs] & [_ Hk]) He. unfold encode_signed_tx in He.
  destruct (tx_encode (st_tx s)) as [t|] eqn:Et; [|done]. apply (inj Some) in He as <-.
  pose proof (tx_encode_bytes _ _ Ht Et) as Htb. apply encode_ok.
  unfold bytes_ok in *. repeat apply Forall_app_2; auto. apply be_bytes_ok.
Qed.

(** A submission is the pool's decision on the very transaction the client
    signed: its way through the store codec, hex and JSON changes nothing and
    is never refused as malformed. *)
Theorem submit_signed_exact i s b :
  signed_tx_wf s → encode_signed_tx s = Some b → len b ≤ U32_MAX → submit_signed i s = pool_outcome i s.
Proof.
  intros Hwf Hb Hl. unfold submit_signed, submit_tx, pool_outcome. rewrite Hb. cbn.
  rewrite decode_hex_encode by eauto using encode_signed_bytes. cbn.
  rewrite (signed_tx_decode s b) by done. cbn zeta.
  destruct (allow _ _) as [l []]; cbn [fst snd negb]; [|done].
  change (r_world (set_limiter l i)) with (r_world i). change (r_pool (set_limiter l i)) with (r_pool i).
  destruct (wire_mempool _ _ _) as [[pool [[]|e]]|]; [|done..].
  destruct (tx_hash (st_tx s)) as [h|] eqn:Eh; [|done]. cbn [fmap option_fmap option_map].
  rewrite hash_from_submit; [done|]. apply fmap_Some in Eh as (? & _ & ->). apply blake3_array.
Qed.

(** ** In process and over HTTP *)

(** Submitting over HTTP to a server has the effect and the result of
    submitting to it in process, error codes and messages included. *)
Theorem http_matches_in_process i s i' r :
  submit_signed i s = Some (i', r) → submit_signed_http (Http0 := served) i s = Some (i', r).
Proof.
  unfold submit_signed, submit_signed_http, rpc_call, post, served.
  destruct (encode_signed_tx s) as [b|]; [|done]. unfold handle_object.
  rewrite bool_decide_false by (intros Hj; apply Hj; reflexivity).
  set (p := VObject [("tx", _)]). cbn -[dispatch submit_tx]. unfold dispatch. cbn -[submit_tx].
  destruct (submit_tx i p) as [[i1 [v|e]]|]; [|..|done]; intros E; simplify_eq.
  - done.
  - cbn. by destruct e.
Qed.

(** ** Waiting for finality *)

Lemma submit_frame i sk tx i' r :
  submit i sk tx = Some (i', r) → frame i i'.
Proof.
  unfold submit, submit_signed. destruct (sign_tx sk tx) as [sf|]; [|done].
  destruct (encode_signed_tx _) as [b|]; [|done].
  destruct (submit_tx i _) as [[i1 d]|] eqn:Es; [|done].
  assert (frame i i1).
  { destruct (submit_tx_inv _ _ _ _ Es) as [[-> _]|(? & [[-> _]|(_ & a & h & _ & _ & -> & _)])]; done. }
  destruct d; intros E; by simplify_eq.
Qed.

Lemma status_height i :
  (∀ f, r_last_finalized i = Some f → u64 (fin_height f)) →
  height_from_status (get_status i) = fin_height <$> r_last_finalized i.
Proof.
  intros Hf. unfold height_from_status, get_status.
  destruct (r_last_finalized i) as [f|]; [|done]. specialize (Hf f eq_refl).
  unfold get_u64, u64 in *. cbn. by rewrite (proj2 (Z.leb_le 0 _)), (proj2 (Z.leb_le _ U64_MAX)) by lia.
Qed.

Lemma wait_step i sf h timeout elapsed k fuel :
  height_from_status (get_status i) = None →
  wait_status_finality i sf h timeout elapsed k (S fuel) =
    if timeout <=? elapsed k then Some (Err (WTimeout timeout))
    else wait_status_finality i sf h timeout elapsed (S k) fuel.
Proof. intros Hs. cbn -[height_from_status get_status]. by rewrite Hs. Qed.

(** The loop ends at the first reading past the timeout, at the latest. *)
Lemma wait_loop i sf h timeout elapsed n k :
  height_from_status (get_status i) = None → timeout ≤ elapsed (n + k)%nat →
  wait_status_finality i sf h timeout elapsed k (S n) = Some (Err (WTimeout timeout)).
Proof.
  intros Hs. revert k. induction n as [|n IH]; intros k Hn; rewrite wait_step by done;
    destruct (Z.leb_spec timeout (elapsed k)) as [|Hk]; try done.
  - cbn in Hn. lia.
  - apply IH. by replace (n + S k)%nat with (S n + k)%nat by lia.
Qed.

(** C37: Waiting for the finality of an accepted transaction ends at the latest
    when the clock passes the timeout, and what it answers is settled by the
    server as it was before the transaction was submitted: the height that was
    final then, at the first look, or a timeout when there was none.  The
    stored blocks are the ones before: the transaction is in the pool, and its
    inclusion is never looked at. *)
Theorem wait_finality_blind i sk tx timeout elapsed n i' sf h :
  submit i sk tx = Some (i', Ok (sf, h)) →
  (∀ f, r_last_finalized i = Some f → u64 (fin_height f)) →
  timeout ≤ elapsed n →
  r_store i' = r_store i ∧
  wait_finality i sk tx timeout elapsed (S n) =
    Some (i', match r_last_finalized i with
              | Some f => Ok {| fr_tx_hash := h; fr_signed := sf; fr_height := fin_height f;
                                fr_waited := elapsed 0%nat |}
              | None => Err (WTimeout timeout)
              end).
Proof.
  intros Hs Hf Hn. destruct (submit_frame _ _ _ _ _ Hs) as (_ & Est & _ & _ & El & _). split; [done|].
  unfold wait_finality. rewrite Hs. rewrite <- El in Hf |- *. pose proof (status_height i' Hf) as Hh.
  destruct (r_last_finalized i') as [f|] eqn:Ef.
  - cbn -[height_from_status get_status]. by rewrite Hh.
  - rewrite wait_loop; [done|done|]. by rewrite Nat.add_0_r.
Qed.

End proofs.

(** ** A concrete client *)

Definition toy_signer : Signer unit :=
  {| verifying_key _ := toy_key; ed25519_sign _ _ := replicate 64 1 |}.

#[local] Existing Instances rpc_crypto rpc_crypto_laws toy_hex toy_hex_laws toy_signer.

Lemma toy_signer_laws : SignerLaws unit.
Proof. split; intros; by_eval. Qed.

#[local] Existing Instance toy_signer_laws.

Lemma sign_tx_verifies_witness :
  ∃ sf, sign_tx tt (st_tx rpc_tx) = Some sf ∧ st_tx (sf_signed sf) = st_tx rpc_tx ∧
    signed_tx_wf (sf_signed sf) ∧ verify_ed25519 (sf_signed sf) = Some true ∧
    pool_sender (sf_signed sf) = Ok (sf_from sf).
Proof. apply (sign_tx_verifies tt (st_tx rpc_tx)). by_eval. Defined.

(** A server that finalized block 5 before the transaction came. *)
Definition five_final : Finalized :=
  {| fin_height := 5; fin_round := 0; fin_block_hash := Hash_ZERO; fin_app_hash := Hash_ZERO |}.
Definition five_server : RpcInner := observe_finalized toy_server five_final.
Definition five_sent : RpcInner * result (SignedFrom * Hash) SdkError :=
  default (five_server, Err BadResult) (submit five_server tt (st_tx rpc_tx)).

Lemma five_sent_ok : is_ok five_sent.2 = true.
Proof. vm_compute. reflexivity. Qed.

Lemma five_sent_eq : submit five_server tt (st_tx rpc_tx) = Some (five_sent.1, five_sent.2).
Proof.
  pose proof five_sent_ok as E. unfold five_sent in *. revert E.
  destruct (submit five_server tt (st_tx rpc_tx)) as [[i r]|]; [reflexivity|]. intros E. discriminate E.
Qed.

Lemma wait_finality_blind_witness :
  ∃ r, five_sent.2 = Ok r ∧
    wait_finality five_server tt (st_tx rpc_tx) 15000 (λ k, 20 * Z.of_nat k) 1001 =
      Some (five_sent.1, Ok {| fr_tx_hash := r.2; fr_signed := r.1; fr_height := 5; fr_waited := 0 |}).
Proof.
  pose proof five_sent_ok as Hok. pose proof five_sent_eq as Es. revert Hok Es.
  destruct five_sent as [i' [[sf h]|e]]; intros Hok Es; [|discriminate Hok].
  exists (sf, h). split; [reflexivity|].
  refine (proj2 (wait_finality_blind five_server tt (st_tx rpc_tx) 15000 (λ k, 20 * Z.of_nat k) 1000
                   i' sf h Es _ _)).
  - intros f Ef. assert (f = five_final) as -> by (by injection Ef). by_eval.
  - lia.
Defined.

Lemma http_matches_in_process_witness :
  ∃ r, submit_signed toy_server rpc_tx = Some r ∧
    submit_signed_http (Http0 := served) toy_server rpc_tx = Some (r.1, r.2).
Proof.
  assert (bool_decide (is_Some (submit_signed toy_server rpc_tx)) = true) as Hs
    by (vm_compute; reflexivity).
  destruct (submit_signed toy_server rpc_tx) as [[i r]|] eqn:E; [|discriminate Hs].
  exists (i, r). split; [reflexivity|]. exact (http_matches_in_process toy_server rpc_tx i r E).
Defined.

Lemma submit_signed_exact_witness :
  submit_signed toy_server rpc_tx = pool_outcome toy_server rpc_tx.
Proof.
  apply (submit_signed_exact toy_server rpc_tx (default [] (encode_signed_tx rpc_tx))).
  - by_eval.
  - vm_compute. reflexivity.
  - vm_compute. discriminate.
Defined.
