(* ===== verification/Faucet.v ===== *)
(** The testnet faucet: [faucet/src/{service,ratelimit}.rs] over the server of
    [Rpc], with the keys and the HTTP exchange of [Sdk].

    An [Instant] and a [Duration] are numbers of nanoseconds; the clock reading
    of a gated drip is an argument.  Shown: in no window does an address or an
    IP receive more drips than the limit ([drips_rate_limited]), whatever the
    order of the requests and the answers of the server; a drip that is refused
    for its IP is charged to the address it names all the same, so that one
    exhausted IP keeps any address from the faucet ([refused_drips_charged]). *)

From Stdlib Require Import Ascii String.
From S2P Require Import Prelude Types Codec Crypto Merkle MptNode Mpt MptRep MptRefine MptSpec MptProof Store StoreCodec Blocks Tries ExecBase Vote Leader Quorum Staking Wasm Mempool Exec ExecSpec Wire Rpc Sdk.
From stdpp Require Import list gmap strings pretty.

#[local] Set Warnings "-register-all".
#[local] Open Scope string_scope.
#[local] Open Scope Z_scope.
#[local] Open Scope l1_scope.

(** ** [service.rs] *)

Inductive FaucetError : Type :=
| FRpc (message : string)
| FHttp (message : string).

Record Faucet (K : Type) := {
  f_sk : K;
  f_chain_id : ChainId;
  f_amount : Amount;
  f_next_nonce : Z;
}.

Arguments f_sk {K}.
Arguments f_chain_id {K}.
Arguments f_amount {K}.
Arguments f_next_nonce {K}.

(** ** [ratelimit.rs] *)

Inductive RateLimitError : Type :=
| Throttled
| FaucetFailed (e : FaucetError).

Record RateLimitedFaucet (K : Type) := {
  rf_faucet : Faucet K;
  rf_max_per_window : Z;
  rf_window : Z;
  rf_hits : gmap string (list Z);
}.

Arguments rf_faucet {K}.
Arguments rf_max_per_window {K}.
Arguments rf_window {K}.
Arguments rf_hits {K}.

(** [format!("{e:?}")]. *)
Definition tx_debug (e : TxRpcError) : string :=
  match e with
  | TParams => "Params" | TRateLimit => "RateLimit" | TMempool => "Mempool" | TUnknown => "Unknown"
  end.

(** [format!("{b:02x}")] of each byte. *)
Fixpoint encode_addr (a : Address) : string :=
  match a with
  | [] => EmptyString
  | b :: a => String (hex_digit (b / 16)) (String (hex_digit (b mod 16)) (encode_addr a))
  end.

Definition addr_key (to : Address) : string := String.append "a:" (encode_addr to).
Definition ip_key (ip : string) : string := String.append "ip:" ip.

Section faucet.
Context `{!Crypto} `{!Hex} {K : Type} `{!Signer K}.
Implicit Types (f : Faucet K) (g : RateLimitedFaucet K).

Definition Faucet_new (sk : K) (chain_id : ChainId) (amount : Amount) : Faucet K :=
  {| f_sk := sk; f_chain_id := chain_id; f_amount := amount; f_next_nonce := 0 |}.

Definition faucet_address f : Address := from_ed25519 (verifying_key (f_sk f)).

Definition signed_transfer f (to : Address) (nonce : Z) : option SignedTx :=
  tx_sign (f_sk f) (tx_transfer (f_chain_id f) nonce GAS_TRANSFER MIN_TX_FEE to (f_amount f)).

Definition next_drip f : Faucet K :=
  {| f_sk := f_sk f; f_chain_id := f_chain_id f; f_amount := f_amount f;
     f_next_nonce := (f_next_nonce f + 1) mod 2 ^ 64 |}.

Definition hash_from (v : Value) : result Hash FaucetError :=
  match get_str v "hash" with
  | None => Err (FRpc "missing hash")
  | Some s =>
      let? raw := map_err (λ _, FRpc "bad hash") (decode_hex s) in
      if negb (len raw =? 32) then Err (FRpc "bad hash len") else Ok raw
  end.

(** The hex of the next transfer; [None] is a panic of the encoder. *)
Definition drip_hex f (to : Address) : option string :=
  signed ← signed_transfer f to (f_next_nonce f);
  b ← encode_signed_tx signed;
  Some (encode_hex b).

Definition faucet_drip f (i : RpcInner) (to : Address) :
    option (Faucet K * RpcInner * result Hash FaucetError) :=
  match drip_hex f to with
  | None => None
  | Some hex =>
      match submit_tx i (VObject [("tx", VString hex)]) with
      | None => None
      | Some (i', Err e) => Some (f, i', Err (FRpc (tx_debug e)))
      | Some (i', Ok v) => Some (next_drip f, i', hash_from v)
      end
  end.

Definition drip_http {W : Type} `{!Http W} f (w : W) (to : Address) :
    option (Faucet K * W * result Hash FaucetError) :=
  match drip_hex f to with
  | None => None
  | Some hex =>
      let body := VObject [("jsonrpc", VString "2.0"); ("id", VInt 1); ("method", VString "l1_submitTx");
                           ("params", VObject [("tx", VString hex)])] in
      let r := post w body in
      Some (match r.2 with
            | Err m => (f, r.1, Err (FHttp m))
            | Ok resp =>
                match vget resp "error" with
                | Some err => (f, r.1, Err (FRpc (default "error" (get_str err "message"))))
                | None => (next_drip f, r.1, hash_from (default VNull (vget resp "result")))
                end
            end)
  end.

Definition RateLimitedFaucet_new f (max_per_window window : Z) : RateLimitedFaucet K :=
  {| rf_faucet := f; rf_max_per_window := max_per_window; rf_window := window; rf_hits := ∅ |}.

Definition set_hits (hits : gmap string (list Z)) g : RateLimitedFaucet K :=
  {| rf_faucet := rf_faucet g; rf_max_per_window := rf_max_per_window g; rf_window := rf_window g;
     rf_hits := hits |}.
Definition set_faucet f g : RateLimitedFaucet K :=
  {| rf_faucet := f; rf_max_per_window := rf_max_per_window g; rf_window := rf_window g;
     rf_hits := rf_hits g |}.

(** The closure of [e.retain]; [now.duration_since] saturates at zero. *)
Definition retain_recent (now win : Z) (e : list Z) : list Z :=
  List.filter (λ t, sat_sub now t <? win) e.

(** The method [admit]. *)
Definition quota_admit g (key : string) (now : Z) : RateLimitedFaucet K * bool :=
  let e := retain_recent now (rf_window g) (default [] (rf_hits g !! key)) in
  if rf_max_per_window g <=? as_u32 (len e) then (set_hits (<[key := e]> (rf_hits g)) g, false)
  else (set_hits (<[key := (e ++ [now])%list]> (rf_hits g)) g, true).

Definition gated_drip g (i : RpcInner) (to : Address) (ip : string) (now : Z) :
    option (RateLimitedFaucet K * RpcInner * result Hash RateLimitError) :=
  let a := quota_admit g (addr_key to) now in
  if negb a.2 then Some (a.1, i, Err Throttled)
  else
    let b := quota_admit a.1 (ip_key ip) now in
    if negb b.2 then Some (b.1, i, Err Throttled)
    else
      match faucet_drip (rf_faucet b.1) i to with
      | None => None
      | Some (f', i', r) => Some (set_faucet f' b.1, i', map_err FaucetFailed r)
      end.

(** ** Requests one after the other *)

Record DripReq := { dr_to : Address; dr_ip : string; dr_now : Z }.

Fixpoint gated_run g (i : RpcInner) (reqs : list DripReq) :
    option (RateLimitedFaucet K * RpcInner * list (result Hash RateLimitError)) :=
  match reqs with
  | [] => Some (g, i, [])
  | q :: reqs =>
      match gated_drip g i (dr_to q) (dr_ip q) (dr_now q) with
      | None => None
      | Some (g, i, r) =>
          match gated_run g i reqs with
          | None => None
          | Some (g, i, rs) => Some (g, i, r :: rs)
          end
      end
  end.

End faucet.

(** The times of a window of length [win] from [t]. *)
Definition in_window (t win s : Z) : bool := (t <=? s) && (s <? t + win).
Definition window_count (t win : Z) (l : list Z) : Z := len (List.filter (in_window t win) l).

(** The successful drips of the requests [p] holds of, in a window. *)
Fixpoint drips_in {A E : Type} (p : DripReq → bool) (t win : Z) (reqs : list DripReq)
    (outs : list (result A E)) : Z :=
  match reqs, outs with
  | q :: reqs, r :: outs =>
      (if p q && is_ok r && in_window t win (dr_now q) then 1 else 0) + drips_in p t win reqs outs
  | _, _ => 0
  end.

(** The clock does not go back. *)
Fixpoint times_ascend (last : Z) (reqs : list DripReq) : bool :=
  match reqs with
  | [] => true
  | q :: reqs => (last <=? dr_now q) && times_ascend (dr_now q) reqs
  end.

Section limits.
Context `{!Crypto} `{!Hex} {K : Type} `{!Signer K}.
Implicit Types (g : RateLimitedFaucet K).

(** The entries of a key stand for the times [l] it was charged at. *)
Record charged g (k : string) (l : list Z) (last : Z) : Prop := {
  ch_recent now : last ≤ now →
    retain_recent now (rf_window g) (default [] (rf_hits g !! k)) = retain_recent now (rf_window g) l;
  ch_past : Forall (λ s, s ≤ last) l;
  ch_bound t : window_count t (rf_window g) l ≤ rf_max_per_window g;
}.

Lemma retain_twice now now' win l :
  now ≤ now' → retain_recent now' win (retain_recent now win l) = retain_recent now' win l.
Proof.
  intros Hn. unfold retain_recent. induction l as [|s l IH]; [done|]. cbn.
  destruct (Z.ltb_spec (sat_sub now s) win) as [|H1]; cbn; destruct (Z.ltb_spec (sat_sub now' s) win) as [H2|];
    try (by f_equal); try done. unfold sat_sub in *. lia.
Qed.

Lemma retain_app now win l1 l2 :
  retain_recent now win (l1 ++ l2)%list = (retain_recent now win l1 ++ retain_recent now win l2)%list.
Proof. apply List.filter_app. Qed.

Lemma window_retain t win now l :
  in_window t win now = true → window_count t win l ≤ len (retain_recent now win l).
Proof.
  unfold in_window, window_count, retain_recent. intros Hw. induction l as [|s l IH]; [done|]. cbn.
  destruct (in_window t win s) eqn:Es; unfold in_window in Es; cbn.
  - rewrite (proj2 (Z.ltb_lt _ _)) by (unfold sat_sub; bsimpl; lia). cbn in *. lia.
  - destruct (sat_sub now s <? win); cbn in *; lia.
Qed.

Lemma retain_window now win l :
  Forall (λ s, s ≤ now) l → len (retain_recent now win l) ≤ window_count (now - win + 1) win l.
Proof.
  unfold window_count, retain_recent. induction 1 as [|s l Hs _ IH]; [done|]. cbn.
  destruct (Z.ltb_spec (sat_sub now s) win) as [H1|]; cbn.
  - assert (in_window (now - win + 1) win s = true) as ->; [|cbn in *; lia].
    unfold in_window, sat_sub in *. apply andb_true_iff. split; bsimpl; lia.
  - destruct (in_window _ _ s); cbn in *; lia.
Qed.

Lemma window_count_app t win l1 l2 :
  window_count t win (l1 ++ l2)%list = window_count t win l1 + window_count t win l2.
Proof. unfold window_count. rewrite List.filter_app, length_app. lia. Qed.

Lemma window_count_nonneg t win l : 0 ≤ window_count t win l.
Proof. unfold window_count. lia. Qed.

Lemma quota_admit_params g k now :
  rf_window (quota_admit g k now).1 = rf_window g ∧
  rf_max_per_window (quota_admit g k now).1 = rf_max_per_window g ∧
  rf_faucet (quota_admit g k now).1 = rf_faucet g.
Proof. unfold quota_admit. by case_match. Qed.

Lemma quota_admit_other g k k' l last now :
  k ≠ k' → charged g k l last → charged (quota_admit g k' now).1 k l last.
Proof.
  intros Hk [Hr Hp Hb]. destruct (quota_admit_params g k' now) as (Ew & Em & _).
  split; rewrite ?Ew, ?Em; [|done|done]. intros now' Hn. rewrite <- Hr by done. do 2 f_equal.
  unfold quota_admit. case_match; cbn; by rewrite lookup_insert_ne.
Qed.

(** The entries after the call, and whether the key was charged. *)
Lemma quota_admit_self g k l last now :
  u32 (rf_max_per_window g) → charged g k l last → last ≤ now →
  charged (quota_admit g k now).1 k (l ++ if (quota_admit g k now).2 then [now] else [])%list now.
Proof.
  intros Hm [Hr Hp Hb] Hn. destruct (quota_admit_params g k now) as (Ew & Em & _).
  assert (Forall (λ s, s ≤ now) l) as Hp' by (eapply Forall_impl; [exact Hp|]; cbn; lia).
  pose proof (retain_window now (rf_window g) l Hp') as Hl. rewrite <- Hr in Hl by done.
  pose proof (Hb (now - rf_window g + 1)) as Hb'.
  split; rewrite ?Ew, ?Em; clear Em Ew; unfold quota_admit; rewrite as_u32_small by ulia;
    destruct (Z.leb_spec (rf_max_per_window g) (len (retain_recent now (rf_window g) (default [] (rf_hits g !! k)))))
    as [Hx|Hx]; cbn [fst snd set_hits rf_hits]; rewrite ?app_nil_r; try done.
  - intros now' Hn'. rewrite lookup_insert_eq. cbn [from_option]. unfold id.
    by rewrite retain_twice, Hr by lia.
  - intros now' Hn'. rewrite lookup_insert_eq. cbn [from_option]. unfold id.
    by rewrite !retain_app, retain_twice, Hr by lia.
  - apply Forall_app_2; [done|]. by constructor.
  - intros t. rewrite window_count_app. specialize (Hb t). unfold window_count at 2. cbn.
    destruct (in_window t (rf_window g) now) eqn:Et; cbn; [|lia].
    pose proof (window_retain _ _ _ l Et) as Hw. rewrite <- Hr in Hw by done. lia.
Qed.

Lemma quota_admit_step g k k' l last now :
  u32 (rf_max_per_window g) → charged g k l last → last ≤ now →
  ∃ last', last' ≤ now ∧
    charged (quota_admit g k' now).1 k
      (l ++ if bool_decide (k = k') && (quota_admit g k' now).2 then [now] else [])%list last'.
Proof.
  intros Hm Hc Hn. case_bool_decide as Ek.
  - subst k'. exists now. split; [lia|]. by apply (quota_admit_self g k l last now).
  - exists last. split; [done|]. cbn. rewrite app_nil_r. by apply quota_admit_other.
Qed.

(** The requests that charge a key when they succeed. *)
Definition charges (k : string) (q : DripReq) : bool :=
  bool_decide (k = addr_key (dr_to q)) || bool_decide (k = ip_key (dr_ip q)).

Lemma addr_ip_keys to ip : addr_key to ≠ ip_key ip.
Proof. done. Qed.

Lemma gated_drip_step g i q k l last g' i' r :
  gated_drip g i (dr_to q) (dr_ip q) (dr_now q) = Some (g', i', r) →
  u32 (rf_max_per_window g) → charged g k l last → last ≤ dr_now q →
  ∃ m last', last' ≤ dr_now q ∧ charged g' k (l ++ m)%list last' ∧
    rf_window g' = rf_window g ∧ rf_max_per_window g' = rf_max_per_window g ∧
    (charges k q && is_ok r = true → m = [dr_now q]).
Proof.
  intros Hd Hm Hc Hn. unfold gated_drip in Hd. set (now := dr_now q) in *.
  destruct (quota_admit_step g k (addr_key (dr_to q)) l last now Hm Hc Hn) as (last1 & Hn1 & Hc1).
  destruct (quota_admit_params g (addr_key (dr_to q)) now) as (Ew & Em & _).
  destruct (quota_admit g (addr_key (dr_to q)) now) as [g1 b1]. cbn [fst snd] in *.
  destruct b1; cbn [negb] in Hd.
  2: { simplify_eq. rewrite andb_false_r in Hc1. exists [], last1. split_and!; try done.
       rewrite andb_false_r. done. }
  rewrite <- Em in Hm.
  destruct (quota_admit_step g1 k (ip_key (dr_ip q)) _ last1 now Hm Hc1 Hn1) as (last2 & Hn2 & Hc2).
  destruct (quota_admit_params g1 (ip_key (dr_ip q)) now) as (Ew2 & Em2 & _).
  destruct (quota_admit g1 (ip_key (dr_ip q)) now) as [g2 b2]. cbn [fst snd] in *.
  rewrite <- app_assoc in Hc2.
  destruct b2; cbn [negb] in Hd.
  2: { simplify_eq. eexists _, last2. split_and!; [done|exact Hc2|congruence|congruence|].
       rewrite andb_false_r. done. }
  destruct (faucet_drip _ i _) as [[[f2 i2] r2]|]; [|done]. simplify_eq.
  eexists _, last2. split_and!; [done| |cbn; congruence|cbn; congruence|].
  - destruct Hc2 as [H1 H2 H3]. split; cbn; [exact H1|exact H2|exact H3].
  - unfold charges. pose proof (addr_ip_keys (dr_to q) (dr_ip q)) as Hne.
    repeat case_bool_decide; simplify_eq; cbn; try done.
Qed.

Lemma times_ascend_le last last' reqs :
  last' ≤ last → times_ascend last reqs = true → times_ascend last' reqs = true.
Proof. destruct reqs as [|q reqs]; [done|]. cbn. intros. bsimpl. apply andb_true_iff. split; [|done]. apply Z.leb_le. lia. Qed.

Lemma gated_run_bound reqs g i k l last g' i' outs t :
  gated_run g i reqs = Some (g', i', outs) → u32 (rf_max_per_window g) → charged g k l last →
  times_ascend last reqs = true →
  drips_in (charges k) t (rf_window g) reqs outs + window_count t (rf_window g) l ≤ rf_max_per_window g.
Proof.
  revert g i l last outs. induction reqs as [|q reqs IH]; intros g i l last outs Hr Hm Hc Ht.
  { destruct outs; cbn; apply Hc. }
  cbn in Hr, Ht. bsimpl. destruct (gated_drip g i _ _ _) as [[[g1 i1] r]|] eqn:Ed; [|done].
  destruct (gated_drip_step _ _ _ _ _ _ _ _ _ Ed Hm Hc Ht0) as (m & last' & Hl & Hc1 & Ew & Em & Hok).
  destruct (gated_run g1 i1 reqs) as [[[g2 i2] rs]|] eqn:Er; [|done]. simplify_eq.
  rewrite <- Em in Hm. pose proof (times_ascend_le _ _ _ Hl Ht1) as Ht'.
  pose proof (IH _ _ _ _ _ Er Hm Hc1 Ht') as Hb. rewrite Ew, Em, window_count_app in Hb. cbn.
  pose proof (window_count_nonneg t (rf_window g) m) as Hw.
  destruct (charges k q && is_ok r) eqn:Ek; cbn; [|lia]. rewrite (Hok eq_refl) in Hb.
  unfold window_count at 2 in Hb. cbn in Hb. destruct (in_window _ _ (dr_now q)); cbn in *; lia.
Qed.

Lemma drips_in_le {A E : Type} (p p' : DripReq → bool) t win reqs (outs : list (result A E)) :
  (∀ q, p q = true → p' q = true) → drips_in p t win reqs outs ≤ drips_in p' t win reqs outs.
Proof.
  intros Hp. revert outs. induction reqs as [|q reqs IH]; intros [|r outs]; cbn; try lia.
  specialize (IH outs). destruct (p q) eqn:Eq; cbn; [rewrite (Hp q Eq); cbn; lia|].
  destruct (p' q && is_ok r && _); lia.
Qed.

Lemma charged_new f max_per_window window k start :
  0 ≤ max_per_window → charged (RateLimitedFaucet_new f max_per_window window) k [] start.
Proof. intros. by split. Qed.

(** C36: Whatever is asked of the faucet, from whatever server, while the clock does
    not go back: in no window of the configured length do more than
    [max_per_window] drips succeed for one address, nor for one IP. *)
Theorem drips_rate_limited (f : Faucet K) max_per_window window i reqs start g' i' outs :
  u32 max_per_window → times_ascend start reqs = true →
  gated_run (RateLimitedFaucet_new f max_per_window window) i reqs = Some (g', i', outs) →
  ∀ t to ip,
    drips_in (λ q, bool_decide (dr_to q = to)) t window reqs outs ≤ max_per_window ∧
    drips_in (λ q, bool_decide (dr_ip q = ip)) t window reqs outs ≤ max_per_window.
Proof.
  intros Hm Ht Hr t to ip.
  assert (∀ k, drips_in (charges k) t window reqs outs ≤ max_per_window) as Hk.
  { intros k. pose proof (gated_run_bound reqs _ i k [] start g' i' outs t Hr Hm) as Hb.
    cbn in Hb. rewrite Z.add_0_r in Hb. apply Hb; [|done]. apply charged_new, Hm. }
  split; [etrans; [|apply (Hk (addr_key to))]|etrans; [|apply (Hk (ip_key ip))]]; apply drips_in_le;
    intros q Eq; apply bool_decide_eq_true in Eq as <-; unfold charges.
  - by rewrite bool_decide_true.
  - apply orb_true_iff. right. by apply bool_decide_eq_true.
Qed.

(** ** Refused drips *)

(** After [j] refused drips at [now]: the address is charged for each of them,
    the IP stays over its quota. *)
Record burnt g (to : Address) (ip : string) (now : Z) (j : nat) : Prop := {
  bu_addr : default [] (rf_hits g !! addr_key to) = replicate j now;
  bu_ip : rf_max_per_window g ≤ len (retain_recent now (rf_window g) (default [] (rf_hits g !! ip_key ip))) ≤ U32_MAX;
}.

Lemma retain_replicate now now' win j :
  now ≤ now' < now + win → retain_recent now' win (replicate j now) = replicate j now.
Proof.
  intros Hn. unfold retain_recent. induction j as [|j IH]; [done|]. cbn.
  rewrite (proj2 (Z.ltb_lt _ _)) by (unfold sat_sub; lia). by f_equal.
Qed.

Lemma lookup_default_insert (hits : gmap string (list Z)) k e : default [] (<[k := e]> hits !! k) = e.
Proof. by rewrite lookup_insert_eq. Qed.

Lemma quota_admit_full g k now e :
  retain_recent now (rf_window g) (default [] (rf_hits g !! k)) = e → rf_max_per_window g ≤ len e ≤ U32_MAX →
  quota_admit g k now = (set_hits (<[k := e]> (rf_hits g)) g, false).
Proof.
  intros Ee Hl. unfold quota_admit. rewrite Ee, as_u32_small by lia. by rewrite (proj2 (Z.leb_le _ _)) by lia.
Qed.

Lemma quota_admit_room g k now e :
  retain_recent now (rf_window g) (default [] (rf_hits g !! k)) = e → len e < rf_max_per_window g ≤ U32_MAX →
  quota_admit g k now = (set_hits (<[k := (e ++ [now])%list]> (rf_hits g)) g, true).
Proof.
  intros Ee Hl. unfold quota_admit. rewrite Ee, as_u32_small by lia. by rewrite (proj2 (Z.leb_gt _ _)) by lia.
Qed.

Lemma burnt_step g i to ip now j :
  u32 (rf_max_per_window g) → 0 < rf_window g → Z.of_nat j < rf_max_per_window g → burnt g to ip now j →
  ∃ g', gated_drip g i to ip now = Some (g', i, Err Throttled) ∧ burnt g' to ip now (S j) ∧
    rf_window g' = rf_window g ∧ rf_max_per_window g' = rf_max_per_window g.
Proof.
  intros Hm Hw Hj [Ha Hi]. pose proof (addr_ip_keys to ip) as Hne. unfold gated_drip.
  rewrite (quota_admit_room g (addr_key to) now (replicate j now));
    [|by rewrite Ha, retain_replicate by lia|rewrite length_replicate; ulia]. cbn [fst snd negb].
  erewrite (quota_admit_full _ (ip_key ip) now);
    [|cbn; by rewrite lookup_insert_ne by done|cbn; lia]. cbn [fst snd negb].
  eexists. split; [done|]. cbn. split; [|done]. split; cbn.
  - rewrite lookup_insert_ne, lookup_default_insert by done. by rewrite <- replicate_cons_app.
  - rewrite lookup_default_insert. by rewrite retain_twice.
Qed.

Lemma burnt_run n : ∀ g i to ip now j,
  u32 (rf_max_per_window g) → 0 < rf_window g → Z.of_nat (j + n) ≤ rf_max_per_window g → burnt g to ip now j →
  ∃ g', gated_run g i (replicate n {| dr_to := to; dr_ip := ip; dr_now := now |}) =
          Some (g', i, replicate n (Err Throttled)) ∧ burnt g' to ip now (j + n) ∧
    rf_window g' = rf_window g ∧ rf_max_per_window g' = rf_max_per_window g.
Proof.
  induction n as [|n IH]; intros g i to ip now j Hm Hw Hj Hb.
  { exists g. by rewrite Nat.add_0_r. }
  destruct (burnt_step g i to ip now j Hm Hw ltac:(lia) Hb) as (g1 & Hd & Hb1 & Ew & Em).
  destruct (IH g1 i to ip now (S j)) as (g2 & Hr & Hb2 & Ew2 & Em2); [by rewrite Em|by rewrite Ew|lia|done|].
  exists g2. cbn. rewrite Hd. cbn. rewrite Hr. rewrite Nat.add_succ_r. split_and!; [done|done|congruence..].
Qed.

(** Drips from an IP that is over its quota are refused, and still charged to
    the address they name: after [max_per_window] of them the faucet refuses
    that address from every IP until the window has passed, although it never
    received anything. *)
Theorem refused_drips_charged g i to ip now :
  u32 (rf_max_per_window g) → 0 < rf_window g → rf_hits g !! addr_key to = None →
  rf_max_per_window g ≤ len (retain_recent now (rf_window g) (default [] (rf_hits g !! ip_key ip))) ≤ U32_MAX →
  let n := Z.to_nat (rf_max_per_window g) in
  ∃ g', gated_run g i (replicate n {| dr_to := to; dr_ip := ip; dr_now := now |}) =
          Some (g', i, replicate n (Err Throttled)) ∧
    ∀ i' ip' now', now ≤ now' < now + rf_window g →
      ∃ g'', gated_drip g' i' to ip' now' = Some (g'', i', Err Throttled).
Proof.
  intros Hm Hw Ha Hi n.
  destruct (burnt_run n g i to ip now 0) as (g' & Hr & [Hb _] & Ew & Em); [done|done|unfold n; ulia| |].
  { split; [by rewrite Ha|done]. }
  exists g'. split; [done|]. intros i' ip' now' Hn. unfold gated_drip.
  rewrite (quota_admit_full g' (addr_key to) now' (replicate n now));
    [|rewrite Hb, Ew, retain_replicate by lia; done|rewrite Em, length_replicate; unfold n; ulia].
  cbn. eauto.
Qed.

End limits.

(** ** A concrete faucet *)

#[local] Existing Instances rpc_crypto rpc_crypto_laws toy_hex toy_hex_laws toy_signer.

Definition toy_faucet : Faucet unit := Faucet_new tt 1 100.
Definition toy_gated : RateLimitedFaucet unit := RateLimitedFaucet_new toy_faucet 1 60.

(** The second request names the first one's address inside its window, the
    third comes after it. *)
Definition toy_drips : list DripReq :=
  [{| dr_to := toy_to; dr_ip := "10.0.0.1"; dr_now := 5 |};
   {| dr_to := toy_to; dr_ip := "10.0.0.2"; dr_now := 30 |};
   {| dr_to := toy_to; dr_ip := "10.0.0.1"; dr_now := 65 |}].

Definition toy_dripped : RateLimitedFaucet unit * RpcInner * list (result Hash RateLimitError) :=
  default (toy_gated, toy_server, []) (gated_run toy_gated toy_server toy_drips).

Lemma toy_dripped_oks : is_ok <$> toy_dripped.2 = [true; false; true].
Proof. vm_compute. reflexivity. Qed.

Lemma toy_dripped_eq : gated_run toy_gated toy_server toy_drips = Some toy_dripped.
Proof.
  pose proof toy_dripped_oks as E. unfold toy_dripped in *. revert E.
  destruct (gated_run toy_gated toy_server toy_drips) as [r|]; [reflexivity|]. intros E. discriminate E.
Qed.

Lemma drips_rate_limited_witness :
  is_ok <$> toy_dripped.2 = [true; false; true] ∧
  drips_in (λ q, bool_decide (dr_to q = toy_to)) 5 60 toy_drips toy_dripped.2 ≤ 1.
Proof.
  split; [exact toy_dripped_oks|]. pose proof toy_dripped_eq as E. revert E.
  destruct toy_dripped as [[g i] outs]. intros E.
  exact (proj1 (drips_rate_limited toy_faucet 1 60 toy_server toy_drips 0 g i outs
                  ltac:(by_eval) eq_refl E 5 toy_to "10.0.0.1")).
Defined.

(** An IP that has used its quota at time 0. *)
Definition toy_spent : RateLimitedFaucet unit :=
  set_hits (<[ip_key "10.0.0.1" := [0]]> ∅) toy_gated.

Lemma refused_drips_charged_witness :
  ∃ g', gated_run toy_spent toy_server [{| dr_to := toy_to; dr_ip := "10.0.0.1"; dr_now := 10 |}] =
          Some (g', toy_server, [Err Throttled]) ∧
    ∀ i' ip' now', 10 ≤ now' < 10 + 60 →
      ∃ g'', gated_drip g' i' toy_to ip' now' = Some (g'', i', Err Throttled).
Proof.
  apply (refused_drips_charged toy_spent toy_server toy_to "10.0.0.1" 10).
  - by_eval.
  - reflexivity.
  - reflexivity.
  - vm_compute. split; discriminate.
Defined.
