(* ===== verification/Metrics.v ===== *)
(** Metrics, service levels and alerts:
    [observability/src/{prometheus,slo,alerts,tracing}.rs], with the mesh
    parameters of [network/src/gossip.rs].

    The atomics of [Metrics] are named by [Gauge]; the clock reading and the
    outcome of [try_lock] are arguments of the recording of a commit.  Shown:
    observing changes no result of the code observed and counts the outcomes
    ([observing_is_passive]); an alert fires exactly on a sustained breach
    ([alert_exact]); the interval that is reported is the one between attempts
    to commit, so that a chain that commits nothing, but tries every one to two
    seconds, meets its service levels ([stall_meets_slo]); the check of the pool
    limits reports success for transactions the pool refuses
    ([observed_limits_differ]). *)

From Stdlib Require Import Ascii String.
From S2P Require Import Prelude Types Codec Crypto Merkle MptNode Mpt MptRep MptRefine MptSpec MptProof Store StoreCodec Blocks Tries ExecBase Vote Leader Quorum Staking Wasm Mempool Exec ExecSpec Wire Rpc.
From stdpp Require Import list pretty.

#[local] Set Warnings "-register-all".
#[local] Open Scope string_scope.
#[local] Open Scope Z_scope.
#[local] Open Scope l1_scope.

(** ** [network/src/gossip.rs]: topics and mesh *)

Record MeshConfig := { mesh_n : Z; heartbeat_ms : Z }.

Definition mesh_config : MeshConfig := {| mesh_n := 4; heartbeat_ms := 200 |}.

Definition all_topics : list string :=
  ["/l1/tx/1"; "/l1/proposal/1"; "/l1/vote/1"; "/l1/block/1"; "/l1/evidence/1"; "/l1/headers/1";
   "/l1/da-chunks/1"].

(** ** [prometheus.rs] *)

(** The [AtomicU64] fields of [Metrics]. *)
Inductive Gauge : Type :=
| CommitsOk | CommitsNone | CommitsErr | BlockIntervalMs | FinalityMs | MeshN | GossipTopics | GossipMsgs
| MempoolOccupancy | MempoolCap | MempoolFull | MempoolEvict | RpcSubmitOk | RpcSubmitErr.

#[export] Instance Gauge_eq_dec : EqDecision Gauge.
Proof. solve_decision. Defined.

Record Metrics := {
  exporter_up : bool;
  last_commit_ms : option Z;
  load : Gauge → Z;
}.

Definition Metrics_new : Metrics :=
  {| exporter_up := true; last_commit_ms := None;
     load := λ g, match g with MempoolCap => MEMPOOL_MAX_TXS | _ => 0 end |}.

Definition store_gauge (g : Gauge) (v : Z) (m : Metrics) : Metrics :=
  {| exporter_up := exporter_up m; last_commit_ms := last_commit_ms m;
     load := λ g', if decide (g' = g) then v else load m g' |}.
Definition set_last_commit (t : Z) (m : Metrics) : Metrics :=
  {| exporter_up := exporter_up m; last_commit_ms := Some t; load := load m |}.
Definition set_exporter_up (up : bool) (m : Metrics) : Metrics :=
  {| exporter_up := up; last_commit_ms := last_commit_ms m; load := load m |}.

(** [fetch_add(1)]. *)
Definition bump_gauge (g : Gauge) (m : Metrics) : Metrics := store_gauge g ((load m g + 1) mod 2 ^ 64) m.

(** [as_millis() as u64] of a number of nanoseconds. *)
Definition as_millis (d : Z) : Z := (d / 1000000) mod 2 ^ 64.

Definition outcome_gauge (r : result (option Finalized) CommitError) : Gauge :=
  match r with Ok (Some _) => CommitsOk | Ok None => CommitsNone | Err _ => CommitsErr end.

(** [lock]: [try_lock] succeeded. *)
Definition record_commit_result (lock : bool) (now : Z) (r : result (option Finalized) CommitError)
    (m : Metrics) : Metrics :=
  let m := bump_gauge (outcome_gauge r) m in
  if negb lock then m
  else
    let m := match last_commit_ms m with
             | Some prev =>
                 let ms := as_millis (sat_sub now prev) in
                 store_gauge FinalityMs ms (store_gauge BlockIntervalMs ms m)
             | None => m
             end in
    set_last_commit now m.

Definition record_timings_ms (block_interval finality : Z) (m : Metrics) : Metrics :=
  bump_gauge CommitsOk (store_gauge FinalityMs finality (store_gauge BlockIntervalMs block_interval m)).

Definition record_mesh (n topics : Z) (m : Metrics) : Metrics :=
  bump_gauge GossipMsgs (store_gauge GossipTopics topics (store_gauge MeshN n m)).

Definition record_mempool (occupancy : Z) (evicted full : bool) (m : Metrics) : Metrics :=
  let m := store_gauge MempoolOccupancy occupancy m in
  let m := if evicted then bump_gauge MempoolEvict m else m in
  if full then bump_gauge MempoolFull m else m.

Definition record_rpc_submit (ok : bool) (m : Metrics) : Metrics :=
  if ok then bump_gauge RpcSubmitOk m else bump_gauge RpcSubmitErr m.

(** One metric of the text format: its help line, its type line, its value. *)
Definition newline : string := String (ascii_of_nat 10) EmptyString.
Definition metric (name kind help : string) (v : Z) : string :=
  String.concat "" ["# HELP "; name; " "; help; newline; "# TYPE "; name; " "; kind; newline;
                    name; " "; pretty v; newline].

Definition render (m : Metrics) : string :=
  String.concat ""
    [metric "l1_exporter_up" "gauge" "1 if the scrape endpoint is considered available"
       (if exporter_up m then 1 else 0);
     metric "l1_commit_success_total" "counter" "cons.commit Ok(Some)" (load m CommitsOk);
     metric "l1_commit_empty_total" "counter" "cons.commit Ok(None) (no QC)" (load m CommitsNone);
     metric "l1_commit_failure_total" "counter" "cons.commit Err" (load m CommitsErr);
     metric "l1_block_interval_ms" "gauge"
       "last observed commit-to-commit interval (architecture.md §10 1–2s)" (load m BlockIntervalMs);
     metric "l1_finality_ms" "gauge" "last observed finality sample (architecture.md §10 <5s)"
       (load m FinalityMs);
     metric "l1_gossip_mesh_n" "gauge" "gossip.mesh target degree" (load m MeshN);
     metric "l1_gossip_topics" "gauge" "subscribed gossip topics" (load m GossipTopics);
     metric "l1_gossip_msgs_total" "counter" "observed mesh snapshots" (load m GossipMsgs);
     metric "l1_mempool_occupancy" "gauge" "txs observed under mempool.size_limits"
       (load m MempoolOccupancy);
     metric "l1_mempool_capacity" "gauge" "MEMPOOL_MAX_TXS" (load m MempoolCap);
     metric "l1_mempool_full_total" "counter" "ensure_room MempoolFull" (load m MempoolFull);
     metric "l1_mempool_evicted_total" "counter" "successful room-making evictions" (load m MempoolEvict);
     metric "l1_rpc_submit_ok_total" "counter" "l1_submitTx success" (load m RpcSubmitOk);
     metric "l1_rpc_submit_err_total" "counter" "l1_submitTx error" (load m RpcSubmitErr)].

(** [Err] is [ExporterDown]. *)
Definition scrape (m : Metrics) : result string unit :=
  if negb (exporter_up m) then Err tt else Ok (render m).

Section observe.
Context `{!Crypto} `{!Hex}.

(** The result of [scrape] is dropped. *)
Definition observe_commit (lock : bool) (now : Z) (m : Metrics) (precommits : list Vote)
    (validators : ValidatorSet) (reachable : VotingPower) (proposal : Proposal) (log : CommitLog) :
    option (Metrics * CommitLog * result (option Finalized) CommitError) :=
  match commit precommits validators reachable proposal log with
  | None => None
  | Some (log, out) =>
      let m := record_commit_result lock now out m in
      let _ := scrape m in Some (m, log, out)
  end.

Definition observe_mesh (m : Metrics) : Metrics :=
  let m := record_mesh (mesh_n mesh_config) (len all_topics) m in
  let _ := scrape m in m.

Definition observe_size_limits (m : Metrics) (pool : Mempool) (incoming : SignedTx) (occupancy_after : Z) :
    option (Metrics * Mempool * result unit AdmitError) :=
  match check_tx_bytes incoming with
  | None => None
  | Some (Err e) => Some (m, pool, Err e)
  | Some (Ok _) =>
      match ensure_room pool incoming with
      | None => None
      | Some (pool, r) =>
          let before_full := match r with Err AMempoolFull => true | _ => false end in
          if before_full then
            let m := record_mempool occupancy_after false true m in
            let _ := scrape m in Some (m, pool, Err AMempoolFull)
          else
            let m := record_mempool occupancy_after false false m in
            let _ := scrape m in Some (m, pool, Ok tt)
      end
  end.

(** [tracing.rs]; the span is not part of the model. *)
Definition submit_tx_traced (m : Metrics) (i : RpcInner) (params : Value) :
    option (Metrics * RpcInner * result Value TxRpcError) :=
  match submit_tx i params with
  | None => None
  | Some (i, out) =>
      let m := record_rpc_submit (is_ok out) m in
      let _ := scrape m in Some (m, i, out)
  end.

End observe.

(** ** [slo.rs] *)

Definition BLOCK_TIME_MIN_MS : Z := 1000.
Definition BLOCK_TIME_MAX_MS : Z := 2000.
Definition FINALITY_MAX_MS : Z := 5000.

Record SloReport := {
  slo_block_interval_ms : Z;
  slo_finality_ms : Z;
  block_time_breached : bool;
  finality_breached : bool;
}.

Definition any_breach (r : SloReport) : bool := block_time_breached r || finality_breached r.

Definition evaluate (m : Metrics) : SloReport :=
  let b := load m BlockIntervalMs in
  let f := load m FinalityMs in
  {| slo_block_interval_ms := b; slo_finality_ms := f;
     block_time_breached := negb (b =? 0) && negb ((BLOCK_TIME_MIN_MS <=? b) && (b <=? BLOCK_TIME_MAX_MS));
     finality_breached := f >=? FINALITY_MAX_MS |}.

(** ** [alerts.rs] *)

Inductive AlertState : Type := Silent | Firing.

#[export] Instance AlertState_eq_dec : EqDecision AlertState.
Proof. solve_decision. Defined.

Definition default_for_samples : nat := 3.

Definition evaluate_history (history : list SloReport) (for_samples : nat) : AlertState :=
  let need := Nat.max for_samples 1 in
  if (length history <? need)%nat then Silent
  else
    let tail := drop (length history - need) history in
    if forallb any_breach tail then Firing else Silent.

Definition evaluate_with_metrics (prior : list SloReport) (m : Metrics) (for_samples : nat) :
    SloReport * AlertState :=
  let next := evaluate m in (next, evaluate_history (prior ++ [next])%list for_samples).

(** ** Observing does not interfere *)

(** One call of [commit] with its clock reading. *)
Record Attempt := {
  at_lock : bool;
  at_now : Z;
  at_precommits : list Vote;
  at_validators : ValidatorSet;
  at_reachable : VotingPower;
  at_proposal : Proposal;
}.

Section passive.
Context `{!Crypto}.

Fixpoint commit_run (log : CommitLog) (l : list Attempt) :
    option (CommitLog * list (result (option Finalized) CommitError)) :=
  match l with
  | [] => Some (log, [])
  | a :: l =>
      match commit (at_precommits a) (at_validators a) (at_reachable a) (at_proposal a) log with
      | None => None
      | Some (log, r) =>
          match commit_run log l with None => None | Some (log, rs) => Some (log, r :: rs) end
      end
  end.

Fixpoint observe_run (m : Metrics) (log : CommitLog) (l : list Attempt) :
    option (Metrics * CommitLog * list (result (option Finalized) CommitError)) :=
  match l with
  | [] => Some (m, log, [])
  | a :: l =>
      match observe_commit (at_lock a) (at_now a) m (at_precommits a) (at_validators a) (at_reachable a)
              (at_proposal a) log with
      | None => None
      | Some (m, log, r) =>
          match observe_run m log l with None => None | Some (m, log, rs) => Some (m, log, r :: rs) end
      end
  end.

(** The outcomes of one kind. *)
Definition outcomes (g : Gauge) (outs : list (result (option Finalized) CommitError)) : Z :=
  len (List.filter (λ r, bool_decide (outcome_gauge r = g)) outs).

Definition commit_gauge (g : Gauge) : Prop := g = CommitsOk ∨ g = CommitsNone ∨ g = CommitsErr.

Lemma record_commit_load lock now r m g :
  commit_gauge g →
  load (record_commit_result lock now r m) g =
    if bool_decide (outcome_gauge r = g) then (load m g + 1) mod 2 ^ 64 else load m g.
Proof.
  intros Hg. assert (g ≠ FinalityMs ∧ g ≠ BlockIntervalMs) as [H1 H2]
    by (destruct Hg as [->|[->| ->]]; done).
  assert (load (bump_gauge (outcome_gauge r) m) g =
            if bool_decide (outcome_gauge r = g) then (load m g + 1) mod 2 ^ 64 else load m g) as E.
  { cbn. case_bool_decide as Ho; [by rewrite decide_True, Ho by done|by rewrite decide_False by congruence]. }
  unfold record_commit_result. destruct lock; cbn [negb]; [|done].
  rewrite <- E. destruct (last_commit_ms _); [|done]. cbn. rewrite 2!decide_False by done. done.
Qed.

Lemma observe_run_eq l m log :
  match commit_run log l with
  | None => observe_run m log l = None
  | Some (log', outs) =>
      ∃ m', observe_run m log l = Some (m', log', outs) ∧
        ∀ g, commit_gauge g → u64 (load m g) → load m' g = (load m g + outcomes g outs) mod 2 ^ 64
  end.
Proof.
  revert m log. induction l as [|a l IH]; intros m log; cbn.
  { exists m. split; [done|]. intros g _ Hg. unfold outcomes. cbn. rewrite Z.mod_small by ulia. lia. }
  unfold observe_commit. destruct (commit _ _ _ _ log) as [[log1 r]|]; [|done].
  set (m1 := record_commit_result (at_lock a) (at_now a) r m).
  specialize (IH m1 log1). destruct (commit_run log1 l) as [[log2 rs]|]; [|by rewrite IH].
  destruct IH as (m2 & E & Hg). rewrite E. exists m2. split; [done|]. intros g Hc Hu.
  assert (load m1 g = if bool_decide (outcome_gauge r = g) then (load m g + 1) mod 2 ^ 64 else load m g)
    as E1 by (by apply record_commit_load).
  unfold outcomes in *. cbn. rewrite Hg, E1; [|done|].
  - case_bool_decide; cbn; [|done]. rewrite Zplus_mod_idemp_l. f_equal. lia.
  - rewrite E1. case_bool_decide; [|done]. pose proof (Z.mod_pos_bound (load m g + 1) (2 ^ 64)). ulia.
Qed.

(** Commits that are observed have the results and the effect on the commit
    log of the same commits without metrics, whatever the state of the exporter
    and of the lock; the three counters add up the outcomes. *)
Theorem observing_is_passive l log up :
  match commit_run log l with
  | None => observe_run (set_exporter_up up Metrics_new) log l = None
  | Some (log', outs) =>
      ∃ m', observe_run (set_exporter_up up Metrics_new) log l = Some (m', log', outs) ∧
        ∀ g, commit_gauge g → load m' g = outcomes g outs mod 2 ^ 64
  end.
Proof.
  pose proof (observe_run_eq l (set_exporter_up up Metrics_new) log) as Hr.
  destruct (commit_run log l) as [[log' outs]|]; [|done]. destruct Hr as (m' & E & Hg).
  exists m'. split; [done|]. intros g Hc.
  assert (load (set_exporter_up up Metrics_new) g = 0) as E0 by (destruct Hc as [->|[->| ->]]; done).
  rewrite Hg, E0; [done|done|ulia].
Qed.

(** ** What the service levels see *)

(** Attempts between one and two seconds apart, with the lock free. *)
Fixpoint paced (prev : option Z) (l : list Attempt) : Prop :=
  match l with
  | [] => True
  | a :: l =>
      at_lock a = true ∧
      match prev with
      | Some p => 1000000000 ≤ at_now a - p < 2001000000
      | None => True
      end ∧ paced (Some (at_now a)) l
  end.

(** Both gauges hold one interval, and it is within its levels. *)
Definition in_target (m : Metrics) : Prop :=
  load m FinalityMs = load m BlockIntervalMs ∧
  (load m BlockIntervalMs = 0 ∨ 1000 ≤ load m BlockIntervalMs ≤ 2000).

Lemma in_target_clean m : in_target m → any_breach (evaluate m) = false.
Proof.
  intros [Ef Hb]. unfold any_breach, evaluate, BLOCK_TIME_MIN_MS, BLOCK_TIME_MAX_MS, FINALITY_MAX_MS. cbn.
  rewrite Ef. apply orb_false_iff. split; [|lia]. apply andb_false_iff.
  destruct Hb as [->|Hb]; [by left|]. right. lia.
Qed.

Lemma in_target_timing v now m :
  1000 ≤ v ≤ 2000 → in_target (set_last_commit now (store_gauge FinalityMs v (store_gauge BlockIntervalMs v m))).
Proof. intros Hv. unfold in_target. cbn. repeat case_decide; try done. by split; [|right]. Qed.

Lemma in_target_outcome r now m : in_target m → in_target (set_last_commit now (bump_gauge (outcome_gauge r) m)).
Proof. unfold in_target. cbn. by destruct r as [[]|]. Qed.

Lemma paced_step a prev m log m' log' r :
  at_lock a = true → last_commit_ms m = prev →
  match prev with Some p => 1000000000 ≤ at_now a - p < 2001000000 | None => True end →
  in_target m →
  observe_commit (at_lock a) (at_now a) m (at_precommits a) (at_validators a) (at_reachable a)
    (at_proposal a) log = Some (m', log', r) →
  last_commit_ms m' = Some (at_now a) ∧ in_target m'.
Proof.
  intros El Ep Hp Ht Ho. unfold observe_commit in Ho.
  destruct (commit _ _ _ _ log) as [[log1 r1]|]; [|done]. simplify_eq.
  unfold record_commit_result. rewrite El. cbn [negb].
  change (last_commit_ms (bump_gauge _ m)) with (last_commit_ms m).
  destruct (last_commit_ms m) as [p|]; (split; [done|]).
  - apply in_target_timing. unfold as_millis, sat_sub. rewrite Z.max_r by lia.
    assert (1000 ≤ (at_now a - p) / 1000000 < 2001) as Hq
      by (split; [apply Z.div_le_lower_bound|apply Z.div_lt_upper_bound]; lia).
    rewrite Z.mod_small by lia. lia.
  - by apply in_target_outcome.
Qed.

Lemma paced_run l prev m log m' log' outs :
  paced prev l → last_commit_ms m = prev → in_target m →
  observe_run m log l = Some (m', log', outs) → in_target m'.
Proof.
  revert prev m log outs. induction l as [|a l IH]; intros prev m log outs Hp Ep Ht Ho.
  { by simplify_eq/=. }
  cbn in Hp, Ho. destruct Hp as (El & Hp & Hl).
  destruct (observe_commit _ _ _ _ _ _ _ _) as [[[m1 log1] r]|] eqn:E1; [|done].
  destruct (observe_run m1 log1 l) as [[[m2 log2] rs]|] eqn:E2; [|done]. simplify_eq.
  destruct (paced_step _ _ _ _ _ _ _ El eq_refl Hp Ht E1) as [Ep' Ht']. eauto.
Qed.

Lemma history_silent h n : Forall (λ r, any_breach r = false) h → evaluate_history h n = Silent.
Proof.
  intros Hh. unfold evaluate_history. case_match eqn:El; [done|]. apply Nat.ltb_ge in El.
  assert (Forall (λ r, any_breach r = false) (drop (length h - n `max` 1) h)) as Hd by (by apply Forall_drop).
  destruct (drop (length h - n `max` 1) h) as [|r d] eqn:Ed.
  { apply (f_equal length) in Ed. rewrite length_drop in Ed. cbn in Ed. lia. }
  cbn. inversion Hd as [|? ? Hr _]; subst. by rewrite Hr.
Qed.

(** C40: The interval the exporter reports as commit-to-commit is the one between
    calls of [commit]: as long as those come one to two seconds apart no
    service level is breached and no alert fires, however many of them commit
    anything. *)
Theorem stall_meets_slo l log m' log' outs prior for_samples :
  paced None l → observe_run Metrics_new log l = Some (m', log', outs) →
  Forall (λ r, any_breach r = false) prior →
  any_breach (evaluate m') = false ∧
  evaluate_with_metrics prior m' for_samples = (evaluate m', Silent) ∧
  load m' CommitsOk = outcomes CommitsOk outs mod 2 ^ 64.
Proof.
  intros Hp Ho Hh. assert (in_target m') as Ht by (eapply (paced_run l None Metrics_new); eauto; by split; [|left]).
  split; [by apply in_target_clean|]. split.
  - unfold evaluate_with_metrics. rewrite history_silent; [done|].
    apply Forall_app_2; [done|]. constructor; [|done]. by apply in_target_clean.
  - pose proof (observe_run_eq l Metrics_new log) as Hr.
    destruct (commit_run log l) as [[log1 outs1]|]; [|by rewrite Ho in Hr]. destruct Hr as (m1 & E & Hg).
    rewrite Ho in E. simplify_eq. rewrite Hg; [done|by left|done].
Qed.

End passive.

Lemma forallb_Forall_iff {A : Type} (p : A → bool) (l : list A) :
  forallb p l = true ↔ Forall (λ x, p x = true) l.
Proof.
  induction l as [|x l IH]; cbn; [by split|]. rewrite andb_true_iff, IH, Forall_cons. done.
Qed.

(** An alert fires exactly when the last [for_samples] reports, and at least
    one, breach a level. *)
Theorem alert_exact h n :
  evaluate_history h n = Firing ↔
  ∃ old tail, h = (old ++ tail)%list ∧ length tail = Nat.max n 1 ∧ Forall (λ r, any_breach r = true) tail.
Proof.
  unfold evaluate_history. destruct (Nat.ltb_spec (length h) (Nat.max n 1)) as [Hl|Hl].
  { split; [done|]. intros (old & tail & -> & Ht & _). rewrite length_app in Hl. lia. }
  destruct (forallb any_breach _) eqn:Ef; (split; [|try done]).
  - intros _. exists (take (length h - Nat.max n 1) h), (drop (length h - Nat.max n 1) h).
    split; [by rewrite take_drop|]. split; [rewrite length_drop; lia|].
    by apply forallb_Forall_iff.
  - done.
  - intros (old & tail & -> & Ht & Hb). rewrite length_app, Ht, Nat.add_sub, drop_app_length in Ef.
    by rewrite (proj2 (forallb_Forall_iff _ _) Hb) in Ef.
Qed.

(** ** The pool limits, observed *)

Section limits.
Context `{!Crypto}.

Lemma ensure_room_total pool incoming : ∃ pool' r, ensure_room pool incoming = Some (pool', r) ∧
  match fee_priority (st_tx incoming) with
  | Err e => r = Err (admit_of_gas e)
  | Ok _ => r = Ok tt ∨ r = Err AMempoolFull
  end.
Proof.
  unfold ensure_room. destruct (fee_priority (st_tx incoming)) as [pr|e]; [|by eexists _, _].
  destruct (room_loop_ok (length (entries pool)) pool (tx_size incoming) pr) as (p & r & E & _ & Hr).
  { by rewrite length_entries. }
  exists p, r. split; [done|]. destruct r as [[]|]; [by left|]. right. by rewrite Hr.
Qed.

(** For a transaction of admissible size: the observed check leaves the pool
    as [ensure_room] does, and its result is the one of [ensure_room] unless
    the gas limit is invalid, which [ensure_room] refuses and the observed check
    reports as success.  The counter of evictions never moves, whatever was
    evicted to make room. *)
Theorem observed_limits_differ m pool incoming occupancy :
  check_tx_bytes incoming = Some (Ok tt) →
  ∃ pool' r m' r', ensure_room pool incoming = Some (pool', r) ∧
    observe_size_limits m pool incoming occupancy = Some (m', pool', r') ∧
    load m' MempoolEvict = load m MempoolEvict ∧ load m' MempoolOccupancy = occupancy ∧
    match fee_priority (st_tx incoming) with
    | Err e => r = Err (admit_of_gas e) ∧ r' = Ok tt
    | Ok _ => r' = r
    end.
Proof.
  intros Hs. destruct (ensure_room_total pool incoming) as (pool' & r & E & Hr).
  unfold observe_size_limits. rewrite Hs, E. exists pool', r.
  destruct (fee_priority (st_tx incoming)) as [pr|e].
  - destruct Hr as [->| ->]; eexists _, _; (split; [done|]; split; [done|]); done.
  - subst r. destruct e; eexists _, _; (split; [done|]; split; [done|]); done.
Qed.

End limits.

(** ** Concrete runs *)

#[local] Existing Instances toy_crypto.

(** Three attempts at 0, 1.5 and 3 seconds with one precommit of three. *)
Definition stalled (now : Z) : Attempt :=
  {| at_lock := true; at_now := now; at_precommits := [toy_precommit 0 val_a]; at_validators := toy_set;
     at_reachable := 5; at_proposal := toy_proposal 0 |}.
Definition stalled_run : list Attempt := [stalled 0; stalled 1500000000; stalled 3000000000].

Lemma stall_meets_slo_witness :
  ∃ m, observe_run Metrics_new ∅ stalled_run = Some (m, ∅, [Ok None; Ok None; Ok None]) ∧
    any_breach (evaluate m) = false ∧ evaluate_with_metrics [] m 1 = (evaluate m, Silent) ∧
    load m CommitsOk = 0.
Proof.
  assert (∃ m, observe_run Metrics_new ∅ stalled_run = Some (m, ∅, [Ok None; Ok None; Ok None])) as [m E].
  { eexists. cbn [observe_run stalled_run]. unfold observe_commit.
    assert (∀ t, commit (at_precommits (stalled t)) (at_validators (stalled t)) (at_reachable (stalled t))
              (at_proposal (stalled t)) ∅ = Some (∅, Ok None)) as Ec by (intros t; vm_compute; reflexivity).
    rewrite !Ec. reflexivity. }
  exists m. split; [exact E|].
  refine (stall_meets_slo stalled_run ∅ m ∅ _ [] 1 _ E _).
  - cbn. repeat split; lia.
  - constructor.
Defined.

(** A transfer with less gas than its cost. *)
Definition low_gas : SignedTx :=
  {| st_tx := tx_transfer 1 0 1 5 (replicate 32 9) 100; st_signature := replicate 64 1;
     st_public_key := replicate 32 7 |}.

Lemma observed_limits_differ_witness :
  ∃ pool' r m' r', ensure_room (with_limits 1 4 1000) low_gas = Some (pool', r) ∧
    observe_size_limits Metrics_new (with_limits 1 4 1000) low_gas 0 = Some (m', pool', r') ∧
    load m' MempoolEvict = 0 ∧ load m' MempoolOccupancy = 0 ∧ r = Err AGas ∧ r' = Ok tt.
Proof.
  apply (observed_limits_differ Metrics_new (with_limits 1 4 1000) low_gas 0). vm_compute. reflexivity.
Defined.
