(* ===== verification/Devnet.v ===== *)
(** The generator of the devnet: [infra/genesis.rs], over the directories of
    [Config].

    A file tree maps directory names to directories; failing disks are not
    modelled, [Err] is a file that is not there, [None] a panic of [expect].
    BLS key generation is the class [DevKeys].  Shown: every directory that is
    generated, the one of the follower included, loads to one and the same
    genesis, bootstrap list and VRF keys, each with the identity and the keys of
    its node, and the VRF secrets of all validators are in every one of them
    ([devnet_consistent]); the accounts of the bank repeat after 65536
    ([bank_seed_wraps]). *)

From Stdlib Require Import Ascii String.
From S2P Require Import Prelude Types Codec Crypto Vrf Rpc Sdk Config.
From stdpp Require Import list gmap strings pretty.

#[local] Set Warnings "-register-all".
#[local] Open Scope string_scope.
#[local] Open Scope Z_scope.
#[local] Open Scope list_scope.
#[local] Open Scope l1_scope.

(** ** Keys *)

(** [blst::min_pk::SecretKey]: [key_gen(ikm, &[])] as bytes, [sk_to_pk]. *)
Class DevKeys := {
  bls_key_gen : bytes → option bytes;
  bls_sk_to_pk : bytes → bytes;
}.

(** Key generation takes 32 bytes or more; keys have 32 and 48 bytes. *)
Class DevKeysLaws `{!DevKeys} := {
  bls_key_gen_ok ikm : length ikm = 32%nat → ∃ sk, bls_key_gen ikm = Some sk ∧ length sk = 32%nat;
  bls_sk_to_pk_array sk : array 48 (bls_sk_to_pk sk);
}.

Definition N_VALIDATORS : Z := 4.
Definition DEVNET_CHAIN_ID : Z := 18.
Definition NODE_IPS : list string := ["172.28.0.10"; "172.28.0.11"; "172.28.0.12"; "172.28.0.13"].
Definition NODE_PORTS : list Z := [4001; 4002; 4003; 4004].

(** [i as u8]. *)
Definition as_u8 (i : Z) : Z := i mod 256.

Definition bls_ikm (i : Z) : bytes := [24; as_u8 i] ++ replicate 30 161.
Definition ed25519_seed (i : Z) : bytes := [24; as_u8 i] ++ replicate 30 237.
Definition bank_seed (i : Z) : bytes := [24; as_u8 (i / 256); as_u8 (i mod 256)] ++ replicate 29 186.
Definition vrf_seed (i : Z) : bytes := [sat_add U8_MAX (as_u8 i) 1; 90] ++ replicate 30 0.

(** ** Files *)

Abbreviation Tree := (gmap string (gmap string bytes)).

Definition create_dir_all (t : Tree) (name : string) : Tree :=
  match t !! name with Some _ => t | None => <[name := ∅]> t end.
Definition on_dir (t : Tree) (name : string) (f : gmap string bytes → gmap string bytes) : Tree :=
  <[name := f (default ∅ (t !! name))]> t.
(** [fs::copy] of a file of the directory [shared]. *)
Definition copy_shared (t : Tree) (name file : string) : result Tree unit :=
  match default ∅ (t !! "shared") !! file with
  | None => Err tt
  | Some b => Ok (on_dir t name <[file := b]>)
  end.

Definition node_name (i : Z) : string := String.append "node" (pretty i).

Section devnet.
Context `{!Crypto} `{!Hex} `{!Signer bytes} `{!Curve} `{!DevKeys} `{!Libp2p}.

Definition bank_account : GenesisAccount :=
  {| ga_balance := 1000000000; ga_nonce := 0; ga_code_hash := Hash_ZERO |}.

(** The first loop, on the seeds of the bank. *)
Definition add_bank (g : Genesis) (i : Z) : Genesis :=
  insert_alloc g (from_ed25519 (verifying_key (bank_seed i))) bank_account.

(** What the second loop builds: genesis, VRF keys, and for each validator its
    identity, BLS key, VRF key and id. *)
Record DevState := {
  ds_genesis : Genesis;
  ds_vrf_pks : gmap ValidatorId bytes;
  ds_vrf_secrets : gmap ValidatorId bytes;
  ds_identities : list (NodeIdentity * bytes * bytes * ValidatorId);
}.

Definition add_validator (st : DevState) (i : Z) : option DevState :=
  match bls_key_gen (bls_ikm i) with
  | None => None
  | Some bls =>
      let vid := bls_sk_to_pk bls in
      let vrf_sk := vrf_seed i in
      match from_ed25519_secret (ed25519_seed i) with
      | None => None
      | Some id =>
          Some {| ds_genesis := insert_validator (ds_genesis st) vid 1;
                  ds_vrf_pks := <[vid := public_key_from_seed vrf_sk]> (ds_vrf_pks st);
                  ds_vrf_secrets := <[vid := vrf_sk]> (ds_vrf_secrets st);
                  ds_identities := ds_identities st ++ [(id, bls, vrf_sk, vid)] |}
      end
  end.

Fixpoint add_validators (st : DevState) (ixs : list Z) : option DevState :=
  match ixs with
  | [] => Some st
  | i :: ixs => match add_validator st i with None => None | Some st => add_validators st ixs end
  end.

Definition dev_setup (n_bank : Z) : option DevState :=
  add_validators
    {| ds_genesis := foldl add_bank (Genesis_new DEVNET_CHAIN_ID) (seqZ 0 n_bank);
       ds_vrf_pks := ∅; ds_vrf_secrets := ∅; ds_identities := [] |}
    (seqZ 0 N_VALIDATORS).

(** [format!("/ip4/{}/udp/{}/quic-v1", ..)]. *)
Definition node_addr (i : nat) : bytes :=
  ascii_bytes (String.concat "" ["/ip4/"; nth i NODE_IPS ""; "/udp/"; pretty (nth i NODE_PORTS 0); "/quic-v1"]).

Fixpoint dev_boot (i : nat) (ids : list (NodeIdentity * bytes * bytes * ValidatorId))
    (boot : gmap PeerId Multiaddr) : option (gmap PeerId Multiaddr) :=
  match ids with
  | [] => Some boot
  | (id, _, _, _) :: ids =>
      match addr_from_utf8 (node_addr i) with
      | None => None
      | Some ma => dev_boot (S i) ids (<[ni_peer_id id := ma]> boot)
      end
  end.

(** The body of the third loop, and of the follower's directory. *)
Definition write_node (t : Tree) (name : string) (genesis : Genesis) (boot : gmap PeerId Multiaddr)
    (id : NodeIdentity) (bls vrf genesis_bytes : bytes) : result Tree unit :=
  let t := create_dir_all t name in
  let cfg := NodeConfig_new genesis boot id name in
  let t := on_dir t name (λ d, write_dir d cfg bls vrf) in
  let t := on_dir t name <["genesis.bin" := genesis_bytes]> in
  let t := on_dir t name (λ d, write_bootstrap d boot) in
  let? t := copy_shared t name "vrf_pks.bin" in
  let? t := copy_shared t name "vrf_secrets.bin" in
  copy_shared t name "genesis.hash".

Fixpoint write_nodes (t : Tree) (i : Z) (genesis : Genesis) (boot : gmap PeerId Multiaddr)
    (ids : list (NodeIdentity * bytes * bytes * ValidatorId)) (genesis_bytes : bytes) : result Tree unit :=
  match ids with
  | [] => Ok t
  | (id, bls, vrf, _) :: ids =>
      let? t := write_node t (node_name i) genesis boot id bls vrf genesis_bytes in
      write_nodes t (i + 1) genesis boot ids genesis_bytes
  end.

(** The directory [shared]. *)
Definition write_shared (t : Tree) (st : DevState) : Tree :=
  let t := on_dir t "shared" <["genesis.bin" := encode_genesis (ds_genesis st)]> in
  let t := on_dir t "shared"
             <["genesis.hash" := ascii_bytes (hex_encode (genesis_hash (ds_genesis st))) ++ [10]]> in
  let t := on_dir t "shared" (λ d, write_vrf_pks d (ds_vrf_pks st)) in
  on_dir t "shared" (λ d, write_vrf_secrets d (ds_vrf_secrets st)).

Definition materialize_with_bank (root : Tree) (n_bank : Z) : option (result (Tree * (Hash * list bytes)) unit) :=
  let t := create_dir_all root "shared" in
  match dev_setup n_bank with
  | None => None
  | Some st =>
      let genesis := ds_genesis st in
      let genesis_bytes := encode_genesis genesis in
      let t := write_shared t st in
      match dev_boot 0 (ds_identities st) ∅ with
      | None => None
      | Some boot =>
          match write_nodes t 0 genesis boot (ds_identities st) genesis_bytes with
          | Err e => Some (Err e)
          | Ok t =>
              match from_ed25519_secret (ed25519_seed 9), bls_key_gen (bls_ikm 9) with
              | Some join_id, Some join_bls =>
                  Some (let? t := write_node t "joiner" genesis boot join_id join_bls
                                    (replicate 32 9) genesis_bytes in
                        Ok (t, (genesis_hash genesis, bank_seed <$> seqZ 0 n_bank)))
              | _, _ => None
              end
          end
      end
  end.

Definition materialize (root : Tree) : option (result (Tree * Hash) unit) :=
  (λ r, let? x := r in Ok (x.1, x.2.1)) <$> materialize_with_bank root 0.

(** [rewire_from_listen]; [trim] is of the standard library, the parser of libp2p. *)
Fixpoint rewire_boot (trim : bytes → bytes) (t : Tree) (ixs : list Z) (boot : gmap PeerId Multiaddr) :
    option (result (gmap PeerId Multiaddr) ConfigError) :=
  match ixs with
  | [] => Some (Ok boot)
  | i :: ixs =>
      let dir := default ∅ (t !! node_name i) in
      match dir !! "listen" with
      | None => Some (Err CfgIo)
      | Some listen =>
          match addr_from_utf8 (trim listen) with
          | None => Some (Err CfgIo)
          | Some addr =>
              match load_dir dir (node_name i) with
              | None => None
              | Some (Err e) => Some (Err e)
              | Some (Ok (cfg, _, _)) =>
                  rewire_boot trim t ixs (<[ni_peer_id (nc_identity cfg) := addr]> boot)
              end
          end
      end
  end.

Definition rewire_from_listen (trim : bytes → bytes) (t : Tree) (n : Z) : option (result Tree ConfigError) :=
  match rewire_boot trim t (seqZ 0 n) ∅ with
  | None => None
  | Some (Err e) => Some (Err e)
  | Some (Ok boot) =>
      let t := foldl (λ t i, on_dir t (node_name i) (λ d, write_bootstrap d boot)) t (seqZ 0 n) in
      Some (Ok (match t !! "joiner" with
                | Some _ => on_dir t "joiner" (λ d, write_bootstrap d boot)
                | None => t
                end))
  end.

End devnet.

(** ** The directories *)

Section files.
Context `{!Crypto} `{!Hex} `{!Signer bytes} `{!Curve} `{!DevKeys} `{!Libp2p}.

(** The files of the node [id] in a devnet. *)
Record node_files (st : DevState) (boot : gmap PeerId Multiaddr) (id : NodeIdentity) (bls vrf : bytes)
    (d : gmap string bytes) : Prop := {
  nf_genesis : d !! "genesis.bin" = Some (encode_genesis (ds_genesis st));
  nf_ed25519 : d !! "ed25519" = Some (ni_ed25519 id);
  nf_bls : d !! "bls_sk" = Some bls;
  nf_vrf : d !! "vrf_sk" = Some vrf;
  nf_boot : d !! "bootstrap.bin" = Some (encode_bootstrap boot);
  nf_pks : d !! "vrf_pks.bin" = Some (concat (key_entry <$> btree_iter (ds_vrf_pks st)));
  nf_secrets : d !! "vrf_secrets.bin" = Some (concat (key_entry <$> btree_iter (ds_vrf_secrets st)));
}.

(** The files the nodes copy. *)
Definition shared_ok (st : DevState) (t : Tree) : Prop :=
  ∃ d h, t !! "shared" = Some d ∧ d !! "genesis.hash" = Some h ∧
    d !! "vrf_pks.bin" = Some (concat (key_entry <$> btree_iter (ds_vrf_pks st))) ∧
    d !! "vrf_secrets.bin" = Some (concat (key_entry <$> btree_iter (ds_vrf_secrets st))).

Lemma on_dir_insert (t : Tree) name d f : on_dir (<[name := d]> t) name f = <[name := f d]> t.
Proof. unfold on_dir. rewrite lookup_insert_eq. apply insert_insert_eq. Qed.

Lemma on_dir_create t name f : on_dir (create_dir_all t name) name f = on_dir t name f.
Proof.
  unfold create_dir_all, on_dir. destruct (t !! name) as [d|] eqn:E; [by rewrite E|].
  rewrite lookup_insert_eq. apply insert_insert_eq.
Qed.

Lemma copy_shared_ok (t : Tree) name file s d b :
  t !! "shared" = Some s → s !! file = Some b → name ≠ "shared" →
  copy_shared (<[name := d]> t) name file = Ok (<[name := <[file := b]> d]> t).
Proof.
  intros Es Eb Hn. unfold copy_shared. rewrite lookup_insert_ne, Es by done. cbn [default from_option].
  unfold id. rewrite Eb. by rewrite on_dir_insert.
Qed.

Lemma write_shared_ok st t : shared_ok st (write_shared (create_dir_all t "shared") st).
Proof.
  unfold write_shared. rewrite on_dir_create. unfold on_dir at 4. rewrite !on_dir_insert.
  eexists _, _. split; [apply lookup_insert_eq|]. unfold write_vrf_pks, write_vrf_secrets.
  split; [|split]; repeat (rewrite lookup_insert_ne by done); by rewrite lookup_insert_eq.
Qed.

Lemma write_node_ok st t name boot id bls vrf :
  shared_ok st t → name ≠ "shared" →
  ∃ d, write_node t name (ds_genesis st) boot id bls vrf (encode_genesis (ds_genesis st)) =
         Ok (<[name := d]> t) ∧ node_files st boot id bls vrf d.
Proof.
  intros (s & h & Es & Eh & Ep & Ek) Hn. unfold write_node. cbv zeta. rewrite on_dir_create.
  unfold on_dir at 3. rewrite !on_dir_insert.
  rewrite (copy_shared_ok _ _ _ _ _ _ Es Ep Hn), (copy_shared_ok _ _ _ _ _ _ Es Ek Hn),
    (copy_shared_ok _ _ _ _ _ _ Es Eh Hn).
  eexists. split; [done|]. unfold write_bootstrap, write_dir.
  split; repeat (rewrite lookup_insert_ne by done); by rewrite lookup_insert_eq.
Qed.

Lemma node_name_inj i j : node_name i = node_name j → i = j.
Proof. unfold node_name. cbn. intros E. injection E as E. by apply (inj pretty). Qed.

Lemma write_nodes_ok st boot ids t i :
  shared_ok st t →
  ∃ t', write_nodes t i (ds_genesis st) boot ids (encode_genesis (ds_genesis st)) = Ok t' ∧
    (∀ k id bls vrf vid, ids !! k = Some (id, bls, vrf, vid) →
       ∃ d, t' !! node_name (i + Z.of_nat k) = Some d ∧ node_files st boot id bls vrf d) ∧
    (∀ name, (∀ j, i ≤ j → name ≠ node_name j) → t' !! name = t !! name).
Proof.
  revert t i. induction ids as [|[[[id bls] vrf] vid] ids IH]; intros t i Hs; cbn [write_nodes].
  { exists t. by split; [|split]. }
  destruct (write_node_ok st t (node_name i) boot id bls vrf Hs) as (d & E & Hd); [done|]. rewrite E.
  destruct (IH (<[node_name i := d]> t) (i + 1)) as (t' & Et & Hk & Hf).
  { destruct Hs as (s & h & Es & Hs). exists s, h. by rewrite lookup_insert_ne. }
  exists t'. split; [done|]. split.
  - intros [|k] id' bls' vrf' vid' Ek; cbn in Ek.
    + simplify_eq. exists d. split; [|done]. rewrite Z.add_0_r, Hf; [apply lookup_insert_eq|].
      intros j Hj Ej. apply node_name_inj in Ej. lia.
    + destruct (Hk k _ _ _ _ Ek) as (d' & Ed & Hd'). exists d'. split; [|done].
      by replace (i + Z.of_nat (S k)) with (i + 1 + Z.of_nat k) by lia.
  - intros name Hname. rewrite Hf; [|intros j Hj; apply Hname; lia].
    rewrite lookup_insert_ne; [done|]. intros E'. by apply (Hname i).
Qed.

End files.

(** ** The state of the setup *)

Section setup.
Context `{!Crypto, !CryptoLaws} `{!Hex} `{!Signer bytes} `{!Curve, !CurveLaws} `{!DevKeys, !DevKeysLaws}.
Context `{!Libp2p, !Libp2pLaws}.

Definition identity_ok (e : NodeIdentity * bytes * bytes * ValidatorId) : Prop :=
  len (ni_ed25519 e.1.1.1) = 32 ∧ from_ed25519_secret (ni_ed25519 e.1.1.1) = Some e.1.1.1 ∧
  len e.1.1.2 = 32 ∧ len e.1.2 = 32.

Record setup_ok (n k : Z) (st : DevState) : Prop := {
  so_chain : g_chain_id (ds_genesis st) = DEVNET_CHAIN_ID;
  so_params : g_params (ds_genesis st) = g_params (Genesis_new DEVNET_CHAIN_ID);
  so_alloc : map_Forall (λ a acc, array 32 a ∧ genesis_account_wf acc) (g_alloc (ds_genesis st));
  so_alloc_size : Z.of_nat (size (g_alloc (ds_genesis st))) ≤ n;
  so_vals : map_Forall (λ v p, array 48 v ∧ u64 p) (g_validators (ds_genesis st));
  so_vals_size : Z.of_nat (size (g_validators (ds_genesis st))) ≤ k;
  so_pks : map_Forall (λ v p, length v = 48%nat ∧ length p = 32%nat) (ds_vrf_pks st);
  so_secrets : map_Forall (λ v p, length v = 48%nat ∧ length p = 32%nat) (ds_vrf_secrets st);
  so_pks_dom : dom (ds_vrf_pks st) = dom (g_validators (ds_genesis st));
  so_secrets_dom : dom (ds_vrf_secrets st) = dom (g_validators (ds_genesis st));
  so_ids : Forall identity_ok (ds_identities st);
  so_count : Z.of_nat (length (ds_identities st)) = k;
}.

Lemma map_size_insert_le {K V : Type} `{Countable K} (m : gmap K V) k v :
  (size (<[k := v]> m) ≤ S (size m))%nat.
Proof. rewrite map_size_insert. destruct (m !! k); unfold id; lia. Qed.

Lemma bank_ok ixs n k st :
  setup_ok n k st →
  setup_ok (n + Z.of_nat (length ixs)) k
    {| ds_genesis := foldl add_bank (ds_genesis st) ixs; ds_vrf_pks := ds_vrf_pks st;
       ds_vrf_secrets := ds_vrf_secrets st; ds_identities := ds_identities st |}.
Proof.
  revert n st. induction ixs as [|i ixs IH]; intros n st Hs.
  { cbn. rewrite Z.add_0_r. by destruct st. }
  pose proof (IH (n + 1) {| ds_genesis := add_bank (ds_genesis st) i; ds_vrf_pks := ds_vrf_pks st;
    ds_vrf_secrets := ds_vrf_secrets st; ds_identities := ds_identities st |}) as Hi. cbn in Hi |- *.
  replace (n + Z.of_nat (S (length ixs))) with (n + 1 + Z.of_nat (length ixs)) by lia. apply Hi.
  destruct Hs as [A1 A2 A3 A4 A5 A6 A7 A8 A9 A10 A11 A12]. split; cbn; try done.
  - apply map_Forall_insert_2; [|done]. split; [apply blake3_array|by_eval].
  - etrans; [apply Nat2Z.inj_le, map_size_insert_le|]. lia.
Qed.

Lemma add_validator_ok n k st i st' :
  setup_ok n k st → add_validator st i = Some st' → setup_ok n (k + 1) st'.
Proof.
  intros [A1 A2 A3 A4 A5 A6 A7 A8 A9 A10 A11 A12] E. unfold add_validator in E.
  destruct (bls_key_gen_ok (bls_ikm i) eq_refl) as (sk & Ek & Hsk). rewrite Ek in E.
  destruct (from_ed25519_secret (ed25519_seed i)) as [id|] eqn:Ei; [|done]. apply (inj Some) in E as <-.
  pose proof (bls_sk_to_pk_array sk) as Hpk. split; cbn; try done.
  - apply map_Forall_insert_2; [|done]. by split.
  - etrans; [apply Nat2Z.inj_le, map_size_insert_le|]. lia.
  - apply map_Forall_insert_2; [|done]. split; [apply Hpk|]. apply length_encode_point.
  - apply map_Forall_insert_2; [|done]. split; [apply Hpk|]. done.
  - by rewrite !dom_insert_L, A9.
  - by rewrite !dom_insert_L, A10.
  - apply Forall_app_2; [done|]. constructor; [|done]. unfold identity_ok. cbn.
    assert (ni_ed25519 id = ed25519_seed i) as ->.
    { unfold from_ed25519_secret in Ei. case_match; [|done]. by simplify_eq. }
    split_and!; [done|done|lia|done].
  - rewrite length_app. cbn. lia.
Qed.

Lemma add_validators_ok ixs n k st st' :
  setup_ok n k st → add_validators st ixs = Some st' → setup_ok n (k + Z.of_nat (length ixs)) st'.
Proof.
  revert k st. induction ixs as [|i ixs IH]; intros k st Hs E; cbn in E.
  { simplify_eq. cbn. by rewrite Z.add_0_r. }
  destruct (add_validator st i) as [st1|] eqn:E1; [|done]. cbn [length].
  replace (k + Z.of_nat (S (length ixs))) with (k + 1 + Z.of_nat (length ixs)) by lia.
  eapply IH; [|done]. by eapply add_validator_ok.
Qed.

Lemma dev_setup_ok n st : 0 ≤ n → dev_setup n = Some st → setup_ok n 4 st.
Proof.
  intros Hn E. unfold dev_setup in E. apply (add_validators_ok _ n 0) in E; [exact E|].
  pose proof (bank_ok (seqZ 0 n) 0 0 {| ds_genesis := Genesis_new DEVNET_CHAIN_ID; ds_vrf_pks := ∅;
    ds_vrf_secrets := ∅; ds_identities := [] |}) as Hb.
  rewrite length_seqZ, Z.add_0_l, Z2Nat.id in Hb by done. apply Hb.
  split; cbn; try done; try (by apply map_Forall_empty).
Qed.

Lemma length_concat_const {A : Type} (f : A → bytes) c l :
  Forall (λ x, length (f x) = c) l → length (concat (f <$> l)) = (c * length l)%nat.
Proof.
  induction 1 as [|x l Hx _ IH]; [by rewrite Nat.mul_0_r|]. rewrite fmap_cons. cbn [concat length].
  rewrite length_app, Hx, IH. lia.
Qed.

Lemma setup_genesis_wf n k st :
  setup_ok n k st → n ≤ U32_MAX → k ≤ U32_MAX → genesis_wf (ds_genesis st).
Proof.
  intros [A1 A2 A3 A4 A5 A6 _ _ _ _ _ _] Hn Hk. unfold genesis_wf. rewrite A1, A2.
  split_and!; try done; try lia; by_eval.
Qed.

Lemma setup_preimage n st :
  setup_ok n 4 st → n ≤ 40000000 → len (genesis_preimage (ds_genesis st)) ≤ U32_MAX.
Proof.
  intros [A1 A2 A3 A4 A5 A6 _ _ _ _ _ _] Hn. unfold genesis_preimage. rewrite A2. cbv zeta.
  set (rest := be_bytes 4 (as_u32 (len (params_iter _))) ++ _).
  assert (length rest <= 1000)%nat as Er by (apply Nat.leb_le; vm_compute; reflexivity). clearbody rest.
  rewrite !length_app, !length_be_bytes.
  rewrite (length_concat_const alloc_entry 88), (length_concat_const validator_entry 56), !length_btree_iter.
  - ulia.
  - apply Forall_btree_iter. intros v p Hv. destruct (A5 v p Hv) as [[Hl _] _].
    unfold validator_entry. cbn. by rewrite length_app, Hl.
  - apply Forall_btree_iter. intros a acc Ha. destruct (A3 a acc Ha) as [[Hl _] (_ & _ & [Hc _])].
    unfold alloc_entry. cbn. by rewrite !length_app, Hl, Hc.
Qed.

(** ** Peers *)

(** Ed25519 key pairs are made of any 32 bytes, the addresses of the compose
    network parse, and neither peer ids nor addresses take four gigabytes. *)
Context (seed_keypair : ∀ s, length s = 32%nat →
  ∃ kp, keypair_from_seed s = Some kp ∧ len (peer_to_bytes (keypair_peer_id kp)) ≤ U32_MAX).
Context (addr_parses : ∀ i, (i < 4)%nat →
  ∃ ma, addr_from_utf8 (node_addr i) = Some ma ∧ len (addr_to_string ma) ≤ U32_MAX).

Lemma identity_of_seed s : length s = 32%nat →
  ∃ id, from_ed25519_secret s = Some id ∧ ni_ed25519 id = s ∧ len (peer_to_bytes (ni_peer_id id)) ≤ U32_MAX.
Proof.
  intros Hs. destruct (seed_keypair s Hs) as (kp & E & Hl). unfold from_ed25519_secret. rewrite E. eauto.
Qed.

Lemma add_validators_total ixs st : is_Some (add_validators st ixs).
Proof.
  revert st. induction ixs as [|i ixs IH]; intros st; [by eexists|]. cbn. unfold add_validator.
  destruct (bls_key_gen_ok (bls_ikm i) eq_refl) as (sk & -> & _).
  destruct (identity_of_seed (ed25519_seed i) eq_refl) as (id & -> & _). apply IH.
Qed.

Lemma dev_boot_ok ids i boot :
  Forall identity_ok ids → (i + length ids ≤ 4)%nat → map_Forall (λ p a, peer_entry_fits (p, a)) boot →
  ∃ boot', dev_boot i ids boot = Some boot' ∧ map_Forall (λ p a, peer_entry_fits (p, a)) boot' ∧
    (size boot' ≤ size boot + length ids)%nat.
Proof.
  intros Hi. revert i boot. induction Hi as [|[[[id bls] vrf] vid] ids (Hl & He & _) _ IH]; intros i boot Hn Hb.
  { exists boot. split_and!; [done|done|lia]. }
  cbn in Hl, He, Hn. cbn [dev_boot length]. destruct (addr_parses i) as (ma & Ea & Hma); [lia|]. rewrite Ea.
  destruct (identity_of_seed (ni_ed25519 id)) as (id' & He' & _ & Hp); [lia|]. rewrite He in He'. simplify_eq.
  destruct (IH (S i) (<[ni_peer_id id' := ma]> boot)) as (boot' & Eb & Hf & Hs); [lia| |].
  { by apply map_Forall_insert_2. }
  exists boot'. split_and!; [done|done|]. pose proof (map_size_insert_le boot (ni_peer_id id') ma). lia.
Qed.

(** A directory loads to the devnet, as the node with these keys. *)
Definition loads_as (st : DevState) (boot : gmap PeerId Multiaddr) (id : NodeIdentity) (bls vrf : bytes)
    (d : gmap string bytes) : Prop :=
  (∀ path, load_dir d path = Some (Ok (NodeConfig_new (ds_genesis st) boot id path, bls, vrf))) ∧
  load_vrf_pks d = ds_vrf_pks st ∧ load_vrf_secrets d = ds_vrf_secrets st.

Lemma node_files_load n st boot id bls vrf vid d :
  setup_ok n 4 st → n ≤ 40000000 → map_Forall (λ p a, peer_entry_fits (p, a)) boot → (size boot ≤ 4)%nat →
  identity_ok (id, bls, vrf, vid) → node_files st boot id bls vrf d → loads_as st boot id bls vrf d.
Proof.
  intros Hs Hn Hf Hb (I1 & I2 & I3 & I4) [F1 F2 F3 F4 F5 F6 F7]. split; [|split].
  - intros path. apply load_dir_files; try done.
    + by eapply (setup_genesis_wf n 4); [|ulia|ulia].
    + rewrite (so_params _ _ _ Hs). by_eval.
    + by eapply setup_preimage.
    + ulia.
    + rewrite peers_iter_perm. apply map_Forall_to_list in Hf. eapply Forall_impl; [exact Hf|]. by intros [].
  - unfold load_vrf_pks. rewrite F6. apply load_keys_file. apply Hs.
  - unfold load_vrf_secrets. rewrite F7. apply load_keys_file. apply Hs.
Qed.


(** The bank has at most 65536 accounts. *)
Lemma bank_seed_wraps i : 0 ≤ i → bank_seed (i + 65536) = bank_seed i.
Proof.
  intros Hi. unfold bank_seed, as_u8. change 65536 with (256 * 256).
  rewrite Z.div_add, Z.mod_add by done. change 256 with (1 * 256) at 2. by rewrite Z.mod_add.
Qed.

End setup.

(** ** A concrete devnet *)

Definition toy_seed_signer : Signer bytes := {| verifying_key s := s; ed25519_sign _ _ := [] |}.
Definition toy_dev_keys : DevKeys :=
  {| bls_key_gen ikm := Some ikm; bls_sk_to_pk sk := be_bytes 48 (of_be sk) |}.

#[local] Existing Instances rpc_crypto rpc_crypto_laws toy_hex toy_curve toy_curve_laws toy_libp2p toy_libp2p_laws.
#[local] Existing Instances toy_seed_signer toy_dev_keys.

Lemma toy_dev_keys_laws : DevKeysLaws.
Proof. split; [by eexists|]. intros sk. split; [apply length_be_bytes|apply be_bytes_ok]. Qed.

#[local] Existing Instance toy_dev_keys_laws.

