(* ===== verification/Light.v ===== *)
(** The light client: [light/src/header.rs], [account.rs], [sync.rs], [ibc.rs].

    A client trusts a header once its certificate verifies, and then checks
    what an untrusted server says against it.  Shown: an account the client
    accepts is the account of the state the header commits to, whatever the
    server answers, up to a hash collision ([light_account_sound]); asking an
    honest server gives the account, or an error when it is absent or the
    server has another state ([light_account_complete]); synchronisation
    starts at the checkpoint and returns the last of consecutive certified
    headers ([light_sync_sound]); packets of a commitment can be proved, and
    only they ([ibc_packets_exact]).  The trust in a certificate itself is
    misplaced: one signature under any key makes one that verifies
    ([light_qc_forgeable]). *)

From Stdlib Require Import Ascii String.
From S2P Require Import Prelude Types Codec Crypto Merkle MptNode Mpt MptRep MptRefine MptSpec MptProof Store Blocks Tries Vote Leader Quorum Wasm Exec ExecSpec Rpc.
From stdpp Require Import list.

#[local] Open Scope string_scope.
#[local] Open Scope Z_scope.
#[local] Open Scope list_scope.
#[local] Open Scope l1_scope.

Inductive LightError : Type := LQc | LHeaderMismatch | LProof | LSource | LCheckpoint | LGap.

(** The server as the client sees it: [None] is a panic. *)
Abbreviation ProofSource := (Value → option (result Value StateRpcError)).

Record AnnouncedHeader := { ah_header : Header; ah_qc : QuorumCertificate }.

Record IbcCommitment := {
  ic_header_hash : Hash;
  ic_height : Height;
  ic_merkle_root : Hash;
  ic_mpt_root : bytes;
}.

Section light.
Context `{!Crypto} `{!Hex}.

(** ** [header.rs] *)

Definition light_verify_qc (header : Header) (qc : QuorumCertificate) (validators : ValidatorSet) :
    option (result unit LightError) :=
  match qc_block qc with
  | VBlock h =>
      if bool_decide (h ≠ header_hash header) then Some (Err LHeaderMismatch)
      else if negb (qc_height qc =? hf_height (h_fields header))
              || negb (qc_round qc =? hf_round (h_fields header))
      then Some (Err LHeaderMismatch)
      else map_err (λ _, LQc) <$> qc_verify qc validators
  | Nil => Some (Err LHeaderMismatch)
  end.

(** ** [account.rs] *)

Definition parse_root32 (v : Value) (key : string) : result bytes LightError :=
  match get_str v key with
  | None => Err LSource
  | Some s => decode_hex32 s LSource
  end.

Definition proof_params (header : Header) (address : Address) : Value :=
  VObject [("address", VString (encode_hex address)); ("height", VInt (hf_height (h_fields header)))].

(** The part after the answer of the server; [None] is a panic of the
    verifier ([mpt_verify_total]: there is none). *)
Definition check_response (header : Header) (address : Address) (resp : Value) :
    option (result Account LightError) :=
  match parse_root32 resp "accountRoot" with
  | Err e => Some (Err e)
  | Ok account_root =>
  match parse_root32 resp "storageRoot" with
  | Err e => Some (Err e)
  | Ok storage_root =>
      if bool_decide (state_root account_root storage_root ≠ h_state_root header) then Some (Err LProof)
      else
        match vget resp "proof" with
        | None => Some (Err LSource)
        | Some pv =>
            match proof_from_json pv with
            | Err _ => Some (Err LSource)
            | Ok proof =>
                match mpt_verify (account_key address) proof account_root with
                | None => None
                | Some false => Some (Err LProof)
                | Some true =>
                    match mp_value proof with
                    | None => Some (Err LProof)
                    | Some raw => Some (map_err (λ _, LProof) (account_decode raw))
                    end
                end
            end
        end
  end end.

Definition verify_account (header : Header) (qc : QuorumCertificate) (validators : ValidatorSet)
    (source : ProofSource) (address : Address) : option (result Account LightError) :=
  match light_verify_qc header qc validators with
  | None => None
  | Some (Err e) => Some (Err e)
  | Some (Ok _) =>
      match source (proof_params header address) with
      | None => None
      | Some (Err _) => Some (Err LSource)
      | Some (Ok resp) => check_response header address resp
      end
  end.

(** ** [sync.rs] *)

(** The first loop: the headers from the checkpoint's height on. *)
Fixpoint find_anchor (checkpoint : Checkpoint) (headers : list AnnouncedHeader) :
    result (list AnnouncedHeader) LightError :=
  match headers with
  | [] => Err LCheckpoint
  | item :: rest =>
      if hf_height (h_fields (ah_header item)) =? cp_height checkpoint then
        if bool_decide (header_hash (ah_header item) ≠ cp_header_hash checkpoint) then Err LCheckpoint
        else Ok headers
      else find_anchor checkpoint rest
  end.

(** The second loop; [ph + 1] wraps at 64 bits. *)
Fixpoint sync_loop (validators : ValidatorSet) (slice : list AnnouncedHeader)
    (prev_height : option Height) (last : option Header) : option (result Header LightError) :=
  match slice with
  | [] => Some (ok_or last LCheckpoint)
  | item :: rest =>
      match light_verify_qc (ah_header item) (ah_qc item) validators with
      | None => None
      | Some (Err e) => Some (Err e)
      | Some (Ok _) =>
          let h := hf_height (h_fields (ah_header item)) in
          if (match prev_height with
              | Some ph => negb (h =? (ph + 1) mod (U64_MAX + 1))
              | None => false
              end)
          then Some (Err LGap)
          else sync_loop validators rest (Some h) (Some (ah_header item))
      end
  end.

Definition sync_checkpoints (checkpoint : Checkpoint) (headers : list AnnouncedHeader)
    (validators : ValidatorSet) : option (result Header LightError) :=
  match find_anchor checkpoint headers with
  | Err e => Some (Err e)
  | Ok slice => sync_loop validators slice None None
  end.

(** ** [ibc.rs] *)

Definition packet_key (index : Z) : bytes := ascii_bytes "ibc/pkt/" ++ be_bytes 4 index.

Fixpoint put_packets (i : Z) (packets : list bytes) (trie : trie_result) : trie_result :=
  match packets with
  | [] => trie
  | p :: rest => put_packets (i + 1) rest (trie_put trie (packet_key (as_u32 i)) p)
  end.

Definition ibc_commitment (header : Header) (qc : QuorumCertificate) (validators : ValidatorSet)
    (packets : list bytes) : option (result (IbcCommitment * trie_result) LightError) :=
  match light_verify_qc header qc validators with
  | None => None
  | Some (Err e) => Some (Err e)
  | Some (Ok _) =>
      let trie := put_packets 0 packets trie_new in
      Some (Ok ({| ic_header_hash := header_hash header; ic_height := hf_height (h_fields header);
                   ic_merkle_root := compute_root packets; ic_mpt_root := trie_root trie |}, trie))
  end.

Definition verify_packet (commit : IbcCommitment) (index : Z) (proof : MptProof) (expected : bytes) :
    option (result unit LightError) :=
  match mpt_verify (packet_key index) proof (ic_mpt_root commit) with
  | None => None
  | Some false => Some (Err LProof)
  | Some true =>
      Some (if bool_decide (mp_value proof = Some expected) then Ok tt else Err LProof)
  end.

End light.

(** ** Certificates *)

Section certificates.
Context `{!Crypto}.

Lemma light_verify_qc_ok header qc validators u :
  light_verify_qc header qc validators = Some (Ok u) →
  qc_block qc = VBlock (header_hash header) ∧ qc_height qc = hf_height (h_fields header) ∧
  qc_round qc = hf_round (h_fields header) ∧ qc_verify qc validators = Some (Ok u).
Proof.
  unfold light_verify_qc. destruct (qc_block qc) as [|h]; [done|]. case_bool_decide as Hh; [done|].
  destruct (Z.eqb_spec (qc_height qc) (hf_height (h_fields header))); [|done].
  destruct (Z.eqb_spec (qc_round qc) (hf_round (h_fields header))); [|done]. cbn.
  destruct (qc_verify qc validators) as [[[]|]|]; [|done..]. intros E. destruct u.
  destruct (decide (h = header_hash header)) as [->|]; [done|by destruct Hh].
Qed.

(** A certificate with one signer and the power it claims. *)
Definition forged_qc (header : Header) (pk sig : bytes) : QuorumCertificate :=
  {| qc_height := hf_height (h_fields header); qc_round := hf_round (h_fields header);
     qc_block := VBlock (header_hash header); qc_signers := [pk]; qc_agg_sig := sig;
     qc_power := U64_MAX |}.

(** C28: certificates can be forged: for every header and every validator set
    (of total power below half the 64-bit range), one signature on the header
    under any key, a validator's or not, makes a certificate that the light
    client accepts; the signers are never compared with the set, and the
    power is the one the certificate claims. *)
Theorem light_qc_forgeable header validators pk sig :
  2 * total_power validators < U64_MAX → bls_pk_valid pk = true → bls_sig_valid sig = true →
  verify_fast_aggregate sig [pk]
    (signed_message (hf_height (h_fields header)) (hf_round (h_fields header)) Precommit
       (VBlock (header_hash header))) = Some true →
  light_verify_qc header (forged_qc header pk sig) validators = Some (Ok tt).
Proof.
  intros Ht Hpk Hsig Hv. unfold light_verify_qc. cbn [forged_qc qc_block qc_height qc_round].
  rewrite bool_decide_false by (by intros []). rewrite !Z.eqb_refl. cbn [negb orb].
  unfold qc_verify. cbn [qc_power qc_agg_sig qc_signers qc_height qc_round qc_block forallb forged_qc].
  assert (has_quorum U64_MAX (total_power validators) = true) as ->.
  { unfold has_quorum, exceeds_two_thirds. apply Z.ltb_lt. ulia. }
  rewrite Hsig, Hpk. cbn [negb andb]. by rewrite Hv.
Qed.

(** ** Synchronisation *)

Definition ah_height (a : AnnouncedHeader) : Height := hf_height (h_fields (ah_header a)).

(** Consecutive certified headers. *)
Definition certified_chain (validators : ValidatorSet) (slice : list AnnouncedHeader) : Prop :=
  Forall (λ a, light_verify_qc (ah_header a) (ah_qc a) validators = Some (Ok tt)) slice ∧
  ∀ i a b, slice !! i = Some a → slice !! S i = Some b →
    ah_height b = (ah_height a + 1) mod (U64_MAX + 1).

Lemma find_anchor_ok checkpoint headers slice :
  find_anchor checkpoint headers = Ok slice →
  ∃ pre a rest, headers = pre ++ slice ∧ slice = a :: rest ∧ ah_height a = cp_height checkpoint ∧
    header_hash (ah_header a) = cp_header_hash checkpoint ∧
    Forall (λ b, ah_height b ≠ cp_height checkpoint) pre.
Proof.
  induction headers as [|item rest IH]; [done|]. cbn.
  destruct (Z.eqb_spec (hf_height (h_fields (ah_header item))) (cp_height checkpoint)) as [Hh|Hh].
  - case_bool_decide as Hx; [done|]. intros E. injection E as <-. exists [], item, rest.
    split_and!; done.
  - intros (pre & a & r & -> & -> & ? & ? & ?)%IH. exists (item :: pre), a, r. split_and!; try done. by constructor.
Qed.

Lemma sync_loop_ok validators slice prev last h :
  sync_loop validators slice prev last = Some (Ok h) →
  certified_chain validators slice ∧
  (∀ a ph, slice !! 0%nat = Some a → prev = Some ph → ah_height a = (ph + 1) mod (U64_MAX + 1)) ∧
  match list.last slice with Some a => h = ah_header a | None => last = Some h end.
Proof.
  revert prev last. induction slice as [|a slice IH]; intros prev last E; cbn [sync_loop] in E.
  { destruct last; [|done]. cbn in E. injection E as ->. split_and!; try done. }
  destruct (light_verify_qc _ _ _) as [[[]|]|] eqn:Ev; [|done..].
  assert (∀ ph, prev = Some ph → ah_height a = (ph + 1) mod (U64_MAX + 1)) as Hp.
  { intros ph ->. destruct (Z.eqb_spec (hf_height (h_fields (ah_header a))) ((ph + 1) mod (U64_MAX + 1))); done. }
  case_match; [done|]. destruct (IH _ _ E) as ([Hall Hc] & Hfst & Hlast). split_and!.
  - split; [by constructor|]. intros [|i] x y Hx Hy; [|by apply (Hc i)].
    cbn in Hx. simplify_eq. by eapply Hfst.
  - intros x ph Hx. cbn in Hx. simplify_eq. apply Hp.
  - destruct slice as [|b slice]; [cbn in *; congruence|]. change (list.last (a :: b :: slice)) with (list.last (b :: slice)). destruct (list.last (b :: slice)) eqn:El; [done|by apply last_None in El].
Qed.

Lemma sync_heights slice a i b :
  (∀ i a b, slice !! i = Some a → slice !! S i = Some b → ah_height b = (ah_height a + 1) mod (U64_MAX + 1)) →
  slice !! 0%nat = Some a → 0 ≤ ah_height a → ah_height a + len slice ≤ U64_MAX →
  slice !! i = Some b → ah_height b = ah_height a + Z.of_nat i.
Proof.
  intros Hc Ha H0 Hl. revert b. induction i as [|i IH]; intros b Hb; [simplify_eq; lia|].
  destruct (lookup_lt_is_Some_2 slice i) as [c Hi]; [apply lookup_lt_Some in Hb; lia|].
  apply lookup_lt_Some in Hb as Hlt. rewrite (Hc i c b Hi Hb), (IH c Hi), Z.mod_small by ulia. lia.
Qed.

(** Synchronisation is anchored: a header that [sync_checkpoints] returns
    is the last of a run of announced headers that starts with the one the
    checkpoint names (height and hash), in which every header has a
    certificate that verifies and every height is one more than the one
    before. *)
Theorem light_sync_sound checkpoint headers validators h :
  0 ≤ cp_height checkpoint → cp_height checkpoint + len headers ≤ U64_MAX →
  sync_checkpoints checkpoint headers validators = Some (Ok h) →
  ∃ pre a rest b, headers = pre ++ a :: rest ∧ header_hash (ah_header a) = cp_header_hash checkpoint ∧
    Forall (λ x, light_verify_qc (ah_header x) (ah_qc x) validators = Some (Ok tt)) (a :: rest) ∧
    (∀ i x, (a :: rest) !! i = Some x → ah_height x = cp_height checkpoint + Z.of_nat i) ∧
    list.last (a :: rest) = Some b ∧ h = ah_header b.
Proof.
  intros H0 Hl. unfold sync_checkpoints. destruct (find_anchor checkpoint headers) as [slice|] eqn:Ef; [|done].
  destruct (find_anchor_ok _ _ _ Ef) as (pre & a & rest & -> & -> & Ha & Hh & _). intros E.
  destruct (sync_loop_ok _ _ _ _ _ E) as ([Hall Hc] & _ & Hlast).
  destruct (list.last (a :: rest)) as [b|] eqn:El; [|by apply last_None in El].
  exists pre, a, rest, b. split_and!; try done. intros i x Hx. rewrite <- Ha.
  eapply sync_heights; [exact Hc|done|lia| |done]. rewrite length_app in Hl. lia.
Qed.

End certificates.

(** ** Proofs that a trie produces are well formed *)

Section produced.
Context `{!Crypto, !CryptoLaws}.

(** The node payloads are byte strings. *)
Definition nodes_bytes (t : Trie) : Prop := map_Forall (λ _ b, bytes_ok b) (st_nodes (t_nodes t)).

Lemma prove_walk_bytes fuel t h rem acc nodes v :
  nodes_bytes t → Forall bytes_ok acc → prove_walk fuel t h rem acc = Some (Some (nodes, v)) →
  Forall bytes_ok nodes.
Proof.
  intros Ht. revert h rem acc. induction fuel as [|fuel IH]; intros h rem acc Ha E; [done|].
  cbn [prove_walk] in E. destruct (node_bytes t h) as [b|] eqn:Eb; [|done].
  assert (Forall bytes_ok (acc ++ [b])) as Hab by (apply Forall_app; split; [done|]; constructor; [by eapply Ht|done]).
  cbn zeta in E. repeat (case_hyp E; try discriminate E); simplify_eq; eauto.
Qed.

Lemma mpt_prove_wf t key p :
  nodes_bytes t → mpt_prove t key = Some (Some p) → (∀ v, mp_value p = Some v → bytes_ok v) → proof_wf p.
Proof.
  intros Ht. unfold mpt_prove, bind_chain, prove. destruct (prove_walk _ _ _ _ _) as [[[nodes v]|]|] eqn:Ew; [|done..].
  destruct (Nat.leb_spec (length nodes) 0) as [|Hn]; [done|]. intros E Hv. apply (inj Some), (inj Some) in E as <-.
  split; [|split; [exact Hv|split; [|split]]]; cbn [mp_nodes mp_chain_merkle_root mp_chain_merkle siblings leaf_index].
  - by eapply prove_walk_bytes.
  - apply compute_root_array.
  - apply prove_loop_arrays; [apply hash_arrays_leaves|by rewrite length_fmap].
  - by uint.
Qed.

Lemma tinv_root_array t mm : tinv t mm → array 32 (t_root t).
Proof.
  intros (_ & _ & kd & m & Hr & _). assert (∃ n L, stored L n (t_root t)) as (n & L & -> & _).
  { destruct kd as [kd|]; cbn in Hr; [destruct Hr; eauto|]. destruct Hr; eauto. }
  apply blake3_array.
Qed.

End produced.

(** ** Accounts *)

Lemma account_encode_bytes acc : account_wf acc → bytes_ok (account_encode acc).
Proof.
  intros (_ & _ & _ & Hc). apply encode_ok, Forall_app_2; [apply be_bytes_ok|].
  apply Forall_app_2; [apply be_bytes_ok|exact Hc].
Qed.

Section accounts.
Context `{!Crypto, !CryptoLaws} `{!Hex}.

(** The answer of the server exhibits a collision: its roots hash to the
    state root without being the roots of the state, or a node of its proof
    collides with a node of the accounts trie. *)
Definition response_collision (t : Trie) (storage_root : bytes) (resp : Value) : Prop :=
  ∃ a s, parse_root32 resp "accountRoot" = Ok a ∧ parse_root32 resp "storageRoot" = Ok s ∧
    (collides (tree_inputs [a; s]) (tree_inputs [t_root t; storage_root]) ∨
     ∃ pv p, vget resp "proof" = Some pv ∧ proof_from_json pv = Ok p ∧
       proof_collision (mp_nodes p) (st_log (t_nodes t))).

(** C8: the light client cannot be lied to about an account: if the state
    root of the header commits to an accounts trie that holds the accounts
    [am], then whatever the server answers, an account that [verify_account]
    returns is the one [am] has at the address, unless the answer exhibits a
    hash collision; and the certificate was verified. *)
Theorem light_account_sound header qc validators source address acc t am storage_root :
  aholds (TOk t) am → array 32 address → h_state_root header = commit_root (t_root t) storage_root →
  verify_account header qc validators source address = Some (Ok acc) →
  light_verify_qc header qc validators = Some (Ok tt) ∧
  ∃ resp, source (proof_params header address) = Some (Ok resp) ∧
    (am !! address = Some acc ∨ response_collision t storage_root resp).
Proof.
  intros [Ht Hwf] Ha Hroot. unfold verify_account.
  destruct (light_verify_qc _ _ _) as [[[]|]|]; [|done..].
  destruct (source _) as [[resp|]|]; [|done..]. intros E. split; [done|]. exists resp. split; [done|].
  unfold check_response in E.
  destruct (parse_root32 resp "accountRoot") as [a|] eqn:Ea; [|done].
  destruct (parse_root32 resp "storageRoot") as [s|] eqn:Es; [|done].
  case_bool_decide as Hst; [done|].
  destruct (vget resp "proof") as [pv|] eqn:Epv; [|done].
  destruct (proof_from_json pv) as [p|] eqn:Ep; [|done].
  destruct (mpt_verify _ p a) as [[|]|] eqn:Ev; [|done..].
  destruct (mp_value p) as [raw|] eqn:Er; [|done]. injection E as E.
  rewrite state_root_commit_root, Hroot in Hst.
  destruct (compute_root_binding [a; s] [t_root t; storage_root]) as [Heq|Hc]; [done|done| |].
  2: { right. exists a, s. auto. }
  injection Heq as -> ->.
  destruct (mpt_verify_sound t _ _ p Ht (proj2 Ha) Ev) as [Hval|Hc].
  2: { right. exists (t_root t), storage_root. eauto 10. }
  left. rewrite Er in Hval. unfold account_key in Hval. rewrite lookup_fmap in Hval.
  destruct (am !! address) as [acc'|] eqn:Eacc; [|done]. apply (inj Some) in Hval as ->.
  change (map_err (λ _, LProof) (account_decode (account_encode acc')) = Ok acc) in E.
  rewrite account_decode_encode in E by apply (Hwf address acc' Eacc). injection E as ->. done.
Qed.

Context `{!HexLaws}.

(** The JSON object of the answer of [get_proof]. *)
Definition proof_response (height root account_root storage_root : Value) (proof : MptProof) : Value :=
  VObject [("height", height); ("stateRoot", root); ("accountRoot", account_root);
           ("storageRoot", storage_root); ("proof", proof_json proof)].

Lemma get_proof_params i header address t mm :
  accounts (r_world i) = TOk t → tinv t mm → array 32 address → 0 ≤ hf_height (h_fields header) ≤ U64_MAX →
  ∃ p root, mpt_prove t address = Some (Some p) ∧ mp_value p = mm !! address ∧
    mpt_verify address p (t_root t) = Some true ∧
    get_proof i (proof_params header address) =
      Some (Ok (proof_response (VInt (hf_height (h_fields header))) root
        (VString (encode_hex (t_root t))) (VString (encode_hex (trie_root (w_storage (r_world i))))) p)).
Proof.
  intros Et Ht Ha Hh. destruct (mpt_prove_complete t mm address Ht (proj2 Ha)) as (p & Ep & Hv & Hver & _).
  unfold get_proof. rewrite Et.
  assert (parse_addr (proof_params header address) = Ok address) as ->
    by (unfold parse_addr; cbn; by apply decode_hex32_encode).
  assert (get_u64 (proof_params header address) "height" = Some (hf_height (h_fields header))) as ->.
  { unfold get_u64. cbn. rewrite (proj2 (Z.leb_le 0 _)), (proj2 (Z.leb_le _ U64_MAX)) by lia. done. }
  cbn zeta. unfold prove_account, account_key. rewrite Ep. eexists p, _. by split_and!.
Qed.

Lemma check_proof_response header address height root a s p t am :
  aholds (TOk t) am → array 32 address → array 32 a → array 32 s → proof_wf p →
  mp_value p = (account_encode <$> am) !! address → mpt_verify address p a = Some true →
  check_response header address
    (proof_response height root (VString (encode_hex a)) (VString (encode_hex s)) p) =
  Some (if bool_decide (h_state_root header = commit_root a s)
        then ok_or (am !! address) LProof else Err LProof).
Proof.
  intros [_ Hwf] Ha Hra Hrs Hp Hv Hver. unfold check_response, proof_response.
  assert (∀ l, parse_root32 (VObject l) "accountRoot" =
    match entry l "accountRoot" ≫= as_str with None => Err LSource | Some s => decode_hex32 s LSource end) as -> by done.
  assert (∀ l, parse_root32 (VObject l) "storageRoot" =
    match entry l "storageRoot" ≫= as_str with None => Err LSource | Some s => decode_hex32 s LSource end) as -> by done.
  cbn [entry List.find String.eqb Ascii.eqb Bool.eqb fst snd fmap option_fmap option_map mbind option_bind as_str vget].
  rewrite !decode_hex32_encode by done. rewrite state_root_commit_root.
  destruct (decide (h_state_root header = commit_root a s)) as [Hs|Hs].
  2: { rewrite bool_decide_true by congruence. by rewrite bool_decide_false. }
  rewrite bool_decide_false by (intros Hn; by apply Hn). rewrite (bool_decide_true _ Hs).
  rewrite proof_json_ok by done. unfold account_key. rewrite Hver, Hv, lookup_fmap.
  destruct (am !! address) as [acc|] eqn:Eacc; [|done]. cbn [fmap option_fmap option_map ok_or].
  by rewrite account_decode_encode by apply (Hwf address acc Eacc).
Qed.

(** An honest server is believed: on a header whose certificate verifies,
    asking a server whose world holds the accounts [am] returns the account
    at the address when the header commits to that world, and the error
    [Proof] when the account is absent or the header commits to another state
    (a server has the proofs of its current state only, whatever height is
    asked for). *)
Theorem light_account_complete i header qc validators address t am sm :
  light_verify_qc header qc validators = Some (Ok tt) → accounts (r_world i) = TOk t →
  aholds (TOk t) am → nodes_bytes t → trie_holds (w_storage (r_world i)) sm →
  array 32 address → 0 ≤ hf_height (h_fields header) ≤ U64_MAX →
  verify_account header qc validators (get_proof i) address =
    Some (if bool_decide (h_state_root header = commit_state_root (r_world i))
          then ok_or (am !! address) LProof else Err LProof).
Proof.
  intros Hqc Et Hh Hn Hst Ha Hhgt. unfold verify_account. rewrite Hqc.
  destruct (get_proof_params i header address t _ Et (proj1 Hh) Ha Hhgt) as (p & root & Ep & Hv & Hver & ->).
  assert (array 32 (trie_root (w_storage (r_world i)))) as Hs.
  { destruct (w_storage (r_world i)) as [st|]; [|done]. exact (tinv_root_array _ _ Hst). }
  rewrite (check_proof_response _ _ _ _ _ _ _ t am); try done.
  - unfold commit_state_root, commit_tries. rewrite Et. done.
  - eapply tinv_root_array, Hh.
  - eapply mpt_prove_wf; [done|done|]. intros v Ev. rewrite Hv, lookup_fmap in Ev.
    destruct (am !! address) as [acc|] eqn:Eacc; [|done]. cbn in Ev. apply (inj Some) in Ev as <-.
    apply account_encode_bytes. by eapply (proj2 Hh).
Qed.

End accounts.

(** ** Packets *)

Section packets.
Context `{!Crypto, !CryptoLaws}.

Lemma packet_key_ok i : key_ok (packet_key i).
Proof.
  split.
  - apply Forall_app_2; [by_eval|apply be_bytes_ok].
  - unfold packet_key. rewrite length_app, length_be_bytes. by uint.
Qed.

Lemma packet_key_inj i j : u32 i → u32 j → packet_key i = packet_key j → i = j.
Proof.
  intros Hi Hj E. unfold packet_key in E. apply app_inv_head in E.
  rewrite <- (of_be_be_bytes 4 i), <- (of_be_be_bytes 4 j) by ulia. by rewrite E.
Qed.

Lemma put_packets_safe packets i r : trie_safe (put_packets i packets r) → trie_safe r.
Proof.
  revert i r. induction packets as [|p packets IH]; intros i r Hs; [done|]. by eapply safe_put, IH.
Qed.

(** The trie after the loop holds the packets under their indices, beside
    what it held. *)
Lemma put_packets_holds packets n r m :
  trie_holds r m → Forall val_ok packets → 0 ≤ n → n + len packets ≤ U32_MAX + 1 →
  trie_safe (put_packets n packets r) →
  ∃ m', trie_holds (put_packets n packets r) m' ∧
    ∀ j, u32 j → m' !! packet_key j =
      if decide (n ≤ j) then match packets !! Z.to_nat (j - n) with Some p => Some p | None => m !! packet_key j end
      else m !! packet_key j.
Proof.
  intros Hr Hp. revert n r m Hr. induction Hp as [|p packets Hv _ IH]; intros n r m Hr Hn Hlen Hs.
  { exists m. split; [done|]. intros j _. by case_decide. }
  cbn [put_packets] in *. rewrite length_cons in Hlen.
  assert (as_u32 n = n) as En by (apply as_u32_small; lia). rewrite En in *.
  destruct (IH (n + 1) (trie_put r (packet_key n) p) (<[packet_key n := p]> m)) as (m' & Hm' & Hl);
    [|lia|lia|done|].
  { apply holds_put; [done|apply packet_key_ok|done|]. by eapply put_packets_safe. }
  exists m'. split; [done|]. intros j Hj. rewrite Hl by done.
  destruct (decide (n = j)) as [<-|Hne].
  - rewrite decide_False by lia. rewrite decide_True, Z.sub_diag by lia. cbn. by rewrite lookup_insert_eq.
  - rewrite (lookup_insert_ne m) by (intros E; apply packet_key_inj in E; [done|ulia|done]).
    destruct (decide (n ≤ j)); [|by rewrite decide_False by lia].
    rewrite decide_True by lia. by replace (Z.to_nat (j - n)) with (S (Z.to_nat (j - (n + 1)))) by lia.
Qed.

(** A commitment proves its packets and nothing else: a commitment to at
    most 2^32 packets names the certified header, every packet has a proof
    that [verify_packet] accepts at its index, and an accepted packet is the
    committed one at that index, unless a node of the proof collides with a
    node of the commitment's trie. *)
Theorem ibc_packets_exact header qc validators packets c r :
  ibc_commitment header qc validators packets = Some (Ok (c, r)) →
  Forall val_ok packets → len packets ≤ U32_MAX + 1 → trie_safe r →
  light_verify_qc header qc validators = Some (Ok tt) ∧ ic_header_hash c = header_hash header ∧
  ∃ t, r = TOk t ∧
    (∀ i p, packets !! i = Some p →
       ∃ proof, mpt_prove t (packet_key (Z.of_nat i)) = Some (Some proof) ∧
         verify_packet c (Z.of_nat i) proof p = Some (Ok tt)) ∧
    (∀ j proof p, u32 j → verify_packet c j proof p = Some (Ok tt) →
       packets !! Z.to_nat j = Some p ∨ proof_collision (mp_nodes proof) (st_log (t_nodes t))).
Proof.
  intros E Hv Hl Hs. unfold ibc_commitment in E. destruct (light_verify_qc _ _ _) as [[[]|]|]; [|done..].
  injection E as <- <-. split; [done|]. split; [done|].
  destruct (put_packets_holds packets 0 trie_new ∅ holds_new Hv) as (m & Hm & Hlook); [lia|lia|done|].
  assert (∀ j, u32 j → m !! packet_key j = packets !! Z.to_nat j) as Hlook'.
  { intros j Hj. rewrite Hlook, decide_True by ulia. rewrite Z.sub_0_r, lookup_empty. by destruct (packets !! _). }
  unfold verify_packet. cbn [ic_mpt_root].
  change trie_new with (TOk Trie_new) in Hm.
  destruct (put_packets 0 packets (TOk Trie_new)) as [t|]; [|destruct Hm]. exists t. split; [done|]. split.
  - intros i p Hi. pose proof (lookup_lt_Some _ _ _ Hi).
    destruct (mpt_prove_complete t m (packet_key (Z.of_nat i)) Hm) as (proof & Ep & Ev & Hver & _); [apply packet_key_ok|].
    exists proof. split; [done|]. rewrite Hver, Ev, Hlook' by ulia.
    by rewrite Nat2Z.id, Hi, bool_decide_true.
  - intros j proof p Hj.
    destruct (mpt_verify _ _ _) as [[|]|] eqn:Ever; [|done..]. case_bool_decide as Hp; [|done]. intros _.
    destruct (mpt_verify_sound t m _ proof Hm (proj1 (packet_key_ok j)) Ever) as [Hval|Hc]; [|by right].
    left. by rewrite <- Hlook', <- Hval.
Qed.

End packets.

(** ** A client of the concrete server *)

#[local] Existing Instances rpc_crypto rpc_crypto_laws toy_hex toy_hex_laws.

Definition light_header (height : Height) : Header :=
  {| h_fields := {| hf_height := height; hf_round := 0; hf_proposer := val_a; hf_timestamp_ms := 9 |};
     h_tx_root := Hash_ZERO; h_state_root := commit_state_root (r_world toy_server);
     h_receipts_root := Hash_ZERO; h_validators_hash := Hash_ZERO; h_da_root := Hash_ZERO |}.

(** A key outside [toy_set]. *)
Definition outsider : bytes := replicate 48 200.
Definition light_qc (height : Height) : QuorumCertificate :=
  forged_qc (light_header height) outsider (replicate 96 1).

Lemma light_qc_forgeable_witness :
  toy_set !! outsider = None ∧ light_verify_qc (light_header 4) (light_qc 4) toy_set = Some (Ok tt).
Proof.
  split; [vm_compute; reflexivity|].
  apply (light_qc_forgeable (light_header 4) toy_set outsider (replicate 96 1));
    [by_eval|reflexivity|reflexivity|vm_compute; reflexivity].
Defined.

Definition announced (height : Height) : AnnouncedHeader :=
  {| ah_header := light_header height; ah_qc := light_qc height |}.
Definition light_checkpoint : Checkpoint :=
  {| cp_height := 4; cp_header_hash := header_hash (light_header 4) |}.

Lemma light_sync_sound_witness :
  ∃ pre a rest b, [announced 3; announced 4; announced 5] = pre ++ a :: rest ∧
    header_hash (ah_header a) = cp_header_hash light_checkpoint ∧
    list.last (a :: rest) = Some b ∧ light_header 5 = ah_header b.
Proof.
  destruct (light_sync_sound light_checkpoint [announced 3; announced 4; announced 5] toy_set (light_header 5))
    as (pre & a & rest & b & E & Hh & _ & _ & Hl & Hb); [by_eval|by_eval|vm_compute; reflexivity|].
  exists pre, a, rest, b. exact (conj E (conj Hh (conj Hl Hb))).
Defined.

Definition served_trie : Trie :=
  match accounts (r_world toy_server) with TOk t => t | TPanic _ => Trie_new end.
Definition served_accounts : gmap Address Account := from_genesis <$> g_alloc toy_genesis.

Lemma served_trie_ok : accounts (r_world toy_server) = TOk served_trie.
Proof.
  pose proof (proj1 toy_server_holds) as Hh. unfold served_trie.
  destruct (accounts (r_world toy_server)); [reflexivity|destruct Hh].
Qed.

Lemma served_holds : aholds (TOk served_trie) served_accounts.
Proof. rewrite <- served_trie_ok. exact toy_server_holds. Qed.

Definition toy_account : Account := default Account_empty (served_accounts !! toy_from).

Lemma toy_verified : verify_account (light_header 4) (light_qc 4) toy_set (get_proof toy_server) toy_from =
  Some (Ok toy_account).
Proof. vm_compute. reflexivity. Qed.

Lemma toy_from_array : array 32 toy_from.
Proof. by_eval. Qed.

Lemma light_account_sound_witness :
  ∃ resp, get_proof toy_server (proof_params (light_header 4) toy_from) = Some (Ok resp) ∧
    (served_accounts !! toy_from = Some toy_account ∨
     response_collision served_trie (trie_root (w_storage (r_world toy_server))) resp).
Proof.
  refine (proj2 (light_account_sound (light_header 4) (light_qc 4) toy_set (get_proof toy_server) toy_from
    toy_account served_trie served_accounts (trie_root (w_storage (r_world toy_server)))
    served_holds toy_from_array _ toy_verified)).
  unfold light_header, commit_state_root, commit_tries. cbn [h_state_root]. rewrite served_trie_ok. reflexivity.
Defined.

Lemma served_bytes : nodes_bytes served_trie.
Proof. refine (bool_decide_unpack _ _). vm_compute. exact I. Qed.

Lemma light_account_complete_witness :
  verify_account (light_header 4) (light_qc 4) toy_set (get_proof toy_server) toy_from =
    Some (if bool_decide (h_state_root (light_header 4) = commit_state_root (r_world toy_server))
          then ok_or (served_accounts !! toy_from) LProof else Err LProof).
Proof.
  apply (light_account_complete toy_server (light_header 4) (light_qc 4) toy_set toy_from served_trie
    served_accounts ∅).
  - vm_compute. reflexivity.
  - exact served_trie_ok.
  - exact served_holds.
  - exact served_bytes.
  - exact (holds_new (T := trie_result)).
  - exact toy_from_array.
  - by_eval.
Defined.

Definition toy_packets : list bytes := [[1; 2; 3]; [4; 5]; []].
Definition packets_trie : trie_result := put_packets 0 toy_packets trie_new.
Definition packets_commitment : IbcCommitment :=
  {| ic_header_hash := header_hash (light_header 4); ic_height := 4;
     ic_merkle_root := compute_root toy_packets; ic_mpt_root := trie_root packets_trie |}.

Lemma ibc_packets_exact_witness :
  ∃ t, packets_trie = TOk t ∧
    ∃ proof, mpt_prove t (packet_key 1) = Some (Some proof) ∧
      verify_packet packets_commitment 1 proof [4; 5] = Some (Ok tt).
Proof.
  destruct (ibc_packets_exact (light_header 4) (light_qc 4) toy_set toy_packets packets_commitment packets_trie)
    as (_ & _ & t & Et & Hp & _).
  - assert (light_verify_qc (light_header 4) (light_qc 4) toy_set = Some (Ok tt)) as Hqc
      by (vm_compute; reflexivity).
    unfold ibc_commitment. rewrite Hqc. reflexivity.
  - by_eval.
  - by_eval.
  - apply collision_free_b_spec. vm_compute. reflexivity.
  - exists t. split; [exact Et|]. apply (Hp 1%nat [4; 5]). reflexivity.
Defined.
